(* ===== verification/_CoqProject ===== *)
-Q . S2P
Prelude.v
Table.v
TableInv.v
TableSet.v
TableSpread.v
TableDelete.v
TableSpec.v
ShardMap.v
ShardMapSpec.v
Sample.v
Sketch.v
SketchSpec.v
Doorkeeper.v
Buffer.v
Policy.v
Hash.v
Cache.v
CacheSpec.v
CacheOps.v
CacheProps.v
Resp.v
RespSpec.v
Writer.v
WriterSpec.v
Replies.v
Server.v
ServerSpec.v
ServerCache.v
Expiry.v
KeyCommands.v
ServerProps.v
Session.v
SessionSpec.v
SessionProps.v
EventLoop.v
EventLoopSpec.v
EventLoopProps.v
Lifecycle.v
LifecycleSpec.v
Float.v
Flags.v
FlagsSpec.v
Main.v
MainProps.v
Bench.v
BenchSpec.v
FloatText.v
Csv.v
CsvSpec.v
RedisBench.v
Json.v
JsonSpec.v
Memtier.v
Driver.v
Compare.v
CompareSpec.v
CompareProps.v
Splice.v
EventSession.v
