(* ===== verification/Prelude.v ===== *)
(** * cachemoney: a verified model of the cache server

    cachemoney is a Redis-compatible in-memory cache.  A client's bytes pass through
    the RESP reader, the dispatcher and its command handlers, the cache engine with
    its eviction policy, and the sharded Robin Hood map, and come back through the
    RESP writer.  This library models that path from the socket to the slots of the
    table, the server's goroutines around it, and the binary that starts it.

    ** Parts and files

    - [internal/shardmap/table.go]: [Table] (the open-addressing table with its packed
      16-bit metadata, [set], [lookup], [delete], [grow], [shrink]); [TableInv] (the
      invariant), [TableSet], [TableSpread], [TableDelete] (its preservation and when
      an insert returns), [TableSpec] (refinement of a finite map).
    - [internal/shardmap/map.go], [options.go], [sample.go]: [ShardMap], [ShardMapSpec]
      and [Sample].
    - [internal/tinylfu]: [Sketch] and [SketchSpec] (Count-Min sketch with packed 4-bit
      counters), [Doorkeeper], [Buffer] (striped lossy access buffer), [Policy] (the
      facade and its drainer as a step relation).
    - [internal/hash]: [Hash], over the class of seeded hash functions.
    - [internal/cache]: [Cache] (every operation of [Engine] and [Tunable], eviction,
      accounting), [CacheSpec], [CacheOps], [CacheProps].
    - [internal/resp]: [Resp] and [RespSpec] (reader), [Writer] and [WriterSpec]
      (writer), [Replies] (the client's view of the written bytes).
    - [internal/server], commands: [Server] (handlers, table and [dispatch] over the
      class [Engine]), [ServerSpec] (the laws [EngineLaws] an engine owes the server,
      and one specification per handler), [ServerCache] (the cache obeys the laws),
      [Expiry] and [KeyCommands] (the meaning of SET's options and of the key
      commands), [ServerProps].
    - [internal/server], connections: [Session], [SessionSpec], [SessionProps] (the
      blocking loop of [serveConn]); [EventLoop], [EventLoopSpec], [EventLoopProps],
      [EventSession] (the incremental parser, [OnOpen], [OnTraffic] and a connection of
      the event engine).
    - [internal/server], goroutines: [Lifecycle] and [LifecycleSpec] ([Serve],
      [serveConn], [dropConn] and [Shutdown] as interleaved steps).
    - [cmd/cachemoney]: [Flags] and [FlagsSpec] (the flag package and the value
      parsers of the standard library), [Main] and [MainProps] ([parseConfig], [run],
      [main]).
    - [internal/bench]: [Float] (binary64, its order and formatting, and the stable
      sort), [Bench] and [BenchSpec] (medians, aggregation and the rendered table);
      [FloatText] ([strconv.ParseFloat]), [Csv] and [CsvSpec] ([encoding/csv]), [Json]
      and [JsonSpec] ([encoding/json]) below [RedisBench] and [Memtier], the parsers of
      the tools' output.
    - [cmd/cmbench]: [Driver] (the host, settings and servers), [Compare] (planning, the
      comparison, one measurement, [main]), [CompareSpec] and [CompareProps] (its
      protocol with the host), [Splice] (the results document).

    ** How the code is modelled

    Go code is translated function by function under its own names.  Integers are [Z]
    with the wrap-around of their width written out ([u16], [u64], [i64]); a slice is
    a list whose out-of-range accesses panic ([aget], [aset]); [outcome] separates a
    result from a panic and from running forever.  The four slot arrays of a table are
    parallel lists, a shard array is a list of tables, strings and byte slices are
    lists of bytes.  [make] panics beyond the runtime's limit, counted in bytes: element
    sizes are literals, or [go_size] of the type parameters ([GoType]).  The clock, the random source, lock attempts, the bytes a socket
    delivers and accepts, and the environment are arguments or classes with the laws
    their documentation states.  Each map operation holds one shard lock for its
    whole work and is one step; the goroutines of the policy's drainer and of the
    server are step relations whose every interleaving is covered.

    ** What the theorems show

    - Table and map: every operation that returns keeps the invariant and acts on a
      finite map as its name says; lookup and delete always return, and an insert
      returns when the hashes are spread ([TableSpec], [ShardMapSpec]);
      sampling is safe for every random source ([Sample]).
    - Policy: the sketch's estimates lie between the exact count and the count of all
      colliding accesses, the doorkeeper has no false negatives, the buffer loses only
      what it must, and no interleaving with the drainer panics.
    - Cache: the memory counter is the sum of the costs in every reachable state; [Set]
      never evicts what it wrote and is refused exactly under noeviction; eviction
      stops; an unbounded cache refines a map with expiry times that answers at one
      instant, unless a key expires between the two clock readings of its TTL.
    - Protocol: the reader accepts exactly the canonical encodings however the network
      splits them; the writer's frames decode to themselves, cut anywhere.
    - Server: one well-formed reply per command over any lawful engine; expiry options
      mean what they say in unbounded integers; a connection, end to end, dispatches
      each command once and in order and delivers what that dispatch wrote, on both
      engines ([answers] in [SessionSpec]); the two parsers agree; connections and semaphore
      tokens match in every interleaving, and a shutdown drains.
    - Binary: the configuration is the last flag, else what the environment reads as,
      else the built-in value; the engine is closed behind a drained server.
    - Benchmark results: medians over runs are what any sort gives, and the table does
      not depend on the order of its input when no server has two results; the output parsers return on every input,
      and read back tables of quoted fields and JSON texts without escapes.
    - Benchmark driver: on any host with a forward clock it returns, keeps one server
      container at a time, accounts for every server, and cleans up; splicing a table
      changes only what is between the markers.

    ** Fuel

    A loop takes fuel where its recursion is not structural, and running out of it is
    [Diverge], so a theorem that gives [Ret] shows the loop stops: [S (length meta)]
    probes reach an empty slot; 64 nested grows exceed what [make] allows; a connection
    takes at most one round per input byte; an eviction pass at most the stored entries
    and 101 samples without a victim.  [itoa] writes at most 20 digits, enough for 64
    bits.  The CSV and JSON parsers take a byte per round or call ([ReadAll_returns],
    [parse_fuel]); waiting for a server takes at least half a second per round.
    [ParseDuration] takes a byte per round, and more fuel changes nothing
    ([duration_loop_fuel]).

    ** Not modelled

    - Sockets, the gnet event engine, docker, the benchmark tools and process signals
      themselves: they are parameters, classes with laws, or the steps of a relation.
    - Data races below the level of a lock or an atomic access, and memory layout
      (padding, scratch buffers).
    - Log lines, and the texts of the errors of [encoding/csv] and [encoding/json],
      which are parameters. *)

From stdpp Require Export base tactics list numbers gmap fin_maps.
From Stdlib Require Export ZArith Lia.

#[global] Open Scope Z_scope.

(** ** Machine integers

    A Go integer of width [w] is a [Z] kept in its range by the wrap functions
    below; every arithmetic operation of the source that can leave the range is
    written with its wrap. *)
Definition u16 (x : Z) : Z := x mod 2 ^ 16.
Definition u64 (x : Z) : Z := x mod 2 ^ 64.
Definition i64 (x : Z) : Z := (x + 2 ^ 63) mod 2 ^ 64 - 2 ^ 63.

Definition in_u16 (x : Z) : Prop := 0 <= x < 2 ^ 16.
Definition in_u64 (x : Z) : Prop := 0 <= x < 2 ^ 64.
Definition in_i64 (x : Z) : Prop := - 2 ^ 63 <= x < 2 ^ 63.

(** ** Outcomes of Go code

    A computation returns a value, panics (an index or a slice length out of
    range) or runs forever.  Loops are fixpoints on a fuel argument; running out
    of fuel is [Diverge], so a theorem that ends in [Ret] also states that the
    loop stops and that no index is out of range. *)
Inductive outcome (A : Type) : Type :=
| Ret (a : A)
| Panic
| Diverge.
Arguments Ret {A} _.
Arguments Panic {A}.
Arguments Diverge {A}.

#[global] Instance outcome_ret : MRet outcome := @Ret.
#[global] Instance outcome_bind : MBind outcome := fun A B f m =>
  match m with Ret a => f a | Panic => Panic | Diverge => Diverge end.

#[global] Instance outcome_eq_dec {A} `{!EqDecision A} : EqDecision (outcome A).
Proof. solve_decision. Defined.

(** [l[i]] and [l[i] = x] on a Go slice: an index out of range panics. *)
Definition aget {A} (l : list A) (i : Z) : outcome A :=
  if i <? 0 then Panic
  else match l !! Z.to_nat i with Some x => Ret x | None => Panic end.

Definition aset {A} (l : list A) (i : Z) (x : A) : outcome (list A) :=
  if (i <? 0) || (Z.of_nat (length l) <=? i) then Panic
  else Ret (<[Z.to_nat i := x]> l).

(** A Go type: its zero value ([var zero V]), and the size and alignment of a value in
    bytes ([unsafe.Sizeof], [unsafe.Alignof]).  A size above 2^45 bytes, of which
    memory holds no eight, is left out. *)
Class GoType (A : Type) := MkGoType {
  go_zero : A;
  go_size : Z;
  go_align : Z;
  go_size_ok : 0 <= go_size <= 2 ^ 45;
  go_align_ok : 1 <= go_align <= 8;
}.
Arguments go_size A {_}.
Arguments go_align A {_}.

(** A 64-bit integer, and a string: a pointer and a length. *)
#[global] Program Instance go_int64 : GoType Z := MkGoType Z 0 8 8 _ _.
Solve Obligations with lia.
#[global] Program Instance go_string {A} : GoType (list A) := MkGoType (list A) [] 16 8 _ _.
Solve Obligations with lia.

(** [make([]A, n)] for elements of [size] bytes: the runtime panics on a negative
    length and when the array exceeds its address space limit ([maxAlloc], 2^48 bytes
    on 64-bit platforms).  Running out of memory below that limit is not modelled. *)
Definition maxAlloc : Z := 2 ^ 48.

Definition make_slice {A} (size : Z) (zero : A) (n : Z) : outcome (list A) :=
  if (n <? 0) || (maxAlloc <? size * n) then Panic
  else Ret (replicate (Z.to_nat n) zero).

(** [make([]A, 0, n)]: an empty slice with a capacity. *)
Definition make_cap (size n : Z) : outcome unit :=
  if (n <? 0) || (maxAlloc <? size * n) then Panic else Ret tt.

(** ** Automation *)
Create HintDb go.

(** Reduce the binds of a computation whose head is known. *)
Ltac go_simpl :=
  cbn [mbind outcome_bind mret outcome_ret] in *.

(** Case analysis on the boolean tests of the source, turned into arithmetic. *)
Ltac go_case :=
  match goal with
  | |- context [Z.eqb ?a ?b] => destruct (Z.eqb_spec a b)
  | |- context [Z.ltb ?a ?b] => destruct (Z.ltb_spec a b)
  | |- context [Z.leb ?a ?b] => destruct (Z.leb_spec a b)
  | |- context [bool_decide ?P] => destruct (bool_decide_reflect P)
  end.

(** Inversion of a bind that returned. *)
Lemma bind_ret {A B} (m : outcome A) (f : A -> outcome B) b :
  (m ≫= f) = Ret b -> exists a, m = Ret a /\ f a = Ret b.
Proof. destruct m; cbn; intros; naive_solver. Qed.

(** A property of outcomes passes through a bind at one type: a computation that
    does not return is its own continuation. *)
Lemma bind_good {A} (P : outcome A -> Prop) (m : outcome A) (f : A -> outcome A) :
  P m -> (forall a, m = Ret a -> P (f a)) -> P (m ≫= f).
Proof. destruct m; cbn; auto. Qed.

(** ** Facts on machine integers *)
Lemma u16_id x : in_u16 x -> u16 x = x.
Proof. apply Z.mod_small. Qed.

Lemma u64_id x : in_u64 x -> u64 x = x.
Proof. apply Z.mod_small. Qed.

Lemma i64_id x : in_i64 x -> i64 x = x.
Proof. unfold i64, in_i64. intros. rewrite Z.mod_small; lia. Qed.

Lemma u64_range x : in_u64 (u64 x).
Proof. apply Z.mod_pos_bound. lia. Qed.

Lemma u16_range x : in_u16 (u16 x).
Proof. apply Z.mod_pos_bound. lia. Qed.

Lemma i64_range x : in_i64 (i64 x).
Proof. unfold in_i64, i64. pose proof (Z.mod_pos_bound (x + 2 ^ 63) (2 ^ 64)). lia. Qed.

(** Wrapping once at the end of a sum is enough. *)
Lemma i64_add_l a b : i64 (i64 a + b) = i64 (a + b).
Proof.
  unfold i64. f_equal.
  replace ((a + 2 ^ 63) mod 2 ^ 64 - 2 ^ 63 + b + 2 ^ 63)
    with ((a + 2 ^ 63) mod 2 ^ 64 + b) by lia.
  rewrite Zplus_mod_idemp_l. f_equal. lia.
Qed.

(** Masking with a power of two minus one is a remainder. *)
Lemma land_pow2 x k : 0 <= k -> Z.land x (2 ^ k - 1) = x mod 2 ^ k.
Proof.
  intros. rewrite <- Z.land_ones by done. f_equal. rewrite Z.ones_equiv. lia.
Qed.

Lemma pow2_pos k : 0 <= k -> 0 < 2 ^ k.
Proof. intros. apply Z.pow_pos_nonneg; lia. Qed.

(** A field below bit [k] does not overlap a multiple of [2 ^ k]. *)
Lemma land_disjoint x f k : 0 <= k -> 0 <= f < 2 ^ k -> Z.land (x * 2 ^ k) f = 0.
Proof.
  intros Hk Hf. apply Z.bits_inj'. intros n Hn. rewrite Z.land_spec, Z.bits_0.
  destruct (Z.ltb_spec n k).
  - by rewrite Z.mul_pow2_bits_low by lia.
  - rewrite <- (Z.mod_small f (2 ^ k)), Z.mod_pow2_bits_high by lia. apply andb_false_r.
Qed.

Lemma lor_disjoint x f k : 0 <= k -> 0 <= f < 2 ^ k -> Z.lor (x * 2 ^ k) f = x * 2 ^ k + f.
Proof. intros. symmetry. by apply Z.add_nocarry_lor, land_disjoint. Qed.

#[export] Hint Resolve u64_range u16_range i64_range pow2_pos : go.

(** ** Facts on slices *)
Lemma aget_lookup {A} (l : list A) i x :
  0 <= i -> l !! Z.to_nat i = Some x -> aget l i = Ret x.
Proof. intros ? H. unfold aget. go_case; [lia|]. by rewrite H. Qed.

Lemma aget_inv {A} (l : list A) i x :
  aget l i = Ret x -> 0 <= i /\ l !! Z.to_nat i = Some x.
Proof. unfold aget. go_case; [done|]. destruct (l !! _) eqn:E; naive_solver. Qed.

Lemma aget_is_ret {A} (l : list A) i :
  0 <= i < Z.of_nat (length l) -> exists x, aget l i = Ret x /\ l !! Z.to_nat i = Some x.
Proof.
  intros. destruct (lookup_lt_is_Some_2 l (Z.to_nat i)) as [x Hx]; [lia|].
  exists x. split; [by apply aget_lookup; [lia|]|done].
Qed.

Lemma aset_ret {A} (l : list A) i x :
  0 <= i < Z.of_nat (length l) -> aset l i x = Ret (<[Z.to_nat i := x]> l).
Proof. intros. unfold aset. repeat go_case; cbn; lia || done. Qed.

Lemma aset_inv {A} (l : list A) i x l' :
  aset l i x = Ret l' -> 0 <= i < Z.of_nat (length l) /\ l' = <[Z.to_nat i := x]> l.
Proof. unfold aset. repeat go_case; cbn; intros; simplify_eq; split; done || lia. Qed.

Lemma make_slice_ret {A} size (zero : A) n : 0 <= n -> size * n <= maxAlloc ->
  make_slice size zero n = Ret (replicate (Z.to_nat n) zero).
Proof. intros. unfold make_slice. repeat go_case; cbn; lia || done. Qed.

Lemma make_slice_inv {A} size (zero : A) n l : make_slice size zero n = Ret l ->
  0 <= n /\ size * n <= maxAlloc /\ l = replicate (Z.to_nat n) zero.
Proof. unfold make_slice. repeat go_case; cbn; intros; simplify_eq; split_and!; done || lia. Qed.

Lemma make_cap_ret size n : 0 <= n -> size * n <= maxAlloc -> make_cap size n = Ret tt.
Proof. intros. unfold make_cap. repeat go_case; cbn; lia || done. Qed.

(** ** Facts on lists *)
Lemma NoDup_fmap_omap {A B C} (g : A -> option B) (f : B -> C) (l : list A) :
  NoDup l ->
  (forall x y a b, x ∈ l -> y ∈ l -> g x = Some a -> g y = Some b -> f a = f b -> x = y) ->
  NoDup (f <$> omap g l).
Proof.
  induction 1 as [|x l Hx Hl IH]; cbn; intros Hinj; [constructor|].
  assert (NoDup (f <$> omap g l)) by (apply IH; set_solver).
  destruct (g x) as [a|] eqn:Ex; [|done]. cbn. constructor; [|done].
  intros (b & Hb & (y & Hy & Ey)%list_elem_of_omap)%list_elem_of_fmap.
  assert (x = y) as -> by (eapply Hinj; eauto; set_solver). done.
Qed.

Lemma NoDup_omap_inj {A B C} (g : A -> option B) (f : B -> C) (l : list A) x y a b :
  NoDup (f <$> omap g l) -> x ∈ l -> y ∈ l -> g x = Some a -> g y = Some b -> f a = f b -> x = y.
Proof.
  assert (forall z c (l : list A), z ∈ l -> g z = Some c -> f c ∈ f <$> omap g l) as Hin.
  { intros z c l' Hz Ez. apply list_elem_of_fmap. exists c. split; [done|]. apply list_elem_of_omap. eauto. }
  induction l as [|z l IH]; cbn; intros Hn Hx Hy Ex Ey Ef; [by apply elem_of_nil in Hx|].
  apply elem_of_cons in Hx as [->|Hx]; apply elem_of_cons in Hy as [->|Hy]; [done| | |].
  - rewrite Ex in Hn. cbn in Hn. apply NoDup_cons in Hn as [Hn _]. rewrite Ef in Hn.
    by destruct Hn; eapply Hin.
  - rewrite Ey in Hn. cbn in Hn. apply NoDup_cons in Hn as [Hn _]. rewrite <- Ef in Hn.
    by destruct Hn; eapply Hin.
  - apply IH; try done. destruct (g z); [|done]. cbn in Hn. by apply NoDup_cons in Hn as [_ ?].
Qed.

Lemma omap_short {A B} (g : A -> option B) (l : list A) :
  (length (omap g l) < length l)%nat -> exists x, x ∈ l /\ g x = None.
Proof.
  induction l as [|x l IH]; cbn; [lia|].
  destruct (g x) eqn:E; cbn; intros Hl; [|set_solver].
  destruct IH as (y & ? & ?); [lia|]. set_solver.
Qed.

Lemma omap_length_le {A B} (g : A -> option B) (l : list A) :
  (length (omap g l) <= length l)%nat.
Proof. induction l as [|x l IH]; cbn; [done|]. destruct (g x); cbn; lia. Qed.

Lemma omap_all_length {A B} (g : A -> option B) (l : list A) :
  (forall x, x ∈ l -> is_Some (g x)) -> length (omap g l) = length l.
Proof.
  induction l as [|x l IH]; cbn; intros Hl; [done|].
  destruct (Hl x) as [y ->]; [set_solver|]. cbn. f_equal. apply IH. set_solver.
Qed.

(** ** Facts on finite maps *)
Lemma size_insert_le {K V} `{!EqDecision K, !Countable K} (m : gmap K V) k v :
  (size (<[k := v]> m) <= S (size m))%nat.
Proof.
  destruct (m !! k) eqn:E.
  - rewrite map_size_insert_Some by eauto. lia.
  - by rewrite map_size_insert_None.
Qed.
