(* ===== verification/Table.v ===== *)
(** * The Robin Hood table ([internal/shardmap/table.go])

    The per-shard open-addressing table as the source has it: four parallel
    slices, a count, a capacity mask and a grow threshold, and one definition per
    method.  The theorems about it are in [TableInv], [TableSet], [TableDelete]
    and [TableSpec]. *)
From S2P Require Import Prelude.

(** ** Constants *)
Definition fragBits : Z := 8.
Definition fragMask : Z := 2 ^ fragBits - 1.
Definition maxDib : Z := 2 ^ (16 - fragBits) - 2.
Definition minCap : Z := 8.
Definition loadNum : Z := 3.
Definition loadDen : Z := 4.
Definition shrinkNum : Z := 1.
Definition shrinkDen : Z := 4.

(** ** Metadata words (uint16) *)
Definition fragOf (hash : Z) : Z := u16 (Z.land hash fragMask).

Definition dibOf (m : Z) : Z := u16 (Z.shiftr m fragBits - 1).

Definition packMeta (dib frag : Z) : Z :=
  Z.lor (u16 (Z.shiftl (u16 (dib + 1)) fragBits)) frag.

(** ** The table *)
Record table (K V : Type) : Type := Table {
  meta : list Z;
  keys : list K;
  vals : list V;
  hashes : list Z;
  count : Z;
  capm1 : Z;
  growAt : Z;
}.
Arguments Table {K V} _ _ _ _ _ _ _.
Arguments meta {K V} _.
Arguments keys {K V} _.
Arguments vals {K V} _.
Arguments hashes {K V} _.
Arguments count {K V} _.
Arguments capm1 {K V} _.
Arguments growAt {K V} _.

Section Table.
Context {K V : Type} `{!EqDecision K} `{!GoType K} `{!GoType V}.
Implicit Types t : table K V.

Definition home t (hash : Z) : Z := Z.land hash (capm1 t).

(** [(i + 1) & t.capm1]: the next slot of the ring. *)
Definition next_slot t (i : Z) : Z := Z.land (u64 (i + 1)) (capm1 t).

(** [alloc]: fresh slot arrays of the given capacity, derived fields reset. *)
Definition alloc (capacity : Z) : outcome (table K V) :=
  ms ← make_slice 2 0 capacity;
  ks ← make_slice (go_size K) go_zero capacity;
  vs ← make_slice (go_size V) go_zero capacity;
  hs ← make_slice 8 0 capacity;
  Ret (Table ms ks vs hs 0 (u64 (Z.of_nat (length ms) - 1))
         (Z.quot (i64 (capacity * loadNum)) loadDen)).

(** The doubling loop of [newTable]; 64 doublings leave the range of an int. *)
Fixpoint newTable_loop (fuel : nat) (c capacityHint : Z) : outcome Z :=
  match fuel with
  | O => Diverge
  | S fuel' =>
      if Z.quot (i64 (c * loadNum)) loadDen <? capacityHint
      then newTable_loop fuel' (i64 (Z.shiftl c 1)) capacityHint
      else Ret c
  end.

Definition newTable (capacityHint : Z) : outcome (table K V) :=
  c ← newTable_loop 64 minCap capacityHint;
  alloc c.

(** The four assignments of one slot. *)
Definition write_slot t (i m : Z) (k : K) (v : V) (h : Z) : outcome (table K V) :=
  ms ← aset (meta t) i m;
  ks ← aset (keys t) i k;
  vs ← aset (vals t) i v;
  hs ← aset (hashes t) i h;
  Ret (Table ms ks vs hs (count t) (capm1 t) (growAt t)).

Definition set_count t (n : Z) : table K V :=
  Table (meta t) (keys t) (vals t) (hashes t) n (capm1 t) (growAt t).

(** [cond && t.keys[i] == key]: the key is read only when [cond] holds. *)
Definition key_hit t (cond : bool) (i : Z) (key : K) : outcome bool :=
  if cond then k ← aget (keys t) i; Ret (bool_decide (k = key)) else Ret false.

(** How the probe loop of [set] ends: the entry is placed (or overwritten), or
    the distance field would overflow and the entry carried at that moment has to
    go into a grown table. *)
Inductive set_exit : Type :=
| SetPlaced (t : table K V)
| SetOverflow (t : table K V) (curHash : Z) (curKey : K) (curVal : V).

(** The [for] loop of [set]. *)
Fixpoint set_loop (fuel : nat) t (curHash : Z) (curKey : K) (curVal : V)
    (curFrag curDib : Z) (swapped : bool) (i : Z) : outcome set_exit :=
  match fuel with
  | O => Diverge
  | S fuel' =>
      if maxDib <? curDib then Ret (SetOverflow t curHash curKey curVal)
      else
        m ← aget (meta t) i;
        if m =? 0 then
          t' ← write_slot t i (packMeta curDib curFrag) curKey curVal curHash;
          Ret (SetPlaced (set_count t' (i64 (count t' + 1))))
        else
          hit ← key_hit t (negb swapped && (Z.land m fragMask =? curFrag)) i curKey;
          if hit : bool then
            vs ← aset (vals t) i curVal;
            Ret (SetPlaced (Table (meta t) (keys t) vs (hashes t)
                              (count t) (capm1 t) (growAt t)))
          else if dibOf m <? curDib then
            rKey ← aget (keys t) i;
            rVal ← aget (vals t) i;
            rHash ← aget (hashes t) i;
            t' ← write_slot t i (packMeta curDib curFrag) curKey curVal curHash;
            set_loop fuel' t' rHash rKey rVal (fragOf rHash)
              (u16 (dibOf m + 1)) true (next_slot t i)
          else
            set_loop fuel' t curHash curKey curVal curFrag
              (u16 (curDib + 1)) swapped (next_slot t i)
  end.

(** One pass of [set]'s loop from the home slot: [S (len(t.meta))] iterations
    reach an empty slot of any table that is not full. *)
Definition set_pass t (hash : Z) (key : K) (value : V) : outcome set_exit :=
  set_loop (S (length (meta t))) t hash key value (fragOf hash) 0 false (home t hash).

(** [resize], with the [set] it calls as an argument: the reinsertion loop over
    the old arrays. *)
Fixpoint reinsert (setf : table K V -> Z -> K -> V -> outcome (table K V))
    (src : table K V) (ix : list Z) t : outcome (table K V) :=
  match ix with
  | [] => Ret t
  | i :: ix' =>
      m ← aget (meta src) i;
      if m =? 0 then reinsert setf src ix' t
      else
        h ← aget (hashes src) i;
        k ← aget (keys src) i;
        v ← aget (vals src) i;
        t' ← setf t h k v;
        reinsert setf src ix' t'
  end.

Definition resize_with (setf : table K V -> Z -> K -> V -> outcome (table K V))
    t (newCap : Z) : outcome (table K V) :=
  t' ← alloc newCap;
  reinsert setf t (seqZ 0 (Z.of_nat (length (meta t)))) t'.

Definition grow_with (setf : table K V -> Z -> K -> V -> outcome (table K V)) t
  : outcome (table K V) :=
  resize_with setf t (i64 (Z.of_nat (length (meta t)) * 2)).

(** [set] and [grow] call each other; the fuel bounds the depth of that
    recursion, one level per doubling of the capacity. *)
Fixpoint set_rec (fuel : nat) t (hash : Z) (key : K) (value : V)
  : outcome (table K V) :=
  match fuel with
  | O => Diverge
  | S fuel' =>
      x ← set_pass t hash key value;
      match x with
      | SetPlaced t' => Ret t'
      | SetOverflow t' ch ck cv =>
          t'' ← grow_with (set_rec fuel') t';
          set_rec fuel' t'' ch ck cv
      end
  end.

(** 64 levels: the capacity is at least 8 and [make] panics beyond 2^45, see
    [TableSpread.set_no_diverge]. *)
Definition set (t : table K V) (hash : Z) (key : K) (value : V)
  : outcome (table K V) := set_rec 64 t hash key value.

Definition resize (t : table K V) (newCap : Z) : outcome (table K V) :=
  resize_with set t newCap.

Definition grow (t : table K V) : outcome (table K V) := grow_with set t.

Definition table_insert (t : table K V) (hash : Z) (key : K) (value : V)
  : outcome (table K V) :=
  t' ← (if growAt t <=? count t then grow t else Ret t);
  set t' hash key value.

(** [lookup]; distances are bounded by [maxDib], so 256 iterations decide. *)
Definition probe_fuel : nat := 256.

Fixpoint lookup_loop (fuel : nat) t (key : K) (frag i dib : Z)
  : outcome (V * bool) :=
  match fuel with
  | O => Diverge
  | S fuel' =>
      m ← aget (meta t) i;
      if m =? 0 then Ret (go_zero, false)
      else if dibOf m <? dib then Ret (go_zero, false)
      else
        hit ← key_hit t (Z.land m fragMask =? frag) i key;
        if hit : bool then v ← aget (vals t) i; Ret (v, true)
        else lookup_loop fuel' t key frag (next_slot t i) (u16 (dib + 1))
  end.

Definition table_lookup t (hash : Z) (key : K) : outcome (V * bool) :=
  lookup_loop probe_fuel t key (fragOf hash) (home t hash) 0.

(** The probe of [delete]: the slot of the key, or [None]. *)
Fixpoint delete_find (fuel : nat) t (key : K) (frag i dib : Z)
  : outcome (option Z) :=
  match fuel with
  | O => Diverge
  | S fuel' =>
      m ← aget (meta t) i;
      if (m =? 0) || (dibOf m <? dib) then Ret None
      else
        hit ← key_hit t (Z.land m fragMask =? frag) i key;
        if hit : bool then Ret (Some i)
        else delete_find fuel' t key frag (next_slot t i) (u16 (dib + 1))
  end.

(** The backward-shift loop of [delete]: returns the table and the slot to
    vacate. *)
Fixpoint shift_loop (fuel : nat) t (i j : Z) : outcome (table K V * Z) :=
  match fuel with
  | O => Diverge
  | S fuel' =>
      m ← aget (meta t) j;
      if negb (m =? 0) && (0 <? dibOf m) then
        k ← aget (keys t) j;
        v ← aget (vals t) j;
        h ← aget (hashes t) j;
        t' ← write_slot t i (packMeta (u16 (dibOf m - 1)) (Z.land m fragMask)) k v h;
        shift_loop fuel' t' j (next_slot t j)
      else Ret (t, i)
  end.

Definition shrink (t : table K V) : outcome (table K V) :=
  let curCap := Z.of_nat (length (meta t)) in
  if curCap <=? minCap then Ret t
  else if Z.quot (i64 (curCap * shrinkNum)) shrinkDen <=? count t then Ret t
  else resize t (Z.quot curCap 2).

Definition table_delete (t : table K V) (hash : Z) (key : K)
  : outcome (table K V * (V * bool)) :=
  found ← delete_find probe_fuel t key (fragOf hash) (home t hash) 0;
  match found with
  | None => Ret (t, (go_zero, false))
  | Some i =>
      removed ← aget (vals t) i;
      ti ← shift_loop (S (length (meta t))) t i (next_slot t i);
      let '(t1, i') := ti in
      t2 ← write_slot t1 i' 0 go_zero go_zero 0;
      t3 ← shrink (set_count t2 (i64 (count t2 - 1)));
      Ret (t3, (removed, true))
  end.

End Table.

Arguments SetPlaced {K V} _.
Arguments SetOverflow {K V} _ _ _ _.
