(* ===== verification/TableInv.v ===== *)
(** * The Robin Hood invariant

    The physical arrays of a table read as a ring of optional entries, the
    well-formedness invariant [wf] and the abstraction [to_map] into a finite
    map, with the lemmas on one slot update that [TableSet] and [TableDelete]
    share. *)
From S2P Require Import Prelude Table.

(** ** Arithmetic on a ring of slots *)
Lemma mod_eq_iff n a b : 0 < n -> a mod n = b mod n <-> exists k, a = b + k * n.
Proof.
  intros Hn. split.
  - intros E. exists (a / n - b / n).
    pose proof (Z.div_mod a n). pose proof (Z.div_mod b n). nia.
  - intros [k ->]. by rewrite Z.mod_add by lia.
Qed.

Lemma mod_shift_neq n a b j : 0 < n -> b mod n = a mod n -> 0 < j < n -> (b + j) mod n <> a mod n.
Proof.
  intros Hn E Hj E'.
  destruct (proj1 (mod_eq_iff n _ _ Hn) E) as [k ->].
  destruct (proj1 (mod_eq_iff n _ _ Hn) E') as [l ?].
  assert (j = (l - k) * n) as -> by lia.
  destruct (Z.le_gt_cases (l - k) 0); nia.
Qed.

Lemma mod_shift_eq n a b j : 0 < n -> b mod n = a mod n -> (b + j) mod n = (a + j) mod n.
Proof.
  intros Hn E. destruct (proj1 (mod_eq_iff n _ _ Hn) E) as [k ->].
  apply mod_eq_iff; [lia|]. exists k. lia.
Qed.

Lemma mod_mod_add n a j : 0 < n -> (a mod n + j) mod n = (a + j) mod n.
Proof. intros. apply mod_shift_eq; [lia|]. apply Z.mod_mod. lia. Qed.

(** The distance from [p] to [q] around the ring. *)
Lemma ring_distance n p q : 0 < n -> exists j, 0 <= j < n /\ (p + j) mod n = q mod n.
Proof.
  intros Hn. exists ((q - p) mod n). split; [by apply Z.mod_pos_bound|].
  rewrite Z.add_mod_idemp_r by lia. f_equal. lia.
Qed.

(** ** Metadata words *)
Lemma fragOf_eq h : fragOf h = h mod 256.
Proof.
  unfold fragOf, fragMask, fragBits. rewrite land_pow2 by lia.
  apply u16_id. unfold in_u16. change (2 ^ 8) with 256.
  pose proof (Z.mod_pos_bound h 256). lia.
Qed.

Lemma fragOf_range h : 0 <= fragOf h < 256.
Proof. rewrite fragOf_eq. apply Z.mod_pos_bound. lia. Qed.

Lemma packMeta_eq d f : 0 <= d <= maxDib -> 0 <= f < 256 -> packMeta d f = (d + 1) * 256 + f.
Proof.
  change maxDib with 254. intros Hd Hf. unfold packMeta, fragBits.
  rewrite (u16_id (d + 1)) by (unfold in_u16; lia).
  rewrite Z.shiftl_mul_pow2 by lia.
  rewrite u16_id by (unfold in_u16; lia). apply lor_disjoint; lia.
Qed.

Lemma dibOf_packMeta d f : 0 <= d <= maxDib -> 0 <= f < 256 -> dibOf (packMeta d f) = d.
Proof.
  intros Hd Hf. rewrite packMeta_eq by done. unfold dibOf, fragBits.
  rewrite Z.shiftr_div_pow2 by lia. change (2 ^ 8) with 256.
  rewrite Z.div_add_l, Z.div_small by lia.
  rewrite u16_id; [lia|]. change maxDib with 254 in Hd. unfold in_u16. lia.
Qed.

Lemma frag_packMeta d f : 0 <= d <= maxDib -> 0 <= f < 256 -> Z.land (packMeta d f) fragMask = f.
Proof.
  intros Hd Hf. rewrite packMeta_eq by done. unfold fragMask, fragBits.
  rewrite land_pow2 by lia. change (2 ^ 8) with 256.
  rewrite Z.add_comm, Z.mod_add, Z.mod_small by lia. done.
Qed.

Lemma packMeta_nonzero d f : 0 <= d <= maxDib -> 0 <= f < 256 -> packMeta d f <> 0.
Proof. intros. rewrite packMeta_eq by done. lia. Qed.

#[export] Hint Resolve fragOf_range : go.

(** ** Entries and slots *)
Record entry (K V : Type) : Type := Entry {
  e_dib : Z;
  e_hash : Z;
  e_key : K;
  e_val : V;
}.
Arguments Entry {K V} _ _ _ _.
Arguments e_dib {K V} _.
Arguments e_hash {K V} _.
Arguments e_key {K V} _.
Arguments e_val {K V} _.

(** The widest of the four slot arrays has elements of [slot_size] bytes, so [alloc]
    succeeds up to [maxLevel] doublings: at most 2^45 slots, fewer when keys or values
    are wider than a word. *)
Definition slot_size (K V : Type) `{!GoType K, !GoType V} : Z := Z.max 8 (Z.max (go_size K) (go_size V)).

Definition maxLevel (K V : Type) `{!GoType K, !GoType V} : Z := Z.log2 (maxAlloc / slot_size K V).

Definition maxCap (K V : Type) `{!GoType K, !GoType V} : Z := 2 ^ maxLevel K V.

Lemma slot_size_range (K V : Type) `{!GoType K, !GoType V} : 8 <= slot_size K V <= 2 ^ 45.
Proof. unfold slot_size. pose proof (go_size_ok (A:=K)). pose proof (go_size_ok (A:=V)). lia. Qed.

Lemma maxLevel_range (K V : Type) `{!GoType K, !GoType V} : 3 <= maxLevel K V <= 45.
Proof.
  unfold maxLevel. pose proof (slot_size_range K V) as [? ?].
  assert (2 ^ 3 <= maxAlloc / slot_size K V) by (apply Z.div_le_lower_bound; unfold maxAlloc; lia).
  assert (maxAlloc / slot_size K V <= 2 ^ 45) by (apply Z.div_le_upper_bound; unfold maxAlloc; lia).
  split; [apply Z.log2_le_pow2; lia|]. rewrite <- (Z.log2_pow2 45) by lia. by apply Z.log2_le_mono.
Qed.

Lemma fits_level (K V : Type) `{!GoType K, !GoType V} n : 0 <= n ->
  slot_size K V * 2 ^ n <= maxAlloc <-> n <= maxLevel K V.
Proof.
  intros Hn. pose proof (slot_size_range K V). pose proof (maxLevel_range K V) as Hr. unfold maxLevel in *.
  assert (0 < maxAlloc / slot_size K V) as Hp by (apply Z.div_str_pos; unfold maxAlloc; lia).
  rewrite <- Z.log2_le_pow2 by done. split; intros.
  - by apply Z.div_le_lower_bound; [lia|].
  - pose proof (Z.mul_div_le maxAlloc (slot_size K V)). nia.
Qed.

Lemma maxCap_range (K V : Type) `{!GoType K, !GoType V} : 8 <= maxCap K V <= 2 ^ 45.
Proof.
  unfold maxCap. pose proof (maxLevel_range K V). change 8 with (2 ^ 3). split; apply Z.pow_le_mono_r; lia.
Qed.

Section Inv.
Context {K V : Type} `{!EqDecision K} `{!Countable K} `{!GoType K} `{!GoType V}.
Implicit Types t : table K V.
Implicit Types e : entry K V.

Definition cap t : Z := Z.of_nat (length (meta t)).

(** The entry of slot [i], [None] for an empty slot. *)
Definition slot t (i : Z) : option (entry K V) :=
  m ← meta t !! Z.to_nat i;
  k ← keys t !! Z.to_nat i;
  v ← vals t !! Z.to_nat i;
  h ← hashes t !! Z.to_nat i;
  if m =? 0 then None else Some (Entry (dibOf m) h k v).

(** The slots as a ring: positions are integers, read modulo the capacity. *)
Definition at_ t (p : Z) : option (entry K V) := slot t (p mod cap t).

(** Array shapes and metadata words agree with each other. *)
Record layout t : Prop := {
  lay_cap : exists n, 3 <= n <= maxLevel K V /\ cap t = 2 ^ n;
  lay_keys : length (keys t) = length (meta t);
  lay_vals : length (vals t) = length (meta t);
  lay_hashes : length (hashes t) = length (meta t);
  lay_mask : capm1 t = cap t - 1;
  lay_grow : growAt t = cap t * 3 / 4;
  lay_meta : forall i m h, meta t !! i = Some m -> hashes t !! i = Some h -> m <> 0 ->
    exists d, 0 <= d <= maxDib /\ m = packMeta d (fragOf h);
}.

(** The Robin Hood invariant of the ring, for the hash function [H] the caller
    uses: an entry sits [e_dib] slots after its home, and an entry away from its
    home follows one that is at least as far from its own, less one. *)
Record ring (H : K -> Z) t : Prop := {
  ring_pos : forall p e, at_ t p = Some e -> e_hash e mod cap t = (p - e_dib e) mod cap t;
  ring_chain : forall p e, at_ t p = Some e -> 0 < e_dib e ->
    exists e', at_ t (p - 1) = Some e' /\ e_dib e - 1 <= e_dib e';
  ring_hash : forall p e, at_ t p = Some e -> e_hash e = H (e_key e);
}.

(** No key occupies two slots. *)
Definition uniq t : Prop := forall p q e e',
  at_ t p = Some e -> at_ t q = Some e' -> e_key e = e_key e' -> p mod cap t = q mod cap t.

(** The occupied slots in index order and the finite map they stand for. *)
Definition entries t : list (entry K V) := omap (slot t) (seqZ 0 (cap t)).

Definition to_map t : gmap K V :=
  list_to_map ((fun e => (e_key e, e_val e)) <$> entries t).

Record wf (H : K -> Z) t : Prop := {
  wf_layout : layout t;
  wf_ring : ring H t;
  wf_uniq : uniq t;
  wf_count : count t = Z.of_nat (size (to_map t));
}.

(** *** Reading slots *)
Lemma cap_bounds t : layout t -> 8 <= cap t <= 2 ^ 45.
Proof.
  pose proof (maxLevel_range K V). intros []. destruct lay_cap0 as (n & Hn & ->). split.
  - change 8 with (2 ^ 3). apply Z.pow_le_mono_r; lia.
  - apply Z.pow_le_mono_r; lia.
Qed.

Lemma cap_pos t : layout t -> 0 < cap t.
Proof. intros ?%cap_bounds. lia. Qed.

Lemma ring_index_range t p : layout t -> 0 <= p mod cap t < cap t.
Proof. intros ?%cap_pos. by apply Z.mod_pos_bound. Qed.

Lemma at_congr t p q : p mod cap t = q mod cap t -> at_ t p = at_ t q.
Proof. unfold at_. by intros ->. Qed.

Lemma at_slot t i : 0 <= i < cap t -> at_ t i = slot t i.
Proof. intros. unfold at_. by rewrite Z.mod_small. Qed.

Lemma home_eq t h : layout t -> home t h = h mod cap t.
Proof.
  intros L. unfold home. rewrite (lay_mask t L). destruct (lay_cap t L) as (n & ? & ->).
  apply land_pow2. lia.
Qed.

Lemma next_slot_eq t p : layout t -> next_slot t (p mod cap t) = (p + 1) mod cap t.
Proof.
  intros L. pose proof (ring_index_range t p L). pose proof (cap_bounds t L).
  unfold next_slot. rewrite u64_id by (unfold in_u64; lia).
  rewrite (lay_mask t L), <- mod_mod_add by lia.
  destruct (lay_cap t L) as (n & ? & E). rewrite E in *. apply land_pow2. lia.
Qed.

Lemma slot_arrays t i : layout t -> 0 <= i < cap t ->
  exists m k v h, meta t !! Z.to_nat i = Some m /\ keys t !! Z.to_nat i = Some k /\
    vals t !! Z.to_nat i = Some v /\ hashes t !! Z.to_nat i = Some h.
Proof.
  intros [] Hi. unfold cap in Hi.
  destruct (lookup_lt_is_Some_2 (meta t) (Z.to_nat i)) as [m ?]; [lia|].
  destruct (lookup_lt_is_Some_2 (keys t) (Z.to_nat i)) as [k ?]; [lia|].
  destruct (lookup_lt_is_Some_2 (vals t) (Z.to_nat i)) as [v ?]; [lia|].
  destruct (lookup_lt_is_Some_2 (hashes t) (Z.to_nat i)) as [h ?]; [lia|].
  eauto 10.
Qed.

(** What the loops read at an empty and at an occupied slot. *)
Lemma read_empty t p : layout t -> at_ t p = None -> aget (meta t) (p mod cap t) = Ret 0.
Proof.
  intros L. pose proof (ring_index_range t p L) as Hr. unfold at_, slot.
  destruct (slot_arrays t (p mod cap t) L Hr) as (m & k & v & h & E & -> & -> & ->).
  rewrite E. cbn. go_case; [|done]. intros _. subst. by apply aget_lookup; [lia|].
Qed.

Lemma at_Some t p e : layout t -> at_ t p = Some e ->
  0 <= e_dib e <= maxDib /\
  meta t !! Z.to_nat (p mod cap t) = Some (packMeta (e_dib e) (fragOf (e_hash e))) /\
  keys t !! Z.to_nat (p mod cap t) = Some (e_key e) /\
  vals t !! Z.to_nat (p mod cap t) = Some (e_val e) /\
  hashes t !! Z.to_nat (p mod cap t) = Some (e_hash e).
Proof.
  intros L. pose proof (ring_index_range t p L) as Hr. unfold at_, slot.
  destruct (slot_arrays t (p mod cap t) L Hr) as (m & k & v & h & Em & Ek & Ev & Eh).
  rewrite Em, Ek, Ev, Eh. cbn. go_case; [done|]. intros [= <-]. cbn.
  destruct (lay_meta t L _ m h Em Eh) as (d & Hd & ->); [done|].
  rewrite dibOf_packMeta by auto with go. auto.
Qed.

Lemma read_entry t p e : layout t -> at_ t p = Some e ->
  0 <= e_dib e <= maxDib /\
  aget (meta t) (p mod cap t) = Ret (packMeta (e_dib e) (fragOf (e_hash e))) /\
  aget (keys t) (p mod cap t) = Ret (e_key e) /\
  aget (vals t) (p mod cap t) = Ret (e_val e) /\
  aget (hashes t) (p mod cap t) = Ret (e_hash e).
Proof.
  intros L E. pose proof (ring_index_range t p L) as Hr.
  destruct (at_Some t p e L E) as (? & ? & ? & ? & ?).
  split; [done|]. repeat split; apply aget_lookup; done || lia.
Qed.

(** *** Writing one slot *)
Definition put t (i m : Z) (k : K) (v : V) (h : Z) : table K V :=
  Table (<[Z.to_nat i := m]> (meta t)) (<[Z.to_nat i := k]> (keys t))
    (<[Z.to_nat i := v]> (vals t)) (<[Z.to_nat i := h]> (hashes t))
    (count t) (capm1 t) (growAt t).

(** The same update named by the entry that is stored. *)
Definition put_entry t (p : Z) (e : entry K V) : table K V :=
  put t (p mod cap t) (packMeta (e_dib e) (fragOf (e_hash e))) (e_key e) (e_val e) (e_hash e).

Definition vacate t (p : Z) : table K V :=
  put t (p mod cap t) 0 go_zero go_zero 0.

Lemma write_slot_put t p m k v h : layout t ->
  write_slot t (p mod cap t) m k v h = Ret (put t (p mod cap t) m k v h).
Proof.
  intros L. pose proof (ring_index_range t p L). unfold write_slot, cap in *.
  destruct L. rewrite !aset_ret by lia. done.
Qed.

Lemma cap_put t i m k v h : cap (put t i m k v h) = cap t.
Proof. unfold cap. cbn. by rewrite length_insert. Qed.

Lemma slot_put t i m k v h j : layout t -> 0 <= i < cap t -> 0 <= j ->
  slot (put t i m k v h) j =
  if decide (j = i) then (if m =? 0 then None else Some (Entry (dibOf m) h k v)) else slot t j.
Proof.
  intros [] Hi Hj. unfold cap in Hi. unfold slot, put. cbn [meta keys vals hashes].
  case_decide as E.
  - subst j. rewrite !list_lookup_insert_eq by lia. done.
  - rewrite !list_lookup_insert_ne by lia. done.
Qed.

Lemma layout_put t p m k v h : layout t ->
  (m <> 0 -> exists d, 0 <= d <= maxDib /\ m = packMeta d (fragOf h)) ->
  layout (put t (p mod cap t) m k v h).
Proof.
  intros L Hm. pose proof (ring_index_range t p L) as Hr.
  assert (cap t = Z.of_nat (length (meta t))) as Hc by done. destruct L.
  split; rewrite ?cap_put; cbn; rewrite ?length_insert; try done.
  intros i m' h' Hi Hh. destruct (decide (i = Z.to_nat (p mod cap t))) as [->|].
  - rewrite list_lookup_insert_eq in Hi by lia.
    rewrite list_lookup_insert_eq in Hh by lia. by simplify_eq.
  - rewrite list_lookup_insert_ne in Hi by lia.
    rewrite list_lookup_insert_ne in Hh by lia. eauto.
Qed.

Lemma layout_put_entry t p e : layout t -> 0 <= e_dib e <= maxDib -> layout (put_entry t p e).
Proof. intros. apply layout_put; eauto. Qed.

Lemma layout_vacate t p : layout t -> layout (vacate t p).
Proof. intros. by apply layout_put. Qed.

Lemma at_put_entry t p e q : layout t -> 0 <= e_dib e <= maxDib ->
  at_ (put_entry t p e) q = if decide (q mod cap t = p mod cap t) then Some e else at_ t q.
Proof.
  intros L Hd. pose proof (ring_index_range t p L). pose proof (ring_index_range t q L).
  unfold at_, put_entry. rewrite cap_put, slot_put by (done || lia).
  case_decide; [|done]. go_case.
  - exfalso. by eapply packMeta_nonzero; [..|done]; auto with go.
  - rewrite dibOf_packMeta by auto with go. by destruct e.
Qed.

Lemma at_vacate t p q : layout t ->
  at_ (vacate t p) q = if decide (q mod cap t = p mod cap t) then None else at_ t q.
Proof.
  intros L. pose proof (ring_index_range t p L). pose proof (ring_index_range t q L).
  unfold at_, vacate. by rewrite cap_put, slot_put by (done || lia).
Qed.

(** Replacing the value of an entry writes only the value array. *)
Lemma put_val t p e v : layout t -> at_ t p = Some e ->
  Table (meta t) (keys t) (<[Z.to_nat (p mod cap t) := v]> (vals t)) (hashes t)
    (count t) (capm1 t) (growAt t)
  = put_entry t p (Entry (e_dib e) (e_hash e) (e_key e) v).
Proof.
  intros L E. destruct (at_Some t p e L E) as (? & ? & ? & ? & ?).
  unfold put_entry, put. cbn [e_dib e_hash e_key e_val].
  rewrite (list_insert_id (meta t)), (list_insert_id (keys t)),
    (list_insert_id (hashes t)) by done. done.
Qed.

(** *** The abstraction to a finite map *)
Lemma elem_of_entries t e : layout t -> e ∈ entries t <-> exists p, at_ t p = Some e.
Proof.
  intros L. unfold entries. rewrite list_elem_of_omap. split.
  - intros (i & Hi%elem_of_seqZ & E). exists i. by rewrite at_slot by lia.
  - intros (p & E). exists (p mod cap t). split; [|done].
    apply elem_of_seqZ. pose proof (ring_index_range t p L). lia.
Qed.

Lemma entries_NoDup t : layout t -> uniq t -> NoDup (e_key <$> entries t).
Proof.
  intros L U. apply NoDup_fmap_omap; [apply NoDup_seqZ|].
  intros i j e e' Hi%elem_of_seqZ Hj%elem_of_seqZ Ei Ej Ek.
  rewrite <- at_slot in Ei by lia. rewrite <- at_slot in Ej by lia.
  pose proof (U i j e e' Ei Ej Ek) as E. by rewrite !Z.mod_small in E by lia.
Qed.

Lemma to_map_lookup t k v : layout t -> uniq t ->
  to_map t !! k = Some v <-> exists p e, at_ t p = Some e /\ e_key e = k /\ e_val e = v.
Proof.
  intros L U. unfold to_map.
  rewrite <- elem_of_list_to_map.
  2:{ rewrite <- list_fmap_compose. by apply entries_NoDup. }
  rewrite list_elem_of_fmap. split.
  - intros (e & [= -> ->] & [p E]%elem_of_entries); [|done]. eauto.
  - intros (p & e & E & <- & <-). exists e. split; [done|].
    apply elem_of_entries; eauto.
Qed.

Lemma to_map_lookup_None t k : layout t -> uniq t ->
  to_map t !! k = None <-> forall p e, at_ t p = Some e -> e_key e <> k.
Proof.
  intros L U. rewrite eq_None_not_Some. split.
  - intros HN p e E <-. apply HN. exists (e_val e). apply to_map_lookup; eauto.
  - intros HN [v (p & e & E & ? & ?)%to_map_lookup]; [|done..]. by eapply HN.
Qed.

Lemma at_to_map t p e : layout t -> uniq t -> at_ t p = Some e ->
  to_map t !! e_key e = Some (e_val e).
Proof. intros. apply to_map_lookup; eauto. Qed.

Lemma size_to_map t : layout t -> uniq t -> size (to_map t) = length (entries t).
Proof.
  intros L U. unfold to_map. rewrite <- length_map_to_list.
  erewrite Permutation_length; [|apply map_to_list_to_map].
  - by rewrite length_fmap.
  - rewrite <- list_fmap_compose. by apply entries_NoDup.
Qed.

(** A table with fewer entries than slots has an empty slot. *)
Lemma empty_slot t : layout t -> uniq t -> Z.of_nat (size (to_map t)) < cap t ->
  exists p, at_ t p = None.
Proof.
  intros L U Hs. rewrite size_to_map in Hs by done.
  destruct (omap_short (slot t) (seqZ 0 (cap t))) as (i & Hi%elem_of_seqZ & E).
  - rewrite length_seqZ. unfold entries in Hs. lia.
  - exists i. by rewrite at_slot by lia.
Qed.

(** *** Updates preserve the invariant *)
Lemma ring_put H t p e : layout t -> ring H t -> 0 <= e_dib e <= maxDib ->
  e_hash e = H (e_key e) -> e_hash e mod cap t = (p - e_dib e) mod cap t ->
  (0 < e_dib e -> exists e', at_ t (p - 1) = Some e' /\ e_dib e - 1 <= e_dib e') ->
  (forall e', at_ t (p + 1) = Some e' -> e_dib e' - 1 <= e_dib e) ->
  ring H (put_entry t p e).
Proof.
  intros L R Hd Hh Hpos Hpred Hsucc. pose proof (cap_bounds t L).
  assert (cap (put_entry t p e) = cap t) as Hc by apply cap_put.
  split; intros q e1; rewrite ?Hc, at_put_entry by done; case_decide as Eq.
  - intros [= <-]. rewrite Hpos. symmetry. by apply (mod_shift_eq _ _ _ (- e_dib e)); [lia|].
  - apply (ring_pos _ _ R).
  - intros [= <-] Hpos'. destruct (Hpred Hpos') as (e' & E' & ?). exists e'.
    rewrite at_put_entry by done. rewrite decide_False.
    + split; [|done]. rewrite <- E'. apply at_congr. by apply (mod_shift_eq _ _ _ (-1)); [lia|].
    + intros E. apply (mod_shift_neq (cap t) p (q - 1) 1); try lia.
      by replace (q - 1 + 1) with q by lia.
  - intros E1 Hpos'. destruct (ring_chain _ _ R q e1 E1 Hpos') as (e' & E' & ?).
    rewrite at_put_entry by done. case_decide as Eq1; [|eauto].
    exists e. split; [done|]. apply Hsucc. rewrite <- E1. apply at_congr.
    rewrite <- (mod_shift_eq (cap t) p (q - 1) 1) by (done || lia). f_equal. lia.
  - by intros [= <-].
  - apply (ring_hash _ _ R).
Qed.

Lemma uniq_put t p e : layout t -> uniq t -> 0 <= e_dib e <= maxDib ->
  (forall q e', at_ t q = Some e' -> e_key e' = e_key e -> q mod cap t = p mod cap t) ->
  uniq (put_entry t p e).
Proof.
  intros L U Hd Hf q r e1 e2. assert (cap (put_entry t p e) = cap t) as -> by apply cap_put.
  rewrite !at_put_entry by done. repeat case_decide; intros E1 E2 Ek; simplify_eq.
  - congruence.
  - rewrite (Hf r e2); congruence.
  - rewrite (Hf q e1); congruence.
  - by eapply U.
Qed.

Lemma ring_vacate H t p : layout t -> ring H t ->
  (forall e, at_ t (p + 1) = Some e -> e_dib e <= 0) -> ring H (vacate t p).
Proof.
  intros L R Hsucc. pose proof (cap_bounds t L).
  assert (cap (vacate t p) = cap t) as Hc by apply cap_put.
  split; intros q e1; rewrite ?Hc, at_vacate by done; case_decide as Eq; try done.
  - apply (ring_pos _ _ R).
  - intros E1 Hpos. destruct (ring_chain _ _ R q e1 E1 Hpos) as (e' & E' & ?).
    rewrite at_vacate by done. case_decide as Eq1; [|eauto].
    exfalso. assert (at_ t (p + 1) = Some e1) as E2; [|apply Hsucc in E2; lia].
    rewrite <- E1. apply at_congr.
    rewrite <- (mod_shift_eq (cap t) p (q - 1) 1) by (done || lia). f_equal. lia.
  - apply (ring_hash _ _ R).
Qed.

Lemma uniq_vacate t p : layout t -> uniq t -> uniq (vacate t p).
Proof.
  intros L U q r e1 e2. assert (cap (vacate t p) = cap t) as -> by apply cap_put.
  rewrite !at_vacate by done. repeat case_decide; intros ??; try done. by apply U.
Qed.

Lemma to_map_vacate t p e : layout t -> uniq t -> at_ t p = Some e ->
  to_map (vacate t p) = delete (e_key e) (to_map t).
Proof.
  intros L U E. apply map_eq. intros k. apply option_eq. intros v.
  rewrite to_map_lookup by auto using layout_vacate, uniq_vacate.
  rewrite lookup_delete_Some, to_map_lookup by done.
  setoid_rewrite (at_vacate t p); [|done]. split.
  - intros (q & e1 & E1 & <- & <-). case_decide as Eq; [done|].
    split; [|eauto]. intros Ek. apply Eq. by eapply U.
  - intros (Hne & q & e1 & E1 & <- & <-). exists q, e1. case_decide as Eq; [|done].
    apply at_congr in Eq. congruence.
Qed.

Lemma vacate_empty t p k : layout t -> uniq t -> at_ t p = None ->
  to_map (vacate t p) !! k = to_map t !! k.
Proof.
  intros L U E. apply option_eq. intros v.
  rewrite !to_map_lookup by auto using layout_vacate, uniq_vacate.
  setoid_rewrite (at_vacate t p); [|done]. split; intros (q & e & E1 & ?).
  - case_decide; [done|]. eauto.
  - exists q, e. case_decide as Eq; [|done]. apply at_congr in Eq. congruence.
Qed.

(** Storing [e] at [p]: what was there is gone, [e] is added. *)
Lemma to_map_put t p e : layout t -> uniq t -> 0 <= e_dib e <= maxDib ->
  (forall q e', at_ t q = Some e' -> e_key e' = e_key e -> q mod cap t = p mod cap t) ->
  to_map (put_entry t p e) = <[e_key e := e_val e]> (to_map (vacate t p)).
Proof.
  intros L U Hd Hf. apply map_eq. intros k. apply option_eq. intros v.
  rewrite to_map_lookup by auto using layout_put_entry, uniq_put.
  setoid_rewrite (at_put_entry t p e); [|done..].
  rewrite lookup_insert_Some, to_map_lookup by auto using layout_vacate, uniq_vacate.
  setoid_rewrite (at_vacate t p); [|done]. split.
  - intros (q & e1 & E1 & <- & <-). case_decide as Eq; simplify_eq; [by left|right].
    split; [intros Ek; by apply Eq, (Hf q e1)|].
    exists q, e1. by rewrite decide_False by done.
  - intros [[<- <-]|(Hne & q & e1 & E1 & <- & <-)].
    + exists p, e. by rewrite decide_True by done.
    + exists q, e1. case_decide; done.
Qed.

Lemma to_map_put_empty t p e : layout t -> uniq t -> 0 <= e_dib e <= maxDib ->
  at_ t p = None -> to_map t !! e_key e = None ->
  to_map (put_entry t p e) = <[e_key e := e_val e]> (to_map t).
Proof.
  intros L U Hd E HN. rewrite to_map_put; [|done..|].
  - f_equal. apply map_eq. intros. by apply vacate_empty.
  - intros q e' E' Ek. exfalso. by eapply to_map_lookup_None.
Qed.

Lemma to_map_put_over t p e e0 : layout t -> uniq t -> 0 <= e_dib e <= maxDib ->
  at_ t p = Some e0 -> (e_key e = e_key e0 \/ to_map t !! e_key e = None) ->
  to_map (put_entry t p e) = <[e_key e := e_val e]> (delete (e_key e0) (to_map t)).
Proof.
  intros L U Hd E Hk. rewrite to_map_put, (to_map_vacate _ _ e0); [done..|].
  intros q e' E' Ek. destruct Hk as [Hk|HN].
  - eapply U; eauto. congruence.
  - exfalso. by eapply to_map_lookup_None.
Qed.

(** The map depends on the ring view only. *)
Lemma to_map_ext t t' : layout t -> layout t' -> cap t = cap t' ->
  (forall q, at_ t q = at_ t' q) -> to_map t = to_map t'.
Proof.
  intros L L' Hc E. unfold to_map, entries. rewrite Hc. do 2 f_equal.
  apply list_omap_ext. apply Forall2_same_length_lookup_2; [done|].
  intros i x y Hx Hy. simplify_eq. apply list_elem_of_lookup_2, elem_of_seqZ in Hx.
  rewrite <- !at_slot by lia. auto.
Qed.

Lemma uniq_ext t t' : cap t = cap t' -> (forall q, at_ t q = at_ t' q) -> uniq t -> uniq t'.
Proof. intros Hc E U p q e e'. rewrite <- !E, <- Hc. apply U. Qed.

(** Along a probe sequence: the entry [d] slots after its home is preceded by
    [d] occupied slots whose distances are at least their offsets. *)
Lemma chain_back H t p e j : ring H t -> at_ t p = Some e -> 0 <= j <= e_dib e ->
  exists e', at_ t (p - j) = Some e' /\ e_dib e - j <= e_dib e'.
Proof.
  intros R E Hj. destruct Hj as [Hj0 Hj]. revert Hj. pattern j.
  apply natlike_ind; [|clear j Hj0; intros j Hj IH Hle|done].
  - intros _. exists e. rewrite Z.sub_0_r. split; [done|lia].
  - destruct IH as (e1 & E1 & ?); [lia|].
    destruct (ring_chain _ _ R _ e1 E1) as (e2 & E2 & ?); [lia|].
    exists e2. replace (p - Z.succ j) with (p - j - 1) by lia. split; [done|lia].
Qed.

End Inv.
