(* ===== verification/TableSet.v ===== *)
(** * Insertion: [set], [resize], [grow], [insert]

    The probe loop places the entry, overwrites the value of its key, or stops
    with an entry whose distance no longer fits its field; in the last case the
    table grows.  Every exit preserves the Robin Hood invariant and the finite map
    of the table changes by exactly the inserted binding. *)
From S2P Require Import Prelude Table TableInv.

Section Set_.
Context {K V : Type} `{!EqDecision K} `{!Countable K} `{!GoType K} `{!GoType V}.
Implicit Types t : table K V.
Implicit Types e : entry K V.
Variable H : K -> Z.

(** The loop state: an entry of hash [ch] and key [ck] carried to position [p]
    at distance [d] from its home. *)
Record carry t (ch : Z) (ck : K) (d p : Z) : Prop := {
  carry_dib : 0 <= d <= maxDib + 1;
  carry_hash : ch = H ck;
  carry_pos : ch mod cap t = (p - d) mod cap t;
  carry_pred : 0 < d -> exists e, at_ t (p - 1) = Some e /\ d - 1 <= e_dib e;
}.

(** After a swap the carried key is in no slot; before it, the key can only sit
    at a distance the probe has not reached. *)
Definition fresh t (swapped : bool) (ck : K) (d : Z) : Prop :=
  if swapped then to_map t !! ck = None
  else forall q e, at_ t q = Some e -> e_key e = ck -> d <= e_dib e.

Definition set_post t (ck : K) (cv : V) (x : @set_exit K V) : Prop :=
  match x with
  | SetPlaced t' => wf H t' /\ cap t' = cap t /\ to_map t' = <[ck := cv]> (to_map t)
  | SetOverflow t' h k v =>
      wf H t' /\ cap t' = cap t /\ to_map t' !! k = None /\
      <[k := v]> (to_map t') = <[ck := cv]> (to_map t) /\
      exists p, carry t' h k (maxDib + 1) p
  end.

Lemma size_le_cap t : wf H t -> Z.of_nat (size (to_map t)) <= cap t.
Proof.
  intros [L R U C]. rewrite size_to_map by done. unfold entries.
  pose proof (cap_pos t L). etrans; [apply Nat2Z.inj_le, omap_length_le|].
  rewrite length_seqZ. lia.
Qed.

(** The entry after [p] is at home or bounded by the one at [p]. *)
Lemma succ_bound t p e' : ring H t -> at_ t (p + 1) = Some e' ->
  e_dib e' <= 0 \/ exists e, at_ t p = Some e /\ e_dib e' - 1 <= e_dib e.
Proof.
  intros R E. destruct (Z.le_gt_cases (e_dib e') 0); [by left|right].
  destruct (ring_chain _ _ R _ _ E) as (e & Ee & ?); [lia|].
  exists e. by replace (p + 1 - 1) with p in Ee by lia.
Qed.

(** Storing the carried entry at its position keeps the ring. *)
Lemma carry_put t ch ck cv d p : wf H t -> carry t ch ck d p -> d <= maxDib ->
  (forall e, at_ t p = Some e -> e_dib e <= d) ->
  ring H (put_entry t p (Entry d ch ck cv)).
Proof.
  intros [L R U C] [Hd Hh Hp Hc] Hd' He. apply ring_put; cbn; try done; [lia|].
  intros e' E'. destruct (succ_bound t p e' R E') as [?|(e & E & ?)]; [lia|].
  apply He in E. lia.
Qed.

(** A slot holding the carried key has the same home. *)
Lemma same_home t ch ck d p q e : layout t -> ring H t -> carry t ch ck d p ->
  at_ t q = Some e -> e_key e = ck -> (q - (e_dib e - d)) mod cap t = p mod cap t.
Proof.
  intros L R [Hd Hh Hp Hc] E Ek. pose proof (cap_pos t L).
  pose proof (ring_pos _ _ R q e E) as Hq. pose proof (ring_hash _ _ R q e E) as Hqh.
  rewrite Hqh, Ek, <- Hh, Hp in Hq. apply (mod_shift_eq _ _ _ d) in Hq; [|done].
  rewrite Z.sub_add in Hq. rewrite Hq. f_equal. lia.
Qed.

(** A key the probe has not met yet leaves a trace at [p]. *)
Lemma probe_reach t ch ck d p q e : layout t -> ring H t -> carry t ch ck d p ->
  at_ t q = Some e -> e_key e = ck -> d <= e_dib e ->
  exists e', at_ t p = Some e' /\ d <= e_dib e'.
Proof.
  intros L R Ca E Ek Hd. pose proof (carry_dib _ _ _ _ _ Ca).
  destruct (chain_back H t q e (e_dib e - d) R E) as (e' & E' & ?); [lia|].
  exists e'. rewrite (at_congr t _ p) in E' by eauto using same_home. split; [done|lia].
Qed.

(** Where the probe meets an empty slot, or a resident closer to its home, the
    carried key is in no slot. *)
Lemma fresh_absent t ch ck d p sw : wf H t -> carry t ch ck d p -> fresh t sw ck d ->
  (forall e, at_ t p = Some e -> e_dib e < d) -> to_map t !! ck = None.
Proof.
  intros [L R U C] Ca F Hp. destruct sw; [done|].
  apply to_map_lookup_None; [done..|]. intros q e1 E1 Ek.
  destruct (probe_reach t ch ck d p q e1) as (e2 & E2 & ?); eauto.
  apply Hp in E2. lia.
Qed.

(** *** The probe loop *)

(** The count field is the only one [wf_count] reads. *)
Lemma wf_set_count t n : layout t -> ring H t -> uniq t ->
  n = Z.of_nat (size (to_map t)) -> wf H (set_count t n).
Proof. intros [] [] U Hn. by repeat split. Qed.

(** The three ways an iteration ends or continues. *)
Lemma place_post t ch ck cv d p sw : wf H t -> carry t ch ck d p -> d <= maxDib ->
  fresh t sw ck d -> at_ t p = None ->
  set_post t ck cv (SetPlaced (set_count (put_entry t p (Entry d ch ck cv)) (count t + 1))).
Proof.
  intros W Ca Hd F E. pose proof W as [L R U C]. pose proof Ca as [Hd0 Hh Hp Hc].
  assert (to_map t !! ck = None) as HN by (eapply fresh_absent; eauto; congruence).
  assert (to_map (put_entry t p (Entry d ch ck cv)) = <[ck := cv]> (to_map t)) as Hm
    by (apply to_map_put_empty; cbn; done || lia).
  split; [|split; [apply cap_put|exact Hm]]. apply wf_set_count.
  - apply layout_put_entry; cbn; done || lia.
  - eapply carry_put; eauto. congruence.
  - apply uniq_put; cbn; [done..|lia|]. intros q e1 E1 Ek.
    exfalso. by eapply to_map_lookup_None.
  - rewrite Hm, map_size_insert_None by done. lia.
Qed.

Lemma overwrite_post t ch ck cv d p e : wf H t -> carry t ch ck d p ->
  at_ t p = Some e -> e_key e = ck ->
  set_post t ck cv (SetPlaced (put_entry t p (Entry (e_dib e) (e_hash e) (e_key e) cv))).
Proof.
  intros [L R U C] Ca E Ek. pose proof (at_Some t p e L E) as (He & _).
  assert (to_map (put_entry t p (Entry (e_dib e) (e_hash e) (e_key e) cv)) =
          <[ck := cv]> (to_map t)) as Hm.
  { rewrite (to_map_put_over _ _ _ e); cbn; auto. by rewrite insert_delete_eq, Ek. }
  split; [|split; [apply cap_put|exact Hm]]. split.
  - by apply layout_put_entry.
  - apply ring_put; cbn; try done.
    + apply (ring_hash _ _ R _ _ E).
    + apply (ring_pos _ _ R _ _ E).
    + apply (ring_chain _ _ R _ _ E).
    + intros e' E'. destruct (succ_bound t p e' R E') as [?|(e1 & E1 & ?)]; [lia|].
      simplify_eq. lia.
  - apply uniq_put; cbn; [done..|]. intros q e1 E1 Ek1. by eapply U.
  - cbn. change (count (put_entry _ _ _)) with (count t). rewrite Hm, C.
    rewrite map_size_insert_Some; [done|]. rewrite <- Ek. eexists. by eapply at_to_map.
Qed.

(** After a swap: the table with the carried entry stored, the resident carried
    to the next slot. *)
Lemma swap_step t ch ck cv d p sw e : wf H t -> carry t ch ck d p -> d <= maxDib ->
  fresh t sw ck d -> at_ t p = Some e -> e_dib e < d ->
  let t' := put_entry t p (Entry d ch ck cv) in
  wf H t' /\ cap t' = cap t /\ carry t' (e_hash e) (e_key e) (e_dib e + 1) (p + 1) /\
  to_map t' !! e_key e = None /\
  <[e_key e := e_val e]> (to_map t') = <[ck := cv]> (to_map t).
Proof.
  intros W Ca Hd F E Hlt t'. pose proof W as [L R U C].
  pose proof (carry_dib _ _ _ _ _ Ca). pose proof (at_Some t p e L E) as (He & _).
  assert (to_map t !! ck = None) as HN by (eapply fresh_absent; eauto; intros; by simplify_eq).
  pose proof (at_to_map t p e L U E) as Hr.
  assert (ck <> e_key e) as Hne by congruence.
  assert (to_map t' = <[ck := cv]> (delete (e_key e) (to_map t))) as Hm
    by (apply to_map_put_over; cbn; auto; lia).
  assert (cap t' = cap t) as Hc by apply cap_put. split; [|split; [done|split; [|split]]].
  - split.
    + apply layout_put_entry; cbn; done || lia.
    + eapply carry_put; eauto. intros; simplify_eq. lia.
    + apply uniq_put; cbn; [done..|lia|]. intros q e1 E1 Ek.
      exfalso. by eapply to_map_lookup_None.
    + rewrite Hm, map_size_insert_None, map_size_delete_Some by
        (rewrite ?lookup_delete_ne by done; eauto). cbn.
      assert (size (to_map t) <> 0%nat); [|lia].
      rewrite map_size_non_empty_iff. intros Hem. by rewrite Hem in Hr.
  - split; [lia|by eapply ring_hash| |].
    + rewrite Hc, (ring_pos _ _ R _ _ E). f_equal. lia.
    + intros _. exists (Entry d ch ck cv). unfold t'.
      rewrite at_put_entry by (cbn; done || lia).
      rewrite decide_True by (f_equal; lia). split; [done|cbn; lia].
  - rewrite Hm, lookup_insert_ne by done. apply lookup_delete_eq.
  - rewrite Hm, insert_insert_ne by done. f_equal. by apply insert_delete_id.
Qed.

Lemma set_post_trans t t' ck cv k v x : cap t' = cap t ->
  <[k := v]> (to_map t') = <[ck := cv]> (to_map t) ->
  set_post t' k v x -> set_post t ck cv x.
Proof.
  intros Hc Hm. destruct x; cbn; intros; destruct_and!; split_and!; done || congruence.
Qed.

(** The carried entry moves past a resident that keeps its slot. *)
Lemma carry_next t ch ck d p e : wf H t -> carry t ch ck d p -> d <= maxDib ->
  at_ t p = Some e -> d <= e_dib e -> carry t ch ck (d + 1) (p + 1).
Proof.
  intros W [Hd Hh Hp Hc] Hd' E Hle. split; [lia|done| |].
  - rewrite Hp. f_equal. lia.
  - intros _. exists e. replace (p + 1 - 1) with p by lia. split; [done|lia].
Qed.

Lemma fresh_next t ch ck d p e sw : wf H t -> carry t ch ck d p -> fresh t sw ck d ->
  at_ t p = Some e -> (sw = false -> e_key e <> ck) -> fresh t sw ck (d + 1).
Proof.
  intros [L R U C] Ca F E Hk. destruct sw; [done|]. intros q e1 E1 Ek.
  pose proof (F q e1 E1 Ek). destruct (decide (e_dib e1 = d)) as [Ed|]; [|lia].
  exfalso. apply Hk; [done|]. pose proof (same_home _ _ _ _ _ _ _ L R Ca E1 Ek) as Hq.
  rewrite Ed, Z.sub_diag, Z.sub_0_r in Hq. apply at_congr in Hq. congruence.
Qed.

(** What [!swapped && m&fragMask == curFrag && t.keys[i] == curKey] computes. *)
Lemma key_hit_eq t p e c ck : layout t -> at_ t p = Some e -> (forall k, e_key e = k -> e_hash e = H k) ->
  key_hit t (c && (Z.land (packMeta (e_dib e) (fragOf (e_hash e))) fragMask =? fragOf (H ck)))
    (p mod cap t) ck = Ret (c && bool_decide (e_key e = ck)).
Proof.
  intros L E Hh. destruct (read_entry t p e L E) as (Hd & _ & Ek & _).
  unfold key_hit. rewrite frag_packMeta by auto with go. rewrite Ek. cbn.
  destruct c; cbn; [|done]. go_case; [done|].
  rewrite bool_decide_eq_false_2; [done|]. intros Hk. apply Hh in Hk. congruence.
Qed.

Lemma set_loop_spec fuel : forall t ch ck cv d sw p n,
  wf H t -> carry t ch ck d p -> fresh t sw ck d ->
  at_ t (p + n) = None -> 0 <= n < cap t -> n < Z.of_nat fuel ->
  exists x, set_loop fuel t ch ck cv (fragOf ch) d sw (p mod cap t) = Ret x /\
            set_post t ck cv x.
Proof.
  induction fuel as [|fuel IH]; intros t ch ck cv d sw p n W Ca F Hn Hr Hf; [lia|].
  pose proof W as [L R U C]. pose proof (carry_dib _ _ _ _ _ Ca) as Hd.
  cbn [set_loop]. destruct (Z.ltb_spec maxDib d).
  { eexists. split; [done|]. assert (d = maxDib + 1) as -> by lia.
    cbn. split_and!; eauto. destruct sw; [done|]. apply to_map_lookup_None; [done..|].
    intros q e1 E1 Ek. pose proof (F q e1 E1 Ek). destruct (at_Some _ _ _ L E1). lia. }
  destruct (at_ t p) as [e|] eqn:E.
  2:{ rewrite read_empty by done. cbn [mbind outcome_bind]. rewrite Z.eqb_refl.
      eexists. rewrite write_slot_put by done. cbn [mbind outcome_bind]. split; [done|].
      cbn [count put]. pose proof (size_le_cap t W). pose proof (cap_bounds t L).
      rewrite i64_id by (unfold in_i64; lia). by eapply place_post. }
  assert (0 < n) as Hn0.
  { destruct (decide (n = 0)) as [->|]; [|lia]. rewrite Z.add_0_r in Hn. congruence. }
  destruct (read_entry t p e L E) as (He & Em & Ek & Ev & Eh).
  rewrite Em. cbn [mbind outcome_bind].
  destruct (Z.eqb_spec (packMeta (e_dib e) (fragOf (e_hash e))) 0) as [Hz|_].
  { by apply packMeta_nonzero in Hz; auto with go. }
  rewrite (carry_hash _ _ _ _ _ Ca), key_hit_eq by (done || intros k <-; by eapply ring_hash).
  rewrite <- (carry_hash _ _ _ _ _ Ca). cbn [mbind outcome_bind].
  destruct (negb sw && bool_decide (e_key e = ck)) eqn:Hhit.
  { apply andb_true_iff in Hhit as [_ Hk%bool_decide_eq_true].
    rewrite aset_ret by (rewrite (lay_vals t L); by apply ring_index_range).
    cbn [mbind outcome_bind]. eexists. split; [done|]. rewrite (put_val t p e) by done.
    by eapply overwrite_post. }
  rewrite dibOf_packMeta, next_slot_eq by auto with go.
  destruct (Z.ltb_spec (e_dib e) d).
  - rewrite Ek, Ev, Eh. cbn [mbind outcome_bind]. rewrite write_slot_put by done.
    cbn [mbind outcome_bind].
    destruct (swap_step t ch ck cv d p sw e) as (W' & Hc & Ca' & HN & Hm); [done..|].
    rewrite u16_id by (change maxDib with 254 in *; unfold in_u16; lia).
    set (t' := put_entry _ _ _) in *. change (put t _ _ _ _ _) with t'. rewrite <- Hc.
    destruct (IH t' (e_hash e) (e_key e) (e_val e) (e_dib e + 1) true (p + 1) (n - 1))
      as (x & -> & Hx); try done; try lia.
    + unfold t'. rewrite at_put_entry by (cbn; done || lia).
      replace (p + 1 + (n - 1)) with (p + n) by lia. rewrite decide_False; [done|].
      apply mod_shift_neq; done || lia.
    + eexists. split; [done|]. by eapply set_post_trans.
  - rewrite u16_id by (change maxDib with 254 in *; unfold in_u16; lia).
    apply (IH _ _ _ _ _ _ _ (n - 1)); try done; try lia.
    + by eapply carry_next.
    + eapply fresh_next; eauto. intros ->. by apply bool_decide_eq_false in Hhit.
    + by replace (p + 1 + (n - 1)) with (p + n) by lia.
Qed.

Lemma set_pass_spec t k v : wf H t -> Z.of_nat (size (to_map t)) < cap t ->
  exists x, set_pass t (H k) k v = Ret x /\ set_post t k v x.
Proof.
  intros W Hs. pose proof W as [L R U C]. pose proof (cap_pos t L).
  destruct (empty_slot t L U Hs) as [q Hq].
  destruct (ring_distance (cap t) (H k) q) as (n & Hn & Eq); [done|].
  unfold set_pass. rewrite home_eq by done.
  apply (set_loop_spec _ _ _ _ _ _ _ _ n); try done.
  - split; [change maxDib with 254; lia|done|by rewrite Z.sub_0_r|lia].
  - intros p e E _. destruct (at_Some t p e L E). lia.
  - rewrite <- Hq. by apply at_congr.
  - unfold cap in Hn. lia.
Qed.

(** *** Allocation *)
Lemma alloc_inv c t : alloc c = Ret t ->
  0 <= c /\ slot_size K V * c <= maxAlloc /\ cap t = c /\
  t = Table (replicate (Z.to_nat c) 0) (replicate (Z.to_nat c) go_zero)
        (replicate (Z.to_nat c) go_zero) (replicate (Z.to_nat c) 0) 0
        (u64 (c - 1)) (c * 3 / 4).
Proof.
  unfold alloc. intros (ms & (? & _ & ->)%make_slice_inv & (ks & (_ & ? & ->)%make_slice_inv &
    (vs & (_ & ? & ->)%make_slice_inv & (hs & (_ & ? & ->)%make_slice_inv & [= <-])%bind_ret)%bind_ret)%bind_ret)%bind_ret.
  split; [done|]. split; [unfold slot_size; lia|]. unfold cap. cbn.
  rewrite length_replicate, Z2Nat.id by lia. split; [done|].
  unfold maxAlloc, loadNum, loadDen in *.
  rewrite i64_id, Z.quot_div_nonneg by (unfold in_i64; lia). done.
Qed.

Lemma alloc_ret n : 0 <= n <= maxLevel K V -> exists t, alloc (K:=K) (V:=V) (2 ^ n) = Ret t.
Proof.
  intros [? Hn%fits_level]; [|done]. pose proof (slot_size_range K V). unfold slot_size in *.
  assert (0 < 2 ^ n) by (apply pow2_pos; lia). unfold alloc. rewrite !make_slice_ret by nia. by eexists.
Qed.

Lemma alloc_no_diverge c : alloc (K:=K) (V:=V) c <> Diverge.
Proof. unfold alloc, make_slice. repeat go_case; cbn; done. Qed.

Lemma slot_zero t i : (forall m, meta t !! Z.to_nat i = Some m -> m = 0) -> slot t i = None.
Proof.
  intros Hm. unfold slot. destruct (meta t !! _) as [m|]; [|done]. rewrite (Hm m eq_refl).
  destruct (keys t !! _), (vals t !! _), (hashes t !! _); done.
Qed.

Lemma alloc_wf n t : 3 <= n -> alloc (2 ^ n) = Ret t ->
  wf H t /\ cap t = 2 ^ n /\ to_map t = ∅ /\ n <= maxLevel K V.
Proof.
  intros Hn (_ & Hr & Hc & E)%alloc_inv.
  assert (n <= maxLevel K V) by (apply fits_level; [lia|done]). pose proof (slot_size_range K V).
  assert (0 < 2 ^ n) by (apply pow2_pos; lia).
  assert (forall p, at_ t p = None) as Hat.
  { intros p. apply slot_zero. intros m. subst t. by intros [-> _]%lookup_replicate. }
  assert (layout t) as L.
  { split; rewrite ?Hc; subst t; cbn; rewrite ?length_replicate; try done.
    - exists n. lia.
    - apply u64_id. unfold in_u64, maxAlloc in *. lia.
    - intros i m h [-> _]%lookup_replicate. done. }
  assert (uniq t) as U by (intros ????; by rewrite Hat).
  assert (to_map t = ∅) as Hm.
  { apply map_eq. intros k. rewrite lookup_empty. apply to_map_lookup_None; [done..|].
    intros p e. by rewrite Hat. }
  split_and!; try done. split; [done| |done|].
  - split; intros p e; by rewrite Hat.
  - rewrite Hm. by subst t.
Qed.

(** *** Reinsertion, resize, grow *)

(** What a [set] function owes its callers: from a well-formed table with a free
    slot, a table it returns is well-formed, no smaller, and holds exactly the
    bindings of the old one plus the new. *)
Definition set_ok (setf : table K V -> Z -> K -> V -> outcome (table K V)) : Prop :=
  forall t k v t', wf H t -> Z.of_nat (size (to_map t)) < cap t -> setf t (H k) k v = Ret t' ->
  wf H t' /\ cap t <= cap t' /\ to_map t' = <[k := v]> (to_map t).

(** [reinsert] runs [set] over the entries of the listed slots, in order. *)
Fixpoint set_all (setf : table K V -> Z -> K -> V -> outcome (table K V))
    (es : list (entry K V)) t : outcome (table K V) :=
  match es with
  | [] => Ret t
  | e :: es' => t' ← setf t (e_hash e) (e_key e) (e_val e); set_all setf es' t'
  end.

Lemma reinsert_set_all setf src ix t : layout src -> (forall i, i ∈ ix -> 0 <= i < cap src) ->
  reinsert setf src ix t = set_all setf (omap (slot src) ix) t.
Proof.
  intros L. revert t. induction ix as [|i ix IH]; intros t Hix; [done|].
  assert (0 <= i < cap src) as Hi by (apply Hix; left).
  assert (forall j, j ∈ ix -> 0 <= j < cap src) as Hix' by (intros; apply Hix; by right).
  cbn [reinsert omap list_omap]. rewrite <- at_slot by done.
  destruct (at_ src i) as [e|] eqn:E.
  - destruct (read_entry src i e L E) as (Hd & Em & Ek & Ev & Eh).
    rewrite Z.mod_small in * by done. rewrite Em. cbn [mbind outcome_bind].
    destruct (Z.eqb_spec (packMeta (e_dib e) (fragOf (e_hash e))) 0) as [Hz|_].
    { by apply packMeta_nonzero in Hz; auto with go. }
    rewrite Eh, Ek, Ev. cbn [mbind outcome_bind set_all].
    destruct (setf t _ _ _); [|done..]. cbn. by apply IH.
  - pose proof (read_empty src i L E) as Em. rewrite Z.mod_small in Em by done.
    rewrite Em. cbn [mbind outcome_bind]. by apply IH.
Qed.

(** The map a list of entries is inserted into. *)
Definition insert_all (es : list (entry K V)) (m : gmap K V) : gmap K V :=
  foldl (fun m e => <[e_key e := e_val e]> m) m es.

Lemma insert_all_union es m : NoDup (e_key <$> es) ->
  insert_all es m = list_to_map ((fun e => (e_key e, e_val e)) <$> es) ∪ m.
Proof.
  unfold insert_all. revert m. induction es as [|e es IH]; cbn; intros m Hnd.
  { by rewrite map_empty_union. }
  apply NoDup_cons in Hnd as [Hni Hnd]. rewrite IH by done.
  rewrite <- insert_union_l. symmetry. apply insert_union_r, not_elem_of_list_to_map_1. by rewrite <- list_fmap_compose.
Qed.

Lemma set_all_ok setf es : set_ok setf -> Forall (fun e => e_hash e = H (e_key e)) es ->
  forall t t', wf H t -> Z.of_nat (size (to_map t) + length es) <= cap t ->
  set_all setf es t = Ret t' ->
  wf H t' /\ cap t <= cap t' /\ to_map t' = insert_all es (to_map t).
Proof.
  intros Hok. induction 1 as [|e es He Hes IH]; cbn [set_all length]; intros t t' W Hs.
  - intros [= <-]. split_and!; done.
  - rewrite He. intros (t1 & E1 & E2)%bind_ret.
    destruct (Hok t (e_key e) (e_val e) t1) as (W1 & Hc1 & Hm1); [done|lia|done|].
    assert (size (to_map t1) <= S (size (to_map t)))%nat by (rewrite Hm1; apply size_insert_le).
    destruct (IH t1 t') as (W2 & Hc2 & Hm2); [done|lia|done|].
    split_and!; [done|lia|]. by rewrite Hm2, Hm1.
Qed.

Lemma entries_hash t : wf H t -> Forall (fun e => e_hash e = H (e_key e)) (entries t).
Proof.
  intros [L R U C]. apply Forall_forall. intros e [p E]%elem_of_entries; [|done].
  by eapply ring_hash.
Qed.

(** [resize] to a capacity that holds the entries keeps the finite map. *)
Lemma resize_ok setf t t' n : set_ok setf -> wf H t -> 3 <= n ->
  Z.of_nat (size (to_map t)) <= 2 ^ n -> resize_with setf t (2 ^ n) = Ret t' ->
  wf H t' /\ 2 ^ n <= cap t' /\ to_map t' = to_map t.
Proof.
  intros Hok W Hn Hs (t0 & (W0 & Hc0 & Hm0 & _)%alloc_wf & E)%bind_ret; [|done].
  pose proof W as [L R U C].
  rewrite reinsert_set_all in E by (done || intros i ?%elem_of_seqZ; unfold cap; lia).
  apply set_all_ok in E as (W' & Hc' & Hm'); [|done|by apply entries_hash|done|].
  - rewrite Hc0 in Hc'. split_and!; [done..|]. rewrite Hm', Hm0, insert_all_union.
    + apply map_union_empty.
    + by apply entries_NoDup.
  - rewrite Hm0, map_size_empty, Hc0. rewrite size_to_map in Hs by done.
    unfold entries, cap in Hs. lia.
Qed.

Lemma grow_eq setf t n : layout t -> cap t = 2 ^ n -> 0 <= n ->
  grow_with setf t = resize_with setf t (2 ^ (n + 1)).
Proof.
  intros L Hc Hn. unfold grow_with. fold (cap t). pose proof (cap_bounds t L).
  rewrite i64_id by (unfold in_i64; lia). by rewrite Hc, Z.pow_add_r by lia.
Qed.

(** *** [set] *)
Lemma set_rec_ok fuel : set_ok (set_rec fuel).
Proof.
  induction fuel as [|fuel IH]; intros t k v t' W Hs; cbn [set_rec]; [done|].
  destruct (set_pass_spec t k v W Hs) as (x & -> & Hx). cbn [mbind outcome_bind].
  destruct x as [t1|t1 h1 k1 v1]; cbn in Hx.
  - intros [= <-]. destruct Hx as (? & Hc & ?). split_and!; [done|lia|done].
  - destruct Hx as (W1 & Hc1 & HN1 & Hm1 & p1 & Ca1).
    rewrite (carry_hash _ _ _ _ _ Ca1). intros (t2 & E2 & E3)%bind_ret.
    pose proof (wf_layout _ _ W1) as L1. destruct (lay_cap _ L1) as (n & Hn & Hc).
    assert (0 < 2 ^ n) by (apply pow2_pos; lia).
    pose proof (size_le_cap t1 W1). pose proof (Z.pow_add_r 2 n 1).
    rewrite (grow_eq _ _ n) in E2 by (done || lia).
    apply resize_ok in E2 as (W2 & Hc2 & Hm2); [|done..|lia|lia].
    apply IH in E3 as (W3 & Hc3 & Hm3); [|done|rewrite Hm2; lia].
    split_and!; [done|lia|]. by rewrite Hm3, Hm2.
Qed.

Lemma set_is_ok : set_ok set.
Proof. intros t k v t'. unfold set. apply set_rec_ok. Qed.

End Set_.
