(* ===== verification/TableSpread.v ===== *)
(** * When insertion returns

    [set] grows the table while an entry would sit more than [maxDib] slots from
    its home.  [spread] says that the hashes of a key set fit a capacity: a window
    of [L] home slots is the home of at most [L + maxDib] keys.  A table of that
    capacity exists exactly when the hashes are spread, so [set] returns exactly
    when they are spread at some capacity [make] can allocate, and otherwise
    panics; it never runs forever. *)
From S2P Require Import Prelude Table TableInv TableSet.

Section Spread.
Context {K V : Type} `{!EqDecision K} `{!Countable K} `{!GoType K} `{!GoType V}.
Implicit Types t : table K V.
Implicit Types e : entry K V.
Variable H : K -> Z.

(** The keys of [D] whose home lies in the [L] slots from [s] on, at capacity [C]. *)
Definition window (D : gset K) (C s L : Z) : gset K :=
  filter (fun k => (H k - s) mod C < L) D.

Definition spread (D : gset K) (C : Z) : Prop :=
  forall s L, 0 < L -> Z.of_nat (size (window D C s L)) <= L + maxDib.

(** ** A well-formed table is spread *)
Lemma size_le_list (X : gset K) (l : list K) :
  (forall k, k ∈ X -> k ∈ l) -> (size X <= length l)%nat.
Proof.
  intros Hs. apply submseteq_length, NoDup_submseteq; [apply NoDup_elements|].
  intros k. rewrite elem_of_elements. apply Hs.
Qed.

Lemma wf_spread t : wf H t -> spread (dom (to_map t)) (cap t).
Proof.
  intros [L R U C] s n Hn. pose proof (cap_pos t L) as Hc.
  set (l := omap (fun o => e_key <$> at_ t (s + o)) (seqZ 0 (n + maxDib))).
  assert (Z.of_nat (length l) <= n + maxDib).
  { etrans; [apply Nat2Z.inj_le, omap_length_le|]. rewrite length_seqZ.
    change maxDib with 254. lia. }
  enough (size (window (dom (to_map t)) (cap t) s n) <= length l)%nat by lia.
  apply size_le_list. unfold window. intros k [Hw Hk]%elem_of_filter.
  apply elem_of_dom in Hk as [v (p & e & E & <- & <-)%to_map_lookup]; [|done..].
  destruct (at_Some t p e L E) as (He & _).
  pose proof (Z.mod_pos_bound (H (e_key e) - s) (cap t) Hc).
  apply list_elem_of_omap. exists ((H (e_key e) - s) mod cap t + e_dib e).
  split; [apply elem_of_seqZ; lia|].
  rewrite (at_congr t _ p), E; [done|].
  rewrite <- (ring_hash _ _ R p e E).
  pose proof (ring_pos _ _ R p e E) as Hp.
  replace (s + _) with ((e_hash e - s) mod cap t + (s + e_dib e)) by lia.
  rewrite mod_mod_add by done. replace (e_hash e - s + _) with (e_hash e + e_dib e) by lia.
  rewrite (mod_shift_eq (cap t) (p - e_dib e)) by done. f_equal. lia.
Qed.

(** ** Spread hashes do not overflow *)

(** Going back from an occupied slot one meets an entry in its home slot, all
    slots between being occupied. *)
Lemma cluster_start t p n : ring H t -> 0 <= n -> at_ t (p - n) = None -> is_Some (at_ t p) ->
  (forall q e, at_ t q = Some e -> 0 <= e_dib e) ->
  exists s e, p - n < s <= p /\ at_ t s = Some e /\ e_dib e = 0 /\
    forall r, s <= r <= p -> is_Some (at_ t r).
Proof.
  intros R Hn Hem Hp Hpos. revert p Hem Hp. pattern n.
  apply natlike_ind; [|clear n Hn; intros n Hn IH|done]; intros p Hem [e E].
  { rewrite Z.sub_0_r in Hem. congruence. }
  destruct (Z.eq_dec (e_dib e) 0) as [Hd|Hd].
  { exists p, e. split_and!; [lia..|done|done|]. intros r Hr.
    by replace r with p by lia. }
  destruct (ring_chain _ _ R p e E) as (e1 & E1 & ?); [pose proof (Hpos _ _ E); lia|].
  destruct (IH (p - 1)) as (s & e0 & Hs & E0 & Hd0 & Hocc); [|done|].
  { rewrite <- Hem. f_equal. lia. }
  exists s, e0. split_and!; [lia..|done|done|]. intros r Hr.
  destruct (decide (r = p)) as [->|]; [done|]. apply Hocc. lia.
Qed.

(** A run of occupied slots starting with an entry at home is not longer than
    the ring, its keys are distinct, and no home lies before the run. *)
Lemma run_keys t s e0 p : wf H t -> Z.of_nat (size (to_map t)) < cap t ->
  at_ t s = Some e0 -> e_dib e0 = 0 -> (forall r, s <= r < p -> is_Some (at_ t r)) ->
  let ks := e_key <$> omap (at_ t) (seqZ s (p - s)) in
  p - s < cap t /\ NoDup ks /\ length ks = Z.to_nat (p - s) /\
  (forall r e, s <= r < p -> at_ t r = Some e -> s <= r - e_dib e).
Proof.
  intros W Hs E0 Hd0 Hocc ks. pose proof W as [L R U C]. pose proof (cap_pos t L) as Hcap.
  assert (p - s < cap t) as Hlen.
  { destruct (empty_slot t L U Hs) as [q Hq].
    destruct (ring_distance (cap t) s q Hcap) as (j & Hj & Ej%(at_congr t)).
    destruct (Z.lt_ge_cases (p - s) (cap t)); [done|].
    destruct (Hocc (s + j)) as [e ?]; [lia|]. congruence. }
  split_and!; [done| | |].
  - apply NoDup_fmap_omap; [apply NoDup_seqZ|].
    intros x y e e' Hx%elem_of_seqZ Hy%elem_of_seqZ Ex Ey Ek.
    pose proof (U x y e e' Ex Ey Ek) as Exy.
    destruct (Z.lt_trichotomy x y) as [Hlt|[->|Hlt]]; [exfalso|done|exfalso].
    + apply (mod_shift_neq (cap t) x x (y - x)); [done|done|lia|].
      by replace (x + (y - x)) with y by lia.
    + apply (mod_shift_neq (cap t) y y (x - y)); [done|done|lia|].
      by replace (y + (x - y)) with x by lia.
  - unfold ks. rewrite length_fmap, omap_all_length, length_seqZ; [done|].
    intros r Hr%elem_of_seqZ. apply Hocc. lia.
  - intros r e Hr E. destruct (Z.le_gt_cases s (r - e_dib e)); [done|exfalso].
    destruct (chain_back H t r e (r - s) R E) as (e' & E' & ?); [lia|].
    replace (r - (r - s)) with s in E' by lia. simplify_eq. lia.
Qed.

(** The slots from the home of an overflowing entry to where it is carried. *)
Lemma overflow_run t h k p : ring H t -> carry H t h k (maxDib + 1) p ->
  forall r, p - (maxDib + 1) <= r < p ->
  exists e, at_ t r = Some e /\ r - (p - (maxDib + 1)) <= e_dib e.
Proof.
  intros R [Hd Hh Hp Hc] r Hr. destruct Hc as (e1 & E1 & He1); [change maxDib with 254; lia|].
  destruct (chain_back H t (p - 1) e1 (p - 1 - r) R E1) as (e & E & ?); [lia|].
  exists e. replace (p - 1 - (p - 1 - r)) with r in E by lia. split; [done|]. lia.
Qed.

Lemma overflow_cluster t h k p : wf H t -> Z.of_nat (size (to_map t)) < cap t ->
  carry H t h k (maxDib + 1) p ->
  exists s e0, s <= p - (maxDib + 1) /\ at_ t s = Some e0 /\ e_dib e0 = 0 /\
    forall r, s <= r < p -> is_Some (at_ t r).
Proof.
  intros W Hs Ca. pose proof W as [L R U C]. pose proof (cap_pos t L) as Hcap.
  pose proof (overflow_run t h k p R Ca) as Hhi. set (q0 := p - (maxDib + 1)) in *.
  assert (q0 < p) by (subst q0; change maxDib with 254; lia).
  destruct (empty_slot t L U Hs) as [q Hq].
  destruct (ring_distance (cap t) q q0 Hcap) as (n & Hn & En).
  destruct (cluster_start t q0 n R) as (s & e0 & Hs0 & E0 & Hd0 & Hocc).
  - lia.
  - rewrite <- Hq. apply at_congr. replace (q0 - n) with (q0 + - n) by lia.
    rewrite <- (mod_shift_eq (cap t) _ _ (- n) Hcap En). f_equal. lia.
  - destruct (Hhi q0) as (e & -> & _); [lia|]. eauto.
  - intros r e E. apply (at_Some t r e L E).
  - exists s, e0. split_and!; [lia|done..|]. intros r Hr.
    destruct (Z.le_gt_cases r q0); [apply Hocc; lia|].
    destruct (Hhi r) as (e & -> & _); [lia|]. eauto.
Qed.

(** An entry carried one step too far: the slots from the start of its cluster
    up to it hold more keys of one window than [spread] allows. *)
Lemma spread_no_overflow t D h k p : wf H t -> Z.of_nat (size (to_map t)) < cap t ->
  to_map t !! k = None -> dom (to_map t) ⊆ D -> k ∈ D -> spread D (cap t) ->
  carry H t h k (maxDib + 1) p -> False.
Proof.
  intros W Hs HN HD HkD Hsp Ca. pose proof W as [L R U C]. pose proof (cap_pos t L) as Hcap.
  destruct (overflow_cluster t h k p W Hs Ca) as (s & e0 & Hs0 & E0 & Hd0 & Hocc).
  destruct (run_keys t s e0 p W Hs E0 Hd0 Hocc) as (Hlen & Hnd & Hks & Hlo).
  pose proof (overflow_run t h k p R Ca) as Hhi. set (q0 := p - (maxDib + 1)) in *.
  assert (0 <= maxDib) by (change maxDib with 254; lia).
  set (ks := e_key <$> omap (at_ t) (seqZ s (p - s))) in *.
  assert (forall k' x, (H k' - s) mod cap t = (x - s) mod cap t -> s <= x <= q0 ->
    (H k' - s) mod cap t < q0 - s + 1) as Hwin.
  { intros k' x -> Hx. rewrite Z.mod_small; lia. }
  assert (length (k :: ks) <= size (window D (cap t) s (q0 - s + 1)))%nat as Hle.
  { apply (submseteq_length _ (elements _)), NoDup_submseteq.
    - constructor; [|done]. intros (e & -> & (r & Hr & E)%list_elem_of_omap)%list_elem_of_fmap.
      by eapply to_map_lookup_None.
    - intros k' Hk'. apply elem_of_elements, elem_of_filter.
      apply elem_of_cons in Hk' as [->|(e & -> & (r & Hr%elem_of_seqZ & E)%list_elem_of_omap)%list_elem_of_fmap].
      + split; [|done]. apply (Hwin k q0); [|lia].
        rewrite <- (carry_hash _ _ _ _ _ _ Ca).
        by apply (mod_shift_eq _ _ _ (- s)), (carry_pos _ _ _ _ _ _ Ca).
      + split; [|apply HD, elem_of_dom; eexists; by eapply at_to_map].
        apply (Hwin (e_key e) (r - e_dib e)).
        * rewrite <- (ring_hash _ _ R _ _ E).
          by apply (mod_shift_eq _ _ _ (- s)), (ring_pos _ _ R _ _ E).
        * split; [apply (Hlo r e); done || lia|]. destruct (at_Some t r e L E) as (? & _).
          destruct (Z.le_gt_cases r q0); [lia|].
          destruct (Hhi r) as (e' & E' & ?); [lia|]. simplify_eq. lia. }
  pose proof (Hsp s (q0 - s + 1)) as Hsp'. cbn [length] in Hle. lia.
Qed.

(** ** Spread at one capacity is spread at every larger one *)
Lemma spread_mono D n m : 0 <= n <= m -> spread D (2 ^ n) -> spread D (2 ^ m).
Proof.
  intros Hnm Hsp s L HL. assert (0 < 2 ^ n) by (apply pow2_pos; lia).
  assert (0 < 2 ^ m) by (apply pow2_pos; lia).
  destruct (Z.le_gt_cases L (2 ^ n)) as [Hle|Hgt].
  - etrans; [|by apply (Hsp s L)]. apply Nat2Z.inj_le, subseteq_size. unfold window.
    intros k [Hw Hk]%elem_of_filter. apply elem_of_filter. split; [|done].
    pose proof (Z.mod_pos_bound (H k - s) (2 ^ m)).
    assert ((H k - s) mod 2 ^ m mod 2 ^ n = (H k - s) mod 2 ^ n) as <-.
    { replace m with (n + (m - n)) by lia. rewrite Z.pow_add_r by lia.
      assert (0 < 2 ^ (m - n)) by (apply pow2_pos; lia). rewrite Z.rem_mul_r by lia.
      rewrite (Z.mul_comm (2 ^ n)), Z.mod_add, Z.mod_mod by lia. done. }
    rewrite Z.mod_small; lia.
  - etrans; [|transitivity (2 ^ n + maxDib); [by apply (Hsp s)|lia]].
    apply Nat2Z.inj_le, subseteq_size. unfold window.
    intros k [Hw Hk]%elem_of_filter. apply elem_of_filter. split; [|done].
    by apply Z.mod_pos_bound.
Qed.

Lemma spread_subset D D' C : D' ⊆ D -> spread D C -> spread D' C.
Proof.
  intros Hsub Hsp s L HL. etrans; [|by apply (Hsp s L)].
  apply Nat2Z.inj_le, subseteq_size.
  intros k [? Hk]%elem_of_filter. apply elem_of_filter. auto.
Qed.

(** At most [maxDib + 1] keys are spread at every capacity. *)
Lemma spread_few D C : Z.of_nat (size D) <= maxDib + 1 -> spread D C.
Proof.
  intros Hs s L HL.
  assert (size (window D C s L) <= size D)%nat
    by (apply subseteq_size; by intros k [_ ?]%elem_of_filter).
  lia.
Qed.

(** Keys with different homes at capacity [C] are spread there. *)
Lemma spread_inj D C : 0 < C ->
  (forall k k', k ∈ D -> k' ∈ D -> H k mod C = H k' mod C -> k = k') -> spread D C.
Proof.
  intros HC Hinj s L HL.
  assert (size (window D C s L) <= length (seqZ 0 L))%nat as Hle.
  { change (size ?X) with (length (elements X)).
    rewrite <- (length_fmap (fun k => (H k - s) mod C)).
    apply submseteq_length, NoDup_submseteq.
    - apply NoDup_fmap_2_strong; [|apply NoDup_elements]. unfold window.
      intros k k' [_ Hk]%elem_of_elements%elem_of_filter [_ Hk']%elem_of_elements%elem_of_filter E.
      apply Hinj; [done..|]. apply (mod_shift_eq _ _ _ s) in E; [|done].
      by rewrite !Z.sub_add in E.
    - intros x (k & -> & [Hw Hk]%elem_of_elements%elem_of_filter)%list_elem_of_fmap.
      apply elem_of_seqZ. pose proof (Z.mod_pos_bound (H k - s) C HC). lia. }
  rewrite length_seqZ in Hle. change maxDib with 254. lia.
Qed.

(** [maxDib + 2] keys of one hash are spread nowhere. *)
Lemma not_spread_same_hash D C h : 0 < C -> maxDib + 1 < Z.of_nat (size D) ->
  (forall k, k ∈ D -> H k = h) -> ~ spread D C.
Proof.
  intros HC Hs Hh Hsp. specialize (Hsp h 1). 
  assert (window D C h 1 = D) as E.
  { unfold window. apply set_eq. intros k. rewrite elem_of_filter. split; [tauto|].
    intros Hk. split; [|done]. rewrite (Hh k Hk), Z.sub_diag, Z.mod_0_l; lia. }
  rewrite E in Hsp. lia.
Qed.

(** ** What [set] does on every input *)
Section Good.
(** A property of outcomes that holds of every returned table. *)
Variable Good : outcome (table K V) -> Prop.
Hypothesis Good_ret : forall t, Good (Ret t).
Variable D : gset K.

(** [setf] is good on tables of capacity at least [c] over the keys of [D]. *)
Definition set_good (setf : table K V -> Z -> K -> V -> outcome (table K V)) (c : Z) : Prop :=
  forall t k v, wf H t -> Z.of_nat (size (to_map t)) < cap t -> c <= cap t ->
  dom (to_map t) ⊆ D -> k ∈ D -> Good (setf t (H k) k v).

Lemma set_all_good setf c es : set_ok H setf -> set_good setf c ->
  Forall (fun e => e_hash e = H (e_key e) /\ e_key e ∈ D) es ->
  forall t, wf H t -> Z.of_nat (size (to_map t) + length es) <= cap t -> c <= cap t ->
  dom (to_map t) ⊆ D -> Good (set_all setf es t).
Proof.
  intros Hok Hgood. induction 1 as [|e es [He HeD] Hes IH]; cbn [set_all length];
    intros t W Hs Hc HD; [done|].
  rewrite He. apply bind_good.
  - apply Hgood; done || lia.
  - intros t1 E1. destruct (Hok t (e_key e) (e_val e) t1) as (W1 & Hc1 & Hm1); [done|lia|done|].
    assert (size (to_map t1) <= S (size (to_map t)))%nat by (rewrite Hm1; apply size_insert_le).
    apply IH; [done|lia|lia|]. rewrite Hm1, dom_insert_L. by apply union_least; [apply singleton_subseteq_l|].
Qed.

Lemma resize_good setf t n : set_ok H setf -> set_good setf (2 ^ n) -> wf H t -> 3 <= n ->
  Z.of_nat (size (to_map t)) <= 2 ^ n -> dom (to_map t) ⊆ D ->
  Good (alloc (2 ^ n)) -> Good (resize_with setf t (2 ^ n)).
Proof.
  intros Hok Hgood W Hn Hs HD Ha. pose proof W as [L R U C].
  unfold resize_with. apply bind_good; [done|].
  intros t0 (W0 & Hc0 & Hm0 & _)%(alloc_wf H); [|done].
  rewrite reinsert_set_all by (done || intros i ?%elem_of_seqZ; unfold cap; lia).
  apply (set_all_good setf (2 ^ n)); try done.
  - apply Forall_forall. intros e He. split.
    + by eapply Forall_forall in He; [|by apply entries_hash].
    + apply elem_of_entries in He as [p E]; [|done].
      apply HD, elem_of_dom. eexists. by eapply at_to_map.
  - rewrite Hm0, map_size_empty, Hc0. rewrite size_to_map in Hs by done.
    unfold entries, cap in Hs. lia.
  - by rewrite Hc0.
  - rewrite Hm0, dom_empty_L. set_solver.
Qed.

(** From level [m] on, an overflow is impossible or ends the program. *)
Variable m : Z.
Hypothesis m_range : 0 <= m <= maxLevel K V.
Hypothesis top : forall t h k p setf f, wf H t -> Z.of_nat (size (to_map t)) < cap t ->
  to_map t !! k = None -> dom (to_map t) ⊆ D -> k ∈ D -> carry H t h k (maxDib + 1) p ->
  2 ^ m <= cap t -> Good (grow_with setf t ≫= f).

(** One level of fuel per doubling up to level [m] is enough. *)
Lemma set_rec_good fuel n : 3 <= n -> Z.max 0 (m - n) < Z.of_nat fuel ->
  set_good (set_rec fuel) (2 ^ n).
Proof.
  revert n. induction fuel as [|fuel IH]; intros n Hn Hfuel t k v W Hs Hc HD Hk; [lia|].
  cbn [set_rec]. destruct (set_pass_spec H t k v W Hs) as (x & -> & Hx).
  cbn [mbind outcome_bind]. destruct x as [t1|t1 h1 k1 v1]; [done|].
  destruct Hx as (W1 & Hc1 & HN1 & Hm1 & p1 & Ca1).
  pose proof (wf_layout _ _ W1) as L1. destruct (lay_cap _ L1) as (n1 & Hn1 & Hcn).
  assert (dom (to_map t1) ⊆ D /\ k1 ∈ D) as [HD1 Hk1].
  { apply and_comm. rewrite <- singleton_subseteq_l, <- union_subseteq.
    rewrite <- dom_insert_L with (x := v1), Hm1, dom_insert_L.
    by rewrite union_subseteq, singleton_subseteq_l. }
  assert (Z.of_nat (size (to_map t1)) < cap t1) as Hs1.
  { assert (S (size (to_map t1)) <= S (size (to_map t)))%nat; [|lia].
    rewrite <- (map_size_insert_None k1 v1) by done. rewrite Hm1. apply size_insert_le. }
  destruct (Z.le_gt_cases (2 ^ m) (cap t1)) as [Hge|Hlt].
  { by eapply top. }
  assert (n <= n1) by (apply (Z.pow_le_mono_r_iff 2); lia).
  assert (n1 < m) by (apply (Z.pow_lt_mono_r_iff 2); lia).
  pose proof (Z.pow_add_r 2 n1 1). assert (0 < 2 ^ n1) by (apply pow2_pos; lia).
  rewrite (carry_hash _ _ _ _ _ _ Ca1), (grow_eq _ _ n1) by (done || lia).
  assert (set_good (set_rec fuel) (2 ^ (n1 + 1))) as IH1 by (apply IH; lia).
  apply bind_good.
  - apply resize_good; try done; try lia; [apply set_rec_ok|].
    destruct (alloc_ret (K:=K) (V:=V) (n1 + 1)) as [t0 ->]; [lia|done].
  - intros t2 E2. apply (resize_ok H) in E2 as (W2 & Hc2 & Hm2); [|apply set_rec_ok|done|lia|lia].
    apply IH1; rewrite ?Hm2; done || lia.
Qed.

End Good.

(** [set] returns or panics on every well-formed table with a free slot. *)
Lemma set_no_diverge t k v : wf H t -> Z.of_nat (size (to_map t)) < cap t ->
  set t (H k) k v <> Diverge.
Proof.
  intros W Hs. pose proof (wf_layout _ _ W) as L. destruct (lay_cap _ L) as (n & Hn & Hc).
  assert (0 <= maxLevel K V <= maxLevel K V /\ maxLevel K V <= 45) as [Hr ?] by (pose proof (maxLevel_range K V); lia).
  unfold set. apply (set_rec_good (fun o => o <> Diverge) ltac:(done) ({[k]} ∪ dom (to_map t)) (maxLevel K V)
    Hr) with (n := n); try done; try lia;
    [|apply union_subseteq_r|apply elem_of_union_l, elem_of_singleton_2; done].
  intros t1 h k1 p setf f W1 Hs1 _ _ _ _ Hge. pose proof (wf_layout _ _ W1) as L1.
  destruct (lay_cap _ L1) as (n1 & Hn1 & Hc1).
  assert (maxLevel K V <= n1) by (apply (Z.pow_le_mono_r_iff 2); lia). assert (n1 = maxLevel K V) as -> by lia.
  rewrite (grow_eq _ _ (maxLevel K V)) by (done || lia). unfold resize_with.
  destruct (alloc (2 ^ (maxLevel K V + 1))) as [t'| |] eqn:Ea; [|done|].
  - apply (alloc_wf H) in Ea as (_ & _ & _ & ?); lia.
  - by apply alloc_no_diverge in Ea.
Qed.

(** Every level of capacity is an exponent. *)
Lemma cap_level t : layout t -> exists n, 3 <= n <= maxLevel K V /\ cap t = 2 ^ n.
Proof. apply lay_cap. Qed.

(** Keys spread at level [m] never overflow at capacity [2 ^ m] or more. *)
Lemma spread_returns fuel D n m : 3 <= n -> 0 <= m <= maxLevel K V -> spread D (2 ^ m) ->
  Z.max 0 (m - n) < Z.of_nat fuel ->
  set_good (fun o => exists t', o = Ret t') D (set_rec fuel) (2 ^ n).
Proof.
  intros Hn Hm Hsp Hf.
  apply (set_rec_good _ (fun t' => ex_intro _ t' eq_refl) D m Hm); try done.
  intros t1 h k1 p setf f W1 Hs1 HN1 HD1 Hk1 Ca1 Hge. exfalso.
  eapply spread_no_overflow; eauto.
  destruct (cap_level _ (wf_layout _ _ W1)) as (n1 & Hn1 & Hc1). rewrite Hc1 in *.
  apply (spread_mono _ m); [|done]. split; [lia|]. apply (Z.pow_le_mono_r_iff 2); lia.
Qed.

Lemma set_spread_returns D n m : 3 <= n -> 0 <= m <= maxLevel K V -> spread D (2 ^ m) ->
  set_good (fun o => exists t', o = Ret t') D set (2 ^ n).
Proof. intros ??? t k v. pose proof (maxLevel_range K V). unfold set. apply (spread_returns 64 D n m); done || lia. Qed.

(** [set] returns exactly when the hashes of the keys are spread at the largest
    capacity [make] can allocate; otherwise it panics. *)
Lemma set_returns_iff t k v : wf H t -> Z.of_nat (size (to_map t)) < cap t ->
  (exists t', set t (H k) k v = Ret t') <-> spread ({[k]} ∪ dom (to_map t)) (maxCap K V).
Proof.
  intros W Hs. destruct (cap_level _ (wf_layout _ _ W)) as (n & Hn & Hc). split.
  - intros [t' E]. apply (set_is_ok H) in E as (W' & Hc' & Hm'); [|done..].
    destruct (cap_level _ (wf_layout _ _ W')) as (m & Hm & Hcm).
    pose proof (wf_spread t' W') as Hsp. rewrite Hm', dom_insert_L, Hcm in Hsp.
    by apply (spread_mono _ m); [lia|].
  - intros Hsp. apply (set_spread_returns ({[k]} ∪ dom (to_map t)) n (maxLevel K V)); try done; try lia.
    + apply union_subseteq_r.
    + by apply elem_of_union_l, elem_of_singleton_2.
Qed.

Lemma set_panics t k v : wf H t -> Z.of_nat (size (to_map t)) < cap t ->
  ~ spread ({[k]} ∪ dom (to_map t)) (maxCap K V) -> set t (H k) k v = Panic.
Proof.
  intros W Hs Hsp. pose proof (set_no_diverge t k v W Hs).
  pose proof (proj1 (set_returns_iff t k v W Hs)).
  destruct (set t (H k) k v); [exfalso; eauto|done..].
Qed.

(** Resizing a well-formed table returns: its keys are spread at its capacity. *)
Lemma resize_returns t n : wf H t -> 3 <= n <= maxLevel K V -> Z.of_nat (size (to_map t)) <= 2 ^ n ->
  exists t', resize t (2 ^ n) = Ret t'.
Proof.
  intros W Hn Hs. destruct (cap_level _ (wf_layout _ _ W)) as (m & Hm & Hc).
  apply (resize_good (fun o => exists t', o = Ret t') (fun t' => ex_intro _ t' eq_refl)
    (dom (to_map t))); try done; [apply set_is_ok| |lia|apply alloc_ret; lia].
  apply (set_spread_returns _ n m); try lia. rewrite <- Hc. by apply wf_spread.
Qed.

End Spread.
