(* ===== verification/TableDelete.v ===== *)
(** * Lookup and deletion: [lookup], [delete], [shrink]

    The probe decides membership within 256 iterations whatever the capacity;
    the backward shift restores the invariant and removes exactly one binding. *)
From S2P Require Import Prelude Table TableInv TableSet TableSpread.

Section Delete_.
Context {K V : Type} `{!EqDecision K} `{!Countable K} `{!GoType K} `{!GoType V}.
Implicit Types t : table K V.
Implicit Types e : entry K V.
Variable H : K -> Z.

(** ** Probing *)

(** The two probe loops start from the home slot with nothing met. *)
Lemma probe_start t k : wf H t -> carry H t (H k) k 0 (H k) /\ fresh t false k 0.
Proof.
  intros [L R U C]. split.
  - split; [change maxDib with 254; lia|done|by rewrite Z.sub_0_r|lia].
  - intros p e E _. destruct (at_Some t p e L E). lia.
Qed.

(** The result [lookup] owes its caller. *)
Definition found t (k : K) : V * bool :=
  match to_map t !! k with Some v => (v, true) | None => (go_zero, false) end.

Lemma lookup_loop_spec fuel : forall t k d p,
  wf H t -> carry H t (H k) k d p -> fresh t false k d -> maxDib + 1 - d < Z.of_nat fuel ->
  lookup_loop fuel t k (fragOf (H k)) (p mod cap t) d = Ret (found t k).
Proof.
  induction fuel as [|fuel IH]; intros t k d p W Ca F Hf.
  { pose proof (carry_dib _ _ _ _ _ _ Ca). lia. }
  pose proof W as [L R U C]. cbn [lookup_loop]. unfold found.
  destruct (at_ t p) as [e|] eqn:E.
  2:{ rewrite read_empty by done. cbn [mbind outcome_bind]. rewrite Z.eqb_refl.
      erewrite fresh_absent; eauto. congruence. }
  destruct (read_entry t p e L E) as (He & Em & Ek & Ev & Eh).
  rewrite Em. cbn [mbind outcome_bind].
  destruct (Z.eqb_spec (packMeta (e_dib e) (fragOf (e_hash e))) 0) as [Hz|_].
  { by apply packMeta_nonzero in Hz; auto with go. }
  rewrite dibOf_packMeta by auto with go. destruct (Z.ltb_spec (e_dib e) d).
  { erewrite fresh_absent; eauto. intros; by simplify_eq. }
  pose proof (key_hit_eq H t p e true k L E) as Hk. cbn [andb] in Hk.
  rewrite Hk by (intros ? <-; by eapply ring_hash). cbn [mbind outcome_bind].
  destruct (bool_decide_reflect (e_key e = k)) as [<-|Hne].
  - rewrite Ev. cbn. by rewrite (at_to_map t p e L U E).
  - rewrite next_slot_eq, u16_id by (done || change maxDib with 254 in *; unfold in_u16;
      pose proof (carry_dib _ _ _ _ _ _ Ca); lia).
    apply IH; [done| | |lia].
    + eapply carry_next; eauto; lia.
    + by eapply fresh_next.
Qed.

Lemma table_lookup_spec t k : wf H t -> table_lookup t (H k) k = Ret (found t k).
Proof.
  intros W. destruct (probe_start t k W). unfold table_lookup.
  rewrite home_eq by apply W. by apply lookup_loop_spec.
Qed.

Definition find_post t (k : K) (r : option Z) : Prop :=
  match r with
  | Some i => exists p e, i = p mod cap t /\ at_ t p = Some e /\ e_key e = k
  | None => to_map t !! k = None
  end.

Lemma delete_find_spec fuel : forall t k d p,
  wf H t -> carry H t (H k) k d p -> fresh t false k d -> maxDib + 1 - d < Z.of_nat fuel ->
  exists r, delete_find fuel t k (fragOf (H k)) (p mod cap t) d = Ret r /\ find_post t k r.
Proof.
  induction fuel as [|fuel IH]; intros t k d p W Ca F Hf.
  { pose proof (carry_dib _ _ _ _ _ _ Ca). lia. }
  pose proof W as [L R U C]. cbn [delete_find].
  destruct (at_ t p) as [e|] eqn:E.
  2:{ rewrite read_empty by done. cbn [mbind outcome_bind]. rewrite Z.eqb_refl.
      exists None. split; [done|]. eapply fresh_absent; eauto. congruence. }
  destruct (read_entry t p e L E) as (He & Em & Ek & Ev & Eh).
  rewrite Em. cbn [mbind outcome_bind].
  destruct (Z.eqb_spec (packMeta (e_dib e) (fragOf (e_hash e))) 0) as [Hz|_].
  { by apply packMeta_nonzero in Hz; auto with go. }
  rewrite dibOf_packMeta by auto with go. cbn [orb]. destruct (Z.ltb_spec (e_dib e) d).
  { exists None. split; [done|]. eapply fresh_absent; eauto. intros; by simplify_eq. }
  pose proof (key_hit_eq H t p e true k L E) as Hk. cbn [andb] in Hk.
  rewrite Hk by (intros ? <-; by eapply ring_hash). cbn [mbind outcome_bind].
  destruct (bool_decide_reflect (e_key e = k)) as [<-|Hne].
  - eexists. split; [done|]. exists p, e. done.
  - rewrite next_slot_eq, u16_id by (done || change maxDib with 254 in *; unfold in_u16;
      pose proof (carry_dib _ _ _ _ _ _ Ca); lia).
    apply IH; [done| | |lia].
    + eapply carry_next; eauto; lia.
    + by eapply fresh_next.
Qed.

(** ** Backward shift *)

(** Moving an entry to an empty slot keeps the bindings. *)
Lemma move_entry t p q e e1 : layout t -> uniq t -> at_ t q = Some e -> at_ t p = None ->
  e_key e1 = e_key e -> e_val e1 = e_val e -> 0 <= e_dib e1 <= maxDib ->
  let t' := put_entry (vacate t q) p e1 in
  layout t' /\ cap t' = cap t /\ uniq t' /\ to_map t' = to_map t /\
  forall r, at_ t' r = if decide (r mod cap t = p mod cap t) then Some e1
                      else if decide (r mod cap t = q mod cap t) then None else at_ t r.
Proof.
  intros L U Eq Ep Hk Hv Hd t'.
  assert (layout (vacate t q)) as Lv by by apply layout_vacate.
  assert (cap (vacate t q) = cap t) as Hcv by apply cap_put.
  assert (uniq (vacate t q)) as Uv by by apply uniq_vacate.
  assert (at_ (vacate t q) p = None) as Ev by (rewrite at_vacate by done; by case_decide).
  pose proof (to_map_vacate t q e L U Eq) as Hm.
  assert (to_map (vacate t q) !! e_key e1 = None) as HN
    by (rewrite Hm, Hk; apply lookup_delete_eq).
  split_and!.
  - by apply layout_put_entry.
  - unfold t', put_entry. by rewrite cap_put.
  - apply uniq_put; [done..|]. intros r e' E' Ek. exfalso. by eapply to_map_lookup_None.
  - unfold t'. rewrite to_map_put_empty, Hm, Hk, Hv by done.
    apply insert_delete_id. by eapply at_to_map.
  - intros r. unfold t'. by rewrite at_put_entry, Hcv, at_vacate by done.
Qed.

(** One iteration: the entry after the hole moves into it.  The slots without the
    hole hold the same bindings before and after. *)
Lemma shift_step t p e e0 : layout t -> ring H t -> uniq (vacate t p) -> at_ t p = Some e0 ->
  at_ t (p + 1) = Some e -> 0 < e_dib e ->
  let t' := put_entry t p (Entry (e_dib e - 1) (e_hash e) (e_key e) (e_val e)) in
  layout t' /\ cap t' = cap t /\ ring H t' /\ at_ t' (p + 1) = Some e /\
  uniq (vacate t' (p + 1)) /\ to_map (vacate t' (p + 1)) = to_map (vacate t p).
Proof.
  intros L R U E0 E Hd t'. pose proof (cap_bounds t L).
  destruct (at_Some t (p + 1) e L E) as (He & _).
  set (e1 := Entry (e_dib e - 1) (e_hash e) (e_key e) (e_val e)) in *.
  assert (0 <= e_dib e1 <= maxDib) as He1 by (cbn; lia).
  assert (layout t') as L' by by apply layout_put_entry.
  assert (cap t' = cap t) as Hc by apply cap_put.
  assert (cap (vacate t p) = cap t) as Hcs by apply cap_put.
  assert ((p + 1) mod cap t <> p mod cap t) as Hne by (apply mod_shift_neq; done || lia).
  destruct (move_entry (vacate t p) p (p + 1) e e1) as (Lm & Hcm & Um & Hm & Hat);
    [by apply layout_vacate|done|by rewrite at_vacate, decide_False|
     by rewrite at_vacate, decide_True|done..|].
  set (s := put_entry (vacate (vacate t p) (p + 1)) p e1) in *.
  assert (cap (vacate t' (p + 1)) = cap s) as Hcv
    by (rewrite Hcm, Hcs, <- Hc; apply cap_put).
  assert (forall r, at_ (vacate t' (p + 1)) r = at_ s r) as Hext.
  { intros r. rewrite Hat, at_vacate by done. rewrite Hc, Hcs. unfold t'.
    rewrite at_put_entry, at_vacate by done. repeat case_decide; done || congruence. }
  split_and!; [done..| | | |].
  - destruct (ring_chain _ _ R _ _ E) as (e2 & E2 & ?); [done|].
    replace (p + 1 - 1) with p in E2 by lia.
    apply ring_put; cbn; try done.
    + apply (ring_hash _ _ R _ _ E).
    + rewrite (ring_pos _ _ R _ _ E). f_equal. lia.
    + intros ?. destruct (ring_chain _ _ R p e2 E2) as (e3 & E3 & ?); [lia|].
      exists e3. split; [done|lia].
    + intros e' E'. simplify_eq. lia.
  - unfold t'. by rewrite at_put_entry, decide_False.
  - eapply uniq_ext; [by symmetry|intros r; by rewrite Hext|done].
  - rewrite <- Hm. apply to_map_ext; [by apply layout_vacate|done..].
Qed.

Lemma shift_loop_spec fuel : forall t p n e0,
  layout t -> ring H t -> uniq (vacate t p) -> at_ t p = Some e0 ->
  at_ t (p + 1 + n) = None -> 0 <= n -> n + 1 < cap t -> n < Z.of_nat fuel ->
  exists t' p', shift_loop fuel t (p mod cap t) ((p + 1) mod cap t) = Ret (t', p' mod cap t) /\
    layout t' /\ cap t' = cap t /\ ring H t' /\ uniq (vacate t' p') /\
    to_map (vacate t' p') = to_map (vacate t p) /\ count t' = count t /\
    forall e, at_ t' (p' + 1) = Some e -> e_dib e <= 0.
Proof.
  induction fuel as [|fuel IH]; intros t p n e0 L R U E0 En Hn Hnc Hf; [lia|].
  cbn [shift_loop]. destruct (at_ t (p + 1)) as [e|] eqn:E.
  2:{ rewrite read_empty by done. cbn [mbind outcome_bind]. rewrite Z.eqb_refl. cbn.
      exists t, p. split_and!; try done. congruence. }
  assert (0 < n).
  { destruct (decide (n = 0)) as [->|]; [|lia]. rewrite Z.add_0_r in En. congruence. }
  destruct (read_entry t (p + 1) e L E) as (He & Em & Ek & Ev & Eh).
  rewrite Em. cbn [mbind outcome_bind].
  destruct (Z.eqb_spec (packMeta (e_dib e) (fragOf (e_hash e))) 0) as [Hz|_].
  { by apply packMeta_nonzero in Hz; auto with go. }
  rewrite dibOf_packMeta, frag_packMeta by auto with go. cbn [negb andb].
  destruct (Z.ltb_spec 0 (e_dib e)).
  2:{ exists t, p. split_and!; try done. intros; simplify_eq. lia. }
  rewrite Ek, Ev, Eh. cbn [mbind outcome_bind].
  rewrite u16_id by (change maxDib with 254 in *; unfold in_u16; lia).
  rewrite write_slot_put, next_slot_eq by done. cbn [mbind outcome_bind].
  destruct (shift_step t p e e0) as (L' & Hc & R' & E' & U' & Hm); [done..|].
  set (t' := put_entry _ _ _) in *. change (put t _ _ _ _ _) with t'. rewrite <- Hc.
  destruct (IH t' (p + 1) (n - 1) e) as (t2 & p2 & Hs & L2 & Hc2 & R2 & U2 & Hm2 & Hcnt & Hend);
    try done; try lia.
  { unfold t'. replace (p + 1 + 1 + (n - 1)) with (p + (n + 1)) by lia.
    rewrite at_put_entry by (cbn; done || lia).
    rewrite decide_False by (apply mod_shift_neq; done || lia).
    rewrite <- En. f_equal. lia. }
  exists t2, p2. rewrite Hs. split_and!; try done; congruence.
Qed.

(** ** The table invariant with its load bound *)
Record tinv t : Prop := {
  tinv_wf : wf H t;
  tinv_load : count t <= growAt t;
}.

Lemma tinv_room t : tinv t -> Z.of_nat (size (to_map t)) < cap t.
Proof.
  intros [W Hl]. pose proof W as [L R U C]. rewrite <- C.
  rewrite (lay_grow t L) in Hl. pose proof (cap_bounds t L).
  pose proof (Z.div_lt_upper_bound (cap t * 3) 4 (cap t)). lia.
Qed.

(** A table with at most half its slots in use satisfies the load bound. *)
Lemma tinv_of_wf t : wf H t -> 2 * Z.of_nat (size (to_map t)) <= cap t -> tinv t.
Proof.
  intros W Hs. split; [done|]. destruct W as [L R U C].
  rewrite C, (lay_grow t L). apply Z.div_le_lower_bound; lia.
Qed.

(** ** Shrinking *)
Lemma shrink_spec t : wf H t -> count t <= growAt t ->
  exists t', shrink t = Ret t' /\ tinv t' /\ to_map t' = to_map t.
Proof.
  intros W Hl. pose proof W as [L R U C]. pose proof (cap_bounds t L) as Hb.
  unfold shrink. fold (cap t). destruct (Z.leb_spec (cap t) minCap).
  { exists t. split_and!; done. }
  rewrite i64_id by (unfold in_i64, shrinkNum; lia).
  unfold shrinkNum, shrinkDen. rewrite Z.quot_div_nonneg by lia.
  destruct (Z.leb_spec (cap t * 1 / 4) (count t)) as [|Hlt].
  { exists t. split_and!; done. }
  destruct (cap_level t L) as (n & Hn & Hc). unfold minCap in *.
  assert (3 < n) by (apply (Z.pow_lt_mono_r_iff 2); lia).
  assert (2 ^ n = 2 * 2 ^ (n - 1)) as Hpow.
  { replace n with (1 + (n - 1)) at 1 by lia. by rewrite Z.pow_add_r by lia. }
  rewrite Z.quot_div_nonneg, Hc, Hpow, (Z.mul_comm 2), Z.div_mul by lia.
  assert (2 * Z.of_nat (size (to_map t)) <= 2 ^ (n - 1)) as Hs.
  { pose proof (Z.mul_div_le (cap t * 1) 4). lia. }
  destruct (resize_returns H t (n - 1)) as [t' E]; [done|lia..|].
  destruct (resize_ok H set t t' (n - 1)) as (W' & Hc' & Hm');
    [apply set_is_ok|done|lia|lia|done|].
  exists t'. split_and!; [done| |done]. apply tinv_of_wf; [done|]. rewrite Hm'. lia.
Qed.

(** ** Deletion *)
Lemma table_delete_spec t k : tinv t ->
  exists t', table_delete t (H k) k = Ret (t', found t k) /\ tinv t' /\
    to_map t' = delete k (to_map t).
Proof.
  intros I. pose proof (tinv_room t I) as Hroom. destruct I as [W Hl].
  pose proof W as [L R U C]. pose proof (cap_bounds t L).
  destruct (probe_start t k W) as [Ca F]. unfold table_delete. rewrite home_eq by done.
  destruct (delete_find_spec probe_fuel t k 0 (H k)) as (r & -> & Hr); [done..|].
  cbn [mbind outcome_bind]. unfold found. destruct r as [i|]; cbn in Hr.
  2:{ rewrite Hr. exists t. split_and!; [done|done|]. by rewrite delete_id. }
  destruct Hr as (p & e & -> & E & <-).
  destruct (read_entry t p e L E) as (He & _ & _ & Ev & _).
  rewrite (at_to_map t p e L U E), Ev. cbn [mbind outcome_bind].
  destruct (empty_slot t L U Hroom) as [q Hq].
  destruct (ring_distance (cap t) (p + 1) q) as (n & Hn & En%(at_congr t)); [lia|].
  assert (n + 1 < cap t) as Hn1.
  { destruct (Z.eq_dec (n + 1) (cap t)) as [Hx|]; [|lia]. exfalso.
    assert (at_ t p = at_ t (p + 1 + n)); [|congruence]. apply at_congr.
    replace (p + 1 + n) with (p + 1 * cap t) by lia. by rewrite Z.mod_add by lia. }
  destruct (shift_loop_spec (S (length (meta t))) t p n e)
    as (t1 & p1 & Es & L1 & Hc1 & R1 & U1 & Hm1 & Hcnt1 & Hend); try done; try lia.
  { by apply uniq_vacate. }
  { congruence. }
  { unfold cap in Hn. lia. }
  rewrite next_slot_eq, Es by done. cbn [mbind outcome_bind].
  rewrite <- Hc1, write_slot_put by done. cbn [mbind outcome_bind].
  change (put t1 _ _ _ _ _) with (vacate t1 p1). change (count (vacate t1 p1)) with (count t1).
  assert (to_map (vacate t1 p1) = delete (e_key e) (to_map t)) as Hm2
    by (rewrite Hm1; by apply to_map_vacate).
  assert (size (delete (e_key e) (to_map t)) = pred (size (to_map t))) as Hsz
    by (apply map_size_delete_Some; eexists; by eapply at_to_map).
  assert (size (to_map t) <> 0)%nat as Hnz.
  { rewrite map_size_non_empty_iff. intros Hem. pose proof (at_to_map t p e L U E) as Hx.
    by rewrite Hem in Hx. }
  rewrite i64_id by (unfold in_i64; lia).
  destruct (shrink_spec (set_count (vacate t1 p1) (count t1 - 1))) as (t' & -> & I' & Hm').
  - apply wf_set_count; [by apply layout_vacate|by apply ring_vacate|done|].
    rewrite Hm2, Hsz. lia.
  - cbn. rewrite (lay_grow t1 L1), Hc1, <- (lay_grow t L). lia.
  - cbn [mbind outcome_bind]. exists t'. split_and!; [done..|]. by rewrite Hm'.
Qed.

End Delete_.
