(* ===== verification/TableSpec.v ===== *)
(** * What the table promises

    The per-shard table refines a finite map.  [TableLaws] is the interface the
    sharded map is proved against; its instance collects the theorems of
    [TableSet], [TableSpread] and [TableDelete]. *)
From S2P Require Import Prelude Table TableInv TableSet TableSpread TableDelete.

Section Spec.
Context {K V : Type} `{!EqDecision K} `{!Countable K} `{!GoType K} `{!GoType V}.
Implicit Types t : table K V.
Variable H : K -> Z.

(** ** Construction *)
Lemma newTable_loop_spec fuel hint n : 3 <= n <= maxLevel K V -> maxLevel K V - n < Z.of_nat fuel ->
  hint <= maxCap K V * 3 / 4 ->
  exists m, n <= m <= maxLevel K V /\ newTable_loop fuel (2 ^ n) hint = Ret (2 ^ m) /\
    hint <= 2 ^ m * 3 / 4.
Proof.
  pose proof (maxLevel_range K V). revert n.
  induction fuel as [|fuel IH]; intros n Hn Hf Hh; [lia|]. cbn [newTable_loop].
  assert (0 < 2 ^ n <= 2 ^ 48) by (split; [apply pow2_pos|apply Z.pow_le_mono_r]; lia).
  unfold loadNum, loadDen. rewrite i64_id, Z.quot_div_nonneg by (unfold in_i64; lia).
  destruct (Z.ltb_spec (2 ^ n * 3 / 4) hint) as [Hlt|Hge];
    [|exists n; split_and!; done || lia].
  assert (n < maxLevel K V).
  { destruct (Z.eq_dec n (maxLevel K V)) as [->|]; [|lia]. unfold maxCap in Hh. lia. }
  rewrite Z.shiftl_mul_pow2, i64_id, <- Z.pow_add_r by (unfold in_i64; lia).
  destruct (IH (n + 1)) as (m & Hm & E & ?); [lia..|]. exists m. split_and!; [lia..|done|done].
Qed.

Lemma newTable_spec hint : hint <= maxCap K V * 3 / 4 ->
  exists t, newTable (K:=K) (V:=V) hint = Ret t /\ tinv H t /\ to_map t = ∅ /\
    hint <= growAt t.
Proof.
  intros Hh. pose proof (maxLevel_range K V). unfold newTable. change minCap with (2 ^ 3).
  destruct (newTable_loop_spec 64 hint 3) as (m & Hm & -> & Hg); [lia..|].
  cbn [mbind outcome_bind]. destruct (alloc_ret (K:=K) (V:=V) m) as [t E]; [lia|].
  destruct (alloc_wf H m t) as (W & Hc & Hem & _); [lia|done|].
  exists t. split_and!; [done| |done|].
  - apply tinv_of_wf; [done|]. rewrite Hem, map_size_empty.
    pose proof (cap_pos t (wf_layout _ _ W)). lia.
  - by rewrite (lay_grow t (wf_layout _ _ W)), Hc.
Qed.

(** ** Insertion *)
Lemma grow_spec t : wf H t -> cap t < maxCap K V ->
  exists t', grow t = Ret t' /\ wf H t' /\ 2 * cap t <= cap t' /\ to_map t' = to_map t.
Proof.
  intros W Hc. pose proof (wf_layout _ _ W) as L. destruct (cap_level t L) as (n & Hn & Hcn).
  pose proof (maxLevel_range K V). unfold maxCap in Hc.
  assert (n < maxLevel K V) by (apply (Z.pow_lt_mono_r_iff 2); lia).
  pose proof (Z.pow_add_r 2 n 1). pose proof (size_le_cap H t W).
  unfold grow. rewrite (grow_eq _ _ n) by (done || lia).
  destruct (resize_returns H t (n + 1)) as [t' E]; [done|lia..|].
  destruct (resize_ok H set t t' (n + 1)) as (W' & Hc' & Hm');
    [apply set_is_ok|done|lia|lia|done|].
  exists t'. split_and!; [done|done|lia|done].
Qed.

(** The table [set] runs on has a free slot under the load bound. *)
Lemma insert_room t t1 : tinv H t ->
  (if growAt t <=? count t then grow t else Ret t) = Ret t1 ->
  wf H t1 /\ cap t <= cap t1 /\ to_map t1 = to_map t /\ Z.of_nat (size (to_map t1)) + 1 <= growAt t1.
Proof.
  intros I. pose proof (tinv_room H t I). destruct I as [W Hl]. pose proof W as [L R U C].
  destruct (Z.leb_spec (growAt t) (count t)); intros E.
  - destruct (cap_level t L) as (n & Hn & Hc). pose proof (Z.pow_add_r 2 n 1).
    unfold grow in E. rewrite (grow_eq _ _ n) in E by (done || lia).
    apply (resize_ok H) in E as (W1 & Hc1 & Hm1); [|apply set_is_ok|done|lia|lia].
    split_and!; [done|lia|done|]. rewrite Hm1, (lay_grow t1 (wf_layout _ _ W1)).
    pose proof (cap_bounds t L). apply Z.div_le_lower_bound; lia.
  - simplify_eq. split_and!; [done|lia|done|lia].
Qed.

Lemma table_insert_ok t k v t' : tinv H t -> table_insert t (H k) k v = Ret t' ->
  tinv H t' /\ cap t <= cap t' /\ to_map t' = <[k := v]> (to_map t).
Proof.
  intros I (t1 & (W1 & Hc1 & Hm1 & Hr1)%insert_room & E)%bind_ret; [|done].
  pose proof (wf_layout _ _ W1) as L1. pose proof (cap_bounds t1 L1).
  rewrite (lay_grow t1 L1) in Hr1. pose proof (Z.mul_div_le (cap t1 * 3) 4).
  apply (set_is_ok H) in E as (W' & Hc' & Hm'); [|done|lia]. rewrite Hm1 in Hm'.
  split_and!; [|lia|done]. split; [done|]. destruct W' as [L' R' U' C'].
  rewrite C', (lay_grow t' L'), Hm'. pose proof (size_insert_le (to_map t) k v).
  rewrite Hm1 in Hr1. transitivity (cap t1 * 3 / 4); [lia|]. apply Z.div_le_mono; lia.
Qed.

Lemma table_insert_returns t k v : tinv H t -> cap t < maxCap K V ->
  (exists t', table_insert t (H k) k v = Ret t') <-> spread H ({[k]} ∪ dom (to_map t)) (maxCap K V).
Proof.
  intros I Hc. unfold table_insert.
  assert (exists t1, (if growAt t <=? count t then grow t else Ret t) = Ret t1) as [t1 E1].
  { destruct (growAt t <=? count t); [|eauto].
    destruct (grow_spec t) as (t1 & ? & _); [apply I|done|eauto]. }
  rewrite E1. cbn [mbind outcome_bind]. apply insert_room in E1 as (W1 & _ & Hm1 & Hr1); [|done].
  rewrite <- Hm1. apply set_returns_iff; [done|].
  pose proof (wf_layout _ _ W1) as L1. pose proof (cap_bounds t1 L1).
  rewrite (lay_grow t1 L1) in Hr1. pose proof (Z.mul_div_le (cap t1 * 3) 4). lia.
Qed.

Lemma table_insert_panics t k v : tinv H t -> cap t < maxCap K V ->
  ~ spread H ({[k]} ∪ dom (to_map t)) (maxCap K V) -> table_insert t (H k) k v = Panic.
Proof.
  intros I Hc Hsp. unfold table_insert.
  destruct (if growAt t <=? count t then grow t else Ret t) as [t1| |] eqn:E1.
  - cbn [mbind outcome_bind]. apply insert_room in E1 as (W1 & _ & Hm1 & Hr1); [|done].
    rewrite <- Hm1 in Hsp. apply (set_panics H); [done| |done].
    pose proof (wf_layout _ _ W1) as L1. pose proof (cap_bounds t1 L1).
    rewrite (lay_grow t1 L1) in Hr1. pose proof (Z.mul_div_le (cap t1 * 3) 4). lia.
  - done.
  - exfalso. destruct (growAt t <=? count t); [|done].
    destruct (grow_spec t) as (t1 & ? & _); [apply I|done|congruence].
Qed.

Lemma count_size t : tinv H t -> count t = Z.of_nat (size (to_map t)).
Proof. intros [[]]. done. Qed.

End Spec.

(** ** The interface *)

(** What a shard relies on: for the hash function [H], the operations of the table
    act on [to_map] as lookup, insertion and deletion of a finite map, and they
    keep [tinv]. *)
Class TableLaws {K V : Type} `{!EqDecision K, !Countable K, !GoType K, !GoType V}
    (H : K -> Z) : Prop := {
  law_new : forall hint, hint <= maxCap K V * 3 / 4 ->
    exists t : table K V, newTable hint = Ret t /\ tinv H t /\ to_map t = ∅ /\ hint <= growAt t;
  law_lookup : forall (t : table K V) k, tinv H t -> table_lookup t (H k) k = Ret (found t k);
  law_insert : forall (t : table K V) k v t', tinv H t -> table_insert t (H k) k v = Ret t' ->
    tinv H t' /\ to_map t' = <[k := v]> (to_map t);
  law_insert_returns : forall (t : table K V) k v, tinv H t -> cap t < maxCap K V ->
    spread H ({[k]} ∪ dom (to_map t)) (maxCap K V) -> exists t', table_insert t (H k) k v = Ret t';
  law_delete : forall (t : table K V) k, tinv H t ->
    exists t', table_delete t (H k) k = Ret (t', found t k) /\ tinv H t' /\
      to_map t' = delete k (to_map t);
  law_count : forall (t : table K V), tinv H t -> count t = Z.of_nat (size (to_map t));
}.

#[export] Instance robin_hood_laws {K V : Type}
    `{!EqDecision K, !Countable K, !GoType K, !GoType V} (H : K -> Z) :
  TableLaws (K:=K) (V:=V) H.
Proof.
  split.
  - apply newTable_spec.
  - intros t k I. apply table_lookup_spec, I.
  - intros t k v t' I E. destruct (table_insert_ok H t k v t' I E) as (? & _ & ?). done.
  - intros t k v I Hc Hs. by apply (table_insert_returns H).
  - apply table_delete_spec.
  - apply count_size.
Qed.

(** ** A table built by a sequence of insertions *)
Section Build.
Context {K V : Type} `{!EqDecision K} `{!Countable K} `{!GoType K} `{!GoType V}.
Variable H : K -> Z.

Fixpoint insert_seq (t : table K V) (l : list (K * V)) : outcome (table K V) :=
  match l with
  | [] => Ret t
  | (k, v) :: l' => t' ← table_insert t (H k) k v; insert_seq t' l'
  end.

Definition build (l : list (K * V)) : outcome (table K V) :=
  t ← newTable 0; insert_seq t l.

Lemma insert_seq_ok l : forall t t', tinv H t -> insert_seq t l = Ret t' ->
  tinv H t' /\ to_map t' = foldl (fun m kv => <[kv.1 := kv.2]> m) (to_map t) l.
Proof.
  induction l as [|[k v] l IH]; cbn [insert_seq foldl]; intros t t' I.
  - by intros [= <-].
  - intros (t1 & (I1 & _ & Hm1)%table_insert_ok & E)%bind_ret; [|done].
    destruct (IH t1 t' I1 E) as [? Hm]. by rewrite Hm, Hm1.
Qed.

Lemma build_ok l t : build l = Ret t ->
  tinv H t /\ to_map t = foldl (fun m kv => <[kv.1 := kv.2]> m) ∅ l.
Proof.
  intros (t0 & E0 & E)%bind_ret.
  destruct (newTable_spec (V:=V) H 0) as (t1 & E1 & I & Hm & _).
  { pose proof (maxCap_range K V). by apply Z.div_pos; lia. }
  assert (t1 = t0) as -> by congruence.
  apply insert_seq_ok in E; [|done]. by rewrite Hm in E.
Qed.
End Build.

(** The returned table of a computation known to return. *)
Definition get_ret {A} (d : A) (o : outcome A) : A :=
  match o with Ret a => a | _ => d end.

Definition is_ret {A} (o : outcome A) : bool :=
  match o with Ret _ => true | _ => false end.

Lemma get_ret_eq {A} (d : A) (o : outcome A) : is_ret o = true -> o = Ret (get_ret d o).
Proof. by destruct o. Qed.

(** ** Properties *)
Section Props.
Context {K V : Type} `{!EqDecision K} `{!Countable K} `{!GoType K} `{!GoType V}.
Implicit Types t : table K V.
Variable H : K -> Z.

(** C6. Insertion.  On a table satisfying the Robin Hood invariant and the 3/4
    load bound, an [insert] that returns yields a table that satisfies both again
    and whose finite map is the old one with the key bound to the value: growth,
    Robin Hood swaps and overflow-driven resizes lose or duplicate no entry. *)
Theorem table_insert_correct t k v t' :
  tinv H t -> table_insert t (H k) k v = Ret t' ->
  tinv H t' /\ cap t <= cap t' /\ to_map t' = <[k := v]> (to_map t).
Proof. apply table_insert_ok. Qed.

(** C7. Deletion.  [delete] always returns (it neither panics nor loops); it
    reports the removed value and whether the key was present, keeps the
    invariant through the backward shift and a possible shrink, and removes
    exactly the binding of the key. *)
Theorem table_delete_correct t k :
  tinv H t ->
  exists t', table_delete t (H k) k =
      Ret (t', match to_map t !! k with Some v => (v, true) | None => (go_zero, false) end) /\
    tinv H t' /\ to_map t' = delete k (to_map t).
Proof. apply table_delete_spec. Qed.

(** C15. Lookup.  Within 256 probes, whatever the capacity, [lookup] returns the
    value bound to the key and [true], or the zero value and [false] when the key
    is absent; the early exit on a closer resident loses no key. *)
Theorem table_lookup_correct t k :
  tinv H t ->
  table_lookup t (H k) k =
    Ret (match to_map t !! k with Some v => (v, true) | None => (go_zero, false) end).
Proof. intros I. apply table_lookup_spec, I. Qed.

(** C16. Termination of insertion.  On a table below the largest capacity whose
    arrays [make] can allocate, [insert] returns, with the key stored and everything
    else kept, when the hashes of the stored keys and the new one are spread at that
    capacity: no window of [L] home slots is home to more than [L + 254] keys.  That
    is the case with at most 254 stored keys, whatever their hashes, and with any
    number of keys whose hashes differ modulo that capacity. *)
Theorem table_insert_terminates t k v :
  tinv H t -> cap t < maxCap K V ->
  spread H ({[k]} ∪ dom (to_map t)) (maxCap K V) \/ Z.of_nat (size (to_map t)) <= maxDib \/
  (forall a b, a ∈ {[k]} ∪ dom (to_map t) -> b ∈ {[k]} ∪ dom (to_map t) ->
     H a mod maxCap K V = H b mod maxCap K V -> a = b) ->
  exists t', table_insert t (H k) k v = Ret t' /\ tinv H t' /\ to_map t' = <[k := v]> (to_map t).
Proof.
  intros I Hc Hd. assert (spread H ({[k]} ∪ dom (to_map t)) (maxCap K V)) as Hsp.
  { destruct Hd as [?|[?|?]]; [done| |apply spread_inj; [pose proof (maxCap_range K V); lia|done]].
    apply spread_few. pose proof (size_union_alt {[k]} (dom (to_map t))) as E.
    rewrite size_singleton in E.
    assert (size (dom (to_map t) ∖ {[k]}) <= size (dom (to_map t)))%nat
      by apply subseteq_size, subseteq_difference_l, reflexivity.
    rewrite size_dom in *. lia. }
  apply (table_insert_returns H t k v I Hc) in Hsp as [t' E]. exists t'.
  by destruct (table_insert_ok H t k v t' I E) as (? & _ & ?).
Qed.

(** Equal hashes.  When 255 stored keys and a new one share the full hash, no
    growth can separate them: every [insert] of the new key panics in [make]
    (the doubling runs until the allocation limit) instead of being stored. *)
Theorem table_equal_hashes_panic t k v h :
  tinv H t -> cap t < maxCap K V -> maxDib + 1 <= Z.of_nat (size (to_map t)) ->
  to_map t !! k = None -> (forall k', k' ∈ {[k]} ∪ dom (to_map t) -> H k' = h) ->
  table_insert t (H k) k v = Panic.
Proof.
  intros I Hc Hs HN Hh. apply table_insert_panics; [done..|].
  apply (not_spread_same_hash H _ _ h); [pose proof (maxCap_range K V); lia| |done].
  rewrite size_union, size_singleton, size_dom; [lia|].
  apply disjoint_singleton_l. by apply not_elem_of_dom.
Qed.
End Props.

(** ** An executable check of the invariant *)
Section Check.
Context {K V : Type} `{!EqDecision K} `{!Countable K} `{!GoType K} `{!GoType V}.
Variable H : K -> Z.
Implicit Types t : table K V.

Definition meta_okb (mh : Z * Z) : bool :=
  let '(m, h) := mh in
  (m =? 0) || ((0 <=? dibOf m) && (dibOf m <=? maxDib) && (m =? packMeta (dibOf m) (fragOf h))).

Definition layoutb t : bool :=
  (cap t =? 2 ^ Z.log2 (cap t)) && (8 <=? cap t) && (Z.log2 (cap t) <=? maxLevel K V) &&
  (Z.of_nat (length (keys t)) =? cap t) && (Z.of_nat (length (vals t)) =? cap t) &&
  (Z.of_nat (length (hashes t)) =? cap t) && (capm1 t =? cap t - 1) &&
  (growAt t =? cap t * 3 / 4) && forallb meta_okb (zip (meta t) (hashes t)).

Definition slot_okb t (i : Z) : bool :=
  match slot t i with
  | None => true
  | Some e =>
      (e_hash e mod cap t =? (i - e_dib e) mod cap t) && (e_hash e =? H (e_key e)) &&
      ((e_dib e <=? 0) ||
       match at_ t (i - 1) with Some e' => e_dib e - 1 <=? e_dib e' | None => false end)
  end.

Definition tinvb t : bool :=
  layoutb t && forallb (slot_okb t) (seqZ 0 (cap t)) &&
  bool_decide (NoDup (e_key <$> entries t)) &&
  (count t =? Z.of_nat (length (entries t))) && (count t <=? growAt t).

Lemma layoutb_ok t : layoutb t = true -> layout t.
Proof.
  unfold layoutb. rewrite !andb_true_iff. intros ((((((((Hc & H8) & HM) & Hk) & Hv) & Hh) & Hm) & Hg) & Hf).
  rewrite forallb_forall in Hf. unfold cap in *. split; try (unfold cap; lia).
  - exists (Z.log2 (Z.of_nat (length (meta t)))). split; [|unfold cap; lia]. split.
    + apply (Z.log2_le_mono 8). lia.
    + lia.
  - intros i m h Ei Eh Hne. specialize (Hf (m, h)). cbn in Hf. rewrite orb_true_iff, !andb_true_iff in Hf.
    destruct Hf as [Hf|((? & ?) & ?)]; [|lia|exists (dibOf m); lia].
    apply list_elem_of_In, (list_elem_of_lookup_2 _ i). by apply lookup_zip_with_Some; exists m, h.
Qed.

Lemma tinvb_ok t : tinvb t = true -> tinv H t.
Proof.
  unfold tinvb. rewrite !andb_true_iff. intros ((((L%layoutb_ok & Hs) & Hn%bool_decide_eq_true) & Hc) & Hl).
  rewrite forallb_forall in Hs.
  assert (forall p e, at_ t p = Some e -> slot_okb t (p mod cap t) = true /\ slot t (p mod cap t) = Some e) as Hp.
  { intros p e Ep. pose proof (ring_index_range t p L). split; [|done].
    apply Hs, list_elem_of_In, elem_of_seqZ. lia. }
  assert (uniq t) as U.
  { intros p q e e' Ep Eq Ek. pose proof (ring_index_range t p L). pose proof (ring_index_range t q L).
    eapply (NoDup_omap_inj (slot t) e_key); [exact Hn| | |done..]; apply elem_of_seqZ; lia. }
  split; [|lia]. split; [done| |done|rewrite size_to_map by done; lia].
  assert (forall p d, (p mod cap t - d) mod cap t = (p - d) mod cap t) as Hmod
    by (intros; apply Zminus_mod_idemp_l).
  split; intros p e Ep; destruct (Hp p e Ep) as [Hok Esl]; unfold slot_okb in Hok; rewrite Esl in Hok;
    rewrite !andb_true_iff, orb_true_iff in Hok; destruct Hok as ((H1 & H2) & H3).
  - rewrite Hmod in H1. lia.
  - intros Hd. destruct H3 as [H3|H3]; [lia|].
    rewrite (at_congr t (p mod cap t - 1) (p - 1)) in H3 by apply Hmod.
    destruct (at_ t (p - 1)) as [e'|]; [|done]. exists e'. split; [done|lia].
  - lia.
Qed.
End Check.

(** ** Witnesses: small tables of integers, hashed by [7 * k] and by a constant *)
Definition hash7 (k : Z) : Z := k * 7.
Definition hash0 (k : Z) : Z := 0.

Definition empty_table : table Z Z := get_ret (Table [] [] [] [] 0 0 0) (newTable 0).

Definition demo_pairs (n : Z) : list (Z * Z) := (fun i => (i, i * 10)) <$> seqZ 0 n.
Definition demo7 : table Z Z := get_ret empty_table (build hash7 (demo_pairs 20)).

(** 255 keys of one hash in a table of 512 slots: key [i] sits [i] slots from home. *)
Definition demo0 : table Z Z :=
  Table (((fun i => packMeta i 0) <$> seqZ 0 255) ++ replicate 257 0) (seqZ 0 255 ++ replicate 257 0)
    (replicate 512 1) (replicate 512 0) 255 511 384.

Lemma demo7_build : build hash7 (demo_pairs 20) = Ret demo7.
Proof. vm_compute. reflexivity. Qed.

Lemma demo7_tinv : tinv hash7 demo7.
Proof. apply (build_ok hash7 _ _ demo7_build). Qed.

Lemma demo0_tinv : tinv hash0 demo0.
Proof. apply tinvb_ok. vm_compute. reflexivity. Qed.

Lemma table_insert_correct_witness :
  exists t', table_insert demo7 (hash7 20) 20 200 = Ret t' /\ to_map t' = <[20 := 200]> (to_map demo7).
Proof.
  eexists. split; [vm_compute; reflexivity|].
  apply (table_insert_correct hash7 demo7 20 200); [exact demo7_tinv|vm_compute; reflexivity].
Defined.

Lemma table_delete_correct_witness :
  exists t', table_delete demo7 (hash7 5) 5 = Ret (t', (50, true)) /\ tinv hash7 t'.
Proof.
  destruct (table_delete_correct hash7 demo7 5 demo7_tinv) as (t' & E & I & _).
  exists t'. split; [|exact I]. rewrite E. do 2 f_equal; vm_compute; reflexivity.
Defined.

Lemma table_lookup_correct_witness : table_lookup demo7 (hash7 13) 13 = Ret (130, true).
Proof.
  rewrite (table_lookup_correct hash7 demo7 13 demo7_tinv). vm_compute. reflexivity.
Defined.

Lemma table_insert_terminates_witness : exists t', table_insert demo7 (hash7 99) 99 1 = Ret t' /\ tinv hash7 t'.
Proof.
  destruct (table_insert_terminates hash7 demo7 99 1 demo7_tinv) as (t' & E & I & _).
  - vm_compute. reflexivity.
  - right. left. vm_compute. discriminate.
  - exists t'. split; [exact E|exact I].
Defined.

Lemma table_equal_hashes_panic_witness : table_insert demo0 (hash0 255) 255 0 = Panic.
Proof.
  apply (table_equal_hashes_panic hash0 demo0 255 0 0 demo0_tinv).
  - vm_compute. reflexivity.
  - vm_compute. discriminate.
  - vm_compute. reflexivity.
  - reflexivity.
Defined.
