(* ===== verification/ShardMap.v ===== *)
(** * The sharded map ([internal/shardmap/map.go], [options.go])

    [Map]: an array of Robin Hood tables, a key routed to its shard by the high
    bits of its seeded hash.  Every method below holds the lock of one shard at a
    time, for the whole table operation, so it acts as one step of the state; the
    mutexes themselves and the cache-line padding carry no data and are not part
    of the record.  The hash function is code outside the repository: it is an
    argument of [New]. *)
From S2P Require Import Prelude Table TableInv TableSpread TableDelete TableSpec.

(** ** Construction options *)
Record config (Seed : Type) : Type := Config {
  numShards : Z;
  cfg_seed : Seed;
  seedSet : bool;
  initialCap : Z;
}.
Arguments Config {Seed} _ _ _ _.
Arguments numShards {Seed} _.
Arguments cfg_seed {Seed} _.
Arguments seedSet {Seed} _.
Arguments initialCap {Seed} _.

Definition Option (Seed : Type) : Type := config Seed -> config Seed.

Definition WithShards {Seed} (n : Z) : Option Seed := fun c =>
  let n := if n <? 1 then 1 else n in
  Config n (cfg_seed c) (seedSet c) (initialCap c).

Definition WithSeed {Seed} (seed : Seed) : Option Seed := fun c =>
  Config (numShards c) seed true (initialCap c).

Definition WithInitialCapacity {Seed} (n : Z) : Option Seed := fun c =>
  if 0 <? n then Config (numShards c) (cfg_seed c) (seedSet c) n else c.

(** [for p < n { p <<= 1 }]; an int holds at most 63 doublings of 1. *)
Fixpoint nextPow2_loop (fuel : nat) (p n : Z) : outcome Z :=
  match fuel with
  | O => Diverge
  | S fuel' => if p <? n then nextPow2_loop fuel' (i64 (Z.shiftl p 1)) n else Ret p
  end.

Definition nextPow2 (n : Z) : outcome Z :=
  if n <=? 1 then Ret 1 else nextPow2_loop 64 1 n.

Fixpoint log2_loop (fuel : nat) (k n : Z) : outcome Z :=
  match fuel with
  | O => Diverge
  | S fuel' => if i64 (Z.shiftl 1 k) <? n then log2_loop fuel' (u64 (k + 1)) n else Ret k
  end.

Definition log2PowerOf2 (n : Z) : outcome Z := log2_loop 65 0 n.

(** ** The map *)
Record Map (Seed K V : Type) : Type := MkMap {
  shards : list (table K V);
  seed : Seed;
  hasher : Seed -> K -> Z;
  shardShift : Z;
}.
Arguments MkMap {Seed K V} _ _ _ _.
Arguments shards {Seed K V} _.
Arguments seed {Seed K V} _.
Arguments hasher {Seed K V} _ _ _.
Arguments shardShift {Seed K V} _.

Section Map.
Context {Seed K V : Type} `{!EqDecision K} `{!GoType K} `{!GoType V} `{!GoType Seed}.
Implicit Types m : Map Seed K V.

Definition defaultShardCount (gomaxprocs : Z) : outcome Z := nextPow2 (i64 (gomaxprocs * 4)).

(** Bytes of one [shard]: the mutex (24), the table (four slices and three words) and
    the padding up to a multiple of the cache line. *)
Definition shardSize : Z := 192.

(** [shards[i].t = newTable(perShardCap)] for every shard. *)
Fixpoint new_shards (n : nat) (perShardCap : Z) : outcome (list (table K V)) :=
  match n with
  | O => Ret []
  | S n' =>
      t ← newTable perShardCap;
      ts ← new_shards n' perShardCap;
      Ret (t :: ts)
  end.

(** [New]; [gomaxprocs] is [runtime.GOMAXPROCS(0)] and [fresh] what
    [maphash.MakeSeed] returns; a nil hasher is [None]. *)
Definition New (gomaxprocs : Z) (fresh : Seed) (hasher : option (Seed -> K -> Z))
    (opts : list (Option Seed)) : outcome (Map Seed K V) :=
  match hasher with
  | None => Panic
  | Some hasher =>
      let cfg := foldl (fun c opt => opt c) (Config 0 go_zero false 0) opts in
      n ← (if numShards cfg <? 1 then defaultShardCount gomaxprocs else Ret (numShards cfg));
      n ← nextPow2 n;
      let s := if seedSet cfg then cfg_seed cfg else fresh in
      let perShardCap :=
        if 0 <? initialCap cfg then Z.quot (i64 (i64 (initialCap cfg + n) - 1)) n else 0 in
      _ ← make_slice shardSize tt n;
      ts ← new_shards (Z.to_nat n) perShardCap;
      k ← log2PowerOf2 n;
      Ret (MkMap ts s hasher (u64 (64 - k)))
  end.

Definition shardIndex (h shift : Z) : Z := Z.shiftr h shift.

Definition hash_of m (key : K) : Z := hasher m (seed m) key.

Definition with_shards m (ts : list (table K V)) : Map Seed K V :=
  MkMap ts (seed m) (hasher m) (shardShift m).

Definition Get m (key : K) : outcome (V * bool) :=
  let h := hash_of m key in
  s ← aget (shards m) (shardIndex h (shardShift m));
  table_lookup s h key.

Definition Set_ m (key : K) (value : V) : outcome (Map Seed K V) :=
  let h := hash_of m key in
  let i := shardIndex h (shardShift m) in
  s ← aget (shards m) i;
  s' ← table_insert s h key value;
  ts ← aset (shards m) i s';
  Ret (with_shards m ts).

Definition Swap m (key : K) (value : V) : outcome (Map Seed K V * (V * bool)) :=
  let h := hash_of m key in
  let i := shardIndex h (shardShift m) in
  s ← aget (shards m) i;
  old ← table_lookup s h key;
  s' ← table_insert s h key value;
  ts ← aset (shards m) i s';
  Ret (with_shards m ts, old).

Definition Delete m (key : K) : outcome (Map Seed K V * (V * bool)) :=
  let h := hash_of m key in
  let i := shardIndex h (shardShift m) in
  s ← aget (shards m) i;
  r ← table_delete s h key;
  ts ← aset (shards m) i (fst r);
  Ret (with_shards m ts, snd r).

Definition Len m : Z := foldl (fun n t => i64 (n + count t)) 0 (shards m).

(** [Range]: the callback is a closure over some state [A]; it returns its new
    state and whether to go on. *)
Section Range.
Context {A : Type}.
Variable fn : A -> K -> V -> A * bool.

Fixpoint range_slots (t : table K V) (ix : list Z) (a : A) : outcome (A * bool) :=
  match ix with
  | [] => Ret (a, true)
  | i :: ix' =>
      mt ← aget (meta t) i;
      if mt =? 0 then range_slots t ix' a
      else
        k ← aget (keys t) i;
        v ← aget (vals t) i;
        let '(a', go) := fn a k v in
        if go : bool then range_slots t ix' a' else Ret (a', false)
  end.

Definition rangeShard (t : table K V) (a : A) : outcome (A * bool) :=
  range_slots t (seqZ 0 (capm1 t + 1)) a.

Fixpoint range_shards (ts : list (table K V)) (a : A) : outcome A :=
  match ts with
  | [] => Ret a
  | t :: ts' =>
      r ← rangeShard t a;
      if snd r : bool then range_shards ts' (fst r) else Ret (fst r)
  end.

Definition Range m (a : A) : outcome A := range_shards (shards m) a.
End Range.

End Map.

(** ** Specification *)
Section Spec.
Context {Seed K V : Type} `{!EqDecision K} `{!Countable K} `{!GoType K} `{!GoType V} `{!GoType Seed}.
Implicit Types m : Map Seed K V.

(** The finite map a sharded map stands for. *)
Definition map_of m : gmap K V := ⋃ (to_map <$> shards m).

(** Every shard is a table for the seeded hash and holds only keys routed to it;
    the shard count is the power of two that [shardShift] encodes. *)
Record minv m : Prop := {
  minv_shift : exists k, 0 <= k <= 40 /\ shardShift m = 64 - k /\
    Z.of_nat (length (shards m)) = 2 ^ k;
  minv_hash : forall key, in_u64 (hash_of m key);
  minv_shard : forall i t, shards m !! i = Some t -> tinv (hash_of m) t;
  minv_route : forall i t key, shards m !! i = Some t -> is_Some (to_map t !! key) ->
    shardIndex (hash_of m key) (shardShift m) = Z.of_nat i;
}.

(** *** Routing *)
Lemma route_range m key : minv m ->
  0 <= shardIndex (hash_of m key) (shardShift m) < Z.of_nat (length (shards m)).
Proof.
  intros [(k & Hk & Hs & Hl) Hh _ _]. destruct (Hh key) as [? Hlt]. unfold shardIndex.
  rewrite Hs, Hl, Z.shiftr_div_pow2 by lia.
  assert (0 < 2 ^ (64 - k)) by (apply pow2_pos; lia).
  split; [apply Z.div_pos; lia|]. apply Z.div_lt_upper_bound; [lia|].
  rewrite <- Z.pow_add_r by lia. by replace (64 - k + k) with 64 by lia.
Qed.

(** The shard a key is routed to. *)
Lemma route_shard m key : minv m -> exists i t,
  shardIndex (hash_of m key) (shardShift m) = Z.of_nat i /\ shards m !! i = Some t /\
  aget (shards m) (Z.of_nat i) = Ret t /\ tinv (hash_of m) t.
Proof.
  intros I. pose proof (route_range m key I) as Hr.
  destruct (aget_is_ret _ _ Hr) as (t & Hg & Hl).
  exists (Z.to_nat (shardIndex (hash_of m key) (shardShift m))), t.
  rewrite Z2Nat.id by lia. split_and!; [done..|]. by eapply minv_shard.
Qed.

(** Lookup in a union of maps of which only one can hold the key. *)
Lemma lookup_union_list_at (l : list (gmap K V)) key i :
  (forall j x, l !! j = Some x -> j <> i -> x !! key = None) ->
  (⋃ l) !! key = l !! i ≫= fun x => x !! key.
Proof.
  revert i. induction l as [|x l IH]; intros i Hne; cbn.
  { rewrite lookup_nil. apply lookup_empty. }
  destruct i as [|i].
  - cbn. rewrite lookup_union_l; [done|].
    rewrite (IH (length l)); [by rewrite lookup_ge_None_2|].
    intros j y Hj _. by apply (Hne (S j)).
  - cbn. rewrite lookup_union_r by by apply (Hne 0%nat). apply IH.
    intros j y Hj Hn. apply (Hne (S j)); [done|lia].
Qed.

Lemma map_of_at m key i t : minv m ->
  shardIndex (hash_of m key) (shardShift m) = Z.of_nat i -> shards m !! i = Some t ->
  map_of m !! key = to_map t !! key.
Proof.
  intros I Hi Ht. unfold map_of. rewrite (lookup_union_list_at _ _ i).
  - by rewrite list_lookup_fmap, Ht.
  - intros j x (t' & -> & Ht')%list_lookup_fmap_Some_1 Hne.
    apply eq_None_not_Some. intros Hs. apply Hne.
    pose proof (minv_route m I j t' key Ht' Hs). lia.
Qed.

Lemma shard_sub m key i t : minv m -> shards m !! i = Some t -> is_Some (to_map t !! key) ->
  map_of m !! key = to_map t !! key.
Proof. intros I Ht Hs. eapply map_of_at; [done| |done]. by eapply minv_route. Qed.

(** Replacing one shard by a table that differs from it at one key routed there. *)
Lemma replace_shard m key i t t' : minv m ->
  shardIndex (hash_of m key) (shardShift m) = Z.of_nat i -> shards m !! i = Some t ->
  tinv (hash_of m) t' -> (forall k', k' <> key -> to_map t' !! k' = to_map t !! k') ->
  let m' := with_shards m (<[i := t']> (shards m)) in
  minv m' /\ map_of m' !! key = to_map t' !! key /\
  (forall k', k' <> key -> map_of m' !! k' = map_of m !! k').
Proof.
  intros I Hi Ht It' Hk m'. pose proof (lookup_lt_Some _ _ _ Ht) as Hlt.
  assert (minv m') as I'.
  { split; cbn.
    - destruct (minv_shift m I) as (k & ? & ? & ?). exists k. by rewrite length_insert.
    - apply (minv_hash m I).
    - intros j x [(-> & -> & _)|(_ & Hx)]%list_lookup_insert_Some;
        [exact It'|exact (minv_shard m I j x Hx)].
    - intros j x k' [(-> & -> & _)|(_ & Hx)]%list_lookup_insert_Some Hs;
        [|by apply (minv_route m I j x k')].
      destruct (decide (k' = key)) as [->|]; [done|].
      rewrite Hk in Hs by done. by apply (minv_route m I j t k'). }
  assert (shards m' !! i = Some t') as Ht' by (apply list_lookup_insert_eq; lia).
  split_and!; [done|by apply (map_of_at m' key i)|]. intros k' Hne.
  destruct (route_shard m k' I) as (j & x & Hj & Hx & _ & _).
  rewrite (map_of_at m k' j x) by done. destruct (decide (i = j)) as [->|].
  - rewrite (map_of_at m' k' j t') by done. rewrite Hk by done. congruence.
  - apply (map_of_at m' k' j x); [done|done|]. cbn. by rewrite list_lookup_insert_ne.
Qed.

(** What an operation reports of a key. *)
Definition mfound m key : V * bool :=
  match map_of m !! key with Some v => (v, true) | None => (go_zero, false) end.

(** ** The operations, against the interface of the table *)
Context `{HT : forall H : K -> Z, TableLaws (K:=K) (V:=V) H}.

Lemma shard_found m key i t : minv m ->
  shardIndex (hash_of m key) (shardShift m) = Z.of_nat i -> shards m !! i = Some t ->
  found t key = mfound m key.
Proof. intros. unfold found, mfound. by erewrite map_of_at. Qed.

Lemma Get_ok m key : minv m -> Get m key = Ret (mfound m key).
Proof.
  intros I. destruct (route_shard m key I) as (i & t & Hi & Ht & Hg & It).
  unfold Get. rewrite Hi, Hg. cbn [mbind outcome_bind]. rewrite (law_lookup (H:=hash_of m)) by done. by erewrite shard_found.
Qed.

Lemma Set_ok m key v m' : minv m -> Set_ m key v = Ret m' ->
  minv m' /\ hash_of m' = hash_of m /\ map_of m' = <[key := v]> (map_of m).
Proof.
  intros I. destruct (route_shard m key I) as (i & t & Hi & Ht & Hg & It).
  unfold Set_. rewrite Hi, Hg. cbn [mbind outcome_bind].
  intros (t' & E & (ts & (_ & ->)%aset_inv & [= <-])%bind_ret)%bind_ret.
  apply law_insert in E as [It' Hm]; [|done]. rewrite Nat2Z.id.
  destruct (replace_shard m key i t t') as (I' & Hk & Ho); try done.
  { intros k' Hne. by rewrite Hm, lookup_insert_ne. }
  split_and!; [done|done|]. apply map_eq. intros k'. destruct (decide (k' = key)) as [->|].
  - by rewrite Hk, Hm, !lookup_insert_eq.
  - by rewrite Ho, lookup_insert_ne.
Qed.

Lemma Swap_Set m key v : minv m ->
  Swap m key v = (m' ← Set_ m key v; Ret (m', mfound m key)).
Proof.
  intros I. destruct (route_shard m key I) as (i & t & Hi & Ht & Hg & It).
  unfold Swap, Set_. rewrite Hi, Hg. cbn [mbind outcome_bind]. rewrite (law_lookup (H:=hash_of m)) by done. cbn.
  rewrite (shard_found m key i t) by done.
  destruct (table_insert t (hash_of m key) key v); cbn; [|done..].
  by destruct (aset (shards m) (Z.of_nat i) a).
Qed.

Lemma Set_returns m key v : minv m -> (forall t, t ∈ shards m -> cap t < maxCap K V) ->
  spread (hash_of m) ({[key]} ∪ dom (map_of m)) (maxCap K V) -> exists m', Set_ m key v = Ret m'.
Proof.
  intros I Hc Hs. destruct (route_shard m key I) as (i & t & Hi & Ht & Hg & It).
  destruct (law_insert_returns (H:=hash_of m) t key v) as [t' E]; [done| | |].
  - by eapply Hc, list_elem_of_lookup_2.
  - eapply spread_subset; [|done]. apply union_mono_l. intros k' Hk'%elem_of_dom.
    apply elem_of_dom. by erewrite shard_sub.
  - unfold Set_. rewrite Hi, Hg. cbn [mbind outcome_bind]. rewrite E. cbn.
    rewrite aset_ret by (apply lookup_lt_Some in Ht; lia). cbn [mbind outcome_bind]. eauto.
Qed.

Lemma Delete_ok m key : minv m ->
  exists m', Delete m key = Ret (m', mfound m key) /\ minv m' /\ hash_of m' = hash_of m /\
    map_of m' = delete key (map_of m).
Proof.
  intros I. destruct (route_shard m key I) as (i & t & Hi & Ht & Hg & It).
  destruct (law_delete (H:=hash_of m) t key It) as (t' & E & It' & Hm).
  unfold Delete. rewrite Hi, Hg. cbn [mbind outcome_bind]. rewrite E. cbn [mbind outcome_bind fst snd].
  rewrite aset_ret, Nat2Z.id by (apply lookup_lt_Some in Ht; lia). cbn [mbind outcome_bind].
  destruct (replace_shard m key i t t') as (I' & Hk & Ho); try done.
  { intros k' Hne. by rewrite Hm, lookup_delete_ne. }
  eexists. split_and!; [by erewrite shard_found|done|done|].
  apply map_eq. intros k'. destruct (decide (k' = key)) as [->|].
  - by rewrite Hk, Hm, !lookup_delete_eq.
  - by rewrite Ho, lookup_delete_ne.
Qed.

End Spec.
