(* ===== verification/ShardMapSpec.v ===== *)
(** * What the sharded map promises

    [New], [Len] and [Range] against the finite map [map_of]; the properties of
    the sharded map.  Proved against [TableLaws], never against the code of the
    table, except for the slot walk of [rangeShard], which reads the slots. *)
From S2P Require Import Prelude Table TableInv TableSpread TableDelete TableSpec ShardMap.

(** ** Lists gathered over the shards *)
Lemma NoDup_gather {A B} (f : A -> list B) (l : list A) :
  (forall x, x ∈ l -> NoDup (f x)) ->
  (forall i j x y z, l !! i = Some x -> l !! j = Some y -> z ∈ f x -> z ∈ f y -> i = j) ->
  NoDup (l ≫= f).
Proof.
  induction l as [|x l IH]; cbn; intros Hf Hd; [constructor|].
  apply NoDup_app. split_and!.
  - apply Hf. set_solver.
  - intros z Hz (y & Hy & [j Hj]%list_elem_of_lookup_1)%list_elem_of_bind.
    assert (0 = S j)%nat by by eapply Hd. done.
  - apply IH; [set_solver|]. intros i j y y' z Hi Hj Hy Hy'.
    assert (S i = S j) by by eapply Hd. lia.
Qed.

Section Walk.
Context {Seed K V : Type} `{!EqDecision K} `{!Countable K} `{!GoType K} `{!GoType V} `{!GoType Seed}.
Implicit Types m : Map Seed K V.
Implicit Types t : table K V.

(** The stored pairs of a table in slot order, and of a map in shard order. *)
Definition pairs t : list (K * V) := (fun e => (e_key e, e_val e)) <$> entries t.
Definition all_pairs m : list (K * V) := shards m ≫= pairs.

Lemma elem_of_pairs H t k v : wf H t -> (k, v) ∈ pairs t <-> to_map t !! k = Some v.
Proof.
  intros [L _ U _]. unfold pairs, to_map. apply elem_of_list_to_map.
  rewrite <- list_fmap_compose. by apply entries_NoDup.
Qed.

Lemma elem_of_all_pairs m k v : minv m -> (k, v) ∈ all_pairs m <-> map_of m !! k = Some v.
Proof.
  intros I. unfold all_pairs. rewrite list_elem_of_bind. split.
  - intros (t & Hp & [i Hi]%list_elem_of_lookup_1).
    apply (elem_of_pairs (hash_of m)) in Hp; [|by eapply minv_shard].
    by rewrite (shard_sub m k i t).
  - intros Hk. destruct (route_shard m k I) as (i & t & Hi & Ht & _ & It).
    exists t. split; [|by eapply list_elem_of_lookup_2].
    apply (elem_of_pairs (hash_of m)); [apply It|]. by rewrite <- (map_of_at m k i t).
Qed.

Lemma all_pairs_perm m : minv m -> all_pairs m ≡ₚ map_to_list (map_of m).
Proof.
  intros I. apply NoDup_Permutation; [|apply NoDup_map_to_list|].
  - apply NoDup_gather.
    + intros t [i Hi]%list_elem_of_lookup_1. destruct (minv_shard m I i t Hi) as [[L _ U _] _].
      apply (NoDup_fmap_1 fst). unfold pairs. rewrite <- list_fmap_compose. by apply entries_NoDup.
    + intros i j t t' [k v] Hi Hj Hp Hp'.
      apply (elem_of_pairs (hash_of m)) in Hp; [|by eapply minv_shard].
      apply (elem_of_pairs (hash_of m)) in Hp'; [|by eapply minv_shard].
      pose proof (minv_route m I i t k Hi (mk_is_Some _ _ Hp)).
      pose proof (minv_route m I j t' k Hj (mk_is_Some _ _ Hp')). lia.
  - intros [k v]. rewrite elem_of_map_to_list. by apply elem_of_all_pairs.
Qed.

(** ** Length *)
Lemma Len_fold l n : foldl (fun n (t : table K V) => i64 (n + count t)) (i64 n) l =
  i64 (n + foldr (fun t s => count t + s) 0 l).
Proof.
  revert n. induction l as [|t l IH]; intros n; cbn; [by rewrite Z.add_0_r|].
  rewrite i64_add_l, IH. f_equal. lia.
Qed.

Lemma Len_ok m : minv m -> Len m = i64 (Z.of_nat (size (map_of m))).
Proof.
  intros I. unfold Len. change 0 with (i64 0) at 1. rewrite Len_fold. f_equal.
  rewrite <- length_map_to_list, <- (Permutation_length (all_pairs_perm m I)).
  unfold all_pairs. assert (forall t, t ∈ shards m -> count t = Z.of_nat (length (pairs t))) as Hc.
  { intros t [i Hi]%list_elem_of_lookup_1. destruct (minv_shard m I i t Hi) as [[L _ U ->] _].
    unfold pairs. by rewrite length_fmap, size_to_map. }
  induction (shards m) as [|t l IH]; cbn; [done|].
  rewrite length_app, Hc by set_solver. cbn in IH. specialize (IH ltac:(set_solver)). lia.
Qed.

(** ** Range *)
Fixpoint walk {A} (fn : A -> K -> V -> A * bool) (l : list (K * V)) (a : A) : A * bool :=
  match l with
  | [] => (a, true)
  | (k, v) :: l' => let '(a', go) := fn a k v in if go then walk fn l' a' else (a', false)
  end.

Lemma walk_app {A} (fn : A -> K -> V -> A * bool) l l' a :
  walk fn (l ++ l') a =
    let '(a', go) := walk fn l a in if go then walk fn l' a' else (a', false).
Proof.
  revert a. induction l as [|[k v] l IH]; intros a; cbn; [done|].
  destruct (fn a k v) as [a' []]; [apply IH|done].
Qed.

Lemma range_slots_ok {A} (fn : A -> K -> V -> A * bool) t ix a : layout t ->
  (forall i, i ∈ ix -> 0 <= i < cap t) ->
  range_slots fn t ix a = Ret (walk fn ((fun e => (e_key e, e_val e)) <$> omap (slot t) ix) a).
Proof.
  intros L. revert a. induction ix as [|i ix IH]; intros a Hix; cbn [range_slots omap list_omap]; [done|].
  assert (0 <= i < cap t) as Hi by set_solver.
  rewrite <- (Z.mod_small i (cap t)) at 1 by done.
  destruct (slot t i) as [e|] eqn:E; rewrite <- at_slot in E by done.
  - destruct (read_entry t i e L E) as (Hd & -> & Hk & Hv & _).
    rewrite Z.mod_small in Hk, Hv by done. cbn [mbind outcome_bind].
    destruct (Z.eqb_spec (packMeta (e_dib e) (fragOf (e_hash e))) 0) as [Hz|_].
    { exfalso. revert Hz. apply packMeta_nonzero; auto with go. }
    rewrite Hk, Hv. cbn. destruct (fn a (e_key e) (e_val e)) as [a' []]; [|done].
    apply IH. set_solver.
  - rewrite read_empty by done. cbn. apply IH. set_solver.
Qed.

Lemma rangeShard_ok {A} (fn : A -> K -> V -> A * bool) t a : layout t ->
  rangeShard fn t a = Ret (walk fn (pairs t) a).
Proof.
  intros L. unfold rangeShard. rewrite (lay_mask t L), Z.sub_add.
  apply range_slots_ok; [done|]. intros i Hi%elem_of_seqZ. lia.
Qed.

Lemma Range_ok {A} (fn : A -> K -> V -> A * bool) m a : minv m ->
  Range fn m a = Ret (fst (walk fn (all_pairs m) a)).
Proof.
  intros I. unfold Range, all_pairs.
  assert (forall t, t ∈ shards m -> layout t) as HL.
  { intros t [i Hi]%list_elem_of_lookup_1. apply (minv_shard m I i t Hi). }
  revert a. induction (shards m) as [|t l IH]; intros a; cbn; [done|].
  rewrite rangeShard_ok by set_solver. cbn. rewrite walk_app.
  destruct (walk fn (pairs t) a) as [a' []]; cbn; [|done]. apply IH. set_solver.
Qed.

End Walk.

(** ** Construction *)
Lemma shl1 k : 0 <= k <= 62 -> i64 (Z.shiftl 1 k) = 2 ^ k.
Proof.
  intros. rewrite Z.shiftl_1_l, i64_id; [done|]. unfold in_i64.
  pose proof (Z.pow_le_mono_r 2 k 62). pose proof (pow2_pos k). lia.
Qed.

Lemma nextPow2_loop_spec fuel k n : 0 <= k <= 62 -> n <= 2 ^ 62 -> 62 - k < Z.of_nat fuel ->
  (0 < k -> 2 ^ (k - 1) < n) ->
  exists j, k <= j <= 62 /\ nextPow2_loop fuel (2 ^ k) n = Ret (2 ^ j) /\ n <= 2 ^ j /\
    (0 < j -> 2 ^ (j - 1) < n).
Proof.
  revert k. induction fuel as [|fuel IH]; intros k Hk Hn Hf Hl; [lia|]. cbn [nextPow2_loop].
  destruct (Z.ltb_spec (2 ^ k) n) as [Hlt|Hge]; [|by exists k; split_and!; [lia..|done|lia|]].
  assert (k < 62). { destruct (Z.eq_dec k 62) as [->|]; lia. }
  assert (i64 (Z.shiftl (2 ^ k) 1) = 2 ^ (k + 1)) as ->.
  { rewrite <- (shl1 (k + 1)), <- Z.shiftl_1_l, Z.shiftl_shiftl by lia. done. }
  destruct (IH (k + 1)) as (j & Hj & E & H1 & H2); [lia..| |].
  - intros _. by replace (k + 1 - 1) with k by lia.
  - exists j. split_and!; [lia..|done|done|done].
Qed.

(** [nextPow2] is the least power of two at or above its argument. *)
Lemma nextPow2_spec n : n <= 2 ^ 62 ->
  exists k, 0 <= k <= 62 /\ nextPow2 n = Ret (2 ^ k) /\ n <= 2 ^ k /\ (0 < k -> 2 ^ (k - 1) < n).
Proof.
  intros Hn. unfold nextPow2. destruct (Z.leb_spec n 1).
  - exists 0. split_and!; [lia..|done|lia|lia].
  - apply (nextPow2_loop_spec 64 0); lia.
Qed.

Lemma log2_loop_spec fuel j k : 0 <= j <= k -> k <= 62 -> k - j < Z.of_nat fuel ->
  log2_loop fuel j (2 ^ k) = Ret k.
Proof.
  revert j. induction fuel as [|fuel IH]; intros j Hj Hk Hf; [lia|]. cbn [log2_loop].
  rewrite shl1 by lia. destruct (Z.ltb_spec (2 ^ j) (2 ^ k)) as [Hlt|Hge].
  - apply Z.pow_lt_mono_r_iff in Hlt; [|lia..]. rewrite u64_id by (unfold in_u64; lia).
    apply IH; lia.
  - apply Z.pow_le_mono_r_iff in Hge; [|lia..]. f_equal. lia.
Qed.

Section New.
Context {Seed K V : Type} `{!EqDecision K} `{!Countable K} `{!GoType K} `{!GoType V} `{!GoType Seed}.
Context `{HT : forall H : K -> Z, TableLaws (K:=K) (V:=V) H}.

Lemma new_shards_ok (H : K -> Z) n c : c <= maxCap K V * 3 / 4 ->
  exists ts : list (table K V), new_shards n c = Ret ts /\ length ts = n /\
    Forall (fun t => tinv H t /\ to_map t = ∅ /\ c <= growAt t) ts.
Proof.
  intros Hc. induction n as [|n IH]; [by exists []|].
  destruct (law_new (V:=V) (H:=H) c Hc) as (t & Et & It). destruct IH as (ts & Ets & Hl & Hts).
  exists (t :: ts). cbn [new_shards]. rewrite Et. cbn [mbind outcome_bind]. rewrite Ets. cbn. auto.
Qed.

(** A map whose shards are all empty. *)
Lemma minv_fresh (ts : list (table K V)) s h k : 0 <= k <= 40 -> (forall key, in_u64 (h s key)) ->
  Z.of_nat (length ts) = 2 ^ k -> Forall (fun t => tinv (h s) t /\ to_map t = ∅) ts ->
  let m : Map Seed K V := MkMap ts s h (64 - k) in minv m /\ map_of m = ∅.
Proof.
  intros Hk Hh Hl Hts m. rewrite Forall_lookup in Hts. split.
  - split; cbn; [by exists k|done| |].
    + intros i t Ht. apply (Hts i t Ht).
    + intros i t key Ht. destruct (Hts i t Ht) as [_ ->]. rewrite lookup_empty. by intros [].
  - apply map_eq. intros key. rewrite lookup_empty. unfold map_of.
    rewrite (lookup_union_list_at _ _ (length ts)).
    + by rewrite lookup_ge_None_2 by by rewrite length_fmap.
    + intros j x (t & -> & Ht)%list_lookup_fmap_Some_1 _. by destruct (Hts j t Ht) as [_ ->].
Qed.

(** The settings the options of [New] add up to. *)
Definition cfg_of (opts : list (Option Seed)) : config Seed :=
  foldl (fun c opt => opt c) (Config 0 go_zero false 0) opts.

(** The number of shards asked for, before rounding. *)
Definition want_shards (gomaxprocs : Z) (opts : list (Option Seed)) : Z :=
  if numShards (cfg_of opts) <? 1 then gomaxprocs * 4 else numShards (cfg_of opts).

Lemma shard_count_ok gomaxprocs opts : 1 <= gomaxprocs -> want_shards gomaxprocs opts <= 2 ^ 40 ->
  exists k, 0 <= k <= 40 /\ want_shards gomaxprocs opts <= 2 ^ k /\
    (0 < k -> 2 ^ (k - 1) < want_shards gomaxprocs opts) /\
    (n ← (if numShards (cfg_of opts) <? 1 then defaultShardCount gomaxprocs
          else Ret (numShards (cfg_of opts)));
     nextPow2 n) = Ret (2 ^ k).
Proof.
  intros Hg Hw. destruct (nextPow2_spec (want_shards gomaxprocs opts)) as (k & Hk & E & Hle & Hmin); [lia|].
  assert (k <= 40).
  { destruct (Z.le_gt_cases k 40); [done|].
    pose proof (Z.pow_le_mono_r 2 40 (k - 1)). lia. }
  exists k. split_and!; [lia..|done|done|]. unfold want_shards in *.
  destruct (numShards (cfg_of opts) <? 1); [|done]. unfold defaultShardCount.
  rewrite i64_id, E by (unfold in_i64; lia). cbn.
  destruct (nextPow2_spec (2 ^ k)) as (j & Hj & -> & Hle' & Hmin').
  { apply Z.pow_le_mono_r; lia. }
  do 2 f_equal. apply Z.pow_le_mono_r_iff in Hle'; [|lia..].
  destruct (Z.eq_dec j 0); [lia|]. specialize (Hmin' ltac:(lia)).
  apply Z.pow_lt_mono_r_iff in Hmin'; lia.
Qed.

Lemma New_ok gomaxprocs fresh h opts :
  1 <= gomaxprocs -> want_shards gomaxprocs opts <= 2 ^ 40 ->
  0 <= initialCap (cfg_of opts) <= maxCap K V * 3 / 4 ->
  let s := if seedSet (cfg_of opts) then cfg_seed (cfg_of opts) else fresh in
  (forall key, in_u64 (h s key)) ->
  exists m : Map Seed K V, New gomaxprocs fresh (Some h) opts = Ret m /\ minv m /\ map_of m = ∅ /\
    hash_of m = h s /\
    exists k, 0 <= k <= 40 /\ length (shards m) = Z.to_nat (2 ^ k) /\
      want_shards gomaxprocs opts <= 2 ^ k /\ (0 < k -> 2 ^ (k - 1) < want_shards gomaxprocs opts) /\
      Forall (fun t => initialCap (cfg_of opts) <= growAt t * 2 ^ k) (shards m).
Proof.
  intros Hg Hw Hic s Hh. destruct (shard_count_ok gomaxprocs opts) as (k & Hk & Hle & Hmin & E); [done..|].
  apply bind_ret in E as (n0 & E0 & E1). unfold New. fold (cfg_of opts). rewrite E0.
  cbn [mbind outcome_bind]. rewrite E1. cbn [mbind outcome_bind]. fold s.
  assert (1 <= 2 ^ k <= 2 ^ 40).
  { pose proof (pow2_pos k). split; [lia|]. apply Z.pow_le_mono_r; lia. }
  set (ic := initialCap (cfg_of opts)) in *.
  set (c := if 0 <? ic then Z.quot (i64 (i64 (ic + 2 ^ k) - 1)) (2 ^ k) else 0).
  pose proof (maxCap_range K V). pose proof (Z.div_mod (maxCap K V * 3) 4).
  pose proof (Z.mod_pos_bound (maxCap K V * 3) 4).
  assert (c <= maxCap K V * 3 / 4 /\ ic <= c * 2 ^ k) as [Hc Hic'].
  { unfold c. destruct (Z.ltb_spec 0 ic); [|lia].
    rewrite (i64_id (ic + 2 ^ k)), i64_id, Z.quot_div_nonneg by (unfold in_i64; lia).
    pose proof (Z.div_mod (ic + 2 ^ k - 1) (2 ^ k)).
    pose proof (Z.mod_pos_bound (ic + 2 ^ k - 1) (2 ^ k)).
    split; [|lia]. apply Z.lt_succ_r, Z.div_lt_upper_bound; nia. }
  rewrite make_slice_ret by (unfold maxAlloc, shardSize; lia). cbn [mbind outcome_bind].
  destruct (new_shards_ok (h s) (Z.to_nat (2 ^ k)) c Hc) as (ts & -> & Hl & Hts). cbn [mbind outcome_bind].
  unfold log2PowerOf2. rewrite log2_loop_spec by lia. cbn [mbind outcome_bind].
  rewrite u64_id by (unfold in_u64; lia). eexists. split; [done|].
  destruct (minv_fresh ts s h k) as [I Hm]; [done|done|lia| |].
  { eapply Forall_impl; [exact Hts|]. cbn. tauto. }
  split_and!; [done|done|done|]. exists k. split_and!; [lia|lia|done|done|done|].
  eapply Forall_impl; [exact Hts|]. cbn. intros t (_ & _ & Ht). nia.
Qed.
End New.

(** ** Properties *)
Section Props.
Context {Seed K V : Type} `{!EqDecision K} `{!Countable K} `{!GoType K} `{!GoType V} `{!GoType Seed}.
Implicit Types m : Map Seed K V.

(** Construction.  [New] with a hasher returns an empty map that satisfies the
    invariant; the number of shards is the least power of two at or above the
    requested count, the seed is the one of [WithSeed] or the fresh one, and every
    shard holds its share of the capacity hint before it grows. *)
Theorem New_correct gomaxprocs fresh h opts :
  1 <= gomaxprocs -> want_shards gomaxprocs opts <= 2 ^ 40 ->
  0 <= initialCap (cfg_of opts) <= maxCap K V * 3 / 4 ->
  let s := if seedSet (cfg_of opts) then cfg_seed (cfg_of opts) else fresh in
  (forall key, in_u64 (h s key)) ->
  exists m, New gomaxprocs fresh (Some h) opts = Ret m /\ minv m /\ map_of m = ∅ /\
    hash_of m = h s /\
    exists k, 0 <= k <= 40 /\ length (shards m) = Z.to_nat (2 ^ k) /\
      want_shards gomaxprocs opts <= 2 ^ k /\ (0 < k -> 2 ^ (k - 1) < want_shards gomaxprocs opts) /\
      Forall (fun t => initialCap (cfg_of opts) <= growAt t * 2 ^ k) (shards m).
Proof. apply New_ok. Qed.

(** C14. [Swap] and [Set].  Both store the binding and nothing else, for every
    routing of keys to shards, and keep the invariant; [Swap] reports the value it
    replaced.  They return whenever every shard is below the largest capacity [make]
    can allocate and the stored hashes are spread there (at most 255 keys, or hashes
    distinct modulo that capacity, suffice). *)
Theorem Swap_correct m key v :
  minv m -> (forall t, t ∈ shards m -> cap t < maxCap K V) ->
  spread (hash_of m) ({[key]} ∪ dom (map_of m)) (maxCap K V) ->
  exists m', Swap m key v =
      Ret (m', match map_of m !! key with Some x => (x, true) | None => (go_zero, false) end) /\
    Set_ m key v = Ret m' /\ minv m' /\ hash_of m' = hash_of m /\
    map_of m' = <[key := v]> (map_of m).
Proof.
  intros I Hc Hs. destruct (Set_returns m key v I Hc Hs) as [m' E].
  exists m'. rewrite Swap_Set, E by done. apply Set_ok in E as (? & ? & ?); done.
Qed.

(** C32. [Get] and [Delete] always return, agree on what they report of the key, and
    [Delete] removes exactly that binding and keeps the invariant. *)
Theorem Get_Delete_correct m key :
  minv m ->
  let r := match map_of m !! key with Some x => (x, true) | None => (go_zero, false) end in
  Get m key = Ret r /\
  exists m', Delete m key = Ret (m', r) /\ minv m' /\ hash_of m' = hash_of m /\
    map_of m' = delete key (map_of m).
Proof. intros I r. split; [by apply Get_ok|by apply Delete_ok]. Qed.

(** C33. [Range] and [Len].  On a map no other goroutine touches, [Range] calls the
    callback on each stored pair exactly once, in an order that does not depend on
    the callback, and stops after the first call that returns false; [Len] is the
    number of pairs (as a 64-bit integer). *)
Theorem Range_Len_correct m :
  minv m ->
  Len m = i64 (Z.of_nat (size (map_of m))) /\
  exists l, l ≡ₚ map_to_list (map_of m) /\
    forall A (fn : A -> K -> V -> A * bool) a, Range fn m a = Ret (fst (walk fn l a)).
Proof.
  intros I. split; [by apply Len_ok|]. exists (all_pairs m).
  split; [by apply all_pairs_perm|]. intros. by apply Range_ok.
Qed.
End Props.

(** ** Witnesses: integers hashed by a multiplicative hash, over four shards *)
Definition mul_hash (s k : Z) : Z := u64 (s + k * 11400714819323198485).

Lemma mul_hash_range s k : in_u64 (mul_hash s k).
Proof. apply u64_range. Qed.

Definition demo_opts : list (Option Z) := [WithShards 3; WithSeed 17; WithInitialCapacity 40].

Fixpoint set_seq (m : Map Z Z Z) (l : list (Z * Z)) : outcome (Map Z Z Z) :=
  match l with
  | [] => Ret m
  | (k, v) :: l' => m' ← Set_ m k v; set_seq m' l'
  end.

Lemma set_seq_ok l : forall m m', minv m -> set_seq m l = Ret m' -> minv m'.
Proof.
  induction l as [|[k v] l IH]; cbn [set_seq]; intros m m' I; [by intros [= <-]|].
  intros (m1 & (I1 & _)%Set_ok & E)%bind_ret; [|done]. by eapply IH.
Qed.

Definition demo_new : outcome (Map Z Z Z) := New 8 0 (Some mul_hash) demo_opts.

Lemma demo_new_minv m : demo_new = Ret m -> minv m.
Proof.
  destruct (New_ok (V:=Z) 8 0 mul_hash demo_opts) as (m' & E & I & _);
    [lia|vm_compute; discriminate|vm_compute; split; discriminate|intros; apply mul_hash_range|].
  unfold demo_new. rewrite E. by intros [= <-].
Qed.

Definition demo_map : Map Z Z Z :=
  get_ret (MkMap [] 0 mul_hash 0) (m ← demo_new; set_seq m (demo_pairs 12)).

Lemma demo_map_minv : minv demo_map.
Proof.
  assert ((m ← demo_new; set_seq m (demo_pairs 12)) = Ret demo_map) as E
    by (apply get_ret_eq; vm_compute; reflexivity).
  apply bind_ret in E as (m & E & Es). eapply set_seq_ok; [by apply demo_new_minv|done].
Qed.

Lemma New_correct_witness : exists m : Map Z Z Z,
  New 8 0 (Some mul_hash) demo_opts = Ret m /\ minv m /\ map_of m = ∅.
Proof.
  destruct (New_correct (V:=Z) 8 0 mul_hash demo_opts) as (m & E & I & Hm & _);
    [lia|vm_compute; discriminate|vm_compute; split; discriminate|intros; apply mul_hash_range|].
  exists m. exact (conj E (conj I Hm)).
Defined.

Lemma Swap_correct_witness : exists m',
  Swap demo_map 5 7 = Ret (m', (50, true)) /\ map_of m' = <[5 := 7]> (map_of demo_map).
Proof.
  destruct (Swap_correct demo_map 5 7 demo_map_minv) as (m' & E & _ & _ & _ & Hm).
  - intros t Ht%list_elem_of_In. apply Z.ltb_lt. revert t Ht. apply forallb_forall.
    vm_compute. reflexivity.
  - apply spread_few. vm_compute. discriminate.
  - exists m'. split; [|exact Hm]. rewrite E. do 2 f_equal; vm_compute; reflexivity.
Defined.

Lemma Get_Delete_correct_witness : exists m',
  Get demo_map 11 = Ret (110, true) /\ Delete demo_map 11 = Ret (m', (110, true)) /\ minv m'.
Proof.
  destruct (Get_Delete_correct demo_map 11 demo_map_minv) as (Eg & m' & Ed & I & _).
  exists m'. split; [vm_compute; reflexivity|]. split; [|exact I].
  rewrite Ed. do 2 f_equal; vm_compute; reflexivity.
Defined.

Lemma Range_Len_correct_witness : Len demo_map = 12 /\
  exists l, l ≡ₚ map_to_list (map_of demo_map) /\ length l = 12%nat.
Proof.
  destruct (Range_Len_correct demo_map demo_map_minv) as (El & l & Hl & _).
  split; [rewrite El; vm_compute; reflexivity|]. exists l. split; [exact Hl|].
  rewrite Hl. vm_compute. reflexivity.
Defined.
