(* ===== verification/Sample.v ===== *)
(** * Random sampling ([internal/shardmap/sample.go])

    [Sample] draws live entries for victim selection.  The source of randomness is
    code outside the repository (or a function the caller injects): it is a state
    transformer [rand : R -> Z * R], and a nil argument selects [randUint64]. *)
From S2P Require Import Prelude Table TableInv TableSpread TableDelete TableSpec ShardMap ShardMapSpec.

Definition sampleDrawFactor : Z := 8.
Definition sampleDrawFloor : Z := 16.
Definition sampleSlotTries : nat := 8.

Record SampleEntry (K V : Type) : Type := MkSample { Key : K; Val : V }.
Arguments MkSample {K V} _ _.
Arguments Key {K V} _.
Arguments Val {K V} _.

(** Bytes of a [SampleEntry]: the key, the value at its alignment, and the padding up
    to the alignment of the struct. *)
Definition align_up (n a : Z) : Z := (n + a - 1) / a * a.

Definition entry_size (K V : Type) `{!GoType K, !GoType V} : Z :=
  align_up (align_up (go_size K) (go_align V) + go_size V) (Z.max (go_align K) (go_align V)).

Section Sample.
Context {Seed K V R : Type} `{!EqDecision K} `{!Countable K} `{!GoType K} `{!GoType V} `{!GoType Seed}.
Implicit Types m : Map Seed K V.
Implicit Types t : table K V.

Section Draw.
Variable rand : R -> Z * R.

(** The reject-sampling loop of [sampleSlot]: the slot of the first hit. *)
Fixpoint slot_tries (tries : nat) t (r : R) : outcome (option Z * R) :=
  match tries with
  | O => Ret (None, r)
  | S tries' =>
      let '(x, r') := rand r in
      let i := Z.land x (capm1 t) in
      mt ← aget (meta t) i;
      if negb (mt =? 0) then Ret (Some i, r') else slot_tries tries' t r'
  end.

(** The forward scan from a random slot. *)
Fixpoint slot_scan (fuel : nat) t (start : Z) : outcome Z :=
  match fuel with
  | O => Diverge
  | S fuel' =>
      mt ← aget (meta t) start;
      if negb (mt =? 0) then Ret start else slot_scan fuel' t (next_slot t start)
  end.

Definition sampleSlot t (r : R) : outcome (Z * R) :=
  hit ← slot_tries sampleSlotTries t r;
  let '(h, r1) := hit in
  match h with
  | Some i => Ret (i, r1)
  | None =>
      let '(x, r2) := rand r1 in
      i ← slot_scan (length (meta t)) t (Z.land x (capm1 t));
      Ret (i, r2)
  end.

Definition sampleShard t (r : R) : outcome (option (SampleEntry K V) * R) :=
  if count t =? 0 then Ret (None, r)
  else
    ir ← sampleSlot t r;
    let '(i, r') := ir in
    k ← aget (keys t) i;
    v ← aget (vals t) i;
    Ret (Some (MkSample k v), r').

(** The draw loop of [Sample]; [seen] is the set of keys drawn so far. *)
Fixpoint sample_loop (budget : nat) m (n shardMask : Z) (out : list (SampleEntry K V))
    (seen : gset K) (r : R) : outcome (list (SampleEntry K V) * R) :=
  match budget with
  | O => Ret (out, r)
  | S budget' =>
      if Z.of_nat (length out) <? n then
        let '(x, r1) := rand r in
        s ← aget (shards m) (Z.land x shardMask);
        er ← sampleShard s r1;
        let '(eo, r2) := er in
        match eo with
        | None => sample_loop budget' m n shardMask out seen r2
        | Some e =>
            if bool_decide (Key e ∈ seen) then sample_loop budget' m n shardMask out seen r2
            else sample_loop budget' m n shardMask (out ++ [e]) ({[Key e]} ∪ seen) r2
        end
      else Ret (out, r)
  end.
End Draw.

Definition Sample (randUint64 : R -> Z * R) m (n : Z) (rand : option (R -> Z * R)) (r : R)
  : outcome (list (SampleEntry K V) * R) :=
  if n <=? 0 then Ret ([], r)
  else
    let rand := match rand with Some f => f | None => randUint64 end in
    let shardMask := u64 (Z.of_nat (length (shards m)) - 1) in
    _ ← make_cap (entry_size K V) n;
    sample_loop rand (Z.to_nat (i64 (n * sampleDrawFactor + sampleDrawFloor))) m n shardMask [] ∅ r.

(** ** Correctness *)
Variable rand : R -> Z * R.

Lemma mask_range x k : 0 <= k -> 0 <= Z.land x (2 ^ k - 1) < 2 ^ k.
Proof. intros. rewrite land_pow2 by done. apply Z.mod_pos_bound. by apply pow2_pos. Qed.

Lemma mask_cap t x : layout t -> 0 <= Z.land x (capm1 t) < cap t.
Proof.
  intros L. rewrite (lay_mask t L). destruct (lay_cap t L) as (n & Hn & ->).
  apply mask_range. lia.
Qed.

(** Reading a slot: occupied slots have a nonzero metadata word. *)
Lemma slot_test t i : layout t -> 0 <= i < cap t ->
  exists mt, aget (meta t) i = Ret mt /\ (mt = 0 <-> slot t i = None).
Proof.
  intros L Hi. destruct (slot_arrays t i L Hi) as (mt & k & v & h & Em & Ek & Ev & Eh).
  exists mt. split; [by apply aget_lookup; [lia|]|]. unfold slot. rewrite Em, Ek, Ev, Eh. cbn.
  destruct (Z.eqb_spec mt 0); naive_solver.
Qed.

Lemma slot_tries_ok tries t r : layout t ->
  exists o r', slot_tries rand tries t r = Ret (o, r') /\
    match o with Some i => 0 <= i < cap t /\ is_Some (slot t i) | None => True end.
Proof.
  intros L. revert r. induction tries as [|tries IH]; intros r; cbn [slot_tries]; [by exists None, r|].
  destruct (rand r) as [x r']. pose proof (mask_cap t x L) as Hi.
  destruct (slot_test t _ L Hi) as (mt & -> & Hz). cbn [mbind outcome_bind].
  destruct (Z.eqb_spec mt 0); cbn; [apply IH|].
  exists (Some (Z.land x (capm1 t))), r'. split_and!; [done|lia|lia|].
  apply not_eq_None_Some. tauto.
Qed.

Lemma slot_scan_ok fuel t p j : layout t -> 0 <= j < Z.of_nat fuel -> is_Some (at_ t (p + j)) ->
  exists i, slot_scan fuel t (p mod cap t) = Ret i /\ 0 <= i < cap t /\ is_Some (slot t i).
Proof.
  intros L. revert p j. induction fuel as [|fuel IH]; intros p j Hj Hs; [lia|]. cbn [slot_scan].
  pose proof (ring_index_range t p L) as Hr. destruct (slot_test t _ L Hr) as (mt & -> & Hz).
  cbn [mbind outcome_bind]. destruct (Z.eqb_spec mt 0) as [E|E]; cbn [negb].
  - rewrite next_slot_eq by done. destruct (Z.eq_dec j 0) as [->|].
    { rewrite Z.add_0_r in Hs. unfold at_ in Hs. rewrite (proj1 Hz E) in Hs. by destruct Hs. }
    apply (IH (p + 1) (j - 1)); [lia|]. by replace (p + 1 + (j - 1)) with (p + j) by lia.
  - exists (p mod cap t). split_and!; [done|lia|lia|]. apply not_eq_None_Some. tauto.
Qed.

Lemma some_slot H t : wf H t -> count t <> 0 -> exists q, is_Some (at_ t q).
Proof.
  intros [L _ U C] Hc. rewrite size_to_map in C by done.
  destruct (entries t) as [|e es] eqn:E; [cbn in C; lia|].
  assert (e ∈ entries t) as [q Hq]%elem_of_entries by (rewrite ?E; set_solver); [|done]. eauto.
Qed.

Lemma sampleSlot_ok H t r : wf H t -> count t <> 0 ->
  exists i r', sampleSlot rand t r = Ret (i, r') /\ 0 <= i < cap t /\ is_Some (slot t i).
Proof.
  intros W Hc. pose proof (wf_layout _ _ W) as L. unfold sampleSlot.
  destruct (slot_tries_ok sampleSlotTries t r L) as (o & r' & -> & Ho). cbn [mbind outcome_bind].
  destruct o as [i|]; [exists i, r'; tauto|]. destruct (rand r') as [x r2].
  destruct (some_slot H t W Hc) as [q Hq]. pose proof (mask_cap t x L) as Hx.
  destruct (ring_distance (cap t) (Z.land x (capm1 t)) q) as (j & Hj & E); [by apply cap_pos|].
  destruct (slot_scan_ok (length (meta t)) t (Z.land x (capm1 t)) j L) as (i & Ei & Hi);
    [done|by rewrite (at_congr t _ q)|].
  rewrite Z.mod_small in Ei by done. rewrite Ei. cbn. eauto.
Qed.

(** A shard yields one of its pairs, unless it is empty. *)
Lemma sampleShard_ok H t r : wf H t ->
  exists o r', sampleShard rand t r = Ret (o, r') /\
    match o with
    | Some e => to_map t !! Key e = Some (Val e)
    | None => to_map t = ∅
    end.
Proof.
  intros W. pose proof W as [L _ U C]. unfold sampleShard. destruct (Z.eqb_spec (count t) 0) as [E|E].
  { exists None, r. split; [done|]. apply map_size_empty_inv. lia. }
  destruct (sampleSlot_ok H t r W E) as (i & r' & -> & Hi & [e He]). cbn [mbind outcome_bind].
  rewrite <- at_slot in He by done. pose proof (read_entry t i e L He) as (_ & _ & Ek & Ev & _).
  rewrite Z.mod_small in Ek, Ev by done. rewrite Ek, Ev. cbn. eexists _, r'. split; [done|].
  by apply (at_to_map t i e).
Qed.

(** The drawn list: distinct live pairs, recorded in [seen]. *)
Definition drawn m (out : list (SampleEntry K V)) (seen : gset K) : Prop :=
  NoDup (Key <$> out) /\ Forall (fun e => map_of m !! Key e = Some (Val e)) out /\
  seen = list_to_set (Key <$> out).

Lemma sample_loop_ok budget : forall m n out seen r, minv m -> drawn m out seen ->
  Z.of_nat (length out) <= n ->
  exists out' seen' r',
    sample_loop rand budget m n (Z.of_nat (length (shards m)) - 1) out seen r = Ret (out', r') /\
    drawn m out' seen' /\ Z.of_nat (length out') <= n /\ (length out <= length out')%nat /\
    (out' = [] -> (budget = 0)%nat \/ n <= 0 \/ exists t, t ∈ shards m /\ to_map t = ∅).
Proof.
  induction budget as [|budget IH]; intros m n out seen r I D Hn; cbn [sample_loop].
  { exists out, seen, r. split_and!; auto. }
  destruct (Z.ltb_spec (Z.of_nat (length out)) n) as [Hlt|Hge].
  2:{ exists out, seen, r. split_and!; [done..|]. intros ->. cbn in *. lia. }
  destruct (rand r) as [x r1]. destruct (minv_shift m I) as (k & Hk & _ & Hl).
  pose proof (mask_range x k) as Hx. rewrite Hl.
  destruct (aget_is_ret (shards m) (Z.land x (2 ^ k - 1))) as (t & -> & Ht); [lia|].
  rewrite <- Hl. cbn [mbind outcome_bind]. pose proof (minv_shard m I _ t Ht) as [W _].
  destruct (sampleShard_ok (hash_of m) t r1 W) as (o & r2 & -> & Ho). cbn [mbind outcome_bind].
  assert (t ∈ shards m) as Hin by by eapply list_elem_of_lookup_2.
  destruct o as [e|].
  2:{ destruct (IH m n out seen r2) as (o' & s' & r' & E & D' & ? & ? & _); [done..|].
      exists o', s', r'. split_and!; [done..|]. intros _. right. right. eauto. }
  destruct (bool_decide_reflect (Key e ∈ seen)) as [Hs|Hs].
  - destruct (IH m n out seen r2) as (o' & s' & r' & E & D' & ? & Hle & _); [done..|].
    exists o', s', r'. split_and!; [done..|]. intros ->. destruct D as (_ & _ & ->).
    destruct out; [|cbn in Hle; lia]. set_solver.
  - destruct D as (Dn & Df & ->). assert (Key e ∉ Key <$> out) as Hf by set_solver.
    destruct (IH m n (out ++ [e]) ({[Key e]} ∪ list_to_set (Key <$> out)) r2)
      as (o' & s' & r' & E & D' & ? & Hle & _); [done| |rewrite length_app; cbn; lia|].
    + split_and!.
      * rewrite fmap_app. apply NoDup_app. split_and!; [done|set_solver|apply NoDup_singleton].
      * apply Forall_app. split; [done|]. constructor; [|constructor].
        by rewrite (shard_sub m (Key e) _ t I Ht).
      * apply set_eq. intros y. rewrite fmap_app. set_solver.
    + rewrite length_app in Hle. cbn in Hle. exists o', s', r'. split_and!; [done..|lia|].
      intros ->. cbn in Hle. lia.
Qed.

End Sample.

Lemma Sample_ok {Seed K V R} `{!EqDecision K} `{!Countable K} `{!GoType K} `{!GoType V} `{!GoType Seed}
    (randUint64 : R -> Z * R) (m : Map Seed K V) n rand r : minv m -> Z.max 1 (entry_size K V) * n <= maxAlloc ->
  exists out r', Sample randUint64 m n rand r = Ret (out, r') /\
    Z.of_nat (length out) <= Z.max 0 n /\ NoDup (Key <$> out) /\
    Forall (fun e => map_of m !! Key e = Some (Val e)) out /\
    (out = [] -> n <= 0 \/ exists t, t ∈ shards m /\ to_map t = ∅).
Proof.
  intros I Hn. unfold Sample. destruct (Z.leb_spec n 0).
  { exists [], r. split_and!; [done|cbn; lia|constructor|constructor|auto]. }
  rewrite make_cap_ret by nia. cbn [mbind outcome_bind].
  assert (n <= maxAlloc) by nia. destruct (minv_shift m I) as (k & Hk & _ & Hl).
  assert (1 <= 2 ^ k <= 2 ^ 48) by (pose proof (pow2_pos k); split; [lia|apply Z.pow_le_mono_r; lia]).
  rewrite u64_id by (unfold in_u64; lia). unfold maxAlloc, sampleDrawFactor, sampleDrawFloor in *.
  rewrite i64_id by (unfold in_i64; lia).
  edestruct (sample_loop_ok (match rand with Some f => f | None => randUint64 end)
    (Z.to_nat (n * 8 + 16)) m n [] ∅ r I) as (out & seen & r' & -> & (D1 & D2 & _) & Hle & _ & He).
  - split_and!; [constructor|constructor|done].
  - cbn. lia.
  - exists out, r'. split_and!; [done|lia|done|done|]. intros [?|?]%He; [lia|done].
Qed.

(** ** Properties *)

(** C34. Sampling.  For every [n] whose result slice [make] can allocate, [Sample]
    returns for every source of randomness: its loops stop and stay in range.  The result has at most [n] entries, their keys are
    distinct, each is a live pair of the map, and it is empty only when [n] is not
    positive or some shard is empty. *)
Theorem Sample_correct {Seed K V R} `{!EqDecision K} `{!Countable K} `{!GoType K} `{!GoType V}
    `{!GoType Seed} (randUint64 : R -> Z * R) (m : Map Seed K V) n rand r :
  minv m -> Z.max 1 (entry_size K V) * n <= maxAlloc ->
  exists out r', Sample randUint64 m n rand r = Ret (out, r') /\
    Z.of_nat (length out) <= Z.max 0 n /\ NoDup (Key <$> out) /\
    Forall (fun e => map_of m !! Key e = Some (Val e)) out /\
    (out = [] -> n <= 0 \/ exists t, t ∈ shards m /\ to_map t = ∅).
Proof. apply Sample_ok. Qed.

(** A linear congruential source and a constant one. *)
Definition lcg (s : Z) : Z * Z :=
  let s' := u64 (s * 6364136223846793005 + 1442695040888963407) in (Z.shiftr s' 33, s').

Definition const_rand (_ : unit) : Z * unit := (0, tt).

(** The draw budget.  The number of entries drawn can stay below [n] on a map
    that holds more than [n]: with a source that repeats itself, every draw after
    the first is a duplicate and the budget of [8 * n + 16] attempts runs out. *)
Theorem Sample_budget_short :
  size (map_of demo_map) = 12%nat /\
  exists e, Sample const_rand demo_map 5 None tt = Ret ([e], tt).
Proof. split; [vm_compute; reflexivity|]. eexists. vm_compute. reflexivity. Qed.

Lemma Sample_correct_witness : exists out r',
  Sample lcg demo_map 5 (Some lcg) 1 = Ret (out, r') /\ length out = 5%nat /\ NoDup (Key <$> out).
Proof.
  destruct (Sample_correct lcg demo_map 5 (Some lcg) 1 demo_map_minv)
    as (out & r' & E & _ & Hn & _); [vm_compute; discriminate|].
  exists out, r'. split; [exact E|]. split; [|exact Hn].
  apply (f_equal (fun o => length (fst (get_ret ([], 0) o)))) in E.
  transitivity (length (fst (get_ret ([], 0) (Sample lcg demo_map 5 (Some lcg) 1)))).
  - symmetry. exact E.
  - vm_compute. reflexivity.
Defined.
