(* ===== verification/Sketch.v ===== *)
(** * The Count-Min sketch ([internal/tinylfu/sketch.go], sizing and mixing of [doc.go])

    Four rows of 4-bit counters packed sixteen to a 64-bit word.  The drainer is
    the only writer, so [increment] and [halve] act on the words one after the
    other; the atomic word type carries the word only. *)
From S2P Require Import Prelude.

(** ** Sizing and mixing *)

(** [bits.Len64]. *)
Definition Len64 (x : Z) : Z := if x =? 0 then 0 else Z.log2 x + 1.

Definition nextPow2_u64 (n : Z) : Z :=
  if n <=? 1 then 1 else u64 (Z.shiftl 1 (Len64 (u64 (n - 1)))).

Definition mix (x : Z) : Z :=
  let x := Z.lxor x (Z.shiftr x 30) in
  let x := u64 (x * 0xbf58476d1ce4e5b9) in
  let x := Z.lxor x (Z.shiftr x 27) in
  let x := u64 (x * 0x94d049bb133111eb) in
  Z.lxor x (Z.shiftr x 31).

(** ** The sketch *)
Definition depth : Z := 4.
Definition nibblesPerWord : Z := 16.
Definition nibbleMax : Z := 15.
Definition minWidth : Z := nibblesPerWord.
Definition halfNibbles : Z := 0x7777777777777777.

Definition rowSeeds : list Z :=
  [0x9e3779b97f4a7c15; 0xbf58476d1ce4e5b9; 0x94d049bb133111eb; 0xd6e8feb86659fd93].

Record sketch : Type := MkSketch {
  rows : list (list Z);
  sk_mask : Z;
  wd : Z;
  sk_seed : Z;
}.

Definition newSketch (width seed : Z) : outcome sketch :=
  let width := if width <? minWidth then minWidth else width in
  let w := i64 (nextPow2_u64 (u64 width)) in
  let words := Z.quot w nibblesPerWord in
  r0 ← make_slice 8 0 words;
  r1 ← make_slice 8 0 words;
  r2 ← make_slice 8 0 words;
  r3 ← make_slice 8 0 words;
  Ret (MkSketch [r0; r1; r2; r3] (u64 (w - 1)) w seed).

Definition sk_width (s : sketch) : Z := wd s.

Definition counterIndex (s : sketch) (fp row : Z) : outcome Z :=
  rs ← aget rowSeeds row;
  Ret (Z.land (mix (Z.lxor (Z.lxor fp (sk_seed s)) rs)) (sk_mask s)).

(** The shift of a counter inside its word: [(idx & 15) * 4]. *)
Definition nib_shift (idx : Z) : Z := u64 (Z.land idx (nibblesPerWord - 1) * 4).

Definition read (s : sketch) (row idx : Z) : outcome Z :=
  ws ← aget (rows s) row;
  word ← aget ws (Z.shiftr idx 4);
  Ret (Z.land (Z.shiftr word (nib_shift idx)) nibbleMax).

Definition with_rows (s : sketch) (rs : list (list Z)) : sketch :=
  MkSketch rs (sk_mask s) (wd s) (sk_seed s).

Definition raise (s : sketch) (row idx : Z) : outcome sketch :=
  ws ← aget (rows s) row;
  word ← aget ws (Z.shiftr idx 4);
  ws' ← aset ws (Z.shiftr idx 4) (u64 (word + u64 (Z.shiftl 1 (nib_shift idx))));
  rs ← aset (rows s) row ws';
  Ret (with_rows s rs).

(** The first loop of [increment]: the index and value of each row, the minimum. *)
Fixpoint gather (s : sketch) (fp : Z) (ix : list Z) (lo : Z) : outcome (list (Z * Z * Z) * Z) :=
  match ix with
  | [] => Ret ([], lo)
  | i :: ix' =>
      idx ← counterIndex s fp i;
      val ← read s i idx;
      rest ← gather s fp ix' (if val <? lo then val else lo);
      Ret ((i, idx, val) :: fst rest, snd rest)
  end.

(** The second loop: raise the counters that sit at the minimum. *)
Fixpoint raise_min (s : sketch) (lo : Z) (l : list (Z * Z * Z)) : outcome sketch :=
  match l with
  | [] => Ret s
  | (i, idx, val) :: l' =>
      s' ← (if val =? lo then raise s i idx else Ret s);
      raise_min s' lo l'
  end.

Definition row_ids : list Z := seqZ 0 depth.

Definition increment (s : sketch) (fp : Z) : outcome sketch :=
  g ← gather s fp row_ids nibbleMax;
  let '(l, lo) := g in
  if nibbleMax <=? lo then Ret s else raise_min s lo l.

Fixpoint estimate_loop (s : sketch) (fp : Z) (ix : list Z) (lo : Z) : outcome Z :=
  match ix with
  | [] => Ret lo
  | i :: ix' =>
      idx ← counterIndex s fp i;
      v ← read s i idx;
      estimate_loop s fp ix' (if v <? lo then v else lo)
  end.

Definition estimate (s : sketch) (fp : Z) : outcome Z :=
  estimate_loop s fp row_ids nibbleMax.

Definition halve_word (w : Z) : Z := Z.land (Z.shiftr w 1) halfNibbles.

Definition halve (s : sketch) : sketch := with_rows s ((fun row : list Z => halve_word <$> row) <$> rows s).

(** ** Counters inside a word *)
Definition nib (w j : Z) : Z := (w / 16 ^ j) mod 16.

Lemma nib_range w j : 0 <= nib w j <= 15.
Proof. unfold nib. pose proof (Z.mod_pos_bound (w / 16 ^ j) 16). lia. Qed.

Lemma pow16_pos j : 0 <= j -> 0 < 16 ^ j.
Proof. intros. apply Z.pow_pos_nonneg; lia. Qed.

Lemma pow16_split i j : 0 <= i <= j -> 16 ^ j = 16 ^ (j - i) * 16 ^ i.
Proof. intros. rewrite <- Z.pow_add_r by lia. f_equal. lia. Qed.

(** Adding one to a counter below its maximum carries into no other counter: the
    digits above it do not change... *)
Lemma add_high w i j : 0 <= j < i -> nib w j < 15 -> (w + 16 ^ j) / 16 ^ i = w / 16 ^ i.
Proof.
  intros Hij Hn. unfold nib in Hn. pose proof (pow16_pos j). pose proof (pow16_pos (i - 1 - j)).
  replace (16 ^ i) with (16 ^ j * (16 * 16 ^ (i - 1 - j))).
  2:{ rewrite (pow16_split j i) by lia. rewrite (Z.mul_comm (16 ^ (i - j))). f_equal.
      replace (i - j) with (1 + (i - 1 - j)) by lia. rewrite Z.pow_add_r by lia. done. }
  rewrite <- !Z.div_div by lia. f_equal.
  replace (w + 16 ^ j) with (w + 1 * 16 ^ j) by lia. rewrite Z.div_add by lia.
  pose proof (Z.div_mod (w / 16 ^ j) 16).
  symmetry. apply (Z.div_unique _ _ _ ((w / 16 ^ j) mod 16 + 1)); [|lia].
  pose proof (Z.mod_pos_bound (w / 16 ^ j) 16). lia.
Qed.

(** ... and neither do the ones below. *)
Lemma nib_add w i j : 0 <= i -> 0 <= j -> nib w j < 15 ->
  nib (w + 16 ^ j) i = nib w i + (if i =? j then 1 else 0).
Proof.
  intros Hi Hj Hn. destruct (Z.lt_trichotomy i j) as [Hlt|[->|Hgt]].
  - replace (i =? j) with false by lia. unfold nib. pose proof (pow16_pos i).
    rewrite (pow16_split i j) by lia. rewrite Z.div_add by lia.
    replace (16 ^ (j - i)) with (16 ^ (j - i - 1) * 16).
    2:{ rewrite (pow16_split 1 (j - i)) by lia. done. }
    rewrite Z_mod_plus_full. lia.
  - rewrite Z.eqb_refl. unfold nib in *. pose proof (pow16_pos j).
    replace (w + 16 ^ j) with (w + 1 * 16 ^ j) by lia. rewrite Z.div_add by lia.
    pose proof (Z.mod_pos_bound (w / 16 ^ j) 16).
    rewrite <- Zplus_mod_idemp_l, Z.mod_small; lia.
  - replace (i =? j) with false by lia. unfold nib. rewrite add_high by (lia || done). lia.
Qed.

Lemma add_in_u64 w j : in_u64 w -> 0 <= j < 16 -> nib w j < 15 -> in_u64 (w + 16 ^ j).
Proof.
  intros [H0 H1] Hj Hn. pose proof (pow16_pos j). split; [lia|].
  pose proof (add_high w 16 j ltac:(lia) Hn) as E. change (16 ^ 16) with (2 ^ 64) in E.
  rewrite (Z.div_small w) in E by lia. apply Z.div_small_iff in E; lia.
Qed.

(** The mask keeps the three low bits of each counter. *)
Lemma halfNibbles_bit k : 0 <= k < 64 -> Z.testbit halfNibbles k = negb (k mod 4 =? 3).
Proof.
  intros Hk. assert (forallb (fun k => eqb (Z.testbit halfNibbles k) (negb (k mod 4 =? 3))) (seqZ 0 64) = true)
    as Hall by (vm_compute; reflexivity).
  rewrite forallb_forall in Hall. apply eqb_prop, Hall, list_elem_of_In, elem_of_seqZ. lia.
Qed.

Lemma nib_bits w j n : 0 <= j -> 0 <= n -> Z.testbit (nib w j) n = (n <? 4) && Z.testbit w (4 * j + n).
Proof.
  intros. unfold nib. change 16 with (2 ^ 4). rewrite <- Z.pow_mul_r by lia.
  destruct (Z.ltb_spec n 4).
  - rewrite Z.mod_pow2_bits_low, Z.div_pow2_bits by lia. cbn. f_equal. lia.
  - rewrite Z.mod_pow2_bits_high by lia. done.
Qed.

Lemma nib_halve w j : 0 <= j < 16 -> nib (halve_word w) j = nib w j / 2.
Proof.
  intros Hj. apply Z.bits_inj'. intros n Hn. change 2 with (2 ^ 1).
  rewrite Z.div_pow2_bits, !nib_bits by lia. unfold halve_word.
  destruct (Z.ltb_spec n 4); cbn.
  - rewrite Z.land_spec, Z.shiftr_spec, halfNibbles_bit by lia.
    replace ((4 * j + n) mod 4) with n.
    2:{ rewrite (Z.mul_comm 4), Z.add_comm, Z_mod_plus_full, Z.mod_small; lia. }
    replace (4 * j + n + 1) with (4 * j + (n + 1)) by lia.
    destruct (Z.eqb_spec n 3) as [->|]; cbn; [by rewrite andb_false_r|].
    replace (n + 1 <? 4) with true by lia. by rewrite andb_true_r.
  - by replace (n + 1 <? 4) with false by lia.
Qed.

Lemma halve_word_range w : in_u64 w -> in_u64 (halve_word w).
Proof.
  intros [? ?]. unfold halve_word, in_u64. rewrite Z.shiftr_div_pow2 by lia.
  assert (0 <= w / 2 ^ 1 < 2 ^ 63).
  { split; [apply Z.div_pos; lia|]. apply Z.div_lt_upper_bound; lia. }
  enough (0 <= Z.land (w / 2 ^ 1) halfNibbles <= w / 2 ^ 1) by lia.
  apply Z.ldiff_le; [lia|]. apply Z.bits_inj'. intros n Hn. rewrite Z.ldiff_spec, Z.land_spec, Z.bits_0.
  by destruct (Z.testbit (w / 2 ^ 1) n), (Z.testbit halfNibbles n).
Qed.
