(* ===== verification/SketchSpec.v ===== *)
(** * What the sketch promises

    The packed words stand for four arrays of counters between 0 and 15; the
    operations act on those arrays as conservative-update Count-Min does. *)
From S2P Require Import Prelude Sketch.

(** Array shapes: four rows of [wd / 16] words, [wd] a power of two. *)
Record swf (s : sketch) : Prop := {
  swf_rows : length (rows s) = 4%nat;
  swf_width : exists k, 4 <= k <= 52 /\ wd s = 2 ^ k;
  swf_mask : sk_mask s = wd s - 1;
  swf_words : Forall (fun row => Z.of_nat (length row) * 16 = wd s /\ Forall in_u64 row) (rows s);
}.

(** The counter [i] of a row, and of row [r]. *)
Definition row_ctr (row : list Z) (i : Z) : Z :=
  default 0 ((fun w => nib w (i mod 16)) <$> row !! Z.to_nat (i / 16)).

Definition ctr (s : sketch) (r i : Z) : Z :=
  default 0 ((fun row => row_ctr row i) <$> rows s !! Z.to_nat r).

(** The counter of row [r] that [fp] uses. *)
Definition index (s : sketch) (fp r : Z) : Z :=
  Z.land (mix (Z.lxor (Z.lxor fp (sk_seed s)) (default 0 (rowSeeds !! Z.to_nat r)))) (sk_mask s).

Definition same_shape (s s' : sketch) : Prop :=
  sk_mask s' = sk_mask s /\ wd s' = wd s /\ sk_seed s' = sk_seed s.

(** The minimum of the counters of [fp] over some rows and a start value. *)
Definition scan (s : sketch) (fp : Z) (ix : list Z) (lo : Z) : Z :=
  foldl (fun lo r => let v := ctr s r (index s fp r) in if v <? lo then v else lo) lo ix.

(** The estimate as a minimum. *)
Definition est (s : sketch) (fp : Z) : Z := scan s fp row_ids nibbleMax.

Lemma elem_of_row_ids r : r ∈ row_ids <-> 0 <= r < 4.
Proof. unfold row_ids, depth. rewrite elem_of_seqZ. lia. Qed.

Lemma ctr_range s r i : 0 <= ctr s r i <= 15.
Proof.
  unfold ctr, row_ctr. destruct (rows s !! _) as [row|]; cbn; [|lia].
  destruct (row !! _) as [w|]; cbn; [apply nib_range|lia].
Qed.

Lemma width_pos s : swf s -> 16 <= wd s <= 2 ^ 52.
Proof.
  intros W. destruct (swf_width s W) as (k & Hk & ->). change 16 with (2 ^ 4).
  split; apply Z.pow_le_mono_r; lia.
Qed.

Lemma index_range s fp r : swf s -> 0 <= index s fp r < wd s.
Proof.
  intros W. unfold index. rewrite (swf_mask s W). destruct (swf_width s W) as (k & Hk & ->).
  rewrite land_pow2 by lia. apply Z.mod_pos_bound, pow2_pos. lia.
Qed.

Lemma index_same s s' fp r : same_shape s s' -> index s' fp r = index s fp r.
Proof. intros (Hm & _ & Hs). unfold index. by rewrite Hm, Hs. Qed.

Lemma counterIndex_ok s fp r : 0 <= r < 4 -> counterIndex s fp r = Ret (index s fp r).
Proof.
  intros Hr. unfold counterIndex, index.
  destruct (aget_is_ret rowSeeds r) as (x & -> & ->); [cbn; lia|]. done.
Qed.

(** ** Reading and raising one counter *)
Lemma nib_shift_eq i : 0 <= i -> nib_shift i = 4 * (i mod 16).
Proof.
  intros. unfold nib_shift. change (nibblesPerWord - 1) with (2 ^ 4 - 1).
  rewrite land_pow2 by lia. change (2 ^ 4) with 16.
  pose proof (Z.mod_pos_bound i 16). rewrite u64_id by (unfold in_u64; lia). lia.
Qed.

Lemma word_at s r i : swf s -> 0 <= r < 4 -> 0 <= i < wd s ->
  exists row w, rows s !! Z.to_nat r = Some row /\ aget (rows s) r = Ret row /\
    Z.shiftr i 4 = i / 16 /\ 0 <= i / 16 < Z.of_nat (length row) /\
    row !! Z.to_nat (i / 16) = Some w /\ aget row (i / 16) = Ret w /\ in_u64 w /\
    Z.of_nat (length row) * 16 = wd s /\ Forall in_u64 row.
Proof.
  intros W Hr Hi. destruct (aget_is_ret (rows s) r) as (row & Eg & El);
    [rewrite (swf_rows s W); lia|].
  pose proof (Forall_lookup_1 _ _ _ _ (swf_words s W) El) as [Hlen Hw].
  assert (0 <= i / 16 < Z.of_nat (length row)) as Hd.
  { split; [apply Z.div_pos; lia|apply Z.div_lt_upper_bound; lia]. }
  destruct (aget_is_ret row (i / 16) Hd) as (w & Ew & Elw). exists row, w.
  split_and!; try done; try lia.
  - by rewrite Z.shiftr_div_pow2.
  - exact (Forall_lookup_1 _ _ _ _ Hw Elw).
Qed.

Lemma read_ok s r i : swf s -> 0 <= r < 4 -> 0 <= i < wd s -> read s r i = Ret (ctr s r i).
Proof.
  intros W Hr Hi. destruct (word_at s r i W Hr Hi) as (row & w & El & Eg & Es & _ & Elw & Ew & _).
  unfold read, ctr, row_ctr. rewrite Eg, El. cbn [mbind outcome_bind]. rewrite Es, Ew. cbn.
  rewrite Elw. cbn. f_equal. rewrite nib_shift_eq by lia. pose proof (Z.mod_pos_bound i 16).
  change nibbleMax with (2 ^ 4 - 1). rewrite land_pow2, Z.shiftr_div_pow2 by lia.
  unfold nib. change 16 with (2 ^ 4) at 2. by rewrite <- Z.pow_mul_r by lia.
Qed.

(** Two counters of a row that share both word and digit are the same. *)
Lemma digit_inj i j : 0 <= i -> 0 <= j -> i / 16 = j / 16 -> i mod 16 = j mod 16 -> i = j.
Proof. intros. pose proof (Z.div_mod i 16). pose proof (Z.div_mod j 16). lia. Qed.

Lemma row_ctr_raise row i w j : 0 <= i -> 0 <= j ->
  row !! Z.to_nat (i / 16) = Some w -> nib w (i mod 16) < 15 -> j / 16 < Z.of_nat (length row) ->
  row_ctr (<[Z.to_nat (i / 16) := w + 16 ^ (i mod 16)]> row) j =
    row_ctr row j + (if j =? i then 1 else 0).
Proof.
  intros Hi Hj Ew Hn Hl. unfold row_ctr.
  pose proof (Z.div_pos i 16). pose proof (Z.div_pos j 16).
  pose proof (Z.mod_pos_bound i 16). pose proof (Z.mod_pos_bound j 16).
  destruct (Z.eqb_spec (j / 16) (i / 16)) as [Ed|Ed].
  - rewrite Ed, list_lookup_insert_eq, Ew by (rewrite <- Ed; lia). cbn. rewrite nib_add by (lia || done).
    f_equal. destruct (Z.eqb_spec (j mod 16) (i mod 16)) as [Em|Em], (Z.eqb_spec j i) as [|n];
      subst; try done.
    exfalso. apply n. by apply digit_inj.
  - rewrite list_lookup_insert_ne by lia. destruct (Z.eqb_spec j i); [by subst|lia].
Qed.

Lemma ctr_row s r row i : rows s !! Z.to_nat r = Some row -> ctr s r i = row_ctr row i.
Proof. unfold ctr. by intros ->. Qed.

Lemma ctr_insert_row s r row r' i : 0 <= r < Z.of_nat (length (rows s)) -> 0 <= r' ->
  ctr (with_rows s (<[Z.to_nat r := row]> (rows s))) r' i =
    if r' =? r then row_ctr row i else ctr s r' i.
Proof.
  intros Hr Hr'. unfold ctr. cbn. destruct (Z.eqb_spec r' r) as [->|].
  - by rewrite list_lookup_insert_eq by lia.
  - by rewrite list_lookup_insert_ne by lia.
Qed.

Lemma raise_word w i : in_u64 w -> 0 <= i -> nib w (i mod 16) < 15 ->
  u64 (w + u64 (Z.shiftl 1 (nib_shift i))) = w + 16 ^ (i mod 16) /\ in_u64 (w + 16 ^ (i mod 16)).
Proof.
  intros Hw Hi Hn. pose proof (Z.mod_pos_bound i 16).
  pose proof (add_in_u64 w (i mod 16) Hw ltac:(lia) Hn) as Hin. split; [|done].
  rewrite nib_shift_eq, Z.shiftl_1_l, Z.pow_mul_r by lia. change (2 ^ 4) with 16.
  pose proof (pow16_pos (i mod 16)). unfold in_u64 in Hin, Hw.
  rewrite (u64_id (16 ^ _)) by (unfold in_u64; lia). by apply u64_id.
Qed.

Lemma raise_ok s r i : swf s -> 0 <= r < 4 -> 0 <= i < wd s -> ctr s r i < 15 ->
  exists s', raise s r i = Ret s' /\ swf s' /\ same_shape s s' /\
    forall r' i', 0 <= r' < 4 -> 0 <= i' < wd s ->
      ctr s' r' i' = ctr s r' i' + (if (r' =? r) && (i' =? i) then 1 else 0).
Proof.
  intros W Hr Hi Hc.
  destruct (word_at s r i W Hr Hi) as (row & w & El & Eg & Es & Hd & Elw & Ew & Hw & Hlen & Hrow).
  rewrite (ctr_row s r row i El) in Hc. unfold row_ctr in Hc. rewrite Elw in Hc. cbn in Hc.
  destruct (raise_word w i Hw ltac:(lia) Hc) as [Ew' Hw']. pose proof (swf_rows s W) as H4.
  eexists. split_and!.
  - unfold raise. rewrite Eg. cbn [mbind outcome_bind]. rewrite Es, Ew. cbn [mbind outcome_bind].
    rewrite Ew', aset_ret by done. cbn [mbind outcome_bind]. by rewrite aset_ret by lia.
  - split; cbn; [by rewrite length_insert|apply (swf_width s W)|apply (swf_mask s W)|].
    apply Forall_insert; [apply (swf_words s W)|]. rewrite length_insert. split; [done|].
    by apply Forall_insert.
  - done.
  - intros r' i' Hr' Hi'. rewrite ctr_insert_row by lia.
    destruct (Z.eqb_spec r' r) as [->|Hne]; cbn [andb]; [|lia].
    rewrite (ctr_row s r row i' El). apply row_ctr_raise; [lia..|done|done|].
    apply Z.div_lt_upper_bound; lia.
Qed.

(** ** The loops over the rows *)
Lemma scan_spec s fp ix : forall lo,
  scan s fp ix lo <= lo /\ (forall r, r ∈ ix -> scan s fp ix lo <= ctr s r (index s fp r)) /\
  (scan s fp ix lo = lo \/ exists r, r ∈ ix /\ scan s fp ix lo = ctr s r (index s fp r)).
Proof.
  induction ix as [|r ix IH]; intros lo; [cbn; split_and!; [lia|set_solver|by left]|].
  set (v := ctr s r (index s fp r)).
  change (scan s fp (r :: ix) lo) with (scan s fp ix (if v <? lo then v else lo)).
  destruct (IH (if v <? lo then v else lo)) as (H1 & H2 & H3).
  destruct (Z.ltb_spec v lo); split_and!; try lia.
  - intros r' [->|Hr']%elem_of_cons; [fold v; lia|auto].
  - right. destruct H3 as [->|(r' & ? & ->)]; [exists r|exists r']; set_solver.
  - intros r' [->|Hr']%elem_of_cons; [fold v; lia|auto].
  - destruct H3 as [H3|(r' & ? & ->)]; [by left|right; exists r'; set_solver].
Qed.

Lemma est_le s fp r : 0 <= r < 4 -> est s fp <= ctr s r (index s fp r).
Proof. intros Hr%elem_of_row_ids. by apply scan_spec. Qed.

Lemma est_glb s fp x : x <= 15 -> (forall r, 0 <= r < 4 -> x <= ctr s r (index s fp r)) -> x <= est s fp.
Proof.
  intros Hx Hr. unfold est. destruct (scan_spec s fp row_ids nibbleMax) as (_ & _ & [->|(r & Hin & ->)]).
  - exact Hx.
  - by apply Hr, elem_of_row_ids.
Qed.

Lemma est_range s fp : 0 <= est s fp <= 15.
Proof.
  split; [apply est_glb; [lia|]; intros; apply ctr_range|].
  apply (scan_spec s fp row_ids nibbleMax).
Qed.

Lemma gather_ok s fp ix lo : swf s -> (forall r, r ∈ ix -> 0 <= r < 4) ->
  gather s fp ix lo =
    Ret ((fun r => (r, index s fp r, ctr s r (index s fp r))) <$> ix, scan s fp ix lo).
Proof.
  intros W. revert lo. induction ix as [|r ix IH]; intros lo Hix; cbn [gather]; [done|].
  assert (0 <= r < 4) by set_solver. rewrite counterIndex_ok by done. cbn [mbind outcome_bind].
  rewrite read_ok by auto using index_range. cbn [mbind outcome_bind]. rewrite IH by set_solver. done.
Qed.

Lemma estimate_loop_ok s fp ix lo : swf s -> (forall r, r ∈ ix -> 0 <= r < 4) ->
  estimate_loop s fp ix lo = Ret (scan s fp ix lo).
Proof.
  intros W. revert lo. induction ix as [|r ix IH]; intros lo Hix; cbn [estimate_loop]; [done|].
  assert (0 <= r < 4) by set_solver. rewrite counterIndex_ok by done. cbn [mbind outcome_bind].
  rewrite read_ok by auto using index_range. cbn [mbind outcome_bind]. rewrite IH by set_solver. done.
Qed.

Lemma estimate_ok s fp : swf s -> estimate s fp = Ret (est s fp).
Proof. intros. apply estimate_loop_ok; [done|]. intros r. by rewrite elem_of_row_ids. Qed.

Lemma raise_min_ok fp lo v ix : lo < 15 -> NoDup ix -> (forall r, r ∈ ix -> 0 <= r < 4) ->
  forall s, swf s -> (forall r, r ∈ ix -> v r = ctr s r (index s fp r)) ->
  exists s', raise_min s lo ((fun r => (r, index s fp r, v r)) <$> ix) = Ret s' /\
    swf s' /\ same_shape s s' /\
    forall r i, 0 <= r < 4 -> 0 <= i < wd s -> ctr s' r i =
      ctr s r i + (if bool_decide (r ∈ ix) && (i =? index s fp r) && (v r =? lo) then 1 else 0).
Proof.
  intros Hlo. induction 1 as [|r ix Hr Hnd IH]; intros Hix s W Hv.
  { exists s. split_and!; try done. intros. by rewrite Z.add_0_r. }
  cbn [fmap list_fmap raise_min]. assert (0 <= r < 4) as Hr4 by set_solver.
  assert (exists s1, (if v r =? lo then raise s r (index s fp r) else Ret s) = Ret s1 /\
    swf s1 /\ same_shape s s1 /\ forall r' i', 0 <= r' < 4 -> 0 <= i' < wd s -> ctr s1 r' i' =
      ctr s r' i' + (if (r' =? r) && (i' =? index s fp r) && (v r =? lo) then 1 else 0))
    as (s1 & -> & W1 & Sh & Hc1).
  { destruct (Z.eqb_spec (v r) lo) as [E|E].
    - destruct (raise_ok s r (index s fp r)) as (s1 & ? & ? & ? & Hc1);
        [done|done|by apply index_range|rewrite <- Hv by set_solver; lia|].
      exists s1. split_and!; [done..|]. intros. rewrite Hc1 by done. by rewrite andb_true_r.
    - exists s. split_and!; [done..|]. intros. by rewrite andb_false_r, Z.add_0_r. }
  cbn [mbind outcome_bind].
  destruct (IH ltac:(set_solver) s1 W1) as (s2 & E2 & W2 & Sh2 & Hc2).
  { intros r' Hr'. rewrite Hv, (index_same s s1), Hc1 by (done || set_solver || by apply index_range || (apply Hix; set_solver)).
    assert (r' <> r) by set_solver. replace (r' =? r) with false by lia. cbn. lia. }
  exists s2. split_and!; [| done| |].
  - rewrite <- E2. f_equal. apply list_fmap_ext. intros ? r' _. by rewrite (index_same s s1).
  - destruct Sh as (?&?&?), Sh2 as (?&?&?). split_and!; congruence.
  - intros r' i Hr' Hi. rewrite Hc2, Hc1, (index_same s s1) by (done || by destruct Sh as (_ & -> & _)).
    destruct (Z.eqb_spec r' r) as [->|Hne]; cbn [andb].
    + rewrite (bool_decide_eq_false_2 (r ∈ ix)), (bool_decide_eq_true_2 (r ∈ r :: ix)) by set_solver.
      cbn [andb]. lia.
    + replace (bool_decide (r' ∈ r :: ix)) with (bool_decide (r' ∈ ix)); [lia|].
      apply bool_decide_ext. set_solver.
Qed.

(** ** The three operations *)

(** [increment] adds one to exactly the counters of [fp] that sit at the minimum,
    and to none when all of them are saturated. *)
Lemma increment_ok s fp : swf s ->
  exists s', increment s fp = Ret s' /\ swf s' /\ same_shape s s' /\
    forall r i, 0 <= r < 4 -> 0 <= i < wd s -> ctr s' r i =
      ctr s r i + (if (i =? index s fp r) && (ctr s r i =? est s fp) && (est s fp <? 15) then 1 else 0).
Proof.
  intros W. unfold increment. rewrite gather_ok by (done || intros r; by rewrite elem_of_row_ids).
  cbn [mbind outcome_bind]. fold (est s fp). change nibbleMax with 15.
  destruct (Z.leb_spec 15 (est s fp)).
  - exists s. split_and!; [done..|]. intros. replace (est s fp <? 15) with false by lia.
    by rewrite andb_false_r, Z.add_0_r.
  - destruct (raise_min_ok fp (est s fp) (fun r => ctr s r (index s fp r)) row_ids)
      with (s := s) as (s' & E & W' & Sh & Hc); [lia|apply NoDup_seqZ| |done|done|].
    { intros r. by rewrite elem_of_row_ids. }
    exists s'. split_and!; [done..|]. intros r i Hr Hi. rewrite Hc by done.
    rewrite bool_decide_eq_true_2 by by apply elem_of_row_ids.
    replace (est s fp <? 15) with true by lia. cbn [andb].
    destruct (Z.eqb_spec i (index s fp r)) as [->|]; cbn [andb]; [|done]. by rewrite andb_true_r.
Qed.

Lemma halve_ok s : swf s ->
  swf (halve s) /\ same_shape s (halve s) /\
  forall r i, 0 <= r < 4 -> 0 <= i < wd s -> ctr (halve s) r i = ctr s r i / 2.
Proof.
  intros W. split_and!; [|done..|].
  - split; cbn; [by rewrite length_fmap, (swf_rows s W)|apply (swf_width s W)|apply (swf_mask s W)|].
    apply Forall_fmap. eapply Forall_impl; [apply (swf_words s W)|]. cbn. intros row [Hl Hw].
    rewrite length_fmap. split; [done|]. apply Forall_fmap.
    eapply Forall_impl; [exact Hw|]. apply halve_word_range.
  - intros r i Hr Hi. destruct (word_at s r i W Hr Hi) as (row & w & El & _ & _ & _ & Ew & _).
    rewrite (ctr_row s r row i El). unfold halve.
    rewrite (ctr_row _ r (halve_word <$> row) i) by (cbn; by rewrite list_lookup_fmap, El).
    unfold row_ctr. rewrite list_lookup_fmap, Ew. cbn.
    apply nib_halve, Z.mod_pos_bound. lia.
Qed.

(** ** Construction *)
Lemma nextPow2_u64_spec n : 1 <= n <= 2 ^ 62 ->
  exists k, 0 <= k <= 62 /\ nextPow2_u64 n = 2 ^ k /\ n <= 2 ^ k /\ (0 < k -> 2 ^ (k - 1) < n).
Proof.
  intros Hn. unfold nextPow2_u64. destruct (Z.leb_spec n 1).
  { exists 0. split_and!; [lia..|done|lia|lia]. }
  rewrite (u64_id (n - 1)) by (unfold in_u64; lia). unfold Len64.
  replace (n - 1 =? 0) with false by lia.
  destruct (Z.log2_spec (n - 1)) as [Hlo Hhi]; [lia|].
  assert (0 <= Z.log2 (n - 1) < 62).
  { split; [apply Z.log2_nonneg|]. apply Z.log2_lt_pow2; lia. }
  exists (Z.log2 (n - 1) + 1). rewrite Z.shiftl_1_l, u64_id.
  - split_and!; [lia..|done|unfold Z.succ in Hhi; lia|]. intros _. rewrite Z.add_simpl_r. lia.
  - unfold in_u64. pose proof (pow2_pos (Z.log2 (n - 1) + 1)).
    pose proof (Z.pow_lt_mono_r 2 (Z.log2 (n - 1) + 1) 64). lia.
Qed.

Lemma row_ctr_zero n i : row_ctr (replicate n 0) i = 0.
Proof.
  unfold row_ctr. destruct (replicate n 0 !! Z.to_nat (i / 16)) as [w|] eqn:E; [|done].
  apply lookup_replicate in E as [-> _]. cbn. unfold nib. by rewrite Zdiv_0_l.
Qed.

Lemma newSketch_ok width seed : width <= 2 ^ 49 ->
  exists s, newSketch width seed = Ret s /\ swf s /\ sk_seed s = seed /\
    (forall r i, ctr s r i = 0) /\ Z.max 16 width <= wd s /\
    (16 < wd s -> wd s < 2 * width).
Proof.
  intros Hw. unfold newSketch, minWidth, nibblesPerWord.
  set (x := if width <? 16 then 16 else width).
  assert (x = Z.max 16 width) as Hx by (unfold x; go_case; lia). rewrite Hx. clear x Hx.
  rewrite (u64_id (Z.max 16 width)) by (unfold in_u64; lia).
  destruct (nextPow2_u64_spec (Z.max 16 width)) as (k & Hk & -> & Hle & Hmin); [lia|].
  assert (4 <= k <= 49) as Hk'.
  { split; [apply (Z.pow_le_mono_r_iff 2); lia|].
    destruct (Z.le_gt_cases k 49); [done|]. pose proof (Z.pow_le_mono_r 2 49 (k - 1)). lia. }
  assert (2 ^ 4 <= 2 ^ k <= 2 ^ 49) by (split; apply Z.pow_le_mono_r; lia).
  rewrite (i64_id (2 ^ k)) by (unfold in_i64; lia). rewrite Z.quot_div_nonneg by lia.
  assert (2 ^ k / 16 = 2 ^ (k - 4)) as ->.
  { change 16 with (2 ^ 4). rewrite <- Z.pow_sub_r by lia. done. }
  assert (0 < 2 ^ (k - 4) <= 2 ^ 45) by (split; [apply pow2_pos; lia|apply Z.pow_le_mono_r; lia]).
  rewrite make_slice_ret by (unfold maxAlloc; lia). cbn [mbind outcome_bind].
  rewrite u64_id by (unfold in_u64; lia). eexists. split_and!; [done| |done| |cbn; lia|].
  - split; cbn; [done|exists k; split; [lia|done]|done|].
    repeat (constructor; [|]); try constructor; rewrite ?length_replicate;
      try (apply Forall_replicate; done);
      rewrite Z2Nat.id by lia; change 16 with (2 ^ 4); rewrite <- Z.pow_add_r by lia; f_equal; lia.
  - intros r i. unfold ctr. cbn [rows].
    destruct (_ !! Z.to_nat r) as [row|] eqn:E; [|done]. cbn.
    apply list_elem_of_lookup_2 in E. assert (row = replicate (Z.to_nat (2 ^ (k - 4))) 0) as -> by set_solver.
    apply row_ctr_zero.
  - cbn. intros Hlt. assert (4 < k) by (apply (Z.pow_lt_mono_r_iff 2); lia).
    specialize (Hmin ltac:(lia)).
    assert (16 <= 2 ^ (k - 1)) by (change 16 with (2 ^ 4); apply Z.pow_le_mono_r; lia).
    pose proof (Z.pow_succ_r 2 (k - 1) ltac:(lia)) as Es. replace (Z.succ (k - 1)) with k in Es by lia. lia.
Qed.

(** ** Traces *)
Inductive sk_op : Type := Inc (fp : Z) | Halve.

Fixpoint sk_run (s : sketch) (ops : list sk_op) : outcome sketch :=
  match ops with
  | [] => Ret s
  | Inc fp :: ops' => s' ← increment s fp; sk_run s' ops'
  | Halve :: ops' => sk_run (halve s) ops'
  end.

(** One counter that adds one, up to 15, for every access of interest and is halved
    with the sketch. *)
Definition exact_step (hit : Z -> bool) (n : Z) (o : sk_op) : Z :=
  match o with
  | Inc fp => if hit fp then Z.min 15 (n + 1) else n
  | Halve => n / 2
  end.

Lemma step_lower s fp x s' : swf s -> increment s fp = Ret s' ->
  exact_step (Z.eqb x) (est s x) (Inc fp) <= est s' x.
Proof.
  intros W E. destruct (increment_ok s fp W) as (s1 & E1 & _ & Sh & Hc).
  assert (s1 = s') as -> by congruence. cbn.
  assert (forall r, 0 <= r < 4 -> ctr s r (index s x r) <= ctr s' r (index s' x r)) as Hmono.
  { intros r Hr. rewrite (index_same s s') by done. rewrite Hc by auto using index_range.
    destruct (_ && _ && _); lia. }
  destruct (Z.eqb_spec x fp) as [->|].
  - apply est_glb; [lia|]. intros r Hr. rewrite (index_same s s') by done.
    rewrite Hc, Z.eqb_refl by auto using index_range. cbn [andb].
    pose proof (est_le s fp r Hr). pose proof (est_range s fp).
    repeat go_case; cbn [andb]; lia.
  - apply est_glb; [apply est_range|]. intros r Hr. pose proof (est_le s x r Hr).
    specialize (Hmono r Hr). lia.
Qed.

Lemma exact_step_mono hit n n' o : n <= n' -> exact_step hit n o <= exact_step hit n' o.
Proof. destruct o; cbn; [destruct (hit _)|]; intros; [lia..|]. apply Z.div_le_mono; lia. Qed.

Lemma est_attained s x : exists r, 0 <= r < 4 /\ est s x = ctr s r (index s x r).
Proof.
  unfold est. destruct (scan_spec s x row_ids nibbleMax) as (H1 & H2 & [E|(r & Hr & E)]).
  - exists 0. split; [lia|]. pose proof (H2 0 ltac:(by apply elem_of_row_ids)).
    pose proof (ctr_range s 0 (index s x 0)). rewrite E in *. change nibbleMax with 15 in *. lia.
  - exists r. split; [by apply elem_of_row_ids|done].
Qed.

Lemma est_halve s x : swf s -> est (halve s) x = est s x / 2.
Proof.
  intros W. destruct (halve_ok s W) as (_ & Sh & Hc). pose proof (est_range s x).
  assert (forall r, 0 <= r < 4 -> ctr (halve s) r (index (halve s) x r) = ctr s r (index s x r) / 2) as Hr.
  { intros r Hr. rewrite (index_same s (halve s)) by done. apply Hc; [done|by apply index_range]. }
  apply Z.le_antisymm.
  - destruct (est_attained s x) as (r & H4 & ->). rewrite <- Hr by done. by apply est_le.
  - apply est_glb; [apply Z.div_le_upper_bound; lia|]. intros r H4. rewrite Hr by done.
    apply Z.div_le_mono; [lia|]. by apply est_le.
Qed.

(** One row: the counter of [x] goes up only on accesses that share its index. *)
Lemma step_upper s fp x r s' : swf s -> 0 <= r < 4 -> increment s fp = Ret s' ->
  ctr s' r (index s' x r) <=
    exact_step (fun y => index s y r =? index s x r) (ctr s r (index s x r)) (Inc fp).
Proof.
  intros W Hr E. destruct (increment_ok s fp W) as (s1 & E1 & _ & Sh & Hc).
  assert (s1 = s') as -> by congruence. cbn. rewrite (index_same s s') by done.
  rewrite Hc by auto using index_range. pose proof (ctr_range s r (index s x r)).
  rewrite (Z.eqb_sym (index s x r)). destruct (Z.eqb_spec (index s fp r) (index s x r)); cbn [andb];
    [|lia]. repeat go_case; cbn [andb]; lia.
Qed.

Lemma exact_ext h h' ops : (forall y, h y = h' y) -> forall u,
  foldl (exact_step h) u ops = foldl (exact_step h') u ops.
Proof.
  intros Hh. induction ops as [|[fp|] ops IH]; intros u; cbn; [done| |apply IH].
  rewrite Hh. apply IH.
Qed.

Lemma same_shape_trans s s1 s2 : same_shape s s1 -> same_shape s1 s2 -> same_shape s s2.
Proof. intros (?&?&?) (?&?&?). split_and!; congruence. Qed.

Lemma sk_run_bounds ops : forall s x n, swf s -> n <= est s x ->
  exists s', sk_run s ops = Ret s' /\ swf s' /\ same_shape s s' /\
    foldl (exact_step (Z.eqb x)) n ops <= est s' x /\
    forall r u, 0 <= r < 4 -> ctr s r (index s x r) <= u ->
      est s' x <= foldl (exact_step (fun y => index s y r =? index s x r)) u ops.
Proof.
  induction ops as [|[fp|] ops IH]; intros s x n W Hn; cbn [sk_run foldl].
  - exists s. split_and!; [done..|]. intros r u Hr Hu. pose proof (est_le s x r Hr). lia.
  - destruct (increment_ok s fp W) as (s1 & E1 & W1 & Sh1 & _). rewrite E1. cbn [mbind outcome_bind].
    destruct (IH s1 x (exact_step (Z.eqb x) n (Inc fp)) W1) as (s2 & E2 & W2 & Sh2 & Hlo & Hup).
    { etransitivity; [by apply exact_step_mono|]. by apply (step_lower s). }
    exists s2. split_and!; [done|done| |done|].
    { by eapply same_shape_trans. }
    intros r u Hr Hu. etransitivity.
    + apply (Hup r (exact_step (fun y => index s y r =? index s x r) u (Inc fp)) Hr).
      etransitivity; [by apply (step_upper s fp)|]. by apply exact_step_mono.
    + apply Z.eq_le_incl, exact_ext. intros y. by rewrite !(index_same s s1).
  - destruct (halve_ok s W) as (W1 & Sh1 & Hc).
    destruct (IH (halve s) x (n / 2) W1) as (s2 & E2 & W2 & Sh2 & Hlo & Hup).
    { rewrite est_halve by done. apply Z.div_le_mono; lia. }
    exists s2. split_and!; [done|done|by eapply same_shape_trans|done|].
    intros r u Hr Hu. etransitivity.
    + apply (Hup r (u / 2) Hr). rewrite (index_same s (halve s)), Hc by auto using index_range.
      apply Z.div_le_mono; lia.
    + apply Z.eq_le_incl, exact_ext. intros y. by rewrite !(index_same s (halve s)).
Qed.

(** ** Properties *)

(** C30. Count-Min bounds.  Run any sequence of increments and halvings on a fresh
    sketch.  It never panics, and the estimate of a fingerprint lies between an
    exact 4-bit saturating counter of its own accesses, halved with the sketch, and
    the same counter of all accesses that share its slot in any one row: the sketch
    never under-counts, over-counts only on a collision in all four rows, and no
    carry leaks between packed counters. *)
Theorem sketch_bounds width seed ops x :
  width <= 2 ^ 49 ->
  exists s0 s, newSketch width seed = Ret s0 /\ sk_run s0 ops = Ret s /\
    exists e, estimate s x = Ret e /\ 0 <= e <= nibbleMax /\
      foldl (exact_step (Z.eqb x)) 0 ops <= e /\
      forall r, 0 <= r < depth ->
        e <= foldl (exact_step (fun y => index s0 y r =? index s0 x r)) 0 ops.
Proof.
  intros Hw. destruct (newSketch_ok width seed Hw) as (s0 & E0 & W0 & _ & Hz & _).
  destruct (sk_run_bounds ops s0 x 0 W0) as (s & E & W & _ & Hlo & Hup); [apply est_range|].
  exists s0, s. split_and!; [done|done|]. exists (est s x). rewrite estimate_ok by done.
  pose proof (est_range s x). split_and!; [done|lia|change nibbleMax with 15; lia|done|].
  intros r Hr. apply Hup; [exact Hr|]. rewrite Hz. done.
Qed.

(** Conservative update and aging.  On a well-formed sketch [increment] adds
    one to exactly those counters of the fingerprint that sit at its estimate (none
    when it is saturated), [halve] halves every counter independently of its
    neighbours in the word, and both keep the shape of the sketch. *)
Theorem sketch_update_exact s fp :
  swf s ->
  (exists s', increment s fp = Ret s' /\ swf s' /\
    forall r i, 0 <= r < depth -> 0 <= i < wd s -> read s' r i = Ret (ctr s r i +
      (if (i =? index s fp r) && (ctr s r i =? est s fp) && (est s fp <? nibbleMax) then 1 else 0))) /\
  swf (halve s) /\
  (forall r i, 0 <= r < depth -> 0 <= i < wd s -> read (halve s) r i = Ret (ctr s r i / 2)) /\
  (forall r i, 0 <= r < depth -> 0 <= i < wd s -> read s r i = Ret (ctr s r i)) /\
  estimate s fp = Ret (est s fp) /\ estimate (halve s) fp = Ret (est s fp / 2).
Proof.
  intros W. destruct (increment_ok s fp W) as (s' & E & W' & Sh & Hc).
  destruct (halve_ok s W) as (Wh & Shh & Hch). split_and!.
  - exists s'. split_and!; [done..|]. intros r i Hr Hi. destruct Sh as (_ & Hwd & _).
    rewrite read_ok by (done || lia). f_equal. by apply Hc.
  - done.
  - intros r i Hr Hi. rewrite read_ok by done. f_equal. by apply Hch.
  - intros r i Hr Hi. by apply read_ok.
  - by apply estimate_ok.
  - rewrite estimate_ok by done. f_equal. by apply est_halve.
Qed.

(** ** Witnesses *)
Definition demo_ops : list sk_op := [Inc 7; Inc 9; Inc 7; Inc 7; Halve; Inc 7; Inc 9].

Lemma sketch_bounds_witness : exists s0 s, newSketch 16 42 = Ret s0 /\ sk_run s0 demo_ops = Ret s /\
  exists e, estimate s 7 = Ret e /\ 2 <= e.
Proof.
  destruct (sketch_bounds 16 42 demo_ops 7) as (s0 & s & E0 & E & e & Ee & _ & Hlo & _);
    [vm_compute; discriminate|].
  exists s0, s. split; [exact E0|]. split; [exact E|]. exists e. split; [exact Ee|exact Hlo].
Defined.

Definition demo_sketch : sketch :=
  MkSketch (replicate 4 (replicate 1 0x123456789abcdef0)) 15 16 42.

Lemma demo_sketch_swf : swf demo_sketch.
Proof.
  split; [done|exists 4; done|done|]. repeat constructor; vm_compute; done.
Qed.

Lemma sketch_update_exact_witness :
  swf demo_sketch /\ read (halve demo_sketch) 2 3 = Ret 6.
Proof.
  split; [exact demo_sketch_swf|].
  destruct (sketch_update_exact demo_sketch 5 demo_sketch_swf) as (_ & _ & Hh & _).
  rewrite Hh by (vm_compute; done). vm_compute. reflexivity.
Defined.
