(* ===== verification/Doorkeeper.v ===== *)
(** * The doorkeeper ([internal/tinylfu/doorkeeper.go])

    The bloom filter that keeps fingerprints seen once out of the sketch. *)
From S2P Require Import Prelude Sketch SketchSpec.

Definition doorkeeperBitsPerEntry : Z := 6.
Definition doorkeeperK : Z := 4.

Record doorkeeper : Type := MkDoor {
  bits : list Z;
  dk_mask : Z;
  dk_seed : Z;
}.

Definition newDoorkeeper (entries seed : Z) : outcome doorkeeper :=
  let entries := if entries <? 0 then 0 else entries in
  let numBits := nextPow2_u64 (u64 (i64 (doorkeeperBitsPerEntry * entries))) in
  let numBits := if numBits <? 64 then 64 else numBits in
  bs ← make_slice 8 0 (Z.quot numBits 64);
  Ret (MkDoor bs (u64 (numBits - 1)) seed).

Definition with_bits (d : doorkeeper) (bs : list Z) : doorkeeper :=
  MkDoor bs (dk_mask d) (dk_seed d).

(** The loop of [putOrHas]: [(h1 + uint64(i)*h2) & d.mask], tested and set. *)
Fixpoint put_loop (d : doorkeeper) (h1 h2 : Z) (ix : list Z) (seen : bool)
  : outcome (doorkeeper * bool) :=
  match ix with
  | [] => Ret (d, seen)
  | i :: ix' =>
      let bit := Z.land (u64 (h1 + u64 (i * h2))) (dk_mask d) in
      let word := Z.shiftr bit 6 in
      let b := u64 (Z.shiftl 1 (Z.land bit 63)) in
      w ← aget (bits d) word;
      if Z.land w b =? 0 then
        bs ← aset (bits d) word (Z.lor w b);
        put_loop (with_bits d bs) h1 h2 ix' false
      else put_loop d h1 h2 ix' seen
  end.

Definition putOrHas (d : doorkeeper) (fp : Z) : outcome (doorkeeper * bool) :=
  let h1 := Z.lxor fp (dk_seed d) in
  let h2 := Z.lor (mix fp) 1 in
  put_loop d h1 h2 (seqZ 0 doorkeeperK) true.

Definition dk_reset (d : doorkeeper) : doorkeeper := with_bits d ((fun _ => 0) <$> bits d).

(** ** The set of bits *)
Record dwf (d : doorkeeper) : Prop := {
  dwf_mask : exists k, 6 <= k <= 54 /\ dk_mask d = 2 ^ k - 1 /\ Z.of_nat (length (bits d)) * 64 = 2 ^ k;
  dwf_words : Forall in_u64 (bits d);
}.

Definition has (d : doorkeeper) (p : Z) : bool :=
  Z.testbit (default 0 (bits d !! Z.to_nat (p / 64))) (p mod 64).

(** The bit positions of a fingerprint. *)
Definition pos (d : doorkeeper) (h1 h2 i : Z) : Z := Z.land (u64 (h1 + u64 (i * h2))) (dk_mask d).

Definition positions (d : doorkeeper) (fp : Z) : list Z :=
  pos d (Z.lxor fp (dk_seed d)) (Z.lor (mix fp) 1) <$> seqZ 0 doorkeeperK.

Definition same_door (d d' : doorkeeper) : Prop :=
  dk_mask d' = dk_mask d /\ dk_seed d' = dk_seed d.

Lemma positions_same d d' fp : same_door d d' -> positions d' fp = positions d fp.
Proof. intros [Hm Hs]. unfold positions, pos. by rewrite Hm, Hs. Qed.

Lemma pos_range d h1 h2 i : dwf d ->
  0 <= pos d h1 h2 i / 64 < Z.of_nat (length (bits d)) /\ 0 <= pos d h1 h2 i mod 64 < 64 /\
  0 <= pos d h1 h2 i.
Proof.
  intros [(k & Hk & Hm & Hl) _]. unfold pos. rewrite Hm, land_pow2 by lia.
  set (x := _ mod 2 ^ k). assert (0 <= x < 2 ^ k) by (apply Z.mod_pos_bound, pow2_pos; lia).
  pose proof (Z.mod_pos_bound x 64). pose proof (Z.div_pos x 64).
  pose proof (Z.div_lt_upper_bound x 64 (Z.of_nat (length (bits d)))). lia.
Qed.

Lemma bit_test w p : 0 <= p -> (Z.land w (2 ^ p) =? 0) = negb (Z.testbit w p).
Proof.
  intros Hp. destruct (Z.eqb_spec (Z.land w (2 ^ p)) 0) as [E|E].
  - apply (f_equal (fun z => Z.testbit z p)) in E. rewrite Z.land_spec, Z.pow2_bits_true, Z.bits_0 in E by lia.
    rewrite andb_true_r in E. by rewrite E.
  - destruct (Z.testbit w p) eqn:Eb; [done|]. exfalso. apply E. apply Z.bits_inj'. intros n Hn.
    rewrite Z.land_spec, Z.bits_0. destruct (Z.eq_dec n p) as [->|]; [by rewrite Eb|].
    rewrite Z.pow2_bits_false by lia. apply andb_false_r.
Qed.

Lemma lor_u64 a b : in_u64 a -> in_u64 b -> in_u64 (Z.lor a b).
Proof.
  intros [Ha Ha'] [Hb Hb']. split; [by apply Z.lor_nonneg|].
  destruct (Z.eq_dec (Z.lor a b) 0) as [->|]; [done|].
  apply Z.log2_lt_pow2; [pose proof (proj2 (Z.lor_nonneg a b) (conj Ha Hb)); lia|].
  rewrite Z.log2_lor by done. apply Z.max_lub_lt.
  - destruct (Z.eq_dec a 0) as [->|]; [done|]. apply Z.log2_lt_pow2; lia.
  - destruct (Z.eq_dec b 0) as [->|]; [done|]. apply Z.log2_lt_pow2; lia.
Qed.

(** Setting the bit [p] of a filter. *)
Lemma has_set d p q w : 0 <= p -> 0 <= q -> bits d !! Z.to_nat (p / 64) = Some w ->
  has (with_bits d (<[Z.to_nat (p / 64) := Z.lor w (2 ^ (p mod 64))]> (bits d))) q =
    has d q || (q =? p).
Proof.
  intros Hp Hq Ew. unfold has. cbn. pose proof (lookup_lt_Some _ _ _ Ew).
  pose proof (Z.div_pos p 64). pose proof (Z.div_pos q 64).
  pose proof (Z.mod_pos_bound p 64). pose proof (Z.mod_pos_bound q 64).
  pose proof (Z.div_mod p 64). pose proof (Z.div_mod q 64).
  destruct (Z.eqb_spec (q / 64) (p / 64)) as [E|E].
  - rewrite E, list_lookup_insert_eq, Ew by lia. cbn. rewrite Z.lor_spec. f_equal.
    destruct (Z.eqb_spec q p) as [->|]; [apply Z.pow2_bits_true; lia|].
    apply Z.pow2_bits_false. lia.
  - rewrite list_lookup_insert_ne by lia. destruct (Z.eqb_spec q p); [subst; lia|].
    by rewrite orb_false_r.
Qed.

Lemma put_loop_ok h1 h2 ix : forall d seen, dwf d ->
  exists d', put_loop d h1 h2 ix seen =
      Ret (d', seen && forallb (fun i => has d (pos d h1 h2 i)) ix) /\
    dwf d' /\ same_door d d' /\
    forall q, 0 <= q -> has d' q = has d q || existsb (fun i => q =? pos d h1 h2 i) ix.
Proof.
  induction ix as [|i ix IH]; intros d seen W; cbn [put_loop forallb existsb].
  { exists d. split_and!; try done; [by rewrite andb_true_r|]. intros. by rewrite orb_false_r. }
  fold (pos d h1 h2 i). set (p := pos d h1 h2 i).
  destruct (pos_range d h1 h2 i W) as (Hw & Hb & Hp). fold p in Hw, Hb, Hp.
  rewrite Z.shiftr_div_pow2 by lia. change (2 ^ 6) with 64. change 63 with (2 ^ 6 - 1).
  rewrite land_pow2 by lia. change (2 ^ 6) with 64. rewrite Z.shiftl_1_l.
  assert (in_u64 (2 ^ (p mod 64))) as Hbit.
  { split; [pose proof (pow2_pos (p mod 64)); lia|]. apply Z.pow_lt_mono_r; lia. }
  rewrite u64_id by done. destruct (aget_is_ret (bits d) (p / 64) Hw) as (w & -> & Ew).
  cbn [mbind outcome_bind]. rewrite bit_test by lia.
  assert (has d p = Z.testbit w (p mod 64)) as Hhas by (unfold has; by rewrite Ew).
  rewrite <- Hhas. destruct (has d p) eqn:Ep; cbn [negb].
  - destruct (IH d seen W) as (d' & -> & W' & Sd & Hq). exists d'. split_and!; [done..|].
    intros q Hq0. rewrite Hq by done. destruct (Z.eqb_spec q p) as [->|]; cbn; [|done].
    by rewrite Ep.
  - rewrite aset_ret by done. cbn [mbind outcome_bind].
    set (d1 := with_bits d (<[Z.to_nat (p / 64) := Z.lor w (2 ^ (p mod 64))]> (bits d))).
    assert (dwf d1) as W1.
    { destruct W as [Hm Hf]. split; cbn; [by rewrite length_insert|].
      apply Forall_insert; [done|]. apply lor_u64; [|done]. by eapply Forall_lookup_1. }
    destruct (IH d1 false W1) as (d' & -> & W' & Sd & Hq). exists d'.
    cbn [andb]. rewrite andb_false_r. split_and!; [done..|]. intros q Hq0.
    rewrite Hq by done. unfold d1 at 1. rewrite has_set by done. by rewrite orb_assoc.
Qed.

(** [putOrHas] reports whether all positions were set, and sets them. *)
Lemma putOrHas_ok d fp : dwf d ->
  exists d', putOrHas d fp = Ret (d', forallb (has d) (positions d fp)) /\
    dwf d' /\ same_door d d' /\
    forall q, 0 <= q -> has d' q = has d q || existsb (Z.eqb q) (positions d fp).
Proof.
  intros W. unfold putOrHas, positions.
  destruct (put_loop_ok (Z.lxor fp (dk_seed d)) (Z.lor (mix fp) 1) (seqZ 0 doorkeeperK) d true W)
    as (d' & -> & W' & Sd & Hq).
  by exists d'.
Qed.

Lemma positions_range d fp p : dwf d -> p ∈ positions d fp -> 0 <= p.
Proof.
  intros W (i & -> & _)%list_elem_of_fmap.
  by destruct (pos_range d (Z.lxor fp (dk_seed d)) (Z.lor (mix fp) 1) i W) as (_ & _ & ?).
Qed.

Lemma reset_ok d : dwf d -> dwf (dk_reset d) /\ same_door d (dk_reset d) /\
  forall q, has (dk_reset d) q = false.
Proof.
  intros [Hm Hf]. split_and!; [|done..|].
  - split; cbn; [by rewrite length_fmap|]. apply Forall_fmap. by eapply Forall_impl.
  - intros q. unfold has. cbn. rewrite list_lookup_fmap. destruct (bits d !! _); cbn; apply Z.bits_0.
Qed.

Lemma newDoorkeeper_ok entries seed : entries <= 2 ^ 48 ->
  exists d, newDoorkeeper entries seed = Ret d /\ dwf d /\ dk_seed d = seed /\
    (forall q, has d q = false) /\ 6 * entries <= dk_mask d + 1.
Proof.
  intros He. unfold newDoorkeeper, doorkeeperBitsPerEntry.
  set (x := if entries <? 0 then 0 else entries).
  assert (x = Z.max 0 entries) as -> by (unfold x; go_case; lia).
  rewrite i64_id, (u64_id (6 * Z.max 0 entries)) by (unfold in_i64, in_u64; lia).
  assert (exists k, 6 <= k <= 51 /\ 6 * entries <= 2 ^ k /\
    (if nextPow2_u64 (6 * Z.max 0 entries) <? 64 then 64 else nextPow2_u64 (6 * Z.max 0 entries)) = 2 ^ k)
    as (k & Hk & Hle & ->).
  { destruct (Z.le_gt_cases entries 0).
    { rewrite Z.max_l by lia. exists 6. split_and!; [lia..|done]. }
    rewrite Z.max_r by lia.
    destruct (nextPow2_u64_spec (6 * entries)) as (k & Hk & -> & Hle & Hmin); [lia|].
    destruct (Z.ltb_spec (2 ^ k) 64); [exists 6; split_and!; [lia..|done]|].
    exists k. split_and!; [| |done|done].
    - apply (Z.pow_le_mono_r_iff 2); lia.
    - destruct (Z.le_gt_cases k 51); [done|]. pose proof (Z.pow_le_mono_r 2 51 (k - 1)). lia. }
  assert (2 ^ 6 <= 2 ^ k <= 2 ^ 51) by (split; apply Z.pow_le_mono_r; lia).
  rewrite Z.quot_div_nonneg by lia. change 64 with (2 ^ 6) at 1. rewrite <- Z.pow_sub_r by lia.
  assert (0 < 2 ^ (k - 6) <= 2 ^ 45) by (split; [apply pow2_pos; lia|apply Z.pow_le_mono_r; lia]).
  rewrite make_slice_ret by (unfold maxAlloc; lia). cbn [mbind outcome_bind].
  rewrite u64_id by (unfold in_u64; lia). eexists. split_and!; [done| |done| |cbn; lia].
  - split; cbn; [|by apply Forall_replicate].
    exists k. rewrite length_replicate, Z2Nat.id by lia. change 64 with (2 ^ 6).
    rewrite <- Z.pow_add_r by lia. split_and!; [lia..|done|f_equal; lia].
  - intros q. unfold has. cbn [bits]. destruct (replicate _ _ !! _) as [w|] eqn:E; cbn; [|apply Z.bits_0].
    apply lookup_replicate in E as [-> _]. apply Z.bits_0.
Qed.

(** ** Sequences of sightings *)
Fixpoint put_all (d : doorkeeper) (l : list Z) : outcome (doorkeeper * list bool) :=
  match l with
  | [] => Ret (d, [])
  | fp :: l' =>
      r ← putOrHas d fp;
      rest ← put_all (fst r) l';
      Ret (fst rest, snd r :: snd rest)
  end.

(** A position is covered by the filter or by a fingerprint put since. *)
Definition covered (d : doorkeeper) (l : list Z) (p : Z) : bool :=
  has d p || existsb (fun fp => existsb (Z.eqb p) (positions d fp)) l.

Lemma covered_put d d' fp l p : dwf d -> same_door d d' -> 0 <= p ->
  (forall q, 0 <= q -> has d' q = has d q || existsb (Z.eqb q) (positions d fp)) ->
  covered d' l p = covered d (fp :: l) p.
Proof.
  intros W Sd Hp Hq. unfold covered. cbn [existsb]. rewrite Hq, orb_assoc by done. f_equal.
  induction l as [|x l IH]; [done|]. cbn. by rewrite (positions_same d d'), IH.
Qed.

Lemma forallb_ext_in {A} (f g : A -> bool) l : (forall x, x ∈ l -> f x = g x) -> forallb f l = forallb g l.
Proof.
  induction l as [|x l IH]; intros Hl; [done|]. cbn. rewrite Hl, IH by set_solver. done.
Qed.

Lemma put_all_ok l : forall d, dwf d ->
  exists d' flags, put_all d l = Ret (d', flags) /\ dwf d' /\ same_door d d' /\
    length flags = length l /\
    forall i fp, l !! i = Some fp ->
      flags !! i = Some (forallb (covered d (take i l)) (positions d fp)).
Proof.
  induction l as [|x l IH]; intros d W; cbn [put_all]; [by exists d, []|].
  destruct (putOrHas_ok d x W) as (d1 & -> & W1 & S1 & Hq). cbn [mbind outcome_bind fst snd].
  destruct (IH d1 W1) as (d2 & flags & -> & W2 & S2 & Hl & Hf). cbn [mbind outcome_bind fst snd].
  eexists d2, _. split_and!; [done|done| |cbn; lia|].
  { destruct S1, S2. split; congruence. }
  intros [|i] fp Hi.
  - cbn in Hi |- *. simplify_eq. f_equal. apply forallb_ext_in. intros p _. unfold covered. cbn. by rewrite orb_false_r.
  - transitivity (flags !! i); [done|]. rewrite (Hf i fp Hi), (positions_same d d1) by done. f_equal.
    apply forallb_ext_in. intros p Hp. apply covered_put; try done. by apply (positions_range d fp).
Qed.

(** A fingerprint already put is covered. *)
Lemma covered_member d l fp : fp ∈ l -> forallb (covered d l) (positions d fp) = true.
Proof.
  intros Hin. apply forallb_forall. intros p Hp. unfold covered. apply orb_true_iff. right.
  apply existsb_exists. exists fp. split; [by apply list_elem_of_In|].
  apply existsb_exists. exists p. split; [done|apply Z.eqb_refl].
Qed.

(** C35. The doorkeeper.  Feed any sequence of fingerprints to a fresh filter, or to
    one that was just reset.  [putOrHas] never panics; a fingerprint that already
    occurred is always reported as seen (no false negative); a fingerprint is
    reported as seen only when each of its bits was set by earlier ones, so the
    first one ever is not; [reset] forgets everything. *)
Theorem doorkeeper_no_false_negatives entries seed before l :
  entries <= 2 ^ 48 ->
  exists d0 d1 fl1, newDoorkeeper entries seed = Ret d0 /\ put_all d0 before = Ret (d1, fl1) /\
  forall d, d = d0 \/ d = dk_reset d1 ->
    exists d' flags, put_all d l = Ret (d', flags) /\ length flags = length l /\
    forall i fp, l !! i = Some fp ->
      (fp ∈ take i l -> flags !! i = Some true) /\
      (flags !! i = Some true -> forall p, p ∈ positions d fp ->
         exists fp', fp' ∈ take i l /\ p ∈ positions d fp').
Proof.
  intros He. destruct (newDoorkeeper_ok entries seed He) as (d0 & E0 & W0 & _ & Hz & _).
  destruct (put_all_ok before d0 W0) as (d1 & fl1 & E1 & W1 & _). exists d0, d1, fl1.
  split_and!; [done..|]. destruct (reset_ok d1 W1) as (Wr & _ & Hzr).
  assert (forall d, d = d0 \/ d = dk_reset d1 -> dwf d /\ forall q, has d q = false) as Hd
    by (intros d [->| ->]; auto).
  intros d [W Hzd]%Hd. destruct (put_all_ok l d W) as (d' & flags & E & _ & _ & Hl & Hf).
  exists d', flags. split_and!; [done..|]. intros i fp Hi. rewrite (Hf i fp Hi). split.
  - intros Hin. f_equal. by apply covered_member.
  - intros Ht%(inj Some) p Hp. rewrite forallb_forall in Ht.
    specialize (Ht p (proj1 (list_elem_of_In _ _) Hp)). unfold covered in Ht. rewrite Hzd in Ht.
    apply existsb_exists in Ht as (fp' & Hin%list_elem_of_In & (p' & Hp' & ->%Z.eqb_eq)%existsb_exists).
    exists fp'. split; [done|]. by apply list_elem_of_In.
Qed.

Lemma doorkeeper_no_false_negatives_witness :
  exists d0 d1 fl1, newDoorkeeper 10 3 = Ret d0 /\ put_all d0 [1; 2] = Ret (d1, fl1) /\
  exists d' flags, put_all (dk_reset d1) [7; 8; 7] = Ret (d', flags) /\ flags !! 2%nat = Some true.
Proof.
  destruct (doorkeeper_no_false_negatives 10 3 [1; 2] [7; 8; 7]) as (d0 & d1 & fl1 & E0 & E1 & Hd);
    [vm_compute; discriminate|].
  exists d0, d1, fl1. split; [exact E0|]. split; [exact E1|].
  destruct (Hd (dk_reset d1) (or_intror eq_refl)) as (d' & flags & E & _ & Hf).
  exists d', flags. split; [exact E|]. apply (Hf 2%nat 7 eq_refl). cbn. set_solver.
Defined.
