(* ===== verification/Buffer.v ===== *)
(** * The access buffer ([internal/tinylfu/buffer.go])

    Striped, bounded and lossy.  [push] runs under [TryLock]: whether the stripe's
    mutex was free is an argument, since the other goroutines decide it; with the
    mutex held the body is one step.  [drainInto] empties one stripe after the
    other, each under its lock. *)
From S2P Require Import Prelude Sketch SketchSpec.

Record accessBuffer : Type := MkBuf {
  stripes : list (list Z);
  buf_mask : Z;
  buf_depth : Z;
}.

(** Bytes of one [stripe]: the mutex (8) and the slice header (24). *)
Definition stripeSize : Z := 32.

(** [b.stripes[i].buf = make([]uint64, 0, depth)] for every stripe. *)
Fixpoint make_bufs (depth : Z) (ss : list (list Z)) : outcome (list (list Z)) :=
  match ss with
  | [] => Ret []
  | _ :: ss' => _ ← make_cap 8 depth; ss1 ← make_bufs depth ss'; Ret ([] :: ss1)
  end.

Definition newAccessBuffer (n depth : Z) : outcome accessBuffer :=
  let count := nextPow2_u64 (u64 n) in
  let depth := if depth <? 1 then 1 else depth in
  ss ← make_slice stripeSize [] count;
  ss ← make_bufs depth ss;
  Ret (MkBuf ss (u64 (count - 1)) depth).

Definition with_stripes (b : accessBuffer) (ss : list (list Z)) : accessBuffer :=
  MkBuf ss (buf_mask b) (buf_depth b).

Definition push (b : accessBuffer) (fp : Z) (free : bool) : outcome (accessBuffer * bool) :=
  let i := Z.land fp (buf_mask b) in
  s ← aget (stripes b) i;
  if negb free then Ret (b, false)
  else if buf_depth b <=? Z.of_nat (length s) then Ret (b, false)
  else
    let s' := s ++ [fp] in
    ss ← aset (stripes b) i s';
    Ret (with_stripes b ss, buf_depth b <=? Z.of_nat (length s')).

Section Drain.
Context {A : Type}.
Variable fn : A -> Z -> outcome A.

(** [for _, fp := range scratch { fn(fp) }] *)
Fixpoint each (l : list Z) (a : A) : outcome A :=
  match l with
  | [] => Ret a
  | fp :: l' => a' ← fn a fp; each l' a'
  end.

(** The loop over the stripes: the emptied stripes, the scratch and the state of
    [fn]. *)
Fixpoint drain_stripes (ss : list (list Z)) (scratch : list Z) (a : A)
  : outcome (list (list Z) * list Z * A) :=
  match ss with
  | [] => Ret ([], scratch, a)
  | s :: ss' =>
      if bool_decide (length s = 0%nat) then
        r ← drain_stripes ss' scratch a;
        let '(ss1, scratch1, a1) := r in Ret (s :: ss1, scratch1, a1)
      else
        a' ← each s a;
        r ← drain_stripes ss' s a';
        let '(ss1, scratch1, a1) := r in Ret ([] :: ss1, scratch1, a1)
  end.

Definition drainInto (b : accessBuffer) (scratch : list Z) (a : A)
  : outcome (accessBuffer * list Z * A) :=
  r ← drain_stripes (stripes b) scratch a;
  let '(ss, scratch', a') := r in Ret (with_stripes b ss, scratch', a').
End Drain.

(** ** Invariant *)

(** A power-of-two number of stripes, each within the depth and holding only
    fingerprints routed to it. *)
Record bwf (b : accessBuffer) : Prop := {
  bwf_mask : exists k, 0 <= k <= 48 /\ buf_mask b = 2 ^ k - 1 /\ Z.of_nat (length (stripes b)) = 2 ^ k;
  bwf_depth : 1 <= buf_depth b;
  bwf_stripe : forall i s, stripes b !! i = Some s ->
    Z.of_nat (length s) <= buf_depth b /\ Forall (fun fp => Z.land fp (buf_mask b) = Z.of_nat i) s;
}.

Lemma make_bufs_ok depth ss : 0 <= depth <= 2 ^ 45 -> make_bufs depth ss = Ret (replicate (length ss) []).
Proof.
  intros Hd. induction ss as [|s ss IH]; [done|]. cbn [make_bufs].
  rewrite make_cap_ret by (unfold maxAlloc; lia). cbn [mbind outcome_bind]. by rewrite IH.
Qed.

Lemma newAccessBuffer_ok n depth : 1 <= n <= 2 ^ 43 -> depth <= 2 ^ 45 ->
  exists b, newAccessBuffer n depth = Ret b /\ bwf b /\ buf_depth b = Z.max 1 depth /\
    n <= Z.of_nat (length (stripes b)) /\ forall s, s ∈ stripes b -> s = [].
Proof.
  intros Hn Hd. unfold newAccessBuffer. rewrite (u64_id n) by (unfold in_u64; lia).
  destruct (nextPow2_u64_spec n) as (k & Hk & -> & Hle & Hmin); [lia|].
  assert (k <= 43).
  { destruct (Z.le_gt_cases k 43); [done|]. pose proof (Z.pow_le_mono_r 2 43 (k - 1)). lia. }
  assert (2 ^ 0 <= 2 ^ k <= 2 ^ 43) by (split; apply Z.pow_le_mono_r; lia).
  rewrite make_slice_ret by (unfold maxAlloc, stripeSize; lia). cbn [mbind outcome_bind].
  rewrite make_bufs_ok, length_replicate by (go_case; lia). cbn [mbind outcome_bind].
  rewrite u64_id by (unfold in_u64; lia). eexists.
  split_and!; [done| |cbn; go_case; lia|cbn; rewrite length_replicate; lia|].
  - split; cbn.
    + exists k. rewrite length_replicate. split_and!; lia.
    + go_case; lia.
    + intros i s [-> _]%lookup_replicate. split; [cbn; go_case; lia|constructor].
  - cbn. by intros s [-> _]%elem_of_replicate.
Qed.

(** The stripe of a fingerprint. *)
Lemma route_stripe b fp : bwf b -> exists i s, Z.land fp (buf_mask b) = Z.of_nat i /\
  stripes b !! i = Some s /\ aget (stripes b) (Z.land fp (buf_mask b)) = Ret s.
Proof.
  intros [(k & Hk & Hm & Hl) _ _].
  assert (0 <= Z.land fp (buf_mask b) < Z.of_nat (length (stripes b))) as Hr.
  { rewrite Hm, land_pow2, Hl by lia. apply Z.mod_pos_bound, pow2_pos. lia. }
  destruct (aget_is_ret _ _ Hr) as (s & Hg & Hs).
  exists (Z.to_nat (Z.land fp (buf_mask b))), s. split_and!; [lia|done|done].
Qed.

(** [push] appends to the stripe of the fingerprint, unless the stripe is contended
    or full; it reports true exactly when this push filled the stripe. *)
Lemma push_ok b fp free : bwf b ->
  exists b' full i s, push b fp free = Ret (b', full) /\ bwf b' /\ buf_mask b' = buf_mask b /\
    buf_depth b' = buf_depth b /\ Z.land fp (buf_mask b) = Z.of_nat i /\ stripes b !! i = Some s /\
    stripes b' = (if free && (Z.of_nat (length s) <? buf_depth b)
                  then <[i := s ++ [fp]]> (stripes b) else stripes b) /\
    full = free && (Z.of_nat (length s) + 1 =? buf_depth b).
Proof.
  intros W. destruct (route_stripe b fp W) as (i & s & Hi & Hs & Hg).
  destruct (bwf_stripe b W i s Hs) as [Hlen Hroute].
  unfold push. rewrite Hg. cbn [mbind outcome_bind]. destruct free; cbn [negb andb].
  2:{ exists b, false, i, s. by split_and!. }
  destruct (Z.leb_spec (buf_depth b) (Z.of_nat (length s))).
  { exists b, false, i, s. split_and!; try done; go_case; try done; lia. }
  rewrite Hi, aset_ret, Nat2Z.id by (apply lookup_lt_Some in Hs; lia). cbn [mbind outcome_bind].
  eexists _, _, i, s. split_and!; try done.
  - destruct W as [Hm Hd Hst]. split; cbn; [by rewrite length_insert|done|].
    intros j x [(-> & <- & _)|(_ & Hx)]%list_lookup_insert_Some; [|by apply Hst].
    rewrite length_app. cbn. split; [lia|]. apply Forall_app. split; [done|]. by constructor.
  - by replace (Z.of_nat (length s) <? buf_depth b) with true by lia.
  - rewrite length_app. cbn. repeat go_case; lia || done.
Qed.

(** ** Draining *)
Lemma drain_stripes_ok {A} (fn : A -> Z -> outcome A) ss : forall scratch a,
  exists scratch', drain_stripes fn ss scratch a =
    (a' ← each fn (mjoin ss) a; Ret (replicate (length ss) [], scratch', a')).
Proof.
  induction ss as [|s ss IH]; intros scratch a; cbn [drain_stripes mjoin list_join]; [by exists scratch|].
  destruct (bool_decide_reflect (length s = 0%nat)) as [->%nil_length_inv|_].
  - destruct (IH scratch a) as [sc ->]. exists sc. cbn. by destruct (each fn (mjoin ss) a).
  - assert (forall l1 l2 a, each fn (l1 ++ l2) a = (a' ← each fn l1 a; each fn l2 a')) as Happ.
    { clear. induction l1 as [|x l1 IH]; intros l2 a; [done|]. cbn. destruct (fn a x); [apply IH|done..]. }
    rewrite Happ. destruct (each fn s a) as [a'| |]; cbn [mbind outcome_bind]; [|by exists []..].
    destruct (IH s a') as [sc ->]. exists sc. by destruct (each fn (mjoin ss) a').
Qed.

Lemma drainInto_ok {A} (fn : A -> Z -> outcome A) b scratch a a' : bwf b ->
  each fn (mjoin (stripes b)) a = Ret a' ->
  exists b' scratch', drainInto fn b scratch a = Ret (b', scratch', a') /\ bwf b' /\
    mjoin (stripes b') = [] /\ buf_mask b' = buf_mask b /\ buf_depth b' = buf_depth b.
Proof.
  intros [Hm Hd Hst] E. unfold drainInto.
  destruct (drain_stripes_ok fn (stripes b) scratch a) as [sc ->]. rewrite E. cbn.
  eexists _, sc. split_and!; [done| | |done|done].
  - split; cbn; [by rewrite length_replicate|done|].
    intros i s [-> _]%lookup_replicate. split; [cbn; lia|constructor].
  - cbn [stripes with_stripes]. clear. induction (length (stripes b)) as [|n IH]; [done|exact IH].
Qed.

(** ** A sequence of pushes *)
Fixpoint push_all (b : accessBuffer) (l : list (Z * bool)) : outcome accessBuffer :=
  match l with
  | [] => Ret b
  | (fp, free) :: l' => r ← push b fp free; push_all (fst r) l'
  end.

(** The fingerprints of stripe [i] whose push found the mutex free. *)
Definition arrivals (mask : Z) (i : nat) (l : list (Z * bool)) : list Z :=
  omap (fun '(fp, free) => if (free : bool) && (Z.land fp mask =? Z.of_nat i) then Some fp else None) l.

Lemma push_all_ok l : forall b, bwf b ->
  exists b', push_all b l = Ret b' /\ bwf b' /\ length (stripes b') = length (stripes b) /\
    forall i s, stripes b !! i = Some s ->
      stripes b' !! i = Some (take (Z.to_nat (buf_depth b)) (s ++ arrivals (buf_mask b) i l)).
Proof.
  induction l as [|[fp free] l IH]; intros b W; cbn [push_all].
  { exists b. split_and!; [done..|]. intros i s Hs. cbn. rewrite app_nil_r.
    destruct (bwf_stripe b W i s Hs) as [Hl _]. by rewrite take_ge by lia. }
  destruct (push_ok b fp free W) as (b1 & full & j & s & -> & W1 & Hm & Hd & Hj & Hs & Hst & _).
  cbn [mbind outcome_bind fst]. destruct (IH b1 W1) as (b' & -> & W' & Hlen & Hb').
  exists b'. split_and!; [done|done| |].
  { rewrite Hlen, Hst. by destruct (_ && _); rewrite ?length_insert. }
  pose proof (lookup_lt_Some _ _ _ Hs) as Hlt. rewrite Hm, Hd in Hb'.
  intros i x Hx. destruct (bwf_stripe b W i x Hx) as [Hxl _]. unfold arrivals. cbn [omap list_omap].
  fold (arrivals (buf_mask b) i l). rewrite Hj.
  destruct (decide (i = j)) as [->|Hne].
  - rewrite Z.eqb_refl, andb_true_r. assert (x = s) as -> by congruence.
    destruct free; cbn [andb] in *; [|apply Hb'; by rewrite Hst].
    destruct (Z.ltb_spec (Z.of_nat (length s)) (buf_depth b)).
    + rewrite (Hb' j (s ++ [fp])) by (by rewrite Hst, list_lookup_insert_eq). by rewrite <- app_assoc.
    + rewrite (Hb' j s) by by rewrite Hst. f_equal. rewrite !take_app_le by lia. done.
  - replace (Z.of_nat j =? Z.of_nat i) with false by lia. rewrite andb_false_r.
    apply Hb'. rewrite Hst. destruct (_ && _); [|done]. by rewrite list_lookup_insert_ne.
Qed.

(** C36. The access buffer.  After any sequence of pushes with any pattern of lock
    contention on a fresh buffer, stripe [i] holds exactly the first [depth]
    fingerprints routed to it whose push found the mutex free, in order: samples are
    dropped only on contention or fullness, none is duplicated or reordered.  A
    drain feeds precisely those fingerprints to its callback, stripe by stripe, and
    leaves every stripe empty. *)
Theorem buffer_lossy_fifo n depth l {A} (fn : A -> Z -> outcome A) scratch a :
  1 <= n <= 2 ^ 43 -> depth <= 2 ^ 45 ->
  exists b0 b, newAccessBuffer n depth = Ret b0 /\ push_all b0 l = Ret b /\
    (forall i, (i < length (stripes b))%nat ->
       stripes b !! i = Some (take (Z.to_nat (Z.max 1 depth)) (arrivals (buf_mask b0) i l))) /\
    forall a', each fn (mjoin (stripes b)) a = Ret a' ->
      exists b' scratch', drainInto fn b scratch a = Ret (b', scratch', a') /\
        forall s, s ∈ stripes b' -> s = [].
Proof.
  intros Hn Hdep. destruct (newAccessBuffer_ok n depth Hn Hdep) as (b0 & E0 & W0 & Hd & _ & Hem).
  destruct (push_all_ok l b0 W0) as (b & E & W & Hlen & Hst). exists b0, b. split_and!; [done..| |].
  - intros i Hi. destruct (lookup_lt_is_Some_2 (stripes b0) i) as [s Hs]; [lia|].
    rewrite (Hst i s Hs), Hd. by rewrite (Hem s) by by eapply list_elem_of_lookup_2.
  - intros a' Ea. destruct (drainInto_ok fn b scratch a a' W Ea) as (b' & sc & Ed & _ & Hj & _).
    exists b', sc. split; [done|]. intros s Hs. destruct s as [|x s]; [done|].
    exfalso. assert (x ∈ mjoin (stripes b')) as Hx.
    { apply list_elem_of_join. exists (x :: s). split; [set_solver|done]. }
    rewrite Hj in Hx. set_solver.
Qed.

Definition count_fn (n : Z) (_ : Z) : outcome Z := Ret (n + 1).

Lemma buffer_lossy_fifo_witness : exists b0 b b' scratch',
  newAccessBuffer 2 2 = Ret b0 /\
  push_all b0 [(4, true); (1, true); (6, false); (8, true); (10, true)] = Ret b /\
  drainInto count_fn b [] 0 = Ret (b', scratch', 3).
Proof.
  destruct (buffer_lossy_fifo 2 2 [(4, true); (1, true); (6, false); (8, true); (10, true)]
    count_fn [] 0) as (b0 & b & E0 & E & _ & Hd); [lia|lia|].
  assert (b = MkBuf [[4; 8]; [1]] 1 2) as Hb.
  { vm_compute in E0. injection E0 as <-. vm_compute in E. injection E as <-. reflexivity. }
  destruct (Hd 3) as (b' & sc & Ed & _); [rewrite Hb; vm_compute; reflexivity|].
  exists b0, b, b', sc. split; [exact E0|]. split; [exact E|exact Ed].
Defined.
