(* ===== verification/Policy.v ===== *)
(** * The frequency policy ([internal/tinylfu/policy.go])

    Sketch, doorkeeper and access buffer behind one facade, with the drainer
    goroutine as the only writer of the first two.  The [wake] channel of capacity
    one is a flag, the [done] channel a flag that is set once, and the drainer is
    running or has exited.  [drainOnce] is one step: its pushes into the sketch and
    the doorkeeper are visible to no other writer; a [Record] that interleaves with it
    is taken before or after it.  [Resize] is two steps, one store per pointer; a store
    in the middle of a drain discards what the drain wrote to the old target, as a
    store right after the drain does. *)
From S2P Require Import Prelude Sketch SketchSpec Doorkeeper Buffer.

Definition defaultRingDepth : Z := 128.
Definition agingFactor : Z := 1.

Record PolicyConfig : Type := MkPolicyConfig {
  Counters : Z;
  Stripes : Z;
  RingDepth : Z;
  cfgSeed : Z;
}.

Inductive drainer : Type := Running | Exited.

Record Policy : Type := MkPolicy {
  buf : accessBuffer;
  active : bool;
  sk : sketch;
  dk : doorkeeper;
  p_seed : Z;
  incrs : Z;
  wake : bool;
  done_ : bool;
  drain_state : drainer;
  scratch : list Z;
}.

(** [New]; [gomaxprocs] is [runtime.GOMAXPROCS(0)]. *)
Definition NewPolicy (gomaxprocs : Z) (cfg : PolicyConfig) : outcome Policy :=
  let n := if Stripes cfg <=? 0 then gomaxprocs else Stripes cfg in
  let depthRing := if RingDepth cfg <=? 0 then defaultRingDepth else RingDepth cfg in
  b ← newAccessBuffer n depthRing;
  s ← newSketch (Counters cfg) (cfgSeed cfg);
  d ← newDoorkeeper (Counters cfg) (cfgSeed cfg);
  Ret (MkPolicy b false s d (cfgSeed cfg) 0 false false Running []).

Definition SetActive (p : Policy) (on : bool) : Policy :=
  MkPolicy (buf p) on (sk p) (dk p) (p_seed p) (incrs p) (wake p) (done_ p) (drain_state p) (scratch p).

(** [Record]; [free] is the outcome of the stripe's [TryLock].  The send on [wake]
    is dropped when a wake-up is already pending. *)
Definition Record_ (p : Policy) (fp : Z) (free : bool) : outcome Policy :=
  if negb (active p) then Ret p
  else
    r ← push (buf p) fp free;
    let '(b, full) := r in
    Ret (MkPolicy b (active p) (sk p) (dk p) (p_seed p) (incrs p) (wake p || full)
           (done_ p) (drain_state p) (scratch p)).

Definition Estimate (p : Policy) (fp : Z) : outcome Z := estimate (sk p) fp.

(** [Resize] stores the new sketch, then the new doorkeeper; other goroutines may run
    between the two stores. *)
Definition store_sketch (p : Policy) (cfg : PolicyConfig) : outcome Policy :=
  s ← newSketch (Counters cfg) (cfgSeed cfg);
  Ret (MkPolicy (buf p) (active p) s (dk p) (p_seed p) (incrs p) (wake p) (done_ p) (drain_state p) (scratch p)).

Definition store_doorkeeper (p : Policy) (cfg : PolicyConfig) : outcome Policy :=
  d ← newDoorkeeper (Counters cfg) (cfgSeed cfg);
  Ret (MkPolicy (buf p) (active p) (sk p) d (p_seed p) (incrs p) (wake p) (done_ p) (drain_state p) (scratch p)).

Definition Resize (p : Policy) (cfg : PolicyConfig) : outcome Policy :=
  p' ← store_sketch p cfg; store_doorkeeper p' cfg.

(** The callback of [drainOnce], on the state it writes. *)
Definition fold_fp (agingN : Z) (st : sketch * doorkeeper * Z) (fp : Z)
  : outcome (sketch * doorkeeper * Z) :=
  let '(s, d, n) := st in
  r ← putOrHas d fp;
  let '(d', seen) := r in
  if negb seen then Ret (s, d', n)
  else
    s' ← increment s fp;
    let n' := i64 (n + 1) in
    if agingN <=? n' then Ret (halve s', dk_reset d', 0) else Ret (s', d', n').

Definition drainOnce (p : Policy) : outcome Policy :=
  let agingN := i64 (agingFactor * sk_width (sk p)) in
  r ← drainInto (fold_fp agingN) (buf p) (scratch p) (sk p, dk p, incrs p);
  let '(b, sc, (s, d, n)) := r in
  Ret (MkPolicy b (active p) s d (p_seed p) n (wake p) (done_ p) (drain_state p) sc).

(** The drainer takes a pending wake-up ([case <-p.wake]). *)
Definition take_wake (p : Policy) : Policy :=
  MkPolicy (buf p) (active p) (sk p) (dk p) (p_seed p) (incrs p) false (done_ p) (drain_state p) (scratch p).

(** The first half of [Close]: [close(p.done)], once. *)
Definition signal_done (p : Policy) : Policy :=
  MkPolicy (buf p) (active p) (sk p) (dk p) (p_seed p) (incrs p) (wake p) true (drain_state p) (scratch p).

(** [return] of the drainer: the deferred [wg.Done]. *)
Definition drain_exit (p : Policy) : Policy :=
  MkPolicy (buf p) (active p) (sk p) (dk p) (p_seed p) (incrs p) (wake p) (done_ p) Exited (scratch p).

(** [Close]: the first call signals the drainer and joins it, which runs its final
    drain; later calls do nothing. *)
Definition Close (p : Policy) : outcome Policy :=
  if done_ p then Ret p
  else p' ← drainOnce (signal_done p); Ret (drain_exit p').

(** ** Steps *)
Inductive pstep (p : Policy) : Policy -> Prop :=
| step_active on : pstep p (SetActive p on)
| step_record fp free p' : Record_ p fp free = Ret p' -> pstep p p'
| step_resize_sk cfg p' : Counters cfg <= 2 ^ 48 -> store_sketch p cfg = Ret p' -> pstep p p'
| step_resize_dk cfg p' : Counters cfg <= 2 ^ 48 -> store_doorkeeper p cfg = Ret p' -> pstep p p'
| step_close : pstep p (signal_done p)
| step_wake p' : drain_state p = Running -> wake p = true -> drainOnce (take_wake p) = Ret p' -> pstep p p'
| step_tick p' : drain_state p = Running -> drainOnce p = Ret p' -> pstep p p'
| step_done p' : drain_state p = Running -> done_ p = true -> drainOnce p = Ret p' -> pstep p (drain_exit p').

Inductive reachable (gomaxprocs : Z) (cfg : PolicyConfig) : Policy -> Prop :=
| reach_new p : NewPolicy gomaxprocs cfg = Ret p -> reachable gomaxprocs cfg p
| reach_step p p' : reachable gomaxprocs cfg p -> pstep p p' -> reachable gomaxprocs cfg p'.

(** ** Invariant *)
Record pwf (p : Policy) : Prop := {
  pwf_sk : swf (sk p);
  pwf_dk : dwf (dk p);
  pwf_buf : bwf (buf p);
  pwf_incrs : 0 <= incrs p < 2 ^ 52;
  pwf_exit : drain_state p = Exited -> done_ p = true;
}.

Definition fold_inv (N : Z) (st : sketch * doorkeeper * Z) : Prop :=
  let '(s, d, n) := st in swf s /\ wd s = N /\ dwf d /\ 0 <= n < 2 ^ 52.

Lemma fold_fp_ok N st fp : 16 <= N <= 2 ^ 52 -> fold_inv N st ->
  exists st', fold_fp N st fp = Ret st' /\ fold_inv N st'.
Proof.
  destruct st as [[s d] n]. intros HN (Ws & Hw & Wd & Hn). unfold fold_fp.
  destruct (putOrHas_ok d fp Wd) as (d' & -> & Wd' & _). cbn [mbind outcome_bind].
  destruct (forallb _ _); cbn [negb]; [|by exists (s, d', n)].
  destruct (increment_ok s fp Ws) as (s' & -> & Ws' & (_ & Hw' & _) & _). cbn [mbind outcome_bind].
  rewrite i64_id by (unfold in_i64; lia). destruct (Z.leb_spec N (n + 1)).
  - destruct (halve_ok s' Ws') as (Wh & (_ & Hwh & _) & _). destruct (reset_ok d' Wd') as (Wr & _).
    eexists. split; [done|]. split_and!; [done|congruence|done|lia|lia].
  - eexists. split; [done|]. split_and!; [done|congruence|done|lia|lia].
Qed.

Lemma each_fold_ok N l : 16 <= N <= 2 ^ 52 -> forall st, fold_inv N st ->
  exists st', each (fold_fp N) l st = Ret st' /\ fold_inv N st'.
Proof.
  intros HN. induction l as [|fp l IH]; intros st I; cbn [each]; [eauto|].
  destruct (fold_fp_ok N st fp HN I) as (st1 & -> & I1). cbn [mbind outcome_bind]. by apply IH.
Qed.

Lemma drainOnce_ok p : pwf p ->
  exists p', drainOnce p = Ret p' /\ pwf p' /\ mjoin (stripes (buf p')) = [] /\
    each (fold_fp (wd (sk p))) (mjoin (stripes (buf p))) (sk p, dk p, incrs p) =
      Ret (sk p', dk p', incrs p') /\
    drain_state p' = drain_state p /\ done_ p' = done_ p /\ active p' = active p.
Proof.
  intros [Ws Wd Wb Hi He]. pose proof (width_pos _ Ws).
  unfold drainOnce, agingFactor, sk_width. rewrite Z.mul_1_l, i64_id by (unfold in_i64; lia).
  destruct (each_fold_ok (wd (sk p)) (mjoin (stripes (buf p))) ltac:(done) (sk p, dk p, incrs p))
    as ([[s d] n] & E & I); [cbn; auto|].
  destruct (drainInto_ok _ (buf p) (scratch p) _ _ Wb E) as (b' & sc & Ed & Wb' & Hj & _).
  rewrite Ed. cbn. eexists. split_and!; [done| |done..].
  destruct I as (? & ? & ? & ?). split; cbn; done.
Qed.

Lemma Record_ok p fp free : pwf p -> exists p', Record_ p fp free = Ret p' /\ pwf p' /\ active p' = active p.
Proof.
  intros [Ws Wd Wb Hi He]. unfold Record_. destruct (active p) eqn:Ha; cbn; [|by exists p].
  destruct (push_ok (buf p) fp free Wb) as (b' & full & i & s & -> & Wb' & _). cbn.
  eexists. split; [done|]. split; [by split|done].
Qed.

Lemma store_sketch_ok p cfg : Counters cfg <= 2 ^ 48 -> pwf p -> exists p', store_sketch p cfg = Ret p' /\ pwf p'.
Proof.
  intros Hc [Ws Wd Wb Hi He]. unfold store_sketch.
  destruct (newSketch_ok (Counters cfg) (cfgSeed cfg)) as (s & -> & ? & _); [lia|]. cbn [mbind outcome_bind].
  eexists. split; [done|]. by split.
Qed.

Lemma store_doorkeeper_ok p cfg : Counters cfg <= 2 ^ 48 -> pwf p -> exists p', store_doorkeeper p cfg = Ret p' /\ pwf p'.
Proof.
  intros Hc [Ws Wd Wb Hi He]. unfold store_doorkeeper.
  destruct (newDoorkeeper_ok (Counters cfg) (cfgSeed cfg)) as (d & -> & ? & _); [lia|]. cbn [mbind outcome_bind].
  eexists. split; [done|]. by split.
Qed.

Lemma Resize_ok p cfg : Counters cfg <= 2 ^ 48 -> pwf p -> exists p', Resize p cfg = Ret p' /\ pwf p'.
Proof.
  intros Hc W. unfold Resize. destruct (store_sketch_ok p cfg Hc W) as (p1 & -> & W1).
  cbn [mbind outcome_bind]. by apply store_doorkeeper_ok.
Qed.

Lemma NewPolicy_ok gomaxprocs cfg : 1 <= gomaxprocs <= 2 ^ 43 -> Stripes cfg <= 2 ^ 43 ->
  RingDepth cfg <= 2 ^ 45 -> Counters cfg <= 2 ^ 48 ->
  exists p, NewPolicy gomaxprocs cfg = Ret p /\ pwf p /\ mjoin (stripes (buf p)) = [] /\
    newSketch (Counters cfg) (cfgSeed cfg) = Ret (sk p) /\
    newDoorkeeper (Counters cfg) (cfgSeed cfg) = Ret (dk p) /\ incrs p = 0 /\ active p = false.
Proof.
  intros Hg Hs Hrd Hc. unfold NewPolicy.
  destruct (newAccessBuffer_ok (if Stripes cfg <=? 0 then gomaxprocs else Stripes cfg)
    (if RingDepth cfg <=? 0 then defaultRingDepth else RingDepth cfg)) as (b & -> & ? & _ & _ & Hem);
    [go_case; lia|unfold defaultRingDepth; go_case; lia|]. cbn [mbind outcome_bind].
  destruct (newSketch_ok (Counters cfg) (cfgSeed cfg)) as (s & -> & ? & _); [lia|]. cbn [mbind outcome_bind].
  destruct (newDoorkeeper_ok (Counters cfg) (cfgSeed cfg)) as (d & -> & ? & _); [lia|]. cbn [mbind outcome_bind].
  eexists. split_and!; [done|by split| |done..]. cbn.
  induction (stripes b) as [|x l IH]; [done|]. cbn. rewrite (Hem x) by set_solver. apply IH. set_solver.
Qed.

Lemma pstep_inv p p' : pwf p -> pstep p p' -> pwf p'.
Proof.
  intros W Hs. destruct Hs as [on|fp free p' E|cfg p' Hc E|cfg p' Hc E| |p' Hr Hw E|p' Hr E|p' Hr Hd E].
  - by destruct W.
  - destruct (Record_ok p fp free W) as (p1 & E1 & ? & _). congruence.
  - destruct (store_sketch_ok p cfg Hc W) as (p1 & E1 & ?). congruence.
  - destruct (store_doorkeeper_ok p cfg Hc W) as (p1 & E1 & ?). congruence.
  - destruct W. by split.
  - assert (pwf (take_wake p)) as W' by (by destruct W).
    destruct (drainOnce_ok _ W') as (p1 & E1 & ? & _). congruence.
  - destruct (drainOnce_ok _ W) as (p1 & E1 & ? & _). congruence.
  - destruct (drainOnce_ok _ W) as (p1 & E1 & W1 & _ & _ & _ & Hd1 & _).
    assert (p1 = p') as -> by congruence. destruct W1. split; cbn; try done. intros _. congruence.
Qed.

Lemma reachable_inv gomaxprocs cfg p : 1 <= gomaxprocs <= 2 ^ 43 -> Stripes cfg <= 2 ^ 43 ->
  RingDepth cfg <= 2 ^ 45 -> Counters cfg <= 2 ^ 48 -> reachable gomaxprocs cfg p -> pwf p.
Proof.
  intros Hg Hs Hrd Hc. induction 1 as [p E|p p' _ IH Hst].
  - destruct (NewPolicy_ok gomaxprocs cfg) as (p1 & E1 & ? & _); [done..|]. congruence.
  - by eapply pstep_inv.
Qed.

Lemma Close_ok p : pwf p -> exists p', Close p = Ret p' /\ pwf p' /\ done_ p' = true /\ active p' = active p.
Proof.
  intros W. unfold Close. destruct (done_ p) eqn:Ed; [by exists p|].
  assert (pwf (signal_done p)) as W' by (destruct W; by split).
  destruct (drainOnce_ok _ W') as (p1 & -> & W1 & _ & _ & _ & Hd & Ha). cbn [mbind outcome_bind].
  eexists. split; [done|]. split; [destruct W1; by split|done].
Qed.

(** ** What a drain adds to the sketch *)

(** The fingerprints the doorkeeper lets through. *)
Definition admitted (l : list Z) (flags : list bool) : list Z :=
  omap (fun '(fp, f) => if f : bool then Some fp else None) (zip l flags).

Lemma fold_fp_eq N s d n fp d1 seen : putOrHas d fp = Ret (d1, seen) ->
  fold_fp N (s, d, n) fp =
    if negb seen then Ret (s, d1, n)
    else s' ← increment s fp;
      if N <=? i64 (n + 1) then Ret (halve s', dk_reset d1, 0) else Ret (s', d1, i64 (n + 1)).
Proof. intros E. unfold fold_fp. by rewrite E. Qed.

(** Without an aging point, a fold is the doorkeeper run followed by one increment
    per admitted fingerprint. *)
Lemma each_fold_trace N l : forall s d n d' flags,
  swf s -> 0 <= n -> n + Z.of_nat (length l) < N -> N <= 2 ^ 52 -> dwf d -> put_all d l = Ret (d', flags) ->
  exists s', each (fold_fp N) l (s, d, n) =
      Ret (s', d', n + Z.of_nat (length (admitted l flags))) /\
    sk_run s (Inc <$> admitted l flags) = Ret s'.
Proof.
  induction l as [|fp l IH]; intros s d n d' flags Ws Hn Hlen HN Wd; cbn [put_all].
  { intros [= <- <-]. exists s. cbn. by rewrite Z.add_0_r. }
  destruct (putOrHas_ok d fp Wd) as (d1 & E1 & Wd1 & _). revert E1.
  generalize (forallb (has d) (positions d fp)) as seen. intros seen E1.
  rewrite E1. cbn [mbind outcome_bind fst snd]. intros ([d2 fl2] & E2 & [= <- <-])%bind_ret. cbn [length] in Hlen. cbn [each].
  rewrite (fold_fp_eq N s d n fp d1 _ E1). unfold admitted. cbn [zip zip_with omap list_omap fst snd].
  fold (admitted l fl2). destruct seen; cbn [negb fmap list_fmap sk_run length].
  - destruct (increment_ok s fp Ws) as (s1 & -> & Ws1 & _). cbn [mbind outcome_bind].
    rewrite i64_id by (unfold in_i64; lia). replace (N <=? n + 1) with false by lia. cbn [mbind outcome_bind].
    destruct (IH s1 d1 (n + 1) d2 fl2) as (s' & -> & Er); [done|lia|lia|done..|].
    exists s'. split; [|done]. do 2 f_equal. lia.
  - apply IH; done || lia.
Qed.

Lemma exact_incs x l : forall n, n <= 15 ->
  foldl (exact_step (Z.eqb x)) n (Inc <$> l) = Z.min 15 (n + Z.of_nat (count_occ Z.eq_dec l x)).
Proof.
  induction l as [|y l IH]; intros n Hn; cbn; [lia|]. destruct (Z.eqb_spec x y) as [->|].
  - rewrite IH by lia. destruct (Z.eq_dec y y); [|done]. lia.
  - destruct (Z.eq_dec y x); [congruence|]. by apply IH.
Qed.

(** At most the first sighting of a fingerprint is filtered. *)
Lemma admitted_count x l : forall pre flags, length flags = length l ->
  (forall i fp, l !! i = Some fp -> fp ∈ pre ++ take i l -> flags !! i = Some true) ->
  (count_occ Z.eq_dec l x <= count_occ Z.eq_dec (admitted l flags) x +
     (if bool_decide (x ∈ pre) then 0 else 1))%nat.
Proof.
  induction l as [|y l IH]; intros pre [|f fl] Hl Hf; try done; [cbn; lia|].
  unfold admitted. cbn [zip zip_with omap list_omap count_occ]. fold (admitted l fl).
  assert (forall i fp, l !! i = Some fp -> fp ∈ (pre ++ [y]) ++ take i l -> fl !! i = Some true) as Hf'.
  { intros i fp Hi Hin. apply (Hf (S i) fp Hi). cbn. by rewrite <- app_assoc in Hin. }
  specialize (IH (pre ++ [y]) fl ltac:(cbn in Hl; lia) Hf').
  destruct (Z.eq_dec y x) as [->|Hne].
  - rewrite bool_decide_eq_true_2 in IH by set_solver.
    destruct (bool_decide_reflect (x ∈ pre)) as [Hin|Hin].
    + pose proof (Hf 0%nat x eq_refl ltac:(set_solver)) as Ht. cbn in Ht. simplify_eq.
      cbn. destruct (Z.eq_dec x x); [lia|done].
    + destruct f; cbn; [destruct (Z.eq_dec x x); [lia|done]|lia].
  - replace (bool_decide (x ∈ pre)) with (bool_decide (x ∈ pre ++ [y]))
      by (apply bool_decide_ext; set_solver).
    destruct f; cbn; [destruct (Z.eq_dec y x); [done|lia]|lia].
Qed.

(** ** Properties *)


(** C37. Frequencies.  Drain a buffer into a freshly built policy, with fewer
    fingerprints than the aging window.  The estimate of a fingerprint that
    occurs [n] times is at least [min 15 (n - 1)]: only a first sighting is held
    back by the doorkeeper.  It is at most the number of admitted fingerprints
    that share its counter in any row, and the sketch is exactly the one obtained
    by incrementing once per admitted fingerprint. *)
Theorem policy_frequency gomaxprocs cfg b x :
  1 <= gomaxprocs <= 2 ^ 43 -> Stripes cfg <= 2 ^ 43 -> RingDepth cfg <= 2 ^ 45 ->
  Counters cfg <= 2 ^ 48 -> bwf b ->
  exists p0, NewPolicy gomaxprocs cfg = Ret p0 /\
  (Z.of_nat (length (mjoin (stripes b))) < sk_width (sk p0) ->
   exists p flags e, drainOnce (MkPolicy b (active p0) (sk p0) (dk p0) (p_seed p0) (incrs p0)
       (wake p0) (done_ p0) (drain_state p0) (scratch p0)) = Ret p /\
     put_all (dk p0) (mjoin (stripes b)) = Ret (dk p, flags) /\
     sk_run (sk p0) (Inc <$> admitted (mjoin (stripes b)) flags) = Ret (sk p) /\
     Estimate p x = Ret e /\
     Z.min nibbleMax (Z.of_nat (count_occ Z.eq_dec (mjoin (stripes b)) x) - 1) <= e /\
     forall r, 0 <= r < depth -> e <= foldl (exact_step (fun y => index (sk p0) y r =? index (sk p0) x r)) 0
       (Inc <$> admitted (mjoin (stripes b)) flags)).
Proof.
  intros Hg Hs Hrd Hc Wb. destruct (NewPolicy_ok gomaxprocs cfg Hg Hs Hrd Hc) as (p0 & E0 & W0 & _ & Es & Ed & Hi & _).
  exists p0. split; [done|]. intros Hlen. unfold sk_width in Hlen. set (l := mjoin (stripes b)) in *.
  set (q := MkPolicy b _ _ _ _ _ _ _ _ _). assert (pwf q) as Wq by (by destruct W0).
  pose proof (width_pos _ (pwf_sk _ W0)).
  destruct (drainOnce_ok q Wq) as (p & Ep & Wp & _ & Etr & _). fold l in Etr. cbn [sk dk incrs buf q] in Etr. rewrite Hi in Etr.
  destruct (put_all_ok l (dk p0) (pwf_dk _ W0)) as (d' & flags & Epa & Wd' & _ & Hfl & Hf).
  destruct (each_fold_trace (wd (sk p0)) l (sk p0) (dk p0) 0 d' flags) as (s' & Et & Er);
    [apply W0|lia|lia|lia|apply W0|done|].
  fold l in Etr. rewrite Et in Etr. injection Etr as Hs' Hd' _. subst s' d'.
  destruct (newSketch_ok (Counters cfg) (cfgSeed cfg)) as (s0 & Es0 & _ & _ & Hz & _); [lia|].
  assert (s0 = sk p0) as -> by congruence.
  destruct (sk_run_bounds (Inc <$> admitted l flags) (sk p0) x 0 (pwf_sk _ W0))
    as (s1 & Er1 & Ws1 & _ & Hlo & Hup); [apply est_range|]. assert (s1 = sk p) as -> by congruence.
  exists p, flags, (est (sk p) x). split_and!; [done|done|done|by apply estimate_ok| |].
  - etransitivity; [|exact Hlo]. rewrite exact_incs by lia. change nibbleMax with 15.
    pose proof (admitted_count x l [] flags Hfl) as Hac. rewrite bool_decide_eq_false_2 in Hac by set_solver.
    specialize (Hac ltac:(intros i fp Hl Hin; rewrite (Hf i fp Hl); f_equal; by apply covered_member)). lia.
  - intros r Hr. apply Hup; [exact Hr|]. by rewrite Hz.
Qed.

(** ** Witnesses *)
Definition demo_pcfg : PolicyConfig := MkPolicyConfig 16 1 8 42.
Definition demo_buf : accessBuffer := MkBuf [[3; 5; 3; 3]] 0 8.

Lemma demo_buf_bwf : bwf demo_buf.
Proof.
  split; [by exists 0|vm_compute; discriminate|]. intros [|i] s [= <-].
  split; [vm_compute; discriminate|]. by repeat constructor.
Qed.


Lemma policy_frequency_witness : exists p0, NewPolicy 4 demo_pcfg = Ret p0 /\
  exists p e, drainOnce (MkPolicy demo_buf (active p0) (sk p0) (dk p0) (p_seed p0) (incrs p0)
       (wake p0) (done_ p0) (drain_state p0) (scratch p0)) = Ret p /\ Estimate p 3 = Ret e /\ 2 <= e.
Proof.
  destruct (policy_frequency 4 demo_pcfg demo_buf 3) as (p0 & E0 & Hp);
    [lia|vm_compute; discriminate|vm_compute; discriminate|vm_compute; discriminate|exact demo_buf_bwf|].
  exists p0. split; [exact E0|].
  destruct Hp as (p & flags & e & Ed & _ & _ & Ee & Hlo & _).
  - vm_compute in E0. injection E0 as <-. vm_compute. reflexivity.
  - exists p, e. split; [exact Ed|]. split; [exact Ee|]. vm_compute in Hlo. exact Hlo.
Defined.
