(* ===== verification/Hash.v ===== *)
(** * The hashing seam ([internal/hash/hash.go])

    Byte strings, and the two one-shot hash functions of the package over the
    standard library's [hash/maphash], whose code is not in the repository: it is
    the class [Maphash], with the documented behaviour the program relies on. *)
From Stdlib Require Export Strings.Byte.
From stdpp Require Export strings.
From S2P Require Import Prelude.

#[global] Open Scope Z_scope.

(** ** Bytes and strings

    A Go string and the contents of a [[]byte] are lists of bytes. *)
Abbreviation bytes := (list byte).

Definition B (s : string) : bytes := String.list_byte_of_string s.

#[global] Instance byte_eq_dec : EqDecision byte := Byte.byte_eq_dec.

#[global] Instance byte_countable : Countable byte :=
  inj_countable Byte.to_nat Byte.of_nat Byte.of_to_nat.

(** ** The package *)
Class Maphash (Seed : Type) := {
  maphash_String : Seed -> bytes -> Z;
  maphash_Bytes : Seed -> bytes -> Z;
  maphash_range : forall s x, in_u64 (maphash_String s x);
  maphash_agree : forall s x, maphash_Bytes s x = maphash_String s x;
}.

Section Hash.
Context {Seed : Type} `{!Maphash Seed}.

Definition hash_String (seed : Seed) (s : bytes) : Z := maphash_String seed s.
Definition hash_Bytes (seed : Seed) (b : bytes) : Z := maphash_Bytes seed b.

Lemma hash_String_range seed s : in_u64 (hash_String seed s).
Proof. apply maphash_range. Qed.
End Hash.

(** FNV-1a with the seed as offset: an instance for the witnesses. *)
Definition fnv (seed : Z) (s : bytes) : Z :=
  u64 (foldl (fun h b => u64 (Z.lxor h (Z.of_N (Byte.to_N b)) * 1099511628211)) seed s).

#[global] Instance fnv_maphash : Maphash Z := {|
  maphash_String := fnv;
  maphash_Bytes := fnv;
  maphash_range := fun s x => u64_range _;
  maphash_agree := fun _ _ => eq_refl;
|}.
