(* ===== verification/Cache.v ===== *)
(** * The cache engine ([internal/cache])

    [Cache]: the sharded map of entries, the frequency policy, and the atomic
    counters of [cache.go]; one definition per method of [cache.go], [evict.go],
    [cost.go], [stats.go] and [policy.go].  An operation runs without interference
    from other clients; the drainer may run between any two of them.

    What an operation reads from its surroundings is an environment [E] threaded
    through it: the clock, the default random source and the outcome of the
    [TryLock] in [Record].  A time is a number of nanoseconds since Go's zero time,
    so [IsZero] is equality with 0; [ctx.Err()] is an argument. *)
From S2P Require Import Prelude Hash Table ShardMap Sample.
From S2P Require Import Sketch Doorkeeper Buffer Policy.


(** ** Eviction policies ([policy.go]) *)
Definition PolicyAllKeysLFU : Z := 0.
Definition PolicyAllKeysRandom : Z := 1.
Definition PolicyNoEviction : Z := 2.

Definition policyNames : list (Z * bytes) :=
  [(PolicyAllKeysLFU, B "allkeys-lfu"); (PolicyAllKeysRandom, B "allkeys-random");
   (PolicyNoEviction, B "noeviction")].

Definition policy_String (p : Z) : bytes :=
  match find (fun x => fst x =? p) policyNames with
  | Some x => snd x
  | None => B "unknown"
  end.

Definition ParsePolicy (name : bytes) : Z * bool :=
  if bool_decide (name = B "allkeys-lfu") then (PolicyAllKeysLFU, true)
  else if bool_decide (name = B "allkeys-random") then (PolicyAllKeysRandom, true)
  else if bool_decide (name = B "noeviction") then (PolicyNoEviction, true)
  else (0, false).

(** ** Errors *)
Inductive error : Type :=
| ErrCtx (code : Z)
| ErrOOM.

#[global] Instance error_eq_dec : EqDecision error.
Proof. solve_decision. Defined.

(** ** Entries and their cost *)
Record centry : Type := MkEntry {
  value : bytes;
  expiresAt : Z;
}.

#[global] Program Instance centry_zero : GoType centry := MkGoType centry (MkEntry [] 0) 48 8 _ _.
Solve Obligations with lia.

Definition entryOverhead : Z := 64.

Definition costOf (key v : bytes) : Z :=
  i64 (i64 (Z.of_nat (length key) + Z.of_nat (length v)) + entryOverhead).

(** A nil slice is [None]; a copy is never nil. *)
Definition cloneBytes (b : option bytes) : bytes := default [] b.

(** ** The environment *)
Class Env (E : Type) := {
  env_now : E -> Z * E;
  env_rand : E -> Z * E;
  env_trylock : E -> bool * E;
}.

Definition sampleN : Z := 5.
Definition maxEvictMisses : Z := 100.
Definition assumedAvgEntryCost : Z := 256.
Definition policyCountersMin : Z := 1024.
Definition policyCountersMax : Z := Z.shiftl 1 22.

(** The range of [time.Duration], to which [Time.Sub] saturates. *)
Definition sub_time (t u : Z) : Z := Z.max (- 2 ^ 63) (Z.min (2 ^ 63 - 1) (t - u)).

Record Cache (Seed : Type) : Type := MkCache {
  cm : Map Seed bytes centry;
  cpolicy : Policy;
  fpSeed : Seed;
  policySeed : Z;
  usage : Z;
  maxmemory : Z;
  evictPol : Z;
  policyCounters : Z;
  hits : Z;
  misses : Z;
  evictions : Z;
}.
Arguments MkCache {Seed} _ _ _ _ _ _ _ _ _ _ _.
Arguments cm {Seed} _.
Arguments cpolicy {Seed} _.
Arguments fpSeed {Seed} _.
Arguments policySeed {Seed} _.
Arguments usage {Seed} _.
Arguments maxmemory {Seed} _.
Arguments evictPol {Seed} _.
Arguments policyCounters {Seed} _.
Arguments hits {Seed} _.
Arguments misses {Seed} _.
Arguments evictions {Seed} _.

(** ** Construction options *)
Record cconfig (Seed : Type) : Type := MkCConfig {
  shardOpts : list (Option Seed);
  cfg_maxmemory : Z;
  cfg_policy : Z;
}.
Arguments MkCConfig {Seed} _ _ _.
Arguments shardOpts {Seed} _.
Arguments cfg_maxmemory {Seed} _.
Arguments cfg_policy {Seed} _.

Section Cache.
Context {Seed : Type} `{!GoType Seed} `{!Maphash Seed}.
Context {E : Type} `{!Env E}.
Implicit Types c : Cache Seed.
Implicit Types e : E.

Definition COption : Type := cconfig Seed -> cconfig Seed.

Definition CWithShards (n : Z) : COption := fun cfg =>
  MkCConfig (shardOpts cfg ++ [WithShards n]) (cfg_maxmemory cfg) (cfg_policy cfg).

Definition CWithSeed (s : Seed) : COption := fun cfg =>
  MkCConfig (shardOpts cfg ++ [WithSeed s]) (cfg_maxmemory cfg) (cfg_policy cfg).

Definition WithMaxMemory (n : Z) : COption := fun cfg =>
  MkCConfig (shardOpts cfg) n (cfg_policy cfg).

Definition WithEvictionPolicy (p : Z) : COption := fun cfg =>
  MkCConfig (shardOpts cfg) (cfg_maxmemory cfg) p.

(** *** Field updates *)
Definition with_map c m : Cache Seed :=
  MkCache m (cpolicy c) (fpSeed c) (policySeed c) (usage c) (maxmemory c) (evictPol c)
    (policyCounters c) (hits c) (misses c) (evictions c).
Definition with_policy c p : Cache Seed :=
  MkCache (cm c) p (fpSeed c) (policySeed c) (usage c) (maxmemory c) (evictPol c)
    (policyCounters c) (hits c) (misses c) (evictions c).
Definition with_usage c u : Cache Seed :=
  MkCache (cm c) (cpolicy c) (fpSeed c) (policySeed c) u (maxmemory c) (evictPol c)
    (policyCounters c) (hits c) (misses c) (evictions c).
Definition with_limits c mm pol n : Cache Seed :=
  MkCache (cm c) (cpolicy c) (fpSeed c) (policySeed c) (usage c) mm pol n
    (hits c) (misses c) (evictions c).
Definition with_stats c h ms ev : Cache Seed :=
  MkCache (cm c) (cpolicy c) (fpSeed c) (policySeed c) (usage c) (maxmemory c) (evictPol c)
    (policyCounters c) h ms ev.

(** [c.usage.Add(n)] and the three event counters. *)
Definition add_usage c (n : Z) : Cache Seed := with_usage c (i64 (usage c + n)).
Definition add_hit c : Cache Seed := with_stats c (u64 (hits c + 1)) (misses c) (evictions c).
Definition add_miss c : Cache Seed := with_stats c (hits c) (u64 (misses c + 1)) (evictions c).
Definition add_eviction c : Cache Seed := with_stats c (hits c) (misses c) (u64 (evictions c + 1)).

(** *** Sizing and activation of the policy *)
Definition counters_for (mm : Z) : Z :=
  if 0 <? mm then
    let n := Z.quot mm assumedAvgEntryCost in
    let n := if n <? policyCountersMin then policyCountersMin else n in
    if policyCountersMax <? n then policyCountersMax else n
  else policyCountersMin.

Definition policyConfig c : PolicyConfig :=
  MkPolicyConfig (counters_for (maxmemory c)) 0 0 (policySeed c).

Definition fingerprint c (key : bytes) : Z := hash_String (fpSeed c) key.

Definition refreshActive c : Cache Seed :=
  with_policy c (SetActive (cpolicy c) ((evictPol c =? PolicyAllKeysLFU) && (0 <? maxmemory c))).

(** [New]: [freshMap] and [freshFp] are the seeds drawn by the map and the
    fingerprint, [freshPol] the sketch seed of [randv2.Uint64]. *)
Definition CacheNew (gomaxprocs : Z) (freshMap freshFp : Seed) (freshPol : Z)
    (opts : list COption) : outcome (Cache Seed) :=
  let cfg := foldl (fun x opt => opt x) (MkCConfig [] 0 PolicyAllKeysLFU) opts in
  m ← New gomaxprocs freshMap (Some hash_String) (shardOpts cfg);
  let pcfg := MkPolicyConfig (counters_for (cfg_maxmemory cfg)) 0 0 freshPol in
  p ← NewPolicy gomaxprocs pcfg;
  Ret (refreshActive (MkCache m p freshFp freshPol 0 (cfg_maxmemory cfg) (cfg_policy cfg)
         (Counters pcfg) 0 0 0)).

(** *** Expiry *)
Definition expired (x : centry) e : bool * E :=
  if negb (expiresAt x =? 0) then
    let '(t, e') := env_now e in (negb (t <? expiresAt x), e')
  else (false, e).

(** [c.policy.Record(fp)]; the mutex outcome comes from the environment and is
    asked for only when the policy is active. *)
Definition record_access c (key : bytes) e : outcome (Cache Seed * E) :=
  let '(free, e') := if active (cpolicy c) then env_trylock e else (false, e) in
  p ← Record_ (cpolicy c) (fingerprint c key) free;
  Ret (with_policy c p, e').

(** *** Reads *)
Definition CacheGet c (ctx : option Z) (key : bytes) e
  : outcome (Cache Seed * E * (option bytes * bool * option error)) :=
  match ctx with
  | Some n => Ret (c, e, (None, false, Some (ErrCtx n)))
  | None =>
      r ← ShardMap.Get (cm c) key;
      let '(x, found) := r in
      let '(dead, e1) := if found : bool then expired x e else (false, e) in
      if negb found || dead then Ret (add_miss c, e1, (None, false, None))
      else
        ce ← record_access (add_hit c) key e1;
        let '(c2, e2) := ce in
        Ret (c2, e2, (Some (cloneBytes (Some (value x))), true, None))
  end.

Definition CacheTTL c (ctx : option Z) (key : bytes) e : outcome (E * (Z * bool * option error)) :=
  match ctx with
  | Some n => Ret (e, (0, false, Some (ErrCtx n)))
  | None =>
      r ← ShardMap.Get (cm c) key;
      let '(x, found) := r in
      let '(dead, e1) := if found : bool then expired x e else (false, e) in
      if negb found || dead then Ret (e1, (0, false, None))
      else if expiresAt x =? 0 then Ret (e1, (-1, true, None))
      else let '(t, e2) := env_now e1 in Ret (e2, (sub_time (expiresAt x) t, true, None))
  end.

(** The callback of [Len]: counts live entries; it never stops the walk. *)
Definition len_fn (st : Z * E) (_ : bytes) (x : centry) : Z * E * bool :=
  let '(n, e) := st in
  let '(dead, e') := expired x e in
  ((if dead : bool then n else i64 (n + 1)), e', true).

Definition CacheLen c (ctx : option Z) e : outcome (E * (Z * option error)) :=
  match ctx with
  | Some n => Ret (e, (0, Some (ErrCtx n)))
  | None =>
      st ← Range len_fn (cm c) (0, e);
      Ret (snd st, (fst st, None))
  end.

(** *** Eviction ([evict.go]) *)

(** The loop of [pickVictim]; [best] is the best candidate so far. *)
Fixpoint pick_loop c (cands : list (SampleEntry bytes centry)) (pol : Z) (exclude : bytes)
    (hasExclude : bool) (best : option (bytes * Z)) : outcome (option bytes) :=
  match cands with
  | [] => Ret (fst <$> best)
  | cand :: cands' =>
      if hasExclude && bool_decide (Key cand = exclude)
      then pick_loop c cands' pol exclude hasExclude best
      else if pol =? PolicyAllKeysRandom then Ret (Some (Key cand))
      else
        f ← Estimate (cpolicy c) (fingerprint c (Key cand));
        pick_loop c cands' pol exclude hasExclude
          (match best with
           | None => Some (Key cand, f)
           | Some (k, bf) => if f <? bf then Some (Key cand, f) else Some (k, bf)
           end)
  end.

Definition pickVictim c (cands : list (SampleEntry bytes centry)) (pol : Z) (exclude : bytes)
    (hasExclude : bool) : outcome (option bytes) :=
  pick_loop c cands pol exclude hasExclude None.

(** The loop of [evictUntilUnder]; also returns the number of passes without a
    victim. *)
Fixpoint evict_loop (fuel : nat) c (ceiling pol : Z) (exclude : bytes) (hasExclude : bool)
    (missed : Z) e : outcome (Cache Seed * E * Z) :=
  match fuel with
  | O => Diverge
  | S fuel' =>
      if ceiling <? usage c then
        s ← Sample env_rand (cm c) sampleN None e;
        let '(cands, e1) := s in
        v ← pickVictim c cands pol exclude hasExclude;
        match v with
        | None =>
            let missed' := missed + 1 in
            if maxEvictMisses <? missed' then Ret (c, e1, missed')
            else evict_loop fuel' c ceiling pol exclude hasExclude missed' e1
        | Some victim =>
            d ← Delete (cm c) victim;
            let '(m', (x, existed)) := d in
            let c1 := with_map c m' in
            let c2 := if existed : bool
                      then add_eviction (add_usage c1 (- costOf victim (value x))) else c1 in
            evict_loop fuel' c2 ceiling pol exclude hasExclude missed e1
        end
      else Ret (c, e, missed)
  end.

(** One pass per stored entry, and [maxEvictMisses + 1] passes without a victim. *)
Definition evict_fuel c : nat :=
  102 + foldr (fun t n => Z.to_nat (count t) + n)%nat 0%nat (shards (cm c)).

Definition evictUntilUnder c (ceiling pol : Z) (exclude : bytes) (hasExclude : bool) e
  : outcome (Cache Seed * E) :=
  r ← evict_loop (evict_fuel c) c ceiling pol exclude hasExclude 0 e;
  let '(c', e', _) := r in Ret (c', e').

(** *** Writes *)

(** The reject decision of [noeviction]. *)
Definition oom_guard c (key : bytes) (newCost ceiling pol : Z) : outcome bool :=
  if (0 <? ceiling) && (pol =? PolicyNoEviction) then
    r ← ShardMap.Get (cm c) key;
    let '(old, existed) := r in
    let oldCost := if existed : bool then costOf key (value old) else 0 in
    let delta := i64 (newCost - oldCost) in
    Ret ((0 <? delta) && (ceiling <? i64 (usage c + delta)))
  else Ret false.

Definition CacheSet c (ctx : option Z) (key : bytes) (v : option bytes) (ttl : Z) e
  : outcome (Cache Seed * E * option error) :=
  match ctx with
  | Some n => Ret (c, e, Some (ErrCtx n))
  | None =>
      let val := cloneBytes v in
      let '(exp, e1) := if 0 <? ttl then let '(t, e1) := env_now e in (t + ttl, e1) else (0, e) in
      let newCost := costOf key val in
      let ceiling := maxmemory c in
      let pol := evictPol c in
      reject ← oom_guard c key newCost ceiling pol;
      if reject : bool then Ret (c, e1, Some ErrOOM)
      else
        s ← Swap (cm c) key (MkEntry val exp);
        let '(m', (old, existed)) := s in
        let oldCost := if existed : bool then costOf key (value old) else 0 in
        let c1 := add_usage (with_map c m') (i64 (newCost - oldCost)) in
        if (0 <? ceiling) && negb (pol =? PolicyNoEviction) && (ceiling <? usage c1) then
          r ← evictUntilUnder c1 ceiling pol key true e1;
          let '(c2, e2) := r in Ret (c2, e2, None)
        else Ret (c1, e1, None)
  end.

Definition CacheDel c (ctx : option Z) (key : bytes) e
  : outcome (Cache Seed * E * (bool * option error)) :=
  match ctx with
  | Some n => Ret (c, e, (false, Some (ErrCtx n)))
  | None =>
      d ← Delete (cm c) key;
      let '(m', (x, found)) := d in
      if negb found then Ret (with_map c m', e, (false, None))
      else
        let c1 := add_usage (with_map c m') (- costOf key (value x)) in
        let '(dead, e1) := expired x e in
        Ret (c1, e1, (negb dead, None))
  end.

(** *** Tuning *)
Definition SetMaxMemory c (n : Z) e : outcome (Cache Seed * E) :=
  let c1 := with_limits c n (evictPol c) (policyCounters c) in
  let pcfg := policyConfig c1 in
  let c2 := with_limits c1 n (evictPol c) (Counters pcfg) in
  c3 ← (if negb (Counters pcfg =? policyCounters c1)
        then p ← Resize (cpolicy c2) pcfg; Ret (with_policy c2 p) else Ret c2);
  let c4 := refreshActive c3 in
  if 0 <? n then
    let pol := evictPol c4 in
    if negb (pol =? PolicyNoEviction) && (n <? usage c4)
    then evictUntilUnder c4 n pol [] false e
    else Ret (c4, e)
  else Ret (c4, e).

Definition MaxMemory c : Z := maxmemory c.

Definition SetEvictionPolicy c (p : Z) : Cache Seed :=
  refreshActive (with_limits c (maxmemory c) p (policyCounters c)).

Definition CEvictionPolicy c : Z := evictPol c.

(** [Close] stops and joins the drainer. *)
Definition CacheClose c : outcome (Cache Seed) :=
  p ← Policy.Close (cpolicy c);
  Ret (with_policy c p).

Record CStats : Type := MkStats {
  StHits : Z; StMisses : Z; StEvictions : Z; StUsage : Z; StMaxMemory : Z;
}.

Definition Stats c : CStats := MkStats (hits c) (misses c) (evictions c) (usage c) (maxmemory c).

End Cache.
