(* ===== verification/CacheSpec.v ===== *)
(** * What the cache engine promises: accounting and eviction

    The invariant of the engine, proved against the lemmas of the sharded map, of
    [Sample] and of the policy; the memory counter is the sum of the entry costs at
    all times, and eviction stops, removes only other keys and only as needed. *)
From S2P Require Import Prelude Hash Table TableInv TableSpread TableDelete TableSpec ShardMap ShardMapSpec Sample.
From S2P Require Import Sketch SketchSpec Doorkeeper Buffer Policy Cache.

(** ** The cost of a set of entries *)
Definition raw_cost (k : bytes) (x : centry) : Z :=
  Z.of_nat (length k) + Z.of_nat (length (value x)) + entryOverhead.

Definition total (m : gmap bytes centry) : Z := map_fold (fun k x n => raw_cost k x + n) 0 m.

Lemma costOf_raw k x : costOf k (value x) = i64 (raw_cost k x).
Proof. unfold costOf, raw_cost. apply i64_add_l. Qed.

Lemma raw_cost_pos k x : 0 < raw_cost k x.
Proof. unfold raw_cost, entryOverhead. lia. Qed.

Lemma total_insert m k x : m !! k = None -> total (<[k := x]> m) = raw_cost k x + total m.
Proof. intros. unfold total.
  rewrite (map_fold_insert_L (fun k x n => raw_cost k x + n)); [done| |done]. intros. lia. Qed.

Lemma total_delete m k x : m !! k = Some x -> total m = raw_cost k x + total (delete k m).
Proof.
  intros Hk. rewrite <- (insert_delete_id m k x) at 1 by done.
  apply total_insert. by rewrite lookup_delete_eq.
Qed.

(** The cost of what is stored under a key, zero when there is nothing. *)
Definition old_cost (m : gmap bytes centry) (k : bytes) : Z :=
  match m !! k with Some x => raw_cost k x | None => 0 end.

Lemma total_overwrite m k x : total (<[k := x]> m) = total m + (raw_cost k x - old_cost m k).
Proof.
  unfold old_cost. destruct (m !! k) as [y|] eqn:E.
  - rewrite <- insert_delete_eq, total_insert by by rewrite lookup_delete_eq.
    rewrite (total_delete m k y E). lia.
  - rewrite total_insert by done. lia.
Qed.

Lemma total_nonneg m : 0 <= total m.
Proof.
  induction m as [|k x m Hk IH] using map_ind; [done|].
  rewrite total_insert by done. pose proof (raw_cost_pos k x). lia.
Qed.

Lemma old_cost_le m k : 0 <= old_cost m k <= total m.
Proof.
  unfold old_cost. destruct (m !! k) as [x|] eqn:E.
  - rewrite (total_delete m k x E). pose proof (total_nonneg (delete k m)).
    pose proof (raw_cost_pos k x). lia.
  - pose proof (total_nonneg m). lia.
Qed.

Lemma total_mono m m' : m ⊆ m' -> total m <= total m'.
Proof.
  revert m'. induction m as [|k x m Hk IH] using map_ind; intros m' Hsub; [apply total_nonneg|].
  assert (m' !! k = Some x) as Hx by (eapply lookup_weaken; [apply lookup_insert_eq|done]).
  rewrite total_insert, (total_delete m' k x Hx) by done. apply Z.add_le_mono_l, IH.
  apply map_subseteq_spec. intros k' y Hy. assert (k' <> k) by congruence.
  rewrite lookup_delete_ne by done. eapply lookup_weaken; [|done]. by rewrite lookup_insert_ne.
Qed.

(** Adding wrapped differences keeps a wrapped sum. *)
Lemma i64_add_r a b : i64 (a + i64 b) = i64 (a + b).
Proof. rewrite Z.add_comm, i64_add_l. f_equal. lia. Qed.

Lemma i64_opp a : i64 (- i64 a) = i64 (- a).
Proof.
  assert (exists k, i64 a = a + k * 2 ^ 64) as [k ->].
  { unfold i64. exists (- ((a + 2 ^ 63) / 2 ^ 64)). pose proof (Z.div_mod (a + 2 ^ 63) (2 ^ 64)). lia. }
  unfold i64. f_equal. replace (- (a + k * 2 ^ 64) + 2 ^ 63) with (- a + 2 ^ 63 + (- k) * 2 ^ 64) by lia.
  by rewrite Z_mod_plus_full.
Qed.

Lemma i64_sub a b : i64 (i64 a - i64 b) = i64 (a - b).
Proof.
  unfold Z.sub. rewrite i64_add_l. rewrite <- i64_add_r, i64_opp, i64_add_r. done.
Qed.

Section Spec.
Context {Seed : Type} `{!GoType Seed} `{!Maphash Seed}.
Context {E : Type} `{!Env E}.
Implicit Types c : Cache Seed.
Implicit Types e : E.

(** The stored entries of a cache, live or not. *)
Definition data c : gmap bytes centry := map_of (cm c).

Record cinv c : Prop := {
  cinv_map : minv (cm c);
  cinv_policy : pwf (cpolicy c);
  cinv_usage : usage c = i64 (total (data c));
  cinv_evictions : in_u64 (evictions c);
}.

(** Everything but the map, the memory counter and the eviction counter. *)
Definition frame c c' : Prop :=
  cpolicy c' = cpolicy c /\ fpSeed c' = fpSeed c /\ policySeed c' = policySeed c /\
  maxmemory c' = maxmemory c /\ evictPol c' = evictPol c /\ policyCounters c' = policyCounters c /\
  hits c' = hits c /\ misses c' = misses c /\ hash_of (cm c') = hash_of (cm c).

Lemma frame_refl c : frame c c.
Proof. by split_and!. Qed.

Lemma frame_trans c1 c2 c3 : frame c1 c2 -> frame c2 c3 -> frame c1 c3.
Proof. unfold frame. intros. naive_solver congruence. Qed.

Lemma get_data c key : cinv c -> ShardMap.Get (cm c) key =
  Ret (match data c !! key with Some x => (x, true) | None => (go_zero, false) end).
Proof. intros I. by apply Get_ok, I. Qed.

(** Removing one key and its cost. *)
Lemma delete_data c key : cinv c ->
  exists m', Delete (cm c) key =
      Ret (m', match data c !! key with Some x => (x, true) | None => (go_zero, false) end) /\
    minv m' /\ hash_of m' = hash_of (cm c) /\ map_of m' = delete key (data c).
Proof. intros I. by apply Delete_ok, I. Qed.

Lemma usage_delete c (m' : Map Seed bytes centry) key x : cinv c -> data c !! key = Some x -> map_of m' = delete key (data c) ->
  i64 (usage c + - costOf key (value x)) = i64 (total (map_of m')).
Proof.
  intros I Hx ->. rewrite (cinv_usage c I), costOf_raw. change (?a + - ?b) with (a - b).
  rewrite i64_sub, (total_delete _ _ _ Hx). f_equal. lia.
Qed.

(** ** Choosing a victim *)
Definition eligible (exclude : bytes) (hasExclude : bool) (k : bytes) : bool :=
  negb (hasExclude && bool_decide (k = exclude)).

Definition freq c (k : bytes) : Z := est (sk (cpolicy c)) (fingerprint c k).

Lemma pick_loop_random c cands exclude hasEx best :
  pick_loop c cands PolicyAllKeysRandom exclude hasEx best =
    Ret (match find (eligible exclude hasEx) (Key <$> cands) with
         | Some k => Some k | None => fst <$> best end).
Proof.
  induction cands as [|x cands IH]; cbn [pick_loop fmap list_fmap find]; [done|].
  unfold eligible at 1. destruct (hasEx && bool_decide (Key x = exclude)); cbn [negb]; [exact IH|done].
Qed.

Lemma pick_loop_lfu c pol exclude hasEx cands : pwf (cpolicy c) -> pol <> PolicyAllKeysRandom ->
  forall best, (forall k f, best = Some (k, f) -> f = freq c k) ->
  exists r, pick_loop c cands pol exclude hasEx best = Ret r /\
    match r with
    | None => best = None /\ forall x, x ∈ cands -> eligible exclude hasEx (Key x) = false
    | Some k =>
        ((exists f, best = Some (k, f)) \/ (eligible exclude hasEx k = true /\ k ∈ Key <$> cands)) /\
        (forall k0 f0, best = Some (k0, f0) -> freq c k <= f0) /\
        (forall x, x ∈ cands -> eligible exclude hasEx (Key x) = true -> freq c k <= freq c (Key x))
    end.
Proof.
  intros W Hp. induction cands as [|x cands IH]; intros best Hb; cbn [pick_loop].
  { exists (fst <$> best). split; [done|]. destruct best as [[k f]|]; cbn; [|set_solver].
    split_and!; [by left; exists f| |set_solver]. intros k0 f0 [= <- <-]. rewrite (Hb k f eq_refl). done. }
  destruct (hasEx && bool_decide (Key x = exclude)) eqn:Eex.
  { destruct (IH best Hb) as (r & -> & Hr). exists r. split; [done|].
    assert (eligible exclude hasEx (Key x) = false) by (unfold eligible; by rewrite Eex).
    destruct r as [k|].
    - destruct Hr as (H1 & H2 & H3). split_and!; [set_solver|done|].
      intros y [->|Hy]%elem_of_cons; [congruence|auto].
    - destruct Hr as (-> & H2). split; [done|]. intros y [->|Hy]%elem_of_cons; auto. }
  replace (pol =? PolicyAllKeysRandom) with false by lia.
  unfold Estimate. rewrite estimate_ok by apply W. cbn [mbind outcome_bind]. fold (freq c (Key x)).
  assert (eligible exclude hasEx (Key x) = true) as Hel by (unfold eligible; by rewrite Eex).
  set (best' := match best with None => Some (Key x, freq c (Key x)) | Some (k, bf) =>
    if freq c (Key x) <? bf then Some (Key x, freq c (Key x)) else Some (k, bf) end).
  assert (exists k f, best' = Some (k, f) /\ f = freq c k /\ f <= freq c (Key x) /\
    ((k = Key x /\ forall k0 f0, best = Some (k0, f0) -> f < f0) \/ best = Some (k, f)))
    as (kb & fb & Hb' & Hfb & Hle & Hor).
  { unfold best'. destruct best as [[k bf]|].
    - destruct (Z.ltb_spec (freq c (Key x)) bf).
      + eexists _, _. split_and!; [done|done|done|]. left. split; [done|]. intros ? ? [= <- <-]. lia.
      + exists k, bf. split_and!; [done|by apply Hb|lia|by right].
    - eexists _, _. split_and!; [done|done|done|]. by left. }
  destruct (IH best') as (r & -> & Hr). { rewrite Hb'. intros k f [= <- <-]. done. }
  exists r. split; [done|]. destruct r as [k|]; [|by destruct Hr as [Hr _]; rewrite Hb' in Hr].
  destruct Hr as (H1 & H2 & H3). specialize (H2 kb fb Hb'). split_and!.
  - destruct H1 as [(f & Hf)|(? & ?)]; [|right; set_solver]. rewrite Hb' in Hf. simplify_eq.
    destruct Hor as [(-> & _)|Hor]; [right|left; eauto]. split; [done|]. cbn. set_solver.
  - intros k0 f0 Hk0. destruct Hor as [(_ & Hlt)|Hor]; [specialize (Hlt k0 f0 Hk0); lia|].
    rewrite Hor in Hk0. by simplify_eq.
  - intros y [->|Hy]%elem_of_cons Hely; [lia|auto].
Qed.

(** A victim is an eligible candidate; under the frequency policies no eligible
    candidate has a lower estimate; there is none only when no candidate is
    eligible. *)
Lemma pickVictim_ok c cands pol exclude hasEx : pwf (cpolicy c) ->
  exists r, pickVictim c cands pol exclude hasEx = Ret r /\
    match r with
    | None => forall x, x ∈ cands -> eligible exclude hasEx (Key x) = false
    | Some k => eligible exclude hasEx k = true /\ k ∈ Key <$> cands /\
        (pol <> PolicyAllKeysRandom -> forall x, x ∈ cands -> eligible exclude hasEx (Key x) = true ->
           freq c k <= freq c (Key x))
    end.
Proof.
  intros W. unfold pickVictim. destruct (Z.eq_dec pol PolicyAllKeysRandom) as [->|Hne].
  - rewrite pick_loop_random. eexists. split; [done|].
    destruct (find _ _) as [k|] eqn:Ef.
    + apply find_some in Ef as [Hin Hel]. split_and!; [done|by apply list_elem_of_In|done].
    + cbn. intros x Hx. apply (find_none _ _ Ef). apply list_elem_of_In, list_elem_of_fmap. eauto.
  - destruct (pick_loop_lfu c pol exclude hasEx cands W Hne None) as (r & -> & Hr); [done|].
    exists r. split; [done|]. destruct r as [k|]; [|by destruct Hr].
    destruct Hr as ([(f & Hf)|[? ?]] & _ & ?); [done|]. by split_and!.
Qed.

(** ** The eviction loop *)
Lemma sum_counts c : cinv c ->
  foldr (fun t n => Z.to_nat (count t) + n)%nat 0%nat (shards (cm c)) = size (data c).
Proof.
  intros I. unfold data. rewrite <- length_map_to_list, <- (Permutation_length (all_pairs_perm _ (cinv_map c I))).
  unfold all_pairs. assert (forall t, t ∈ shards (cm c) -> Z.to_nat (count t) = length (pairs t)) as Hc.
  { intros t [i Hi]%list_elem_of_lookup_1. destruct (minv_shard _ (cinv_map c I) i t Hi) as [[L _ U ->] _].
    unfold pairs. rewrite length_fmap, size_to_map by done. lia. }
  induction (shards (cm c)) as [|t l IH]; cbn; [done|].
  rewrite length_app, Hc by set_solver. cbn in IH. by rewrite IH by set_solver.
Qed.

Lemma add_eviction_u64 a b : u64 (u64 (a + 1) + b) = u64 (a + (1 + b)).
Proof. unfold u64. rewrite Zplus_mod_idemp_l. f_equal. lia. Qed.

(** One victim removed. *)
Lemma evict_one c k x m' : cinv c -> data c !! k = Some x -> minv m' ->
  hash_of m' = hash_of (cm c) -> map_of m' = delete k (data c) ->
  let c' := add_eviction (add_usage (with_map c m') (- costOf k (value x))) in
  cinv c' /\ frame c c' /\ data c' = delete k (data c).
Proof.
  intros I Hx Im Hh Hm c'. split_and!; [|by split_and!|done].
  split; cbn; [done|apply I|by apply usage_delete|apply u64_range].
Qed.

(** What a pass over the loop leaves: a cache whose entries are among the old ones,
    with the excluded key untouched. *)
Record evicted c c' (exclude : bytes) (hasEx : bool) : Prop := {
  ev_inv : cinv c';
  ev_frame : frame c c';
  ev_sub : data c' ⊆ data c;
  ev_keep : hasEx = true -> data c' !! exclude = data c !! exclude;
  ev_count : evictions c' = u64 (evictions c + Z.of_nat (size (data c) - size (data c')));
}.

Lemma evicted_refl c exclude hasEx : cinv c -> evicted c c exclude hasEx.
Proof.
  intros I. split; [done|apply frame_refl|done|done|].
  rewrite Nat.sub_diag, Z.add_0_r. symmetry. apply u64_id, I.
Qed.

Lemma evict_loop_ok fuel : forall c ceiling pol exclude hasEx missed e,
  cinv c -> 0 <= missed <= 100 -> Z.of_nat (size (data c)) + (101 - missed) < Z.of_nat fuel ->
  exists c' e' missed', evict_loop fuel c ceiling pol exclude hasEx missed e = Ret (c', e', missed') /\
    evicted c c' exclude hasEx /\ (usage c' <= ceiling \/ missed' = 101) /\
    (usage c <= ceiling -> c' = c).
Proof.
  induction fuel as [|fuel IH]; intros c ceiling pol exclude hasEx missed e I Hm Hf; [lia|].
  cbn [evict_loop]. destruct (Z.ltb_spec ceiling (usage c)) as [Hover|Hunder].
  2:{ exists c, e, missed. split_and!; [done|by apply evicted_refl|by left|done]. }
  destruct (Sample_ok env_rand (cm c) sampleN None e (cinv_map c I)) as (cands & e1 & -> & _ & _ & Hlive & _);
    [vm_compute; discriminate|]. cbn [mbind outcome_bind].
  destruct (pickVictim_ok c cands pol exclude hasEx (cinv_policy c I)) as (r & -> & Hr).
  cbn [mbind outcome_bind]. destruct r as [k|].
  - destruct Hr as (Hel & (x & -> & Hin)%list_elem_of_fmap & _).
    rewrite Forall_forall in Hlive. specialize (Hlive x Hin). fold (data c) in Hlive.
    destruct (delete_data c (Key x) I) as (m' & -> & Im & Hh & Hmd). rewrite Hlive.
    cbn [mbind outcome_bind]. destruct (evict_one c (Key x) (Val x) m' I Hlive Im Hh Hmd) as (I2 & F2 & D2).
    set (c2 := add_eviction _) in *.
    assert (size (data c) = S (size (data c2))) as Hsz.
    { rewrite D2, map_size_delete_Some by eauto. assert (size (data c) <> 0)%nat; [|lia].
      intros ?%map_size_empty_inv. by rewrite H, lookup_empty in Hlive. }
    destruct (IH c2 ceiling pol exclude hasEx missed e1 I2 Hm) as (c' & e' & ms & -> & Ev & Hend & _); [lia|].
    exists c', e', ms. split_and!; [done| |done|lia]. destruct Ev as [Iv Fv Sv Kv Cv]. split.
    + done.
    + by eapply frame_trans.
    + etransitivity; [exact Sv|]. rewrite D2. apply delete_subseteq.
    + intros Hex. rewrite Kv, D2 by done. apply lookup_delete_ne. intros Heq.
      unfold eligible in Hel. rewrite Hex, bool_decide_eq_true_2 in Hel; done.
    + assert (size (data c') <= size (data c2))%nat as Hle by (by apply map_subseteq_size).
      rewrite Cv. cbn [c2 add_eviction with_stats evictions add_usage with_usage with_map].
      rewrite add_eviction_u64. do 2 f_equal. lia.
  - change maxEvictMisses with 100. destruct (Z.ltb_spec 100 (missed + 1)).
    + exists c, e1, (missed + 1). split_and!; [done|by apply evicted_refl|right; lia|done].
    + destruct (IH c ceiling pol exclude hasEx (missed + 1) e1 I) as (c' & e' & ms & -> & Ev & Hend & Hid); [lia|lia|].
      exists c', e', ms. by split_and!.
Qed.

Lemma evictUntilUnder_ok c ceiling pol exclude hasEx e : cinv c ->
  exists c' e' missed, evictUntilUnder c ceiling pol exclude hasEx e = Ret (c', e') /\
    evict_loop (evict_fuel c) c ceiling pol exclude hasEx 0 e = Ret (c', e', missed) /\
    evicted c c' exclude hasEx /\ (usage c' <= ceiling \/ missed = maxEvictMisses + 1) /\
    (usage c <= ceiling -> c' = c).
Proof.
  intros I. unfold evictUntilUnder.
  destruct (evict_loop_ok (evict_fuel c) c ceiling pol exclude hasEx 0 e I) as (c' & e' & ms & Ee & Ev & Hend & Hid);
    [lia|unfold evict_fuel; rewrite sum_counts by done; lia|].
  exists c', e', ms. rewrite Ee. cbn. by split_and!.
Qed.

(** ** Writing *)

(** The expiry a write stores, and the environment after reading the clock. *)
Definition set_expiry (ttl : Z) e : Z * E :=
  if 0 <? ttl then let '(t, e1) := env_now e in (t + ttl, e1) else (0, e).

(** The map can take the key: no shard is at the allocation limit (2^42 slots, whose
    48-byte entries are the widest array) and the hashes are spread there (see
    [TableSpread]). *)
Definition roomy c (key : bytes) : Prop :=
  (forall t, t ∈ shards (cm c) -> cap t < maxCap bytes centry) /\
  spread (hash_of (cm c)) ({[key]} ∪ dom (data c)) (maxCap bytes centry).

(** Costs as the write path computes them. *)
Definition code_old_cost c (key : bytes) : Z :=
  match data c !! key with Some x => costOf key (value x) | None => 0 end.

Lemma code_delta c key x : total (data c) + raw_cost key x < 2 ^ 63 ->
  i64 (costOf key (value x) - code_old_cost c key) = raw_cost key x - old_cost (data c) key.
Proof.
  intros Hfit. pose proof (old_cost_le (data c) key). pose proof (raw_cost_pos key x).
  transitivity (i64 (raw_cost key x - old_cost (data c) key)).
  - rewrite costOf_raw. unfold code_old_cost, old_cost. destruct (data c !! key) as [y|].
    + by rewrite costOf_raw, i64_sub.
    + change 0 with (i64 0) at 1. by rewrite i64_sub.
  - apply i64_id. unfold in_i64. lia.
Qed.

Lemma oom_guard_ok c key x : cinv c -> total (data c) + raw_cost key x < 2 ^ 63 ->
  oom_guard c key (costOf key (value x)) (maxmemory c) (evictPol c) =
    Ret ((0 <? maxmemory c) && (evictPol c =? PolicyNoEviction) &&
         (total (data c) <? total (<[key := x]> (data c))) &&
         (maxmemory c <? total (<[key := x]> (data c)))).
Proof.
  intros I Hfit. unfold oom_guard. destruct (_ && (evictPol c =? PolicyNoEviction)); cbn [andb]; [|done].
  rewrite get_data by done. cbn [mbind outcome_bind].
  pose proof (code_delta c key x Hfit) as Hd. unfold code_old_cost in Hd.
  pose proof (total_nonneg (data c)). pose proof (old_cost_le (data c) key).
  destruct (data c !! key) as [y|]; rewrite Hd, total_overwrite, (cinv_usage c I), i64_add_l, i64_id
    by (unfold in_i64; pose proof (raw_cost_pos key x); lia); f_equal; repeat go_case; done || lia.
Qed.

(** The write itself: swap and account. *)
Lemma store_ok c key x : cinv c -> roomy c key -> total (data c) + raw_cost key x < 2 ^ 63 ->
  exists m', Swap (cm c) key x =
      Ret (m', match data c !! key with Some y => (y, true) | None => (go_zero, false) end) /\
    let c1 := add_usage (with_map c m') (i64 (costOf key (value x) - code_old_cost c key)) in
    cinv c1 /\ frame c c1 /\ evictions c1 = evictions c /\ data c1 = <[key := x]> (data c) /\
    usage c1 = total (<[key := x]> (data c)).
Proof.
  intros I [Hc Hs] Hfit. destruct (Set_returns (cm c) key x (cinv_map c I) Hc Hs) as [m' Em].
  exists m'. rewrite Swap_Set, Em by apply I. split; [done|].
  apply Set_ok in Em as (Im & Hh & Hm); [|apply I]. intros c1.
  assert (usage c1 = i64 (total (<[key := x]> (data c)))) as Hu.
  { cbn. rewrite code_delta by done. by rewrite (cinv_usage c I), i64_add_l, <- total_overwrite. }
  split_and!; [|by split_and!|done|done|].
  - split; [done|apply I| |apply I]. rewrite Hu. unfold data at 2. cbn. by rewrite Hm.
  - rewrite Hu. apply i64_id. rewrite total_overwrite.
    pose proof (old_cost_le (data c) key). pose proof (raw_cost_pos key x). pose proof (total_nonneg (data c)).
    unfold in_i64. lia.
Qed.

(** The three ends of a write. *)
Definition set_rejects c (new : gmap bytes centry) : bool :=
  (0 <? maxmemory c) && (evictPol c =? PolicyNoEviction) &&
  (total (data c) <? total new) && (maxmemory c <? total new).

Definition set_evicts c (new : gmap bytes centry) : bool :=
  (0 <? maxmemory c) && negb (evictPol c =? PolicyNoEviction) && (maxmemory c <? total new).

(** The body of [Set] past the context check, with the clock read. *)
Lemma CacheSet_eq c key v ttl e exp e1 : cinv c -> roomy c key -> set_expiry ttl e = (exp, e1) ->
  let x := MkEntry (cloneBytes v) exp in total (data c) + raw_cost key x < 2 ^ 63 ->
  exists c1, cinv c1 /\ frame c c1 /\ evictions c1 = evictions c /\
    data c1 = <[key := x]> (data c) /\ usage c1 = total (data c1) /\
    CacheSet c None key v ttl e =
      if set_rejects c (data c1) then Ret (c, e1, Some ErrOOM)
      else if set_evicts c (data c1) then
        r ← evictUntilUnder c1 (maxmemory c) (evictPol c) key true e1;
        let '(c2, e2) := r in Ret (c2, e2, None)
      else Ret (c1, e1, None).
Proof.
  intros I Hroom Hexp x Hfit. destruct (store_ok c key x I Hroom Hfit) as (m' & Es & I1 & F1 & Ev1 & D1 & U1).
  exists (add_usage (with_map c m') (i64 (costOf key (value x) - code_old_cost c key))).
  rewrite <- D1 in U1. split_and!; try done. rewrite D1. unfold CacheSet. cbv zeta.
  fold (set_expiry ttl e). rewrite Hexp.
  change (MkEntry (cloneBytes v) exp) with x. change (costOf key (cloneBytes v)) with (costOf key (value x)).
  rewrite (oom_guard_ok c key x) by done. cbn [mbind outcome_bind].
  fold (set_rejects c (<[key := x]> (data c))). destruct (set_rejects c _); [done|].
  rewrite Es. cbn [mbind outcome_bind]. unfold code_old_cost in *.
  destruct (data c !! key) as [old|]; rewrite U1, D1.
  all: cbn beta iota zeta; unfold set_evicts; lazymatch goal with |- ?a = ?b => constr_eq a b end; reflexivity.
Qed.

Lemma CacheSet_ok c key v ttl e exp e1 : cinv c -> roomy c key -> set_expiry ttl e = (exp, e1) ->
  total (data c) + raw_cost key (MkEntry (cloneBytes v) exp) < 2 ^ 63 ->
  let new := <[key := MkEntry (cloneBytes v) exp]> (data c) in
  exists c' e' r, CacheSet c None key v ttl e = Ret (c', e', r) /\ cinv c' /\
    if set_rejects c new then r = Some ErrOOM /\ c' = c /\ e' = e1
    else r = None /\ frame c c' /\
      exists c1, data c1 = new /\ evictions c1 = evictions c /\
        (if set_evicts c new
         then exists missed, evicted c1 c' key true /\
           evict_loop (evict_fuel c1) c1 (maxmemory c) (evictPol c) key true 0 e1 = Ret (c', e', missed) /\
           (total (data c') <= maxmemory c \/ missed = maxEvictMisses + 1)
         else c' = c1 /\ e' = e1).
Proof.
  intros I Hroom Hexp Hfit new.
  destruct (CacheSet_eq c key v ttl e exp e1 I Hroom Hexp Hfit) as (c1 & I1 & F1 & Ev1 & D1 & U1 & ->).
  fold new in D1. rewrite D1 in *. destruct (set_rejects c new). { exists c, e1, (Some ErrOOM). by split_and!. }
  destruct (set_evicts c new); [|exists c1, e1, None; split_and!; [done..|]; exists c1; by split_and!].
  destruct (evictUntilUnder_ok c1 (maxmemory c) (evictPol c) key true e1 I1) as (c' & e' & ms & -> & El & Ev & Hend & _).
  cbn [mbind outcome_bind]. exists c', e', None. split_and!; [done|apply Ev|done|by eapply frame_trans; [|apply Ev]|].
  exists c1. split_and!; [done|done|]. exists ms. split_and!; [done|done|].
  destruct Hend as [Hu|]; [left|by right].
  assert (total (data c') <= usage c1) by (rewrite U1, <- D1; apply total_mono, Ev).
  rewrite (cinv_usage c' (ev_inv _ _ _ _ Ev)), i64_id in Hu; [done|].
  pose proof (total_nonneg (data c')). pose proof (cinv_usage c1 I1) as Hr.
  pose proof (i64_range (total (data c1))). rewrite <- Hr in *. unfold in_i64 in *. lia.
Qed.
End Spec.
