(* ===== verification/CacheOps.v ===== *)
(** * What the cache engine promises: reads, deletion, tuning, construction

    Functional behaviour of the remaining operations, and the simulation of an
    unbounded cache by a finite map with expiry times. *)
From S2P Require Import Prelude Hash Table TableInv TableSpread TableDelete TableSpec ShardMap ShardMapSpec Sample.
From S2P Require Import Sketch SketchSpec Doorkeeper Buffer Policy Cache CacheSpec.

Section Ops.
Context {Seed : Type} `{!GoType Seed} `{!Maphash Seed}.
Context {E : Type} `{!Env E}.
Implicit Types c : Cache Seed.
Implicit Types e : E.

(** ** Expiry *)
Definition live_at (t : Z) (x : centry) : bool := (expiresAt x =? 0) || (t <? expiresAt x).

(** A clock that stands still during the operation. *)
Definition frozen (t : Z) e : Prop := env_now e = (t, e).

Lemma expired_frozen t x e : frozen t e -> expired x e = (negb (live_at t x), e).
Proof.
  intros Hf. unfold expired, live_at. destruct (expiresAt x =? 0); [done|]. cbn. by rewrite Hf.
Qed.

(** ** Get *)
Lemma record_access_ok c key e : cinv c ->
  exists p e', record_access c key e = Ret (with_policy c p, e') /\ pwf p /\ active p = active (cpolicy c) /\
    (active (cpolicy c) = false -> p = cpolicy c /\ e' = e).
Proof.
  intros I. unfold record_access.
  destruct (if active (cpolicy c) then env_trylock e else (false, e)) as [free e'] eqn:Ef.
  destruct (Record_ok (cpolicy c) (fingerprint c key) free (cinv_policy c I)) as (p & Ep & Wp & Hap).
  rewrite Ep. cbn. exists p, e'. split_and!; [done..|]. intros Ha. rewrite Ha in Ef.
  unfold Record_ in Ep. rewrite Ha in Ep. cbn in Ep. by simplify_eq.
Qed.

(** What [Get] does with the stored entry, if any. *)
Lemma CacheGet_ok c key e : cinv c ->
  exists c' e' r, CacheGet c None key e = Ret (c', e', r) /\ cinv c' /\ cm c' = cm c /\
    usage c' = usage c /\ maxmemory c' = maxmemory c /\ evictPol c' = evictPol c /\
    evictions c' = evictions c /\ active (cpolicy c') = active (cpolicy c) /\
    match data c !! key with
    | Some x =>
        let '(dead, e1) := expired x e in
        if dead : bool
        then r = (None, false, None) /\ e' = e1 /\ misses c' = u64 (misses c + 1) /\ hits c' = hits c
        else r = (Some (value x), true, None) /\ misses c' = misses c /\ hits c' = u64 (hits c + 1) /\
             (active (cpolicy c) = false -> e' = e1)
    | None => r = (None, false, None) /\ e' = e /\ misses c' = u64 (misses c + 1) /\ hits c' = hits c
    end.
Proof.
  intros I. unfold CacheGet. rewrite get_data by done. cbn [mbind outcome_bind].
  assert (cinv (add_miss c)) as Im by (by destruct I).
  destruct (data c !! key) as [x|]; cbn [negb orb].
  - destruct (expired x e) as [[] e1]; cbn [orb].
    + eexists _, _, _. by split_and!.
    + assert (cinv (add_hit c)) as Ih by (by destruct I).
      destruct (record_access_ok (add_hit c) key e1 Ih) as (p & e2 & -> & Wp & Hap & Ha).
      cbn [mbind outcome_bind]. eexists _, _, _. split_and!; try done.
      * by destruct Ih.
      * intros H. by apply Ha.
  - eexists _, _, _. by split_and!.
Qed.

(** ** Del *)
Lemma CacheDel_ok c key e : cinv c ->
  exists c' e' r, CacheDel c None key e = Ret (c', e', (r, None)) /\ cinv c' /\ frame c c' /\
    evictions c' = evictions c /\ data c' = delete key (data c) /\
    match data c !! key with
    | Some x => (r, e') = (negb (fst (expired x e)), snd (expired x e))
    | None => r = false /\ e' = e
    end.
Proof.
  intros I. unfold CacheDel. destruct (delete_data c key I) as (m' & -> & Im & Hh & Hm).
  cbn [mbind outcome_bind]. destruct (data c !! key) as [x|] eqn:Ex; cbn [negb].
  - destruct (expired x e) as [dead e1]. eexists _, _, _. split_and!; try done.
    split; cbn; [done|apply I|by apply usage_delete|apply I].
  - eexists _, _, _. split_and!; try done. split; cbn; [done|apply I| |apply I].
    unfold data. cbn. rewrite Hm, delete_id by done. apply I.
Qed.

(** ** TTL *)
Lemma CacheTTL_ok c key e : cinv c ->
  CacheTTL c None key e = Ret (
    match data c !! key with
    | None => (e, (0, false, None))
    | Some x =>
        let '(dead, e1) := expired x e in
        if dead : bool then (e1, (0, false, None))
        else if expiresAt x =? 0 then (e1, (-1, true, None))
        else let '(t, e2) := env_now e1 in (e2, (sub_time (expiresAt x) t, true, None))
    end).
Proof.
  intros I. unfold CacheTTL. rewrite get_data by done. cbn [mbind outcome_bind].
  destruct (data c !! key) as [x|]; cbn [negb orb]; [|done].
  destruct (expired x e) as [[] e1]; cbn [orb]; [done|].
  destruct (expiresAt x =? 0); [done|]. by destruct (env_now e1).
Qed.

(** ** Len *)
Lemma len_walk t e l : frozen t e -> forall n,
  walk len_fn l (i64 n, e) =
    (i64 (n + Z.of_nat (length (List.filter (fun kx => live_at t (snd kx)) l))), e, true).
Proof.
  intros Hf. induction l as [|[k x] l IH]; intros n; cbn [walk List.filter]; [by rewrite Z.add_0_r|].
  unfold len_fn at 1. rewrite (expired_frozen t) by done. cbn [snd].
  destruct (live_at t x); cbn [negb length].
  - rewrite i64_add_l, IH. do 3 f_equal. lia.
  - apply IH.
Qed.

Definition live_data (t : Z) c : list (bytes * centry) :=
  List.filter (fun kx => live_at t (snd kx)) (map_to_list (data c)).

Lemma filter_perm {A} (f : A -> bool) l l' : l ≡ₚ l' ->
  length (List.filter f l) = length (List.filter f l').
Proof. induction 1; cbn; repeat destruct (f _); cbn; lia. Qed.

Lemma CacheLen_ok c t e : cinv c -> frozen t e ->
  CacheLen c None e = Ret (e, (i64 (Z.of_nat (length (live_data t c))), None)).
Proof.
  intros I Hf. unfold CacheLen. rewrite Range_ok by apply I. change (0, e) with (i64 0, e).
  rewrite (len_walk t) by done. cbn. do 3 f_equal. unfold live_data.
  rewrite (filter_perm _ _ _ (all_pairs_perm _ (cinv_map c I))). done.
Qed.

(** ** Tuning *)
Lemma counters_range mm : policyCountersMin <= counters_for mm <= policyCountersMax.
Proof.
  unfold counters_for, policyCountersMin, policyCountersMax. change (Z.shiftl 1 22) with 4194304.
  repeat go_case; lia.
Qed.

Lemma cinv_with_policy c p : pwf p -> cinv c -> cinv (with_policy c p).
Proof. intros Wp []. by split. Qed.

Lemma pwf_SetActive p on : pwf p -> pwf (SetActive p on).
Proof. by intros []. Qed.

(** The policy records accesses exactly under a bounded [allkeys-lfu]. *)
Definition tuned c : Prop :=
  active (cpolicy c) = (evictPol c =? PolicyAllKeysLFU) && (0 <? maxmemory c).

Lemma refreshActive_ok c : cinv c -> cinv (refreshActive c) /\ tuned (refreshActive c).
Proof. intros I. split; [|done]. by apply cinv_with_policy; [apply pwf_SetActive, I|]. Qed.

(** [SetMaxMemory] up to its eviction pass. *)
Lemma SetMaxMemory_eq c n e : cinv c -> tuned c ->
  exists c1, cinv c1 /\ tuned c1 /\ cm c1 = cm c /\ usage c1 = usage c /\ evictions c1 = evictions c /\
    maxmemory c1 = n /\ evictPol c1 = evictPol c /\ policyCounters c1 = counters_for n /\
    SetMaxMemory c n e =
      if (0 <? n) && negb (evictPol c =? PolicyNoEviction) && (n <? usage c)
      then evictUntilUnder c1 n (evictPol c) [] false e else Ret (c1, e).
Proof.
  intros I Ht. unfold SetMaxMemory. cbv zeta.
  set (c2 := with_limits (with_limits c n (evictPol c) (policyCounters c)) n (evictPol c) _).
  set (pcfg := policyConfig _).
  assert (cinv c2) as I2 by (by destruct I).
  assert (exists p, pwf p /\ (if negb (Counters pcfg =? policyCounters (with_limits c n (evictPol c) (policyCounters c)))
    then p ← Resize (cpolicy c2) pcfg; Ret (with_policy c2 p) else Ret c2) = Ret (with_policy c2 p))
    as (p & Wp & ->).
  { destruct (negb _).
    - destruct (Resize_ok (cpolicy c2) pcfg) as (p & -> & Wp); [|apply I2|by exists p].
      pose proof (counters_range n). change policyCountersMax with 4194304 in *. cbn. lia.
    - exists (cpolicy c2). split; [apply I2|done]. }
  cbn [mbind outcome_bind]. exists (refreshActive (with_policy c2 p)).
  destruct (refreshActive_ok (with_policy c2 p)) as [I3 T3]; [by apply cinv_with_policy|].
  split_and!; try done. cbn [refreshActive with_policy c2 with_limits evictPol usage].
  by destruct (0 <? n).
Qed.

(** ** Construction *)
Definition ccfg_of (opts : list (COption (Seed:=Seed))) : cconfig Seed :=
  foldl (fun x opt => opt x) (MkCConfig [] 0 PolicyAllKeysLFU) opts.

Lemma CacheNew_ok gomaxprocs freshMap freshFp freshPol opts :
  1 <= gomaxprocs <= 2 ^ 43 -> want_shards gomaxprocs (shardOpts (ccfg_of opts)) <= 2 ^ 40 ->
  0 <= initialCap (cfg_of (shardOpts (ccfg_of opts))) <= 3 * 2 ^ 40 ->
  exists c, CacheNew gomaxprocs freshMap freshFp freshPol opts = Ret c /\ cinv c /\ tuned c /\
    data c = ∅ /\ usage c = 0 /\ maxmemory c = cfg_maxmemory (ccfg_of opts) /\
    evictPol c = cfg_policy (ccfg_of opts) /\ hits c = 0 /\ misses c = 0 /\ evictions c = 0.
Proof.
  intros Hg Hw Hi. unfold CacheNew. fold (ccfg_of opts).
  destruct (New_ok (K:=bytes) (V:=centry) gomaxprocs freshMap hash_String (shardOpts (ccfg_of opts)))
    as (m & -> & Im & Hm & _); [lia|done|done|intros; apply hash_String_range|].
  cbn [mbind outcome_bind]. pose proof (counters_range (cfg_maxmemory (ccfg_of opts))).
  change policyCountersMax with 4194304 in *.
  destruct (NewPolicy_ok gomaxprocs (MkPolicyConfig (counters_for (cfg_maxmemory (ccfg_of opts))) 0 0 freshPol))
    as (p & -> & Wp & _); [cbn; lia..|]. cbn [mbind outcome_bind].
  set (c := MkCache m p _ _ _ _ _ _ _ _ _).
  assert (cinv c) as Ic. { split; cbn; [done|done| |done]. unfold data. cbn. by rewrite Hm. }
  exists (refreshActive c). destruct (refreshActive_ok c Ic). by split_and!.
Qed.
End Ops.
