(* ===== verification/CacheProps.v ===== *)
(** * Properties of the cache engine *)
From S2P Require Import Prelude Hash Table TableInv TableSpread TableDelete TableSpec ShardMap ShardMapSpec Sample.
From S2P Require Import Sketch SketchSpec Doorkeeper Buffer Policy Cache CacheSpec CacheOps.

(** ** The engine as a transition system, and its reference *)
Section Ref.
Context {Seed : Type} `{!GoType Seed} `{!Maphash Seed}.
Context {E : Type} `{!Env E}.
Implicit Types c : Cache Seed.
Implicit Types e : E.

(** One call by a client, a live tuning, or a step of the drainer.  Writes are taken
    in states where the key fits the shard tables and the byte total fits an int64. *)
Inductive cstep c e : Cache Seed -> E -> Prop :=
| cs_get ctx k c' e' r : CacheGet c ctx k e = Ret (c', e', r) -> cstep c e c' e'
| cs_set ctx k v ttl c' e' r : roomy c k ->
    total (data c) + raw_cost k (MkEntry (cloneBytes v) 0) < 2 ^ 63 ->
    CacheSet c ctx k v ttl e = Ret (c', e', r) -> cstep c e c' e'
| cs_del ctx k c' e' r : CacheDel c ctx k e = Ret (c', e', r) -> cstep c e c' e'
| cs_maxmemory n c' e' : SetMaxMemory c n e = Ret (c', e') -> cstep c e c' e'
| cs_policy p : cstep c e (SetEvictionPolicy c p) e
| cs_drain p : drainOnce (cpolicy c) = Ret p -> cstep c e (with_policy c p) e
| cs_close c' : CacheClose c = Ret c' -> cstep c e c' e.

Inductive creach c0 e0 : Cache Seed -> E -> Prop :=
| cr_start : creach c0 e0 c0 e0
| cr_step c e c' e' : creach c0 e0 c e -> cstep c e c' e' -> creach c0 e0 c' e'.

(** The reference: a finite map from keys to values with an expiry, which answers a
    request at one instant. *)
Inductive req : Type :=
| RqGet (k : bytes)
| RqSet (k : bytes) (v : option bytes) (ttl : Z)
| RqDel (k : bytes)
| RqTTL (k : bytes).

Inductive rsp : Type :=
| RsGet (v : option bytes * bool * option error)
| RsSet (err : option error)
| RsDel (r : bool * option error)
| RsTTL (r : Z * bool * option error).

Definition ref_live (t : Z) (m : gmap bytes centry) (k : bytes) : option centry :=
  x ← m !! k; if live_at t x then Some x else None.

(** TTL reports a key that is not live as absent, -1 for one without expiry, and
    otherwise the time left, which is positive; it is capped at the largest Duration. *)
Definition ref_step (m : gmap bytes centry) (t : Z) (q : req) : gmap bytes centry * rsp :=
  match q with
  | RqGet k => (m, RsGet (match ref_live t m k with Some x => (Some (value x), true, None) | None => (None, false, None) end))
  | RqSet k v ttl => (<[k := MkEntry (default [] v) (if 0 <? ttl then t + ttl else 0)]> m, RsSet None)
  | RqDel k => (delete k m, RsDel (bool_decide (is_Some (ref_live t m k)), None))
  | RqTTL k => (m, RsTTL (match ref_live t m k with
      | Some x => (if expiresAt x =? 0 then -1 else Z.min (2 ^ 63 - 1) (expiresAt x - t), true, None)
      | None => (0, false, None)
      end))
  end.

Lemma ref_ttl_positive m t k rem err m' : ref_step m t (RqTTL k) = (m', RsTTL (rem, true, err)) ->
  exists x, m !! k = Some x /\ (expiresAt x = 0 /\ rem = -1 \/ 0 < rem /\ t + rem <= expiresAt x).
Proof.
  cbn. unfold ref_live. destruct (m !! k) as [x|]; cbn; [|done]. destruct (live_at t x) eqn:El; [|done].
  intros [= _ <- _]. exists x. split; [done|]. unfold live_at in El. destruct (Z.eqb_spec (expiresAt x) 0); [by left|right].
  cbn in El. lia.
Qed.

(** The clock readings a call can make: [TTL] reads twice, the others at most once. *)
Definition first_reading e : Z := fst (env_now e).
Definition second_reading e : Z := fst (env_now (snd (env_now e))).

(** The key does not expire between the two readings of [TTL]. *)
Definition steady (m : gmap bytes centry) e (k : bytes) : Prop :=
  forall x, m !! k = Some x -> first_reading e < expiresAt x -> second_reading e < expiresAt x.

Definition req_steady (m : gmap bytes centry) e (q : req) : Prop :=
  match q with RqTTL k => steady m e k | _ => True end.

(** The engine's answer to the same request. *)
Definition eng_step c e (q : req) : outcome (Cache Seed * E * rsp) :=
  match q with
  | RqGet k => r ← CacheGet c None k e; let '(c', e', x) := r in Ret (c', e', RsGet x)
  | RqSet k v ttl => r ← CacheSet c None k v ttl e; let '(c', e', x) := r in Ret (c', e', RsSet x)
  | RqDel k => r ← CacheDel c None k e; let '(c', e', x) := r in Ret (c', e', RsDel x)
  | RqTTL k => r ← CacheTTL c None k e; let '(e', x) := r in Ret (c, e', RsTTL x)
  end.

(** The simulation relation: an unbounded cache and the map it stands for. *)
Record simulates c (m : gmap bytes centry) : Prop := {
  sim_inv : cinv c;
  sim_tuned : tuned c;
  sim_unbounded : maxmemory c <= 0;
  sim_data : data c = m;
}.

Definition req_fits c (q : req) : Prop :=
  match q with
  | RqSet k v _ => roomy c k /\ total (data c) + raw_cost k (MkEntry (cloneBytes v) 0) < 2 ^ 63
  | _ => True
  end.

Lemma inactive_unbounded c : tuned c -> maxmemory c <= 0 -> active (cpolicy c) = false.
Proof. intros -> H. replace (0 <? maxmemory c) with false by lia. apply andb_false_r. Qed.

Lemma frame_tuned c c' : frame c c' -> tuned c -> tuned c'.
Proof. unfold frame, tuned. intros (-> & _ & _ & -> & -> & _). done. Qed.

Lemma sim_set c m k v ttl e : simulates c m -> req_fits c (RqSet k v ttl) ->
  exists c', CacheSet c None k v ttl e = Ret (c', snd (set_expiry ttl e), None) /\
    simulates c' (<[k := MkEntry (cloneBytes v) (fst (set_expiry ttl e))]> m).
Proof.
  intros [I Ht Hu <-] [Hr Hf]. destruct (set_expiry ttl e) as [exp e1] eqn:Ex.
  destruct (CacheSet_ok c k v ttl e exp e1 I Hr Ex Hf) as (c' & e' & r & Er & I' & Hc).
  unfold set_rejects, set_evicts in Hc. replace (0 <? maxmemory c) with false in Hc by lia. cbn [andb] in Hc.
  destruct Hc as (-> & F & c1 & D1 & _ & -> & ->). exists c1. cbn [fst snd]. split; [done|].
  split; [done|by eapply frame_tuned| |done]. destruct F as (_ & _ & _ & -> & _). done.
Qed.

Lemma expired_live x e : expired x e = (negb (live_at (first_reading e) x), snd (expired x e)).
Proof.
  unfold expired, live_at, first_reading. destruct (expiresAt x =? 0); cbn; [done|]. by destruct (env_now e).
Qed.

(** What TTL answers, at the reading that decides it. *)
Lemma ttl_at c k e : cinv c -> steady (data c) e k ->
  exists t e', CacheTTL c None k e = Ret (e', match ref_live t (data c) k with
      | Some x => (if expiresAt x =? 0 then -1 else Z.min (2 ^ 63 - 1) (expiresAt x - t), true, None)
      | None => (0, false, None)
      end) /\
    (t = first_reading e \/ t = second_reading e) /\
    (e' = e \/ e' = snd (env_now e) \/ e' = snd (env_now (snd (env_now e)))).
Proof.
  intros I Hs. rewrite CacheTTL_ok by done. unfold ref_live, steady, first_reading, second_reading, expired, live_at in *.
  destruct (data c !! k) as [x|]; cbn [mbind option_bind]; [|exists (fst (env_now e)), e; split_and!; auto].
  specialize (Hs x eq_refl). destruct (expiresAt x =? 0) eqn:E0; cbn [negb orb].
  { exists (fst (env_now e)), e. rewrite E0. split_and!; auto. }
  destruct (env_now e) as [t1 e1]. cbn [fst snd] in *. destruct (Z.ltb_spec t1 (expiresAt x)); cbn [negb].
  - destruct (env_now e1) as [t2 e2]. cbn [fst snd] in *. exists t2, e2.
    destruct (Z.ltb_spec t2 (expiresAt x)); [|lia]. rewrite E0. split_and!; auto. unfold sub_time. do 4 f_equal. lia.
  - exists t1, e1. destruct (Z.ltb_spec t1 (expiresAt x)); [lia|]. split_and!; auto.
Qed.

Lemma sim_step c m e q : simulates c m -> req_fits c q -> req_steady m e q ->
  exists c' e' r m' t, eng_step c e q = Ret (c', e', r) /\ ref_step m t q = (m', r) /\ simulates c' m' /\
    (t = first_reading e \/ t = second_reading e) /\
    (e' = e \/ e' = snd (env_now e) \/ e' = snd (env_now (snd (env_now e)))).
Proof.
  intros S Hq Hst. pose proof S as [I Ht Hu Hd]. pose proof (inactive_unbounded c Ht Hu) as Ha.
  assert (forall x : centry, snd (expired x e) = e \/ snd (expired x e) = snd (env_now e)) as Hexp.
  { intros x. unfold expired. destruct (negb _); [right; by destruct (env_now e)|by left]. }
  destruct q as [k|k v ttl|k|k]; cbn [eng_step ref_step].
  - destruct (CacheGet_ok c k e I) as (c' & e' & r & -> & I' & Hm & _ & Hmm & Hep & _ & Hact & Hr).
    cbn [mbind outcome_bind]. exists c', e', (RsGet r), m, (first_reading e). split; [done|].
    assert (simulates c' m) as S'.
    { split; [done| |lia|unfold data; by rewrite Hm]. unfold tuned. by rewrite Hact, Hep, Hmm. }
    unfold ref_live. rewrite <- Hd at 2. destruct (data c !! k) as [x|]; cbn [mbind option_bind].
    2:{ destruct Hr as (-> & -> & _). split_and!; auto. }
    pose proof (Hexp x) as He. pose proof (expired_live x e) as El. destruct (expired x e) as [dead e1]. injection El as ->.
    cbn [snd] in He. destruct (live_at (first_reading e) x); cbn [negb] in Hr.
    + destruct Hr as (-> & _ & _ & ->); [|done]. split_and!; tauto.
    + destruct Hr as (-> & -> & _). split_and!; tauto.
  - destruct (sim_set c m k v ttl e S Hq) as (c' & -> & S'). cbn [mbind outcome_bind].
    eexists c', _, _, _, (first_reading e). split; [done|]. split; [done|]. unfold set_expiry, first_reading in *.
    destruct (0 <? ttl); [destruct (env_now e) as [t1 e1]|]; cbn in *; split_and!; auto.
  - destruct (CacheDel_ok c k e I) as (c' & e' & r & -> & I' & F & _ & D & Hr). cbn [mbind outcome_bind].
    exists c', e', (RsDel (r, None)), (delete k m), (first_reading e). split; [done|].
    assert (simulates c' (delete k m)) as S'.
    { split; [done|by eapply frame_tuned| |by rewrite D, Hd]. destruct F as (_ & _ & _ & -> & _). done. }
    subst m. unfold ref_live. destruct (data c !! k) as [x|]; cbn [mbind option_bind].
    + pose proof (Hexp x). rewrite expired_live in Hr. cbn [fst snd] in Hr. rewrite negb_involutive in Hr. injection Hr as -> ->.
      split_and!; [|done|by left|tauto]. do 3 f_equal. destruct (live_at _ x); [by apply bool_decide_eq_true_2|].
      apply bool_decide_eq_false_2. by intros [].
    + destruct Hr as [-> ->]. split_and!; auto.
  - destruct (ttl_at c k e I) as (t & e' & -> & Ht1 & He); [by rewrite Hd|]. cbn [mbind outcome_bind]. rewrite Hd.
    eexists c, e', _, m, t. split_and!; done.
Qed.

(** ** The invariant of the transition system *)
Lemma CacheSet_frame c ctx k v ttl e c' e' r : cinv c -> roomy c k ->
  total (data c) + raw_cost k (MkEntry (cloneBytes v) 0) < 2 ^ 63 ->
  CacheSet c ctx k v ttl e = Ret (c', e', r) -> cinv c' /\ frame c c'.
Proof.
  intros I Hr Hf Hx. destruct ctx; [cbn in Hx; simplify_eq; by split; [|apply frame_refl]|].
  destruct (set_expiry ttl e) as [exp e1] eqn:Ex.
  destruct (CacheSet_ok c k v ttl e exp e1 I Hr Ex Hf) as (c1 & e2 & r1 & E1 & I1 & H1).
  rewrite E1 in Hx. simplify_eq. split; [done|]. destruct (set_rejects c _).
  - destruct H1 as (_ & -> & _). apply frame_refl.
  - by destruct H1 as (_ & F & _).
Qed.

Lemma SetMaxMemory_inv c n e c' e' : cinv c -> tuned c -> SetMaxMemory c n e = Ret (c', e') ->
  cinv c' /\ tuned c'.
Proof.
  intros I T Hx. destruct (SetMaxMemory_eq c n e I T) as (c1 & I1 & T1 & _ & _ & _ & _ & _ & _ & E1).
  rewrite E1 in Hx. destruct (_ && _ && _); [|by simplify_eq].
  destruct (evictUntilUnder_ok c1 n (evictPol c) [] false e I1) as (c2 & e2 & ms & E2 & _ & Ev & _).
  rewrite E2 in Hx. simplify_eq. split; [apply Ev|]. eapply frame_tuned; [apply Ev|done].
Qed.

Lemma tuned_policy c p : active p = active (cpolicy c) -> tuned c -> tuned (with_policy c p).
Proof. unfold tuned. cbn. congruence. Qed.

Lemma cstep_inv c e c' e' : cinv c /\ tuned c -> cstep c e c' e' -> cinv c' /\ tuned c'.
Proof.
  intros [I T] Hs.
  destruct Hs as [ctx k c' e' r Hx|ctx k v ttl c' e' r Hr Hf Hx|ctx k c' e' r Hx|n c' e' Hx|p|p Hx|c' Hx].
  - destruct ctx; [by cbn in Hx; simplify_eq|].
    destruct (CacheGet_ok c k e I) as (c1 & e1 & r1 & E1 & I1 & _ & _ & Hmm & Hep & _ & Hact & _).
    rewrite E1 in Hx. simplify_eq. split; [done|]. unfold tuned. by rewrite Hact, Hep, Hmm.
  - apply CacheSet_frame in Hx as [? ?]; [|done..]. split; [done|by eapply frame_tuned].
  - destruct ctx; [by cbn in Hx; simplify_eq|].
    destruct (CacheDel_ok c k e I) as (c1 & e1 & r1 & E1 & I1 & F & _).
    rewrite E1 in Hx. simplify_eq. split; [done|by eapply frame_tuned].
  - by eapply SetMaxMemory_inv.
  - apply refreshActive_ok. by destruct I.
  - destruct (drainOnce_ok _ (cinv_policy c I)) as (p1 & E1 & Wp & _ & _ & _ & _ & Ha).
    rewrite E1 in Hx. simplify_eq. split; [by apply cinv_with_policy|by apply tuned_policy].
  - unfold CacheClose in Hx. destruct (Close_ok _ (cinv_policy c I)) as (p1 & E1 & Wp & _ & Ha).
    rewrite E1 in Hx. cbn in Hx. simplify_eq. split; [by apply cinv_with_policy|by apply tuned_policy].
Qed.

Lemma creach_inv c0 e0 c e : cinv c0 /\ tuned c0 -> creach c0 e0 c e -> cinv c /\ tuned c.
Proof. intros I0. induction 1; [done|by eapply cstep_inv]. Qed.
End Ref.

(** ** Properties *)
Section Props.
Context {Seed : Type} `{!GoType Seed} `{!Maphash Seed}.
Context {E : Type} `{!Env E}.
Implicit Types c : Cache Seed.
Implicit Types e : E.

(** C3. Writes stick.  [Set] returns for every random source.  Only under
    [noeviction] with a ceiling, and only when the write grows the byte total past
    it, is the write refused with [ErrOOM] and the cache left as it was.  Otherwise
    the new value is stored, whatever was evicted; only other keys can be missing
    afterwards, none is missing unless the total exceeds the ceiling of an evicting
    policy, and then the total ends at or under the ceiling or the pass drew 101
    samples without an eligible victim. *)
Theorem cache_set_correct c key v ttl e exp e1 :
  cinv c -> roomy c key -> set_expiry ttl e = (exp, e1) ->
  total (data c) + raw_cost key (MkEntry (cloneBytes v) exp) < 2 ^ 63 ->
  let x := MkEntry (cloneBytes v) exp in
  let new := <[key := x]> (data c) in
  exists c' e' r, CacheSet c None key v ttl e = Ret (c', e', r) /\ cinv c' /\
    (r = Some ErrOOM <-> 0 < maxmemory c /\ evictPol c = PolicyNoEviction /\
       total (data c) < total new /\ maxmemory c < total new) /\
    (r = Some ErrOOM -> c' = c) /\
    (r <> Some ErrOOM -> r = None /\ data c' !! key = Some x /\ data c' ⊆ new /\
       (data c' <> new -> 0 < maxmemory c < total new /\ evictPol c <> PolicyNoEviction) /\
       (0 < maxmemory c -> evictPol c <> PolicyNoEviction -> total (data c') <= maxmemory c \/
          exists c1, data c1 = new /\
            evict_loop (evict_fuel c1) c1 (maxmemory c) (evictPol c) key true 0 e1 =
              Ret (c', e', maxEvictMisses + 1))).
Proof.
  intros I Hr Hx Hf x new. destruct (CacheSet_ok c key v ttl e exp e1 I Hr Hx Hf) as (c' & e' & r & Er & I' & H).
  exists c', e', r. split; [done|]. split; [done|]. fold x new in H.
  destruct (set_rejects c new) eqn:Ej; unfold set_rejects in Ej.
  - destruct H as (-> & -> & ->). rewrite !andb_true_iff in Ej. split_and!; [|done|done]. split; [|done]. lia.
  - destruct H as (-> & F & c1 & D1 & Ev1 & H). split_and!; [|done|].
    { split; [done|]. intros (? & ? & ? & ?). exfalso. rewrite <- not_true_iff_false in Ej.
      apply Ej. rewrite !andb_true_iff. lia. }
    intros _. split; [done|]. destruct (set_evicts c new) eqn:Ee; unfold set_evicts in Ee.
    + rewrite !andb_true_iff, negb_true_iff, Z.eqb_neq in Ee. destruct H as (ms & Ev & El & Hend).
      split_and!; [|rewrite <- D1; apply Ev|intros _; lia|].
      * rewrite (ev_keep _ _ _ _ Ev), D1 by done. apply lookup_insert_eq.
      * intros _ _. destruct Hend as [?| ->]; [by left|right; by exists c1].
    + destruct H as (-> & ->). rewrite D1. split_and!; [apply lookup_insert_eq|done|done|].
      intros ? Hp%Z.eqb_neq. left. rewrite <- not_true_iff_false, !andb_true_iff, negb_true_iff in Ee. lia.
Qed.

(** C4. Accounting.  From a freshly built cache, after any sequence of client
    calls (cancelled ones included), live tunings and drainer steps, the memory
    counter equals the sum of the costs of the stored entries as a 64-bit integer,
    hence exactly while that sum fits; the sharded map and the policy keep their
    invariants; and the policy records accesses exactly under a bounded
    [allkeys-lfu]. *)
Theorem cache_accounting gomaxprocs freshMap freshFp freshPol opts e0 :
  1 <= gomaxprocs <= 2 ^ 43 -> want_shards gomaxprocs (shardOpts (ccfg_of opts)) <= 2 ^ 40 ->
  0 <= initialCap (cfg_of (shardOpts (ccfg_of opts))) <= 3 * 2 ^ 40 ->
  exists c0, CacheNew gomaxprocs freshMap freshFp freshPol opts = Ret c0 /\ data c0 = ∅ /\
    forall c (e : E), creach c0 e0 c e ->
      usage c = i64 (total (data c)) /\ (total (data c) < 2 ^ 63 -> usage c = total (data c)) /\
      minv (cm c) /\ pwf (cpolicy c) /\
      active (cpolicy c) = (evictPol c =? PolicyAllKeysLFU) && (0 <? maxmemory c).
Proof.
  intros Hg Hw Hi. destruct (CacheNew_ok gomaxprocs freshMap freshFp freshPol opts Hg Hw Hi)
    as (c0 & E0 & I0 & T0 & D0 & _).
  exists c0. split_and!; [done..|]. intros c e Hr. apply creach_inv in Hr as [I T]; [|done].
  pose proof (cinv_usage c I) as Hu. split_and!; [done| |apply I|apply I|done].
  intros Hfit. rewrite Hu. apply i64_id. pose proof (total_nonneg (data c)). unfold in_i64. lia.
Qed.

(** C17. Eviction.  [evictUntilUnder] returns for every random source.  It does
    nothing at or under the ceiling; otherwise it removes entries one by one, never
    the excluded key, until the memory counter is at or under the ceiling or 101
    samples held no eligible victim; the eviction counter grows by the number of
    entries removed and nothing else changes. *)
Theorem cache_eviction c ceiling pol exclude hasExclude e :
  cinv c ->
  exists c' e' missed, evictUntilUnder c ceiling pol exclude hasExclude e = Ret (c', e') /\
    evict_loop (evict_fuel c) c ceiling pol exclude hasExclude 0 e = Ret (c', e', missed) /\
    cinv c' /\ frame c c' /\ data c' ⊆ data c /\
    (hasExclude = true -> data c' !! exclude = data c !! exclude) /\
    evictions c' = u64 (evictions c + Z.of_nat (size (data c) - size (data c'))) /\
    (usage c' <= ceiling \/ missed = maxEvictMisses + 1) /\ (usage c <= ceiling -> c' = c).
Proof.
  intros I. destruct (evictUntilUnder_ok c ceiling pol exclude hasExclude e I)
    as (c' & e' & ms & E1 & E2 & [] & He & Hid). exists c', e', ms. by split_and!.
Qed.

(** C18. Victims.  [pickVictim] finds a victim whenever some candidate is not the
    excluded key; the victim is such a candidate, and except under
    [allkeys-random] no other eligible candidate has a lower estimated frequency. *)
Theorem victim_lowest_frequency c cands pol exclude hasExclude :
  pwf (cpolicy c) ->
  exists r, pickVictim c cands pol exclude hasExclude = Ret r /\
    match r with
    | None => forall x, x ∈ cands -> hasExclude = true /\ Key x = exclude
    | Some k =>
        (hasExclude = true -> k <> exclude) /\ k ∈ Key <$> cands /\
        (pol <> PolicyAllKeysRandom -> forall x, x ∈ cands -> (hasExclude = true -> Key x <> exclude) ->
           exists f fx, Estimate (cpolicy c) (fingerprint c k) = Ret f /\
             Estimate (cpolicy c) (fingerprint c (Key x)) = Ret fx /\ f <= fx)
    end.
Proof.
  intros W. destruct (pickVictim_ok c cands pol exclude hasExclude W) as (r & -> & Hr). exists r. split; [done|].
  assert (forall k, eligible exclude hasExclude k = true <-> (hasExclude = true -> k <> exclude)) as Hel.
  { intros k. unfold eligible. destruct hasExclude; cbn; [|naive_solver].
    rewrite negb_true_iff, bool_decide_eq_false. naive_solver. }
  destruct r as [k|].
  - destruct Hr as (He & Hin & Hmin). split_and!; [by apply Hel|done|]. intros Hp x Hx Hex.
    exists (freq c k), (freq c (Key x)). split_and!; [apply estimate_ok, W|apply estimate_ok, W|].
    apply Hmin; [done|done|by apply Hel].
  - intros x Hx. specialize (Hr x Hx). unfold eligible in Hr. rewrite negb_false_iff, andb_true_iff in Hr.
    destruct Hr as [? ?%bool_decide_eq_true]. done.
Qed.

(** Reads.  With the clock at [t], [Get] returns the stored value exactly when
    the key is present and either never expires or expires after [t]; it changes
    no entry and no accounting, and counts one hit or one miss. *)
Theorem cache_get_correct c key t e :
  cinv c -> frozen t e ->
  exists c' e' r, CacheGet c None key e = Ret (c', e', r) /\ cinv c' /\ cm c' = cm c /\ usage c' = usage c /\
    match data c !! key with
    | Some x => if live_at t x
                then r = (Some (value x), true, None) /\ hits c' = u64 (hits c + 1) /\ misses c' = misses c
                else r = (None, false, None) /\ hits c' = hits c /\ misses c' = u64 (misses c + 1)
    | None => r = (None, false, None) /\ hits c' = hits c /\ misses c' = u64 (misses c + 1)
    end.
Proof.
  intros I Hf. destruct (CacheGet_ok c key e I) as (c' & e' & r & Er & I' & Hm & Hu & _ & _ & _ & _ & Hr).
  exists c', e', r. split_and!; [done..|]. destruct (data c !! key) as [x|]; [|naive_solver].
  rewrite (expired_frozen t) in Hr by done. destruct (live_at t x); cbn in Hr; naive_solver.
Qed.

(** Deletion.  [Del] removes the entry, live or expired, gives its cost back,
    and reports true exactly when it was present and live. *)
Theorem cache_del_correct c key t e :
  cinv c -> frozen t e ->
  exists c' e', CacheDel c None key e =
      Ret (c', e', (match data c !! key with Some x => live_at t x | None => false end, None)) /\
    cinv c' /\ data c' = delete key (data c) /\
    total (data c') = total (data c) - old_cost (data c) key.
Proof.
  intros I Hf. destruct (CacheDel_ok c key e I) as (c' & e' & r & Er & I' & _ & _ & D & Hr).
  exists c', e'. split_and!; [|done|done|].
  - rewrite Er. destruct (data c !! key) as [x|]; [|by destruct Hr as [-> _]].
    rewrite (expired_frozen t) in Hr by done. cbn in Hr. rewrite negb_involutive in Hr. by simplify_eq.
  - rewrite D. unfold old_cost. destruct (data c !! key) as [x|] eqn:Ex.
    + rewrite (total_delete _ _ _ Ex). lia.
    + rewrite delete_id by done. lia.
Qed.

(** Remaining lifetime.  With the clock standing still at [t], [TTL] reports
    absence exactly when the key is missing or expired, -1 for a key without
    expiry, and otherwise the positive time left (saturated to a Duration). *)
Theorem cache_ttl_correct c key t e :
  cinv c -> frozen t e ->
  exists rem ok, CacheTTL c None key e = Ret (e, (rem, ok, None)) /\
    match data c !! key with
    | Some x => if live_at t x
                then ok = true /\ (expiresAt x = 0 -> rem = -1) /\
                  (expiresAt x <> 0 -> rem = Z.min (2 ^ 63 - 1) (expiresAt x - t) /\ 0 < rem)
                else ok = false
    | None => ok = false
    end.
Proof.
  intros I Hf. rewrite CacheTTL_ok by done.
  destruct (data c !! key) as [x|]; [|eexists _, _; by split].
  rewrite (expired_frozen t) by done. destruct (live_at t x) eqn:El; cbn [negb]; [|eexists _, _; by split].
  unfold live_at in El. destruct (Z.eqb_spec (expiresAt x) 0) as [E0|E0].
  - eexists _, _. split; [done|]. split_and!; [done|done|lia].
  - rewrite Hf. eexists _, _. split; [done|]. cbn in El. unfold sub_time. lia.
Qed.

(** Counting.  With the clock at [t], [Len] is the number of entries that are
    live at [t], expired ones that still occupy memory excluded. *)
Theorem cache_len_correct c t e :
  cinv c -> frozen t e ->
  CacheLen c None e =
    Ret (e, (i64 (Z.of_nat (length (List.filter (fun kx => live_at t (snd kx)) (map_to_list (data c))))), None)).
Proof. apply CacheLen_ok. Qed.

(** Live tuning.  [SetMaxMemory] stores the ceiling, resizes the sketch to a
    bounded size and switches recording; with an evicting policy and a positive
    ceiling below the memory in use it evicts down to the ceiling (or until 101
    samples held no victim), and otherwise it removes nothing. *)
Theorem set_maxmemory_evicts c n e :
  cinv c -> tuned c ->
  exists c' e', SetMaxMemory c n e = Ret (c', e') /\ cinv c' /\ tuned c' /\
    maxmemory c' = n /\ evictPol c' = evictPol c /\ data c' ⊆ data c /\
    policyCountersMin <= policyCounters c' <= policyCountersMax /\
    (~ (0 < n < usage c /\ evictPol c <> PolicyNoEviction) -> data c' = data c) /\
    (0 < n -> evictPol c <> PolicyNoEviction -> usage c' <= n \/
       exists c1, cm c1 = cm c /\ maxmemory c1 = n /\
         evict_loop (evict_fuel c1) c1 n (evictPol c) [] false 0 e = Ret (c', e', maxEvictMisses + 1)).
Proof.
  intros I T. destruct (SetMaxMemory_eq c n e I T) as (c1 & I1 & T1 & Hm & Hu & _ & Hmm & Hp & Hn & ->).
  pose proof (counters_range n) as Hcr. assert (data c1 = data c) as Hd by (unfold data; by rewrite Hm).
  destruct (_ && _ && _) eqn:Ec.
  - rewrite !andb_true_iff, negb_true_iff, Z.eqb_neq in Ec.
    destruct (evictUntilUnder_ok c1 n (evictPol c) [] false e I1) as (c2 & e2 & ms & -> & El & Ev & Hend & _).
    destruct Ev as [I2 F2 S2 _ _]. pose proof F2 as (_ & _ & _ & Hmm2 & Hp2 & Hn2 & _).
    exists c2, e2. rewrite <- Hd. split_and!; try done; try congruence; try (rewrite Hn2, Hn; lia).
    + by eapply frame_tuned.
    + intros Hno. exfalso. apply Hno. lia.
    + intros _ _. destruct Hend as [?| ->]; [by left|right; by exists c1].
  - exists c1, e. rewrite Hd. split_and!; try done; try (rewrite Hn; lia).
    intros H0 Hpe%Z.eqb_neq. left. rewrite Hpe in Ec. cbn in Ec. lia.
Qed.

(** C5. Refinement.  An unbounded cache is simulated by a finite map from keys to
    values with expiry times, which answers each request at a single instant.  Whatever
    request comes ([Get], [Set], [Del], [TTL]) and however the clock moves, the engine
    returns, gives the answer of the reference at an instant it read from the clock
    during the call, makes no other use of the clock, and ends in a state that stands
    for the reference's map; a remaining lifetime is -1 for a key without expiry and
    otherwise positive.  One case is excluded: a [TTL] of a key that expires between
    the two clock readings of that call, for which no instant explains the answer. *)
Theorem cache_refines_ttl_map c m e q :
  simulates c m -> req_fits c q -> req_steady m e q ->
  exists c' e' r m' t, eng_step c e q = Ret (c', e', r) /\ ref_step m t q = (m', r) /\ simulates c' m' /\
    (t = first_reading e \/ t = second_reading e) /\
    (e' = e \/ e' = snd (env_now e) \/ e' = snd (env_now (snd (env_now e)))) /\
    (forall k rem, q = RqTTL k -> r = RsTTL (rem, true, None) ->
       exists x, m !! k = Some x /\ (expiresAt x = 0 /\ rem = -1 \/ 0 < rem)).
Proof.
  intros S Hq Hs. destruct (sim_step c m e q S Hq Hs) as (c' & e' & r & m' & t & E1 & E2 & S' & Ht & He).
  exists c', e', r, m', t. split_and!; [done..|]. intros k rem -> ->.
  destruct (ref_ttl_positive _ _ _ _ _ _ E2) as (x & ? & ?). exists x. split; [done|]. naive_solver.
Qed.
End Props.

(** Policy names.  [ParsePolicy] accepts exactly the three names [String]
    prints for the three policies, and the two are inverse to each other. *)
Theorem policy_name_roundtrip :
  (forall p, 0 <= p <= 2 -> ParsePolicy (policy_String p) = (p, true)) /\
  (forall name p, ParsePolicy name = (p, true) -> 0 <= p <= 2 /\ policy_String p = name) /\
  (forall p, ~ 0 <= p <= 2 -> policy_String p = B "unknown").
Proof.
  split_and!.
  - intros p Hp. assert (p = 0 \/ p = 1 \/ p = 2) as [->|[->| ->]] by lia; vm_compute; done.
  - intros name p. unfold ParsePolicy. repeat go_case; intros [= <-]; subst; vm_compute; split; done.
  - intros p Hp. unfold policy_String, policyNames, PolicyAllKeysLFU, PolicyAllKeysRandom, PolicyNoEviction.
    cbn [find fst]. by repeat (go_case; [lia|]).
Qed.

(** ** A concrete environment and caches *)

(** A clock that advances by [tick] at every reading, and a generator. *)
Record denv : Type := DEnv { clk : Z; tick : Z; rng : Z }.

#[export] Instance denv_env : Env denv := {|
  env_now := fun e => (clk e, DEnv (clk e + tick e) (tick e) (rng e));
  env_rand := fun e => let '(x, s) := lcg (rng e) in (x, DEnv (clk e) (tick e) s);
  env_trylock := fun e => (true, e);
|}.

Definition dopts (mm pol : Z) : list (COption (Seed:=Z)) :=
  [CWithShards 2; CWithSeed 7; WithMaxMemory mm; WithEvictionPolicy pol].

Definition dnew (mm pol : Z) : outcome (Cache Z) := CacheNew 4 1 2 3 (dopts mm pol).

Definition dnone : Cache Z :=
  MkCache (MkMap [] 0 hash_String 0)
    (MkPolicy (MkBuf [] 0 0) false (MkSketch [] 0 0 0) (MkDoor [] 0 0) 0 0 false false Running [])
    0 0 0 0 0 0 0 0 0.

Definition dcache (mm pol : Z) : Cache Z := get_ret dnone (dnew mm pol).

Lemma dcache_ok mm pol : cinv (dcache mm pol) /\ tuned (dcache mm pol) /\ data (dcache mm pol) = ∅ /\
  maxmemory (dcache mm pol) = mm.
Proof.
  destruct (CacheNew_ok 4 1 2 3 (dopts mm pol)) as (c & Ec & I & T & D & _ & Hm & _);
    [lia|vm_compute; discriminate|vm_compute; split; discriminate|].
  unfold dcache, dnew. rewrite Ec. cbn. done.
Qed.

(** Room for a key, by evaluation. *)
Definition roomyb (c : Cache Z) : bool :=
  forallb (fun t => cap t <? maxCap bytes centry) (shards (cm c)) && (Z.of_nat (size (data c)) <=? maxDib).

Lemma roomyb_ok c key : roomyb c = true -> roomy c key.
Proof.
  unfold roomyb. intros [Hc Hs]%andb_true_iff. rewrite forallb_forall in Hc. split.
  - intros t Ht%list_elem_of_In. by apply Z.ltb_lt, Hc.
  - apply spread_few. pose proof (size_union_alt {[key]} (dom (data c))) as Eu. rewrite size_singleton in Eu.
    assert (size (dom (data c) ∖ {[key]}) <= size (dom (data c)))%nat
      by apply subseteq_size, subseteq_difference_l, reflexivity.
    rewrite size_dom in *. lia.
Qed.

(** The cache after one write with a lifetime of 50 at time 100. *)
Definition dset (tk mm pol : Z) : outcome (Cache Z * denv * option error) :=
  CacheSet (dcache mm pol) None (B "key") (Some (B "value")) 50 (DEnv 100 tk 1).

Definition dcache1 (tk mm pol : Z) : Cache Z := fst (fst (get_ret (dnone, DEnv 0 0 0, None) (dset tk mm pol))).

Lemma dcache_fits key v exp : Z.of_nat (length key) + Z.of_nat (length v) < 2 ^ 62 ->
  total ∅ + raw_cost key (MkEntry v exp) < 2 ^ 63.
Proof. intros. change (total ∅) with 0. unfold raw_cost, entryOverhead. cbn. lia. Qed.

Lemma dcache1_inv tk mm pol : roomyb (dcache mm pol) = true -> is_ret (dset tk mm pol) = true ->
  cinv (dcache1 tk mm pol) /\ tuned (dcache1 tk mm pol).
Proof.
  intros Hr Hret. destruct (dcache_ok mm pol) as (I & T & D & _).
  destruct (dset tk mm pol) as [[[c' e'] r]| |] eqn:Es; [|done..].
  assert (dcache1 tk mm pol = c') as -> by (unfold dcache1; by rewrite Es).
  unfold dset in Es. apply CacheSet_frame in Es as [I' F]; [|done|by apply roomyb_ok|rewrite D; by apply dcache_fits].
  split; [done|by eapply frame_tuned].
Qed.

(** Two clock readings.  [TTL] checks expiry and computes the remaining time
    with two readings of the clock.  When the expiry instant falls between them it
    reports a present key with a remaining time that is not positive. *)
Theorem cache_ttl_two_reads :
  exists c e e' rem, cinv c /\ CacheTTL (Seed:=Z) (E:=denv) c None (B "key") e = Ret (e', (rem, true, None)) /\
    data c !! B "key" = Some (MkEntry (B "value") 150) /\ clk e < 150 <= clk e' /\ rem = 0.
Proof.
  exists (dcache1 0 0 0), (DEnv 149 1 1), (DEnv 151 1 1), 0.
  split; [apply dcache1_inv; vm_compute; reflexivity|]. by split_and!; vm_compute.
Qed.

(** ** Witnesses *)
Lemma cache_set_correct_witness : exists c' e' r,
  CacheSet (dcache 100 PolicyNoEviction) None (B "key") (Some (B "value")) 0 (DEnv 100 0 1) = Ret (c', e', r) /\
  (r <> Some ErrOOM -> data c' !! B "key" = Some (MkEntry (B "value") 0)).
Proof.
  destruct (dcache_ok 100 PolicyNoEviction) as (I & _ & D & _).
  destruct (cache_set_correct (dcache 100 PolicyNoEviction) (B "key") (Some (B "value")) 0 (DEnv 100 0 1) 0 (DEnv 100 0 1) I)
    as (c' & e' & r & Er & _ & _ & _ & Hs).
  - apply roomyb_ok. vm_compute. reflexivity.
  - reflexivity.
  - rewrite D. vm_compute. reflexivity.
  - exists c', e', r. split; [exact Er|]. intros Hne. apply (Hs Hne).
Defined.

Lemma cache_accounting_witness : exists c0, dnew 300 0 = Ret c0 /\ forall c (e : denv),
  creach c0 (DEnv 0 1 1) c e -> usage c = i64 (total (data c)).
Proof.
  destruct (cache_accounting 4 1 2 3 (dopts 300 0) (DEnv 0 1 1)) as (c0 & E0 & _ & Hc);
    [lia|vm_compute; discriminate|vm_compute; split; discriminate|].
  exists c0. split; [exact E0|]. intros c e Hr. apply (Hc c e Hr).
Defined.

Lemma cache_eviction_witness : exists c' e' missed,
  evictUntilUnder (dcache1 0 0 0) 10 PolicyAllKeysRandom [] false (DEnv 0 0 1) = Ret (c', e') /\
  data c' ⊆ data (dcache1 0 0 0) /\ (usage c' <= 10 \/ missed = 101).
Proof.
  destruct (cache_eviction (dcache1 0 0 0) 10 PolicyAllKeysRandom [] false (DEnv 0 0 1))
    as (c' & e' & ms & E1 & _ & _ & _ & Hs & _ & _ & Hend & _).
  - apply dcache1_inv; vm_compute; reflexivity.
  - exists c', e', ms. split; [exact E1|]. split; [exact Hs|exact Hend].
Defined.

Lemma victim_lowest_frequency_witness :
  pickVictim (dcache 100 0) [MkSample (B "a") (MkEntry [] 0); MkSample (B "b") (MkEntry [] 0)] 0 (B "a") true
    = Ret (Some (B "b")).
Proof.
  destruct (victim_lowest_frequency (dcache 100 0)
    [MkSample (B "a") (MkEntry [] 0); MkSample (B "b") (MkEntry [] 0)] 0 (B "a") true) as (r & Er & Hr).
  - apply (dcache_ok 100 0).
  - rewrite Er. clear Er. f_equal. destruct r as [k|].
    + destruct Hr as (Hne & Hin & _). specialize (Hne eq_refl). cbn [fmap list_fmap Key] in Hin.
      apply elem_of_cons in Hin as [Hin|Hin]; [by destruct Hne|].
      apply elem_of_cons in Hin as [->|Hin]; [reflexivity|by apply elem_of_nil in Hin].
    + destruct (Hr (MkSample (B "b") (MkEntry [] 0))) as [_ Hb]; [by right; left|].
      vm_compute in Hb. discriminate.
Defined.

Lemma frozen_denv t r : frozen t (DEnv t 0 r).
Proof. unfold frozen. cbn. by rewrite Z.add_0_r. Qed.

Lemma cache_get_correct_witness : exists c' e' r,
  CacheGet (dcache1 0 0 0) None (B "key") (DEnv 120 0 1) = Ret (c', e', r) /\ r = (Some (B "value"), true, None).
Proof.
  destruct (cache_get_correct (dcache1 0 0 0) (B "key") 120 (DEnv 120 0 1)) as (c' & e' & r & Er & _ & _ & _ & Hr).
  - apply dcache1_inv; vm_compute; reflexivity.
  - apply frozen_denv.
  - exists c', e', r. split; [exact Er|].
    assert (data (dcache1 0 0 0) !! B "key" = Some (MkEntry (B "value") 150)) as Hd by (vm_compute; reflexivity).
    rewrite Hd in Hr. apply Hr.
Defined.

Lemma cache_del_correct_witness : exists c' e',
  CacheDel (dcache1 0 0 0) None (B "key") (DEnv 150 0 1) = Ret (c', e', (false, None)) /\ cinv c'.
Proof.
  destruct (cache_del_correct (dcache1 0 0 0) (B "key") 150 (DEnv 150 0 1)) as (c' & e' & Er & I & _).
  - apply dcache1_inv; vm_compute; reflexivity.
  - apply frozen_denv.
  - exists c', e'. split; [|exact I]. rewrite Er. do 3 f_equal; vm_compute; reflexivity.
Defined.

Lemma cache_ttl_correct_witness : exists rem,
  CacheTTL (dcache1 0 0 0) None (B "key") (DEnv 120 0 1) = Ret (DEnv 120 0 1, (rem, true, None)) /\ 0 < rem.
Proof.
  destruct (cache_ttl_correct (dcache1 0 0 0) (B "key") 120 (DEnv 120 0 1)) as (rem & ok & Er & Hr).
  - apply dcache1_inv; vm_compute; reflexivity.
  - apply frozen_denv.
  - assert (data (dcache1 0 0 0) !! B "key" = Some (MkEntry (B "value") 150)) as Hd by (vm_compute; reflexivity).
    rewrite Hd in Hr. destruct Hr as (-> & _ & Hp). exists rem. split; [exact Er|]. apply Hp. discriminate.
Defined.

Lemma cache_len_correct_witness : exists n, CacheLen (dcache1 0 0 0) None (DEnv 120 0 1) = Ret (DEnv 120 0 1, (n, None)).
Proof.
  eexists. apply (cache_len_correct (dcache1 0 0 0) 120 (DEnv 120 0 1)).
  - apply dcache1_inv; vm_compute; reflexivity.
  - apply frozen_denv.
Defined.

Lemma set_maxmemory_evicts_witness : exists c' e',
  SetMaxMemory (dcache1 0 0 0) 50 (DEnv 120 0 1) = Ret (c', e') /\ maxmemory c' = 50.
Proof.
  destruct (set_maxmemory_evicts (dcache1 0 0 0) 50 (DEnv 120 0 1)) as (c' & e' & Er & _ & _ & Hm & _).
  - apply dcache1_inv; vm_compute; reflexivity.
  - apply dcache1_inv; vm_compute; reflexivity.
  - exists c', e'. split; [exact Er|exact Hm].
Defined.

Lemma cache_refines_ttl_map_witness : exists c' e' r m' t,
  eng_step (dcache1 0 0 0) (DEnv 120 7 1) (RqTTL (B "key")) = Ret (c', e', r) /\
  ref_step (data (dcache1 0 0 0)) t (RqTTL (B "key")) = (m', r) /\ simulates c' m'.
Proof.
  destruct (cache_refines_ttl_map (dcache1 0 0 0) (data (dcache1 0 0 0)) (DEnv 120 7 1) (RqTTL (B "key")))
    as (c' & e' & r & m' & t & Er & Em & S & _).
  - split; [apply dcache1_inv; vm_compute; reflexivity|apply dcache1_inv; vm_compute; reflexivity| |reflexivity].
    vm_compute. discriminate.
  - exact I.
  - intros x Hx _. assert (data (dcache1 0 0 0) !! B "key" = Some (MkEntry (B "value") 150)) as E by (vm_compute; reflexivity).
    rewrite E in Hx. injection Hx as <-. vm_compute. reflexivity.
  - exists c', e', r, m', t. split; [exact Er|]. split; [exact Em|exact S].
Defined.
