(* ===== verification/Resp.v ===== *)
(** * The RESP request decoder ([internal/resp/reader.go], [limits.go], [errors.go])

    [Reader] decodes arrays of bulk strings from a byte source.  The decoder is
    written against the two reads it makes of its source ([ReadSlice('\n')] and
    [io.ReadFull]), the class [Source]; its instance [breader] is the buffered
    reader of the standard library over a connection that delivers its bytes in
    arbitrary pieces. *)
From S2P Require Import Prelude Hash.

(** ** Limits *)
Definition DefaultMaxBulkLen : Z := 512 * 1024 * 1024.
Definition DefaultMaxMultibulkLen : Z := 1024 * 1024.
Definition defaultBufferSize : Z := 16 * 1024.
Definition maxHeaderLine : Z := 64.
Definition maxInt : Z := 2 ^ 63 - 1.

Record Limits : Type := MkLimits { MaxBulkLen : Z; MaxMultibulkLen : Z }.
Record rconfig : Type := MkRConfig { limits : Limits; bufferSize : Z }.

Definition WithMaxBulkLen (n : Z) (c : rconfig) : rconfig :=
  MkRConfig (MkLimits n (MaxMultibulkLen (limits c))) (bufferSize c).
Definition WithMaxMultibulkLen (n : Z) (c : rconfig) : rconfig :=
  MkRConfig (MkLimits (MaxBulkLen (limits c)) n) (bufferSize c).
Definition WithBufferSize (n : Z) (c : rconfig) : rconfig := MkRConfig (limits c) n.

Definition resolveConfig (opts : list (rconfig -> rconfig)) : rconfig :=
  let c := foldl (fun c opt => opt c)
             (MkRConfig (MkLimits DefaultMaxBulkLen DefaultMaxMultibulkLen) defaultBufferSize) opts in
  let mb := if MaxBulkLen (limits c) <=? 0 then DefaultMaxBulkLen else MaxBulkLen (limits c) in
  let mm := if MaxMultibulkLen (limits c) <=? 0 then DefaultMaxMultibulkLen else MaxMultibulkLen (limits c) in
  let bs := if bufferSize c <=? 0 then defaultBufferSize else bufferSize c in
  MkRConfig (MkLimits mb mm) bs.

(** ** Errors *)
Inductive ErrKind : Type :=
| KindExpectedArray
| KindExpectedBulk
| KindBadLength
| KindMissingCRLF
| KindBulkTooLong
| KindMultibulkTooLong
| KindLineTooLong.

Definition kind_message (k : ErrKind) : bytes :=
  match k with
  | KindExpectedArray => B "expected '*' array header"
  | KindExpectedBulk => B "expected '$' bulk-string header"
  | KindBadLength => B "invalid length"
  | KindMissingCRLF => B "expected CRLF terminator"
  | KindBulkTooLong => B "bulk length exceeds configured limit"
  | KindMultibulkTooLong => B "multibulk count exceeds configured limit"
  | KindLineTooLong => B "header line exceeds limit"
  end.

(** What a read can fail with, and what [ReadCommand] reports. *)
Inductive ioerr : Type := IoEOF | IoUnexpectedEOF | IoBufferFull | IoErr (code : Z).
Inductive rderr : Type := RdIO (e : ioerr) | RdProto (k : ErrKind).

#[global] Instance ErrKind_eq_dec : EqDecision ErrKind.
Proof. solve_decision. Defined.
#[global] Instance ioerr_eq_dec : EqDecision ioerr.
Proof. solve_decision. Defined.
#[global] Instance rderr_eq_dec : EqDecision rderr.
Proof. solve_decision. Defined.

(** ** Bytes as numbers *)
Definition code (b : byte) : Z := Z.of_N (Byte.to_N b).
Definition byte_of (n : Z) : byte := default x00 (Byte.of_N (Z.to_N n)).

Lemma code_inj a b : code a = code b -> a = b.
Proof.
  unfold code. intros E%N2Z.inj. apply (f_equal Byte.of_N) in E. rewrite !Byte.of_to_N in E. congruence.
Qed.

Definition CR : byte := x0d.
Definition LF : byte := x0a.
Definition typeArray : byte := x2a.
Definition typeBulk : byte := x24.

(** [strconv.AppendInt] in base ten for a number that is not negative. *)
Fixpoint itoa_fuel (fuel : nat) (n : Z) : bytes :=
  match fuel with
  | O => []
  | S fuel' => if n <? 10 then [byte_of (48 + n)] else itoa_fuel fuel' (n / 10) ++ [byte_of (48 + n mod 10)]
  end.

Definition itoa (n : Z) : bytes := itoa_fuel 20 n.

(** The number a text of decimal digits denotes, after the digits of [acc]. *)
Fixpoint digits_value (acc : Z) (h : bytes) : option Z :=
  match h with
  | [] => Some acc
  | c :: h => if (48 <=? code c) && (code c <=? 57) then digits_value (acc * 10 + (code c - 48)) h else None
  end.

(** ** Sources *)
Class Source (S : Type) := {
  (** [ReadSlice('\n')]: the bytes returned, and an error. *)
  ReadSlice : S -> outcome (bytes * option ioerr * S);
  (** [io.ReadFull] into a buffer of the given length. *)
  ReadFull : S -> nat -> outcome ((bytes + ioerr) * S);
}.

(** ** Decoding *)

(** The digit loop of [parseInt]. *)
Fixpoint parseInt_loop (n : Z) (b : bytes) : option Z :=
  match b with
  | [] => Some n
  | c :: b' =>
      if (code c <? 48) || (57 <? code c) then None
      else
        let d := code c - 48 in
        if Z.quot (maxInt - d) 10 <? n then None
        else parseInt_loop (i64 (i64 (n * 10) + d)) b'
  end.

Definition parseInt (b : bytes) : option Z :=
  match b with
  | [] => None
  | c :: b' =>
      if ((code c <? 49) || (57 <? code c)) &&
         (negb (bool_decide (b' = [])) || negb (code c =? 48))
      then None else parseInt_loop 0 b
  end.

Definition trimCRLF (line : bytes) : bytes + rderr :=
  let n := length line in
  if maxHeaderLine <? Z.of_nat n then inr (RdProto KindLineTooLong)
  else if (n <? 2)%nat || negb (bool_decide (line !! (n - 2)%nat = Some CR))
  then inr (RdProto KindMissingCRLF)
  else inl (take (n - 2) line).

Definition normalizeEOF (e : ioerr) : ioerr :=
  match e with IoEOF => IoUnexpectedEOF | _ => e end.

Section Decode.
Context {S : Type} `{!Source S}.

Definition readHeaderLine (s : S) (atBoundary : bool) : outcome ((bytes + rderr) * S) :=
  r ← ReadSlice s;
  let '(line, err, s') := r in
  match err with
  | Some IoBufferFull => Ret (inr (RdProto KindLineTooLong), s')
  | Some IoEOF =>
      if atBoundary && bool_decide (line = []) then Ret (inr (RdIO IoEOF), s')
      else Ret (inr (RdIO IoUnexpectedEOF), s')
  | Some e => Ret (inr (RdIO e), s')
  | None => Ret (trimCRLF line, s')
  end.

(** [io.ReadFull] with its error normalized. *)
Definition read_exact (s : S) (n : nat) : outcome ((bytes + rderr) * S) :=
  r ← ReadFull s n;
  match r with
  | (inl b, s') => Ret (inl b, s')
  | (inr e, s') => Ret (inr (RdIO (normalizeEOF e)), s')
  end.

Definition readBulkArg (lim : Limits) (s : S) : outcome ((bytes + rderr) * S) :=
  h ← readHeaderLine s false;
  let '(hr, s1) := h in
  match hr with
  | inr e => Ret (inr e, s1)
  | inl header =>
      if negb (bool_decide (head header = Some typeBulk)) then Ret (inr (RdProto KindExpectedBulk), s1)
      else match parseInt (tail header) with
           | None => Ret (inr (RdProto KindBadLength), s1)
           | Some n =>
               if MaxBulkLen lim <? n then Ret (inr (RdProto KindBulkTooLong), s1)
               else if maxAlloc <? n then Panic (* [make([]byte, n)] *)
               else
                 p ← read_exact s1 (Z.to_nat n);
                 let '(pr, s2) := p in
                 match pr with
                 | inr e => Ret (inr e, s2)
                 | inl buf =>
                     t ← read_exact s2 2;
                     let '(tr, s3) := t in
                     match tr with
                     | inr e => Ret (inr e, s3)
                     | inl crlf =>
                         if bool_decide (crlf = [CR; LF]) then Ret (inl buf, s3)
                         else Ret (inr (RdProto KindMissingCRLF), s3)
                     end
                 end
           end
  end.

Fixpoint readArgs (lim : Limits) (n : nat) (s : S) : outcome ((list bytes + rderr) * S) :=
  match n with
  | O => Ret (inl [], s)
  | Datatypes.S n' =>
      a ← readBulkArg lim s;
      let '(ar, s1) := a in
      match ar with
      | inr e => Ret (inr e, s1)
      | inl arg =>
          rest ← readArgs lim n' s1;
          let '(rr, s2) := rest in
          match rr with
          | inr e => Ret (inr e, s2)
          | inl args => Ret (inl (arg :: args), s2)
          end
      end
  end.

Definition ReadCommand (lim : Limits) (s : S) : outcome ((list bytes + rderr) * S) :=
  h ← readHeaderLine s true;
  let '(hr, s1) := h in
  match hr with
  | inr e => Ret (inr e, s1)
  | inl header =>
      if negb (bool_decide (head header = Some typeArray)) then Ret (inr (RdProto KindExpectedArray), s1)
      else match parseInt (tail header) with
           | None => Ret (inr (RdProto KindBadLength), s1)
           | Some n =>
               if MaxMultibulkLen lim <? n then Ret (inr (RdProto KindMultibulkTooLong), s1)
               else if maxAlloc <? 24 * n then Panic (* [make([][]byte, n)], 24 bytes each *)
               else readArgs lim (Z.to_nat n) s1
           end
  end.
End Decode.

(** ** The buffered reader of the standard library

    A connection delivers the bytes to come in pieces, then fails with [final] for
    ever; [Read] fills at most the room it is given, and fails only when no piece is
    left.  [bufio.Reader] keeps what it has read and not handed out, and an error it
    has seen and not reported. *)
Record netsrc : Type := MkNet { pieces : list bytes; final : ioerr }.

Definition net_read (s : netsrc) (room : nat) : bytes * option ioerr * netsrc :=
  match pieces s with
  | [] => ([], Some (final s), s)
  | p :: ps =>
      if (length p <=? room)%nat then (p, None, MkNet ps (final s))
      else (take room p, None, MkNet (drop room p :: ps) (final s))
  end.

Record breader : Type := MkReader { rbuf : bytes; rerr : option ioerr; rsrc : netsrc; rsize : nat }.

(** [NewReaderSize] keeps at least 16 bytes of buffer. *)
Definition NewReader (s : netsrc) (cfg : rconfig) : breader :=
  MkReader [] None s (Nat.max 16 (Z.to_nat (bufferSize cfg))).

Definition fill (b : breader) : breader :=
  let '(d, e, s') := net_read (rsrc b) (rsize b - length (rbuf b)) in
  MkReader (rbuf b ++ d) e s' (rsize b).

(** The first line of a buffer, with its newline, and the rest. *)
Fixpoint cut_line (l : bytes) : option (bytes * bytes) :=
  match l with
  | [] => None
  | x :: l' =>
      if bool_decide (x = LF) then Some ([x], l')
      else match cut_line l' with Some (a, b) => Some (x :: a, b) | None => None end
  end.

Fixpoint b_ReadSlice (fuel : nat) (b : breader) : outcome (bytes * option ioerr * breader) :=
  match fuel with
  | O => Diverge
  | Datatypes.S fuel' =>
      match cut_line (rbuf b) with
      | Some (line, rest) => Ret (line, None, MkReader rest (rerr b) (rsrc b) (rsize b))
      | None =>
          match rerr b with
          | Some e => Ret (rbuf b, Some e, MkReader [] None (rsrc b) (rsize b))
          | None =>
              if (rsize b <=? length (rbuf b))%nat
              then Ret (rbuf b, Some IoBufferFull, MkReader [] None (rsrc b) (rsize b))
              else b_ReadSlice fuel' (fill b)
          end
      end
  end.

(** [bufio.Reader.Read] into [n > 0] bytes: hand out buffered bytes, or read once,
    past the buffer when the request is at least as large. *)
Definition b_Read (b : breader) (n : nat) : bytes * option ioerr * breader :=
  match rbuf b with
  | [] =>
      match rerr b with
      | Some e => ([], Some e, MkReader [] None (rsrc b) (rsize b))
      | None =>
          if (rsize b <=? n)%nat then
            let '(d, e, s') := net_read (rsrc b) n in (d, e, MkReader [] None s' (rsize b))
          else
            let '(d, e, s') := net_read (rsrc b) (rsize b) in
            match e with
            | Some e => ([], Some e, MkReader [] None s' (rsize b))
            | None => (take n d, None, MkReader (drop n d) None s' (rsize b))
            end
      end
  | buffered => (take n buffered, None, MkReader (drop n buffered) (rerr b) (rsrc b) (rsize b))
  end.

(** [io.ReadFull]: reads until the buffer is full or a read fails; an end of file
    after some bytes is unexpected. *)
Fixpoint b_ReadFull (fuel : nat) (b : breader) (n : nat) (acc : bytes)
  : outcome ((bytes + ioerr) * breader) :=
  match fuel with
  | O => Diverge
  | Datatypes.S fuel' =>
      if (n <=? length acc)%nat then Ret (inl acc, b)
      else
        let '(d, e, b') := b_Read b (n - length acc) in
        match e with
        | None => b_ReadFull fuel' b' n (acc ++ d)
        | Some IoEOF => Ret (inr (if bool_decide (acc ++ d = []) then IoEOF else IoUnexpectedEOF), b')
        | Some e => Ret (inr e, b')
        end
  end.

(** Fuel: every read hands out at least one byte or ends the loop. *)
Definition b_fuel (b : breader) : nat :=
  3 + length (rbuf b) + length (mjoin (pieces (rsrc b))) + length (pieces (rsrc b)).

#[global] Instance breader_source : Source breader := {|
  ReadSlice b := b_ReadSlice (b_fuel b) b;
  ReadFull b n := b_ReadFull (b_fuel b + n) b n [];
|}.
