(* ===== verification/RespSpec.v ===== *)
(** * What the decoder promises

    The buffered reader over a connection behaves as the plain byte stream it
    carries, whatever the pieces; on the plain stream, decoding and encoding are
    inverse. *)
From S2P Require Import Prelude Hash Resp.

(** ** The plain stream *)
Record stream : Type := MkStream { sdata : bytes; sfinal : ioerr; ssize : nat }.

Definition s_ReadSlice (s : stream) : bytes * option ioerr * stream :=
  match cut_line (take (ssize s) (sdata s)) with
  | Some (line, _) => (line, None, MkStream (drop (length line) (sdata s)) (sfinal s) (ssize s))
  | None =>
      if (ssize s <=? length (sdata s))%nat
      then (take (ssize s) (sdata s), Some IoBufferFull, MkStream (drop (ssize s) (sdata s)) (sfinal s) (ssize s))
      else (sdata s, Some (sfinal s), MkStream [] (sfinal s) (ssize s))
  end.

Definition s_ReadFull (s : stream) (n : nat) : (bytes + ioerr) * stream :=
  if (n <=? length (sdata s))%nat
  then (inl (take n (sdata s)), MkStream (drop n (sdata s)) (sfinal s) (ssize s))
  else (inr (match sfinal s with
             | IoEOF => if bool_decide (sdata s = []) then IoEOF else IoUnexpectedEOF
             | e => e
             end), MkStream [] (sfinal s) (ssize s)).

#[export] Instance stream_source : Source stream := {|
  ReadSlice s := Ret (s_ReadSlice s);
  ReadFull s n := Ret (s_ReadFull s n);
|}.

(** ** Simulation between sources *)

(** Two outcomes with equal results and related sources. *)
Definition agree {S1 S2 A} (R : S1 -> S2 -> Prop) (o1 : outcome (A * S1)) (o2 : outcome (A * S2)) : Prop :=
  match o1, o2 with
  | Ret (a1, s1), Ret (a2, s2) => a1 = a2 /\ R s1 s2
  | Panic, Panic => True
  | Diverge, Diverge => True
  | _, _ => False
  end.

Lemma agree_ret {S1 S2 A} (R : S1 -> S2 -> Prop) (a : A) s1 s2 : R s1 s2 -> agree R (Ret (a, s1)) (Ret (a, s2)).
Proof. done. Qed.

Lemma agree_bind {S1 S2 A C} (R : S1 -> S2 -> Prop) (o1 : outcome (A * S1)) (o2 : outcome (A * S2))
    (f1 : A * S1 -> outcome (C * S1)) (f2 : A * S2 -> outcome (C * S2)) :
  agree R o1 o2 -> (forall a s1 s2, R s1 s2 -> agree R (f1 (a, s1)) (f2 (a, s2))) ->
  agree R (o1 ≫= f1) (o2 ≫= f2).
Proof.
  intros Ho Hf. destruct o1 as [[a1 s1]| |], o2 as [[a2 s2]| |]; try done. cbn in *.
  destruct Ho as [-> HR]. by apply Hf.
Qed.

Section Sim.
Context {S1 S2 : Type} `{!Source S1} `{!Source S2}.
Variable R : S1 -> S2 -> Prop.
Hypothesis sim_slice : forall s1 s2, R s1 s2 -> agree R (ReadSlice s1) (ReadSlice s2).
Hypothesis sim_full : forall s1 s2 n, R s1 s2 -> agree R (ReadFull s1 n) (ReadFull s2 n).

Lemma sim_header s1 s2 b : R s1 s2 -> agree R (readHeaderLine s1 b) (readHeaderLine s2 b).
Proof.
  intros HR. unfold readHeaderLine. apply agree_bind; [by apply sim_slice|].
  intros [line [[]|]] s1' s2' HR'; try done. by destruct (b && _).
Qed.

Lemma sim_exact s1 s2 n : R s1 s2 -> agree R (read_exact s1 n) (read_exact s2 n).
Proof.
  intros HR. unfold read_exact. apply agree_bind; [by apply sim_full|]. by intros [d|e] s1' s2' HR'.
Qed.

Lemma sim_bulk lim s1 s2 : R s1 s2 -> agree R (readBulkArg lim s1) (readBulkArg lim s2).
Proof.
  intros HR. unfold readBulkArg. apply agree_bind; [by apply sim_header|].
  intros [header|e] a1 a2 Ha; [|done]. destruct (negb _); [done|]. destruct (parseInt _) as [n|]; [|done].
  destruct (_ <? n); [done|]. destruct (_ <? n); [done|]. apply agree_bind; [by apply sim_exact|].
  intros [buf|e] b1 b2 Hb; [|done]. apply agree_bind; [by apply sim_exact|].
  intros [crlf|e] c1 c2 Hc; [|done]. by destruct (bool_decide _).
Qed.

Lemma sim_args lim n : forall s1 s2, R s1 s2 -> agree R (readArgs lim n s1) (readArgs lim n s2).
Proof.
  induction n as [|n IH]; intros s1 s2 HR; cbn [readArgs]; [done|].
  apply agree_bind; [by apply sim_bulk|]. intros [arg|e] a1 a2 Ha; [|done].
  apply agree_bind; [by apply IH|]. by intros [args|e] b1 b2 Hb.
Qed.

Lemma sim_command lim s1 s2 : R s1 s2 -> agree R (ReadCommand lim s1) (ReadCommand lim s2).
Proof.
  intros HR. unfold ReadCommand. apply agree_bind; [by apply sim_header|].
  intros [header|e] a1 a2 Ha; [|done]. destruct (negb _); [done|]. destruct (parseInt _) as [n|]; [|done].
  destruct (_ <? n); [done|]. destruct (_ <? 24 * n); [done|]. by apply sim_args.
Qed.
End Sim.

(** ** The buffered reader carries a stream *)
Record carries (b : breader) (s : stream) : Prop := {
  car_data : rbuf b ++ mjoin (pieces (rsrc b)) = sdata s;
  car_final : final (rsrc b) = sfinal s;
  car_size : rsize b = ssize s;
  car_pos : (1 <= rsize b)%nat;
  car_room : (length (rbuf b) <= rsize b)%nat;
  car_pieces : Forall (fun p => p <> []) (pieces (rsrc b));
  car_err : rerr b = None \/
    rerr b = Some (final (rsrc b)) /\ pieces (rsrc b) = [] /\ (length (rbuf b) < rsize b)%nat;
}.

(** One read of the connection with room for at least one byte. *)
Lemma net_read_ok s room d e s' : (1 <= room)%nat -> Forall (fun p => p <> []) (pieces s) ->
  net_read s room = (d, e, s') ->
  d ++ mjoin (pieces s') = mjoin (pieces s) /\ final s' = final s /\ (length d <= room)%nat /\
  Forall (fun p => p <> []) (pieces s') /\
  ((e = None /\ d <> []) \/ (e = Some (final s) /\ d = [] /\ pieces s = [] /\ pieces s' = [])).
Proof.
  intros Hr Hp. unfold net_read. destruct (pieces s) as [|p ps] eqn:Eps.
  { intros [= <- <- <-]. rewrite Eps. split_and!; try done; [cbn; lia|]. by right. }
  inversion_clear Hp as [|?? Hne Hps]. destruct (Nat.leb_spec (length p) room); intros [= <- <- <-]; cbn.
  - split_and!; [done|done|done|done|by left].
  - split_and!; [by rewrite app_assoc, take_drop|done|rewrite length_take; lia| |].
    + constructor; [|done]. intros Hd. apply (f_equal length) in Hd. rewrite length_drop in Hd. cbn in Hd. lia.
    + left. split; [done|]. intros Ht. apply (f_equal length) in Ht. rewrite length_take in Ht. cbn in Ht. lia.
Qed.

(** Lines of a prefix. *)
Lemma cut_line_app l l' a b : cut_line l = Some (a, b) -> cut_line (l ++ l') = Some (a, b ++ l').
Proof.
  revert a b. induction l as [|x l IH]; intros a b; [done|]. cbn. destruct (bool_decide (x = LF)).
  { intros [= <- <-]. done. }
  destruct (cut_line l) as [[a1 b1]|]; [|done]. intros [= <- <-]. by rewrite (IH a1 b1).
Qed.

Lemma cut_line_eq l a b : cut_line l = Some (a, b) -> l = a ++ b.
Proof.
  revert a b. induction l as [|x l IH]; intros a b; [done|]. cbn. destruct (bool_decide (x = LF)).
  { by intros [= <- <-]. }
  destruct (cut_line l) as [[a1 b1]|]; [|done]. intros [= <- <-]. cbn. by rewrite <- (IH a1 b1).
Qed.

Lemma cut_line_None l l' : cut_line (l ++ l') = None -> cut_line l = None.
Proof. destruct (cut_line l) as [[a b]|] eqn:E; [|done]. by rewrite (cut_line_app l l' a b E). Qed.

(** A line found in the first [k] bytes, and one found in a shorter prefix. *)
Lemma cut_line_take l k a b : (length l <= k)%nat -> cut_line l = Some (a, b) -> forall l',
  cut_line (take k (l ++ l')) = Some (a, take (k - length a) (b ++ l')).
Proof.
  intros Hk E l'. rewrite take_app_ge by done. rewrite (cut_line_app l _ a b E). do 2 f_equal.
  rewrite (cut_line_eq l a b E), length_app in *. rewrite take_app_ge by lia. f_equal. f_equal. lia.
Qed.

Lemma fill_ok b s : carries b s -> rerr b = None -> (length (rbuf b) < rsize b)%nat ->
  carries (fill b) s /\ rsize (fill b) = rsize b /\
  ((rerr (fill b) = None /\ length (mjoin (pieces (rsrc (fill b)))) < length (mjoin (pieces (rsrc b))))%nat \/
   rerr (fill b) = Some (sfinal s) /\ pieces (rsrc (fill b)) = [] /\ rbuf (fill b) = sdata s).
Proof.
  intros [Hd Hf Hs Hp Hr Hpc He] Hn Hlt. unfold fill.
  destruct (net_read (rsrc b) (rsize b - length (rbuf b))) as [[d e] s'] eqn:En.
  apply net_read_ok in En as (Hj & Hfin & Hl & Hpc' & Hcase); [|lia|done].
  split; [|split; [done|]].
  - split; cbn; try done; [by rewrite <- app_assoc, Hj|congruence|rewrite length_app; lia|].
    destruct Hcase as [[-> _]|(-> & -> & _ & ?)]; [by left|right]. rewrite Hfin, app_nil_r. done.
  - cbn. destruct Hcase as [[-> Hne]|(-> & -> & Hps & Hps')].
    + left. split; [done|]. rewrite <- Hj, length_app. destruct d; [done|]. cbn. lia.
    + right. split_and!; [by rewrite Hf|done|]. rewrite <- Hd, Hps. done.
Qed.

(** Handing out a prefix of the buffer, and an empty buffer without a pending error. *)
Lemma carries_keep b s a rest : carries b s -> rbuf b = a ++ rest ->
  carries (MkReader rest (rerr b) (rsrc b) (rsize b))
    (MkStream (rest ++ mjoin (pieces (rsrc b))) (sfinal s) (ssize s)).
Proof.
  intros [Hd Hf Hs Hp Hr Hpc He] Eb. rewrite Eb, length_app in *. split; cbn; try done; [lia|].
  destruct He as [|(? & ? & ?)]; [by left|right]. split_and!; [done..|lia].
Qed.

Lemma carries_fresh src size data fin : mjoin (pieces src) = data -> final src = fin ->
  (1 <= size)%nat -> Forall (fun p => p <> []) (pieces src) ->
  carries (MkReader [] None src size) (MkStream data fin size).
Proof. intros. split; cbn; try done; [lia|by left]. Qed.

Lemma b_ReadSlice_ok fuel : forall b s, carries b s ->
  (length (mjoin (pieces (rsrc b))) + 2 <= fuel)%nat \/ (1 <= fuel)%nat /\ is_Some (rerr b) ->
  agree carries (b_ReadSlice fuel b) (Ret (s_ReadSlice s)).
Proof.
  induction fuel as [|fuel IH]; intros b s C Hf; [destruct Hf; lia|]. pose proof C as [Hd Hfin Hs Hp Hr Hpc He].
  cbn [b_ReadSlice]. unfold s_ReadSlice. destruct (cut_line (rbuf b)) as [[line rest]|] eqn:Ec.
  { rewrite <- Hd, <- Hs, (cut_line_take (rbuf b) _ line rest) by done. cbn. split; [done|].
    pose proof (cut_line_eq _ _ _ Ec) as Eb. rewrite Eb, <- app_assoc, drop_app_length.
    pose proof (carries_keep b s line rest C Eb) as C'. by rewrite <- Hs in C'. }
  assert (forall k, (k <= length (rbuf b))%nat -> take k (sdata s) = take k (rbuf b)) as Htk
    by (intros k Hk; rewrite <- Hd; by apply take_app_le).
  destruct (rerr b) as [e|] eqn:Eerr.
  - destruct He as [|([= ->] & Hps & Hlt)]; [done|].
    rewrite Hps in Hd. cbn in Hd. rewrite app_nil_r in Hd. rewrite <- Hd, <- Hs, (take_ge (rbuf b)), Ec by lia.
    destruct (Nat.leb_spec (rsize b) (length (rbuf b))); [lia|]. rewrite Hfin. cbn. split; [done|].
    apply carries_fresh; [by rewrite Hps|done..].
  - destruct (Nat.leb_spec (rsize b) (length (rbuf b))) as [Hfull|Hroom].
    + assert (rsize b = length (rbuf b)) as El by lia. rewrite <- Hs, Htk, El, firstn_all, Ec by lia.
      rewrite <- Hd, length_app. destruct (Nat.leb_spec (length (rbuf b)) (length (rbuf b) + length (mjoin (pieces (rsrc b)))));
        [|lia]. cbn. split; [done|]. rewrite drop_app_length. by apply carries_fresh; [|congruence|lia|].
    + destruct (fill_ok b s C Eerr Hroom) as (C' & Hsz & Hcase).
      destruct Hf as [Hf|[_ [? ?]]]; [|done].
      change (agree carries (b_ReadSlice fuel (fill b)) (Ret (s_ReadSlice s))). apply IH; [done|].
      destruct Hcase as [[_ ?]|(-> & _)]; [left; lia|right]. split; [lia|eauto].
Qed.

Lemma slice_sim b s : carries b s -> agree carries (ReadSlice b) (ReadSlice s).
Proof. intros C. apply b_ReadSlice_ok; [done|]. left. unfold b_fuel. lia. Qed.

(** One [Read] of the buffered reader. *)
Lemma b_Read_ok b s n d e b' : carries b s -> (1 <= n)%nat -> b_Read b n = (d, e, b') ->
  (e = None /\ d <> [] /\ (length d <= n)%nat /\ exists rest, sdata s = d ++ rest /\
     carries b' (MkStream rest (sfinal s) (ssize s))) \/
  (e = Some (sfinal s) /\ d = [] /\ sdata s = [] /\ carries b' s).
Proof.
  intros [Hd Hf Hs Hp Hr Hpc He] Hn. unfold b_Read. destruct (rbuf b) as [|x l] eqn:Eb.
  - destruct (rerr b) as [e0|] eqn:Ee.
    + intros [= <- <- <-]. right. destruct He as [|([= ->] & Hps & _)]; [done|].
      assert (sdata s = []) as Es by (by rewrite <- Hd, Hps).
      split_and!; [by rewrite Hf|done|done|]. destruct s as [sd sf sz]. cbn in *. subst.
      apply carries_fresh; [by rewrite Hps|done..].
    + destruct (Nat.leb_spec (rsize b) n) as [Hbig|Hsmall].
      * destruct (net_read (rsrc b) n) as [[d0 e0] s'] eqn:En. intros [= <- <- <-].
        apply net_read_ok in En as (Hj & Hfin & Hl & Hpc' & Hcase); [|lia|done]. cbn in Hd.
        destruct Hcase as [[-> Hne]|(-> & -> & Hps & Hps')].
        -- left. split_and!; [done..|]. exists (mjoin (pieces s')). split; [by rewrite Hj|].
           rewrite <- Hs. apply carries_fresh; congruence || done.
        -- right. assert (sdata s = []) as Es by (by rewrite <- Hd, Hps).
           split_and!; [by rewrite Hf|done|done|]. destruct s as [sd sf sz]. cbn in *. subst.
           apply carries_fresh; [by rewrite Hps'|congruence|done|done].
      * destruct (net_read (rsrc b) (rsize b)) as [[d0 e0] s'] eqn:En.
        apply net_read_ok in En as (Hj & Hfin & Hl & Hpc' & Hcase); [|lia|done]. cbn in Hd.
        destruct Hcase as [[-> Hne]|(-> & -> & Hps & Hps')]; intros [= <- <- <-].
        -- left. split_and!; [done|destruct d0, n; done || lia|rewrite length_take; lia|].
           exists (drop n d0 ++ mjoin (pieces s')). split; [by rewrite app_assoc, take_drop, Hj|].
           split; cbn; try done; [congruence|rewrite length_drop; lia|by left].
        -- right. assert (sdata s = []) as Es by (by rewrite <- Hd, Hps).
           split_and!; [by rewrite Hf|done|done|]. destruct s as [sd sf sz]. cbn in *. subst.
           apply carries_fresh; [by rewrite Hps'|congruence|done|done].
  - intros [= <- <- <-]. left. split_and!; [done|by destruct n; [lia|]|rewrite length_take; lia|].
    exists (drop n (x :: l) ++ mjoin (pieces (rsrc b))). split; [by rewrite app_assoc, take_drop|].
    eapply (carries_keep b s (take n (x :: l))); [by split; rewrite ?Eb|]. by rewrite Eb, take_drop.
Qed.

(** What [io.ReadFull] returns after [acc], on the stream that is left. *)
Definition full_result (s : stream) (n : nat) (acc : bytes) : (bytes + ioerr) * stream :=
  if (n - length acc <=? length (sdata s))%nat
  then (inl (acc ++ take (n - length acc) (sdata s)),
        MkStream (drop (n - length acc) (sdata s)) (sfinal s) (ssize s))
  else (inr (match sfinal s with
             | IoEOF => if bool_decide (acc ++ sdata s = []) then IoEOF else IoUnexpectedEOF
             | e => e
             end), MkStream [] (sfinal s) (ssize s)).

Lemma full_result_step s n acc d rest : sdata s = d ++ rest -> d <> [] -> (length acc < n)%nat ->
  (length d <= n - length acc)%nat ->
  full_result (MkStream rest (sfinal s) (ssize s)) n (acc ++ d) = full_result s n acc.
Proof.
  intros Ed Hne Ha Hl. unfold full_result. cbn [sdata sfinal ssize]. rewrite Ed, !length_app.
  replace (n - (length acc + length d))%nat with (n - length acc - length d)%nat by lia.
  destruct (Nat.leb_spec (n - length acc - length d) (length rest));
    destruct (Nat.leb_spec (n - length acc) (length d + length rest)); try lia.
  - rewrite <- app_assoc, take_app_ge, drop_app_ge by lia. done.
  - by rewrite <- app_assoc.
Qed.

Lemma b_ReadFull_ok fuel : forall b s n acc, carries b s -> (n - length acc < fuel)%nat ->
  (length acc <= n)%nat -> agree carries (b_ReadFull fuel b n acc) (Ret (full_result s n acc)).
Proof.
  induction fuel as [|fuel IH]; intros b s n acc C Hf Ha; [lia|]. cbn [b_ReadFull].
  destruct (Nat.leb_spec n (length acc)).
  { unfold full_result. replace (n - length acc)%nat with 0%nat by lia. cbn. rewrite app_nil_r.
    split; [done|]. by destruct s. }
  destruct (b_Read b (n - length acc)) as [[d e] b'] eqn:Er.
  apply (b_Read_ok b s) in Er as [(-> & Hne & Hl & rest & Ed & C')|(-> & -> & Ed & C')]; [| |done|lia].
  - rewrite <- (full_result_step s n acc d rest) by done.
    assert (1 <= length d)%nat by (destruct d; cbn; [done|lia]).
    apply IH; [done|rewrite length_app; lia|rewrite length_app; lia].
  - unfold full_result. rewrite Ed. destruct (Nat.leb_spec (n - length acc) (length (@nil byte))) as [Hb|_];
      [cbn in Hb; lia|]. destruct s as [sd sf sz]. cbn in *. subst. by destruct sf.
Qed.

Lemma full_sim b s n : carries b s -> agree carries (ReadFull b n) (ReadFull s n).
Proof.
  intros C. cbn [ReadFull breader_source stream_source].
  replace (Ret (s_ReadFull s n)) with (Ret (full_result s n [])).
  - apply b_ReadFull_ok; [done|cbn; unfold b_fuel; lia|cbn; lia].
  - unfold full_result, s_ReadFull. cbn. by rewrite Nat.sub_0_r.
Qed.

Lemma command_sim lim b s : carries b s -> agree carries (ReadCommand lim b) (ReadCommand lim s).
Proof. apply sim_command; [apply slice_sim|apply full_sim]. Qed.

(** ** Decimal numbers *)

Lemma code_byte_of n : 0 <= n < 256 -> code (byte_of n) = n.
Proof.
  intros Hn. unfold code, byte_of. destruct (Byte.of_N (Z.to_N n)) as [b|] eqn:E.
  - cbn. apply Byte.to_of_N in E. rewrite E. lia.
  - apply Byte.of_N_None_iff in E. lia.
Qed.

Lemma code_range b : 0 <= code b < 256.
Proof. unfold code. pose proof (Byte.to_N_bounded b). lia. Qed.

Lemma byte_of_code b : byte_of (code b) = b.
Proof. apply code_inj, code_byte_of, code_range. Qed.

Lemma itoa_step fuel n : itoa_fuel (S fuel) n =
  if n <? 10 then [byte_of (48 + n)] else itoa_fuel fuel (n / 10) ++ [byte_of (48 + n mod 10)].
Proof. done. Qed.

Lemma itoa_zero n : itoa_fuel 0 n = [].
Proof. done. Qed.

#[local] Opaque itoa_fuel.

Lemma itoa_more fuel : forall n, 0 <= n < 10 ^ Z.of_nat fuel -> itoa_fuel (S fuel) n = itoa_fuel fuel n \/ fuel = 0%nat.
Proof.
  induction fuel as [|fuel IH]; intros n Hn; [by right|]. left.
  rewrite (itoa_step (S fuel) n), (itoa_step fuel n).
  destruct (Z.ltb_spec n 10); [done|]. f_equal.
  rewrite Nat2Z.inj_succ, Z.pow_succ_r in Hn by lia.
  destruct (IH (n / 10)) as [->|E]; [|done|subst fuel; cbn in Hn; lia].
  split; [apply Z.div_pos; lia|apply Z.div_lt_upper_bound; lia].
Qed.

Lemma itoa_19 n : 0 <= n < 10 ^ 19 -> itoa_fuel 19 n = itoa n.
Proof. intros Hn. unfold itoa. destruct (itoa_more 19 n Hn) as [E|E]; [symmetry; exact E|discriminate]. Qed.

(** The last digit. *)
Lemma itoa_snoc n : 10 <= n <= maxInt -> itoa n = itoa (n / 10) ++ [byte_of (48 + n mod 10)].
Proof.
  intros Hn. unfold itoa at 1. change 20%nat with (S 19). rewrite itoa_step.
  destruct (Z.ltb_spec n 10); [lia|]. rewrite itoa_19; [done|]. unfold maxInt in Hn.
  split; [apply Z.div_pos; lia|]. apply Z.div_lt_upper_bound; [lia|].
  change (10 ^ 19) with 10000000000000000000. lia.
Qed.

Lemma itoa_small n : 0 <= n < 10 -> itoa n = [byte_of (48 + n)].
Proof. intros. unfold itoa. change 20%nat with (S 19). rewrite itoa_step.
  destruct (Z.ltb_spec n 10); [done|lia]. Qed.

Lemma parse_snoc b c : forall n,
  parseInt_loop n (b ++ [c]) = m ← parseInt_loop n b; parseInt_loop m [c].
Proof.
  induction b as [|x b IH]; intros n; [done|]. cbn [app parseInt_loop].
  destruct (_ || _); [done|]. destruct (_ <? n); [done|]. apply IH.
Qed.

(** One more digit. *)
Lemma parse_digit m c : 0 <= m -> parseInt_loop m [c] =
  if (48 <=? code c) && (code c <=? 57) && (10 * m + (code c - 48) <=? maxInt)
  then Some (10 * m + (code c - 48)) else None.
Proof.
  intros Hm. cbn [parseInt_loop]. destruct (Z.ltb_spec (code c) 48), (Z.ltb_spec 57 (code c)); cbn [orb];
    destruct (Z.leb_spec 48 (code c)), (Z.leb_spec (code c) 57); try lia; try done. cbn [andb].
  rewrite Z.quot_div_nonneg by (unfold maxInt; lia).
  pose proof (Z.mul_div_le (maxInt - (code c - 48)) 10). pose proof (Z.mul_succ_div_gt (maxInt - (code c - 48)) 10).
  destruct (Z.ltb_spec ((maxInt - (code c - 48)) / 10) m); destruct (Z.leb_spec (10 * m + (code c - 48)) maxInt);
    try lia; [done|]. f_equal. unfold maxInt in *. rewrite (i64_id (m * 10)), i64_id by (unfold in_i64; lia). lia.
Qed.

Lemma parse_loop_range b : forall n m, 0 <= n -> parseInt_loop n b = Some m -> n <= m.
Proof.
  induction b as [|c b IH] using rev_ind; intros n m Hn.
  { intros [= <-]. lia. }
  rewrite parse_snoc. destruct (parseInt_loop n b) as [k|] eqn:E; [|done]. cbn [mbind option_bind].
  apply IH in E; [|done]. rewrite parse_digit by lia. destruct (_ && _ && _) eqn:Ec; [|done]. intros [= <-].
  rewrite !andb_true_iff in Ec. lia.
Qed.

(** A canonical start: no sign, no leading zero. *)
Definition canonical (b : bytes) : bool :=
  match b with
  | [] => false
  | c :: b' => ((49 <=? code c) && (code c <=? 57)) || (bool_decide (b' = []) && (code c =? 48))
  end.

Lemma parseInt_eq b : parseInt b = if canonical b then parseInt_loop 0 b else None.
Proof.
  unfold parseInt, canonical. destruct b as [|c b]; [done|].
  destruct (Z.ltb_spec (code c) 49), (Z.ltb_spec 57 (code c)), (Z.leb_spec 49 (code c)), (Z.leb_spec (code c) 57);
    try lia; cbn [orb andb]; try done; destruct (bool_decide (b = [])), (code c =? 48); done.
Qed.

Lemma itoa_canonical n : 0 <= n <= maxInt -> canonical (itoa n) = true /\ parseInt_loop 0 (itoa n) = Some n /\
  (1 <= n -> exists c b, itoa n = c :: b /\ 49 <= code c <= 57).
Proof.
  intros Hn. assert (exists k, Z.to_nat n < k)%nat as [k Hk] by (exists (S (Z.to_nat n)); lia).
  revert n Hn Hk. induction k as [|k IH]; intros n Hn Hk; [lia|].
  destruct (Z.lt_ge_cases n 10).
  - rewrite itoa_small by lia. pose proof (code_byte_of (48 + n) ltac:(lia)) as Ec. split_and!.
    + unfold canonical. rewrite Ec, (bool_decide_eq_true_2 ([] = [])) by done. cbn [andb].
      destruct (Z.leb_spec 49 (48 + n)), (Z.leb_spec (48 + n) 57), (Z.eqb_spec (48 + n) 48); cbn; lia || done.
    + rewrite parse_digit, Ec by lia. destruct (Z.leb_spec 48 (48 + n)), (Z.leb_spec (48 + n) 57); try lia.
      cbn [andb]. destruct (Z.leb_spec (10 * 0 + (48 + n - 48)) maxInt); [f_equal; lia|lia].
    + intros. eexists _, _. split; [done|]. rewrite Ec. lia.
  - rewrite itoa_snoc by lia. pose proof (Z.div_mod n 10). pose proof (Z.mod_pos_bound n 10).
    destruct (IH (n / 10)) as (Hcan & Hp & Hlead); [lia|lia|].
    destruct Hlead as (c & b & Eb & Hc); [lia|]. split_and!.
    + rewrite Eb. cbn [app canonical]. destruct (Z.leb_spec 49 (code c)), (Z.leb_spec (code c) 57); lia || done.
    + rewrite parse_snoc, Hp. cbn [mbind option_bind]. rewrite parse_digit, code_byte_of by lia.
      replace (10 * (n / 10) + (48 + n mod 10 - 48)) with n by lia.
      destruct (Z.leb_spec 48 (48 + n mod 10)), (Z.leb_spec (48 + n mod 10) 57), (Z.leb_spec n maxInt); lia || done.
    + intros _. rewrite Eb. eexists _, _. split; [done|lia].
Qed.

Lemma canonical_prefix b c : b <> [] -> canonical (b ++ [c]) = true ->
  canonical b = true /\ exists x b', b = x :: b' /\ 49 <= code x <= 57.
Proof.
  destruct b as [|x b]; [done|]. intros _. cbn [app canonical].
  rewrite (bool_decide_eq_false_2 (b ++ [c] = [])) by (by destruct b). cbn [andb]. rewrite orb_false_r.
  intros Hc. rewrite Hc. rewrite andb_true_iff in Hc. split; [done|]. exists x, b. split; [done|lia].
Qed.

Lemma parse_itoa_inv b : forall n, canonical b = true -> parseInt_loop 0 b = Some n ->
  b = itoa n /\ 0 <= n <= maxInt /\ ((exists x b', b = x :: b' /\ 49 <= code x <= 57) -> 1 <= n).
Proof.
  induction b as [|c b IH] using rev_ind; intros n Hcan Hp; [done|].
  rewrite parse_snoc in Hp. destruct (parseInt_loop 0 b) as [m|] eqn:Em; [|done]. cbn [mbind option_bind] in Hp.
  pose proof (parse_loop_range b 0 m ltac:(lia) Em). rewrite parse_digit in Hp by lia.
  destruct (_ && _ && _) eqn:Ec; [|done]. injection Hp as <-. rewrite !andb_true_iff in Ec.
  destruct (decide (b = [])) as [->|Hne].
  - cbn in Em. injection Em as <-. rewrite itoa_small by lia. cbn [app]. split_and!; [|lia|lia|].
    + f_equal. rewrite <- (byte_of_code c) at 1. f_equal. lia.
    + intros (x & b' & [= <- <-] & ?). lia.
  - destruct (canonical_prefix b c Hne Hcan) as [Hcb Hx]. destruct (IH m Hcb eq_refl) as (Eb & Hm & Hone).
    specialize (Hone Hx). rewrite itoa_snoc by lia.
    replace ((10 * m + (code c - 48)) / 10) with m by (apply (Z.div_unique _ _ _ (code c - 48)); lia).
    replace ((10 * m + (code c - 48)) mod 10) with (code c - 48) by (apply (Z.mod_unique _ _ m); lia).
    split_and!; [|lia|lia|lia]. rewrite <- Eb. do 2 f_equal. rewrite <- (byte_of_code c) at 1. f_equal. lia.
Qed.

(** [parseInt] accepts exactly the decimal text of the integers from 0 to the
    largest int. *)
Lemma parseInt_iff b n : parseInt b = Some n <-> b = itoa n /\ 0 <= n <= maxInt.
Proof.
  rewrite parseInt_eq. split.
  - destruct (canonical b) eqn:Ec; [|done]. intros Hp. by destruct (parse_itoa_inv b n Ec Hp) as (? & ? & _).
  - intros [-> Hn]. by destruct (itoa_canonical n Hn) as (-> & -> & _).
Qed.

(** ** Encoding *)
Definition CRLF : bytes := [CR; LF].

Definition encode_header (t : byte) (n : nat) : bytes := t :: itoa (Z.of_nat n).

Definition encode_bulk (a : bytes) : bytes := encode_header typeBulk (length a) ++ CRLF ++ a ++ CRLF.

Definition encode_command (args : list bytes) : bytes :=
  encode_header typeArray (length args) ++ CRLF ++ (args ≫= encode_bulk).

(** A command within the limits of the decoder. *)
Definition within (lim : Limits) (args : list bytes) : Prop :=
  Z.of_nat (length args) <= MaxMultibulkLen lim /\ Forall (fun a => Z.of_nat (length a) <= MaxBulkLen lim) args.

Definition sane (lim : Limits) : Prop := MaxBulkLen lim <= maxAlloc /\ 24 * MaxMultibulkLen lim <= maxAlloc.

Lemma itoa_length n : (length (itoa n) <= 20)%nat.
Proof.
  unfold itoa. generalize 20%nat. intros fuel. revert n. induction fuel as [|fuel IH]; intros n; [done|].
  rewrite itoa_step. destruct (n <? 10); [cbn; lia|]. rewrite length_app. specialize (IH (n / 10)). cbn. lia.
Qed.

Lemma itoa_fuel_digits f x : forall n, 0 <= n -> x ∈ itoa_fuel f n -> 48 <= code x <= 57.
Proof.
  induction f as [|f IH]; intros n Hn; [rewrite itoa_zero; by intros ?%elem_of_nil|].
  rewrite itoa_step. pose proof (Z.mod_pos_bound n 10). destruct (Z.ltb_spec n 10).
  - intros ->%list_elem_of_singleton. rewrite code_byte_of; lia.
  - intros [Hx| ->%list_elem_of_singleton]%elem_of_app; [|rewrite code_byte_of; lia].
    apply (IH (n / 10)); [apply Z.div_pos; lia|done].
Qed.

Lemma itoa_digits n x : 0 <= n -> x ∈ itoa n -> 48 <= code x <= 57.
Proof. apply itoa_fuel_digits. Qed.

Lemma header_no_LF t n : t <> LF -> LF ∉ encode_header t n.
Proof.
  intros Ht [E|Hx]%elem_of_cons; [by symmetry in E|].
  apply itoa_digits in Hx; [|lia]. change (code LF) with 10 in Hx. lia.
Qed.

Lemma header_length t n : (length (encode_header t n) <= 21)%nat.
Proof. cbn. pose proof (itoa_length (Z.of_nat n)). lia. Qed.

(** ** Lines of the stream *)
Lemma cut_line_found h rest : LF ∉ h -> cut_line (h ++ LF :: rest) = Some (h ++ [LF], rest).
Proof.
  induction h as [|x h IH]; intros Hn; cbn.
  - by rewrite bool_decide_eq_true_2.
  - rewrite bool_decide_eq_false_2 by set_solver. by rewrite IH by set_solver.
Qed.

Lemma cut_line_no_LF l : LF ∉ l -> cut_line l = None.
Proof.
  induction l as [|x l IH]; intros Hn; cbn; [done|].
  rewrite bool_decide_eq_false_2 by set_solver. by rewrite IH by set_solver.
Qed.

Lemma cut_line_last l a b : cut_line l = Some (a, b) -> exists h, a = h ++ [LF].
Proof.
  revert a b. induction l as [|x l IH]; intros a b; [done|]. cbn. destruct (bool_decide_reflect (x = LF)) as [->|].
  { intros [= <- <-]. by exists []. }
  destruct (cut_line l) as [[a1 b1]|] eqn:E; [|done]. intros [= <- <-].
  destruct (IH a1 b1 eq_refl) as [h ->]. by exists (x :: h).
Qed.

Lemma trim_line h : (length h + 2 <= 64)%nat -> trimCRLF (h ++ CRLF) = inl h.
Proof.
  intros Hl. unfold trimCRLF, maxHeaderLine. rewrite length_app. change (length CRLF) with 2%nat.
  destruct (Z.ltb_spec 64 (Z.of_nat (length h + 2))); [lia|].
  destruct (Nat.ltb_spec (length h + 2) 2); [lia|]. rewrite Nat.add_sub.
  rewrite bool_decide_eq_true_2; [cbn; by rewrite take_app_length|].
  by apply (list_lookup_middle h [LF] CR).
Qed.

Lemma trim_inv line h : trimCRLF line = inl h -> (exists l, line = l ++ [LF]) -> line = h ++ CRLF.
Proof.
  unfold trimCRLF. destruct (_ <? _); [done|]. destruct (Nat.ltb_spec (length line) 2); cbn [orb]; [done|].
  destruct (bool_decide_reflect (line !! (length line - 2)%nat = Some CR)) as [Hcr|]; cbn [negb]; [|done].
  intros [= <-] [l ->]. rewrite length_app in *. cbn [length] in *.
  replace (length l + 1 - 2)%nat with (length l - 1)%nat in * by lia.
  rewrite lookup_app_l in Hcr by lia. rewrite take_app_le by lia.
  rewrite <- (take_drop_middle l _ _ Hcr) at 1. rewrite drop_ge by lia. by rewrite <- !app_assoc.
Qed.

Lemma header_ok s h rest b : LF ∉ h -> (length h + 2 <= 64)%nat -> (length h + 2 <= ssize s)%nat ->
  sdata s = h ++ CRLF ++ rest ->
  readHeaderLine s b = Ret (inl h, MkStream rest (sfinal s) (ssize s)).
Proof.
  intros Hn Hl Hs Ed. unfold readHeaderLine. cbn [ReadSlice stream_source mbind outcome_bind]. unfold s_ReadSlice.
  assert (cut_line (take (ssize s) (sdata s)) = Some (h ++ CRLF, take (ssize s - (length h + 2)) rest)) as ->.
  { rewrite Ed. change (CRLF ++ rest) with (CR :: LF :: rest).
    replace (h ++ CR :: LF :: rest) with ((h ++ [CR]) ++ LF :: rest) by by rewrite <- app_assoc.
    rewrite take_app_ge by (rewrite length_app; cbn; lia). rewrite length_app. cbn [length].
    replace (ssize s - (length h + 1))%nat with (S (ssize s - (length h + 2))) by lia. cbn [take].
    rewrite cut_line_found; [by rewrite <- app_assoc|]. rewrite elem_of_app, list_elem_of_singleton. by intros [?|?]. }
  rewrite trim_line by done. do 3 f_equal. rewrite Ed, length_app. change (length CRLF) with 2%nat.
  rewrite app_assoc. replace (length h + 2)%nat with (length (h ++ CRLF)) by by rewrite length_app.
  apply drop_app_length.
Qed.

Lemma header_inv s b h s' : readHeaderLine s b = Ret (inl h, s') ->
  sdata s = h ++ CRLF ++ sdata s' /\ sfinal s' = sfinal s /\ ssize s' = ssize s.
Proof.
  unfold readHeaderLine. cbn [ReadSlice stream_source mbind outcome_bind]. unfold s_ReadSlice.
  destruct (cut_line _) as [[line r]|] eqn:Ec.
  - intros [= Ht <-]. cbn. split; [|done]. pose proof (cut_line_eq _ _ _ Ec) as El.
    apply trim_inv in Ht as ->; [|by eapply cut_line_last].
    rewrite <- (take_drop (ssize s) (sdata s)), El, <- !app_assoc. do 2 f_equal.
    change (CRLF ++ r ++ drop (ssize s) (sdata s)) with (CRLF ++ (r ++ drop (ssize s) (sdata s))).
    rewrite (app_assoc h CRLF). by rewrite drop_app_length.
  - destruct (_ <=? _)%nat; [by intros [=]|]. destruct (sfinal s); try by intros [=].
    by destruct (b && _); intros [=].
Qed.

(** ** Decoding what was encoded *)
Lemma read_exact_ok s d rest : sdata s = d ++ rest ->
  read_exact s (length d) = Ret (inl d, MkStream rest (sfinal s) (ssize s)).
Proof.
  intros Ed. unfold read_exact. cbn [ReadFull stream_source mbind outcome_bind]. unfold s_ReadFull.
  rewrite Ed, length_app. destruct (Nat.leb_spec (length d) (length d + length rest)); [|lia].
  by rewrite take_app_length, drop_app_length.
Qed.

Lemma read_exact_inv s n d s' : read_exact s n = Ret (inl d, s') ->
  sdata s = d ++ sdata s' /\ length d = n /\ sfinal s' = sfinal s /\ ssize s' = ssize s.
Proof.
  unfold read_exact. cbn [ReadFull stream_source mbind outcome_bind]. unfold s_ReadFull.
  destruct (Nat.leb_spec n (length (sdata s))); [|by intros [=]]. intros [= <- <-]. cbn.
  by rewrite take_drop, length_take_le.
Qed.

Lemma bulk_ok lim s a rest : Z.of_nat (length a) <= MaxBulkLen lim -> MaxBulkLen lim <= maxAlloc ->
  (23 <= ssize s)%nat -> sdata s = encode_bulk a ++ rest ->
  readBulkArg lim s = Ret (inl a, MkStream rest (sfinal s) (ssize s)).
Proof.
  intros Ha Hm Hs Ed. unfold readBulkArg. pose proof (header_length typeBulk (length a)).
  rewrite (header_ok s (encode_header typeBulk (length a)) (a ++ CRLF ++ rest));
    [|by apply header_no_LF|lia|lia|rewrite Ed; unfold encode_bulk; by rewrite <- !app_assoc].
  cbn [mbind outcome_bind]. rewrite bool_decide_eq_true_2 by done. cbn [negb tail encode_header].
  rewrite (proj2 (parseInt_iff _ (Z.of_nat (length a)))) by (split; [done|unfold maxInt, maxAlloc in *; lia]).
  destruct (Z.ltb_spec (MaxBulkLen lim) (Z.of_nat (length a))); [lia|].
  destruct (Z.ltb_spec maxAlloc (Z.of_nat (length a))); [lia|]. rewrite Nat2Z.id.
  rewrite (read_exact_ok _ a (CRLF ++ rest)) by done. cbn [mbind outcome_bind sfinal ssize].
  change 2%nat with (length CRLF). rewrite (read_exact_ok _ CRLF rest) by done. cbn [mbind outcome_bind sfinal ssize].
  by rewrite bool_decide_eq_true_2.
Qed.

Lemma bulk_inv lim s a s' : readBulkArg lim s = Ret (inl a, s') ->
  sdata s = encode_bulk a ++ sdata s' /\ Z.of_nat (length a) <= MaxBulkLen lim /\
  sfinal s' = sfinal s /\ ssize s' = ssize s.
Proof.
  unfold readBulkArg. intros ([[h|e] s1] & Eh & E)%bind_ret; [|done]. apply header_inv in Eh as (D1 & F1 & Z1).
  destruct (bool_decide_reflect (head h = Some typeBulk)) as [Hh|]; cbn [negb] in E; [|done].
  destruct (parseInt (tail h)) as [n|] eqn:Ep; [|done]. apply parseInt_iff in Ep as [Et Hn].
  destruct (Z.ltb_spec (MaxBulkLen lim) n); [done|]. destruct (maxAlloc <? n); [done|].
  apply bind_ret in E as ([[d|e] s2] & E2 & E); [|done]. apply read_exact_inv in E2 as (D2 & L2 & F2 & Z2).
  apply bind_ret in E as ([[c|e] s3] & E3 & E); [|done]. apply read_exact_inv in E3 as (D3 & _ & F3 & Z3).
  destruct (bool_decide_reflect (c = [CR; LF])) as [->|]; [|done]. injection E as <- <-.
  split_and!; [|lia|congruence|congruence].
  rewrite D1, D2, D3. unfold encode_bulk, encode_header.
  destruct h as [|x h]; [done|]. cbn in Hh, Et. injection Hh as ->. rewrite Et.
  replace (Z.of_nat (length d)) with n by lia. by rewrite <- !app_assoc.
Qed.

Lemma args_ok lim args : forall s rest, Forall (fun a => Z.of_nat (length a) <= MaxBulkLen lim) args ->
  MaxBulkLen lim <= maxAlloc -> (23 <= ssize s)%nat -> sdata s = (args ≫= encode_bulk) ++ rest ->
  readArgs lim (length args) s = Ret (inl args, MkStream rest (sfinal s) (ssize s)).
Proof.
  induction args as [|a args IH]; intros s rest Hf Hm Hs Ed; cbn [length readArgs].
  { cbn in Ed. by destruct s; cbn in *; subst. }
  inversion_clear Hf. cbn in Ed. rewrite <- app_assoc in Ed.
  rewrite (bulk_ok lim s a ((args ≫= encode_bulk) ++ rest)) by done.
  cbn [mbind outcome_bind]. by rewrite (IH _ rest) by done.
Qed.

Lemma args_inv lim n : forall s args s', readArgs lim n s = Ret (inl args, s') ->
  sdata s = (args ≫= encode_bulk) ++ sdata s' /\ length args = n /\
  Forall (fun a => Z.of_nat (length a) <= MaxBulkLen lim) args /\ sfinal s' = sfinal s /\ ssize s' = ssize s.
Proof.
  induction n as [|n IH]; intros s args s'; cbn [readArgs]; [by intros [= <- <-]|].
  intros ([[a|e] s1] & E1 & E)%bind_ret; [|done]. apply bulk_inv in E1 as (D1 & L1 & F1 & Z1).
  apply bind_ret in E as ([[l|e] s2] & E2 & E); [|done]. apply IH in E2 as (D2 & L2 & H2 & F2 & Z2). injection E as <- <-.
  cbn. rewrite D1, D2, <- app_assoc. split_and!; [done|lia|by constructor|congruence|congruence].
Qed.

Lemma command_ok lim s args rest : within lim args -> sane lim -> (23 <= ssize s)%nat ->
  sdata s = encode_command args ++ rest ->
  ReadCommand lim s = Ret (inl args, MkStream rest (sfinal s) (ssize s)).
Proof.
  intros [Hn Hf] [Hb Hm] Hs Ed. unfold ReadCommand. pose proof (header_length typeArray (length args)).
  rewrite (header_ok s (encode_header typeArray (length args)) ((args ≫= encode_bulk) ++ rest));
    [|by apply header_no_LF|lia|lia|rewrite Ed; unfold encode_command; by rewrite <- !app_assoc].
  cbn [mbind outcome_bind]. rewrite bool_decide_eq_true_2 by done. cbn [negb tail encode_header].
  rewrite (proj2 (parseInt_iff _ (Z.of_nat (length args)))) by (split; [done|unfold maxInt, maxAlloc in *; lia]).
  destruct (Z.ltb_spec (MaxMultibulkLen lim) (Z.of_nat (length args))); [lia|].
  destruct (Z.ltb_spec maxAlloc (24 * Z.of_nat (length args))); [lia|]. rewrite Nat2Z.id.
  by apply (args_ok lim args (MkStream _ (sfinal s) (ssize s)) rest).
Qed.

Lemma command_inv lim s args s' : ReadCommand lim s = Ret (inl args, s') ->
  sdata s = encode_command args ++ sdata s' /\ within lim args /\ sfinal s' = sfinal s /\ ssize s' = ssize s.
Proof.
  unfold ReadCommand. intros ([[h|e] s1] & Eh & E)%bind_ret; [|done]. apply header_inv in Eh as (D1 & F1 & Z1).
  destruct (bool_decide_reflect (head h = Some typeArray)) as [Hh|]; cbn [negb] in E; [|done].
  destruct (parseInt (tail h)) as [n|] eqn:Ep; [|done]. apply parseInt_iff in Ep as [Et Hn].
  destruct (Z.ltb_spec (MaxMultibulkLen lim) n); [done|]. destruct (maxAlloc <? 24 * n); [done|].
  apply args_inv in E as (D2 & L2 & H2 & F2 & Z2). split_and!; [|split; [lia|done]|congruence|congruence].
  rewrite D1, D2. unfold encode_command, encode_header.
  destruct h as [|x h]; [done|]. cbn in Hh, Et. injection Hh as ->. rewrite Et.
  replace (Z.of_nat (length args)) with n by lia. by rewrite <- !app_assoc.
Qed.

(** ** Truncated commands *)

(** [p] is a proper prefix of [l]. *)
Definition cut_short (p l : bytes) : Prop := exists x t, l = p ++ x :: t.

Lemma cut_short_app p l l' : cut_short p (l ++ l') ->
  cut_short p l \/ exists p', p = l ++ p' /\ cut_short p' l'.
Proof.
  intros (x & t & E). revert p E. induction l as [|y l IH]; intros p E.
  { right. exists p. split; [done|by exists x, t]. }
  destruct p as [|z p]; cbn in E.
  - left. by exists y, l.
  - injection E as -> E. destruct (IH p E) as [(x' & t' & ->)|(p' & -> & Hc)].
    + left. by exists x', t'.
    + right. by exists p'.
Qed.

(** An input that ends inside a command. *)
Definition truncated (s : stream) (p : bytes) : Prop := sdata s = p /\ sfinal s = IoEOF.

Lemma header_short s p h b : LF ∉ h -> (length h + 2 <= ssize s)%nat -> truncated s p ->
  cut_short p (h ++ CRLF) ->
  exists s', readHeaderLine s b = Ret (inr (RdIO (if b && bool_decide (p = []) then IoEOF else IoUnexpectedEOF)), s').
Proof.
  intros Hn Hl [Ed Ef] (x & t & E). unfold readHeaderLine. cbn [ReadSlice stream_source mbind outcome_bind].
  unfold s_ReadSlice. pose proof (f_equal length E) as El. rewrite !length_app in El.
  change (length CRLF) with 2%nat in El. cbn [length] in El.
  assert (LF ∉ p) as Hp.
  { assert (exists t', h ++ [CR] = p ++ t') as [t' E'].
    { destruct t as [|y t _] using rev_ind.
      - exists []. change (h ++ CRLF) with (h ++ [CR] ++ [LF]) in E. rewrite app_assoc in E.
        apply app_inj_tail in E as [-> _]. by rewrite app_nil_r.
      - exists (x :: t). change (h ++ CRLF) with (h ++ [CR] ++ [LF]) in E. rewrite app_assoc, app_comm_cons, app_assoc in E.
        by apply app_inj_tail in E as [-> _]. }
    intros Hin. assert (LF ∈ h ++ [CR]) as H' by (rewrite E'; set_solver).
    apply elem_of_app in H' as [?|?%list_elem_of_singleton]; done. }
  rewrite Ed, (take_ge p), cut_line_no_LF by (done || lia).
  destruct (Nat.leb_spec (ssize s) (length p)); [lia|]. rewrite Ef.
  destruct (b && bool_decide (p = [])); eauto.
Qed.

Lemma exact_short s p d : truncated s p -> cut_short p d ->
  exists s', read_exact s (length d) = Ret (inr (RdIO IoUnexpectedEOF), s').
Proof.
  intros [Ed Ef] (x & t & ->). unfold read_exact. cbn [ReadFull stream_source mbind outcome_bind]. unfold s_ReadFull.
  rewrite Ed, length_app. cbn [length]. destruct (Nat.leb_spec (length p + S (length t)) (length p)); [lia|].
  rewrite Ef. destruct (bool_decide (p = [])); cbn; eauto.
Qed.

Lemma bulk_short lim s p a : Z.of_nat (length a) <= MaxBulkLen lim -> MaxBulkLen lim <= maxAlloc ->
  (23 <= ssize s)%nat -> truncated s p -> cut_short p (encode_bulk a) ->
  exists s', readBulkArg lim s = Ret (inr (RdIO IoUnexpectedEOF), s').
Proof.
  intros Ha Hm Hs T Hc. unfold readBulkArg. pose proof (header_length typeBulk (length a)).
  unfold encode_bulk in Hc. rewrite app_assoc in Hc. apply cut_short_app in Hc as [Hc|(p1 & Ep & Hc)].
  { destruct (header_short s p (encode_header typeBulk (length a)) false) as [s' ->];
      [by apply header_no_LF|lia|done|done|]. cbn. eauto. }
  destruct T as [Ed Ef]. rewrite (header_ok s (encode_header typeBulk (length a)) p1);
    [|by apply header_no_LF|lia|lia|by rewrite Ed, Ep, <- app_assoc].
  cbn [mbind outcome_bind]. rewrite bool_decide_eq_true_2 by done. cbn [negb tail encode_header].
  rewrite (proj2 (parseInt_iff _ (Z.of_nat (length a)))) by (split; [done|unfold maxInt, maxAlloc in *; lia]).
  destruct (Z.ltb_spec (MaxBulkLen lim) (Z.of_nat (length a))); [lia|].
  destruct (Z.ltb_spec maxAlloc (Z.of_nat (length a))); [lia|]. rewrite Nat2Z.id, Ef.
  apply cut_short_app in Hc as [Hc|(p2 & -> & Hc)].
  { destruct (exact_short (MkStream p1 IoEOF (ssize s)) p1 a) as [s' ->]; [done|done|]. cbn. eauto. }
  rewrite (read_exact_ok _ a p2) by done. cbn [mbind outcome_bind sfinal ssize].
  destruct (exact_short (MkStream p2 IoEOF (ssize s)) p2 CRLF) as [s' E]; [done|done|].
  change (length CRLF) with 2%nat in E. rewrite E. cbn. eauto.
Qed.

Lemma args_short lim args : forall s p, Forall (fun a => Z.of_nat (length a) <= MaxBulkLen lim) args ->
  MaxBulkLen lim <= maxAlloc -> (23 <= ssize s)%nat -> truncated s p -> cut_short p (args ≫= encode_bulk) ->
  exists s', readArgs lim (length args) s = Ret (inr (RdIO IoUnexpectedEOF), s').
Proof.
  induction args as [|a args IH]; intros s p Hf Hm Hs T Hc; cbn [length readArgs].
  { destruct Hc as (x & t & E). by destruct p. }
  inversion_clear Hf. rewrite bind_cons in Hc. apply cut_short_app in Hc as [Hc|(p1 & -> & Hc)].
  - destruct (bulk_short lim s p a) as [s' ->]; [done..|]. cbn. eauto.
  - destruct T as [Ed Ef]. rewrite (bulk_ok lim s a p1) by done. cbn [mbind outcome_bind]. rewrite Ef.
    destruct (IH (MkStream p1 IoEOF (ssize s)) p1) as [s' ->]; [done..|]. cbn. eauto.
Qed.

Lemma command_short lim s p args : within lim args -> sane lim -> (23 <= ssize s)%nat -> truncated s p ->
  cut_short p (encode_command args) ->
  exists s', ReadCommand lim s = Ret (inr (RdIO (if bool_decide (p = []) then IoEOF else IoUnexpectedEOF)), s').
Proof.
  intros [Hn Hf] [Hb Hm] Hs T Hc. unfold ReadCommand. pose proof (header_length typeArray (length args)).
  unfold encode_command in Hc. rewrite app_assoc in Hc. apply cut_short_app in Hc as [Hc|(p1 & Ep & Hc)].
  { destruct (header_short s p (encode_header typeArray (length args)) true) as [s' ->];
      [by apply header_no_LF|lia|done|done|]. cbn. eauto. }
  destruct T as [Ed Ef]. rewrite (header_ok s (encode_header typeArray (length args)) p1);
    [|by apply header_no_LF|lia|lia|by rewrite Ed, Ep, <- app_assoc].
  cbn [mbind outcome_bind]. rewrite bool_decide_eq_true_2 by done. cbn [negb tail encode_header].
  rewrite (proj2 (parseInt_iff _ (Z.of_nat (length args)))) by (split; [done|unfold maxInt, maxAlloc in *; lia]).
  destruct (Z.ltb_spec (MaxMultibulkLen lim) (Z.of_nat (length args))); [lia|].
  destruct (Z.ltb_spec maxAlloc (24 * Z.of_nat (length args))); [lia|]. rewrite Nat2Z.id, Ef.
  rewrite bool_decide_eq_false_2 by (by rewrite Ep). by apply (args_short lim args _ p1).
Qed.

(** ** Properties *)

(** Several commands in a row, the results in order. *)
Fixpoint read_seq {S} `{!Source S} (lim : Limits) (n : nat) (s : S) : outcome (list (list bytes + rderr) * S) :=
  match n with
  | O => Ret ([], s)
  | Datatypes.S n' =>
      r ← ReadCommand lim s;
      rest ← read_seq lim n' (snd r);
      Ret (fst r :: fst rest, snd rest)
  end.

Lemma seq_sim lim n : forall b s, carries b s -> agree carries (read_seq lim n b) (read_seq lim n s).
Proof.
  induction n as [|n IH]; intros b s C; cbn [read_seq]; [done|].
  apply agree_bind; [by apply command_sim|]. intros r b1 s1 C1.
  apply agree_bind; [by apply IH|]. intros l b2 s2 C2. done.
Qed.

Lemma NewReader_carries ps fin cfg : Forall (fun p => p <> []) ps ->
  carries (NewReader (MkNet ps fin) cfg) (MkStream (mjoin ps) fin (Nat.max 16 (Z.to_nat (bufferSize cfg)))).
Proof. intros. by apply carries_fresh; [| |lia|]. Qed.

(** C27. Chunking.  However the connection splits its bytes into pieces, decoding
    any number of pipelined commands through the buffered reader gives the results
    of decoding the undivided byte stream, and leaves a reader that still carries
    the rest of that stream: partial reads are resumed without loss or repetition. *)
Theorem reader_chunking lim cfg ps fin n :
  Forall (fun p => p <> []) ps ->
  agree carries (read_seq lim n (NewReader (MkNet ps fin) cfg))
    (read_seq lim n (MkStream (mjoin ps) fin (Nat.max 16 (Z.to_nat (bufferSize cfg))))).
Proof. intros Hp. by apply seq_sim, NewReader_carries. Qed.

(** C9. The request grammar.  On the byte stream [ReadCommand] succeeds with
    [args] exactly when the input starts with the canonical encoding of [args] and
    [args] is within the limits; it then consumes exactly that encoding.  So every
    encoded command is decoded, binary arguments included, and nothing else is
    accepted (no sign, no leading zero, no missing terminator). *)
Theorem command_codec lim s args rest :
  sane lim -> (23 <= ssize s)%nat ->
  ReadCommand lim s = Ret (inl args, MkStream rest (sfinal s) (ssize s)) <->
  sdata s = encode_command args ++ rest /\ within lim args.
Proof.
  intros Hl Hs. split.
  - intros E. by apply command_inv in E as (D & W & _).
  - intros [D W]. by apply command_ok.
Qed.

(** C38. Truncation.  When the input ends inside an encoded command, [ReadCommand]
    reports a clean end of file if nothing was sent and an unexpected end of file
    otherwise, never a protocol error. *)
Theorem command_truncated lim args p fin_size :
  sane lim -> (23 <= fin_size)%nat -> within lim args -> cut_short p (encode_command args) ->
  exists s', ReadCommand lim (MkStream p IoEOF fin_size) =
    Ret (inr (RdIO (if bool_decide (p = []) then IoEOF else IoUnexpectedEOF)), s').
Proof. intros Hl Hs Hw Hc. by apply (command_short lim _ p args). Qed.

(** ** Witnesses *)
Definition demo_lim : Limits := MkLimits 100 10.
Definition demo_cmd : list bytes := [B "SET"; B "k"; [CR; LF; x00]].

Lemma reader_chunking_witness : exists b,
  read_seq demo_lim 2 (NewReader (MkNet [B "*1"; [CR]; LF :: B "$4"; [CR; LF] ++ B "PIN"; B "G" ++ [CR; LF]] IoEOF)
    (resolveConfig [])) = Ret ([inl [B "PING"]; inr (RdIO IoEOF)], b).
Proof.
  pose proof (reader_chunking demo_lim (resolveConfig [])
    [B "*1"; [CR]; LF :: B "$4"; [CR; LF] ++ B "PIN"; B "G" ++ [CR; LF]] IoEOF 2) as H.
  match type of H with ?P -> _ => assert P as Hp by (repeat constructor; discriminate) end.
  specialize (H Hp). destruct (read_seq demo_lim 2 (NewReader _ _)) as [[r b]| |];
    [|exfalso; vm_compute in H; exact H|exfalso; vm_compute in H; exact H].
  exists b. do 2 f_equal. vm_compute in H. exact (proj1 H).
Defined.

Lemma command_codec_witness :
  ReadCommand demo_lim (MkStream (encode_command demo_cmd ++ B "rest") IoEOF 4096) =
    Ret (inl demo_cmd, MkStream (B "rest") IoEOF 4096).
Proof.
  apply (command_codec demo_lim (MkStream (encode_command demo_cmd ++ B "rest") IoEOF 4096) demo_cmd (B "rest")).
  - split; vm_compute; discriminate.
  - vm_compute. lia.
  - split; [reflexivity|]. split; [vm_compute; discriminate|]. repeat constructor; vm_compute; discriminate.
Defined.

Lemma command_truncated_witness : exists s',
  ReadCommand demo_lim (MkStream (B "*3") IoEOF 4096) = Ret (inr (RdIO IoUnexpectedEOF), s').
Proof.
  apply (command_truncated demo_lim demo_cmd (B "*3") 4096).
  - split; vm_compute; discriminate.
  - lia.
  - split; [vm_compute; discriminate|]. repeat constructor; vm_compute; discriminate.
  - exists CR, (drop 3 (encode_command demo_cmd)). vm_compute. reflexivity.
Defined.
