(* ===== verification/Writer.v ===== *)
(** * The RESP reply encoder ([internal/resp/writer.go])

    [Writer] over the buffered writer of the standard library, over a connection
    that accepts a number of bytes and then fails for ever.  The scratch array only
    holds text that is written before it is reused and is not part of the state. *)
From S2P Require Import Prelude Hash Resp.

(** ** The buffered writer *)
Record netsink : Type := MkSink { accepted : bytes; budget : nat; sink_err : ioerr }.

(** [net.Conn.Write]: bytes taken, error, connection. *)
Definition net_write (k : netsink) (p : bytes) : nat * option ioerr * netsink :=
  if (length p <=? budget k)%nat
  then (length p, None, MkSink (accepted k ++ p) (budget k - length p) (sink_err k))
  else (budget k, Some (sink_err k), MkSink (accepted k ++ take (budget k) p) 0 (sink_err k)).

Record bwriter : Type := MkBW { wbuf : bytes; wfail : option ioerr; wsink : netsink }.

(** The size [bufio.NewWriter] uses. *)
Definition wsize : nat := 4096.

Definition available (b : bwriter) : nat := wsize - length (wbuf b).

Definition bw_Flush (b : bwriter) : bwriter :=
  match wfail b with
  | Some _ => b
  | None =>
      if bool_decide (wbuf b = []) then b
      else
        let '(n, e, k) := net_write (wsink b) (wbuf b) in
        MkBW (drop n (wbuf b)) e k
  end.

(** [Write], and [WriteString] on a connection without a [WriteString] method
    ([direct] is false); both loop while the data does not fit. *)
Fixpoint bw_Write (fuel : nat) (direct : bool) (b : bwriter) (p : bytes) : outcome bwriter :=
  match fuel with
  | O => Diverge
  | Datatypes.S fuel' =>
      match wfail b with
      | Some _ => Ret b
      | None =>
          if (length p <=? available b)%nat then Ret (MkBW (wbuf b ++ p) None (wsink b))
          else if direct && bool_decide (wbuf b = []) then
            let '(n, e, k) := net_write (wsink b) p in
            bw_Write fuel' direct (MkBW [] e k) (drop n p)
          else
            let n := available b in
            bw_Write fuel' direct (bw_Flush (MkBW (wbuf b ++ take n p) None (wsink b))) (drop n p)
      end
  end.

Definition bw_WriteByte (b : bwriter) (c : byte) : bwriter :=
  match wfail b with
  | Some _ => b
  | None =>
      let b' := if (available b =? 0)%nat then bw_Flush b else b in
      match wfail b' with
      | Some _ => b'
      | None => MkBW (wbuf b' ++ [c]) None (wsink b')
      end
  end.

(** ** The encoder *)
Record Writer : Type := MkWriter { bw : bwriter; werr : option ioerr; wproto : Z }.

Definition NewWriter (k : netsink) : Writer := MkWriter (MkBW [] None k) None 2.

Definition SetProto (w : Writer) (proto : Z) : Writer :=
  let proto := if proto <? 2 then 2 else if 3 <? proto then 3 else proto in
  MkWriter (bw w) (werr w) proto.

Definition Flush (w : Writer) : Writer * option ioerr :=
  match werr w with
  | Some e => (w, Some e)
  | None =>
      let b := bw_Flush (bw w) in
      (MkWriter b (wfail b) (wproto w), wfail b)
  end.

(** The three primitives record the first error and then do nothing. *)
Definition put (w : Writer) (direct : bool) (p : bytes) : outcome Writer :=
  match werr w with
  | Some _ => Ret w
  | None =>
      b ← bw_Write (length p + 3) direct (bw w) p;
      Ret (MkWriter b (wfail b) (wproto w))
  end.

Definition writeString (w : Writer) (s : bytes) : outcome Writer := put w false s.
Definition writeBytes (w : Writer) (p : bytes) : outcome Writer := put w true p.

Definition writeByte (w : Writer) (c : byte) : outcome Writer :=
  match werr w with
  | Some _ => Ret w
  | None => let b := bw_WriteByte (bw w) c in Ret (MkWriter b (wfail b) (wproto w))
  end.

(** [strconv.AppendInt(_, n, 10)] for an int64. *)
Definition format_int (n : Z) : bytes := if n <? 0 then x2d :: itoa (- n) else itoa n.

Definition writeNumber (w : Writer) (n : Z) : outcome Writer := writeBytes w (format_int n).

Definition writeLenPrefixed (w : Writer) (prefix : byte) (body : bytes) : outcome Writer :=
  w ← writeByte w prefix;
  w ← writeNumber w (Z.of_nat (length body));
  w ← writeString w [CR; LF];
  w ← writeBytes w body;
  writeString w [CR; LF].

Definition WriteSimpleString (w : Writer) (s : bytes) : outcome Writer :=
  w ← writeByte w x2b; w ← writeString w s; writeString w [CR; LF].

Definition WriteError (w : Writer) (msg : bytes) : outcome Writer :=
  w ← writeByte w x2d; w ← writeString w msg; writeString w [CR; LF].

Definition WriteInt (w : Writer) (n : Z) : outcome Writer :=
  w ← writeByte w x3a; w ← writeNumber w n; writeString w [CR; LF].

Definition WriteBulk (w : Writer) (b : bytes) : outcome Writer :=
  w ← writeByte w typeBulk;
  w ← writeNumber w (Z.of_nat (length b));
  w ← writeString w [CR; LF];
  w ← writeBytes w b;
  writeString w [CR; LF].

Definition WriteBulkString (w : Writer) (s : bytes) : outcome Writer :=
  w ← writeByte w typeBulk;
  w ← writeNumber w (Z.of_nat (length s));
  w ← writeString w [CR; LF];
  w ← writeString w s;
  writeString w [CR; LF].

Definition WriteNull (w : Writer) : outcome Writer :=
  if 3 <=? wproto w then writeString w (x5f :: [CR; LF])
  else writeString w (B "$-1" ++ [CR; LF]).

Definition WriteArrayHeader (w : Writer) (n : Z) : outcome Writer :=
  w ← writeByte w typeArray; w ← writeNumber w n; writeString w [CR; LF].

Definition WriteMapHeader (w : Writer) (n : Z) : outcome Writer :=
  w ← (if 3 <=? wproto w then w ← writeByte w x25; writeNumber w n
       else w ← writeByte w typeArray; writeNumber w (i64 (2 * n)));
  writeString w [CR; LF].

Definition WriteBool (w : Writer) (b : bool) : outcome Writer :=
  if (3 <=? wproto w) && b then writeString w (B "#t" ++ [CR; LF])
  else if 3 <=? wproto w then writeString w (B "#f" ++ [CR; LF])
  else if b then writeString w (B ":1" ++ [CR; LF])
  else writeString w (B ":0" ++ [CR; LF]).

(** A float64 as [appendDouble] distinguishes it; [text] is the shortest text
    [strconv.AppendFloat] gives for a finite one. *)
Inductive gofloat : Type := PosInf | NegInf | NotANumber | Finite (text : bytes).

Definition appendDouble (f : gofloat) : bytes :=
  match f with
  | PosInf => B "inf"
  | NegInf => B "-inf"
  | NotANumber => B "nan"
  | Finite text => text
  end.

Definition WriteDouble (w : Writer) (f : gofloat) : outcome Writer :=
  let body := appendDouble f in
  if 3 <=? wproto w then
    w ← writeByte w x2c; w ← writeBytes w body; writeString w [CR; LF]
  else writeLenPrefixed w typeBulk body.

(** [big.Int.Append] in base ten: as many digits as the number has. *)
Definition format_big (n : Z) : bytes :=
  let digits m := itoa_fuel (S (Z.to_nat (Z.log2 m))) m in
  if n <? 0 then x2d :: digits (- n) else digits n.

Definition WriteBigNumber (w : Writer) (x : Z) : outcome Writer :=
  let body := format_big x in
  if 3 <=? wproto w then
    w ← writeByte w x28; w ← writeBytes w body; writeString w [CR; LF]
  else writeLenPrefixed w typeBulk body.
