(* ===== verification/WriterSpec.v ===== *)
(** * What the encoder promises

    Until the first error the bytes delivered and buffered are exactly the frames
    written, in order; after it the connection has received a prefix of them and
    nothing more is sent.  Every [Write] method appends one frame, and frames can
    be told apart: a client that parses replies recovers what was written. *)
From S2P Require Import Prelude Hash Resp RespSpec Writer.

#[local] Arguments wsize : simpl never.

(** ** The buffered writer *)

Section promises.
Context (cap : nat) (e0 : ioerr).

(** A connection that takes [cap] bytes in its life and then fails with [e0]. *)
Definition sink_inv (k : netsink) : Prop :=
  (length (accepted k) + budget k)%nat = cap /\ sink_err k = e0.

(** What the connection holds when [out] has been written: all of it but the
    buffered tail, or after an error exactly the first [cap] bytes of it. *)
Definition delivered (b : bwriter) (out : bytes) : Prop :=
  match wfail b with
  | None => accepted (wsink b) ++ wbuf b = out
  | Some e => e = e0 /\ accepted (wsink b) = take cap out /\ (cap < length out)%nat
  end.

(** The bytes given to the writer so far. *)
Definition bw_emitted (b : bwriter) (out : bytes) : Prop :=
  (length (wbuf b) <= wsize)%nat /\ sink_inv (wsink b) /\ delivered b out.

Lemma net_write_ok k p n e k' : sink_inv k -> net_write k p = (n, e, k') ->
  sink_inv k' /\
  ((e = None /\ n = length p /\ accepted k' = accepted k ++ p) \/
   (e = Some e0 /\ (n < length p)%nat /\ accepted k' = take cap (accepted k ++ p) /\
    (cap < length (accepted k ++ p))%nat)).
Proof.
  unfold sink_inv, net_write. intros [Hc He].
  destruct (Nat.leb_spec (length p) (budget k)); intros [= <- <- <-]; cbn; rewrite ?length_app.
  - split; [split; [lia|done]|]. by left.
  - rewrite length_take_le by lia. split; [split; [lia|done]|]. right.
    split_and!; [by rewrite He|done| |lia].
    rewrite take_app_ge by lia. do 2 f_equal. lia.
Qed.

Lemma flush_ok b out : bw_emitted b out -> bw_emitted (bw_Flush b) out /\
  (wfail b = None -> (wfail (bw_Flush b) = None /\ wbuf (bw_Flush b) = []) \/ is_Some (wfail (bw_Flush b))) /\
  (is_Some (wfail b) -> bw_Flush b = b).
Proof.
  intros Hb. pose proof Hb as (Hl & Hk & He). unfold bw_Flush, delivered in *. destruct (wfail b) as [e|] eqn:Ef; [done|].
  destruct (bool_decide_reflect (wbuf b = [])) as [E|_].
  { split; [done|]. split; [by left|by intros []]. }
  destruct (net_write (wsink b) (wbuf b)) as [[n e] k] eqn:Ew.
  apply net_write_ok in Ew as [Hk' [(-> & -> & Ea)|(-> & Hn & Ea & Hc)]]; [| |done];
    (split; [|split; [|by intros []]]).
  - split_and!; cbn; [rewrite length_drop; lia|done|]. unfold delivered. cbn. by rewrite drop_ge, app_nil_r, Ea.
  - intros _. left. cbn. by rewrite drop_ge.
  - split_and!; cbn; [rewrite length_drop; lia|done|]. unfold delivered. cbn. by rewrite <- He.
  - intros _. right. cbn. eauto.
Qed.

Lemma bw_Write_failed fuel direct b p : (0 < fuel)%nat -> is_Some (wfail b) -> bw_Write fuel direct b p = Ret b.
Proof. intros Hf [e He]. destruct fuel; [lia|]. cbn. by rewrite He. Qed.

Lemma available_empty b : wbuf b = [] -> (available b =? 0)%nat = false.
Proof. intros E. unfold available. rewrite E. reflexivity. Qed.

Lemma bw_emitted_more b out p : is_Some (wfail b) -> bw_emitted b out -> bw_emitted b (out ++ p).
Proof.
  intros [e He] (Hl & Hk & Ho). split_and!; [done..|]. unfold delivered in *. rewrite He in *.
  destruct Ho as (-> & Ho & Hc). rewrite length_app, take_app_le by lia. split_and!; [done..|lia].
Qed.

Lemma bw_emitted_buffer b out p : wfail b = None -> (length p <= available b)%nat -> bw_emitted b out ->
  bw_emitted (MkBW (wbuf b ++ p) None (wsink b)) (out ++ p).
Proof.
  unfold available. intros Ef Hfit (Hl & Hk & He). unfold delivered in He. rewrite Ef in He.
  split_and!; cbn; [rewrite length_app; lia|done|]. unfold delivered. cbn. by rewrite app_assoc, He.
Qed.

Lemma bw_Write_ok fuel direct : forall b p out, bw_emitted b out ->
  (length p + (if (available b =? 0)%nat then 1 else 0) < fuel)%nat ->
  exists b', bw_Write fuel direct b p = Ret b' /\ bw_emitted b' (out ++ p).
Proof.
  induction fuel as [|fuel IH]; intros b p out Hb Hf; [lia|].
  destruct (wfail b) as [e|] eqn:Ef.
  { exists b. split; [apply bw_Write_failed; [lia|eauto]|]. apply bw_emitted_more; [eauto|done]. }
  cbn [bw_Write]. rewrite Ef.
  destruct (Nat.leb_spec (length p) (available b)) as [Hfit|Hbig].
  { eexists. split; [done|]. by apply bw_emitted_buffer. }
  destruct (direct && bool_decide (wbuf b = [])) eqn:Ed.
  - rewrite andb_true_iff, bool_decide_eq_true in Ed. destruct Ed as [_ Eb].
    destruct Hb as (_ & Hk & He). unfold delivered in He. rewrite Ef, Eb, app_nil_r in He. subst out.
    destruct (net_write (wsink b) p) as [[n e] k] eqn:Ew.
    apply net_write_ok in Ew as [Hk' [(-> & -> & Ea)|(-> & Hn & Ea & Hc)]]; [| |done].
    + rewrite drop_ge by done.
      destruct (IH (MkBW [] None k) [] (accepted (wsink b) ++ p)) as (b' & Hw & Hem).
      { split_and!; cbn; [lia|done|]. unfold delivered. cbn. by rewrite app_nil_r. }
      { rewrite available_empty by done. cbn [length]. lia. }
      exists b'. by rewrite app_nil_r in Hem.
    + eexists. split; [apply bw_Write_failed; [lia|cbn; eauto]|]. by split_and!; cbn; [lia|..].
  - set (n := available b) in *.
    destruct (flush_ok (MkBW (wbuf b ++ take n p) None (wsink b)) (out ++ take n p)) as (Hfl & Hok & _).
    { apply bw_emitted_buffer; [done| |done]. rewrite length_take. lia. }
    replace (out ++ p) with ((out ++ take n p) ++ drop n p) by (by rewrite <- app_assoc, take_drop).
    destruct (Hok eq_refl) as [[Hok1 Hok2]|Hbad].
    + apply IH; [done|]. rewrite available_empty, length_drop by done.
      destruct (Nat.eqb_spec n 0); cbn; lia.
    + eexists. split; [apply bw_Write_failed; [lia|done]|]. by apply bw_emitted_more.
Qed.

Lemma bw_WriteByte_ok b c out : bw_emitted b out -> bw_emitted (bw_WriteByte b c) (out ++ [c]).
Proof.
  intros Hb. unfold bw_WriteByte.
  destruct (wfail b) as [e|] eqn:Ef; [apply bw_emitted_more; eauto|].
  destruct (Nat.eqb_spec (available b) 0) as [E0|E0].
  - destruct (flush_ok _ _ Hb) as (Hfl & Hok & _).
    destruct (Hok Ef) as [[Hn Hz]|[e Hn]]; rewrite Hn.
    + apply bw_emitted_buffer; [done| |done]. apply available_empty, Nat.eqb_neq in Hz. cbn. lia.
    + apply bw_emitted_more; eauto.
  - rewrite Ef. apply bw_emitted_buffer; [done|cbn; lia|done].
Qed.

(** ** The encoder's primitives *)

(** What an encoder has been given so far: [out], every byte of it delivered or
    buffered while no error is recorded; its own error is the buffer's. *)
Definition emitted (w : Writer) (out : bytes) : Prop :=
  werr w = wfail (bw w) /\ bw_emitted (bw w) out.

(** An operation that returns, appends [frame] and leaves the dialect alone. *)
Definition appends (op : Writer -> outcome Writer) (frame : Writer -> bytes) : Prop :=
  forall w out, emitted w out ->
    exists w', op w = Ret w' /\ emitted w' (out ++ frame w) /\ wproto w' = wproto w /\
      (is_Some (werr w) -> w' = w).

Lemma emitted_new : emitted (NewWriter (MkSink [] cap e0)) [].
Proof. split; [done|]. split; [apply Nat.le_0_l|]. by split. Qed.

Lemma emitted_stop w out p : emitted w out -> is_Some (werr w) -> emitted w (out ++ p).
Proof. intros [He Hb] Hs. split; [done|]. apply bw_emitted_more; [by rewrite <- He|done]. Qed.

Lemma put_ok direct p : appends (fun w => put w direct p) (fun _ => p).
Proof.
  intros w out Hw. pose proof Hw as [He Hb]. unfold put. destruct (werr w) as [e|] eqn:Ew.
  { exists w. split_and!; [done| |done..]. apply emitted_stop; [done|]. rewrite Ew; eauto. }
  destruct (bw_Write_ok (length p + 3) direct (bw w) p out Hb) as (b' & -> & Hb').
  { destruct (_ =? _)%nat; lia. }
  eexists. split_and!; [done| |done|by intros []]. done.
Qed.

Lemma writeByte_ok c : appends (fun w => writeByte w c) (fun _ => [c]).
Proof.
  intros w out Hw. pose proof Hw as [He Hb]. unfold writeByte. destruct (werr w) as [e|] eqn:Ew.
  { exists w. split_and!; [done| |done..]. apply emitted_stop; [done|]. rewrite Ew; eauto. }
  eexists. split_and!; [done| |done|by intros []]. split; [done|]. by apply bw_WriteByte_ok.
Qed.

Lemma appends_bind op1 op2 f1 f2 : appends op1 f1 -> appends op2 f2 ->
  (forall w w', wproto w' = wproto w -> f2 w' = f2 w) ->
  appends (fun w => w' ← op1 w; op2 w') (fun w => f1 w ++ f2 w).
Proof.
  intros H1 H2 Hf w out Hw.
  destruct (H1 w out Hw) as (w1 & -> & Hw1 & Hp1 & Hs1). cbn.
  destruct (H2 w1 _ Hw1) as (w2 & -> & Hw2 & Hp2 & Hs2).
  exists w2. split_and!; [done| |congruence|].
  - rewrite (Hf _ _ Hp1) in Hw2. by rewrite app_assoc.
  - intros Hs. rewrite (Hs1 Hs) in *. by apply Hs2.
Qed.

Lemma appends_if (c : Z -> bool) op1 op2 f1 f2 : appends op1 f1 -> appends op2 f2 ->
  appends (fun w => if c (wproto w) then op1 w else op2 w) (fun w => if c (wproto w) then f1 w else f2 w).
Proof. intros H1 H2 w out Hw. destruct (c (wproto w)); auto. Qed.

End promises.
