(* ===== verification/Replies.v ===== *)
(** * Replies on the wire

    The frames of RESP2 and RESP3 as data, the calls a handler makes on the
    encoder, and what a client reads back.  An encoder delivers the frames of its
    calls byte for byte, in order, up to the point where the connection fails, and
    a client that parses what it received recovers the frames. *)
From S2P Require Import Prelude Hash Resp RespSpec Writer WriterSpec.

(** ** Frames *)
Inductive Frame : Type :=
  | FSimple (s : bytes) | FError (s : bytes) | FInt (n : Z) | FBulk (b : bytes)
  | FNullBulk | FNull | FArray (n : Z) | FMap (n : Z) | FBool (b : bool)
  | FDouble (text : bytes) | FBig (n : Z).

Definition encode_frame (f : Frame) : bytes :=
  match f with
  | FSimple s => B "+" ++ s ++ CRLF
  | FError s => B "-" ++ s ++ CRLF
  | FInt n => B ":" ++ format_big n ++ CRLF
  | FBulk b => B "$" ++ format_big (Z.of_nat (length b)) ++ CRLF ++ b ++ CRLF
  | FNullBulk => B "$-1" ++ CRLF
  | FNull => B "_" ++ CRLF
  | FArray n => B "*" ++ format_big n ++ CRLF
  | FMap n => B "%" ++ format_big n ++ CRLF
  | FBool b => (if b then B "#t" else B "#f") ++ CRLF
  | FDouble t => B "," ++ t ++ CRLF
  | FBig n => B "(" ++ format_big n ++ CRLF
  end.

(** A frame's text stays on its line and its counts are not negative. *)
Definition valid (f : Frame) : bool :=
  match f with
  | FSimple s | FError s | FDouble s => bool_decide (LF ∉ s)
  | FArray n | FMap n => 0 <=? n
  | _ => true
  end.

(** ** Calls *)
Inductive call : Type :=
  | CSimpleString (s : bytes) | CError (s : bytes) | CInt (n : Z) | CBulk (b : bytes)
  | CBulkString (s : bytes) | CNull | CArrayHeader (n : Z) | CMapHeader (n : Z)
  | CBool (b : bool) | CDouble (f : gofloat) | CBigNumber (n : Z) | CSetProto (p : Z).

Definition do_call (w : Writer) (c : call) : outcome Writer :=
  match c with
  | CSimpleString s => WriteSimpleString w s
  | CError s => WriteError w s
  | CInt n => WriteInt w n
  | CBulk b => WriteBulk w b
  | CBulkString s => WriteBulkString w s
  | CNull => WriteNull w
  | CArrayHeader n => WriteArrayHeader w n
  | CMapHeader n => WriteMapHeader w n
  | CBool b => WriteBool w b
  | CDouble f => WriteDouble w f
  | CBigNumber n => WriteBigNumber w n
  | CSetProto p => Ret (SetProto w p)
  end.

Fixpoint do_calls (w : Writer) (cs : list call) : outcome Writer :=
  match cs with
  | [] => Ret w
  | c :: cs => w ← do_call w c; do_calls w cs
  end.

(** The frame of a call under a dialect, with the downgrades of RESP2. *)
Definition frame_of (proto : Z) (c : call) : option Frame :=
  let v3 := 3 <=? proto in
  match c with
  | CSimpleString s => Some (FSimple s)
  | CError s => Some (FError s)
  | CInt n => Some (FInt n)
  | CBulk b | CBulkString b => Some (FBulk b)
  | CNull => Some (if v3 then FNull else FNullBulk)
  | CArrayHeader n => Some (FArray n)
  | CMapHeader n => Some (if v3 then FMap n else FArray (2 * n))
  | CBool b => Some (if v3 then FBool b else FInt (if b then 1 else 0))
  | CDouble f => Some (if v3 then FDouble (appendDouble f) else FBulk (appendDouble f))
  | CBigNumber n => Some (if v3 then FBig n else FBulk (format_big n))
  | CSetProto _ => None
  end.

Definition proto_after (proto : Z) (c : call) : Z :=
  match c with CSetProto p => Z.max 2 (Z.min 3 p) | _ => proto end.

Fixpoint frames_of (proto : Z) (cs : list call) : list Frame :=
  match cs with
  | [] => []
  | c :: cs => option_list (frame_of proto c) ++ frames_of (proto_after proto c) cs
  end.

(** The arguments are values of their Go types. *)
Definition typed (c : call) : Prop :=
  match c with
  | CInt n | CArrayHeader n => in_i64 n
  | CMapHeader n => in_i64 n /\ in_i64 (2 * n)
  | CBulk b | CBulkString b => in_i64 (Z.of_nat (length b))
  | CDouble f => in_i64 (Z.of_nat (length (appendDouble f)))
  | CBigNumber n => in_i64 (Z.of_nat (length (format_big n)))
  | _ => True
  end.

(** ** Decimal text *)
#[local] Opaque itoa_fuel.
#[local] Arguments itoa : simpl never.

Lemma itoa_enough f n : (0 < f)%nat -> 0 <= n < 10 ^ Z.of_nat f -> forall g, (f <= g)%nat ->
  itoa_fuel g n = itoa_fuel f n.
Proof.
  intros Hf Hn g Hg. induction Hg as [|g Hg IH]; [done|]. rewrite <- IH.
  destruct (itoa_more g n) as [->|E]; [|done|lia].
  split; [lia|]. apply (Z.lt_le_trans _ (10 ^ Z.of_nat f)); [lia|]. apply Z.pow_le_mono_r; lia.
Qed.

(** A number has at most as many decimal as binary digits. *)
Lemma log2_enough m : 0 <= m -> 0 <= m < 10 ^ Z.of_nat (S (Z.to_nat (Z.log2 m))).
Proof.
  intros Hm. split; [done|]. pose proof (Z.log2_nonneg m).
  rewrite Nat2Z.inj_succ, Z2Nat.id by done.
  apply (Z.lt_le_trans _ (2 ^ Z.succ (Z.log2 m))); [|apply Z.pow_le_mono_l; lia].
  destruct (Z.eq_dec m 0) as [->|]; [done|]. apply Z.log2_spec. lia.
Qed.

Lemma digits_any f m : 0 <= m < 10 ^ Z.of_nat f -> (0 < f)%nat ->
  itoa_fuel (S (Z.to_nat (Z.log2 m))) m = itoa_fuel f m.
Proof.
  intros Hm Hf. pose proof (log2_enough m (proj1 Hm)) as Hl.
  destruct (Nat.le_ge_cases f (S (Z.to_nat (Z.log2 m)))).
  - by apply itoa_enough.
  - symmetry. apply itoa_enough; [lia|done..].
Qed.

Lemma format_int_big n : in_i64 n -> format_int n = format_big n.
Proof.
  intros Hn. unfold format_int, format_big, itoa.
  assert (2 ^ 63 < 10 ^ Z.of_nat 20) by done. unfold in_i64 in Hn.
  destruct (Z.ltb_spec n 0); [f_equal|]; symmetry; (apply digits_any; lia).
Qed.

(** ** Every call appends its Frame *)
Section delivery.
Context (cap : nat) (e0 : ioerr).

Lemma appends_ext op f g : (forall w, f w = g w) -> appends cap e0 op f -> appends cap e0 op g.
Proof. intros E H w out Hw. rewrite <- E. by apply H. Qed.

(** The frames are constant, so they compose without conditions. *)
Lemma appends_seq op1 op2 p q : appends cap e0 op1 (fun _ => p) -> appends cap e0 op2 (fun _ => q) ->
  appends cap e0 (fun w => w' ← op1 w; op2 w') (fun _ => p ++ q).
Proof. intros H1 H2. by apply (appends_bind cap e0 op1 op2 (fun _ => p) (fun _ => q)). Qed.

Lemma number_ok n : appends cap e0 (fun w => writeNumber w n) (fun _ => format_int n).
Proof. apply put_ok. Qed.

(** A method of primitives in sequence appends the concatenation. *)
Ltac appends_prims :=
  lazymatch goal with
  | |- appends _ _ (fun w => mbind (@?f w) (@?m w)) _ => eapply appends_seq; [appends_prims|appends_prims]
  | |- appends _ _ (fun w => writeByte w _) _ => apply writeByte_ok
  | |- appends _ _ (fun w => writeNumber w _) _ => apply number_ok
  | |- appends _ _ (fun w => writeString w _) _ => apply put_ok
  | |- appends _ _ (fun w => writeBytes w _) _ => apply put_ok
  end.

(** A method that tests the dialect once does one of two such sequences. *)
Ltac appends_by :=
  eapply appends_ext; cycle 1;
  [first [appends_prims | apply (appends_if cap e0 (fun p => 3 <=? p)); appends_prims]
  |intros w; cbn; try destruct (3 <=? wproto w); cbn; rewrite ?format_int_big by done].

Lemma call_appends c : typed c -> (forall p, c <> CSetProto p) ->
  appends cap e0 (fun w => do_call w c) (fun w => from_option encode_frame [] (frame_of (wproto w) c)).
Proof.
  destruct c; cbn [typed]; intros Ht Hs; cbn [do_call].
  - unfold WriteSimpleString. by appends_by.
  - unfold WriteError. by appends_by.
  - unfold WriteInt. by appends_by.
  - unfold WriteBulk. by appends_by.
  - unfold WriteBulkString. by appends_by.
  - unfold WriteNull. by appends_by.
  - unfold WriteArrayHeader. by appends_by.
  - unfold WriteMapHeader. destruct Ht. eapply appends_ext; cycle 1.
    { eapply (appends_bind cap e0 (fun w => if 3 <=? wproto w then _ else _)
        (fun w => writeString w CRLF) _ (fun _ => CRLF)); [|appends_prims|done].
      apply (appends_if cap e0 (fun p => 3 <=? p)); appends_prims. }
    intros w. cbn. by destruct (3 <=? wproto w); cbn; rewrite ?i64_id, format_int_big.
  - intros w out Hw. unfold WriteBool. cbn. by destruct (3 <=? wproto w), b; cbn; apply put_ok.
  - unfold WriteDouble, writeLenPrefixed. by appends_by.
  - unfold WriteBigNumber, writeLenPrefixed. by appends_by.
  - by destruct (Hs p).
Qed.

Lemma calls_ok cs : forall w out, Forall typed cs -> emitted cap e0 w out ->
  exists w', do_calls w cs = Ret w' /\
    emitted cap e0 w' (out ++ concat (encode_frame <$> frames_of (wproto w) cs)) /\
    (is_Some (werr w) -> bw w' = bw w /\ werr w' = werr w).
Proof.
  induction cs as [|c cs IH]; intros w out Hcs Hw.
  { exists w. cbn. rewrite app_nil_r. done. }
  inversion_clear Hcs as [|? ? Hc Hcs'].
  assert (exists w1, do_call w c = Ret w1 /\
    emitted cap e0 w1 (out ++ from_option encode_frame [] (frame_of (wproto w) c)) /\
    wproto w1 = proto_after (wproto w) c /\ (is_Some (werr w) -> bw w1 = bw w /\ werr w1 = werr w)) as (w1 & E1 & Hw1 & Hp1 & Hs1).
  { assert ((exists p, c = CSetProto p) \/ (forall p, c <> CSetProto p)) as [[p ->]|Hn] by (destruct c; eauto).
    - eexists. split_and!; [done| | |done].
      + rewrite app_nil_r. done.
      + cbn. repeat go_case; lia.
    - destruct (call_appends c Hc Hn w out Hw) as (w1 & E1 & Hw1 & Hp1 & Hs1).
      exists w1. split_and!; [done..| |by intros ->%Hs1].
      rewrite Hp1. destruct c; try done. naive_solver. }
  destruct (IH w1 _ Hcs' Hw1) as (w' & E' & Hw' & Hs').
  exists w'. cbn [do_calls]. rewrite E1. go_simpl. split_and!; [done| |].
  - rewrite Hp1 in Hw'. cbn [frames_of]. rewrite fmap_app, concat_app, app_assoc.
    destruct (frame_of (wproto w) c); cbn in *; rewrite ?app_nil_r in *; done.
  - intros Hs. destruct (Hs1 Hs) as [Hb He]. rewrite <- Hb, <- He. apply Hs'. by rewrite He.
Qed.
End delivery.

(** ** The client *)

Definition decode_number (h : bytes) : option Z :=
  match h with
  | [] => None
  | c :: h' => if bool_decide (c = x2d) then Z.opp <$> digits_value 0 h' else digits_value 0 h
  end.

(** A frame that ends with its line. *)
Definition decode_line (t : byte) (h : bytes) : option Frame :=
  match t with
  | x2b => Some (FSimple h)
  | x2d => Some (FError h)
  | x3a => FInt <$> decode_number h
  | x5f => if bool_decide (h = []) then Some FNull else None
  | x2a => n ← decode_number h; if n <? 0 then None else Some (FArray n)
  | x25 => n ← decode_number h; if n <? 0 then None else Some (FMap n)
  | x23 => if bool_decide (h = B "t") then Some (FBool true)
           else if bool_decide (h = B "f") then Some (FBool false) else None
  | x2c => Some (FDouble h)
  | x28 => FBig <$> decode_number h
  | _ => None
  end.

Definition decode_bulk (h rest : bytes) : option (Frame * bytes) :=
  n ← decode_number h;
  if n <? 0 then Some (FNullBulk, rest)
  else
    let n := Z.to_nat n in
    if bool_decide (take 2 (drop n rest) = CRLF) then Some (FBulk (take n rest), drop (n + 2) rest) else None.

(** One frame at the front of the bytes received, if a whole one is there. *)
Definition decode_frame (l : bytes) : option (Frame * bytes) :=
  match l with
  | [] => None
  | t :: l =>
      '(line, rest) ← cut_line l;
      let h := take (length line - 2) line in
      if negb (bool_decide (line = h ++ CRLF)) then None
      else if bool_decide (t = typeBulk) then decode_bulk h rest
      else f ← decode_line t h; Some (f, rest)
  end.

(** All the whole frames received, and the bytes after them. *)
Fixpoint decode_all (fuel : nat) (l : bytes) : list Frame * bytes :=
  match fuel with
  | O => ([], l)
  | S fuel =>
      match decode_frame l with
      | Some (f, rest) => let '(fs, tail) := decode_all fuel rest in (f :: fs, tail)
      | None => ([], l)
      end
  end.

Example decode_ex : decode_all 9 (concat (encode_frame <$> [FInt (-12); FBulk (B "a" ++ CRLF); FNullBulk; FMap 2])) =
  ([FInt (-12); FBulk (B "a" ++ CRLF); FNullBulk; FMap 2], []).
Proof. vm_compute. reflexivity. Qed.

Lemma digits_snoc h c : forall acc, digits_value acc (h ++ [c]) =
  m ← digits_value acc h; digits_value m [c].
Proof. induction h as [|x h IH]; intros acc; cbn; [done|]. by destruct (_ && _); [apply IH|]. Qed.

Lemma digit_value acc d : 0 <= d < 10 -> digits_value acc [byte_of (48 + d)] = Some (acc * 10 + d).
Proof. intros. cbn. rewrite code_byte_of by lia. repeat go_case; cbn; try lia. f_equal. lia. Qed.

Lemma digits_itoa f : forall n, 0 <= n < 10 ^ Z.of_nat f -> (0 < f)%nat -> digits_value 0 (itoa_fuel f n) = Some n.
Proof.
  induction f as [|f IH]; intros n Hn Hf; [lia|]. rewrite itoa_step.
  destruct (Z.ltb_spec n 10); [rewrite digit_value; [done|lia]|].
  rewrite Nat2Z.inj_succ, Z.pow_succ_r in Hn by lia.
  rewrite digits_snoc, IH; cbn [mbind option_bind].
  - pose proof (Z.mod_pos_bound n 10). rewrite digit_value by lia. f_equal. pose proof (Z.div_mod n 10). lia.
  - split; [apply Z.div_pos; lia|apply Z.div_lt_upper_bound; lia].
  - destruct f; [cbn in Hn|]; lia.
Qed.

Lemma itoa_fuel_nonempty f n : (0 < f)%nat -> itoa_fuel f n <> [].
Proof. destruct f; [lia|]. rewrite itoa_step. destruct (n <? 10); [done|]. by destruct (itoa_fuel f (n / 10)). Qed.

Lemma decode_format n : decode_number (format_big n) = Some n.
Proof.
  unfold format_big, decode_number. destruct (Z.ltb_spec n 0).
  - rewrite bool_decide_eq_true_2, digits_itoa by (done || lia || apply log2_enough; lia). cbn. f_equal. lia.
  - pose proof (digits_itoa _ n (log2_enough n ltac:(lia)) ltac:(lia)) as Hd.
    pose proof (itoa_fuel_digits (S (Z.to_nat (Z.log2 n)))) as Hx.
    pose proof (itoa_fuel_nonempty (S (Z.to_nat (Z.log2 n))) n ltac:(lia)) as Hn.
    destruct (itoa_fuel _ n) as [|c h] eqn:E; [done|].
    rewrite bool_decide_eq_false_2; [done|]. intros ->.
    specialize (Hx x2d n ltac:(lia)). rewrite E in Hx. change (code x2d) with 45 in Hx. set_solver by lia.
Qed.

Lemma format_no_LF n : LF ∉ format_big n.
Proof.
  unfold format_big. intros H. assert (48 <= code LF <= 57); [|change (code LF) with 10 in *; lia].
  destruct (Z.ltb_spec n 0).
  - apply elem_of_cons in H as [?|H]; [done|]. apply itoa_fuel_digits in H; lia.
  - apply itoa_fuel_digits in H; lia.
Qed.

Lemma decode_header t h rest : LF ∉ h -> decode_frame (t :: h ++ CRLF ++ rest) =
  if bool_decide (t = typeBulk) then decode_bulk h rest else f ← decode_line t h; Some (f, rest).
Proof.
  intros Hh. unfold decode_frame. replace (h ++ CRLF ++ rest) with ((h ++ [CR]) ++ LF :: rest) by (by rewrite <- app_assoc).
  rewrite cut_line_found; [|by intros [?|?%list_elem_of_singleton]%elem_of_app].
  cbn [mbind option_bind]. rewrite <- app_assoc. cbn [app].
  replace (length (h ++ [CR; LF]) - 2)%nat with (length h) by (rewrite length_app; cbn; lia).
  rewrite take_app_length, bool_decide_eq_true_2; done.
Qed.

(** What was encoded is decoded, whatever follows it. *)
Lemma decode_encode f rest : valid f = true -> decode_frame (encode_frame f ++ rest) = Some (f, rest).
Proof.
  pose proof format_no_LF as Hf.
  destruct f as [s|s|n|b| | |n|n|b|s|n]; cbn [valid encode_frame]; intros Hv;
    rewrite ?bool_decide_eq_true, ?Z.leb_le in Hv; rewrite <- ?app_assoc.
  - by etrans; [apply (decode_header x2b)|].
  - by etrans; [apply (decode_header x2d)|].
  - etrans; [by apply (decode_header x3a)|]. cbn. by rewrite decode_format.
  - etrans; [by apply (decode_header x24)|]. cbn [bool_decide decide_rel].
    rewrite bool_decide_eq_true_2 by done. unfold decode_bulk. rewrite decode_format. cbn [mbind option_bind].
    go_case; [lia|]. rewrite Nat2Z.id, drop_app_length, take_app_length. cbn [app].
    rewrite bool_decide_eq_true_2 by done. rewrite <- drop_drop, drop_app_length. done.
  - etrans; [apply (decode_header x24 (B "-1"))|]; [set_solver|done].
  - etrans; [apply (decode_header x5f [])|]; [set_solver|done].
  - etrans; [by apply (decode_header x2a)|]. cbn. rewrite decode_format. cbn. go_case; [lia|done].
  - etrans; [by apply (decode_header x25)|]. cbn. rewrite decode_format. cbn. go_case; [lia|done].
  - destruct b; (etrans; [apply (decode_header x23 [_])|]; [set_solver|done]).
  - by etrans; [apply (decode_header x2c)|].
  - etrans; [by apply (decode_header x28)|]. cbn. by rewrite decode_format.
Qed.

(** More bytes do not change a frame that was complete. *)
Lemma decode_more l f rest l' : decode_frame l = Some (f, rest) -> decode_frame (l ++ l') = Some (f, rest ++ l').
Proof.
  destruct l as [|t l]; [done|]. cbn [decode_frame app].
  destruct (cut_line l) as [[line r]|] eqn:E; [|done]. rewrite (cut_line_app _ _ _ _ E). cbn [mbind option_bind].
  destruct (negb _); [done|]. destruct (bool_decide _).
  2:{ destruct (decode_line _ _); [|done]. by intros [= <- <-]. }
  unfold decode_bulk. destruct (decode_number _) as [n|]; [|done]. cbn [mbind option_bind].
  destruct (n <? 0); [by intros [= <- <-]|]. set (k := Z.to_nat n).
  destruct (bool_decide_reflect (take 2 (drop k r) = CRLF)) as [Ec|]; [|done]. intros [= <- <-].
  assert (k + 2 <= length r)%nat as Hk.
  { apply (f_equal length) in Ec. rewrite length_take, length_drop in Ec. change (length CRLF) with 2%nat in Ec. lia. }
  rewrite drop_app_le, (take_app_le (drop k r)) by (rewrite ?length_drop; lia).
  by rewrite bool_decide_eq_true_2, (drop_app_le r), (take_app_le r) by (done || lia).
Qed.

(** A frame cut short is not a frame. *)
Lemma decode_short f k : valid f = true -> (k < length (encode_frame f))%nat -> decode_frame (take k (encode_frame f)) = None.
Proof.
  intros Hv Hk. destruct (decode_frame (take k (encode_frame f))) as [[f' r]|] eqn:E; [|done]. exfalso.
  apply (decode_more _ _ _ (drop k (encode_frame f))) in E. rewrite take_drop in E.
  pose proof (decode_encode f [] Hv) as E'. rewrite app_nil_r in E'. rewrite E' in E.
  injection E as _ Er. apply (f_equal length) in Er. rewrite length_app, length_drop in Er. cbn in Er. lia.
Qed.

Lemma encode_nonempty f : (0 < length (encode_frame f))%nat.
Proof. destruct f as [| | | | | | | |[]| |]; cbn; lia. Qed.

(** The frames that fit in a number of bytes. *)
Fixpoint whole_frames (cap : nat) (fs : list Frame) : list Frame :=
  match fs with
  | [] => []
  | f :: fs =>
      if (length (encode_frame f) <=? cap)%nat then f :: whole_frames (cap - length (encode_frame f)) fs else []
  end.

Lemma decode_all_ok fs : Forall (fun f => valid f = true) fs -> forall cap fuel,
  (length (take cap (concat (encode_frame <$> fs))) < fuel)%nat ->
  fst (decode_all fuel (take cap (concat (encode_frame <$> fs)))) = whole_frames cap fs.
Proof.
  induction 1 as [|f fs Hf Hfs IH]; intros cap fuel Hfuel; (destruct fuel as [|fuel]; [lia|]); cbn [decode_all].
  { by destruct cap. }
  cbn [fmap list_fmap concat whole_frames] in *. pose proof (encode_nonempty f) as He.
  destruct (Nat.leb_spec (length (encode_frame f)) cap) as [Hc|Hc].
  - rewrite take_app_ge in * by done. rewrite decode_encode by done.
    specialize (IH (cap - length (encode_frame f))%nat fuel).
    destruct (decode_all fuel _) as [gs tl]. cbn in *. rewrite IH; [done|].
    rewrite length_app in Hfuel. lia.
  - rewrite take_app_le, decode_short by (done || lia). done.
Qed.

(** ** Theorems *)

Lemma Flush_ok cap e0 w out : emitted cap e0 w out ->
  exists w' err, Flush w = (w', err) /\ emitted cap e0 w' out /\ werr w' = err /\
    accepted (wsink (bw w')) = take cap out /\ err = (if (cap <? length out)%nat then Some e0 else None).
Proof.
  intros [He Hb]. unfold Flush. destruct (flush_ok _ _ _ _ Hb) as (Hf & Hn & _).
  destruct (werr w) as [e|] eqn:Ew.
  - exists w, (Some e). destruct Hb as (Hl & Hk & Hd). pose proof Hd as Hd'. unfold delivered in Hd'.
    rewrite <- He in Hd'. destruct Hd' as (-> & Ha & Hc). rewrite Ha.
    destruct (Nat.ltb_spec cap (length out)); [|lia]. by split_and!; [|split; [congruence|]|..].
  - set (b' := bw_Flush (bw w)) in *. exists (MkWriter b' (wfail b') (wproto w)), (wfail b').
    split; [done|]. split; [done|]. split; [done|]. cbn [bw]. destruct Hf as (_ & [Hk _] & Hd).
    unfold delivered in Hd. destruct (Hn (eq_sym He)) as [[E1 E2]|[e E1]]; rewrite E1 in Hd |- *.
    + rewrite E2, app_nil_r in Hd. subst out. destruct (Nat.ltb_spec cap (length (accepted (wsink b')))); [lia|].
      rewrite take_ge by lia; done.
    + destruct Hd as (-> & -> & Hc). by destruct (Nat.ltb_spec cap (length out)); [|lia].
Qed.

(** C29. The encoder delivers what is written.  Take a fresh encoder on a connection
    that accepts [cap] bytes and then fails, any sequence of calls with values of
    their types (dialect changes included) and a flush.  Every call returns; the
    connection has received the first [cap] bytes of the concatenated frames, byte
    for byte and in order, the RESP2 forms before the switch to RESP3 and the RESP3
    forms after it; and the flush reports the connection's error exactly when the
    frames did not fit.  After an error nothing more is ever sent and every later
    flush reports that first error. *)
Theorem writer_delivers (cap : nat) (e0 : ioerr) (cs : list call) : Forall typed cs ->
  let out := concat (encode_frame <$> frames_of 2 cs) in
  let err := if (cap <? length out)%nat then Some e0 else None in
  exists w w', do_calls (NewWriter (MkSink [] cap e0)) cs = Ret w /\ Flush w = (w', err) /\
    accepted (wsink (bw w')) = take cap out /\
    (err <> None -> forall more, Forall typed more ->
       exists w2, do_calls w' more = Ret w2 /\ bw w2 = bw w' /\ Flush w2 = (w2, err)).
Proof.
  intros Hcs out err.
  destruct (calls_ok cap e0 cs _ _ Hcs (emitted_new cap e0)) as (w & E & Hw & _).
  destruct (Flush_ok _ _ _ _ Hw) as (w' & err' & Ef & Hw' & He & Ha & E'). cbn [app wproto NewWriter] in *.
  fold out in Ha, E', Hw'. fold err in E'. rewrite E' in He, Ef. clear E' err'.
  exists w, w'. split_and!; [done..|]. intros Hne more Hm.
  destruct (calls_ok cap e0 more w' out Hm Hw') as (w2 & E2 & Hw2 & Hs).
  destruct Hs as [Hb Hs]; [rewrite He; destruct err; [eauto|done]|].
  exists w2. split_and!; [done..|]. unfold Flush. rewrite Hs, He. by destruct err.
Qed.

(** C28. Replies can be told apart.  After any sequence of calls whose texts hold no
    line feed, and a flush, a client that parses the bytes the connection received
    gets exactly the frames that fit whole in what it accepts, in order: no frame is
    split, merged, misread or invented by a cut, not even one whose payload looks
    like frames. *)
Theorem replies_roundtrip (cap : nat) (e0 : ioerr) (cs : list call) : Forall typed cs ->
  Forall (fun f => valid f = true) (frames_of 2 cs) ->
  exists w w' err, do_calls (NewWriter (MkSink [] cap e0)) cs = Ret w /\ Flush w = (w', err) /\
    let received := accepted (wsink (bw w')) in
    fst (decode_all (S (length received)) received) = whole_frames cap (frames_of 2 cs).
Proof.
  intros Hcs Hfs. destruct (calls_ok cap e0 cs _ _ Hcs (emitted_new cap e0)) as (w & E & Hw & _).
  destruct (Flush_ok _ _ _ _ Hw) as (w' & err & Ef & _ & _ & Ha & _).
  exists w, w', err. split_and!; [done..|]. cbv zeta. rewrite Ha. apply decode_all_ok; [done|]. cbn. lia.
Qed.

Definition demo_calls : list call :=
  [CSimpleString (B "OK"); CNull; CSetProto 3; CNull; CMapHeader 1; CBulk (CRLF ++ B "+x" ++ CRLF); CInt (-7)].

Lemma writer_delivers_witness :
  exists w w', do_calls (NewWriter (MkSink [] 14 IoEOF)) demo_calls = Ret w /\
    Flush w = (w', Some IoEOF) /\ accepted (wsink (bw w')) = B "+OK" ++ CRLF ++ B "$-1" ++ CRLF ++ B "_" ++ CRLF ++ B "%".
Proof.
  destruct (writer_delivers 14 IoEOF demo_calls) as (w & w' & E & Ef & Ha & _).
  { repeat constructor; done. }
  exists w, w'. split_and!; [exact E|exact Ef|]. rewrite Ha. vm_compute. reflexivity.
Defined.

Lemma replies_roundtrip_witness :
  exists w w' err, do_calls (NewWriter (MkSink [] 25 IoEOF)) demo_calls = Ret w /\ Flush w = (w', err) /\
    let received := accepted (wsink (bw w')) in
    fst (decode_all (S (length received)) received) = [FSimple (B "OK"); FNullBulk; FNull; FMap 1].
Proof.
  apply (replies_roundtrip 25 IoEOF demo_calls); repeat constructor; done.
Defined.
