(* ===== verification/Server.v ===== *)
(** * Commands and dispatch ([internal/server])

    The handlers of [commands.go] and [handshake.go], the replies of [reply.go], the
    table and [dispatch] of [dispatch.go], and [Config] of [config.go], over any
    engine that implements the [Engine] interface of [internal/cache/engine.go].

    A handler works on one connection and the engine it shares: [srvM] is the state
    monad over the two, over outcomes.  A handler's error is [errClientQuit] or the
    encoder's sticky error. *)
From S2P Require Import Prelude Hash Resp Writer Cache.

(** ** The engine interface ([engine.go]) *)

(** The optional interface [Tunable]. *)
Record TunableOps (G : Type) : Type := MkTunable {
  t_MaxMemory : G -> Z;
  t_SetMaxMemory : G -> Z -> outcome G;
  t_EvictionPolicy : G -> Z;
  t_SetEvictionPolicy : G -> Z -> G;
}.
Arguments t_MaxMemory {G} _ _.
Arguments t_SetMaxMemory {G} _ _ _.
Arguments t_EvictionPolicy {G} _ _.
Arguments t_SetEvictionPolicy {G} _ _ _.

(** [G] is the engine together with what it reads from its surroundings; the
    argument after it is [ctx.Err()]. *)
Class Engine (G : Type) := {
  eng_Get : G -> option Z -> bytes -> outcome (G * (option bytes * bool * option error));
  eng_Set : G -> option Z -> bytes -> option bytes -> Z -> outcome (G * option error);
  eng_Del : G -> option Z -> bytes -> outcome (G * (bool * option error));
  eng_TTL : G -> option Z -> bytes -> outcome (G * (Z * bool * option error));
  tunable : option (TunableOps G);
}.

(** ** Configuration ([config.go]) *)
Record Config (G : Type) : Type := MkConfig {
  Addr : bytes;
  IdleTimeout : Z;
  MaxConns : Z;
  DrainTimeout : Z;
  Version : bytes;
  Now : option (G -> Z * G);
}.
Arguments MkConfig {G} _ _ _ _ _ _.
Arguments Addr {G} _.
Arguments IdleTimeout {G} _.
Arguments MaxConns {G} _.
Arguments DrainTimeout {G} _.
Arguments Version {G} _.
Arguments Now {G} _.

Definition second : Z := 10 ^ 9.
Definition millisecond : Z := 10 ^ 6.

Definition defaultAddr : bytes := B ":6379".
Definition defaultMaxConns : Z := 10000.
Definition defaultDrainTimeout : Z := 5 * second.
Definition defaultVersion : bytes := B "0.1.0".

(** [timeNow] is [time.Now]. *)
Definition defaults {G} (timeNow : G -> Z * G) (c : Config G) : Config G :=
  MkConfig
    (if bool_decide (Addr c = []) then defaultAddr else Addr c)
    (IdleTimeout c)
    (if MaxConns c <=? 0 then defaultMaxConns else MaxConns c)
    (if DrainTimeout c <=? 0 then defaultDrainTimeout else DrainTimeout c)
    (if bool_decide (Version c = []) then defaultVersion else Version c)
    (Some (default timeNow (Now c))).

(** ** Text *)
Definition upper_byte (c : byte) : byte :=
  if (97 <=? code c) && (code c <=? 122) then byte_of (code c - 32) else c.

Definition lower_byte (c : byte) : byte :=
  if (65 <=? code c) && (code c <=? 90) then byte_of (code c + 32) else c.

Definition asciiUpper (b : bytes) : bytes := upper_byte <$> b.

Definition maxErrEchoLen : nat := 128.

Definition sanitizeText (b : bytes) : bytes :=
  let b := if (maxErrEchoLen <? length b)%nat then take maxErrEchoLen b else b in
  (fun ch => if (code ch <? 32) || (code ch =? 127) then x3f else ch) <$> b.

(** [strconv.ParseInt(s, 10, 64)], and [strconv.Atoi] where an int has 64 bits: an
    optional sign and digits, in range. *)
Definition ParseInt (s : bytes) : option Z :=
  let '(neg, ds) :=
    match s with
    | c :: s' => if bool_decide (c = x2b) then (false, s')
                 else if bool_decide (c = x2d) then (true, s') else (false, s)
    | [] => (false, [])
    end in
  if bool_decide (ds = []) then None
  else
    un ← digits_value 0 ds;
    if neg : bool then (if 2 ^ 63 <? un then None else Some (- un))
    else (if 2 ^ 63 <=? un then None else Some un).

(** ** Handlers *)
Inductive herr : Type := ErrClientQuit | WriteErr (e : ioerr).

Record conn : Type := MkConn { cw : Writer; cproto : Z; cid : Z }.

Definition set_w (c : conn) (w : Writer) : conn := MkConn w (cproto c) (cid c).
Definition set_proto (c : conn) (p : Z) : conn := MkConn (SetProto (cw c) p) p (cid c).

Definition srvM (G A : Type) : Type := conn * G -> outcome (A * (conn * G)).

#[global] Instance srvM_ret {G} : MRet (srvM G) := fun A a st => Ret (a, st).
#[global] Instance srvM_bind {G} : MBind (srvM G) := fun A B f m st =>
  match m st with Ret (a, st') => f a st' | Panic => Panic | Diverge => Diverge end.

Section Server.
Context {G : Type} `{!Engine G}.
(** [timeNow] is [time.Now]; [unicode_lower] is [strings.ToLower] on text that is not
    all ASCII; [ctx_text] is the text of a context error. *)
Context (timeNow : G -> Z * G) (unicode_lower : bytes -> bytes) (ctx_text : Z -> bytes).
Variable cfg : Config G.

Definition ToLower (s : bytes) : bytes :=
  if forallb (fun c => code c <? 128) s then lower_byte <$> s else unicode_lower s.

Definition Error_ (e : error) : bytes :=
  match e with
  | ErrOOM => B "cache: write rejected, used memory exceeds maxmemory (noeviction)"
  | ErrCtx n => ctx_text n
  end.

(** *** Primitives *)
Definition lift {A} (o : outcome A) : srvM G A := fun st => a ← o; Ret (a, st).

(** A call of an engine method. *)
Definition engine {A} (f : G -> outcome (G * A)) : srvM G A := fun '(c, g) =>
  r ← f g; let '(g', a) := r in Ret (a, (c, g')).

(** A call of an encoder method, whose error is the sticky one. *)
Definition wr (f : Writer -> outcome Writer) : srvM G (option herr) := fun '(c, g) =>
  w ← f (cw c); Ret (WriteErr <$> werr w, (set_w c w, g)).

Definition get_conn : srvM G conn := fun '(c, g) => Ret (c, (c, g)).
Definition get_engine : srvM G G := fun '(c, g) => Ret (g, (c, g)).
Definition put_engine (g : G) : srvM G unit := fun '(c, _) => Ret ((), (c, g)).

Definition arg (args : list bytes) (i : Z) : srvM G bytes := lift (aget args i).

(** [args[i:]] *)
Definition args_from (args : list bytes) (i : nat) : srvM G (list bytes) :=
  lift (if (length args <? i)%nat then Panic else Ret (drop i args)).

Definition engineCtx : option Z := None.

(** *** Replies ([reply.go]) *)
Definition replyUnknownCommand (raw : bytes) : srvM G (option herr) :=
  wr (fun w => WriteError w (B "ERR unknown command '" ++ sanitizeText raw ++ B "', with args beginning with: ")).

Definition replyWrongArity (name : bytes) : srvM G (option herr) :=
  wr (fun w => WriteError w (B "ERR wrong number of arguments for '" ++ ToLower name ++ B "'")).

Definition replyEngineErr (e : error) : srvM G (option herr) :=
  wr (fun w => WriteError w (B "ERR " ++ sanitizeText (Error_ e))).

Definition writeOOM : srvM G (option herr) :=
  wr (fun w => WriteError w (B "OOM command not allowed when used memory > 'maxmemory'")).

(** *** [commands.go] *)
Definition cmdPing (args : list bytes) : srvM G (option herr) :=
  if (length args =? 2)%nat then a ← arg args 1; wr (fun w => WriteBulk w a)
  else wr (fun w => WriteSimpleString w (B "PONG")).

Definition cmdQuit (_ : list bytes) : srvM G (option herr) :=
  _ ← wr (fun w => WriteSimpleString w (B "OK"));
  mret (Some ErrClientQuit).

Definition cmdGet (args : list bytes) : srvM G (option herr) :=
  k ← arg args 1;
  r ← engine (fun g => eng_Get g engineCtx k);
  let '(v, ok, err) := r in
  match err with
  | Some e => replyEngineErr e
  | None => if negb ok then wr WriteNull else wr (fun w => WriteBulk w (default [] v))
  end.

Definition errSyntax : bytes := B "ERR syntax error".
Definition errNotInteger : bytes := B "ERR value is not an integer or out of range".
Definition errInvalidExpire : bytes := B "ERR invalid expire time in 'set' command".

Definition maxExpireSeconds : Z := Z.quot maxInt second.
Definition maxExpireMillis : Z := Z.quot maxInt millisecond.

Definition parseExpireInt (b : bytes) : option Z :=
  let '(neg, s) :=
    match b with
    | c :: s' => if bool_decide (c = x2d) then (true, s') else (false, b)
    | [] => (false, [])
    end in
  match s with
  | [] => None
  | c :: s' =>
      if (code c <? 48) || (57 <? code c) then None
      else if negb (bool_decide (s' = [])) && (code c =? 48) then None
      else
        n ← ParseInt s;
        Some (if neg : bool then i64 (- n) else n)
  end.

(** [cfg.Now()] *)
Definition now : srvM G Z := fun '(c, g) =>
  let '(t, g') := (default timeNow (Now cfg)) g in Ret (t, (c, g')).

(** [time.Unix(n, 0)] and [time.UnixMilli(n)] in nanoseconds since the zero time. *)
Definition unixToInternal : Z := 62135596800.
Definition Unix (n : Z) : Z := (n + unixToInternal) * second.
Definition UnixMilli (n : Z) : Z := unixToInternal * second + n * millisecond.

(** The guard of one unit. *)
Definition beyond (n bound : Z) : bool := (bound <? n) || (n <? - bound).

(** The duration of an option, or [None] beyond the magnitude bounds. *)
Definition set_ttl (unit : bytes) (n : Z) : srvM G (option Z) :=
  if bool_decide (unit = B "EX") then
    if beyond n maxExpireSeconds then mret None else mret (Some (i64 (n * second)))
  else if bool_decide (unit = B "PX") then
    if beyond n maxExpireMillis then mret None else mret (Some (i64 (n * millisecond)))
  else if bool_decide (unit = B "EXAT") then
    if beyond n maxExpireSeconds then mret None else t ← now; mret (Some (sub_time (Unix n) t))
  else
    if beyond n maxExpireMillis then mret None else t ← now; mret (Some (sub_time (UnixMilli n) t)).

(** The result is the duration or the error text. *)
Definition parseSetExpiry (opts : list bytes) : srvM G (Z + bytes) :=
  match opts with
  | [] => mret (inl 0)
  | [o0; o1] =>
      let unit := asciiUpper o0 in
      if negb (bool_decide (unit ∈ [B "EX"; B "PX"; B "EXAT"; B "PXAT"])) then mret (inr errSyntax)
      else
        match parseExpireInt o1 with
        | None => mret (inr errNotInteger)
        | Some n =>
            t ← set_ttl unit n;
            mret (match t with
                  | None => inr errInvalidExpire
                  | Some ttl => if ttl <=? 0 then inr errInvalidExpire else inl ttl
                  end)
        end
  | _ => mret (inr errSyntax)
  end.

Definition cmdSet (args : list bytes) : srvM G (option herr) :=
  opts ← args_from args 3;
  t ← parseSetExpiry opts;
  match t with
  | inr msg => wr (fun w => WriteError w msg)
  | inl ttl =>
      k ← arg args 1;
      v ← arg args 2;
      err ← engine (fun g => eng_Set g engineCtx k (Some v) ttl);
      match err with
      | Some ErrOOM => writeOOM
      | Some e => replyEngineErr e
      | None => wr (fun w => WriteSimpleString w (B "OK"))
      end
  end.

(** The two counting loops. *)
Fixpoint del_loop (keys : list bytes) (removed : Z) : srvM G (option herr) :=
  match keys with
  | [] => wr (fun w => WriteInt w removed)
  | key :: keys =>
      r ← engine (fun g => eng_Del g engineCtx key);
      let '(existed, err) := r in
      match err with
      | Some e => replyEngineErr e
      | None => del_loop keys (if existed : bool then i64 (removed + 1) else removed)
      end
  end.

Definition cmdDel (args : list bytes) : srvM G (option herr) :=
  keys ← args_from args 1; del_loop keys 0.

Fixpoint exists_loop (keys : list bytes) (present : Z) : srvM G (option herr) :=
  match keys with
  | [] => wr (fun w => WriteInt w present)
  | key :: keys =>
      r ← engine (fun g => eng_Get g engineCtx key);
      let '(_, ok, err) := r in
      match err with
      | Some e => replyEngineErr e
      | None => exists_loop keys (if ok : bool then i64 (present + 1) else present)
      end
  end.

Definition cmdExists (args : list bytes) : srvM G (option herr) :=
  keys ← args_from args 1; exists_loop keys 0.

Inductive ttlUnit : Type := ttlSeconds | ttlMilliseconds.

(** [Duration.Milliseconds] *)
Definition Milliseconds (d : Z) : Z := Z.quot d millisecond.

Definition replyTTL (key : bytes) (unit : ttlUnit) : srvM G (option herr) :=
  r ← engine (fun g => eng_TTL g engineCtx key);
  let '(remaining, ok, err) := r in
  match err with
  | Some e => replyEngineErr e
  | None =>
      if negb ok then wr (fun w => WriteInt w (-2))
      else if remaining <? 0 then wr (fun w => WriteInt w (-1))
      else match unit with
           | ttlSeconds => wr (fun w => WriteInt w (Z.quot (i64 (Milliseconds remaining + 500)) 1000))
           | ttlMilliseconds => wr (fun w => WriteInt w (Milliseconds remaining))
           end
  end.

Definition cmdTTL (args : list bytes) : srvM G (option herr) := a ← arg args 1; replyTTL a ttlSeconds.
Definition cmdPTTL (args : list bytes) : srvM G (option herr) := a ← arg args 1; replyTTL a ttlMilliseconds.

(** *** [handshake.go] *)

(** The options after the protocol version; the result is an error text, if any. *)
Fixpoint hello_opts (rest : list bytes) : option bytes :=
  match rest with
  | [] => None
  | o :: rest =>
      let u := asciiUpper o in
      if bool_decide (u = B "AUTH") then Some (B "ERR Client sent AUTH, but no password is set")
      else if bool_decide (u = B "SETNAME") then
        match rest with
        | [] => Some errSyntax
        | _ :: rest => hello_opts rest
        end
      else Some errSyntax
  end.

Definition writeHelloMap (proto : Z) : srvM G (option herr) :=
  c ← get_conn;
  _ ← wr (fun w => WriteMapHeader w 7);
  _ ← wr (fun w => WriteBulkString w (B "server"));
  _ ← wr (fun w => WriteBulkString w (B "cachemoney"));
  _ ← wr (fun w => WriteBulkString w (B "version"));
  _ ← wr (fun w => WriteBulkString w (Version cfg));
  _ ← wr (fun w => WriteBulkString w (B "proto"));
  _ ← wr (fun w => WriteInt w proto);
  _ ← wr (fun w => WriteBulkString w (B "id"));
  _ ← wr (fun w => WriteInt w (i64 (cid c)));
  _ ← wr (fun w => WriteBulkString w (B "mode"));
  _ ← wr (fun w => WriteBulkString w (B "standalone"));
  _ ← wr (fun w => WriteBulkString w (B "role"));
  _ ← wr (fun w => WriteBulkString w (B "master"));
  _ ← wr (fun w => WriteBulkString w (B "modules"));
  wr (fun w => WriteArrayHeader w 0).

(** [c.w.SetProto(proto); c.proto = proto] *)
Definition flip_proto (p : Z) : srvM G unit := fun '(c, g) => Ret ((), (set_proto c p, g)).

Definition cmdHello (args : list bytes) : srvM G (option herr) :=
  c ← get_conn;
  rest ← args_from args 1;
  let finish (flip : option Z) (rest : list bytes) : srvM G (option herr) :=
    match hello_opts rest with
    | Some msg => wr (fun w => WriteError w msg)
    | None =>
        match flip with
        | Some p => _ ← flip_proto p; writeHelloMap p
        | None => writeHelloMap (cproto c)
        end
    end in
  match rest with
  | [] => finish None []
  | v :: rest' =>
      match ParseInt v with
      | Some n => if (n <? 2) || (3 <? n) then wr (fun w => WriteError w (B "NOPROTO unsupported protocol version"))
                  else finish (Some n) rest'
      | None => wr (fun w => WriteError w (B "NOPROTO unsupported protocol version"))
      end
  end.

(** [count] is [len(commandTable)]. *)
Definition cmdCommand (count : Z) (args : list bytes) : srvM G (option herr) :=
  if (length args =? 1)%nat then wr (fun w => WriteArrayHeader w 0)
  else
    a ← arg args 1;
    let u := asciiUpper a in
    if bool_decide (u = B "DOCS") then wr (fun w => WriteArrayHeader w 0)
    else if bool_decide (u = B "COUNT") then wr (fun w => WriteInt w count)
    else wr (fun w => WriteError w (B "ERR Unknown COMMAND subcommand or wrong number of arguments")).

Definition writeConfigPair (key value : bytes) : srvM G (option herr) :=
  _ ← wr (fun w => WriteArrayHeader w 2);
  _ ← wr (fun w => WriteBulkString w key);
  wr (fun w => WriteBulkString w value).

Definition configGet (param : bytes) : srvM G (option herr) :=
  let u := asciiUpper param in
  g ← get_engine;
  if bool_decide (u = B "MAXMEMORY") then
    writeConfigPair (B "maxmemory") (format_int (match tunable with Some t => t_MaxMemory t g | None => 0 end))
  else if bool_decide (u = B "MAXMEMORY-POLICY") then
    writeConfigPair (B "maxmemory-policy")
      (policy_String (match tunable with Some t => t_EvictionPolicy t g | None => PolicyAllKeysLFU end))
  else wr (fun w => WriteArrayHeader w 0).

Definition invalid_argument (val : bytes) (name : string) : srvM G (option herr) :=
  wr (fun w => WriteError w (B "ERR Invalid argument '" ++ sanitizeText val ++ B "' for CONFIG SET '" ++ B name ++ B "'")).

Definition configSet (param val : bytes) : srvM G (option herr) :=
  let u := asciiUpper param in
  if bool_decide (u = B "MAXMEMORY") then
    match tunable with
    | None => wr (fun w => WriteError w (B "ERR CONFIG SET maxmemory is not supported by this engine"))
    | Some t =>
        match ParseInt val with
        | Some n =>
            if n <? 0 then invalid_argument val "maxmemory"
            else
              _ ← engine (fun g => g' ← t_SetMaxMemory t g n; Ret (g', ()));
              wr (fun w => WriteSimpleString w (B "OK"))
        | None => invalid_argument val "maxmemory"
        end
    end
  else if bool_decide (u = B "MAXMEMORY-POLICY") then
    match tunable with
    | None => wr (fun w => WriteError w (B "ERR CONFIG SET maxmemory-policy is not supported by this engine"))
    | Some t =>
        let '(p, ok) := ParsePolicy (ToLower val) in
        if negb ok then invalid_argument val "maxmemory-policy"
        else
          _ ← engine (fun g => Ret (t_SetEvictionPolicy t g p, ()));
          wr (fun w => WriteSimpleString w (B "OK"))
    end
  else wr (fun w => WriteSimpleString w (B "OK")).

Definition config_usage : srvM G (option herr) :=
  wr (fun w => WriteError w (B "ERR Unknown CONFIG subcommand or wrong number of arguments")).

Definition cmdConfig (args : list bytes) : srvM G (option herr) :=
  a ← arg args 1;
  let u := asciiUpper a in
  if bool_decide (u = B "GET") then
    if negb (length args =? 3)%nat then config_usage else p ← arg args 2; configGet p
  else if bool_decide (u = B "SET") then
    if negb (length args =? 4)%nat then config_usage
    else p ← arg args 2; v ← arg args 3; configSet p v
  else config_usage.

Definition cmdSelect (args : list bytes) : srvM G (option herr) :=
  a ← arg args 1;
  match ParseInt a with
  | None => wr (fun w => WriteError w errNotInteger)
  | Some n =>
      if negb (n =? 0) then wr (fun w => WriteError w (B "ERR DB index is out of range"))
      else wr (fun w => WriteSimpleString w (B "OK"))
  end.

(** *** [dispatch.go] *)
Record command : Type := MkCommand {
  cmd_name : bytes;
  minArgs : Z;
  maxArgs : Z;
  handler : list bytes -> srvM G (option herr);
}.

Definition command_rows (count : Z) : list command := [
  MkCommand (B "PING") 1 2 cmdPing;
  MkCommand (B "QUIT") 1 1 cmdQuit;
  MkCommand (B "GET") 2 2 cmdGet;
  MkCommand (B "SET") 3 5 cmdSet;
  MkCommand (B "DEL") 2 (-1) cmdDel;
  MkCommand (B "EXISTS") 2 (-1) cmdExists;
  MkCommand (B "TTL") 2 2 cmdTTL;
  MkCommand (B "PTTL") 2 2 cmdPTTL;
  MkCommand (B "HELLO") 1 (-1) cmdHello;
  MkCommand (B "COMMAND") 1 (-1) (cmdCommand count);
  MkCommand (B "CONFIG") 2 (-1) cmdConfig;
  MkCommand (B "SELECT") 2 2 cmdSelect ].

(** The table is keyed by the names of its rows. *)
Definition commandTable : list command := command_rows (Z.of_nat (length (command_rows 0))).

Definition find_command (verb : bytes) : option command :=
  find (fun c => bool_decide (cmd_name c = verb)) commandTable.

(** Whether the connection should close after the reply. *)
Definition dispatch (args : list bytes) : srvM G bool :=
  match args with
  | [] => mret false
  | a0 :: _ =>
      match find_command (asciiUpper a0) with
      | None => _ ← replyUnknownCommand a0; mret false
      | Some cmd =>
          let n := Z.of_nat (length args) in
          if (n <? minArgs cmd) || ((0 <=? maxArgs cmd) && (maxArgs cmd <? n))
          then _ ← replyWrongArity (cmd_name cmd); mret false
          else err ← handler cmd args; mret (match err with Some _ => true | None => false end)
      end
  end.

End Server.
