(* ===== verification/ServerSpec.v ===== *)
(** * What the dispatcher promises

    Whatever the client sends, and whatever engine implements the interface, a
    command gets exactly one well-formed reply.  The engine is used through its laws
    [EngineLaws] only; [ServerCache] proves them of the cache. *)
From S2P Require Import Prelude Hash Resp RespSpec Writer WriterSpec Replies Cache Server.

(** ** The contract of an engine *)

(** [einv] is the engine's invariant; [accepts g k v] says that the engine has room
    for a write.  Operations may report errors, but they return. *)
Class EngineLaws (G : Type) `{!Engine G} := {
  einv : G -> Prop;
  accepts : G -> bytes -> bytes -> Prop;
  law_Get g k : einv g -> exists g' v ok err,
    eng_Get g None k = Ret (g', (v, ok, err)) /\ einv g' /\ in_i64 (Z.of_nat (length (default [] v)));
  law_Set g k v ttl : einv g -> accepts g k v -> exists g' err,
    eng_Set g None k (Some v) ttl = Ret (g', err) /\ einv g';
  law_Del g k : einv g -> exists g' b err, eng_Del g None k = Ret (g', (b, err)) /\ einv g';
  law_TTL g k : einv g -> exists g' d ok err, eng_TTL g None k = Ret (g', (d, ok, err)) /\ einv g' /\ in_i64 d;
  law_SetMaxMemory t g n : tunable = Some t -> einv g -> 0 <= n < 2 ^ 63 ->
    exists g', t_SetMaxMemory t g n = Ret g' /\ einv g';
  law_SetEvictionPolicy t g p : tunable = Some t -> einv g -> einv (t_SetEvictionPolicy t g p);
}.

(** ** Replies

    A reply is one frame, or an aggregate header followed by its children. *)
Definition children (f : Frame) : nat :=
  match f with
  | FArray n => Z.to_nat n
  | FMap n => Z.to_nat (2 * n)
  | _ => 0
  end.

(** The replies still owed after some frames, when [p] were owed before them. *)
Fixpoint owed (p : nat) (fs : list Frame) : option nat :=
  match fs, p with
  | [], _ => Some p
  | _ :: _, O => None
  | f :: fs, S p => owed (children f + p) fs
  end.

Definition one_reply (fs : list Frame) : Prop := owed 1 fs = Some 0%nat /\ Forall (fun f => valid f = true) fs.

Definition wire (fs : list Frame) : bytes := concat (encode_frame <$> fs).

Lemma wire_app fs gs : wire (fs ++ gs) = wire fs ++ wire gs.
Proof. unfold wire. by rewrite fmap_app, concat_app. Qed.

(** ** A program logic for handlers *)
Section triples.
Context {G : Type} (cap : nat) (e0 : ioerr).

(** [m] returns from [st], writes the frames [fs], and ends as [Φ] says. *)
Definition sends {A} (m : srvM G A) (st : conn * G) (Φ : A -> list Frame -> conn * G -> Prop) : Prop :=
  forall out, emitted cap e0 (cw st.1) out ->
  exists a st' fs, m st = Ret (a, st') /\ emitted cap e0 (cw st'.1) (out ++ wire fs) /\ Φ a fs st'.

Lemma sends_mono {A} (m : srvM G A) st (Φ Ψ : A -> list Frame -> conn * G -> Prop) :
  (forall a fs st', Φ a fs st' -> Ψ a fs st') -> sends m st Φ -> sends m st Ψ.
Proof. intros H Hm out Ho. destruct (Hm out Ho) as (a & st' & fs & ? & ? & ?). exists a, st', fs. auto. Qed.

Lemma sends_ret {A} (a : A) st (Φ : A -> list Frame -> conn * G -> Prop) : Φ a [] st -> sends (mret a) st Φ.
Proof. intros H out Ho. exists a, st, []. split_and!; [done| |done]. by rewrite app_nil_r. Qed.

Lemma sends_bind {A B} (m : srvM G A) (f : A -> srvM G B) st Φ :
  sends m st (fun a fs st' => sends (f a) st' (fun b gs st'' => Φ b (fs ++ gs) st'')) -> sends (m ≫= f) st Φ.
Proof.
  intros Hm out Ho. destruct (Hm out Ho) as (a & st' & fs & E & Ho' & Hf).
  destruct (Hf _ Ho') as (b & st'' & gs & E' & Ho'' & HΦ).
  exists b, st'', (fs ++ gs). split_and!; [|by rewrite wire_app, app_assoc|done].
  unfold mbind, srvM_bind. by rewrite E.
Qed.

Lemma sends_lift {A} (o : outcome A) a st (Φ : A -> list Frame -> conn * G -> Prop) :
  o = Ret a -> Φ a [] st -> sends (lift o) st Φ.
Proof. intros -> H. by apply sends_ret. Qed.

Lemma sends_engine {A} (f : G -> outcome (G * A)) c g g' a (Φ : A -> list Frame -> conn * G -> Prop) :
  f g = Ret (g', a) -> Φ a [] (c, g') -> sends (engine f) (c, g) Φ.
Proof.
  intros E H out Ho. exists a, (c, g'), []. split_and!; [cbn; by rewrite E| |done]. cbn in *. by rewrite app_nil_r.
Qed.

Lemma sends_conn st (Φ : conn -> list Frame -> conn * G -> Prop) : Φ st.1 [] st -> sends get_conn st Φ.
Proof. destruct st. apply (sends_ret (A:=conn)). Qed.

(** Every encoder method writes its frame. *)
Lemma sends_wr cl f c g (Φ : option herr -> list Frame -> conn * G -> Prop) :
  typed cl -> frame_of (wproto (cw c)) cl = Some f ->
  (forall w', wproto w' = wproto (cw c) -> Φ (WriteErr <$> werr w') [f] (set_w c w', g)) ->
  sends (wr (fun w => do_call w cl)) (c, g) Φ.
Proof.
  intros Ht Hf H out Ho.
  destruct (call_appends cap e0 cl Ht ltac:(by intros p ->) (cw c) out Ho) as (w' & E & Ho' & Hp & _).
  eexists _, (set_w c w', g), [f]. split_and!; [cbn; by rewrite E| |by apply H].
  rewrite Hf in Ho'. unfold wire. cbn in *. by rewrite app_nil_r.
Qed.
End triples.

(** ** Text in replies *)

(** Client text is echoed on one line. *)
Lemma sanitize_no_LF b : LF ∉ sanitizeText b.
Proof.
  unfold sanitizeText. intros (ch & E & _)%list_elem_of_fmap.
  destruct (_ || _) eqn:Ec; [done|]. subst ch. done.
Qed.

Lemma lower_no_LF (b : bytes) : LF ∉ b -> LF ∉ lower_byte <$> b.
Proof.
  intros Hb (c & E & Hc)%list_elem_of_fmap. unfold lower_byte in E.
  destruct (_ && _) eqn:Ec; [|by subst].
  apply (f_equal code) in E. rewrite code_byte_of in E by lia. change (code LF) with 10 in E. lia.
Qed.

Ltac no_LF :=
  lazymatch goal with
  | |- LF ∉ _ ++ _ => apply not_elem_of_app; split; no_LF
  | |- LF ∉ sanitizeText _ => apply sanitize_no_LF
  | |- LF ∉ _ => apply (bool_decide_unpack _); vm_compute; exact I
  end.

Lemma digits_len f n : (length (itoa_fuel f n) <= f)%nat.
Proof.
  revert n. induction f as [|f IH]; intros n; [done|]. rewrite itoa_step.
  destruct (n <? 10); [cbn; lia|]. rewrite length_app. specialize (IH (n / 10)). cbn. lia.
Qed.

Lemma format_int_len n : (length (format_int n) <= 21)%nat.
Proof. unfold format_int, itoa. destruct (n <? 0); cbn [length]; pose proof (digits_len 20 (- n)); pose proof (digits_len 20 n); lia. Qed.

Lemma policy_String_len p : (length (policy_String p) <= 14)%nat.
Proof. unfold policy_String, policyNames. cbn [find fst]. repeat go_case; cbn; lia. Qed.

(** ** Every handler replies once *)
Section handlers.
Context {G : Type} `{!Engine G} `{!EngineLaws G} (cap : nat) (e0 : ioerr).
Context (timeNow : G -> Z * G) (unicode_lower : bytes -> bytes) (ctx_text : Z -> bytes) (cfg : Config G).
Hypothesis now_inv : forall g, einv g -> einv (snd (default timeNow (Now cfg) g)).
Hypothesis now_accepts : forall g k v, accepts g k v -> accepts (snd (default timeNow (Now cfg) g)) k v.
Hypothesis version_len : in_i64 (Z.of_nat (length (Version cfg))).
Local Abbreviation sends := (sends cap e0).

(** The connection and its encoder agree on the dialect. *)
Definition wf_conn (c : conn) : Prop := wproto (cw c) = cproto c /\ 2 <= cproto c <= 3.

(** One reply was written, nothing else about the connection changed, and the error
    returned is the encoder's. *)
Definition replied (c : conn) (err : option herr) (fs : list Frame) (st : conn * G) : Prop :=
  one_reply fs /\ wf_conn st.1 /\ cid st.1 = cid c /\ cproto st.1 = cproto c /\ einv st.2 /\
  err = WriteErr <$> werr (cw st.1).

Lemma reply_frame cl f c g : wf_conn c -> einv g -> typed cl ->
  frame_of (wproto (cw c)) cl = Some f -> valid f = true -> children f = 0%nat ->
  sends (wr (fun w => do_call w cl)) (c, g) (replied c).
Proof.
  intros [Hc Hp] Hg Ht Hf Hv Hn. eapply sends_wr; [done..|]. intros w' Hw.
  split; [split; [cbn; by rewrite Hn|by constructor]|].
  split; [split; [cbn; by rewrite Hw|done]|]. done.
Qed.

Lemma reply_error msg c g : wf_conn c -> einv g -> LF ∉ msg ->
  sends (wr (fun w => WriteError w msg)) (c, g) (replied c).
Proof. intros ? ? H. by apply (reply_frame (CError msg) (FError msg)); try apply bool_decide_eq_true. Qed.

Lemma reply_simple s c g : wf_conn c -> einv g -> LF ∉ s ->
  sends (wr (fun w => WriteSimpleString w s)) (c, g) (replied c).
Proof. intros ? ? H. by apply (reply_frame (CSimpleString s) (FSimple s)); try apply bool_decide_eq_true. Qed.

Lemma reply_int n c g : wf_conn c -> einv g -> in_i64 n ->
  sends (wr (fun w => WriteInt w n)) (c, g) (replied c).
Proof. intros. by eapply (reply_frame (CInt n)). Qed.

Lemma reply_bulk b c g : wf_conn c -> einv g -> in_i64 (Z.of_nat (length b)) ->
  sends (wr (fun w => WriteBulk w b)) (c, g) (replied c).
Proof. intros. by eapply (reply_frame (CBulk b)). Qed.

Lemma reply_null c g : wf_conn c -> einv g -> sends (wr WriteNull) (c, g) (replied c).
Proof. intros. eapply (reply_frame CNull); [done..| |]; by destruct (3 <=? wproto (cw c)). Qed.

Lemma reply_empty c g : wf_conn c -> einv g -> sends (wr (fun w => WriteArrayHeader w 0)) (c, g) (replied c).
Proof. intros. by eapply (reply_frame (CArrayHeader 0)). Qed.

Lemma sends_arg args i a c g (Φ : bytes -> list Frame -> conn * G -> Prop) :
  args !! Z.to_nat i = Some a -> 0 <= i -> Φ a [] (c, g) -> sends (arg args i) (c, g) Φ.
Proof. intros E Hi H. eapply sends_lift; [|done]. unfold aget. go_case; [lia|]. by rewrite E. Qed.

Lemma sends_from args i c g (Φ : list bytes -> list Frame -> conn * G -> Prop) :
  (i <= length args)%nat -> Φ (drop i args) [] (c, g) -> sends (args_from args i) (c, g) Φ.
Proof. intros Hi H. eapply sends_lift; [|done]. by destruct (Nat.ltb_spec (length args) i); [lia|]. Qed.

(** A bind whose first part writes nothing. *)
Ltac go_bind := apply sends_bind.

(** An engine call, by the law that says it returns. *)
Lemma engine_get k c g (Φ : option bytes * bool * option error -> list Frame -> conn * G -> Prop) : einv g ->
  (forall v ok err g', einv g' -> in_i64 (Z.of_nat (length (default [] v))) -> Φ (v, ok, err) [] (c, g')) ->
  sends (engine (fun g => eng_Get g engineCtx k)) (c, g) Φ.
Proof. intros Hg H. destruct (law_Get g k Hg) as (g' & v & ok & err & E & Hg' & Hl). eapply sends_engine; eauto. Qed.

Lemma engine_del k c g (Φ : bool * option error -> list Frame -> conn * G -> Prop) : einv g ->
  (forall b err g', einv g' -> Φ (b, err) [] (c, g')) ->
  sends (engine (fun g => eng_Del g engineCtx k)) (c, g) Φ.
Proof. intros Hg H. destruct (law_Del g k Hg) as (g' & b & err & E & Hg'). eapply sends_engine; eauto. Qed.

Lemma engine_ttl k c g (Φ : Z * bool * option error -> list Frame -> conn * G -> Prop) : einv g ->
  (forall d ok err g', einv g' -> in_i64 d -> Φ (d, ok, err) [] (c, g')) ->
  sends (engine (fun g => eng_TTL g engineCtx k)) (c, g) Φ.
Proof. intros Hg H. destruct (law_TTL g k Hg) as (g' & d & ok & err & E & Hg' & Hd). eapply sends_engine; eauto. Qed.

Lemma engine_set k v ttl c g (Φ : option error -> list Frame -> conn * G -> Prop) : einv g -> accepts g k v ->
  (forall err g', einv g' -> Φ err [] (c, g')) ->
  sends (engine (fun g => eng_Set g engineCtx k (Some v) ttl)) (c, g) Φ.
Proof. intros Hg Ha H. destruct (law_Set g k v ttl Hg Ha) as (g' & err & E & Hg'). eapply sends_engine; eauto. Qed.

Lemma reply_engine_err err c g : wf_conn c -> einv g -> sends (replyEngineErr ctx_text err) (c, g) (replied c).
Proof. intros. apply reply_error; [done..|]. no_LF. Qed.

Lemma ping_ok args c g : wf_conn c -> einv g -> Forall (fun a => in_i64 (Z.of_nat (length a))) args ->
  sends (cmdPing args) (c, g) (replied c).
Proof.
  intros Hc Hg Ha. unfold cmdPing. destruct (Nat.eqb_spec (length args) 2) as [El|].
  - destruct (lookup_lt_is_Some_2 args 1) as [a E]; [lia|]. go_bind. eapply sends_arg; [done|lia|].
    apply reply_bulk; [done..|]. by eapply Forall_lookup_1 in Ha.
  - apply reply_simple; [done..|]. no_LF.
Qed.

Lemma get_ok k args c g : wf_conn c -> einv g -> args !! 1%nat = Some k ->
  sends (cmdGet ctx_text args) (c, g) (replied c).
Proof.
  intros Hc Hg E. unfold cmdGet. go_bind. eapply sends_arg; [done|lia|]. go_bind.
  apply engine_get; [done|]. intros v ok [err|] g' Hg' Hl; [by apply reply_engine_err|].
  destruct ok; [by apply reply_bulk|by apply reply_null].
Qed.

Lemma del_loop_ok keys : forall n c g, wf_conn c -> einv g -> in_i64 n ->
  sends (del_loop ctx_text keys n) (c, g) (replied c).
Proof.
  induction keys as [|k keys IH]; intros n c g Hc Hg Hn; cbn [del_loop]; [by apply reply_int|].
  go_bind. apply engine_del; [done|]. intros b [err|] g' Hg'; [by apply reply_engine_err|].
  apply IH; [done..|]. destruct b; [apply i64_range|done].
Qed.

Lemma exists_loop_ok keys : forall n c g, wf_conn c -> einv g -> in_i64 n ->
  sends (exists_loop ctx_text keys n) (c, g) (replied c).
Proof.
  induction keys as [|k keys IH]; intros n c g Hc Hg Hn; cbn [exists_loop]; [by apply reply_int|].
  go_bind. apply engine_get; [done|]. intros v ok [err|] g' Hg' _; [by apply reply_engine_err|].
  apply IH; [done..|]. destruct ok; [apply i64_range|done].
Qed.

Lemma quot_i64 a b : in_i64 a -> 0 < b -> in_i64 (Z.quot a b).
Proof.
  unfold in_i64. intros Ha Hb. pose proof (Z.quot_abs a b ltac:(lia)) as Hq.
  rewrite (Z.abs_eq b) in Hq by lia. rewrite Z.quot_div_nonneg in Hq by lia.
  assert (Z.abs a / b <= Z.abs a) by (apply Z.div_le_upper_bound; nia).
  destruct (Z.eq_dec a (- 2 ^ 63)) as [->|]; [|lia].
  split; [lia|]. pose proof (Z.quot_opp_l (2 ^ 63) b ltac:(lia)) as Ho. rewrite Ho.
  pose proof (Z.quot_pos (2 ^ 63) b ltac:(lia) ltac:(lia)). lia.
Qed.

Lemma ttl_ok k u c g : wf_conn c -> einv g -> sends (replyTTL ctx_text k u) (c, g) (replied c).
Proof.
  intros Hc Hg. unfold replyTTL. go_bind. apply engine_ttl; [done|].
  intros d ok [err|] g' Hg' Hd; [by apply reply_engine_err|].
  destruct ok; cbn [negb]; [|by apply reply_int].
  go_case; [by apply reply_int|]. unfold Milliseconds.
  destruct u; (apply reply_int; [done..|]); apply quot_i64; try done. apply i64_range.
Qed.

(** Reading the clock. *)
Lemma sends_now c g (Φ : Z -> list Frame -> conn * G -> Prop) : einv g ->
  (forall t g', einv g' -> (forall k v, accepts g k v -> accepts g' k v) -> Φ t [] (c, g')) ->
  sends (now timeNow cfg) (c, g) Φ.
Proof.
  intros Hg H out Ho. pose proof (now_inv g Hg) as Hg'. pose proof (now_accepts g) as Ha.
  unfold now. destruct (default timeNow (Now cfg) g) as [t g'].
  exists t, (c, g'), []. split_and!; [done| |by apply H]. cbn in *. by rewrite app_nil_r.
Qed.

(** Parsing the options of SET writes nothing. *)
Definition quiet {A} (c : conn) (g : G) (P : A -> Prop) (a : A) (fs : list Frame) (st : conn * G) : Prop :=
  fs = [] /\ st.1 = c /\ einv st.2 /\ (forall k v, accepts g k v -> accepts st.2 k v) /\ P a.

Lemma set_ttl_quiet unit n c g : einv g -> sends (set_ttl timeNow cfg unit n) (c, g) (quiet c g (fun _ => True)).
Proof.
  intros Hg. unfold set_ttl, quiet.
  repeat case_match; try (apply sends_ret; by split_and!); go_bind; (apply sends_now; [done|]);
    intros t g' Hg' Ha; apply sends_ret; by split_and!.
Qed.

Lemma parse_quiet opts c g : einv g -> sends (parseSetExpiry timeNow cfg opts) (c, g)
  (quiet c g (fun r => match r with inr msg => LF ∉ msg | inl _ => True end)).
Proof.
  intros Hg. assert (forall msg, LF ∉ msg -> sends (mret (inr msg)) (c, g)
    (quiet c g (fun r : Z + bytes => match r with inr msg => LF ∉ msg | inl _ => True end))) as He.
  { intros msg Hm. apply sends_ret. unfold quiet. by split_and!. }
  destruct opts as [|o0 [|o1 [|o2 opts]]]; cbn [parseSetExpiry]; [|apply He; no_LF| |apply He; no_LF].
  { apply sends_ret. unfold quiet. by split_and!. }
  destruct (negb _); [apply He; no_LF|]. destruct (parseExpireInt o1) as [n|]; [|apply He; no_LF].
  go_bind. eapply sends_mono; [|by apply set_ttl_quiet].
  intros t fs [c' g'] (-> & Ec & Hg' & Ha & _). cbn in Ec, Hg', Ha. subst c'.
  apply sends_ret. split_and!; try done. destruct t as [ttl|]; [destruct (ttl <=? 0)|]; try done; no_LF.
Qed.

Lemma set_sends k v args c g : wf_conn c -> einv g -> args !! 1%nat = Some k -> args !! 2%nat = Some v -> accepts g k v ->
  sends (cmdSet timeNow ctx_text cfg args) (c, g) (replied c).
Proof.
  intros Hc Hg Ek Ev Hacc. unfold cmdSet. pose proof (lookup_lt_Some _ _ _ Ev).
  go_bind. apply sends_from; [lia|]. go_bind. eapply sends_mono; [|by apply parse_quiet].
  intros [ttl|msg] fs [c' g'] (-> & Ec & Hg' & Ha & Hm); cbn in Ec, Hg', Ha; subst c'; cbn [app].
  2:{ by apply reply_error. }
  go_bind. eapply sends_arg; [done|lia|]. go_bind. eapply sends_arg; [done|lia|]. go_bind.
  apply engine_set; [done|by apply Ha|]. intros [[n|]|] g2 Hg2.
  - by apply reply_engine_err.
  - apply reply_error; [done..|]. no_LF.
  - apply reply_simple; [done..|]. no_LF.
Qed.

Lemma select_ok a args c g : wf_conn c -> einv g -> args !! 1%nat = Some a -> sends (cmdSelect args) (c, g) (replied c).
Proof.
  intros Hc Hg E. unfold cmdSelect. go_bind. eapply sends_arg; [done|lia|].
  destruct (ParseInt a) as [n|]; [|apply reply_error; [done..|no_LF]].
  destruct (n =? 0); [apply reply_simple|apply reply_error]; try done; no_LF.
Qed.

Lemma cmd_command_ok n args c g : wf_conn c -> einv g -> (1 <= length args)%nat -> in_i64 n ->
  sends (cmdCommand n args) (c, g) (replied c).
Proof.
  intros Hc Hg Hl Hn. unfold cmdCommand. destruct (Nat.eqb_spec (length args) 1); [by apply reply_empty|].
  destruct (lookup_lt_is_Some_2 args 1) as [a E]; [lia|]. go_bind. eapply sends_arg; [done|lia|].
  destruct (bool_decide _); [by apply reply_empty|].
  destruct (bool_decide _); [by apply reply_int|apply reply_error; [done..|no_LF]].
Qed.

Lemma quit_ok args c g : wf_conn c -> einv g -> sends (cmdQuit args) (c, g)
  (fun err fs st => replied c (WriteErr <$> werr (cw st.1)) fs st /\ err = Some ErrClientQuit).
Proof.
  intros Hc Hg. unfold cmdQuit. go_bind. eapply sends_mono; [|by apply (reply_simple (B "OK")); [..|no_LF]].
  intros err fs [c' g'] H. apply sends_ret. cbn [app]. rewrite app_nil_r. split; [|done].
  by destruct H as (? & ? & ? & ? & ? & ->).
Qed.

(** *** Replies of several frames *)
Lemma sends_wr_then {A} cl f (m : srvM G A) c g Φ : typed cl -> frame_of (wproto (cw c)) cl = Some f ->
  (forall w', wproto w' = wproto (cw c) -> sends m (set_w c w', g) (fun b gs st => Φ b (f :: gs) st)) ->
  sends (wr (fun w => do_call w cl) ≫= fun _ => m) (c, g) Φ.
Proof. intros Ht Hf H. go_bind. apply (sends_wr cap e0 cl f); [done..|]. intros w' Hw. by apply H. Qed.

Lemma bulk_then {A} b (m : srvM G A) c g Φ : in_i64 (Z.of_nat (length b)) ->
  (forall w', wproto w' = wproto (cw c) -> sends m (set_w c w', g) (fun x gs st => Φ x (FBulk b :: gs) st)) ->
  sends (wr (fun w => WriteBulkString w b) ≫= fun _ => m) (c, g) Φ.
Proof. intros. by apply (sends_wr_then (CBulkString b) (FBulk b)). Qed.

Lemma int_then {A} n (m : srvM G A) c g Φ : in_i64 n ->
  (forall w', wproto w' = wproto (cw c) -> sends m (set_w c w', g) (fun x gs st => Φ x (FInt n :: gs) st)) ->
  sends (wr (fun w => WriteInt w n) ≫= fun _ => m) (c, g) Φ.
Proof. intros. by apply (sends_wr_then (CInt n) (FInt n)). Qed.

Lemma pair_ok k v c g : wf_conn c -> einv g -> in_i64 (Z.of_nat (length k)) -> in_i64 (Z.of_nat (length v)) ->
  sends (writeConfigPair k v) (c, g) (replied c).
Proof.
  intros [Hc Hp] Hg Hk Hv. unfold writeConfigPair.
  apply (sends_wr_then (CArrayHeader 2) (FArray 2)); [done..|]. intros w1 H1.
  apply bulk_then; [done|]. intros w2 H2.
  apply (sends_wr cap e0 (CBulkString v) (FBulk v)); [done..|]. intros w3 H3. cbn in *.
  split; [by split; [|repeat constructor]|]. split; [split; cbn; [congruence|done]|]. done.
Qed.

Lemma small_i64 n : (n <= 100)%nat -> in_i64 (Z.of_nat n).
Proof. unfold in_i64. lia. Qed.

Lemma configGet_ok p c g : wf_conn c -> einv g -> sends (configGet p) (c, g) (replied c).
Proof.
  intros Hc Hg. unfold configGet. go_bind. apply (sends_ret (G:=G) (A:=G) cap e0 g (c, g)).
  destruct (bool_decide _).
  { apply pair_ok; [done..| |]; apply small_i64; [cbn; lia|]. etrans; [apply format_int_len|lia]. }
  destruct (bool_decide _); [|by apply reply_empty].
  apply pair_ok; [done..| |]; apply small_i64; [cbn; lia|]. etrans; [apply policy_String_len|lia].
Qed.

Lemma invalid_ok v name c g : wf_conn c -> einv g -> LF ∉ B name -> sends (invalid_argument v name) (c, g) (replied c).
Proof.
  intros. apply reply_error; [done..|]. rewrite !not_elem_of_app. split_and!; done || no_LF.
Qed.

Lemma ParseInt_range s n : ParseInt s = Some n -> in_i64 n.
Proof.
  unfold ParseInt. destruct (match s with [] => _ | _ => _ end) as [neg ds].
  destruct (bool_decide (ds = [])); [done|]. destruct (digits_value 0 ds) as [un|] eqn:Ed; [|done]. cbn.
  assert (forall acc ds m, 0 <= acc -> digits_value acc ds = Some m -> 0 <= m) as Hd.
  { clear. intros acc ds. revert acc. induction ds as [|x ds IH]; intros acc m Ha; cbn; [by intros [= <-]|].
    destruct (_ && _) eqn:Ec; [|done]. apply IH. lia. }
  apply Hd in Ed; [|done]. unfold in_i64. destruct neg; go_case; intros [= <-]; lia.
Qed.

Lemma configSet_ok p v c g : wf_conn c -> einv g -> sends (configSet unicode_lower p v) (c, g) (replied c).
Proof.
  intros Hc Hg. unfold configSet. destruct (bool_decide _); [|destruct (bool_decide _)].
  - destruct tunable as [t|] eqn:Et; [|apply reply_error; [done..|no_LF]].
    destruct (ParseInt v) as [n|] eqn:Ep; [|apply invalid_ok; [done..|no_LF]].
    go_case; [apply invalid_ok; [done..|no_LF]|]. apply ParseInt_range in Ep. unfold in_i64 in Ep.
    destruct (law_SetMaxMemory t g n Et Hg ltac:(lia)) as (g' & E & Hg').
    go_bind. eapply sends_engine; [cbn; by rewrite E|]. apply reply_simple; [done..|no_LF].
  - destruct tunable as [t|] eqn:Et; [|apply reply_error; [done..|no_LF]].
    destruct (ParsePolicy _) as [pol []]; cbn [negb]; [|apply invalid_ok; [done..|no_LF]].
    go_bind. eapply sends_engine; [done|]. apply reply_simple; [done|by apply law_SetEvictionPolicy|no_LF].
  - apply reply_simple; [done..|no_LF].
Qed.

Lemma config_ok a args c g : wf_conn c -> einv g -> args !! 1%nat = Some a ->
  sends (cmdConfig unicode_lower args) (c, g) (replied c).
Proof.
  intros Hc Hg E. unfold cmdConfig. go_bind. eapply sends_arg; [done|lia|].
  assert (sends config_usage (c, g) (replied c)) as Hu by (apply reply_error; [done..|no_LF]).
  destruct (bool_decide _).
  - destruct (Nat.eqb_spec (length args) 3); [|done]. destruct (lookup_lt_is_Some_2 args 2) as [p Ep]; [lia|].
    go_bind. eapply sends_arg; [done|lia|]. by apply configGet_ok.
  - destruct (bool_decide _); [|done]. destruct (Nat.eqb_spec (length args) 4); [|done].
    destruct (lookup_lt_is_Some_2 args 2) as [p Ep]; [lia|]. destruct (lookup_lt_is_Some_2 args 3) as [v Ev]; [lia|].
    go_bind. eapply sends_arg; [done|lia|]. go_bind. eapply sends_arg; [done|lia|]. by apply configSet_ok.
Qed.

Lemma hello_map_ok p c g : wf_conn c -> einv g -> in_i64 p -> sends (writeHelloMap cfg p) (c, g) (replied c).
Proof.
  intros [Hc Hp] Hg Hi. unfold writeHelloMap. go_bind. apply sends_conn. cbn [fst].
  apply (sends_wr_then (CMapHeader 7) (if 3 <=? wproto (cw c) then FMap 7 else FArray 14)); [done..|]. intros w1 H1.
  do 5 (apply bulk_then; [done|]; intros ? ?). apply int_then; [done|]; intros ? ?.
  apply bulk_then; [done|]; intros ? ?. apply int_then; [apply i64_range|]; intros ? ?.
  do 5 (apply bulk_then; [done|]; intros ? ?).
  apply (sends_wr cap e0 (CArrayHeader 0) (FArray 0)); [done..|]. intros ? ?. cbn in *.
  split; [|split; [split; cbn; [congruence|done]|done]].
  destruct (3 <=? wproto (cw c)); (split; [done|repeat constructor]).
Qed.

Lemma hello_opts_no_LF rest msg : hello_opts rest = Some msg -> LF ∉ msg.
Proof.
  revert msg. induction rest as [rest IH] using (induction_ltof1 _ (@length _)). unfold ltof in IH.
  destruct rest as [|o [|o' rest]]; cbn [hello_opts]; intros msg; [done|..];
    (case_bool_decide; [intros [= <-]; no_LF|]); (case_bool_decide; [|intros [= <-]; no_LF]).
  - intros [= <-]. no_LF.
  - apply IH. cbn. lia.
Qed.

(** HELLO may leave the connection in the dialect it asked for. *)
Lemma hello_ok args c g : wf_conn c -> einv g -> (1 <= length args)%nat ->
  sends (cmdHello cfg args) (c, g) (fun err fs st => exists p, replied (set_proto c p) err fs st /\
    (p = cproto c \/ exists v, args !! 1%nat = Some v /\ ParseInt v = Some p)).
Proof.
  intros Hc Hg Hl. unfold cmdHello. go_bind. apply sends_conn. go_bind. apply sends_from; [done|]. cbn [fst app].
  assert (forall m, sends m (c, g) (replied c) -> sends m (c, g) (fun err fs st => exists p, replied (set_proto c p) err fs st /\
    (p = cproto c \/ exists v, args !! 1%nat = Some v /\ ParseInt v = Some p))) as Hsame.
  { intros m. apply sends_mono. intros err fs st H. exists (cproto c). split; [|by left]. exact H. }
  destruct args as [|a0 [|v rest]]; [cbn in Hl; lia|..]; cbn [drop].
  { apply Hsame, hello_map_ok; [done..|]. destruct Hc. unfold in_i64. lia. }
  assert (sends (wr (fun w => WriteError w (B "NOPROTO unsupported protocol version"))) (c, g) (replied c)) as Hno
    by (apply reply_error; [done..|no_LF]).
  destruct (ParseInt v) as [n|] eqn:Ep; [|by apply Hsame].
  destruct ((n <? 2) || (3 <? n)) eqn:En; [by apply Hsame|]. rewrite orb_false_iff in En.
  destruct (hello_opts rest) as [msg|] eqn:Eo; [apply Hsame, reply_error; [done..|by eapply hello_opts_no_LF]|].
  assert (wf_conn (set_proto c n)) as Hc'.
  { split; cbn; [repeat go_case; lia|lia]. }
  go_bind. intros out Ho. eexists (), (set_proto c n, g), [].
  split_and!; [done|by rewrite app_nil_r|]. eapply sends_mono; [|apply hello_map_ok; [done..|unfold in_i64; lia]].
  intros err fs st H. exists n. split; [done|]. right. by exists v.
Qed.

(** *** Dispatch *)

(** The engine has room for the write, if the command is one. *)
Definition admits (g : G) (args : list bytes) : Prop :=
  forall a0 k v rest, args = a0 :: k :: v :: rest -> asciiUpper a0 = B "SET" -> accepts g k v.

Definition quits (args : list bytes) : bool :=
  match args with [a0] => bool_decide (asciiUpper a0 = B "QUIT") | _ => false end.

(** What dispatching [args] did to the connection [c]. *)
Definition dispatched (args : list bytes) (c : conn) (stop : bool) (fs : list Frame) (st : conn * G) : Prop :=
  one_reply fs /\ wf_conn st.1 /\ cid st.1 = cid c /\ einv st.2 /\
  (cproto st.1 = cproto c \/ (asciiUpper <$> head args) = Some (B "HELLO")) /\
  (quits args = true -> stop = true) /\
  (stop = true -> quits args = true \/ is_Some (werr (cw st.1))).

Definition stops (err : option herr) : bool := match err with Some _ => true | None => false end.

Lemma replied_dispatched args c err fs st : quits args = false -> replied c err fs st -> dispatched args c (stops err) fs st.
Proof.
  intros Hq (H1 & H2 & H3 & H4 & H5 & ->). split_and!; try done; [by left|by rewrite Hq|].
  intros Hs. right. by destruct (werr (cw st.1)).
Qed.

Definition arity_ok (cmd : command (G:=G)) (args : list bytes) : bool :=
  negb ((Z.of_nat (length args) <? minArgs cmd) || ((0 <=? maxArgs cmd) && (maxArgs cmd <? Z.of_nat (length args)))).

Lemma reply_unknown raw c g : wf_conn c -> einv g -> sends (replyUnknownCommand raw) (c, g) (replied c).
Proof. intros. unfold replyUnknownCommand. apply reply_error; [done..|]. rewrite !not_elem_of_app. split_and!; no_LF. Qed.

Lemma reply_arity name c g : wf_conn c -> einv g -> LF ∉ ToLower unicode_lower name ->
  sends (replyWrongArity unicode_lower name) (c, g) (replied c).
Proof.
  intros. unfold replyWrongArity. apply reply_error; [done..|]. rewrite !not_elem_of_app. split_and!; done || no_LF.
Qed.

Lemma row_ok cmd args c g : wf_conn c -> einv g -> LF ∉ ToLower unicode_lower (cmd_name cmd) ->
  (quits args = true -> arity_ok cmd args = true) ->
  (arity_ok cmd args = true -> sends (handler cmd args) (c, g) (fun err => dispatched args c (stops err))) ->
  sends (if (Z.of_nat (length args) <? minArgs cmd) || ((0 <=? maxArgs cmd) && (maxArgs cmd <? Z.of_nat (length args)))
         then _ ← replyWrongArity unicode_lower (cmd_name cmd); mret false
         else err ← handler cmd args; mret (match err with Some _ => true | None => false end))
    (c, g) (dispatched args c).
Proof.
  intros Hc Hg Hn Hq Hh. unfold arity_ok in *. destruct (_ || _) eqn:Ea; cbn [negb] in *; go_bind.
  - eapply sends_mono; [|by apply reply_arity].
    intros err fs [c' g'] (H1 & H2 & H3 & H4 & H5 & _). apply sends_ret. rewrite app_nil_r.
    split_and!; try done. by left.
  - eapply sends_mono; [|by apply Hh]. intros err fs st H. apply sends_ret. by rewrite app_nil_r.
Qed.

(** What each row of the table guarantees. *)
Definition row_good (cmd : command (G:=G)) : Prop :=
  (LF ∉ ToLower unicode_lower (cmd_name cmd)) /\
  forall a0 args c g, asciiUpper a0 = cmd_name cmd -> wf_conn c -> einv g ->
    Forall (fun a => in_i64 (Z.of_nat (length a))) (a0 :: args) -> admits g (a0 :: args) ->
    (quits (a0 :: args) = true -> arity_ok cmd (a0 :: args) = true) /\
    (arity_ok cmd (a0 :: args) = true ->
     sends (handler cmd (a0 :: args)) (c, g) (fun err => dispatched (a0 :: args) c (stops err))).

Lemma arity_range name lo hi h args : arity_ok (MkCommand name lo hi h) args = true ->
  lo <= Z.of_nat (length args) /\ (0 <= hi -> Z.of_nat (length args) <= hi).
Proof. unfold arity_ok. cbn [minArgs maxArgs]. lia. Qed.

(** A row whose handler answers, for a verb that is not QUIT. *)
Lemma row_plain name lo hi h : LF ∉ ToLower unicode_lower name -> name <> B "QUIT" ->
  (forall a0 args c g, asciiUpper a0 = name -> wf_conn c -> einv g ->
     Forall (fun a => in_i64 (Z.of_nat (length a))) (a0 :: args) -> admits g (a0 :: args) ->
     lo <= Z.of_nat (length (a0 :: args)) -> (0 <= hi -> Z.of_nat (length (a0 :: args)) <= hi) ->
     sends (h (a0 :: args)) (c, g) (replied c)) ->
  row_good (MkCommand name lo hi h).
Proof.
  intros Hl Hq Hh. split; [done|]. intros a0 args c g Ea Hc Hg Ha Hadm. cbn [cmd_name] in *.
  assert (quits (a0 :: args) = false) as Hnq.
  { destruct args; [|done]. apply bool_decide_eq_false. by rewrite Ea. }
  split; [by rewrite Hnq|]. intros [Hlo Hhi]%arity_range. eapply sends_mono; [|by apply Hh].
  intros err fs st. by apply replied_dispatched.
Qed.

(** The verbs are ASCII text without line feeds. *)
Lemma lower_verb name : forallb (fun c => code c <? 128) name = true -> LF ∉ name -> LF ∉ ToLower unicode_lower name.
Proof. intros Ha Hn. unfold ToLower. rewrite Ha. by apply lower_no_LF. Qed.

Lemma quit_row : row_good (MkCommand (B "QUIT") 1 1 cmdQuit).
Proof.
  split; [apply lower_verb; [vm_compute; reflexivity|no_LF]|].
  intros a0 args c g Ea Hc Hg _ _. cbn [cmd_name handler] in *. split; [by destruct args|].
  intros [Hlo Hhi]%arity_range. destruct args as [|]; [|cbn in Hhi; lia].
  eapply sends_mono; [|by apply quit_ok]. intros err fs st [(H1 & H2 & H3 & H4 & H5 & _) ->].
  assert (quits [a0] = true) as Hq by (by apply bool_decide_eq_true). split_and!; try done; by left.
Qed.

Lemma hello_row : row_good (MkCommand (B "HELLO") 1 (-1) (cmdHello cfg)).
Proof.
  split; [apply lower_verb; [vm_compute; reflexivity|no_LF]|].
  intros a0 args c g Ea Hc Hg _ _. cbn [cmd_name handler] in *. split; [by destruct args|].
  intros _. eapply sends_mono; [|by apply hello_ok; [..|cbn; lia]].
  intros err fs st (p & (H1 & H2 & H3 & H4 & H5 & ->) & _).
  assert (quits (a0 :: args) = false) as Hq.
  { destruct args; [|done]. apply bool_decide_eq_false. by rewrite Ea. }
  split_and!; try done; [right; cbn [head fmap option_fmap option_map]; by rewrite Ea|by rewrite Hq|].
  intros Hs. right. by destruct (werr (cw st.1)).
Qed.

Lemma rows_good n : in_i64 n -> Forall row_good (command_rows timeNow unicode_lower ctx_text cfg n).
Proof.
  intros Hn. unfold command_rows.
  assert (forall (args : list bytes) i, (i < Z.to_nat (Z.of_nat (length args)))%nat -> exists a, args !! i = Some a) as Hat.
  { intros args i Hi. apply lookup_lt_is_Some_2. lia. }
  repeat apply Forall_cons_2; [..|apply Forall_nil_2];
    lazymatch goal with
    | |- row_good (MkCommand _ _ _ cmdQuit) => apply quit_row
    | |- row_good (MkCommand _ _ _ (cmdHello _)) => apply hello_row
    | _ => apply row_plain; [apply lower_verb; [vm_compute; reflexivity|no_LF]|done|];
           intros a0 args c g Ea Hc Hg Ha Hadm Hlo Hhi end.
  - by apply ping_ok.
  - destruct (Hat (a0 :: args) 1%nat) as [k Ek]; [lia|]. by eapply get_ok.
  - destruct args as [|k [|v args]]; [cbn in Hlo; lia..|]. apply (set_sends k v); try done. by eapply Hadm.
  - unfold cmdDel. go_bind. apply sends_from; [cbn; lia|]. by apply del_loop_ok.
  - unfold cmdExists. go_bind. apply sends_from; [cbn; lia|]. by apply exists_loop_ok.
  - destruct (Hat (a0 :: args) 1%nat) as [k Ek]; [lia|]. unfold cmdTTL. go_bind. eapply sends_arg; [done|lia|]. by apply ttl_ok.
  - destruct (Hat (a0 :: args) 1%nat) as [k Ek]; [lia|]. unfold cmdPTTL. go_bind. eapply sends_arg; [done|lia|]. by apply ttl_ok.
  - apply cmd_command_ok; [done..|cbn; lia|done].
  - destruct (Hat (a0 :: args) 1%nat) as [k Ek]; [lia|]. by eapply config_ok.
  - destruct (Hat (a0 :: args) 1%nat) as [k Ek]; [lia|]. by eapply select_ok.
Qed.

Lemma dispatch_ok args c g : wf_conn c -> einv g -> Forall (fun a => in_i64 (Z.of_nat (length a))) args ->
  args <> [] -> admits g args ->
  sends (dispatch timeNow unicode_lower ctx_text cfg args) (c, g) (dispatched args c).
Proof.
  intros Hc Hg Ha Hne Hadm. destruct args as [|a0 args]; [done|]. unfold dispatch.
  destruct (find_command timeNow unicode_lower ctx_text cfg (asciiUpper a0)) as [cmd|] eqn:Ef.
  - unfold find_command in Ef. apply find_some in Ef as [Hin Ev%bool_decide_eq_true].
    pose proof (rows_good (Z.of_nat (length (command_rows timeNow unicode_lower ctx_text cfg 0))) ltac:(done)) as Hrows.
    rewrite Forall_forall in Hrows. apply list_elem_of_In, Hrows in Hin as [Hl Hr].
    destruct (Hr a0 args c g (eq_sym Ev) Hc Hg Ha Hadm). by apply row_ok.
  - go_bind. eapply sends_mono; [|by apply reply_unknown].
    intros err fs [c' g'] (H1 & H2 & H3 & H4 & H5 & _). apply sends_ret. rewrite app_nil_r.
    split_and!; try done; [by left|]. destruct args; [|done]. cbn. intros Eq%bool_decide_eq_true.
    exfalso. rewrite Eq in Ef. clear -Ef. unfold find_command, commandTable in Ef. cbn in Ef. done.
Qed.
End handlers.
