(* ===== verification/ServerCache.v ===== *)
(** * The cache behind the server

    [*Cache] implements the [Engine] and [Tunable] interfaces of the server
    ([internal/cache/engine.go]) and obeys their laws, so every theorem about the
    dispatcher and the sessions holds of the program as it is linked. *)
From S2P Require Import Prelude Hash Table ShardMap ShardMapSpec Policy.
From S2P Require Import Cache CacheSpec CacheOps CacheProps.
From S2P Require Import Resp RespSpec Writer WriterSpec Replies Server ServerSpec.

Section instance.
Context {Seed : Type} `{!GoType Seed} `{!Maphash Seed}.
Context {E : Type} `{!Env E}.

#[global] Instance cache_engine : Engine (Cache Seed * E) := {|
  eng_Get g ctx k := r ← CacheGet g.1 ctx k g.2; let '(c', e', x) := r in Ret ((c', e'), x);
  eng_Set g ctx k v ttl := r ← CacheSet g.1 ctx k v ttl g.2; let '(c', e', x) := r in Ret ((c', e'), x);
  eng_Del g ctx k := r ← CacheDel g.1 ctx k g.2; let '(c', e', x) := r in Ret ((c', e'), x);
  eng_TTL g ctx k := r ← CacheTTL g.1 ctx k g.2; let '(e', x) := r in Ret ((g.1, e'), x);
  tunable := Some {|
    t_MaxMemory g := MaxMemory g.1;
    t_SetMaxMemory g n := SetMaxMemory g.1 n g.2;
    t_EvictionPolicy g := CEvictionPolicy g.1;
    t_SetEvictionPolicy g p := (SetEvictionPolicy g.1 p, g.2);
  |};
|}.

(** Stored values are Go slices: their lengths are ints. *)
Definition small_values (m : gmap bytes centry) : Prop :=
  map_Forall (fun _ x => in_i64 (Z.of_nat (length (value x)))) m.

Definition cache_ok (g : Cache Seed * E) : Prop := cinv g.1 /\ tuned g.1 /\ small_values (data g.1).

Definition cache_room (g : Cache Seed * E) (k v : bytes) : Prop :=
  roomy g.1 k /\ total (data g.1) + raw_cost k (MkEntry v 0) < 2 ^ 63.

Lemma small_sub m m' : m' ⊆ m -> small_values m -> small_values m'.
Proof. intros Hs Hm k x Hx. eapply (Hm k), lookup_weaken; done. Qed.

Lemma engine_Get_ok g k : cache_ok g -> exists g' v ok err,
  eng_Get g None k = Ret (g', (v, ok, err)) /\ cache_ok g' /\ in_i64 (Z.of_nat (length (default [] v))).
Proof.
  destruct g as [c e]. intros (I & T & V). cbn [fst snd] in *. cbn [eng_Get cache_engine fst snd].
  destruct (CacheGet_ok c k e I) as (c' & e' & r & -> & I' & Hm & _ & Hmm & Hep & _ & Hact & H). cbn [mbind outcome_bind].
  assert (cache_ok (c', e')) as Hok.
  { split; [done|]. split; cbn; [unfold tuned in *; congruence|]. unfold data. by rewrite Hm. }
  destruct (data c !! k) as [x|] eqn:Ex; [destruct (expired x e) as [[] e1]|];
    destruct H as [-> _]; (eexists _, _, _, _; split; [done|split; [done|]]); try done.
  exact (V k x Ex).
Qed.

Lemma engine_Set_ok g k v ttl : cache_ok g -> cache_room g k v -> exists g' err,
  eng_Set g None k (Some v) ttl = Ret (g', err) /\ cache_ok g'.
Proof.
  destruct g as [c e]. intros (I & T & V) [Hr Hf]. cbn [fst snd] in *. cbn [eng_Set cache_engine fst snd].
  destruct (set_expiry ttl e) as [exp e1] eqn:Ex.
  destruct (CacheSet_ok c k (Some v) ttl e exp e1 I Hr Ex Hf) as (c' & e' & r & -> & I' & H). cbn [mbind outcome_bind].
  eexists _, _. split; [done|]. split; [done|]. cbn. destruct (set_rejects c _).
  { by destruct H as (_ & -> & _). }
  destruct H as (_ & F & c1 & D1 & _ & H). split; [by eapply frame_tuned|].
  assert (small_values (data c1)) as V1.
  { rewrite D1. apply map_Forall_insert_2; [|done]. cbn. pose proof (total_nonneg (data c)).
    unfold raw_cost, entryOverhead in Hf. cbn in Hf. unfold in_i64. lia. }
  destruct (set_evicts c _); [|by destruct H as [-> _]].
  destruct H as (ms & Ev & _). eapply small_sub; [apply Ev|done].
Qed.

Lemma engine_Del_ok g k : cache_ok g -> exists g' b err, eng_Del g None k = Ret (g', (b, err)) /\ cache_ok g'.
Proof.
  destruct g as [c e]. intros (I & T & V). cbn [fst snd] in *. cbn [eng_Del cache_engine fst snd].
  destruct (CacheDel_ok c k e I) as (c' & e' & r & -> & I' & F & _ & D & _). cbn [mbind outcome_bind].
  eexists _, _, _. split; [done|]. split_and!; cbn; [done|by eapply frame_tuned|].
  rewrite D. eapply small_sub; [apply delete_subseteq|done].
Qed.

Lemma engine_TTL_ok g k : cache_ok g -> exists g' d ok err,
  eng_TTL g None k = Ret (g', (d, ok, err)) /\ cache_ok g' /\ in_i64 d.
Proof.
  destruct g as [c e]. intros (I & T & V). cbn [fst snd] in *. cbn [eng_TTL cache_engine fst snd].
  rewrite CacheTTL_ok by done. cbn [mbind outcome_bind].
  assert (forall a b, in_i64 (sub_time a b)) as Hs by (intros; unfold in_i64, sub_time; lia).
  destruct (data c !! k) as [x|]; [|by eexists _, _, _, _].
  destruct (expired x e) as [[] e1]; [by eexists _, _, _, _|].
  destruct (expiresAt x =? 0); [by eexists _, _, _, _|].
  destruct (env_now e1) as [t e2]. by eexists _, _, _, _.
Qed.

Lemma engine_SetMaxMemory_ok g n : cache_ok g ->
  exists g', SetMaxMemory g.1 n g.2 = Ret g' /\ cache_ok g'.
Proof.
  destruct g as [c e]. intros (I & T & V). cbn [fst snd] in *.
  destruct (SetMaxMemory_eq c n e I T) as (c1 & I1 & T1 & Hm & _ & _ & _ & _ & _ & ->).
  assert (data c1 = data c) as D1 by (unfold data; by rewrite Hm).
  destruct (_ && _ && _); [|eexists; split; [done|]; split_and!; cbn; [done..|by rewrite D1]].
  destruct (evictUntilUnder_ok c1 n (evictPol c) [] false e I1) as (c2 & e2 & ms & -> & _ & Ev & _).
  eexists. split; [done|]. split_and!; cbn; [apply Ev|by eapply frame_tuned; [apply Ev|]|].
  eapply small_sub; [apply Ev|by rewrite D1].
Qed.

Lemma engine_tune t g n : tunable = Some t -> cache_ok g -> 0 <= n < 2 ^ 63 ->
  exists g', t_SetMaxMemory t g n = Ret g' /\ cache_ok g'.
Proof. intros [= <-] Hg _. by apply engine_SetMaxMemory_ok. Qed.

Lemma engine_policy t g p : tunable = Some t -> cache_ok g -> cache_ok (t_SetEvictionPolicy t g p).
Proof.
  destruct g as [c e]. intros [= <-] (I & T & V). cbn.
  destruct (refreshActive_ok (with_limits c (maxmemory c) p (policyCounters c))) as [I' T']; [by destruct I|]. done.
Qed.

#[global] Instance cache_laws : EngineLaws (Cache Seed * E) := {|
  einv := cache_ok;
  accepts := cache_room;
  law_Get := engine_Get_ok;
  law_Set := engine_Set_ok;
  law_Del := engine_Del_ok;
  law_TTL := engine_TTL_ok;
  law_SetMaxMemory := engine_tune;
  law_SetEvictionPolicy := engine_policy;
|}.
End instance.
