(* ===== verification/Expiry.v ===== *)
(** * The expiry options of SET ([parseExpireInt], [parseSetExpiry])

    Which texts are numbers, and which durations reach the engine: the arithmetic is
    that of the integers, with no wrap-around, and a duration that would mean
    "persistent" to the engine is refused. *)
From S2P Require Import Prelude Hash Resp RespSpec Writer WriterSpec Replies Cache Server.

#[local] Opaque itoa_fuel.
#[local] Arguments itoa : simpl never.

(** ** Canonical numbers *)

(** Without overflow checks the digit loop of the reader computes the value. *)
Lemma digits_loop b : forall n m, 0 <= n -> digits_value n b = Some m -> m <= maxInt -> parseInt_loop n b = Some m.
Proof.
  induction b as [|c b IH]; intros n m Hn; cbn; [done|].
  destruct ((48 <=? code c) && (code c <=? 57)) eqn:Ec; [|done]. intros Hd Hm.
  assert (forall acc ds x, 0 <= acc -> digits_value acc ds = Some x -> acc <= x) as Hmono.
  { clear. intros acc ds. revert acc. induction ds as [|y ds IH]; intros acc x Ha; cbn; [intros [= <-]; lia|].
    destruct (_ && _) eqn:Ey; [|done]. intros H. apply IH in H; lia. }
  pose proof (Hmono (n * 10 + (code c - 48)) b m ltac:(lia) Hd) as Hle.
  assert (((code c <? 48) || (57 <? code c)) = false) as -> by lia.
  assert (maxInt - (code c - 48) >= n * 10) by lia.
  assert (n <= Z.quot (maxInt - (code c - 48)) 10) by (apply Z.quot_le_lower_bound; lia).
  destruct (Z.ltb_spec (Z.quot (maxInt - (code c - 48)) 10) n); [lia|].
  unfold maxInt in *. rewrite (i64_id (n * 10)), i64_id by (unfold in_i64; lia). apply IH; [lia|done|done].
Qed.

Lemma loop_digits b : forall n m, 0 <= n <= maxInt -> parseInt_loop n b = Some m -> digits_value n b = Some m /\ m <= maxInt.
Proof.
  induction b as [|c b IH]; intros n m Hn; cbn; [intros [= <-]; split; [done|lia]|].
  destruct ((code c <? 48) || (57 <? code c)) eqn:Ec; [done|].
  destruct (Z.ltb_spec (Z.quot (maxInt - (code c - 48)) 10) n) as [|Hq]; [done|].
  assert (((48 <=? code c) && (code c <=? 57)) = true) as -> by lia.
  assert (n * 10 + (code c - 48) <= maxInt).
  { rewrite Z.quot_div_nonneg in Hq by (unfold maxInt; lia). pose proof (Z.mul_div_le (maxInt - (code c - 48)) 10). lia. }
  unfold maxInt in *. rewrite (i64_id (n * 10)), i64_id by (unfold in_i64; lia). apply IH. lia.
Qed.

(** [ParseInt] on text that starts with a digit. *)
Lemma ParseInt_digits c s : 48 <= code c <= 57 -> ParseInt (c :: s) = parseInt_loop 0 (c :: s).
Proof.
  intros Hc. unfold ParseInt.
  rewrite !bool_decide_eq_false_2 by (try done; intros ->; change (code x2b) with 43 in *; change (code x2d) with 45 in *; lia).
  destruct (digits_value 0 (c :: s)) as [m|] eqn:Ed; cbn [mbind option_bind].
  - destruct (Z.leb_spec (2 ^ 63) m) as [Hb|Hb].
    + destruct (parseInt_loop 0 (c :: s)) as [m'|] eqn:El; [|done].
      apply loop_digits in El as [El Hm]; [|unfold maxInt; lia]. unfold maxInt in Hm. rewrite Ed in El. injection El as <-. lia.
    + symmetry. apply digits_loop; [lia|done|unfold maxInt; lia].
  - destruct (parseInt_loop 0 (c :: s)) as [m'|] eqn:El; [|done].
    apply loop_digits in El as [El _]; [|unfold maxInt; lia]. congruence.
Qed.

(** The unsigned part of [parseExpireInt] is the reader's [parseInt]. *)
Definition unsigned (s : bytes) : option Z :=
  match s with
  | [] => None
  | c :: s' =>
      if (code c <? 48) || (57 <? code c) then None
      else if negb (bool_decide (s' = [])) && (code c =? 48) then None
      else ParseInt s
  end.

Lemma unsigned_eq s : unsigned s = parseInt s.
Proof.
  destruct s as [|c s]; [done|]. unfold unsigned, parseInt.
  destruct ((code c <? 48) || (57 <? code c)) eqn:Ec.
  { assert ((code c <? 49) || (57 <? code c) = true) as -> by lia.
    assert ((code c =? 48) = false) as -> by lia. cbn [negb]. by rewrite orb_true_r. }
  destruct (bool_decide (s = [])) eqn:Es; cbn [negb andb orb].
  - destruct (Z.eqb_spec (code c) 48); cbn [negb].
    + rewrite andb_false_r. apply ParseInt_digits. lia.
    + assert ((code c <? 49) || (57 <? code c) = false) as -> by lia. cbn [andb]. apply ParseInt_digits. lia.
  - destruct (Z.eqb_spec (code c) 48).
    + assert ((code c <? 49) || (57 <? code c) = true) as -> by lia. done.
    + assert ((code c <? 49) || (57 <? code c) = false) as -> by lia. cbn [andb]. apply ParseInt_digits. lia.
Qed.

(** The texts of numbers: those [FormatInt] prints for magnitudes up to [maxInt], and
    minus zero. *)
Definition number_text (b : bytes) (n : Z) : Prop :=
  (b = format_int n /\ - maxInt <= n <= maxInt) \/ (b = B "-0" /\ n = 0).

Lemma parseExpireInt_iff b n : parseExpireInt b = Some n <-> number_text b n.
Proof.
  assert (parseExpireInt b = match b with
    | c :: s => if bool_decide (c = x2d) then (fun n => i64 (- n)) <$> parseInt s else parseInt b
    | [] => None end) as ->.
  { destruct b as [|c s]; [done|]. unfold parseExpireInt. destruct (bool_decide (c = x2d)); rewrite <- unsigned_eq.
    - destruct s as [|d s]; [done|]. cbn [unsigned]. repeat case_match; try done; by destruct (ParseInt (d :: s)).
    - cbn [unsigned]. repeat case_match; try done. by destruct (ParseInt (c :: s)). }
  unfold number_text, format_int. destruct b as [|c s].
  { split; [done|]. intros [[E _]|[E _]]; [|done]. destruct (Z.ltb_spec n 0); [done|].
    exfalso. by apply (itoa_fuel_nonempty 20 n); [lia|]. }
  destruct (bool_decide_reflect (c = x2d)) as [->|Hc].
  - split.
    + destruct (parseInt s) as [m|] eqn:Ep; [|done]. cbn. intros [= <-]. apply parseInt_iff in Ep as [-> Hm].
      unfold maxInt in Hm. rewrite i64_id by (unfold in_i64; lia).
      destruct (decide (m = 0)) as [->|]; [by right|left].
      destruct (Z.ltb_spec (- m) 0); [|lia]. rewrite Z.opp_involutive. unfold maxInt. split; [done|lia].
    + intros [[E Hn]|[[= ->] ->]].
      * destruct (Z.ltb_spec n 0).
        -- injection E as ->. rewrite (proj2 (parseInt_iff _ (- n))) by (split; [done|lia]). cbn.
           unfold maxInt in *. rewrite i64_id by (unfold in_i64; lia). f_equal. lia.
        -- exfalso. pose proof (itoa_digits n x2d ltac:(lia)) as Hd. rewrite <- E in Hd.
           change (code x2d) with 45 in Hd. set_solver by lia.
      * rewrite (proj2 (parseInt_iff _ 0)) by (split; [by vm_compute|unfold maxInt; lia]). done.
  - rewrite parseInt_iff. split.
    + intros [E Hn]. left. destruct (Z.ltb_spec n 0); [lia|]. split; [done|lia].
    + intros [[E Hn]|[[= ->] _]]; [|done]. destruct (Z.ltb_spec n 0); [congruence|]. split; [done|lia].
Qed.

(** *** The reference *)

(** The number a text denotes: the canonical decimal texts of 64-bit integers. *)
Definition int_text (b : bytes) : option Z :=
  n ← decode_number b;
  if bool_decide (b = format_big n) && (- 2 ^ 63 <=? n) && (n <? 2 ^ 63) then Some n else None.

Lemma int_text_iff b n : int_text b = Some n <-> b = format_big n /\ in_i64 n.
Proof.
  unfold int_text, in_i64. split.
  - destruct (decode_number b) as [m|]; cbn [mbind option_bind]; [|done].
    destruct (bool_decide_reflect (b = format_big m)); cbn [andb]; [|done].
    destruct (_ && _) eqn:E; [|done]. intros [= <-]. split; [done|lia].
  - intros [-> Hn]. rewrite decode_format. cbn [mbind option_bind]. rewrite bool_decide_eq_true_2 by done. cbn [andb].
    by replace ((- 2 ^ 63 <=? n) && (n <? 2 ^ 63)) with true by lia.
Qed.

(** Two texts on which [parseExpireInt] is not canonical: it takes minus zero for zero
    and refuses the least integer. *)
Definition odd_number (b : bytes) : Prop := b = B "-0" \/ b = B "-9223372036854775808".

Lemma parseExpireInt_canonical b : ~ odd_number b -> parseExpireInt b = int_text b.
Proof.
  intros Ho. apply option_eq. intros n. rewrite parseExpireInt_iff, int_text_iff. unfold number_text, in_i64. split.
  - intros [[-> Hn]|[-> _]]; [|by destruct Ho; left]. unfold maxInt in Hn. split; [|lia].
    by rewrite format_int_big by (unfold in_i64; lia).
  - intros [-> Hn]. left. assert (n <> - 2 ^ 63) by (intros ->; apply Ho; right; vm_compute; reflexivity).
    rewrite format_int_big by (unfold in_i64; lia). unfold maxInt. split; [done|lia].
Qed.

(** ** Durations *)
Section expiry.
Context {G : Type} (timeNow : G -> Z * G) (cfg : Config G).

(** The duration an option asks for at time [t], in unbounded integers, and the
    largest magnitude its unit takes. *)
Definition duration (unit : bytes) (n t : Z) : Z :=
  if bool_decide (unit = B "EX") then n * second
  else if bool_decide (unit = B "PX") then n * millisecond
  else if bool_decide (unit = B "EXAT") then Unix n - t
  else UnixMilli n - t.

Definition unit_bound (unit : bytes) : Z :=
  if bool_decide (unit = B "EX") || bool_decide (unit = B "EXAT") then maxInt / second else maxInt / millisecond.

Definition units : list bytes := [B "EX"; B "PX"; B "EXAT"; B "PXAT"].

(** What the options mean at time [t]. *)
Definition expiry_result (opts : list bytes) (t : Z) : Z + bytes :=
  match opts with
  | [] => inl 0
  | [o0; o1] =>
      let unit := asciiUpper o0 in
      if negb (bool_decide (unit ∈ units)) then inr errSyntax
      else match int_text o1 with
           | None => inr errNotInteger
           | Some n =>
               let d := duration unit n t in
               if (Z.abs n <=? unit_bound unit) && (0 <? d) then inl (Z.min maxInt d) else inr errInvalidExpire
           end
  | _ => inr errSyntax
  end.

Lemma beyond_abs n b : beyond n b = negb (Z.abs n <=? b).
Proof. unfold beyond. lia. Qed.

Lemma relative_ttl n k : 0 < k -> (Z.abs n <=? maxInt / k) = true ->
  (if i64 (n * k) <=? 0 then inr errInvalidExpire else inl (i64 (n * k))) =
  (if 0 <? n * k then inl (Z.min maxInt (n * k)) else inr errInvalidExpire) :> Z + bytes.
Proof.
  intros Hk Hn%Z.leb_le. pose proof (Z.mul_div_le maxInt k Hk).
  assert (- maxInt <= n * k <= maxInt) by nia. unfold maxInt in *.
  rewrite i64_id by (unfold in_i64; lia).
  destruct (Z.leb_spec (n * k) 0), (Z.ltb_spec 0 (n * k)); try lia; [done|]. f_equal. lia.
Qed.

Lemma absolute_ttl d : (if sub_time d 0 <=? 0 then inr errInvalidExpire else inl (sub_time d 0)) =
  (if 0 <? d then inl (Z.min maxInt d) else inr errInvalidExpire) :> Z + bytes.
Proof.
  unfold sub_time, maxInt. destruct (Z.leb_spec (Z.max (- 2 ^ 63) (Z.min (2 ^ 63 - 1) (d - 0))) 0), (Z.ltb_spec 0 d);
    try lia; [done|]. f_equal. lia.
Qed.

Lemma parse_ttl unit n c g t g' : default timeNow (Now cfg) g = (t, g') ->
  exists r g1, set_ttl timeNow cfg unit n (c, g) = Ret (r, (c, g1)) /\ (g1 = g \/ g1 = g') /\
    match r with None => inr errInvalidExpire | Some ttl => if ttl <=? 0 then inr errInvalidExpire else inl ttl end =
    (if (Z.abs n <=? unit_bound unit) && (0 <? duration unit n t) then inl (Z.min maxInt (duration unit n t))
    else inr errInvalidExpire) :> Z + bytes.
Proof.
  intros Ht.
  assert (forall a : Z, sub_time a t = sub_time (a - t) 0) as Hst by (intros; unfold sub_time; f_equal; f_equal; lia).
  unfold set_ttl, duration, unit_bound. rewrite !beyond_abs.
  change maxExpireSeconds with (maxInt / second). change maxExpireMillis with (maxInt / millisecond).
  destruct (bool_decide_reflect (unit = B "EX")) as [_|_]; cbn [orb].
  { destruct (Z.abs n <=? maxInt / second) eqn:En; (eexists _, _; split; [done|split; [by left|]]); [|done].
    by apply relative_ttl. }
  destruct (bool_decide_reflect (unit = B "PX")) as [->|_]; cbn [orb].
  { rewrite bool_decide_eq_false_2 by done.
    destruct (Z.abs n <=? maxInt / millisecond) eqn:En; (eexists _, _; split; [done|split; [by left|]]); [|done].
    by apply relative_ttl. }
  destruct (bool_decide_reflect (unit = B "EXAT")) as [_|_]; cbn [orb].
  - destruct (Z.abs n <=? maxInt / second); [|by eexists _, _; split; [done|split; [by left|]]].
    eexists _, g'. split; [cbn; unfold mbind, srvM_bind, now; by rewrite Ht|]. split; [by right|].
    rewrite Hst. apply absolute_ttl.
  - destruct (Z.abs n <=? maxInt / millisecond); [|by eexists _, _; split; [done|split; [by left|]]].
    eexists _, g'. split; [cbn; unfold mbind, srvM_bind, now; by rewrite Ht|]. split; [by right|].
    rewrite Hst. apply absolute_ttl.
Qed.

Lemma parse_expiry opts c g t g' : default timeNow (Now cfg) g = (t, g') ->
  (forall o, opts !! 1%nat = Some o -> ~ odd_number o) ->
  exists g1, parseSetExpiry timeNow cfg opts (c, g) = Ret (expiry_result opts t, (c, g1)) /\ (g1 = g \/ g1 = g').
Proof.
  intros Ht Hodd. destruct opts as [|o0 [|o1 [|o2 opts]]]; cbn [parseSetExpiry expiry_result];
    try (exists g; split; [done|by left]).
  fold units. destruct (negb _); [exists g; split; [done|by left]|].
  rewrite parseExpireInt_canonical by (by apply Hodd). destruct (int_text o1) as [n|]; [|exists g; split; [done|by left]].
  destruct (parse_ttl (asciiUpper o0) n c g t g' Ht) as (r & g1 & E & Hg & Hr).
  exists g1. split; [|done]. unfold mbind, srvM_bind. rewrite E. cbv zeta. by rewrite <- Hr.
Qed.
End expiry.
