(* ===== verification/KeyCommands.v ===== *)
(** * The key commands over the cache

    What GET, DEL, EXISTS, TTL and PTTL answer, and what they leave stored, when the
    server runs on the cache.  The clock moves as it likes: each key is judged at a
    reading of the clock made while the command ran. *)
From S2P Require Import Prelude Hash Table ShardMap ShardMapSpec Policy.
From S2P Require Import Cache CacheSpec CacheOps CacheProps.
From S2P Require Import Resp RespSpec Writer WriterSpec Replies Server ServerSpec ServerCache.

Section keys.
Context {Seed : Type} `{!GoType Seed} `{!Maphash Seed}.
Context {E : Type} `{!Env E}.
Context (cap : nat) (e0 : ioerr).
Context (timeNow : Cache Seed * E -> Z * (Cache Seed * E)) (unicode_lower : bytes -> bytes) (ctx_text : Z -> bytes).
Context (cfg : Config (Cache Seed * E)).
Local Abbreviation sends := (sends cap e0).
Local Abbreviation dispatch := (dispatch timeNow unicode_lower ctx_text cfg).
Implicit Types m : gmap bytes centry.

(** The live value of a key at the instant [t]. *)
Definition live_value (t : Z) m (k : bytes) : option bytes :=
  x ← m !! k; if live_at t x then Some (value x) else None.

Definition alive (t : Z) m (k : bytes) : bool := bool_decide (is_Some (live_value t m k)).

(** The environment moves on by a reading of the clock or an attempt at a mutex. *)
Definition env_step (e e' : E) : Prop := e' = snd (env_now e) \/ e' = snd (env_trylock e).

(** Readings of the clock in the order they can be made from [e] on. *)
Inductive readings : E -> list Z -> Prop :=
| readings_nil e : readings e []
| readings_cons e e1 ts : rtc env_step e e1 -> readings e1 ts -> readings e (first_reading e1 :: ts).

Lemma readings_later e e1 ts : rtc env_step e e1 -> readings e1 ts -> readings e ts.
Proof using Type.
  intros H1 H2. destruct H2 as [e1|e1 e2 ts H2 H3]; [constructor|]. constructor; [by etransitivity|done].
Qed.

Lemma alive_lookup t m k : alive t m k = match m !! k with Some x => live_at t x | None => false end.
Proof using Type.
  unfold alive, live_value. destruct (m !! k) as [x|]; cbn; [|done].
  destruct (live_at t x); [by apply bool_decide_eq_true_2|apply bool_decide_eq_false_2; by intros []].
Qed.

Lemma expired_steps x e : rtc env_step e (snd (expired x e)).
Proof using Type.
  unfold expired. destruct (negb _); [|done]. apply rtc_once. left. by destruct (env_now e).
Qed.

Lemma CacheGet_at (c : Cache Seed) k e : cinv c -> exists (c' : Cache Seed) e',
  CacheGet c None k e = Ret (c', e', (live_value (first_reading e) (data c) k, alive (first_reading e) (data c) k, None)) /\
  cinv c' /\ data c' = data c /\ rtc env_step e e'.
Proof using Type.
  intros I. destruct (CacheGet_ok c k e I) as (c' & e' & r & E1 & I' & Hm & _ & _ & _ & _ & _ & H).
  exists c', e'. split_and!; [|done|unfold data; by rewrite Hm|].
  - rewrite E1, alive_lookup. unfold live_value. destruct (data c !! k) as [x|]; cbn; [|by destruct H as [-> _]].
    pose proof (expired_live x e) as El. destruct (expired x e) as [dead e1]. injection El as ->.
    destruct (live_at (first_reading e) x); cbn in H; by destruct H as [-> _].
  - clear H. unfold CacheGet in E1. destruct (ShardMap.Get (cm c) k) as [[x found]| |]; cbn in E1; [|done..].
    destruct found; [|cbn in E1; by simplify_eq]. pose proof (expired_steps x e) as Hx.
    destruct (expired x e) as [[] e1]; cbn in E1, Hx; [by simplify_eq|].
    apply bind_ret in E1 as ([c2 e2] & Er & E1). simplify_eq. unfold record_access in Er.
    destruct (active _); [destruct (env_trylock e1) as [b e3] eqn:Et|]; apply bind_ret in Er as (p & _ & Er); simplify_eq; [|done].
    eapply rtc_r; [done|]. right. by rewrite Et.
Qed.

Lemma CacheDel_at (c : Cache Seed) k e : cinv c -> exists (c' : Cache Seed) e',
  CacheDel c None k e = Ret (c', e', (alive (first_reading e) (data c) k, None)) /\ cinv c' /\
  data c' = delete k (data c) /\ rtc env_step e e'.
Proof using Type.
  intros I. destruct (CacheDel_ok c k e I) as (c' & e' & r & E1 & I' & _ & _ & D & H).
  exists c', e'. rewrite E1, alive_lookup. destruct (data c !! k) as [x|].
  - pose proof (expired_steps x e) as Hx. rewrite expired_live in H. cbn [fst snd] in H. rewrite negb_involutive in H.
    injection H as -> ->. by split_and!.
  - destruct H as [-> ->]. by split_and!.
Qed.

(** The engine's methods are the cache's. *)
Lemma eng_get_eq (c c' : Cache Seed) e e' k r : CacheGet c None k e = Ret (c', e', r) -> eng_Get (c, e) engineCtx k = Ret ((c', e'), r).
Proof. intros H. cbn [eng_Get cache_engine fst snd]. unfold engineCtx. by rewrite H. Qed.

Lemma eng_del_eq (c c' : Cache Seed) e e' k r : CacheDel c None k e = Ret (c', e', r) -> eng_Del (c, e) engineCtx k = Ret ((c', e'), r).
Proof. intros H. cbn [eng_Del cache_engine fst snd]. unfold engineCtx. by rewrite H. Qed.

(** What TTL answers, in milliseconds left. *)
Definition ttl_answer (t : Z) m (k : bytes) (unit : ttlUnit) : Z :=
  match m !! k with
  | Some x =>
      if negb (live_at t x) then -2
      else if expiresAt x =? 0 then -1
      else let ms := Z.min maxInt (expiresAt x - t) / millisecond in
           match unit with ttlSeconds => (ms + 500) / 1000 | ttlMilliseconds => ms end
  | None => -2
  end.

(** ** Dispatch of a known verb *)
Lemma dispatch_verb a args cmd st Φ :
  find_command timeNow unicode_lower ctx_text cfg (asciiUpper a) = Some cmd -> arity_ok cmd (a :: args) = true ->
  sends (handler cmd (a :: args)) st (fun err fs st' => Φ (stops err) fs st') -> sends (dispatch (a :: args)) st Φ.
Proof.
  intros Hf Ha H. unfold Server.dispatch. rewrite Hf. unfold arity_ok in Ha. apply negb_true_iff in Ha. rewrite Ha.
  apply sends_bind. eapply sends_mono; [|exact H]. intros err fs st' HΦ. apply sends_ret. by rewrite app_nil_r.
Qed.

(** The frame of a missing value. *)
Definition null_frame (proto : Z) : Frame := if 3 <=? proto then FNull else FNullBulk.

Lemma get_command a k c g : asciiUpper a = B "GET" -> cinv g.1 -> wf_conn c ->
  in_i64 (Z.of_nat (length (default [] (live_value (first_reading g.2) (data g.1) k)))) ->
  sends (dispatch [a; k]) (c, g) (fun _ fs st =>
    fs = [match live_value (first_reading g.2) (data g.1) k with Some v => FBulk v | None => null_frame (cproto c) end] /\
    data st.2.1 = data g.1).
Proof.
  intros Ha I [Hc _] Hl. eapply dispatch_verb; [rewrite Ha; reflexivity|done|]. cbn [handler].
  unfold cmdGet. apply sends_bind. eapply sends_arg; [done|lia|]. apply sends_bind.
  destruct g as [cc e]. destruct (CacheGet_at cc k e I) as (c' & e' & Eg & I' & D & _).
  eapply (sends_engine _ _ _ c (cc, e) (c', e')); [by apply eng_get_eq|]. cbn [fst].
  cbn [fst snd] in *. unfold alive. destruct (live_value _ (data cc) k) as [v|]; cbn [negb].
  - rewrite bool_decide_eq_true_2 by eauto. cbn [negb].
    apply (sends_wr cap e0 (CBulk v) (FBulk v)); [done..|]. intros w' _. by split.
  - rewrite bool_decide_eq_false_2 by (by intros []). cbn [negb].
    apply (sends_wr cap e0 CNull (null_frame (cproto c))); [done|cbn; unfold null_frame; by rewrite Hc|]. intros w' _. by split.
Qed.

(** *** EXISTS *)

(** How many of the keys are live, each at its own instant. *)
Definition live_count m (kts : list (bytes * Z)) : nat := length (filter (fun kt => alive kt.2 m kt.1 = true) kts).

Lemma exists_loop_at keys : forall n c g, cinv g.1 -> 0 <= n -> n + Z.of_nat (length keys) < 2 ^ 63 ->
  sends (exists_loop ctx_text keys n) (c, g) (fun _ fs st => exists ts, readings g.2 ts /\ length ts = length keys /\
    fs = [FInt (n + Z.of_nat (live_count (data g.1) (zip keys ts)))] /\ data st.2.1 = data g.1).
Proof.
  induction keys as [|k keys IH]; intros n c g I Hn Hb; cbn [exists_loop length] in *.
  { apply (sends_wr cap e0 (CInt n) (FInt n)); [cbn; unfold in_i64; lia|done|]. intros w' _.
    exists []. split_and!; [constructor|done| |done]. unfold live_count. cbn. by rewrite Z.add_0_r. }
  apply sends_bind. destruct g as [cc e]. destruct (CacheGet_at cc k e I) as (c' & e' & Eg & I' & D & Hs).
  eapply (sends_engine _ _ _ c (cc, e) (c', e')); [by apply eng_get_eq|]. cbn [fst snd] in *.
  eapply sends_mono; [|apply (IH _ c (c', e')); [done|..]].
  - intros err fs st (ts & Hts & Hl & -> & Hd). cbn [fst snd app] in *. exists (first_reading e :: ts).
    rewrite D in Hd |- *. split_and!; [constructor; [done|by eapply readings_later]|cbn; by rewrite Hl| |done].
    unfold live_count. cbn [zip zip_with]. rewrite filter_cons. cbn [fst snd].
    destruct (alive (first_reading e) (data cc) k); [rewrite decide_True by done|rewrite decide_False by done]; [|done].
    rewrite i64_id by (unfold in_i64; lia). cbn [length]. do 2 f_equal. lia.
  - destruct (alive _ _ _); [rewrite i64_id by (unfold in_i64; lia)|]; lia.
  - destruct (alive _ _ _); [rewrite i64_id by (unfold in_i64; lia)|]; lia.
Qed.

(** *** DEL *)

(** The distinct keys among the arguments that are live at [t]. *)
Definition live_set (t : Z) m (keys : list bytes) : gset bytes := filter (fun k => alive t m k = true) (list_to_set keys).

Definition without m (keys : list bytes) : gmap bytes centry := foldl (fun m k => delete k m) m keys.

Lemma live_set_nil t m : size (live_set t m []) = 0%nat.
Proof using Type. unfold live_set. apply size_empty_iff. cbn [list_to_set]. set_solver. Qed.

Lemma live_set_cons t m k keys :
  size (live_set t m (k :: keys)) = ((if alive t m k then 1 else 0) + size (live_set t (delete k m) keys))%nat.
Proof using Type.
  clear -t m k keys.
  assert (forall k', alive t (delete k m) k' = if decide (k' = k) then false else alive t m k') as Hd.
  { intros k'. rewrite !alive_lookup. destruct (decide (k' = k)) as [->|]; [by rewrite lookup_delete_eq|].
    by rewrite lookup_delete_ne. }
  assert (live_set t (delete k m) keys = live_set t m keys ∖ {[k]}) as ->.
  { apply set_eq. intros k'. unfold live_set. rewrite elem_of_difference, !elem_of_filter, Hd, elem_of_singleton.
    destruct (decide (k' = k)); naive_solver. }
  assert (live_set t m (k :: keys) = (if alive t m k then {[k]} else ∅) ∪ live_set t m keys ∖ {[k]}) as ->.
  { apply set_eq. intros k'. unfold live_set.
    rewrite elem_of_union, elem_of_difference, !elem_of_filter, elem_of_singleton. cbn [list_to_set].
    rewrite elem_of_union, elem_of_singleton. destruct (decide (k' = k)) as [->|];
      destruct (alive t m k) eqn:Ek; rewrite ?elem_of_singleton, ?elem_of_empty; naive_solver. }
  rewrite size_union by (destruct (alive t m k); set_solver). destruct (alive t m k); [by rewrite size_singleton|by rewrite size_empty].
Qed.

Lemma live_set_bound t m keys : (size (live_set t m keys) <= length keys)%nat.
Proof using Type.
  revert m. induction keys as [|k keys IH]; intros m; [by rewrite live_set_nil|].
  rewrite live_set_cons. specialize (IH (delete k m)). cbn. destruct (alive t m k); lia.
Qed.

(** How many of the keys are live, each at its own instant, and not deleted by an
    earlier argument. *)
Fixpoint del_count m (kts : list (bytes * Z)) : nat :=
  match kts with
  | [] => 0
  | (k, t) :: kts => (if alive t m k then 1 else 0) + del_count (delete k m) kts
  end.

(** Unless a key expires meanwhile, these are the distinct live keys. *)
Lemma del_count_steady t m keys ts : length ts = length keys ->
  (forall k t', k ∈ keys -> t' ∈ ts -> alive t' m k = alive t m k) ->
  del_count m (zip keys ts) = size (live_set t m keys).
Proof using Type.
  clear -t m keys ts.
  revert m ts. induction keys as [|k keys IH]; intros m [|t' ts] Hl Hs; try done.
  cbn [zip zip_with del_count]. rewrite live_set_cons, Hs by set_solver. f_equal. apply IH; [cbn in Hl; lia|].
  intros k' t2 Hk Ht. rewrite !alive_lookup. destruct (decide (k' = k)) as [->|]; [by rewrite lookup_delete_eq|].
  rewrite lookup_delete_ne by done. rewrite <- !alive_lookup. apply Hs; set_solver.
Qed.

Lemma live_count_steady t m keys ts : length ts = length keys ->
  (forall k t', k ∈ keys -> t' ∈ ts -> alive t' m k = alive t m k) ->
  live_count m (zip keys ts) = length (filter (fun k => alive t m k = true) keys).
Proof using Type.
  clear -t m keys ts.
  unfold live_count. revert ts. induction keys as [|k keys IH]; intros [|t' ts] Hl Hs; try done.
  cbn [zip zip_with]. rewrite !filter_cons. cbn [fst snd]. rewrite Hs by set_solver.
  specialize (IH ts ltac:(cbn in Hl; lia) ltac:(intros; apply Hs; set_solver)).
  destruct (decide _); cbn [length]; congruence.
Qed.

Lemma del_count_bound kts : forall m, (del_count m kts <= length kts)%nat.
Proof using Type.
  induction kts as [|[k t] kts IH]; intros m; cbn; [done|]. specialize (IH (delete k m)). destruct (alive t m k); lia.
Qed.

Lemma del_loop_at keys : forall n c g, cinv g.1 -> 0 <= n -> n + Z.of_nat (length keys) < 2 ^ 63 ->
  sends (del_loop ctx_text keys n) (c, g) (fun _ fs st => exists ts, readings g.2 ts /\ length ts = length keys /\
    fs = [FInt (n + Z.of_nat (del_count (data g.1) (zip keys ts)))] /\ data st.2.1 = without (data g.1) keys).
Proof.
  induction keys as [|k keys IH]; intros n c g I Hn Hb; cbn [del_loop length] in *.
  { apply (sends_wr cap e0 (CInt n) (FInt n)); [cbn; unfold in_i64; lia|done|]. intros w' _.
    exists []. split_and!; [constructor|done| |done]. cbn. by rewrite Z.add_0_r. }
  apply sends_bind. destruct g as [cc e]. destruct (CacheDel_at cc k e I) as (c' & e' & Eg & I' & D & Hs).
  eapply (sends_engine _ _ _ c (cc, e) (c', e')); [by apply eng_del_eq|]. cbn [fst snd] in *.
  eapply sends_mono; [|apply (IH _ c (c', e')); [done|..]].
  - intros err fs st (ts & Hts & Hl & -> & Hd). cbn [fst snd app] in *. exists (first_reading e :: ts).
    rewrite D in Hd |- *. split_and!; [constructor; [done|by eapply readings_later]|cbn; by rewrite Hl| |done].
    cbn [zip zip_with del_count].
    destruct (alive (first_reading e) (data cc) k); [|done]. rewrite i64_id by (unfold in_i64; lia). do 2 f_equal. lia.
  - destruct (alive _ _ _); [rewrite i64_id by (unfold in_i64; lia)|]; lia.
  - destruct (alive _ _ _); [rewrite i64_id by (unfold in_i64; lia)|]; lia.
Qed.

(** *** TTL *)
Lemma ttl_command k u c g : cinv g.1 -> steady (data g.1) g.2 k ->
  sends (replyTTL ctx_text k u) (c, g) (fun _ fs st => exists t, (t = first_reading g.2 \/ t = second_reading g.2) /\
    fs = [FInt (ttl_answer t (data g.1) k u)] /\ data st.2.1 = data g.1).
Proof.
  intros I Hs. destruct g as [cc e]. cbn [fst snd] in *. unfold replyTTL. apply sends_bind.
  destruct (ttl_at cc k e I Hs) as (t & e' & Et & Ht & _).
  assert (exists d ok, eng_TTL (cc, e) engineCtx k = Ret ((cc, e'), (d, ok, None)) /\
    ((ok = false /\ ttl_answer t (data cc) k u = -2) \/ (ok = true /\ d = -1 /\ ttl_answer t (data cc) k u = -1) \/
     (ok = true /\ 0 <= d <= maxInt /\ ttl_answer t (data cc) k u =
        match u with ttlSeconds => (d / millisecond + 500) / 1000 | ttlMilliseconds => d / millisecond end)))
    as (d & ok & Eg & Hans).
  { cbn [eng_TTL cache_engine fst snd]. unfold engineCtx. rewrite Et. cbn [mbind outcome_bind].
    unfold ttl_answer, ref_live, live_at. destruct (data cc !! k) as [x|]; cbn [mbind option_bind]; [|eexists _, _; split; [done|by left]].
    destruct (Z.eqb_spec (expiresAt x) 0) as [E0|Hx]; cbn [orb negb].
    { rewrite E0. eexists _, _. split; [done|by right; left]. }
    destruct (Z.ltb_spec t (expiresAt x)); cbn [negb]; [|eexists _, _; split; [done|by left]].
    destruct (Z.eqb_spec (expiresAt x) 0); [done|]. eexists _, _. split; [done|]. right; right.
    split_and!; [done|unfold maxInt; lia|unfold maxInt; lia|done]. }
  eapply (sends_engine _ _ _ c (cc, e) (cc, e')); [exact Eg|].
  apply (sends_mono cap e0 _ _ (fun _ fs st => fs = [FInt (ttl_answer t (data cc) k u)] /\ data st.2.1 = data cc)).
  { intros ? fs st [-> Hd]. by exists t. }
  destruct Hans as [[-> ->]|[(-> & -> & ->)|(-> & Hd & ->)]]; cbn [negb].
  - by apply (sends_wr cap e0 (CInt (-2)) (FInt (-2))).
  - by apply (sends_wr cap e0 (CInt (-1)) (FInt (-1))).
  - destruct (Z.ltb_spec d 0); [lia|]. unfold Milliseconds. rewrite (Z.quot_div_nonneg d millisecond) by (unfold millisecond; lia).
    assert (0 <= d / millisecond <= maxInt / millisecond) as Hm.
    { split; [apply Z.div_pos; unfold millisecond; lia|apply Z.div_le_mono; unfold millisecond; lia]. }
    change (maxInt / millisecond) with 9223372036854 in Hm.
    destruct u.
    + rewrite i64_id by (unfold in_i64; lia). rewrite Z.quot_div_nonneg by lia.
      apply (sends_wr cap e0 (CInt ((d / millisecond + 500) / 1000)) (FInt ((d / millisecond + 500) / 1000))); [|done|done].
      cbn. unfold in_i64. assert (0 <= (d / millisecond + 500) / 1000 <= d / millisecond + 500); [|lia].
      split; [apply Z.div_pos; lia|apply Z.div_le_upper_bound; lia].
    + apply (sends_wr cap e0 (CInt (d / millisecond)) (FInt (d / millisecond))); [cbn; unfold in_i64; lia|done|done].
Qed.
End keys.
