(* ===== verification/ServerProps.v ===== *)
(** * The server's commands: theorems

    Dispatch over any engine that obeys the laws, the expiry options of SET, and the
    key commands over the cache. *)
From S2P Require Import Prelude Hash Table TableSpec ShardMap ShardMapSpec Policy.
From S2P Require Import Cache CacheSpec CacheOps CacheProps.
From S2P Require Import Resp RespSpec Writer WriterSpec Replies Server ServerSpec ServerCache Expiry KeyCommands.

(** C2. One reply per command.  Over any engine that obeys its laws, whatever the
    arguments (any bytes, any number, any verb), dispatching a non-empty command
    returns and writes exactly one reply: one frame, or an aggregate header with all
    its children, every line free of line feeds, so client text cannot forge a second
    reply.  It keeps the engine's invariant and the agreement of the connection and
    its encoder on the dialect, which only HELLO changes.  It asks to close the
    connection on QUIT, and for any other command only if writing the reply failed. *)
Theorem dispatch_one_reply {G : Type} `{!Engine G} `{!EngineLaws G} (cap : nat) (e0 : ioerr)
    (timeNow : G -> Z * G) (unicode_lower : bytes -> bytes) (ctx_text : Z -> bytes) (cfg : Config G)
    (args : list bytes) (c : conn) (g : G) (out : bytes) :
  (forall g, einv g -> einv (snd (default timeNow (Now cfg) g))) ->
  (forall g k v, accepts g k v -> accepts (snd (default timeNow (Now cfg) g)) k v) ->
  in_i64 (Z.of_nat (length (Version cfg))) ->
  wf_conn c -> einv g -> Forall (fun a => in_i64 (Z.of_nat (length a))) args -> args <> [] -> admits g args ->
  emitted cap e0 (cw c) out ->
  exists stop c' g' fs, dispatch timeNow unicode_lower ctx_text cfg args (c, g) = Ret (stop, (c', g')) /\
    emitted cap e0 (cw c') (out ++ wire fs) /\ one_reply fs /\ wf_conn c' /\ cid c' = cid c /\ einv g' /\
    (cproto c' = cproto c \/ (asciiUpper <$> head args) = Some (B "HELLO")) /\
    (quits args = true -> stop = true) /\ (stop = true -> quits args = true \/ is_Some (werr (cw c'))).
Proof.
  intros Hn1 Hn2 Hv Hc Hg Ha Hne Hadm Ho.
  destruct (dispatch_ok cap e0 timeNow unicode_lower ctx_text cfg Hn1 Hn2 Hv args c g Hc Hg Ha Hne Hadm out Ho)
    as (stop & [c' g'] & fs & E & Ho' & H1 & H2 & H3 & H4 & H5 & H6 & H7).
  exists stop, c', g', fs. by split_and!.
Qed.

(** C12. Expiry options.  For any options after [SET k v] and a clock that reads [t],
    the parser returns what the options mean in unbounded integers: plain SET is
    persistent; EX, PX, EXAT and PXAT, in any letter case, give the duration asked for
    when the number is within its unit's bound and the duration is positive, capped
    at the largest [time.Duration] (which an absolute time can exceed); anything else
    is the matching error.  So no duration wraps around, and no expiry is stored as
    persistent.  Numbers are exactly the canonical decimal texts of 64-bit integers;
    the two texts on which the parser deviates from that, ["-0"] and the text of the
    least integer, are excluded. *)
Theorem set_expiry_exact {G : Type} (timeNow : G -> Z * G) (cfg : Config G) (opts : list bytes) (c : conn) (g g' : G) (t : Z) :
  default timeNow (Now cfg) g = (t, g') -> (forall o, opts !! 1%nat = Some o -> ~ odd_number o) ->
  (exists g1, parseSetExpiry timeNow cfg opts (c, g) = Ret (expiry_result opts t, (c, g1)) /\ (g1 = g \/ g1 = g')) /\
  (forall ttl, expiry_result opts t = inl ttl -> (opts = [] /\ ttl = 0) \/ 0 < ttl <= maxInt) /\
  (forall b n, ~ odd_number b -> parseExpireInt b = Some n <-> b = format_big n /\ in_i64 n).
Proof.
  intros Ht Hodd. split_and!; [by apply parse_expiry| |intros b n Hb; by rewrite parseExpireInt_canonical, int_text_iff].
  intros ttl. destruct opts as [|o0 [|o1 [|o2 opts]]]; cbn [expiry_result]; try done; [intros [= <-]; by left|].
  destruct (negb _); [done|]. destruct (int_text o1) as [n|]; [|done]. cbv zeta.
  destruct (_ && (0 <? duration _ _ _)) eqn:Ed; [|done]. intros [= <-]. right. unfold maxInt. lia.
Qed.

(** The texts excluded: minus zero is taken for zero, and the least integer is refused. *)
Theorem odd_numbers : parseExpireInt (B "-0") = Some 0 /\ parseExpireInt (B "-9223372036854775808") = None.
Proof. split; vm_compute; reflexivity. Qed.

Section keyspace.
Context {Seed : Type} `{!GoType Seed} `{!Maphash Seed} {E : Type} `{!Env E}.

(** C11. The key commands.  On the cache, whatever the clock does and with the verb in
    any letter case: GET answers the value that is live at its reading of the clock, or
    the null of the dialect.  EXISTS counts the arguments, with repetitions, that are
    live at the reading made for each; DEL counts those that are live at theirs and not
    deleted by an earlier argument, and removes all of them; when no argument expires
    while the command runs, these are the live arguments, and the distinct live keys
    among them, at any of the readings.  TTL and PTTL answer at one reading of the
    clock -2 for a key that is not live, -1 for one without expiry, and otherwise the
    time left in whole milliseconds or in seconds rounded to nearest, provided that
    the key does not expire between the two readings they make.  Only DEL changes what
    is stored. *)
Theorem key_commands (cap : nat) (e0 : ioerr)
    (timeNow : Cache Seed * E -> Z * (Cache Seed * E)) (unicode_lower : bytes -> bytes) (ctx_text : Z -> bytes)
    (cfg : Config (Cache Seed * E)) (a : bytes) (c : conn) (g : Cache Seed * E) :
  wf_conn c -> cache_ok g ->
  let run := dispatch timeNow unicode_lower ctx_text cfg in
  let m := data g.1 in
  (forall k, asciiUpper a = B "GET" -> sends cap e0 (run [a; k]) (c, g) (fun _ fs st =>
     fs = [match live_value (first_reading g.2) m k with Some v => FBulk v | None => null_frame (cproto c) end] /\
     data st.2.1 = m)) /\
  (forall ks, asciiUpper a = B "EXISTS" -> (0 < length ks)%nat -> Z.of_nat (length ks) < 2 ^ 63 ->
     sends cap e0 (run (a :: ks)) (c, g) (fun _ fs st =>
       exists ts, readings g.2 ts /\ length ts = length ks /\
         fs = [FInt (Z.of_nat (live_count m (zip ks ts)))] /\ data st.2.1 = m /\
         forall t, (forall k t', k ∈ ks -> t' ∈ ts -> alive t' m k = alive t m k) ->
           fs = [FInt (Z.of_nat (length (filter (fun k => alive t m k = true) ks)))])) /\
  (forall ks, asciiUpper a = B "DEL" -> (0 < length ks)%nat -> Z.of_nat (length ks) < 2 ^ 63 ->
     sends cap e0 (run (a :: ks)) (c, g) (fun _ fs st =>
       exists ts, readings g.2 ts /\ length ts = length ks /\
         fs = [FInt (Z.of_nat (del_count m (zip ks ts)))] /\ data st.2.1 = without m ks /\
         forall t, (forall k t', k ∈ ks -> t' ∈ ts -> alive t' m k = alive t m k) ->
           fs = [FInt (Z.of_nat (size (live_set t m ks)))])) /\
  (forall k u, asciiUpper a = match u with ttlSeconds => B "TTL" | ttlMilliseconds => B "PTTL" end -> steady m g.2 k ->
     sends cap e0 (run [a; k]) (c, g) (fun _ fs st =>
       exists t, (t = first_reading g.2 \/ t = second_reading g.2) /\
         fs = [FInt (ttl_answer t m k u)] /\ data st.2.1 = m)).
Proof.
  intros Hc (I & T & V) run m.
  assert (forall ks, (0 < length ks)%nat -> arity_ok (MkCommand (G:=Cache Seed * E) [] 2 (-1) cmdQuit) (a :: ks) = true) as Har.
  { intros. unfold arity_ok. cbn [minArgs maxArgs]. apply negb_true_iff, orb_false_iff. split; [apply Z.ltb_ge; cbn [length]; lia|done]. }
  split_and!.
  - intros k Ha. apply get_command; [done..|].
    unfold live_value. destruct (data g.1 !! k) as [x|] eqn:Ex; cbn; [|done].
    destruct (live_at _ x); [exact (V k x Ex)|done].
  - intros ks Ha H0 Hl. eapply dispatch_verb; [rewrite Ha; reflexivity|by apply Har|]. cbn [handler].
    unfold cmdExists. apply sends_bind, sends_from; [cbn; lia|].
    eapply sends_mono; [|apply (exists_loop_at cap e0 ctx_text ks 0 c g I); lia].
    intros err fs st (ts & Hts & Hlen & -> & Hd). exists ts. split_and!; [done..|]. intros t Hst.
    by rewrite (live_count_steady t).
  - intros ks Ha H0 Hl. eapply dispatch_verb; [rewrite Ha; reflexivity|by apply Har|]. cbn [handler].
    unfold cmdDel. apply sends_bind, sends_from; [cbn; lia|].
    eapply sends_mono; [|apply (del_loop_at cap e0 ctx_text ks 0 c g I); lia].
    intros err fs st (ts & Hts & Hlen & -> & Hd). exists ts. split_and!; [done..|]. intros t Hst.
    by rewrite (del_count_steady t).
  - intros k u Ha Hst. destruct u; (eapply dispatch_verb; [rewrite Ha; reflexivity|done|]); cbn [handler];
      [unfold cmdTTL|unfold cmdPTTL]; apply sends_bind; (eapply sends_arg; [done|lia|]); by apply ttl_command.
Qed.
End keyspace.

(** ** Witnesses *)

(** The server's clock is the engine's, as in the program. *)
Definition cache_now (g : Cache Z * denv) : Z * (Cache Z * denv) := let '(t, e) := env_now g.2 in (t, (g.1, e)).

Definition demo_cfg : Config (Cache Z * denv) := defaults cache_now (MkConfig [] 0 0 0 [] None).

Lemma demo_now g : einv g -> einv (snd (default cache_now (Now demo_cfg) g)).
Proof. by destruct g. Qed.

Lemma demo_now_accepts g k v : accepts g k v -> accepts (snd (default cache_now (Now demo_cfg) g)) k v.
Proof. by destruct g. Qed.

Definition demo_conn : conn := MkConn (NewWriter (MkSink [] 1000 IoEOF)) 2 1.

Lemma demo_empty : einv (dcache 0 0, DEnv 100 0 1) /\ forall k v,
  Z.of_nat (length k) + Z.of_nat (length v) < 2 ^ 62 -> accepts (dcache 0 0, DEnv 100 0 1) k v.
Proof.
  destruct (dcache_ok 0 0) as (I & T & D & _). split; [split_and!; cbn; [done..|by rewrite D]|].
  intros k v Hl. split; cbn; [apply roomyb_ok; vm_compute; reflexivity|rewrite D; by apply dcache_fits].
Qed.

Lemma dispatch_one_reply_witness :
  exists stop c' g' fs, dispatch cache_now (fun b => b) (fun _ => []) demo_cfg
      [B "set"; B "key"; CRLF ++ B "+OK" ++ CRLF; B "px"; B "1500"] (demo_conn, (dcache 0 0, DEnv 100 0 1)) = Ret (stop, (c', g')) /\
    emitted 1000 IoEOF (cw c') (wire fs) /\ one_reply fs.
Proof.
  destruct (dispatch_one_reply 1000 IoEOF cache_now (fun b => b) (fun _ => []) demo_cfg
    [B "set"; B "key"; CRLF ++ B "+OK" ++ CRLF; B "px"; B "1500"] demo_conn (dcache 0 0, DEnv 100 0 1) [])
    as (stop & c' & g' & fs & E & Ho & H1 & _).
  - exact demo_now.
  - exact demo_now_accepts.
  - done.
  - split; cbn; lia.
  - apply demo_empty.
  - repeat constructor; done.
  - done.
  - intros a0 k v rest [= <- <- <- <-] _. apply demo_empty. cbn. lia.
  - apply emitted_new.
  - exists stop, c', g', fs. split; [exact E|split; [exact Ho|exact H1]].
Defined.

Lemma set_expiry_exact_witness : exists g1,
  parseSetExpiry cache_now demo_cfg [B "pXaT"; B "5"] (demo_conn, (dcache 0 0, DEnv 62135596800000000100 0 1)) =
    Ret (inl 4999900, (demo_conn, g1)).
Proof.
  destruct (set_expiry_exact cache_now demo_cfg [B "pXaT"; B "5"] demo_conn (dcache 0 0, DEnv 62135596800000000100 0 1)
    (dcache 0 0, DEnv 62135596800000000100 0 1) 62135596800000000100 eq_refl) as [(g1 & E & _) _].
  { intros o [= <-]. intros [H|H]; discriminate H. }
  exists g1. rewrite E. vm_compute. reflexivity.
Defined.

Lemma dcache1_ok : cache_ok (dcache1 0 0 0, DEnv 120 0 1).
Proof.
  assert (cinv (dcache1 0 0 0) /\ tuned (dcache1 0 0 0)) as [I T] by (apply dcache1_inv; vm_compute; reflexivity).
  split_and!; [exact I|exact T|]. apply map_Forall_to_list.
  assert (map_to_list (data (dcache1 0 0 0)) = [(B "key", MkEntry (B "value") 150)]) as E by (vm_compute; reflexivity).
  cbn [fst]. rewrite E. repeat constructor; done.
Qed.

(** TTL reads the clock twice.  A key that expires between the two readings is
    answered with -1, the answer for a key without expiry. *)
Theorem expiring_key_reported_persistent :
  data (dcache1 0 0 0) !! B "key" = Some (MkEntry (B "value") 150) /\
  (r ← dispatch cache_now (fun b => b) (fun _ => []) demo_cfg [B "PTTL"; B "key"] (demo_conn, (dcache1 0 0 0, DEnv 149 2 1));
   Ret (r.1, accepted (wsink (bw (fst (Flush (cw r.2.1))))))) = Ret (false, B ":-1" ++ CRLF).
Proof. split; vm_compute; reflexivity. Qed.

Lemma key_commands_witness :
  sends 1000 IoEOF (dispatch cache_now (fun b => b) (fun _ => []) demo_cfg [B "pTTL"; B "key"])
    (demo_conn, (dcache1 0 0 0, DEnv 120 7 1)) (fun _ fs _ => fs = [FInt 0]) /\
  sends 1000 IoEOF (dispatch cache_now (fun b => b) (fun _ => []) demo_cfg [B "pTTL"; B "other"])
    (demo_conn, (dcache1 0 0 0, DEnv 120 7 1)) (fun _ fs _ => fs = [FInt (-2)]).
Proof.
  destruct (key_commands 1000 IoEOF cache_now (fun b => b) (fun _ => []) demo_cfg (B "pTTL") demo_conn
    (dcache1 0 0 0, DEnv 120 7 1)) as (_ & _ & _ & Ht).
  - split; cbn; lia.
  - exact dcache1_ok.
  - assert (data (dcache1 0 0 0) !! B "key" = Some (MkEntry (B "value") 150)) as E by (vm_compute; reflexivity).
    assert (data (dcache1 0 0 0) !! B "other" = None) as E' by (vm_compute; reflexivity). split.
    + eapply sends_mono; [|apply (Ht (B "key") ttlMilliseconds); [reflexivity|]].
      * intros a fs st (t & Hr & -> & _). cbn [fst snd]. unfold ttl_answer. rewrite E.
        destruct Hr as [->| ->]; vm_compute; reflexivity.
      * intros x Hx _. cbn [fst snd] in Hx. rewrite E in Hx. injection Hx as <-. vm_compute. reflexivity.
    + eapply sends_mono; [|apply (Ht (B "other") ttlMilliseconds); [reflexivity|]].
      * intros a fs st (t & Hr & -> & _). cbn [fst snd]. unfold ttl_answer. rewrite E'. reflexivity.
      * intros x Hx _. cbn [fst snd] in Hx. rewrite E' in Hx. discriminate Hx.
Defined.
