(* ===== verification/Session.v ===== *)
(** * One connection ([internal/server/conn.go])

    [classify] and the loop of [serveConn], which reads a command, dispatches it and
    flushes the reply until the client quits, an error ends the connection or the
    server shuts down; and [newConn] and [rejectConn] of [server.go].

    The loop runs over any byte source; the socket's reads, deadlines included, are
    the source's data and final error.  [shut i] is what the [i]-th test of
    [inShutdown] sees.  The [active] flag belongs to the server's lifecycle. *)
From S2P Require Import Prelude Hash Resp Writer Cache Server.

Inductive readOutcome : Type := outcomeDispatch | outcomeCloseSilent | outcomeProtocolError (k : ErrKind).

Definition classify (err : option rderr) : readOutcome :=
  match err with
  | None => outcomeDispatch
  | Some (RdIO IoEOF) => outcomeCloseSilent
  | Some (RdIO IoUnexpectedEOF) => outcomeCloseSilent
  | Some (RdProto k) => outcomeProtocolError k
  | Some (RdIO _) => outcomeCloseSilent
  end.

(** The limits and buffer of [resp.NewReader] without options. *)
Definition reader_config : rconfig := resolveConfig [].

Definition newConn (k : netsink) (id : Z) : conn := MkConn (NewWriter k) 2 id.

(** [w.Flush()] *)
Definition flush {G} : srvM G (option ioerr) := fun '(c, g) =>
  let '(w, e) := Flush (cw c) in Ret (e, (set_w c w, g)).

Section Session.
Context {G : Type} `{!Engine G} {S : Type} `{!Source S}.
Context (timeNow : G -> Z * G) (unicode_lower : bytes -> bytes) (ctx_text : Z -> bytes) (cfg : Config G).
Context (lim : Limits) (shut : nat -> bool).

(** The result is the connection, the engine and the source when the loop returned. *)
Fixpoint serveConn (fuel i : nat) (s : S) (st : conn * G) : outcome ((conn * G) * S) :=
  match fuel with
  | O => Diverge
  | Datatypes.S fuel =>
      if shut i then Ret (st, s)
      else
        r ← ReadCommand lim s;
        match r with
        | (inr e, s') =>
            match classify (Some e) with
            | outcomeProtocolError k =>
                a ← wr (fun w => WriteError w (B "ERR Protocol error: " ++ kind_message k)) st;
                b ← flush a.2;
                Ret (b.2, s')
            | _ => Ret (st, s')
            end
        | (inl args, s') =>
            a ← dispatch timeNow unicode_lower ctx_text cfg args st;
            let '(stop, st1) := a in
            b ← flush st1;
            let '(err, st2) := b in
            if (stop : bool) then Ret (st2, s')
            else match err with
                 | Some _ => Ret (st2, s')
                 | None => serveConn fuel (Datatypes.S i) s' st2
                 end
        end
  end.
End Session.

(** The polite refusal past the connection limit. *)
Definition rejectConn (k : netsink) : outcome netsink :=
  w ← WriteError (NewWriter k) (B "ERR max number of clients reached");
  Ret (wsink (bw (fst (Flush w)))).
