(* ===== verification/SessionSpec.v ===== *)
(** * What a connection delivers

    End to end: the bytes a client sends, in whatever pieces, become commands; every
    command gets one reply, in order; and what the client receives is exactly those
    replies up to the point where its socket fails. *)
From S2P Require Import Prelude Hash Resp RespSpec Writer WriterSpec Replies Cache Server ServerSpec Session.

(** ** The commands in a byte stream *)
Inductive parses (lim : Limits) : stream -> list (list bytes) -> rderr -> Prop :=
| parses_end s e s' : ReadCommand lim s = Ret (inr e, s') -> parses lim s [] e
| parses_more s args s' cmds e : ReadCommand lim s = Ret (inl args, s') -> parses lim s' cmds e ->
    parses lim s (args :: cmds) e.

Lemma header_total (s : stream) b : exists r s', readHeaderLine s b = Ret (r, s').
Proof.
  unfold readHeaderLine. cbn [ReadSlice stream_source mbind outcome_bind].
  destruct (s_ReadSlice s) as [[line [[]|]] s1]; eauto. destruct (_ && _); eauto.
Qed.

Lemma exact_total (s : stream) n : exists r s', read_exact s n = Ret (r, s').
Proof. unfold read_exact. cbn. destruct (s_ReadFull s n) as [[] ?]; eauto. Qed.

Lemma bulk_total lim (s : stream) : sane lim -> exists r s', readBulkArg lim s = Ret (r, s').
Proof.
  intros [Hl _]. unfold readBulkArg. destruct (header_total s false) as (h & s1 & ->). cbn [mbind outcome_bind].
  destruct h as [h|e]; [|eauto]. destruct (negb _); [eauto|]. destruct (parseInt (tail h)) as [n|]; [|eauto].
  go_case; [eauto|]. go_case; [lia|]. destruct (exact_total s1 (Z.to_nat n)) as (p & s2 & ->). cbn [mbind outcome_bind].
  destruct p as [p|e]; [|eauto]. destruct (exact_total s2 2) as (t & s3 & ->). cbn [mbind outcome_bind].
  destruct t; [|eauto]. destruct (bool_decide _); eauto.
Qed.

Lemma args_total lim n : sane lim -> forall s : stream, exists r s', readArgs lim n s = Ret (r, s').
Proof.
  intros Hl. induction n as [|n IH]; intros s; cbn [readArgs]; [eauto|].
  destruct (bulk_total lim s Hl) as (a & s1 & ->). cbn [mbind outcome_bind]. destruct a as [a|e]; [|eauto].
  destruct (IH s1) as (r & s2 & ->). cbn [mbind outcome_bind]. destruct r; eauto.
Qed.

(** No input makes the reader panic or hang. *)
Lemma command_total lim (s : stream) : sane lim -> exists r s', ReadCommand lim s = Ret (r, s').
Proof.
  intros Hl. unfold ReadCommand. destruct (header_total s true) as (h & s1 & ->). cbn [mbind outcome_bind].
  destruct h as [h|e]; [|eauto]. destruct (negb _); [eauto|]. destruct (parseInt (tail h)) as [n|]; [|eauto].
  destruct Hl as [Hb Hm]. go_case; [eauto|]. go_case; [lia|]. by apply args_total.
Qed.

Lemma encode_command_pos args : (0 < length (encode_command args))%nat.
Proof. unfold encode_command, encode_header. rewrite !length_app. cbn [length]. lia. Qed.

(** Every input is a sequence of commands and an error that ends it. *)
Lemma parses_exist lim : sane lim -> forall s, exists cmds e, parses lim s cmds e /\
  (length cmds <= length (sdata s))%nat.
Proof.
  intros Hl s. remember (length (sdata s)) as n eqn:En. revert s En.
  induction (lt_wf n) as [n _ IH]. intros s ->.
  destruct (command_total lim s Hl) as ([args|e] & s' & E).
  - pose proof (command_inv lim s args s' E) as (D & _). pose proof (encode_command_pos args) as Hp.
    assert (length (sdata s) = length (encode_command args) + length (sdata s'))%nat as El
      by (rewrite D at 1; apply length_app).
    destruct (IH (length (sdata s')) ltac:(lia) s' eq_refl) as (cmds & e & Hc & Hn).
    exists (args :: cmds), e. split; [by econstructor|]. cbn. lia.
  - exists [], e. split; [by econstructor|cbn; lia].
Qed.

Lemma parses_data lim s cmds e : parses lim s cmds e ->
  exists tail, sdata s = concat (encode_command <$> cmds) ++ tail /\ Forall (within lim) cmds.
Proof.
  induction 1 as [s e s' E|s args s' cmds e E _ (tl & Ht & Hw)]; [by exists (sdata s)|].
  apply command_inv in E as (D & W & _). exists tl. split; [|by constructor].
  cbn [fmap list_fmap concat]. by rewrite <- app_assoc, <- Ht.
Qed.

Lemma parses_short lim s cmds e : parses lim s cmds e -> (length cmds < S (length (sdata s)))%nat.
Proof.
  induction 1 as [s e s' E|s args s' cmds e E _ IH]; [cbn; lia|].
  apply command_inv in E as (D & _). pose proof (encode_command_pos args).
  rewrite D, length_app. cbn. lia.
Qed.

(** ** The loop over a buffered reader is the loop over its stream *)
Section sim.
Context {G : Type} `{!Engine G}.
Context (timeNow : G -> Z * G) (unicode_lower : bytes -> bytes) (ctx_text : Z -> bytes) (cfg : Config G).
Context (lim : Limits) (shut : nat -> bool).

Lemma serve_sim fuel : forall i b s st, carries b s ->
  agree carries (serveConn timeNow unicode_lower ctx_text cfg lim shut fuel i b st)
    (serveConn timeNow unicode_lower ctx_text cfg lim shut fuel i s st).
Proof.
  induction fuel as [|fuel IH]; intros i b s st Hc; cbn [serveConn]; [done|].
  destruct (shut i); [done|]. apply agree_bind; [by apply command_sim|].
  intros [args|e] b1 s1 Hc1.
  - destruct (dispatch _ _ _ _ args st) as [[stop st1]| |]; cbn [mbind outcome_bind]; [|done..].
    destruct (flush st1) as [[err st2]| |]; cbn [mbind outcome_bind]; [|done..].
    destruct stop; [done|]. destruct err; [done|]. by apply IH.
  - destruct (classify (Some e)); [done..|]. destruct (wr _ st) as [a| |]; cbn [mbind outcome_bind]; [|done..].
    by destruct (flush a.2).
Qed.
End sim.

(** ** One reply per command *)

(** The commands that are answered: up to the first QUIT, the empty ones left out. *)
Fixpoint served (cmds : list (list bytes)) : list (list bytes) :=
  match cmds with
  | [] => []
  | args :: cmds => if quits args then [args] else args :: served cmds
  end.

Definition nonempty (args : list bytes) : bool := negb (bool_decide (args = [])).

(** The text of the protocol error that ends an input, if one does. *)
Definition protocol_error (e : rderr) : option bytes :=
  match e with RdProto k => Some (kind_message k) | RdIO _ => None end.

Definition protocol_frame (msg : bytes) : Frame := FError (B "ERR Protocol error: " ++ msg).

(** The replies owed for an input: one for each of them, and one for a protocol
    error unless the client quit before it. *)
Definition owed_replies (cmds : list (list bytes)) (e : option bytes) : nat :=
  length (filter nonempty (served cmds)) +
  match e with
  | Some _ => if existsb quits cmds then 0 else 1
  | None => 0
  end.

Lemma owed_cons args cmds e : args <> [] ->
  owed_replies (args :: cmds) e = S (if quits args then 0 else owed_replies cmds e).
Proof.
  intros Hne. unfold owed_replies. cbn [served existsb].
  assert (nonempty args = true) as Hn by (unfold nonempty; by rewrite bool_decide_eq_false_2).
  destruct (quits args); cbn [orb]; rewrite filter_cons_True by (by rewrite Hn); [by destruct e|done].
Qed.

(** ** Which reply answers which command *)

(** The states are a connection with its engine; [out] is what the connection has been
    given so far, and the socket behind it takes [cap] bytes. *)
Section answers.
Context {G : Type} `{!Engine G} (cap : nat) (e0 : ioerr).
Context (timeNow : G -> Z * G) (unicode_lower : bytes -> bytes) (ctx_text : Z -> bytes) (cfg : Config G).
Local Abbreviation dispatch := (dispatch timeNow unicode_lower ctx_text cfg).

(** The commands are dispatched one by one, in order, each in the state the one before
    it left; what [dispatch] wrote for a command is one reply, and it is the reply
    listed for it.  Empty commands are skipped, and the connection may be flushed at
    any point between two commands. *)
Inductive dispatched : conn * G -> bytes -> list (list bytes) -> list (list Frame) -> conn * G -> Prop :=
| disp_nil st out : dispatched st out [] [] st
| disp_flush st out err st1 cmds rs st' : flush st = Ret (err, st1) ->
    dispatched st1 out cmds rs st' -> dispatched st out cmds rs st'
| disp_empty st out cmds rs st' : dispatched st out cmds rs st' -> dispatched st out ([] :: cmds) rs st'
| disp_cons st out args st1 fs cmds rs st' : args <> [] -> quits args = false ->
    dispatch args st = Ret (false, st1) -> one_reply fs -> emitted cap e0 (cw st1.1) (out ++ wire fs) ->
    dispatched st1 (out ++ wire fs) cmds rs st' -> dispatched st out (args :: cmds) (fs :: rs) st'.

(** How it ends, with these commands left: nothing is left; the reply to a command that
    makes [dispatch] close the connection, which is QUIT or one whose reply the socket
    did not take; the protocol error, with its text; or a socket that has failed. *)
Inductive ends : conn * G -> bytes -> list (list bytes) -> option bytes -> list (list Frame) -> conn * G -> Prop :=
| end_input st out : ends st out [] None [] st
| end_close st out args st1 fs cmds e : args <> [] -> dispatch args st = Ret (true, st1) -> one_reply fs ->
    emitted cap e0 (cw st1.1) (out ++ wire fs) -> quits args = true \/ (cap < length (out ++ wire fs))%nat ->
    ends st out (args :: cmds) e [fs] st1
| end_error st out msg a : wr (G:=G) (fun w => WriteError w (B "ERR Protocol error: " ++ msg)) st = Ret a ->
    one_reply [protocol_frame msg] -> emitted cap e0 (cw a.2.1) (out ++ wire [protocol_frame msg]) ->
    ends st out [] (Some msg) [[protocol_frame msg]] a.2
| end_failed st out cmds e : (cap < length out)%nat -> ends st out cmds e [] st.

(** The replies to an input: those of the commands dispatched, and the last one. *)
Inductive answered (st : conn * G) (out : bytes) (cmds : list (list bytes)) (e : option bytes)
    (rs : list (list Frame)) (st' : conn * G) : Prop :=
| answered_intro cmds1 cmds2 rs1 rs2 st1 : cmds = cmds1 ++ cmds2 -> rs = rs1 ++ rs2 ->
    dispatched st out cmds1 rs1 st1 -> ends st1 (out ++ wire (concat rs1)) cmds2 e rs2 st' ->
    answered st out cmds e rs st'.

(** A flush may follow. *)
Definition answers (st : conn * G) (out : bytes) (cmds : list (list bytes)) (e : option bytes)
    (rs : list (list Frame)) (st' : conn * G) : Prop :=
  exists st2, answered st out cmds e rs st2 /\ (st' = st2 \/ exists err, flush st2 = Ret (err, st')).

Lemma answered_ends st out cmds e rs st' : ends st out cmds e rs st' -> answered st out cmds e rs st'.
Proof.
  intros He. apply (answered_intro _ _ _ _ _ _ [] cmds [] rs st); [done..|apply disp_nil|]. cbn. by rewrite app_nil_r.
Qed.

Lemma dispatched_app st out cmds1 rs1 st1 cmds2 rs2 st2 : dispatched st out cmds1 rs1 st1 ->
  dispatched st1 (out ++ wire (concat rs1)) cmds2 rs2 st2 -> dispatched st out (cmds1 ++ cmds2) (rs1 ++ rs2) st2.
Proof.
  induction 1 as [st out|st out err st1 cmds rs st' E _ IH|st out cmds rs st' _ IH|st out args st1 fs cmds rs st' Hne Hq E Hr Ho _ IH];
    cbn [app concat].
  - by rewrite app_nil_r.
  - intros H. eapply disp_flush; [done|]. by apply IH.
  - intros H. apply disp_empty. by apply IH.
  - rewrite wire_app, app_assoc. intros H. eapply disp_cons; try done. by apply IH.
Qed.

Lemma dispatched_replies st out cmds rs st' : dispatched st out cmds rs st' -> Forall one_reply rs /\
  existsb quits cmds = false /\ length rs = owed_replies cmds None.
Proof.
  induction 1 as [| |st out cmds rs st' _ IH|st out args st1 fs cmds rs st' Hne Hq E Hr Ho _ (Hf & He & Hl)]; [done..| |].
  - done.
  - split; [by constructor|]. cbn [existsb]. rewrite Hq. split; [done|]. rewrite owed_cons, Hq by done. cbn. by rewrite Hl.
Qed.

Lemma owed_split a b e : existsb quits a = false ->
  owed_replies (a ++ b) e = (owed_replies a None + owed_replies b e)%nat.
Proof.
  induction a as [|args a IH]; intros Hq; [done|]. cbn [existsb] in Hq. apply orb_false_iff in Hq as [Hq1 Hq2].
  cbn [app]. destruct (decide (args = [])) as [->|Hne]; [by apply IH|].
  rewrite !owed_cons, Hq1, IH by done. done.
Qed.

Lemma answered_app st out cmds1 rs1 st1 cmds e rs st' : dispatched st out cmds1 rs1 st1 ->
  answered st1 (out ++ wire (concat rs1)) cmds e rs st' -> answered st out (cmds1 ++ cmds) e (rs1 ++ rs) st'.
Proof.
  intros Hd [cmds2 cmds3 rs2 rs3 st2 -> -> Hd2 He].
  econstructor; [apply app_assoc|apply app_assoc|by eapply dispatched_app|]. by rewrite concat_app, wire_app, app_assoc.
Qed.

(** Every command is owed one reply and gets no other; one that got none comes behind
    a failed socket. *)
Lemma answers_replies st out cmds e rs st' : answers st out cmds e rs st' -> Forall one_reply rs /\
  (length rs = owed_replies cmds e \/
   (length rs <= owed_replies cmds e)%nat /\ (cap < length (out ++ wire (concat rs)))%nat).
Proof.
  intros (st2 & [cmds1 cmds2 rs1 rs2 st1 -> -> (Hr1 & Hq & Hl)%dispatched_replies He] & _).
  rewrite owed_split, concat_app, wire_app, app_assoc, length_app, <- Hl by done.
  destruct He as [sa o1|sa o1 args sb fs cmds3 e Hne E Hr Ho Hc|sa o1 msg a E Hr Ho|sa o1 cmds3 e Hc].
  - split; [by rewrite app_nil_r|left; done].
  - split; [apply Forall_app; split; [done|by constructor]|]. rewrite owed_cons by done. cbn [length concat]. rewrite app_nil_r.
    destruct Hc as [->|Hc]; [by left|right; split; [lia|done]].
  - split; [apply Forall_app; split; [done|by constructor]|]. by left.
  - split; [by rewrite app_nil_r|right]. cbn. rewrite app_nil_r. split; [lia|done].
Qed.
End answers.

Section session.
Context {G : Type} `{!Engine G} `{!EngineLaws G} (cap : nat) (e0 : ioerr).
Context (timeNow : G -> Z * G) (unicode_lower : bytes -> bytes) (ctx_text : Z -> bytes) (cfg : Config G).
Hypothesis now_inv : forall g, einv g -> einv (snd (default timeNow (Now cfg) g)).
Hypothesis now_accepts : forall g k v, accepts g k v -> accepts (snd (default timeNow (Now cfg) g)) k v.
Hypothesis version_len : in_i64 (Z.of_nat (length (Version cfg))).
Context (lim : Limits).
Hypothesis lim_sane : sane lim.

(** Every write the client asks for finds room in the engine. *)
Fixpoint admissible (st : conn * G) (cmds : list (list bytes)) : Prop :=
  match cmds with
  | [] => True
  | args :: cmds => admits st.2 args /\
      forall stop st1 err st2, dispatch timeNow unicode_lower ctx_text cfg args st = Ret (stop, st1) ->
        flush st1 = Ret (err, st2) -> admissible st2 cmds
  end.

(** A client that does not write needs no room. *)
Lemma admissible_reads cmds : Forall (fun args => asciiUpper <$> head args <> Some (B "SET")) cmds ->
  forall st, admissible st cmds.
Proof.
  induction 1 as [|args cmds Hs _ IH]; intros st; cbn; [done|]. split; [|intros; by apply IH].
  intros a0 k v rest -> Ha. cbn in Hs. by rewrite Ha in Hs.
Qed.

(** Between two rounds: everything written so far has been delivered. *)
Record between (st : conn * G) (out : bytes) : Prop := {
  bt_emitted : emitted cap e0 (cw st.1) out;
  bt_flushed : accepted (wsink (bw (cw st.1))) = take cap out;
  bt_conn : wf_conn st.1;
  bt_engine : einv st.2;
}.

Lemma flush_between st out : emitted cap e0 (cw st.1) out -> wf_conn st.1 -> einv st.2 ->
  exists err st', flush st = Ret (err, st') /\ between st' out /\ st'.2 = st.2 /\
    err = (if (cap <? length out)%nat then Some e0 else None).
Proof.
  destruct st as [c g]. cbn. intros Ho [Hc Hp] Hg. unfold flush.
  destruct (Flush_ok cap e0 (cw c) out Ho) as (w' & err & Ef & Ho' & _ & Ha & He). rewrite Ef.
  eexists _, _. split; [done|]. split_and!; [|done|done]. split; [done|done| |done]. split; cbn; [|done].
  rewrite <- Hc. unfold Flush in Ef. destruct (werr (cw c)); injection Ef as <- _; done.
Qed.

Lemma within_small args : within lim args -> Forall (fun a => in_i64 (Z.of_nat (length a))) args.
Proof.
  intros [_ Hw]. eapply Forall_impl; [done|]. intros a Ha. destruct lim_sane as [Hb _].
  unfold in_i64, maxAlloc in *. cbn in Ha. lia.
Qed.

(** What the loop did: the replies it sent, and what for. *)
Definition session_end (st : conn * G) (out : bytes) cmds e (st' : conn * G) : Prop :=
  exists replies, answers cap e0 timeNow unicode_lower ctx_text cfg st out cmds e replies st' /\
    between st' (out ++ wire (concat replies)).

(** The end of a session. *)
Lemma session_ends st out cmds e rs st1 st' : ends cap e0 timeNow unicode_lower ctx_text cfg st out cmds e rs st1 ->
  st' = st1 \/ (exists err, flush st1 = Ret (err, st')) -> between st' (out ++ wire (concat rs)) -> session_end st out cmds e st'.
Proof.
  intros He Ef Hb. exists rs. split; [|done]. exists st1. split; [by apply answered_ends|done].
Qed.

(** One command more in front of it. *)
Lemma session_more st out cmds1 rs1 st1 cmds e st' : dispatched cap e0 timeNow unicode_lower ctx_text cfg st out cmds1 rs1 st1 ->
  session_end st1 (out ++ wire (concat rs1)) cmds e st' -> session_end st out (cmds1 ++ cmds) e st'.
Proof.
  intros Hd (rs & (st2 & Ha & Ef) & Hb). exists (rs1 ++ rs).
  rewrite <- app_assoc, <- wire_app, <- concat_app in Hb. split; [|done].
  exists st2. split; [by eapply answered_app|done].
Qed.

(** The last reply, to malformed input. *)
Lemma protocol_reply msg st out : LF ∉ msg -> emitted cap e0 (cw st.1) out -> wf_conn st.1 -> einv st.2 ->
  exists a, wr (G:=G) (fun w => WriteError w (B "ERR Protocol error: " ++ msg)) st = Ret a /\
    ends cap e0 timeNow unicode_lower ctx_text cfg st out [] (Some msg) [[protocol_frame msg]] a.2 /\
    emitted cap e0 (cw a.2.1) (out ++ wire [protocol_frame msg]) /\ wf_conn a.2.1 /\ einv a.2.2.
Proof.
  intros Hm Ho [Hc Hp] Hg. destruct st as [c g].
  assert (one_reply [protocol_frame msg]) as Hr.
  { split; [done|]. constructor; [|constructor]. apply bool_decide_eq_true, not_elem_of_app. split; [no_LF|done]. }
  destruct (sends_wr cap e0 (CError (B "ERR Protocol error: " ++ msg)) (protocol_frame msg) c g
    (fun _ fs st' => fs = [protocol_frame msg] /\ wf_conn st'.1 /\ einv st'.2)) with (out := out)
    as (err & st1 & fs & E & Ho1 & -> & Hc1 & Hg1); [done|done| |done|].
  { intros w' Hw. split_and!; [done| |done]. split; cbn; [by rewrite Hw|done]. }
  exists (err, st1). split_and!; try done. by apply (end_error _ _ _ _ _ _ _ _ _ (err, st1)).
Qed.

(** One round that found a command. *)
Lemma round_ok args st out : args <> [] -> between st out -> within lim args -> admits st.2 args ->
  exists stop st1 fs err st2, dispatch timeNow unicode_lower ctx_text cfg args st = Ret (stop, st1) /\
    emitted cap e0 (cw st1.1) (out ++ wire fs) /\
    flush st1 = Ret (err, st2) /\ one_reply fs /\ between st2 (out ++ wire fs) /\
    err = (if (cap <? length (out ++ wire fs))%nat then Some e0 else None) /\
    (quits args = true -> stop = true) /\
    (stop = true -> quits args = true \/ (cap < length (out ++ wire fs))%nat).
Proof.
  intros Hne [Ho Hf Hc Hg] Hw Ha. destruct st as [c g].
  destruct (dispatch_ok cap e0 timeNow unicode_lower ctx_text cfg now_inv now_accepts version_len args c g
    Hc Hg (within_small args Hw) Hne Ha out Ho) as (stop & st1 & fs & E & Ho1 & (Hr & Hc1 & _ & Hg1 & _ & Hq & Hs)).
  destruct (flush_between st1 _ Ho1 Hc1 Hg1) as (err & st2 & E2 & Hb2 & _ & He).
  exists stop, st1, fs, err, st2. split_and!; try done. intros Hst. destruct (Hs Hst) as [?|[e Hwe]]; [by left|right].
  destruct Ho1 as [Hw1 (_ & _ & Hd)]. unfold delivered in Hd. rewrite <- Hw1, Hwe in Hd. apply Hd.
Qed.

Lemma serve_ok shut s cmds e : parses lim s cmds e -> (forall i, shut i = false) -> forall fuel i st out,
  (length cmds < fuel)%nat -> between st out -> admissible st cmds ->
  exists st' s', serveConn timeNow unicode_lower ctx_text cfg lim shut fuel i s st = Ret (st', s') /\
    session_end st out cmds (protocol_error e) st'.
Proof.
  intros Hp Hshut. induction Hp as [s e s' E|s args s' cmds e E Hp IH]; intros fuel i st out Hf Hb Hadm;
    (destruct fuel as [|fuel]; [cbn in Hf; lia|]); cbn [serveConn]; rewrite Hshut, E; cbn [mbind outcome_bind].
  - destruct e as [x|k]; cbn [classify protocol_error].
    + assert (session_end st out [] None st) as Hend.
      { eapply session_ends; [apply end_input|by left|by rewrite app_nil_r]. }
      destruct x; eexists _, _; split; done.
    + destruct (protocol_reply (kind_message k) st out) as (a & Ea & He & Ho & Hc & Hg); [destruct k; no_LF|apply Hb..|].
      destruct (flush_between a.2 _ Ho Hc Hg) as (err & st2 & E2 & Hb2 & _).
      rewrite Ea. cbn [mbind outcome_bind]. rewrite E2. eexists _, _. split; [done|]. eapply session_ends; [done|by eauto|cbn [concat]; by rewrite app_nil_r].
  - destruct (command_inv lim s args s' E) as (_ & Hw & _). destruct Hadm as [Ha Hnext].
    destruct (decide (args = [])) as [->|Hne].
    { destruct (flush_between st out) as (err & st2 & E2 & Hb2 & _ & He); [apply Hb..|].
      destruct st as [c g]. cbn [dispatch mret srvM_ret mbind outcome_bind]. rewrite E2. cbn [mbind outcome_bind].
      destruct err as [x|].
      - eexists _, _. split; [done|]. eapply session_ends; [apply end_failed|by eauto|by rewrite app_nil_r].
        destruct (Nat.ltb_spec cap (length out)); done.
      - destruct (IH fuel (S i) st2 out) as (st' & s'' & Es & Hend); [cbn in Hf; lia|done|by eapply Hnext|].
        exists st', s''. split; [done|]. apply (session_more _ _ [[]] [] st2); [|by rewrite app_nil_r].
        eapply disp_flush; [done|]. apply disp_empty, disp_nil. }
    destruct (round_ok args st out Hne Hb Hw Ha) as (stop & st1 & fs & err & st2 & E1 & Ho1 & E2 & Hr & Hb2 & He & Hq & Hs).
    rewrite E1. cbn [mbind outcome_bind]. rewrite E2. cbn [mbind outcome_bind].
    assert (wire (concat [fs]) = wire fs) as Hfs by (cbn; by rewrite app_nil_r).
    destruct stop.
    { eexists _, _. split; [done|]. eapply session_ends; [by eapply end_close, Hs|by eauto|by rewrite Hfs]. }
    destruct (quits args) eqn:Eq; [by specialize (Hq eq_refl)|].
    assert (dispatched cap e0 timeNow unicode_lower ctx_text cfg st out [args] [fs] st2) as Hd.
    { eapply disp_cons; try done. eapply disp_flush; [done|apply disp_nil]. }
    destruct err as [x|].
    + eexists _, _. split; [done|]. apply (session_more _ _ [args] [fs] st1); [by eapply disp_cons; [..|apply disp_nil]|].
      rewrite Hfs. eapply session_ends; [apply end_failed|by eauto|by rewrite app_nil_r].
      destruct (Nat.ltb_spec cap (length (out ++ wire fs))); done.
    + destruct (IH fuel (S i) st2 (out ++ wire fs)) as (st' & s'' & Es & Hend); [cbn in Hf; lia|done|by eapply Hnext|].
      exists st', s''. split; [done|]. apply (session_more _ _ [args] [fs] st2); [done|by rewrite Hfs].
Qed.
End session.
