(* ===== verification/SessionProps.v ===== *)
(** * Whole connections: theorems *)
From S2P Require Import Prelude Hash Table TableSpec ShardMap ShardMapSpec Policy.
From S2P Require Import Cache CacheSpec CacheOps CacheProps.
From S2P Require Import Resp RespSpec Writer WriterSpec Replies Server ServerSpec ServerCache ServerProps.
From S2P Require Import Session SessionSpec.

(** The stream a fresh connection's reader carries. *)
Definition input_stream (ps : list bytes) (fin : ioerr) : stream :=
  MkStream (mjoin ps) fin (Nat.max 16 (Z.to_nat (bufferSize reader_config))).

Lemma reader_sane : sane (limits reader_config).
Proof. vm_compute. split; discriminate. Qed.

(** C1. A connection, end to end.  A client sends any bytes in any pieces, its socket
    takes [cap] bytes of answers, and the server does not shut down meanwhile (the
    flag of [inShutdown] stays false).  The input always splits into commands and
    the error that ends it, and the loop of [serveConn] over the buffered reader
    returns after at most one round per byte and one more.  The replies [answers] the
    commands: each non-empty command is dispatched once, in order, in the state the
    one before it left, and the reply listed for it is what [dispatch] wrote for it,
    up to the first QUIT; a protocol error is answered last, by the error frame with
    its text; commands go unanswered only behind a reply the socket did not take.
    What the client received are the first [cap] bytes of these replies, from which
    a parsing client recovers their whole frames. *)
Theorem session_replies {G : Type} `{!Engine G} `{!EngineLaws G} (cap : nat) (e0 : ioerr)
    (timeNow : G -> Z * G) (unicode_lower : bytes -> bytes) (ctx_text : Z -> bytes) (cfg : Config G)
    (ps : list bytes) (fin : ioerr) (id : Z) (g : G) (cmds : list (list bytes)) (e : rderr) :
  let c0 := newConn (MkSink [] cap e0) id in
  let lim := limits reader_config in
  (forall g, einv g -> einv (snd (default timeNow (Now cfg) g))) ->
  (forall g k v, accepts g k v -> accepts (snd (default timeNow (Now cfg) g)) k v) ->
  in_i64 (Z.of_nat (length (Version cfg))) ->
  Forall (fun p => p <> []) ps -> einv g ->
  parses lim (input_stream ps fin) cmds e ->
  admissible timeNow unicode_lower ctx_text cfg (c0, g) cmds ->
  (forall s, exists cmds' e', parses lim s cmds' e') /\
  (exists tail, mjoin ps = concat (encode_command <$> cmds) ++ tail) /\
  exists st' b' replies,
    serveConn timeNow unicode_lower ctx_text cfg lim (fun _ => false) (S (length (mjoin ps))) 0
      (NewReader (MkNet ps fin) reader_config) (c0, g) = Ret (st', b') /\
    answers cap e0 timeNow unicode_lower ctx_text cfg (c0, g) [] cmds (protocol_error e) replies st' /\
    Forall one_reply replies /\ einv st'.2 /\
    let received := accepted (wsink (bw (cw st'.1))) in
    received = take cap (wire (concat replies)) /\
    fst (decode_all (S (length received)) received) = whole_frames cap (concat replies) /\
    (length replies = owed_replies cmds (protocol_error e) \/
     (length replies <= owed_replies cmds (protocol_error e))%nat /\ (cap < length (wire (concat replies)))%nat).
Proof.
  intros c0 lim Hn1 Hn2 Hv Hps Hg Hp Ha.
  assert (sane lim) as Hl by apply reader_sane.
  split; [intros s; destruct (parses_exist lim Hl s) as (? & ? & ? & _); eauto|].
  destruct (parses_data _ _ _ _ Hp) as (tl & Ht & _). split; [by exists tl|].
  assert (length cmds < S (length (mjoin ps)))%nat as Hf by (apply (parses_short lim _ _ _ Hp)).
  destruct (serve_ok cap e0 timeNow unicode_lower ctx_text cfg Hn1 Hn2 Hv lim Hl (fun _ => false) _ _ _ Hp
    (fun _ => eq_refl) _ 0 (c0, g) [] Hf) as (st' & s' & Es & (rs & Hans & [Ho Hfl Hc Hg'])); [|done|].
  { split; [apply emitted_new|cbn; by destruct cap|split; cbn; lia|done]. }
  pose proof (answers_replies _ _ _ _ _ _ _ _ _ _ _ _ Hans) as [Hr Hn].
  pose proof (serve_sim timeNow unicode_lower ctx_text cfg lim (fun _ => false) (S (length (mjoin ps))) 0 _ _ (c0, g)
    (NewReader_carries ps fin reader_config Hps)) as Hsim.
  fold (input_stream ps fin) in Hsim. rewrite Es in Hsim.
  destruct (serveConn _ _ _ _ _ _ _ _ (NewReader _ _) _) as [[st1 b1]| |]; [|done..]. cbn in Hsim.
  destruct Hsim as [-> _]. exists st', b1, rs. cbn [app] in *. split_and!; try done.
  rewrite Hfl. apply decode_all_ok; [|unfold wire; cbn [length]; lia].
  clear -Hr. induction Hr as [|fs rs [_ Hv] _ IH]; [constructor|]. cbn [concat]. by apply Forall_app.
Qed.

(** ** Witness *)
Definition demo_cmds : list (list bytes) := [[B "PING"]; []; [B "Get"; B "key"]; [B "QUIT"]; [B "PING"]].

Definition demo_pieces : list bytes :=
  let all := concat (encode_command <$> demo_cmds) ++ B "*1" in [take 3 all; drop 3 all].

Lemma session_replies_witness : exists st' b' replies,
  serveConn cache_now (fun b => b) (fun _ => []) demo_cfg (limits reader_config) (fun _ => false) (S (length (mjoin demo_pieces))) 0
    (NewReader (MkNet demo_pieces IoEOF) reader_config)
    (newConn (MkSink [] 1000 IoEOF) 7, (dcache1 0 0 0, DEnv 120 0 1)) = Ret (st', b') /\
  answers 1000 IoEOF cache_now (fun b => b) (fun _ => []) demo_cfg
    (newConn (MkSink [] 1000 IoEOF) 7, (dcache1 0 0 0, DEnv 120 0 1)) [] demo_cmds None replies st' /\
  (length replies = 3%nat \/ (length replies <= 3)%nat /\ (1000 < length (wire (concat replies)))%nat) /\
  accepted (wsink (bw (cw st'.1))) = take 1000 (wire (concat replies)).
Proof.
  destruct (session_replies 1000 IoEOF cache_now (fun b => b) (fun _ => []) demo_cfg demo_pieces IoEOF 7
    (dcache1 0 0 0, DEnv 120 0 1) demo_cmds (RdIO IoUnexpectedEOF)) as (_ & _ & st' & b' & rs & E & Hans & _ & _ & Hrec & _ & Hn).
  - exact demo_now.
  - exact demo_now_accepts.
  - done.
  - repeat constructor; done.
  - exact dcache1_ok.
  - repeat (eapply parses_more; [vm_compute; reflexivity|]). eapply parses_end. vm_compute. reflexivity.
  - apply admissible_reads. repeat constructor; discriminate.
  - exists st', b', rs. split; [exact E|]. split; [exact Hans|]. split; [exact Hn|exact Hrec].
Defined.
