(* ===== verification/EventLoop.v ===== *)
(** * The event-loop backend ([internal/server/eventloop.go])

    The incremental parser [parseCommand], which works on the bytes received so far
    and says when it needs more, and the handler [OnTraffic], which serves every
    complete command in them.  The event engine itself (gnet) is not part of the
    repository: a connection is the bytes it holds for reading, which [Peek] shows
    and [Discard] drops, and the sink its writes go to. *)
From S2P Require Import Prelude Hash Resp Writer Cache Server Session.

Definition evMaxHeaderLine : nat := 64.

(** ** The verb [%q] of [fmt] on a byte *)
Definition hex_digit (n : Z) : byte := byte_of (if n <? 10 then 48 + n else 87 + n).
Definition hex_byte (n : Z) : bytes := [hex_digit (n / 16); hex_digit (n mod 16)].

Definition backslash : byte := x5c.

Definition quote_body (c : byte) : bytes :=
  let n := code c in
  if (n =? 39) || (n =? 92) then [backslash; c]
  else if n =? 7 then [backslash; x61]
  else if n =? 8 then [backslash; x62]
  else if n =? 12 then [backslash; x66]
  else if n =? 10 then [backslash; x6e]
  else if n =? 13 then [backslash; x72]
  else if n =? 9 then [backslash; x74]
  else if n =? 11 then [backslash; x76]
  else if (n <? 32) || (n =? 127) then backslash :: x78 :: hex_byte n
  else if n <? 127 then [c]
  else if (n <=? 160) || (n =? 173) then backslash :: x75 :: x30 :: x30 :: hex_byte n
  else [byte_of (192 + n / 64); byte_of (128 + n mod 64)].

Definition quote (c : byte) : bytes := x27 :: quote_body c ++ [x27].

(** ** The parser *)

(** [indexCRLF]; [None] is -1. *)
Fixpoint indexCRLF (b : bytes) : option nat :=
  match b with
  | x :: (y :: _) as b' => if bool_decide (x = CR) && bool_decide (y = LF) then Some 0%nat else S <$> indexCRLF b'
  | _ => None
  end.

(** [b[lo:hi]] *)
Definition slice (b : bytes) (lo hi : nat) : bytes := take (hi - lo) (drop lo b).

(** The arguments and the bytes consumed, a partial frame, or a protocol error. *)
Inductive parsed : Type := PArgs (args : list bytes) (consumed : nat) | PNeed | PErr (msg : bytes).

(** A decimal length field, with its upper bound. *)
Definition ev_length (s : bytes) (bound : Z) : option nat :=
  n ← ParseInt s;
  if (n <? 0) || (bound <? n) then None else Some (Z.to_nat n).

(** The loop over the elements, at offset [i]. *)
Fixpoint ev_args (e : nat) (b : bytes) (i : nat) (out : list bytes) : parsed :=
  match e with
  | O => PArgs out i
  | S e =>
      match b !! i with
      | None => PNeed
      | Some c =>
          if negb (bool_decide (c = typeBulk)) then PErr (B "expected '$', got " ++ quote c)
          else
            match indexCRLF (drop i b) with
            | None => if (evMaxHeaderLine <? length b - i)%nat then PErr (B "bulk header too long") else PNeed
            | Some rel =>
                match ev_length (slice b (i + 1) (i + rel)) DefaultMaxBulkLen with
                | None => PErr (B "invalid bulk length")
                | Some blen =>
                    let i := (i + rel + 2)%nat in
                    if (length b <? i + blen + 2)%nat then PNeed
                    else if negb (bool_decide (b !! (i + blen)%nat = Some CR)) || negb (bool_decide (b !! (i + blen + 1)%nat = Some LF))
                    then PErr (B "bulk not CRLF-terminated")
                    else ev_args e b (i + blen + 2) (out ++ [slice b i (i + blen)])
                end
            end
      end
  end.

Definition parseCommand (b : bytes) : parsed :=
  match b with
  | [] => PNeed
  | c :: _ =>
      if negb (bool_decide (c = typeArray)) then PErr (B "expected '*', got " ++ quote c)
      else
        match indexCRLF b with
        | None => if (evMaxHeaderLine <? length b)%nat then PErr (B "multibulk header too long") else PNeed
        | Some nl =>
            match ev_length (slice b 1 nl) DefaultMaxMultibulkLen with
            | None => PErr (B "invalid multibulk count")
            | Some count => ev_args count b (nl + 2) []
            end
        end
  end.

(** ** The handler *)
Inductive action : Type := ActNone | ActClose.

Section EventLoop.
Context {G : Type} `{!Engine G}.
Context (timeNow : G -> Z * G) (unicode_lower : bytes -> bytes) (ctx_text : Z -> bytes) (cfg : Config G).

(** The connection of [OnOpen] ([newConnWriter]). *)
Definition newConnWriter (k : netsink) (id : Z) : conn := MkConn (NewWriter k) 2 id.

(** The loop of [OnTraffic]: the bytes consumed and whether to stop. *)
Fixpoint traffic_loop (fuel : nat) (data : bytes) (consumed : nat) (st : conn * G) : outcome (nat * bool * (conn * G)) :=
  match fuel with
  | O => Diverge
  | S fuel =>
      match parseCommand (drop consumed data) with
      | PErr msg =>
          a ← wr (fun w => WriteError w (B "ERR Protocol error: " ++ msg)) st;
          Ret (consumed, true, a.2)
      | PNeed => Ret (consumed, false, st)
      | PArgs args n =>
          a ← dispatch timeNow unicode_lower ctx_text cfg args st;
          if a.1 : bool then Ret ((consumed + n)%nat, true, a.2)
          else traffic_loop fuel data (consumed + n) a.2
      end
  end.

(** [OnTraffic] on the bytes held for reading: the bytes still held, the action, and
    the connection. *)
Definition OnTraffic (data : bytes) (st : conn * G) : outcome (bytes * action * (conn * G)) :=
  r ← traffic_loop (S (length data)) data 0 st;
  let '(consumed, stop, st1) := r in
  f ← flush st1;
  Ret (drop consumed data, if stop : bool then ActClose else ActNone, f.2).

(** ** A connection of the event engine *)

(** [OnOpen] gives a connection its context, with the next number of the server's
    counter. *)
Definition OnOpen (k : netsink) (nextID : Z) : option conn * action * Z :=
  let id := u64 (nextID + 1) in
  (Some (newConnWriter k id), ActNone, id).

(** [OnTraffic] with the test of its first lines: a connection without context is
    closed. *)
Definition serve_traffic (ctx : option conn) (data : bytes) (g : G) : outcome (bytes * action * option conn * G) :=
  match ctx with
  | None => Ret (data, ActClose, None, g)
  | Some c =>
      r ← OnTraffic data (c, g);
      let '(rest, act, st) := r in
      Ret (rest, act, Some st.1, st.2)
  end.

(** The engine's side: each piece the network delivers is added to the bytes held and
    reported, until the handler closes the connection. *)
Fixpoint ev_session (ctx : option conn) (held : bytes) (pieces : list bytes) (g : G) : outcome (bytes * bool * option conn * G) :=
  match pieces with
  | [] => Ret (held, false, ctx, g)
  | p :: pieces =>
      r ← serve_traffic ctx (held ++ p) g;
      let '(rest, act, ctx, g) := r in
      match act with
      | ActClose => Ret (rest, true, ctx, g)
      | ActNone => ev_session ctx rest pieces g
      end
  end.
End EventLoop.

(** ** Starting the engine *)

(** The options of the event engine that the code sets. *)
Inductive gnet_option : Type :=
| WithMulticore (b : bool)
| WithReuseAddr (b : bool)
| WithReusePort (b : bool)
| WithLockOSThread (b : bool)
| WithReadBufferCap (n : Z)
| WithWriteBufferCap (n : Z)
| WithSocketRecvBuffer (n : Z)
| WithSocketSendBuffer (n : Z)
| WithNumEventLoop (n : Z)
| WithEdgeTriggeredIO (b : bool).

(** [ListenAndServeGnet]: the address and the options it runs the engine with. *)
Definition ListenAndServeGnet {G : Type} (getenv : bytes -> bytes) (cfg : Config G) : bytes * list gnet_option :=
  (B "tcp://" ++ Addr cfg,
   [WithMulticore true; WithReuseAddr true;
    WithReusePort (bool_decide (getenv (B "CM_GNET_NOREUSE") <> B "1"));
    WithLockOSThread (bool_decide (getenv (B "CM_GNET_NOLOCK") <> B "1"));
    WithReadBufferCap (64 * 1024); WithWriteBufferCap (64 * 1024);
    WithSocketRecvBuffer (256 * 1024); WithSocketSendBuffer (256 * 1024)] ++
   (let v := getenv (B "CM_GNET_LOOPS") in
    if bool_decide (v <> []) then
      match ParseInt v with
      | Some n => if 0 <? n then [WithNumEventLoop n] else []
      | None => []
      end
    else []) ++
   (if bool_decide (getenv (B "CM_GNET_ETRIGGER") = B "1") then [WithEdgeTriggeredIO true] else [])).
