(* ===== verification/EventLoopSpec.v ===== *)
(** * What the event loop promises

    The incremental parser returns every complete canonical command and asks for
    more exactly on its proper prefixes, so that the event loop serves the same
    commands as the blocking reader; on other inputs it is more lenient. *)
From S2P Require Import Prelude Hash Resp RespSpec Writer WriterSpec Replies Cache Server ServerSpec Expiry.
From S2P Require Import Session SessionSpec EventLoop.

#[local] Opaque itoa_fuel.
#[local] Arguments itoa : simpl never.

(** ** Lines and numbers *)
Lemma indexCRLF_skip x l : x <> CR -> indexCRLF (x :: l) = S <$> indexCRLF l.
Proof. intros Hx. destruct l as [|y l]; [done|]. cbn. by rewrite bool_decide_eq_false_2. Qed.

Lemma indexCRLF_found h rest : CR ∉ h -> indexCRLF (h ++ CRLF ++ rest) = Some (length h).
Proof.
  induction h as [|x h IH]; intros Hn; [done|]. rewrite not_elem_of_cons in Hn. destruct Hn as [Hx Hn].
  cbn [app]. rewrite indexCRLF_skip by congruence. by rewrite IH.
Qed.

Lemma indexCRLF_step x y l : indexCRLF (x :: y :: l) =
  if bool_decide (x = CR) && bool_decide (y = LF) then Some 0%nat else S <$> indexCRLF (y :: l).
Proof. done. Qed.

Lemma indexCRLF_prefix p l : indexCRLF (p ++ l) = None -> indexCRLF p = None.
Proof.
  induction p as [|x [|y p] IH]; [done..|]. cbn [app]. rewrite !indexCRLF_step. destruct (_ && _); [done|].
  cbn [app] in IH. intros H. rewrite IH; [done|]. by destruct (indexCRLF (y :: p ++ l)).
Qed.

Lemma indexCRLF_none h : CR ∉ h -> indexCRLF (h ++ [CR]) = None.
Proof.
  induction h as [|x h IH]; intros Hn; [done|]. rewrite not_elem_of_cons in Hn. destruct Hn as [Hx Hn].
  cbn [app]. rewrite indexCRLF_skip by congruence. by rewrite IH.
Qed.

Lemma ParseInt_itoa n : 0 <= n <= maxInt -> ParseInt (itoa n) = Some n.
Proof.
  intros Hn. assert (unsigned (itoa n) = Some n) as Hu by (rewrite unsigned_eq; by apply parseInt_iff).
  unfold unsigned in Hu. destruct (itoa n) as [|c s]; [done|].
  destruct (_ || _); [done|]. by destruct (_ && _).
Qed.

Lemma ev_length_itoa n bound : Z.of_nat n <= bound -> bound <= maxInt -> ev_length (itoa (Z.of_nat n)) bound = Some n.
Proof.
  intros Hb Hm. unfold ev_length. rewrite ParseInt_itoa by lia. cbn [mbind option_bind].
  repeat go_case; try lia. cbn [orb]. by rewrite Nat2Z.id.
Qed.

Lemma header_no_CR t n : t <> CR -> CR ∉ encode_header t n.
Proof.
  intros Ht [E|Hx]%elem_of_cons; [by symmetry in E|].
  apply itoa_digits in Hx; [|lia]. change (code CR) with 13 in Hx. lia.
Qed.

(** A proper prefix of a header line has no line end. *)
Lemma header_cut t n p : t <> CR -> cut_short p (encode_header t n ++ CRLF) -> indexCRLF p = None /\ (length p <= 64)%nat.
Proof.
  intros Ht (x & l & E). split.
  - assert (exists l', encode_header t n ++ [CR] = p ++ l') as [l' E'].
    { destruct l as [|y l0 _] using rev_ind.
      - exists []. rewrite app_nil_r. change CRLF with ([CR] ++ [LF]) in E. rewrite app_assoc in E.
        by apply app_inj_tail in E as [? _].
      - exists (x :: l0). change CRLF with ([CR] ++ [LF]) in E. rewrite app_assoc, app_comm_cons, app_assoc in E.
        by apply app_inj_tail in E as [? _]. }
    eapply (indexCRLF_prefix _ l'). rewrite <- E'. by apply indexCRLF_none, header_no_CR.
  - apply (f_equal length) in E. rewrite !length_app in E. cbn [length] in E.
    pose proof (header_length t n). change (length CRLF) with 2%nat in E. lia.
Qed.

(** ** The argument loop works on what is left *)

(** One element at the front of [q]. *)
Inductive element : Type := EArg (a : bytes) (len : nat) | ENeed | EErr (msg : bytes).

Definition ev_element (q : bytes) : element :=
  match q with
  | [] => ENeed
  | c :: _ =>
      if negb (bool_decide (c = typeBulk)) then EErr (B "expected '$', got " ++ quote c)
      else
        match indexCRLF q with
        | None => if (evMaxHeaderLine <? length q)%nat then EErr (B "bulk header too long") else ENeed
        | Some rel =>
            match ev_length (slice q 1 rel) DefaultMaxBulkLen with
            | None => EErr (B "invalid bulk length")
            | Some blen =>
                let j := (rel + 2)%nat in
                if (length q <? j + blen + 2)%nat then ENeed
                else if negb (bool_decide (q !! (j + blen)%nat = Some CR)) || negb (bool_decide (q !! (j + blen + 1)%nat = Some LF))
                then EErr (B "bulk not CRLF-terminated")
                else EArg (slice q j (j + blen)) (j + blen + 2)
            end
        end
  end.

Lemma slice_app d q lo hi : slice (d ++ q) (length d + lo) (length d + hi) = slice q lo hi.
Proof.
  unfold slice. replace (length d + hi - (length d + lo))%nat with (hi - lo)%nat by lia.
  by rewrite <- drop_drop, drop_app_length.
Qed.

Lemma ev_args_step e d q out : ev_args (S e) (d ++ q) (length d) out =
  match ev_element q with
  | EArg a n => ev_args e (d ++ q) (length d + n) (out ++ [a])
  | ENeed => PNeed
  | EErr msg => PErr msg
  end.
Proof.
  cbn [ev_args]. rewrite lookup_app_r, Nat.sub_diag by lia. destruct q as [|c q]; [done|].
  cbn [lookup list_lookup]. unfold ev_element. destruct (negb (bool_decide (c = typeBulk))); [done|].
  set (q' := c :: q) in *. rewrite drop_app_length. destruct (indexCRLF q') as [rel|].
  2:{ rewrite length_app. replace (length d + length q' - length d)%nat with (length q') by lia. by destruct (_ <? _)%nat. }
  rewrite slice_app. destruct (ev_length _ _) as [blen|]; [|done]. cbv zeta.
  replace (length d + rel + 2 + blen + 2)%nat with (length d + (rel + 2 + blen + 2))%nat by lia.
  replace (length d + rel + 2 + blen)%nat with (length d + (rel + 2 + blen))%nat by lia.
  replace (length d + (rel + 2 + blen) + 1)%nat with (length d + (rel + 2 + blen + 1))%nat by lia.
  replace (length d + rel + 2)%nat with (length d + (rel + 2))%nat by lia.
  rewrite slice_app, length_app, !lookup_app_r by lia.
  replace (length d + (rel + 2 + blen) - length d)%nat with (rel + 2 + blen)%nat by lia.
  replace (length d + (rel + 2 + blen + 1) - length d)%nat with (rel + 2 + blen + 1)%nat by lia.
  assert (((length d + length q') <? length d + (rel + 2 + blen + 2)) = (length q' <? rel + 2 + blen + 2))%nat as ->.
  { destruct (Nat.ltb_spec (length d + length q') (length d + (rel + 2 + blen + 2))), (Nat.ltb_spec (length q') (rel + 2 + blen + 2)); lia. }
  destruct (_ <? _)%nat; [done|]. by destruct (_ || _).
Qed.

Lemma element_ok a rest : Z.of_nat (length a) <= DefaultMaxBulkLen ->
  ev_element (encode_bulk a ++ rest) = EArg a (length (encode_bulk a)).
Proof.
  intros Ha. unfold encode_bulk. set (h := encode_header typeBulk (length a)).
  assert ((h ++ CRLF ++ a ++ CRLF) ++ rest = h ++ CRLF ++ a ++ CRLF ++ rest) as -> by (by rewrite <- !app_assoc).
  assert (length (h ++ CRLF ++ a ++ CRLF) = length h + 2 + length a + 2)%nat as -> by (rewrite !length_app; cbn; lia).
  unfold ev_element. destruct (h ++ CRLF ++ a ++ CRLF ++ rest) as [|c q] eqn:Eq; [done|].
  assert (c = typeBulk) as -> by (unfold h in Eq; cbn in Eq; congruence). rewrite bool_decide_eq_true_2 by done. cbn [negb].
  rewrite <- Eq. clear Eq q. rewrite indexCRLF_found by (by apply header_no_CR).
  assert (slice (h ++ CRLF ++ a ++ CRLF ++ rest) 1 (length h) = itoa (Z.of_nat (length a))) as ->.
  { unfold slice, h, encode_header. cbn [app drop length]. rewrite Nat.sub_succ, Nat.sub_0_r. apply take_app_length. }
  rewrite ev_length_itoa by (done || unfold maxInt; vm_compute; discriminate). cbv zeta.
  set (q := h ++ CRLF ++ a ++ CRLF ++ rest).
  assert (q = (h ++ CRLF) ++ a ++ CRLF ++ rest) as Eq by (unfold q; by rewrite <- !app_assoc).
  assert (length (h ++ CRLF) = length h + 2)%nat as El by (rewrite length_app; done).
  assert (length q = length h + 2 + length a + 2 + length rest)%nat as -> by (rewrite Eq, !length_app; cbn; lia).
  destruct (Nat.ltb_spec (length h + 2 + length a + 2 + length rest) (length h + 2 + length a + 2)); [lia|].
  assert (q !! (length h + 2 + length a)%nat = Some CR) as ->.
  { rewrite Eq, lookup_app_r, lookup_app_r by lia. by replace (_ - _ - _)%nat with 0%nat by lia. }
  assert (q !! (length h + 2 + length a + 1)%nat = Some LF) as ->.
  { rewrite Eq, lookup_app_r, lookup_app_r by lia. by replace (_ - _ - _)%nat with 1%nat by lia. }
  rewrite !bool_decide_eq_true_2 by done. cbn [negb orb]. f_equal.
  unfold slice. rewrite Eq, <- El, drop_app_length. replace (_ - _)%nat with (length a) by lia. apply take_app_length.
Qed.

Lemma element_need a p : Z.of_nat (length a) <= DefaultMaxBulkLen -> cut_short p (encode_bulk a) -> ev_element p = ENeed.
Proof.
  intros Ha. unfold encode_bulk. set (h := encode_header typeBulk (length a)). rewrite app_assoc. intros Hc.
  destruct p as [|c p]; [done|].
  assert (c = typeBulk) as -> by (destruct Hc as (x & l & E); unfold h in E; cbn in E; congruence).
  unfold ev_element. cbv beta iota. rewrite bool_decide_eq_true_2 by done. cbn [negb].
  set (p' := typeBulk :: p) in *.
  apply cut_short_app in Hc as [Hh|(r & E & Hr)].
  - apply header_cut in Hh as [-> Hl]; [|done]. by destruct (Nat.ltb_spec evMaxHeaderLine (length p')); [unfold evMaxHeaderLine in *; lia|].
  - rewrite E, <- app_assoc, indexCRLF_found by (by apply header_no_CR).
    assert (slice (h ++ CRLF ++ r) 1 (length h) = itoa (Z.of_nat (length a))) as ->.
    { unfold slice, h, encode_header. cbn [app drop length]. rewrite Nat.sub_succ, Nat.sub_0_r. apply take_app_length. }
    rewrite ev_length_itoa by (done || unfold maxInt; vm_compute; discriminate). cbv zeta.
    destruct Hr as (x & l & Er). apply (f_equal length) in Er. rewrite !length_app in Er |- *. cbn [length] in Er.
    change (length CRLF) with 2%nat in *.
    by destruct (Nat.ltb_spec (length h + (2 + length r)) (length h + 2 + length a + 2)); [|lia].
Qed.

(** ** Commands *)
Definition small_arg (a : bytes) : Prop := Z.of_nat (length a) <= DefaultMaxBulkLen.

Lemma ev_args_ok args : Forall small_arg args -> forall d rest out,
  ev_args (length args) (d ++ concat (encode_bulk <$> args) ++ rest) (length d) out =
    PArgs (out ++ args) (length d + length (concat (encode_bulk <$> args))).
Proof.
  induction 1 as [|a args Ha _ IH]; intros d rest out; cbn [length fmap list_fmap concat].
  { cbn. by rewrite app_nil_r, Nat.add_0_r. }
  rewrite <- app_assoc, ev_args_step, element_ok by done.
  rewrite app_assoc, <- length_app. rewrite IH, <- app_assoc. cbn [app]. f_equal. rewrite !length_app. lia.
Qed.

Lemma ev_args_need args : Forall small_arg args -> forall d p out, cut_short p (concat (encode_bulk <$> args)) ->
  ev_args (length args) (d ++ p) (length d) out = PNeed.
Proof.
  induction 1 as [|a args Ha _ IH]; intros d p out Hc; cbn [length fmap list_fmap concat] in *.
  { destruct Hc as (x & l & E). by destruct p. }
  rewrite ev_args_step. apply cut_short_app in Hc as [Hc|(p' & -> & Hc)].
  - by rewrite (element_need a).
  - rewrite element_ok by done. rewrite app_assoc, <- length_app. by apply IH.
Qed.

Definition default_limits : Limits := MkLimits DefaultMaxBulkLen DefaultMaxMultibulkLen.

Lemma within_args args : within default_limits args -> Forall small_arg args.
Proof. by intros [_ H]. Qed.

Lemma bulks_concat args : (args ≫= encode_bulk) = concat (encode_bulk <$> args).
Proof. induction args as [|a args IH]; [done|]. by rewrite bind_cons, IH. Qed.

Lemma command_split args rest : encode_command args ++ rest =
  (encode_header typeArray (length args) ++ CRLF) ++ concat (encode_bulk <$> args) ++ rest.
Proof. unfold encode_command. by rewrite bulks_concat, <- !app_assoc. Qed.

(** The head of a command: the count is read and the arguments start behind it. *)
Lemma parse_head args rest : within default_limits args ->
  let h := encode_header typeArray (length args) in
  parseCommand (h ++ CRLF ++ rest) = ev_args (length args) ((h ++ CRLF) ++ rest) (length (h ++ CRLF)) [].
Proof.
  intros [Hn _] h. unfold parseCommand. destruct (h ++ CRLF ++ rest) as [|c q] eqn:Eq; [done|].
  assert (c = typeArray) as -> by (unfold h in Eq; cbn in Eq; congruence). rewrite bool_decide_eq_true_2 by done.
  cbn [negb]. rewrite <- Eq, indexCRLF_found by (by apply header_no_CR).
  assert (slice (h ++ CRLF ++ rest) 1 (length h) = itoa (Z.of_nat (length args))) as ->.
  { unfold slice, h, encode_header. cbn [app drop length]. rewrite Nat.sub_succ, Nat.sub_0_r. apply take_app_length. }
  rewrite ev_length_itoa by (done || unfold maxInt; vm_compute; discriminate).
  by rewrite length_app, <- app_assoc.
Qed.

(** A whole command is parsed, whatever follows it. *)
Lemma parse_ok args rest : within default_limits args ->
  parseCommand (encode_command args ++ rest) = PArgs args (length (encode_command args)).
Proof.
  intros Hw. rewrite command_split, <- app_assoc, parse_head by done.
  rewrite ev_args_ok by (by apply within_args). cbn [app]. f_equal.
  unfold encode_command. rewrite bulks_concat, !length_app. lia.
Qed.

(** A proper prefix of one needs more bytes. *)
Lemma parse_need args p : within default_limits args -> cut_short p (encode_command args) -> parseCommand p = PNeed.
Proof.
  intros Hw Hc. destruct p as [|c p]; [done|]. pose proof (command_split args []) as E. rewrite !app_nil_r in E.
  rewrite E in Hc. apply cut_short_app in Hc as [Hh|(r & Er & Hr)].
  - unfold parseCommand. assert (c = typeArray) as -> by (destruct Hh as (x & l & E'); cbn in E'; congruence).
    rewrite bool_decide_eq_true_2 by done. cbn [negb]. apply header_cut in Hh as [-> Hl]; [|done].
    destruct (Nat.ltb_spec evMaxHeaderLine (length (typeArray :: p))); [unfold evMaxHeaderLine in *; lia|done].
  - rewrite Er, <- app_assoc, parse_head by done. apply ev_args_need; [by apply within_args|done].
Qed.

(** ** Any input *)
Lemma ev_length_bound s bound n : ev_length s bound = Some n -> Z.of_nat n <= bound.
Proof.
  unfold ev_length. destruct (ParseInt s) as [m|]; [|done]. cbn [mbind option_bind].
  destruct (_ || _) eqn:E; [done|]. intros [= <-]. lia.
Qed.

Lemma quote_no_LF c : LF ∉ quote c.
Proof. destruct c; apply (bool_decide_unpack _); vm_compute; exact I. Qed.

Lemma ev_args_any e : forall b i out, Forall small_arg out -> match ev_args e b i out with
  | PArgs args n => Forall small_arg args /\ (i <= n)%nat /\ (i <= length b -> n <= length b)%nat
  | PNeed => True
  | PErr msg => LF ∉ msg
  end.
Proof.
  induction e as [|e IH]; intros b i out Ho; cbn [ev_args]; [by split_and!|].
  destruct (b !! i) as [c|]; [|done].
  destruct (negb (bool_decide (c = typeBulk))); [apply not_elem_of_app; split; [no_LF|apply quote_no_LF]|].
  destruct (indexCRLF (drop i b)) as [rel|]; [|by destruct (_ <? _)%nat; [no_LF|]].
  destruct (ev_length _ _) as [blen|] eqn:El; [|no_LF]. apply ev_length_bound in El. cbv zeta.
  destruct (Nat.ltb_spec (length b) (i + rel + 2 + blen + 2)); [done|]. destruct (_ || _); [no_LF|].
  specialize (IH b (i + rel + 2 + blen + 2)%nat (out ++ [slice b (i + rel + 2) (i + rel + 2 + blen)])).
  destruct (ev_args e b _ _) as [args n| |]; [|done|].
  - destruct IH as (? & ? & ?); [|split_and!; [done|lia|intros _; lia]]. apply Forall_app. split; [done|]. constructor; [|constructor].
    unfold small_arg, slice. rewrite length_take. lia.
  - apply IH. apply Forall_app. split; [done|]. constructor; [|constructor]. unfold small_arg, slice. rewrite length_take. lia.
Qed.

Lemma indexCRLF_bound b n : indexCRLF b = Some n -> (n + 2 <= length b)%nat.
Proof.
  revert n. induction b as [|x [|y b] IH]; intros n; [done..|]. rewrite indexCRLF_step. destruct (_ && _).
  - intros [= <-]. cbn. lia.
  - destruct (indexCRLF (y :: b)) as [m|]; [|done]. intros [= <-]. specialize (IH m eq_refl). cbn in *. lia.
Qed.

Lemma parse_any b : match parseCommand b with
  | PArgs args n => Forall small_arg args /\ (0 < n <= length b)%nat
  | PNeed => True
  | PErr msg => LF ∉ msg
  end.
Proof.
  unfold parseCommand. destruct b as [|c b]; [done|].
  destruct (negb _); [apply not_elem_of_app; split; [no_LF|apply quote_no_LF]|].
  destruct (indexCRLF (c :: b)) as [nl|] eqn:Ei; [|by destruct (_ <? _)%nat; [no_LF|]].
  apply indexCRLF_bound in Ei. destruct (ev_length _ _) as [n|]; [|no_LF].
  pose proof (ev_args_any n (c :: b) (nl + 2) [] ltac:(constructor)) as H.
  destruct (ev_args _ _ _ _); [|done..]. destruct H as (? & ? & Hn). split; [done|]. specialize (Hn Ei). lia.
Qed.

(** ** The handler *)

(** The commands at the front of the bytes held, the protocol error behind them if
    any, and the bytes they take. *)
Inductive ev_parses : bytes -> list (list bytes) -> option bytes -> nat -> Prop :=
| ev_need q : parseCommand q = PNeed -> ev_parses q [] None 0
| ev_err q msg : parseCommand q = PErr msg -> ev_parses q [] (Some msg) 0
| ev_more q args n cmds e k : parseCommand q = PArgs args n -> ev_parses (drop n q) cmds e k ->
    ev_parses q (args :: cmds) e (n + k).

Lemma ev_parses_short q cmds e k : ev_parses q cmds e k -> (length cmds < S (length q))%nat.
Proof.
  induction 1 as [| |q args n cmds e k E _ IH]; [cbn; lia..|].
  pose proof (parse_any q) as Ha. rewrite E in Ha. destruct Ha as [_ Hn]. rewrite length_drop in IH. cbn. lia.
Qed.

Lemma ev_parses_exist q : exists cmds e k, ev_parses q cmds e k.
Proof.
  remember (length q) as n eqn:En. revert q En. induction (lt_wf n) as [n _ IH]. intros q ->.
  pose proof (parse_any q) as Ha. destruct (parseCommand q) as [args n| |msg] eqn:E.
  - destruct Ha as [_ Hn]. destruct (IH (length (drop n q))) with (q := drop n q) as (cmds & e & k & H);
      [rewrite length_drop; lia|done|]. eexists _, _, _. by econstructor.
  - eexists _, _, _. by apply ev_need.
  - eexists _, _, _. by eapply ev_err.
Qed.

(** On canonical input with a partial command behind it, the commands are those sent
    and exactly they are taken. *)
Lemma ev_parses_canonical cmds p : Forall (within default_limits) cmds ->
  (p = [] \/ exists args, within default_limits args /\ cut_short p (encode_command args)) ->
  ev_parses (concat (encode_command <$> cmds) ++ p) cmds None (length (concat (encode_command <$> cmds))).
Proof.
  intros Hc Hp. induction Hc as [|args cmds Ha _ IH]; cbn [fmap list_fmap concat].
  - apply ev_need. destruct Hp as [->|(args & Hw & Hp)]; [done|]. by eapply parse_need.
  - rewrite <- app_assoc, length_app. eapply ev_more; [by apply parse_ok|]. by rewrite drop_app_length.
Qed.

Section traffic.
Context {G : Type} `{!Engine G} `{!EngineLaws G} (cap : nat) (e0 : ioerr).
Context (timeNow : G -> Z * G) (unicode_lower : bytes -> bytes) (ctx_text : Z -> bytes) (cfg : Config G).
Hypothesis now_inv : forall g, einv g -> einv (snd (default timeNow (Now cfg) g)).
Hypothesis now_accepts : forall g k v, accepts g k v -> accepts (snd (default timeNow (Now cfg) g)) k v.
Hypothesis version_len : in_i64 (Z.of_nat (length (Version cfg))).
Local Abbreviation dispatch := (dispatch timeNow unicode_lower ctx_text cfg).

Fixpoint ev_admissible (st : conn * G) (cmds : list (list bytes)) : Prop :=
  match cmds with
  | [] => True
  | args :: cmds => admits st.2 args /\
      forall stop st1, dispatch args st = Ret (stop, st1) -> ev_admissible st1 cmds
  end.

Lemma ev_admissible_reads cmds : Forall (fun args => asciiUpper <$> head args <> Some (B "SET")) cmds ->
  forall st, ev_admissible st cmds.
Proof.
  induction 1 as [|args cmds Hs _ IH]; intros st; cbn; [done|]. split; [|intros; by apply IH].
  intros a0 k v rest -> Ha. cbn in Hs. by rewrite Ha in Hs.
Qed.

Local Abbreviation dispatched := (dispatched cap e0 timeNow unicode_lower ctx_text cfg).
Local Abbreviation answered := (answered cap e0 timeNow unicode_lower ctx_text cfg).

(** How the loop left: all commands dispatched; or a protocol error answered behind
    them; or at a command that closes the connection, whatever comes after it. *)
Definition loop_end (st : conn * G) (out : bytes) cmds e (rs : list (list Frame)) (consumed k : nat)
    (r : nat * bool * (conn * G)) : Prop :=
  let '(consumed', stop, st') := r in
  (stop = false /\ e = None /\ consumed' = (consumed + k)%nat /\ dispatched st out cmds rs st') \/
  (stop = true /\ is_Some e /\ consumed' = (consumed + k)%nat /\ existsb quits cmds = false /\ answered st out cmds e rs st') \/
  (stop = true /\ (existsb quits cmds = true \/ (cap < length (out ++ wire (concat rs)))%nat) /\
   forall more e', answered st out (cmds ++ more) e' rs st').

Lemma loop_more st out cmds1 rs1 st1 cmds e rs consumed m k r : dispatched st out cmds1 rs1 st1 -> existsb quits cmds1 = false ->
  loop_end st1 (out ++ wire (concat rs1)) cmds e rs (consumed + m) k r -> loop_end st out (cmds1 ++ cmds) e (rs1 ++ rs) consumed (m + k) r.
Proof.
  destruct r as [[consumed' stop] st']. intros Hd Hq. unfold loop_end.
  rewrite Nat.add_assoc, existsb_app, Hq, concat_app, wire_app, app_assoc.
  intros [(-> & -> & -> & H)|[(-> & He & -> & Hn & H)|(-> & Hc & H)]]; [left|right; left|right; right]; split_and!; try done.
  - by eapply dispatched_app.
  - by eapply answered_app.
  - intros more e'. rewrite <- app_assoc. by eapply answered_app.
Qed.

Lemma loop_answered st out cmds e rs consumed k consumed' stop st' :
  loop_end st out cmds e rs consumed k (consumed', stop, st') -> answered st out cmds e rs st'.
Proof.
  intros [(_ & -> & _ & Hd)|[(_ & _ & _ & _ & H)|(_ & _ & H)]]; [|done|].
  - rewrite <- (app_nil_r cmds), <- (app_nil_r rs). eapply answered_app; [done|]. apply answered_ends, end_input.
  - specialize (H [] e). by rewrite app_nil_r in H.
Qed.

Lemma traffic_ok q cmds e k : ev_parses q cmds e k -> forall fuel data consumed st out,
  q = drop consumed data -> (length cmds < fuel)%nat ->
  emitted cap e0 (cw st.1) out -> wf_conn st.1 -> einv st.2 -> ev_admissible st cmds ->
  exists r rs, traffic_loop timeNow unicode_lower ctx_text cfg fuel data consumed st = Ret r /\
    loop_end st out cmds e rs consumed k r /\
    emitted cap e0 (cw r.2.1) (out ++ wire (concat rs)) /\ wf_conn r.2.1 /\ einv r.2.2.
Proof.
  induction 1 as [q E|q msg E|q args n cmds e k E Hp IH]; intros fuel data consumed st out -> Hf Ho Hc Hg Hadm;
    (destruct fuel as [|fuel]; [cbn in Hf; lia|]); cbn [traffic_loop]; rewrite E.
  - eexists _, []. split; [done|]. cbn [concat]. rewrite app_nil_r. split_and!; try done.
    left. split_and!; [done|done|lia|constructor].
  - pose proof (parse_any (drop consumed data)) as Hm. rewrite E in Hm.
    destruct (protocol_reply cap e0 timeNow unicode_lower ctx_text cfg msg st out Hm Ho Hc Hg) as (a & E1 & He & Ho1 & Hc1 & Hg1).
    rewrite E1. cbn [mbind outcome_bind]. eexists _, [[protocol_frame msg]]. split; [done|]. cbn [concat]. rewrite app_nil_r.
    split_and!; [|done..]. right. left. split_and!; [done|by eexists|lia|done|]. by apply answered_ends.
  - pose proof (parse_any (drop consumed data)) as Ha. rewrite E in Ha. destruct Ha as [Hs Hn]. destruct Hadm as [Had Hnext].
    rewrite drop_drop in IH.
    destruct (decide (args = [])) as [->|Hne].
    { destruct (IH fuel data (consumed + n)%nat st out eq_refl) as (r & rs & Er & Hr & Hrest); try done;
        [cbn in Hf; lia|destruct st; by eapply Hnext|]. exists r, rs. split; [destruct st as [c g]; done|]. split; [|done].
      apply (loop_more _ _ [[]] [] st); [apply disp_empty, disp_nil|done|]. cbn. by rewrite app_nil_r. }
    destruct st as [c g].
    assert (Forall (fun a => in_i64 (Z.of_nat (length a))) args) as Hi.
    { eapply Forall_impl; [done|]. intros a Hsm. unfold small_arg in Hsm. unfold in_i64.
      change DefaultMaxBulkLen with 536870912 in Hsm. lia. }
    destruct (dispatch_ok cap e0 timeNow unicode_lower ctx_text cfg now_inv now_accepts version_len args c g
      Hc Hg Hi Hne Had out Ho) as (stop & st1 & fs & E1 & Ho1 & (Hr & Hc1 & _ & Hg1 & _ & Hq & Hst)).
    rewrite E1. cbn [mbind outcome_bind fst snd].
    assert (wire (concat [fs]) = wire fs) as Hfs by (cbn; by rewrite app_nil_r).
    destruct stop.
    { eexists _, [fs]. split; [done|]. rewrite Hfs. split_and!; [|done..]. right. right. rewrite Hfs.
      assert (quits args = true \/ (cap < length (out ++ wire fs))%nat) as Hcl.
      { destruct (Hst eq_refl) as [->|[x Hw]]; [by left|right].
        destruct Ho1 as [Hw1 (_ & _ & Hd)]. unfold delivered in Hd. rewrite <- Hw1, Hw in Hd. apply Hd. }
      split_and!; [done|cbn [existsb]; destruct Hcl as [->|?]; [by left|by right]|].
      intros more e'. apply answered_ends. cbn [app]. by apply end_close. }
    destruct (quits args) eqn:Eq; [by specialize (Hq eq_refl)|].
    destruct (IH fuel data (consumed + n)%nat st1 (out ++ wire fs) eq_refl) as (r & rs & Er & Hend & Ho2 & Hrest); try done;
      [cbn in Hf; lia|by eapply Hnext|].
    exists r, (fs :: rs). split; [done|]. split; [|cbn [concat]; by rewrite wire_app, app_assoc].
    apply (loop_more _ _ [args] [fs] st1); [by eapply disp_cons; [..|apply disp_nil]|cbn; by rewrite Eq|by rewrite Hfs].
Qed.
End traffic.
