(* ===== verification/EventLoopProps.v ===== *)
(** * The event loop: theorems *)
From S2P Require Import Prelude Hash Table TableSpec ShardMap ShardMapSpec Policy.
From S2P Require Import Cache CacheSpec CacheOps CacheProps.
From S2P Require Import Resp RespSpec Writer WriterSpec Replies Server ServerSpec ServerCache ServerProps.
From S2P Require Import Session SessionSpec SessionProps EventLoop EventLoopSpec.

(** C19. The two parsers agree.  Whenever the blocking reader decodes a command from
    a stream, the event loop's parser returns the same arguments from the same bytes
    and takes as many of them; on every proper prefix of an encoded command it asks
    for more; and on any input at all it returns arguments within the bulk limit
    while taking at least one byte and no more than it was given, asks for more, or
    reports an error on one line. *)
Theorem event_parser_agrees (b rest : bytes) (args : list bytes) (fin : ioerr) (size : nat) : (23 <= size)%nat ->
  (ReadCommand (limits reader_config) (MkStream b fin size) = Ret (inl args, MkStream rest fin size) ->
   parseCommand b = PArgs args (length b - length rest) /\ drop (length b - length rest) b = rest) /\
  (forall p, within (limits reader_config) args -> cut_short p (encode_command args) -> parseCommand p = PNeed) /\
  match parseCommand b with
  | PArgs args' n => Forall small_arg args' /\ (0 < n <= length b)%nat
  | PNeed => True
  | PErr msg => LF ∉ msg
  end.
Proof.
  intros Hs. change (limits reader_config) with default_limits. split_and!; [|intros p; apply parse_need|apply parse_any].
  intros E. apply command_inv in E as (D & W & _). cbn [sdata] in D. subst b. rewrite parse_ok by done.
  rewrite length_app. replace (_ + _ - _)%nat with (length (encode_command args)) by lia.
  by rewrite drop_app_length.
Qed.

(** The event loop's parser takes length fields the blocking reader refuses: signs and
    leading zeros, and header lines longer than the bound. *)
Theorem event_parser_lenient :
  let b := B "*+1" ++ CRLF ++ B "$" ++ replicate 70 x30 ++ B "1" ++ CRLF ++ B "x" ++ CRLF in
  parseCommand b = PArgs [B "x"] (length b) /\
  (exists s, ReadCommand (limits reader_config) (MkStream b IoEOF 4096) = Ret (inr (RdProto KindBadLength), s)).
Proof. split; [vm_compute; reflexivity|]. eexists. vm_compute. reflexivity. Qed.

(** C20. One event.  Over any engine that obeys its laws and whatever bytes the
    connection holds, [OnTraffic] returns.  The bytes hold some complete commands,
    possibly a protocol error behind them, and a rest; on canonical input that ends
    inside a command these are the commands sent and the rest is that command's
    part.  The replies [answers] them: each non-empty command is dispatched once, in
    order, and the reply listed for it is what [dispatch] wrote for it, up to the
    first QUIT; the error is answered last, with its text; what the connection takes
    of them is delivered.  After QUIT or a protocol error the connection is closed.
    Otherwise it stays open and holds exactly the rest, also when only the final
    flush failed, unless a command saw its reply fail and closed it. *)
Theorem event_traffic {G : Type} `{!Engine G} `{!EngineLaws G} (cap : nat) (e0 : ioerr)
    (timeNow : G -> Z * G) (unicode_lower : bytes -> bytes) (ctx_text : Z -> bytes) (cfg : Config G)
    (data out : bytes) (st : conn * G) (cmds : list (list bytes)) (e : option bytes) (k : nat) :
  (forall g, einv g -> einv (snd (default timeNow (Now cfg) g))) ->
  (forall g k v, accepts g k v -> accepts (snd (default timeNow (Now cfg) g)) k v) ->
  in_i64 (Z.of_nat (length (Version cfg))) ->
  emitted cap e0 (cw st.1) out -> wf_conn st.1 -> einv st.2 ->
  ev_parses data cmds e k -> ev_admissible timeNow unicode_lower ctx_text cfg st cmds ->
  (forall b, exists cmds' e' k', ev_parses b cmds' e' k') /\
  (forall cmds' p, Forall (within default_limits) cmds' ->
     (p = [] \/ exists args, within default_limits args /\ cut_short p (encode_command args)) ->
     ev_parses (concat (encode_command <$> cmds') ++ p) cmds' None (length (concat (encode_command <$> cmds')))) /\
  exists rest act st' replies,
    OnTraffic timeNow unicode_lower ctx_text cfg data st = Ret (rest, act, st') /\
    answers cap e0 timeNow unicode_lower ctx_text cfg st out cmds e replies st' /\
    Forall one_reply replies /\ einv st'.2 /\
    accepted (wsink (bw (cw st'.1))) = take cap (out ++ wire (concat replies)) /\
    ((length replies = owed_replies cmds e /\
      (existsb quits cmds = true \/ is_Some e -> act = ActClose) /\
      (existsb quits cmds = false -> rest = drop k data /\ (e = None -> act = ActNone))) \/
     act = ActClose /\ (length replies <= owed_replies cmds e)%nat /\ (cap < length (out ++ wire (concat replies)))%nat).
Proof.
  intros Hn1 Hn2 Hv Ho Hc Hg Hp Ha. split; [exact ev_parses_exist|]. split; [exact ev_parses_canonical|].
  pose proof (ev_parses_short _ _ _ _ Hp) as Hf.
  destruct (traffic_ok cap e0 timeNow unicode_lower ctx_text cfg Hn1 Hn2 Hv data cmds e k Hp
    (S (length data)) data 0 st out eq_refl Hf Ho Hc Hg Ha) as ([[consumed stop] st1] & rs & E & Hend & Ho1 & Hc1 & Hg1).
  destruct (flush_between cap e0 st1 _ Ho1 Hc1 Hg1) as (err & st2 & E2 & [Ho2 Hf2 Hc2 Hg2] & _).
  assert (answered cap e0 timeNow unicode_lower ctx_text cfg st out cmds e rs st1) as Hans
    by (by eapply loop_answered).
  assert (answers cap e0 timeNow unicode_lower ctx_text cfg st out cmds e rs st2) as Hans2 by (exists st1; eauto).
  destruct (answers_replies _ _ _ _ _ _ _ _ _ _ _ _ Hans2) as [Hr Hn].
  exists (drop consumed data), (if stop then ActClose else ActNone), st2, rs.
  split; [unfold OnTraffic; rewrite E; cbn [mbind outcome_bind]; rewrite E2; done|]. split_and!; [done..|].
  destruct Hend as [(-> & -> & -> & Hd)|[(-> & He & -> & Hq & _)|(-> & Hc' & _)]].
  - apply dispatched_replies in Hd as (_ & Hq & Hl). left. split; [done|]. rewrite Hq. split; [|done].
    by intros [?|[]%is_Some_None].
  - destruct Hn as [Hn|Hn]; [left|right; done]. split_and!; [done..|]. intros _. split; [done|]. intros ->. by destruct He.
  - destruct Hn as [Hn|Hn]; [|right; done]. destruct Hc' as [Hq|Hlt]; [left|right; split_and!; [done|lia|done]].
    rewrite Hq. split_and!; done.
Qed.

(** ** Witnesses *)
Lemma event_parser_agrees_witness : parseCommand (encode_command [B "GET"; CRLF] ++ B "*3") = PArgs [B "GET"; CRLF] 21.
Proof.
  destruct (event_parser_agrees (encode_command [B "GET"; CRLF] ++ B "*3") (B "*3") [B "GET"; CRLF] IoEOF 4096) as [H _].
  - apply (Nat.leb_le 23 4096). reflexivity.
  - apply H. vm_compute. reflexivity.
Defined.

Lemma event_traffic_witness : exists rest act st' replies,
  OnTraffic cache_now (fun b => b) (fun _ => []) demo_cfg (encode_command [B "PING"] ++ encode_command [B "exists"; B "key"] ++ B "*2")
    (demo_conn, (dcache1 0 0 0, DEnv 120 0 1)) = Ret (rest, act, st') /\
  answers 1000 IoEOF cache_now (fun b => b) (fun _ => []) demo_cfg (demo_conn, (dcache1 0 0 0, DEnv 120 0 1)) []
    [[B "PING"]; [B "exists"; B "key"]] None replies st' /\
  (length replies <= 2)%nat.
Proof.
  destruct (event_traffic 1000 IoEOF cache_now (fun b => b) (fun _ => []) demo_cfg
    (encode_command [B "PING"] ++ encode_command [B "exists"; B "key"] ++ B "*2") []
    (demo_conn, (dcache1 0 0 0, DEnv 120 0 1)) [[B "PING"]; [B "exists"; B "key"]] None 39)
    as (_ & _ & rest & act & st' & rs & E & Hans & _ & _ & _ & Hn).
  - exact demo_now.
  - exact demo_now_accepts.
  - done.
  - apply emitted_new.
  - split; cbn; lia.
  - exact dcache1_ok.
  - eapply (ev_more _ _ 14 _ _ 25); [vm_compute; reflexivity|]. eapply (ev_more _ _ 25 _ _ 0); [vm_compute; reflexivity|].
    apply ev_need. vm_compute. reflexivity.
  - apply ev_admissible_reads. repeat constructor; discriminate.
  - exists rest, act, st', rs. split; [exact E|]. split; [exact Hans|].
    destruct Hn as [[Hl _]|(_ & Hl & _)]; [rewrite Hl; vm_compute; lia|exact Hl].
Defined.
