(* ===== verification/Lifecycle.v ===== *)
(** * The server's lifecycle ([internal/server/server.go], [shutdown.go])

    The goroutines of a [Server] and what they share: the accept loop of [Serve], one
    goroutine per connection ([serveConn], [dropConn]), and [Shutdown].  One step of
    a goroutine is one access to shared state: a critical section of [mu], an atomic
    flag, a channel operation, or a call on a socket or the listener.  The clients,
    the scheduler and the clock are the choice between the enabled steps.

    A connection is the order of its allocation.  [conns] is the tracked set, [sem]
    the number of tokens in the semaphore, [thr] the connection goroutines that have
    not yet returned their token.  [Serve] and [Shutdown] are called once each. *)
From S2P Require Import Prelude.

(** Where a connection goroutine is. *)
Inductive phase : Type :=
| PTop       (** before the test of [inShutdown] *)
| PMark      (** before [c.active.Store(false)] *)
| PReading   (** in [ReadCommand] *)
| PRead      (** a command was read, before [c.active.Store(true)] *)
| PFailed    (** a read failed, before [c.active.Store(true)] *)
| PBusy      (** dispatching and flushing *)
| PDrop      (** in the deferred [dropConn], before [nc.Close] *)
| PClosed    (** before the tracked set is updated *)
| PGone.     (** before the token is returned *)

#[global] Instance phase_eq_dec : EqDecision phase.
Proof. solve_decision. Defined.

Record thread : Type := MkThread {
  t_phase : phase;
  t_active : bool;
  t_open : bool;  (** the socket has not been closed by the server *)
}.

(** The accept loop. *)
Inductive accepting : Type :=
| AStart                  (** [Serve] has not published the listener *)
| AWait                   (** in [Accept] *)
| AGot                    (** a socket was accepted, before the token *)
| AAdd (id : Z)           (** token taken and connection built, before [addConn] *)
| ADone (closed : bool).  (** returned, with [ErrServerClosed] or another error *)

(** [Shutdown]. *)
Inductive draining : Type :=
| DNone
| DListener (ln : bool)   (** flag set; [ln]: a listener was published *)
| DIdle (todo : list Z)   (** closing idle connections, these are left *)
| DCount                  (** before the count *)
| DTick                   (** waiting for the ticker or the deadline *)
| DAll (todo : list Z)    (** the deadline passed: closing all, these are left *)
| DDone (clean : bool).

Record srv : Type := MkSrv {
  ln : option bool;       (** the published listener, and whether it is open *)
  inShutdown : bool;
  sem : nat;
  conns : gset Z;
  thr : gmap Z thread;
  allocated : Z;
  accept : accepting;
  drain : draining;
}.

Definition server_init : srv := MkSrv None false 0 ∅ ∅ 0 AStart DNone.

(** ** Updates *)
Definition set_accept (s : srv) (a : accepting) : srv :=
  MkSrv (ln s) (inShutdown s) (sem s) (conns s) (thr s) (allocated s) a (drain s).
Definition set_drain (s : srv) (d : draining) : srv :=
  MkSrv (ln s) (inShutdown s) (sem s) (conns s) (thr s) (allocated s) (accept s) d.
Definition set_ln (s : srv) (l : option bool) : srv :=
  MkSrv l (inShutdown s) (sem s) (conns s) (thr s) (allocated s) (accept s) (drain s).
Definition set_thread (s : srv) (id : Z) (t : thread) : srv :=
  MkSrv (ln s) (inShutdown s) (sem s) (conns s) (<[id := t]> (thr s)) (allocated s) (accept s) (drain s).

Definition at_phase (t : thread) (p : phase) : thread := MkThread p (t_active t) (t_open t).

(** [nc.Close()] by another goroutine. *)
Definition close_socket (s : srv) (id : Z) : srv :=
  match thr s !! id with
  | Some t => set_thread s id (MkThread (t_phase t) (t_active t) false)
  | None => s
  end.

(** [closeIdleConns] and [closeAllConns] hold [mu] while they go through the set. *)
Definition mu_held (s : srv) : bool :=
  match drain s with DIdle _ | DAll _ => true | _ => false end.

Section Lifecycle.
Variable MaxConns : nat.

(** ** [Serve] *)
Definition serve_start (s : srv) : srv :=
  if inShutdown s then set_accept s (ADone true)
  else set_accept (set_ln s (Some true)) AWait.

(** [newConn] after the token. *)
Definition take_slot (s : srv) : srv :=
  let id := allocated s + 1 in
  MkSrv (ln s) (inShutdown s) (S (sem s)) (conns s) (thr s) id (AAdd id) (drain s).

(** [addConn] and the [go] statement. *)
Definition add_conn (s : srv) (id : Z) : srv :=
  MkSrv (ln s) (inShutdown s) (sem s) ({[id]} ∪ conns s) (<[id := MkThread PTop false true]> (thr s))
    (allocated s) AWait (drain s).

(** [ListenAndServe] binds the socket, which may fail, and calls [Serve]. *)
Inductive accept_step (s : srv) : srv -> Prop :=
| A_bind_error : accept s = AStart -> accept_step s (set_accept s (ADone false))
| A_start : accept s = AStart -> mu_held s = false -> accept_step s (serve_start s)
| A_conn : accept s = AWait -> ln s = Some true -> accept_step s (set_accept s AGot)
| A_error : accept s = AWait -> accept_step s (set_accept s (ADone (inShutdown s)))
| A_admit : accept s = AGot -> (sem s < MaxConns)%nat -> accept_step s (take_slot s)
| A_reject : accept s = AGot -> (MaxConns <= sem s)%nat -> accept_step s (set_accept s AWait)
| A_add id : accept s = AAdd id -> mu_held s = false -> accept_step s (add_conn s id).

(** ** A connection goroutine *)

(** [delete(s.conns, c)] *)
Definition untrack (s : srv) (id : Z) (t : thread) : srv :=
  MkSrv (ln s) (inShutdown s) (sem s) (conns s ∖ {[id]}) (<[id := at_phase t PGone]> (thr s))
    (allocated s) (accept s) (drain s).

(** [<-s.sem] *)
Definition release (s : srv) (id : Z) : srv :=
  MkSrv (ln s) (inShutdown s) (pred (sem s)) (conns s) (delete id (thr s)) (allocated s) (accept s) (drain s).

(** Reading ends with a command (one may be buffered even if the socket is closed) or
    with an error; it must end once the socket is closed. *)
Inductive conn_step (s : srv) (id : Z) (t : thread) : srv -> Prop :=
| C_stop : t_phase t = PTop -> inShutdown s = true -> conn_step s id t (set_thread s id (at_phase t PDrop))
| C_go : t_phase t = PTop -> inShutdown s = false -> conn_step s id t (set_thread s id (at_phase t PMark))
| C_mark : t_phase t = PMark -> conn_step s id t (set_thread s id (MkThread PReading false (t_open t)))
| C_read : t_phase t = PReading -> conn_step s id t (set_thread s id (at_phase t PRead))
| C_fail : t_phase t = PReading -> conn_step s id t (set_thread s id (at_phase t PFailed))
| C_active : t_phase t = PRead -> conn_step s id t (set_thread s id (MkThread PBusy true (t_open t)))
| C_failed : t_phase t = PFailed -> conn_step s id t (set_thread s id (MkThread PDrop true (t_open t)))
| C_next : t_phase t = PBusy -> conn_step s id t (set_thread s id (at_phase t PTop))
| C_end : t_phase t = PBusy -> conn_step s id t (set_thread s id (at_phase t PDrop))
| C_close : t_phase t = PDrop -> conn_step s id t (set_thread s id (MkThread PClosed (t_active t) false))
| C_untrack : t_phase t = PClosed -> mu_held s = false -> conn_step s id t (untrack s id t)
| C_release : t_phase t = PGone -> conn_step s id t (release s id).

(** ** [Shutdown] *)
Definition begin_shutdown (s : srv) : srv :=
  MkSrv (ln s) true (sem s) (conns s) (thr s) (allocated s) (accept s) (DListener (bool_decide (is_Some (ln s)))).

(** The test and the close of [closeIdleConns]. *)
Definition close_if_idle (s : srv) (id : Z) : srv :=
  match thr s !! id with
  | Some t => if t_active t then s else close_socket s id
  | None => s
  end.

Inductive drain_step (s : srv) : srv -> Prop :=
| D_begin : drain s = DNone -> drain_step s (begin_shutdown s)
| D_listener b : drain s = DListener b ->
    drain_step s (set_drain (if b then set_ln s (Some false) else s) (DIdle (elements (conns s))))
| D_idle id todo : drain s = DIdle (id :: todo) -> drain_step s (set_drain (close_if_idle s id) (DIdle todo))
| D_idle_end : drain s = DIdle [] -> drain_step s (set_drain s DCount)
| D_clean : drain s = DCount -> conns s = ∅ -> drain_step s (set_drain s (DDone true))
| D_wait : drain s = DCount -> conns s <> ∅ -> drain_step s (set_drain s DTick)
| D_tick : drain s = DTick -> drain_step s (set_drain s (DIdle (elements (conns s))))
| D_deadline : drain s = DTick -> drain_step s (set_drain s (DAll (elements (conns s))))
| D_all id todo : drain s = DAll (id :: todo) -> drain_step s (set_drain (close_socket s id) (DAll todo))
| D_all_end : drain s = DAll [] -> drain_step s (set_drain s (DDone false)).

(** A step of the serving side, and of the whole server. *)
Inductive work_step (s : srv) : srv -> Prop :=
| W_accept s' : accept_step s s' -> work_step s s'
| W_conn id t s' : thr s !! id = Some t -> conn_step s id t s' -> work_step s s'.

Inductive step (s : srv) : srv -> Prop :=
| S_work s' : work_step s s' -> step s s'
| S_drain s' : drain_step s s' -> step s s'.

Inductive reach : srv -> Prop :=
| reach_init : reach server_init
| reach_step s s' : reach s -> step s s' -> reach s'.
End Lifecycle.
