(* ===== verification/LifecycleSpec.v ===== *)
(** * What the lifecycle guarantees

    Invariants of every reachable state by induction on the steps, and that a
    shutdown drains: once it has begun, the serving side can only make a bounded
    number of steps, and no tracked connection stays blocked. *)
From S2P Require Import Prelude Lifecycle.

(** ** The invariant *)
Definition pending (a : accepting) : nat := match a with AAdd _ => 1 | _ => 0 end.

Definition began (d : draining) : bool := match d with DNone => false | _ => true end.

Definition past_listener (d : draining) : bool := match d with DNone | DListener _ => false | _ => true end.

(** The flag and the socket of a goroutine, by phase. *)
Definition thread_ok (t : thread) : Prop :=
  match t_phase t with
  | PReading | PRead | PFailed => t_active t = false
  | PBusy => t_active t = true
  | PClosed | PGone => t_open t = false
  | _ => True
  end.

Record linv (MaxConns : nat) (s : srv) : Prop := {
  li_sem : sem s = (size (thr s) + pending (accept s))%nat;
  li_cap : (sem s <= MaxConns)%nat;
  li_thread : map_Forall (fun _ t => thread_ok t) (thr s);
  li_conns : forall id, id ∈ conns s <-> exists t, thr s !! id = Some t /\ t_phase t <> PGone;
  li_ids : forall id t, thr s !! id = Some t -> id <= allocated s - Z.of_nat (pending (accept s));
  li_add : forall id, accept s = AAdd id -> id = allocated s;
  li_flag : inShutdown s = began (drain s);
  li_seen : forall b, drain s = DListener b -> b = bool_decide (is_Some (ln s));
  li_ln : past_listener (drain s) = true -> ln s <> Some true;
  li_start : accept s = AStart -> ln s = None;
  li_done : accept s = ADone true -> inShutdown s = true;
}.

Section proofs.
Variable MaxConns : nat.
Local Abbreviation linv := (linv MaxConns).

Lemma linv_init : linv server_init.
Proof.
  split; cbn; try done; try lia.
  intros id. split; [set_solver|]. intros (t & H & _). by rewrite lookup_empty in H.
Qed.

(** Replacing the thread of a goroutine that stays tracked. *)
Lemma linv_thread s id t t' : linv s -> thr s !! id = Some t -> t_phase t <> PGone -> t_phase t' <> PGone -> thread_ok t' ->
  linv (set_thread s id t').
Proof.
  intros [] Ht Hp Hp' Hok. split; cbn; try done.
  - rewrite map_size_insert_Some by eauto. done.
  - by apply map_Forall_insert_2.
  - intros id'. rewrite li_conns0. destruct (decide (id' = id)) as [->|].
    + rewrite lookup_insert_eq. split; intros _; eauto.
    + by rewrite lookup_insert_ne.
  - intros id' t'' . destruct (decide (id' = id)) as [->|].
    + intros _. by eapply li_ids0.
    + rewrite lookup_insert_ne by done. apply li_ids0.
Qed.

Lemma linv_accept s a : linv s -> pending a = pending (accept s) -> (forall id, a = AAdd id -> id = allocated s) ->
  a <> AStart -> (a = ADone true -> inShutdown s = true) -> linv (set_accept s a).
Proof. intros [] Hp Ha Hs Hd. split; cbn; try done; rewrite ?Hp; done. Qed.

Lemma linv_drain s d : linv s -> began d = began (drain s) -> (forall b, d <> DListener b) ->
  (past_listener d = true -> ln s <> Some true) -> linv (set_drain s d).
Proof. intros [] Hb Hl Hp. split; cbn; try done; [congruence|]. intros b ->. by destruct (Hl b). Qed.

Lemma close_socket_inv s id : linv s -> linv (close_socket s id).
Proof.
  intros I. unfold close_socket. destruct (thr s !! id) as [t|] eqn:Et; [|done].
  pose proof (li_thread _ s I id t Et) as Hok.
  destruct (decide (t_phase t = PGone)) as [Hg|].
  - assert (MkThread (t_phase t) (t_active t) false = t) as ->.
    { unfold thread_ok in Hok. rewrite Hg in Hok. destruct t as [p a o]. cbn in *. by subst. }
    unfold set_thread. rewrite insert_id by done. by destruct s.
  - apply (linv_thread s id t); [done..|]. unfold thread_ok in *. cbn. by destruct (t_phase t).
Qed.

Lemma accept_inv s s' : linv s -> accept_step MaxConns s s' -> linv s'.
Proof.
  intros I Hs. pose proof I as [Hsem Hcap Hthr Hconns Hids Hadd Hflag Hseen Hln Hstart Hdone]. destruct Hs as [Ha|Ha _|Ha Hl|Ha|Ha Hc|Ha Hc|id Ha _].
  - by apply linv_accept; try done; rewrite Ha.
  - unfold serve_start. destruct (inShutdown s) eqn:Ei.
    + by apply linv_accept; try done; rewrite Ha.
    + split; cbn; try done; try (rewrite ?Ha in *; done).
      * by rewrite Ei.
      * intros b Eb. by rewrite Eb in Hflag.
      * intros Hp. destruct (drain s); done.
  - apply linv_accept; try done. by rewrite Ha.
  - apply linv_accept; try done; [by rewrite Ha|by intros [= ->]].
  - rewrite Ha in *. split; cbn in *; try done; try lia.
    + intros id t Ht. specialize (Hids id t Ht). lia.
    + by intros id [= <-].
  - apply linv_accept; try done. by rewrite Ha.
  - rewrite Ha in *. specialize (Hadd id eq_refl). cbn in *.
    assert (thr s !! id = None) as Hnone.
    { destruct (thr s !! id) as [t|] eqn:Et; [|done]. specialize (Hids id t Et). lia. }
    split; cbn; try done.
    + rewrite map_size_insert_None by done. lia.
    + by apply map_Forall_insert_2.
    + intros id'. rewrite elem_of_union, elem_of_singleton, Hconns. destruct (decide (id' = id)) as [->|].
      * rewrite lookup_insert_eq. split; [|by left]. intros _. by eexists.
      * rewrite lookup_insert_ne by done. naive_solver.
    + intros id' t'. destruct (decide (id' = id)) as [->|]; [lia|]. rewrite lookup_insert_ne by done.
      intros Ht. specialize (Hids id' t' Ht). lia.
Qed.

Lemma conn_inv s id t s' : linv s -> thr s !! id = Some t -> conn_step s id t s' -> linv s'.
Proof.
  intros I Ht Hs. pose proof (li_thread _ s I id t Ht) as Hok. unfold thread_ok in Hok.
  assert (forall t', t_phase t <> PGone -> t_phase t' <> PGone -> thread_ok t' -> linv (set_thread s id t')) as Hset
    by (intros; by eapply linv_thread).
  destruct Hs as [Hp _|Hp _|Hp|Hp|Hp|Hp|Hp|Hp|Hp|Hp|Hp _|Hp]; rewrite Hp in Hok;
    try (apply Hset; [by rewrite Hp|done|done]).
  - destruct I as []. split; cbn; try done.
    + rewrite map_size_insert_Some by eauto. done.
    + by apply map_Forall_insert_2.
    + intros id'. rewrite elem_of_difference, elem_of_singleton, li_conns0. destruct (decide (id' = id)) as [->|].
      * rewrite lookup_insert_eq. split; [by intros [_ []]|]. by intros (? & [= <-] & ?).
      * rewrite lookup_insert_ne by done. naive_solver.
    + intros id' t'. destruct (decide (id' = id)) as [->|]; [intros _; by eapply li_ids0|].
      rewrite lookup_insert_ne by done. apply li_ids0.
  - destruct I as []. assert (size (thr s) <> 0)%nat as Hz.
    { intros ?%map_size_empty_inv. by rewrite H, lookup_empty in Ht. }
    split; cbn; try done.
    + rewrite map_size_delete_Some by eauto. lia.
    + lia.
    + by apply map_Forall_delete.
    + intros id'. rewrite li_conns0. destruct (decide (id' = id)) as [->|].
      * rewrite lookup_delete_eq. split; [|by intros (? & ? & _)]. intros (t' & E & ?). congruence.
      * by rewrite lookup_delete_ne.
    + intros id' t'. destruct (decide (id' = id)) as [->|]; [by rewrite lookup_delete_eq|].
      rewrite lookup_delete_ne by done. apply li_ids0.
Qed.
Lemma close_if_idle_inv s id : linv s -> linv (close_if_idle s id).
Proof. intros I. unfold close_if_idle. destruct (thr s !! id) as [t|]; [|done]. destruct (t_active t); [done|by apply close_socket_inv]. Qed.

(** Closing sockets changes nothing else. *)
Definition same_rest (s s' : srv) : Prop :=
  ln s' = ln s /\ inShutdown s' = inShutdown s /\ sem s' = sem s /\ conns s' = conns s /\ allocated s' = allocated s /\
  accept s' = accept s /\ drain s' = drain s.

Lemma close_socket_rest s id : same_rest s (close_socket s id).
Proof. unfold close_socket. by destruct (thr s !! id). Qed.

Lemma close_if_idle_rest s id : same_rest s (close_if_idle s id).
Proof.
  unfold close_if_idle. destruct (thr s !! id) as [t|]; [|done]. destruct (t_active t); [done|apply close_socket_rest].
Qed.

Lemma drain_inv s s' : linv s -> drain_step s s' -> linv s'.
Proof.
  intros I Hs. pose proof (li_ln _ s I) as Hln. pose proof (li_seen _ s I) as Hseen.
  assert (forall s1 d, linv s1 -> same_rest s s1 -> began (drain s) = true -> past_listener (drain s) = true ->
    began d = true -> (forall b, d <> DListener b) -> linv (set_drain s1 d)) as Hmove.
  { intros s1 d I1 (E1 & _ & _ & _ & _ & _ & E2) Hb Hp Hd Hl. apply linv_drain; [done|by rewrite E2, Hb, Hd|done|].
    intros _. rewrite E1. by apply Hln. }
  destruct Hs as [Hd|b Hd|id todo Hd|Hd|Hd _|Hd _|Hd|Hd|id todo Hd|Hd];
    try (apply Hmove; try done; rewrite Hd; done).
  - destruct I. split; cbn; try done. by intros b [= <-].
  - specialize (Hseen b Hd). destruct I as []. destruct b; (split; cbn; try done; try (by rewrite li_flag0, Hd)).
    + intros Ha. by rewrite (li_start0 Ha) in Hseen.
    + intros _ Hl. by rewrite Hl in Hseen.
  - apply Hmove; try done; [by apply close_if_idle_inv|apply close_if_idle_rest|by rewrite Hd..].
  - apply Hmove; try done; [by apply close_socket_inv|apply close_socket_rest|by rewrite Hd..].
Qed.

Lemma reach_inv s : reach MaxConns s -> linv s.
Proof.
  induction 1 as [|s s' _ IH Hs]; [apply linv_init|]. destruct Hs as [s' [s1 Hw|id t s1 Ht Hw]|s' Hd].
  - by eapply accept_inv.
  - by eapply conn_inv.
  - by eapply drain_inv.
Qed.
End proofs.

(** ** The drain terminates *)

(** The steps a goroutine can still make once the flag is set. *)
Definition phase_rank (p : phase) : nat :=
  match p with
  | PMark => 8 | PReading => 7 | PRead => 6 | PBusy => 5 | PTop => 4 | PFailed => 4
  | PDrop => 3 | PClosed => 2 | PGone => 1
  end.

Definition accept_rank (a : accepting) : nat :=
  match a with AGot => 8 | AAdd _ => 6 | AStart | AWait => 1 | ADone _ => 0 end.

Definition ranks (m : gmap Z thread) : nat := map_fold (fun _ t n => (phase_rank (t_phase t) + n)%nat) 0%nat m.

(** The steps the serving side can still make. *)
Definition work_left (s : srv) : nat := (ranks (thr s) + accept_rank (accept s))%nat.

Lemma ranks_new m id t : m !! id = None -> ranks (<[id := t]> m) = (phase_rank (t_phase t) + ranks m)%nat.
Proof. intros Hn. unfold ranks. rewrite map_fold_insert_L; [done| |done]. intros. lia. Qed.

Lemma ranks_delete m id t : m !! id = Some t -> ranks m = (phase_rank (t_phase t) + ranks (delete id m))%nat.
Proof.
  intros Ht. rewrite <- (ranks_new (delete id m) id t) by apply lookup_delete_eq. by rewrite insert_delete_id.
Qed.

Lemma ranks_update m id t t' : m !! id = Some t ->
  (ranks (<[id := t']> m) + phase_rank (t_phase t) = ranks m + phase_rank (t_phase t'))%nat.
Proof.
  intros Ht. rewrite (ranks_delete m id t Ht), <- (insert_delete_eq m), ranks_new by apply lookup_delete_eq. lia.
Qed.

(** Closed for good: the flag is set and the listener is not open. *)
Definition shut_down (s : srv) : Prop := inShutdown s = true /\ ln s <> Some true.

Section drain.
Variable MaxConns : nat.

Lemma accept_drains s s' : shut_down s -> linv MaxConns s -> accept_step MaxConns s s' ->
  shut_down s' /\ (work_left s' < work_left s)%nat.
Proof.
  intros [Hf Hl] I Hs. unfold work_left. destruct Hs as [Ha|Ha _|Ha Hop|Ha|Ha Hc|Ha Hc|id Ha _].
  - split; [done|]. rewrite Ha. cbn. lia.
  - unfold serve_start. rewrite Hf. split; [done|]. rewrite Ha. cbn. lia.
  - done.
  - split; [done|]. rewrite Ha. cbn. lia.
  - split; [done|]. rewrite Ha. cbn. lia.
  - split; [done|]. rewrite Ha. cbn. lia.
  - split; [done|]. assert (thr s !! id = None) as Hn.
    { destruct (thr s !! id) as [t|] eqn:Et; [|done]. pose proof (li_ids _ s I id t Et) as Hi.
      pose proof (li_add _ s I id Ha). rewrite Ha in Hi. cbn in Hi. lia. }
    cbn [add_conn thr accept]. rewrite ranks_new, Ha by done. cbn. lia.
Qed.

Lemma conn_drains s id t s' : shut_down s -> thr s !! id = Some t -> conn_step s id t s' ->
  shut_down s' /\ (work_left s' < work_left s)%nat.
Proof.
  intros Hsd Ht Hs. unfold work_left.
  assert (forall t', (phase_rank (t_phase t') < phase_rank (t_phase t))%nat ->
    shut_down (set_thread s id t') /\
    (ranks (thr (set_thread s id t')) + accept_rank (accept s) < ranks (thr s) + accept_rank (accept s))%nat) as Hset.
  { intros t' Hr. split; [done|]. cbn. pose proof (ranks_update (thr s) id t t' Ht). lia. }
  destruct Hs as [Hp Hi|Hp Hi|Hp|Hp|Hp|Hp|Hp|Hp|Hp|Hp|Hp _|Hp];
    try (apply Hset; rewrite Hp; cbn; lia).
  - destruct Hsd. congruence.
  - split; [done|]. cbn [release thr accept]. rewrite (ranks_delete _ id t Ht), Hp. cbn. lia.
Qed.

(** ** No connection stays blocked *)

(** A whole pass of [closeIdleConns]. *)
Definition idle_pass (s : srv) : srv := foldl close_if_idle s (elements (conns s)).

Lemma close_if_idle_thread s id id' t : thr s !! id' = Some t ->
  thr (close_if_idle s id) !! id' =
    Some (if bool_decide (id = id') && negb (t_active t) then MkThread (t_phase t) (t_active t) false else t).
Proof.
  intros Ht. unfold close_if_idle, close_socket. destruct (decide (id = id')) as [->|Hne].
  - rewrite bool_decide_eq_true_2, Ht by done. cbn [andb]. destruct (t_active t); cbn [negb]; [done|]. cbn.
    by rewrite lookup_insert_eq.
  - rewrite bool_decide_eq_false_2 by done. cbn [andb]. destruct (thr s !! id) as [t1|]; [|done].
    destruct (t_active t1); [done|]. cbn. by rewrite lookup_insert_ne.
Qed.

Lemma pass_thread ids : forall s id t, thr s !! id = Some t ->
  thr (foldl close_if_idle s ids) !! id =
    Some (if bool_decide (id ∈ ids) && negb (t_active t) then MkThread (t_phase t) (t_active t) false else t).
Proof.
  induction ids as [|i ids IH]; intros s id t Ht; cbn [foldl]; [by rewrite bool_decide_eq_false_2 by set_solver|].
  rewrite (IH _ _ _ (close_if_idle_thread s i id t Ht)). f_equal.
  destruct (decide (i = id)) as [->|Hne].
  - rewrite (bool_decide_eq_true_2 (id = id)), (bool_decide_eq_true_2 (id ∈ id :: ids)) by (done || set_solver).
    destruct (t_active t) eqn:Ea; cbn; rewrite ?Ea; cbn; [by rewrite andb_false_r|by destruct (bool_decide _)].
  - rewrite (bool_decide_eq_false_2 (i = id)) by done. cbn [andb].
    by rewrite (bool_decide_ext (id ∈ i :: ids) (id ∈ ids)) by set_solver.
Qed.

Lemma pass_rest ids : forall s, same_rest s (foldl close_if_idle s ids).
Proof.
  induction ids as [|i ids IH]; intros s; cbn [foldl]; [done|].
  destruct (IH (close_if_idle s i)) as (? & ? & ? & ? & ? & ? & ?).
  destruct (close_if_idle_rest s i) as (? & ? & ? & ? & ? & ? & ?). unfold same_rest. split_and!; congruence.
Qed.

(** A step that waits for nobody: not a read of an open socket. *)
Definition unblocked (s : srv) (id : Z) : Prop :=
  exists t s', thr s !! id = Some t /\ (t_phase t = PReading -> t_open t = false) /\ conn_step s id t s'.

Lemma pass_unblocks s id : linv MaxConns s -> inShutdown s = true -> mu_held s = false -> id ∈ conns s ->
  unblocked (idle_pass s) id.
Proof.
  intros I Hf Hmu Hid. destruct (proj1 (li_conns _ s I id) Hid) as (t & Ht & Hg).
  pose proof (pass_thread (elements (conns s)) s id t Ht) as Hp. fold (idle_pass s) in Hp.
  rewrite bool_decide_eq_true_2 in Hp by (by apply elem_of_elements). cbn [andb] in Hp.
  destruct (pass_rest (elements (conns s)) s) as (_ & Hf' & _ & _ & _ & _ & Hd'). fold (idle_pass s) in Hf', Hd'.
  set (t' := if negb (t_active t) then _ else t) in Hp.
  assert (t_phase t' = t_phase t) as Hph by (unfold t'; by destruct (negb _)).
  assert (t_phase t' = PReading -> t_open t' = false) as Hr.
  { rewrite Hph. intros Hr. pose proof (li_thread _ s I id t Ht) as Hok. unfold thread_ok in Hok. rewrite Hr in Hok.
    unfold t'. by rewrite Hok. }
  assert (exists s', conn_step (idle_pass s) id t' s') as [s' Hs]; [|by exists t', s'].
  destruct (t_phase t') eqn:E.
  - eexists. apply C_stop; [done|congruence].
  - eexists. by apply C_mark.
  - eexists. by apply C_fail.
  - eexists. by apply C_active.
  - eexists. by apply C_failed.
  - eexists. by apply C_end.
  - eexists. by apply C_close.
  - eexists. apply C_untrack; [done|]. unfold mu_held in *. by rewrite Hd'.
  - congruence.
Qed.
End drain.

(** ** The steps of a pass *)
Lemma close_if_idle_drain s d id : close_if_idle (set_drain s d) id = set_drain (close_if_idle s id) d.
Proof.
  unfold close_if_idle, close_socket. cbn [thr set_drain]. destruct (thr s !! id) as [t|]; [|done].
  by destruct (t_active t).
Qed.

Lemma close_socket_drain s d id : close_socket (set_drain s d) id = set_drain (close_socket s id) d.
Proof. unfold close_socket. cbn [thr set_drain]. by destruct (thr s !! id). Qed.

Lemma pass_steps ids : forall s, rtc drain_step (set_drain s (DIdle ids)) (set_drain (foldl close_if_idle s ids) DCount).
Proof.
  induction ids as [|i ids IH]; intros s; cbn [foldl].
  - apply rtc_once. change (set_drain s DCount) with (set_drain (set_drain s (DIdle [])) DCount). by apply D_idle_end.
  - eapply rtc_l; [by eapply D_idle|]. rewrite close_if_idle_drain. apply (IH (close_if_idle s i)).
Qed.

Lemma all_steps ids : forall s, rtc drain_step (set_drain s (DAll ids)) (set_drain (foldl close_socket s ids) (DDone false)).
Proof.
  induction ids as [|i ids IH]; intros s; cbn [foldl].
  - apply rtc_once. change (set_drain s (DDone false)) with (set_drain (set_drain s (DAll [])) (DDone false)). by apply D_all_end.
  - eapply rtc_l; [by eapply D_all|]. rewrite close_socket_drain. apply (IH (close_socket s i)).
Qed.

Lemma close_all_open ids : forall s id t, thr (foldl close_socket s ids) !! id = Some t -> id ∈ ids -> t_open t = false.
Proof.
  assert (forall s i id t, thr (close_socket s i) !! id = Some t ->
    exists t0, thr s !! id = Some t0 /\ t_open t = if bool_decide (i = id) then false else t_open t0) as Hone.
  { intros s i id t. unfold close_socket. destruct (thr s !! i) as [ti|] eqn:Ei; cbn.
    - destruct (decide (i = id)) as [->|].
      + rewrite lookup_insert_eq, bool_decide_eq_true_2 by done. intros [= <-]. by eexists.
      + rewrite lookup_insert_ne, bool_decide_eq_false_2 by done. eauto.
    - intros Ht. exists t. split; [done|]. rewrite bool_decide_eq_false_2; [done|]. intros ->. congruence. }
  induction ids as [|i ids IH] using rev_ind; intros s id t; [set_solver|].
  rewrite foldl_app. cbn [foldl]. intros (t0 & Ht0 & ->)%Hone Hin. case_bool_decide; [done|].
  eapply IH; [done|]. set_solver.
Qed.

(** ** Theorems *)

(** C8. The lifecycle is safe.  In every state reachable by interleaving the accept
    loop, the connections and a shutdown: never more than [MaxConns] connections are
    served, and every token of the semaphore is held by exactly one goroutine (or
    the connection being added), so none leaks; the tracked set is exactly the
    connections whose [dropConn] has not finished, and a connection that has left it
    has its socket closed; once [Shutdown] has passed the listener it is never open
    again, and [Serve] reports [ErrServerClosed] only after a shutdown began; and
    until the deadline a shutdown does not touch a connection that is serving a
    command. *)
Theorem lifecycle_safe (MaxConns : nat) (s : srv) : reach MaxConns s ->
  (sem s <= MaxConns)%nat /\ sem s = (size (thr s) + pending (accept s))%nat /\ (size (conns s) <= size (thr s))%nat /\
  (forall id, id ∈ conns s <-> exists t, thr s !! id = Some t /\ t_phase t <> PGone) /\
  (forall id t, thr s !! id = Some t -> t_phase t = PClosed \/ t_phase t = PGone -> t_open t = false) /\
  (past_listener (drain s) = true -> ln s <> Some true) /\
  (accept s = ADone true -> inShutdown s = true) /\
  (forall s' id t, drain_step s s' -> (forall todo, drain s <> DAll todo) ->
     thr s !! id = Some t -> t_phase t = PBusy -> thr s' !! id = Some t).
Proof.
  intros Hr. pose proof (reach_inv MaxConns s Hr) as I.
  split_and!; [apply I|apply I| |apply I| |apply I|apply I|].
  - rewrite <- size_dom. apply subseteq_size. intros id Hid. apply (li_conns _ s I) in Hid as (t & Ht & _).
    by apply elem_of_dom.
  - intros id t Ht Hp. pose proof (li_thread _ s I id t Ht) as Hok. unfold thread_ok in Hok.
    destruct Hp as [Hp|Hp]; by rewrite Hp in Hok.
  - intros s' id t Hs Hnall Ht Hb. pose proof (li_thread _ s I id t Ht) as Hok. unfold thread_ok in Hok. rewrite Hb in Hok.
    destruct Hs as [Hd|b Hd|i todo Hd|Hd|Hd _|Hd _|Hd|Hd|i todo Hd|Hd]; cbn; try done.
    + by destruct b.
    + rewrite (close_if_idle_thread s i id t Ht), Hok. cbn [negb]. by rewrite andb_false_r.
    + by destruct (Hnall (i :: todo)).
Qed.


(** ** A run *)

(** One connection is accepted and reads a command; then the server shuts down. *)
Definition run_read : srv :=
  MkSrv (Some true) false 1 {[1]} {[1 := MkThread PRead false true]} 1 AWait DNone.

Lemma run_read_reach : reach 1 run_read.
Proof.
  assert (forall s s' s'', reach 1 s -> step 1 s s' -> s' = s'' -> reach 1 s'') as Hgo
    by (intros s s' s'' Hr Hs <-; by eapply reach_step).
  assert (reach 1 (MkSrv (Some true) false 0 ∅ ∅ 0 AWait DNone)) as H1.
  { eapply Hgo; [apply reach_init|apply S_work, W_accept, A_start; done|done]. }
  assert (reach 1 (MkSrv (Some true) false 0 ∅ ∅ 0 AGot DNone)) as H2.
  { eapply Hgo; [exact H1|apply S_work, W_accept, A_conn; done|done]. }
  assert (reach 1 (MkSrv (Some true) false 1 ∅ ∅ 1 (AAdd 1) DNone)) as H3.
  { eapply Hgo; [exact H2|apply S_work, W_accept, A_admit; [done|cbn; lia]|done]. }
  assert (reach 1 (MkSrv (Some true) false 1 {[1]} {[1 := MkThread PTop false true]} 1 AWait DNone)) as H4.
  { eapply Hgo; [exact H3|apply S_work, W_accept, (A_add _ _ 1); done|]. unfold add_conn. cbn. f_equal. }
  assert (forall p p' a a' s', reach 1 (MkSrv (Some true) false 1 {[1]} {[1 := MkThread p a true]} 1 AWait DNone) ->
    conn_step (MkSrv (Some true) false 1 {[1]} {[1 := MkThread p a true]} 1 AWait DNone) 1 (MkThread p a true) s' ->
    s' = set_thread (MkSrv (Some true) false 1 {[1]} {[1 := MkThread p a true]} 1 AWait DNone) 1 (MkThread p' a' true) ->
    reach 1 (MkSrv (Some true) false 1 {[1]} {[1 := MkThread p' a' true]} 1 AWait DNone)) as Hc.
  { intros p p' a a' s' Hr Hs ->. eapply Hgo; [exact Hr|apply S_work; eapply W_conn; [by apply lookup_singleton_eq|exact Hs]|].
    unfold set_thread. cbn. by rewrite insert_singleton_eq. }
  eapply Hc; [|by apply C_read|done]. eapply Hc; [|by apply C_mark|done]. eapply Hc; [|by apply C_go|done]. exact H4.
Qed.

(** A connection that has read a command but not yet raised its flag counts as idle:
    a shutdown that falls into that window closes its socket, and the reply of a
    request that was fully received is lost. *)
Theorem shutdown_closes_read_command : exists s, reach 1 s /\ drain s = DIdle [] /\
  thr s !! 1 = Some (MkThread PRead false false).
Proof.
  eexists. split; [|split].
  - eapply reach_step; [eapply reach_step; [eapply reach_step; [exact run_read_reach|]|]|].
    + by apply S_drain, D_begin.
    + by apply S_drain, (D_listener _ true).
    + apply S_drain. eapply D_idle. cbn [drain set_drain]. f_equal.
  - done.
  - done.
Qed.

(** ** Witnesses *)
Lemma lifecycle_safe_witness : (sem run_read <= 1)%nat /\ sem run_read = (size (thr run_read) + 0)%nat.
Proof. destruct (lifecycle_safe 1 run_read run_read_reach) as (H1 & H2 & _). split; [exact H1|exact H2]. Defined.

