(* ===== verification/Float.v ===== *)
(** * Floating point and sorting

    [float64] as IEEE 754 binary64 in the executable specification of the Standard
    Library, with the operations the sources use: arithmetic, comparison, the order of
    [sort.Float64s], conversion from and to integers, and the verb [%.nf] of [fmt].
    And the stable insertion sort that stands for the functions of [sort]. *)
From S2P Require Import Prelude Hash Resp.
From Stdlib Require Import SpecFloat.

(** ** Arithmetic *)
Definition float64 : Type := spec_float.

Definition f64_add : float64 -> float64 -> float64 := SFadd 53 1024.
Definition f64_sub : float64 -> float64 -> float64 := SFsub 53 1024.
Definition f64_mul : float64 -> float64 -> float64 := SFmul 53 1024.
Definition f64_div : float64 -> float64 -> float64 := SFdiv 53 1024.
Definition f64_of (n : Z) : float64 := binary_normalize 53 1024 n 0 false.
Definition f64_zero : float64 := S754_zero false.

#[global] Instance float64_eq_dec : EqDecision float64.
Proof. unfold float64. solve_decision. Defined.

(** The conversion to [uint64] of a number in its range, towards zero. *)
Definition f64_to_u64 (f : float64) : Z :=
  match f with
  | S754_finite false m e => if 0 <=? e then Z.pos m * 2 ^ e else Z.pos m / 2 ^ (- e)
  | _ => 0
  end.

Definition is_nan (f : float64) : bool := match f with S754_nan => true | _ => false end.

(** ** Order *)

(** The comparison of [sort.Float64s]: a NaN is below every number. *)
Definition f64_less (x y : float64) : bool := SFltb x y || (is_nan x && negb (is_nan y)).

(** ** The verb [%.nf] *)

(** A quotient rounded to nearest, ties to even. *)
Definition round_even (n d : Z) : Z :=
  let q := n / d in
  let r := n mod d in
  if (2 * r <? d) || ((2 * r =? d) && Z.even q) then q else q + 1.

(** [|f| * 10 ^ prec], rounded. *)
Definition scaled (m e : Z) (prec : nat) : Z :=
  let t := 10 ^ Z.of_nat prec in
  if 0 <=? e then m * 2 ^ e * t else round_even (m * t) (2 ^ (- e)).

(** A number of at most 330 digits in decimal. *)
Definition decimal (n : Z) : bytes := itoa_fuel 330 n.

(** Exactly [prec] digits. *)
Fixpoint fraction (prec : nat) (n : Z) : bytes :=
  match prec with O => [] | S prec => fraction prec (n / 10) ++ [byte_of (48 + n mod 10)] end.

Definition fixed (neg : bool) (n : Z) (prec : nat) : bytes :=
  let t := 10 ^ Z.of_nat prec in
  (if neg then [x2d] else []) ++ decimal (n / t) ++ (match prec with O => [] | _ => x2e :: fraction prec (n mod t) end).

Definition format_f64 (prec : nat) (f : float64) : bytes :=
  match f with
  | S754_nan => B "NaN"
  | S754_infinity false => B "+Inf"
  | S754_infinity true => B "-Inf"
  | S754_zero neg => fixed neg 0 prec
  | S754_finite neg m e => fixed neg (scaled (Z.pos m) e prec) prec
  end.

(** ** Sorting *)
Section Sort.
Context {A : Type} (less : A -> A -> bool).

(** Before the first element that is not below. *)
Fixpoint insert_sorted (x : A) (l : list A) : list A :=
  match l with
  | [] => [x]
  | y :: l' => if less y x then y :: insert_sorted x l' else x :: l
  end.

Definition stable_sort (l : list A) : list A := foldr insert_sorted [] l.
End Sort.
