(* ===== verification/Flags.v ===== *)
(** * Command-line flags and their values

    What [cmd/cachemoney] uses of the standard library to read its configuration:
    the parsers [strconv.ParseInt] in base 0, [strconv.ParseBool] and
    [time.ParseDuration], and the argument loop of a [flag.FlagSet].  The loop runs
    over any list of declared flags; a flag carries the setter of its variable. *)
From S2P Require Import Prelude Hash Resp Float Server.
From Stdlib Require Import SpecFloat.

(** ** [strconv.ParseBool] *)
Definition ParseBool (s : bytes) : option bool :=
  if bool_decide (s ∈ [B "1"; B "t"; B "T"; B "TRUE"; B "true"; B "True"]) then Some true
  else if bool_decide (s ∈ [B "0"; B "f"; B "F"; B "FALSE"; B "false"; B "False"]) then Some false
  else None.

(** ** [strconv.ParseInt(s, 0, 64)] *)
Definition is_digit (c : byte) : bool := (48 <=? code c) && (code c <=? 57).

(** [lower] of [strconv]: the letter bit is set. *)
Definition lower (c : byte) : Z := Z.lor (code c) 32.

Definition base_digit (base : Z) (c : byte) : option Z :=
  let d := if is_digit c then Some (code c - 48)
           else if (97 <=? lower c) && (lower c <=? 122) then Some (lower c - 87) else None in
  v ← d; if base <=? v then None else Some v.

(** The digits of [ParseUint], underscores skipped. *)
Fixpoint base_value (base acc : Z) (s : bytes) : option Z :=
  match s with
  | [] => Some acc
  | c :: s =>
      if bool_decide (c = x5f) then base_value base acc s
      else d ← base_digit base c; base_value base (acc * base + d) s
  end.

(** The base a prefix chooses, and the digits after it. *)
Definition base_prefix (s : bytes) : Z * bytes :=
  match s with
  | x30 :: c :: _ :: _ =>
      if lower c =? 98 then (2, drop 2 s)
      else if lower c =? 111 then (8, drop 2 s)
      else if lower c =? 120 then (16, drop 2 s)
      else (8, drop 1 s)
  | x30 :: _ => (8, drop 1 s)
  | _ => (10, s)
  end.

Inductive seen : Type := SawStart | SawDigit | SawUnderscore | SawOther.

(** The loop of [underscoreOK]. *)
Fixpoint underscores_ok (hex : bool) (prev : seen) (s : bytes) : bool :=
  match s with
  | [] => match prev with SawUnderscore => false | _ => true end
  | c :: s =>
      if is_digit c || (hex && ((97 <=? lower c) && (lower c <=? 102))) then underscores_ok hex SawDigit s
      else if bool_decide (c = x5f) then
        match prev with SawDigit => underscores_ok hex SawUnderscore s | _ => false end
      else match prev with SawUnderscore => false | _ => underscores_ok hex SawOther s end
  end.

Definition underscoreOK (s : bytes) : bool :=
  match s with
  | x30 :: c :: s' =>
      if (lower c =? 98) || (lower c =? 111) || (lower c =? 120)
      then underscores_ok (lower c =? 120) SawDigit s' else underscores_ok false SawStart s
  | _ => underscores_ok false SawStart s
  end.

Definition ParseUint0 (s : bytes) : option Z :=
  match s with
  | [] => None
  | _ =>
      let '(base, ds) := base_prefix s in
      n ← base_value base 0 ds;
      if 2 ^ 64 <=? n then None
      else if bool_decide (x5f ∈ ds) && negb (underscoreOK s) then None else Some n
  end.

Definition ParseInt0 (s : bytes) : option Z :=
  let '(neg, s') :=
    match s with
    | x2b :: s' => (false, s')
    | x2d :: s' => (true, s')
    | _ => (false, s)
    end in
  un ← ParseUint0 s';
  if neg : bool then (if 2 ^ 63 <? un then None else Some (- un))
  else (if 2 ^ 63 <=? un then None else Some un).

(** ** [time.ParseDuration] *)

(** [leadingInt]: the number, and the text behind it. *)
Fixpoint leadingInt (x : Z) (s : bytes) : option (Z * bytes) :=
  match s with
  | c :: s' =>
      if is_digit c then
        if 2 ^ 63 / 10 <? x then None
        else
          let x := x * 10 + (code c - 48) in
          if 2 ^ 63 <? x then None else leadingInt x s'
      else Some (x, s)
  | [] => Some (x, [])
  end.

(** [leadingFraction]: the digits kept, the scale, and the text behind them. *)
Fixpoint leadingFraction (x : Z) (scale : spec_float) (overflow : bool) (s : bytes) : Z * spec_float * bytes :=
  match s with
  | c :: s' =>
      if is_digit c then
        if overflow then leadingFraction x scale true s'
        else if (2 ^ 63 - 1) / 10 <? x then leadingFraction x scale true s'
        else
          let y := x * 10 + (code c - 48) in
          if 2 ^ 63 <? y then leadingFraction x scale true s'
          else leadingFraction y (f64_mul scale (f64_of 10)) false s'
      else (x, scale, s)
  | [] => (x, scale, [])
  end.

Definition unitMap (u : bytes) : option Z :=
  if bool_decide (u = B "ns") then Some 1
  else if bool_decide (u ∈ [B "us"; [xc2; xb5; x73]; [xce; xbc; x73]]) then Some 1000
  else if bool_decide (u = B "ms") then Some millisecond
  else if bool_decide (u = B "s") then Some second
  else if bool_decide (u = B "m") then Some (60 * second)
  else if bool_decide (u = B "h") then Some (3600 * second)
  else None.

(** The unit ends at the next digit or period. *)
Fixpoint span_unit (s : bytes) : bytes * bytes :=
  match s with
  | c :: s' => if is_digit c || bool_decide (c = x2e) then ([], s) else let '(u, r) := span_unit s' in (c :: u, r)
  | [] => ([], [])
  end.

(** The number in front of a unit: whole part, fraction, scale, rest. *)
Definition duration_number (s : bytes) : option (Z * Z * spec_float * bytes) :=
  match s with
  | c :: _ =>
      if negb (is_digit c || bool_decide (c = x2e)) then None
      else
        vs ← leadingInt 0 s;
        let '(v, s1) := vs in
        let pre := negb (length s =? length s1)%nat in
        let '(f, scale, s2, post) :=
          match s1 with
          | x2e :: s1' => let '(f, scale, s2) := leadingFraction 0 (f64_of 1) false s1' in
                          (f, scale, s2, negb (length s1' =? length s2)%nat)
          | _ => (0, f64_of 1, s1, false)
          end in
        if negb pre && negb post then None else Some (v, f, scale, s2)
  | [] => None
  end.

(** One iteration: the nanoseconds of one number with its unit, and the rest. *)
Definition duration_segment (s : bytes) : option (Z * bytes) :=
  r ← duration_number s;
  let '(v, f, scale, s2) := r in
  let '(u, s3) := span_unit s2 in
  if bool_decide (u = []) then None
  else
    unit ← unitMap u;
    if 2 ^ 63 / unit <? v then None
    else if 0 <? f then
      let v := u64 (v * unit + f64_to_u64 (f64_mul (f64_of f) (f64_div (f64_of unit) scale))) in
      if 2 ^ 63 <? v then None else Some (v, s3)
    else Some (v * unit, s3).

(** Each iteration takes at least one byte. *)
Fixpoint duration_loop (fuel : nat) (d : Z) (s : bytes) : option Z :=
  match s, fuel with
  | [], _ => Some d
  | _, O => None
  | _, S fuel =>
      r ← duration_segment s;
      let '(v, s') := r in
      let d := u64 (d + v) in
      if 2 ^ 63 <? d then None else duration_loop fuel d s'
  end.

Definition ParseDuration (s : bytes) : option Z :=
  let '(neg, s) :=
    match s with
    | x2d :: s' => (true, s')
    | x2b :: s' => (false, s')
    | _ => (false, s)
    end in
  if bool_decide (s = B "0") then Some 0
  else if bool_decide (s = []) then None
  else
    d ← duration_loop (length s) 0 s;
    if neg : bool then Some (i64 (- i64 d))
    else if 2 ^ 63 - 1 <? d then None else Some d.

(** ** [flag.FlagSet] *)
Record formal (A : Type) : Type := MkFormal {
  f_name : bytes;
  f_bool : bool;                       (** [IsBoolFlag] *)
  f_set : bytes -> A -> option A;      (** [Value.Set] *)
}.
Arguments MkFormal {A} _ _ _.
Arguments f_name {A} _.
Arguments f_bool {A} _.
Arguments f_set {A} _ _ _.

Inductive flag_err : Type :=
| ErrBadSyntax (s : bytes)
| ErrHelp
| ErrNotDefined (name : bytes)
| ErrNeedsArgument (name : bytes)
| ErrInvalidValue (name value : bytes).

(** An argument: not a flag, the terminator, a flag with its inline value, or bad. *)
Inductive flag_word : Type := NoFlag | EndOfFlags | FlagWord (name : bytes) (value : option bytes) | BadFlag.

(** The first equals sign that is not the first byte splits name and value. *)
Fixpoint split_eq (s : bytes) : bytes * option bytes :=
  match s with
  | [] => ([], None)
  | c :: s' => if bool_decide (c = x3d) then ([], Some s') else let '(n, v) := split_eq s' in (c :: n, v)
  end.

Definition flag_of (name : bytes) : flag_word :=
  match name with
  | [] => BadFlag
  | c :: s =>
      if bool_decide (c = x2d) || bool_decide (c = x3d) then BadFlag
      else let '(n, v) := split_eq s in FlagWord (c :: n) v
  end.

Definition classify_arg (s : bytes) : flag_word :=
  match s with
  | x2d :: x2d :: [] => EndOfFlags
  | x2d :: x2d :: name => flag_of name
  | x2d :: [] => NoFlag
  | x2d :: name => flag_of name
  | _ => NoFlag
  end.

Section FlagSet.
Context {A : Type} (flags : list (formal A)).

Definition lookup_flag (name : bytes) : option (formal A) := find (fun f => bool_decide (f_name f = name)) flags.

(** [Parse] with [ContinueOnError]: the variables and the remaining arguments. *)
Fixpoint Parse (args : list bytes) (a : A) : (A * list bytes) + flag_err :=
  match args with
  | [] => inl (a, [])
  | s :: rest =>
      match classify_arg s with
      | NoFlag => inl (a, s :: rest)
      | EndOfFlags => inl (a, rest)
      | BadFlag => inr (ErrBadSyntax s)
      | FlagWord name value =>
          match lookup_flag name with
          | None => inr (if bool_decide (name ∈ [B "help"; B "h"]) then ErrHelp else ErrNotDefined name)
          | Some f =>
              if f_bool f then
                let v := default (B "true") value in
                match f_set f v a with
                | None => inr (ErrInvalidValue name v)
                | Some a' => Parse rest a'
                end
              else
                match value, rest with
                | Some v, _ =>
                    match f_set f v a with
                    | None => inr (ErrInvalidValue name v)
                    | Some a' => Parse rest a'
                    end
                | None, [] => inr (ErrNeedsArgument name)
                | None, v :: rest' =>
                    match f_set f v a with
                    | None => inr (ErrInvalidValue name v)
                    | Some a' => Parse rest' a'
                    end
                end
          end
      end
  end.
End FlagSet.
