(* ===== verification/FlagsSpec.v ===== *)
(** * What the flag and duration parsers accept

    The argument loop of [flag.FlagSet] as a grammar: a command line is a sequence of
    flag settings in their four spellings and a tail.  And [time.ParseDuration] on
    whole numbers with units, as a sum in unbounded integers. *)
From S2P Require Import Prelude Hash Resp Float Server Flags.
From Stdlib Require Import SpecFloat.

(** ** Words *)
Definition good_name (name : bytes) : Prop := head name <> Some x2d /\ name <> [] /\ x3d ∉ name.

Inductive spelling : Type := Inline (v : bytes) | Next (v : bytes) | Bare.

(** One setting on the command line. *)
Record setting : Type := MkSetting { double : bool; flag : bytes; spelled : spelling }.

Definition dashes (d : bool) : bytes := if d then [x2d; x2d] else [x2d].

Definition words (i : setting) : list bytes :=
  match spelled i with
  | Inline v => [dashes (double i) ++ flag i ++ x3d :: v]
  | Next v => [dashes (double i) ++ flag i; v]
  | Bare => [dashes (double i) ++ flag i]
  end.

(** The text its variable is set from. *)
Definition text (i : setting) : bytes :=
  match spelled i with Inline v | Next v => v | Bare => B "true" end.

(** Where the flags end, and what remains. *)
Inductive ends : list bytes -> list bytes -> Prop :=
| ends_nil : ends [] []
| ends_word s l : classify_arg s = NoFlag -> ends (s :: l) (s :: l)
| ends_dashes l : ends (B "--" :: l) l.

Lemma split_eq_app n v : x3d ∉ n -> split_eq (n ++ x3d :: v) = (n, Some v).
Proof.
  induction n as [|c n IH]; intros Hn; cbn; [done|].
  rewrite not_elem_of_cons in Hn. destruct Hn as [Hc Hn]. rewrite bool_decide_eq_false_2 by done. by rewrite IH.
Qed.

Lemma split_eq_none n : x3d ∉ n -> split_eq n = (n, None).
Proof.
  induction n as [|c n IH]; intros Hn; cbn; [done|].
  rewrite not_elem_of_cons in Hn. destruct Hn as [Hc Hn]. rewrite bool_decide_eq_false_2 by done. by rewrite IH.
Qed.

Lemma split_eq_inv s : forall n v, split_eq s = (n, v) ->
  (x3d ∉ n) /\ s = (match v with Some v => n ++ x3d :: v | None => n end).
Proof.
  induction s as [|c s IH]; intros n v; cbn; [intros [= <- <-]; set_solver|].
  case_bool_decide as Hc; [intros [= <- <-]; subst; set_solver|].
  destruct (split_eq s) as [n' v'] eqn:E. intros [= <- <-]. destruct (IH _ _ eq_refl) as [Hn ->].
  split; [set_solver|]. by destruct v'.
Qed.

(** A flag word is dashes, a good name and perhaps an inline value, and nothing else
    is. *)
Definition word (d : bool) (name : bytes) (v : option bytes) : bytes :=
  dashes d ++ name ++ match v with Some v => x3d :: v | None => [] end.

Lemma flag_of_word name v : good_name name ->
  flag_of (name ++ match v with Some v => x3d :: v | None => [] end) = FlagWord name v.
Proof.
  intros (Hd & Hne & Heq). destruct name as [|c name]; [done|]. cbn in Hd |- *.
  rewrite not_elem_of_cons in Heq. destruct Heq as [Hc Heq].
  rewrite !bool_decide_eq_false_2 by congruence. cbn.
  destruct v; [by rewrite split_eq_app|by rewrite app_nil_r, split_eq_none].
Qed.

Lemma classify_word d name v : good_name name -> classify_arg (word d name v) = FlagWord name v.
Proof.
  intros Hn. pose proof (flag_of_word name v Hn) as H. unfold word. destruct Hn as (Hd & Hne & _).
  destruct name as [|c name]; [done|]. cbn in Hd. destruct d; cbn in *; [done|].
  destruct c; done.
Qed.

Lemma flag_of_inv s name v : flag_of s = FlagWord name v ->
  good_name name /\ s = name ++ match v with Some v => x3d :: v | None => [] end.
Proof.
  destruct s as [|c s]; [done|]. cbn. repeat case_bool_decide; cbn; try done.
  destruct (split_eq s) as [n v'] eqn:E. intros [= <- <-]. apply split_eq_inv in E as [Hn ->].
  split; [split_and!; [cbn; congruence|done|set_solver]|]. destruct v'; [done|by rewrite app_nil_r].
Qed.

Lemma classify_cases s :
  match classify_arg s with
  | FlagWord name v => good_name name /\ exists d, s = word d name v
  | EndOfFlags => s = B "--"
  | _ => True
  end.
Proof.
  destruct s as [|c s]; [done|]. cbn. destruct c; try done.
  destruct s as [|c' s]; [done|].
  assert (forall d s', (dashes d ++ s' = x2d :: c' :: s) ->
    match flag_of s' with
    | FlagWord name v => good_name name /\ exists d, x2d :: c' :: s = word d name v
    | EndOfFlags => x2d :: c' :: s = B "--" | _ => True end) as Hgo.
  { intros d s' E. destruct (flag_of s') as [| |name v|] eqn:F; try done.
    - by destruct s' as [|? s']; cbn in F; [|destruct (_ || _), (split_eq s')].
    - apply flag_of_inv in F as [Hg ->]. split; [done|]. exists d. by rewrite <- E. }
  destruct c'; try by apply (Hgo false). destruct s as [|c'' s]; [done|]. by apply (Hgo true).
Qed.

(** ** The argument loop *)
Section Parse.
Context {A : Type} (flags : list (formal A)).
Hypothesis names_ok : Forall (fun f => good_name (f_name f)) flags.

(** A setting of a declared flag, spelled as its type allows. *)
Definition declared (i : setting) : Prop := exists f, lookup_flag flags (flag i) = Some f /\
  match spelled i with Inline _ => True | Next _ => f_bool f = false | Bare => f_bool f = true end.

Definition assign (a : A) (i : setting) : option A := f ← lookup_flag flags (flag i); f_set f (text i) a.

Definition assign_all (a : A) (l : list setting) : option A := foldl (fun oa i => a ← oa; assign a i) (Some a) l.

Lemma assign_all_none l : foldl (fun oa i => a ← oa; assign a i) None l = None.
Proof. by induction l. Qed.

Lemma assign_all_cons a i l : assign_all a (i :: l) = a' ← assign a i; assign_all a' l.
Proof. unfold assign_all. cbn. destruct (assign a i) as [a'|]; [done|]. apply assign_all_none. Qed.

Lemma lookup_flag_name name f : lookup_flag flags name = Some f -> f_name f = name /\ good_name name.
Proof.
  intros [Hin Hn]%find_some. apply bool_decide_eq_true in Hn. subst. split; [done|].
  rewrite Forall_forall in names_ok. apply names_ok. by apply list_elem_of_In.
Qed.

(** The loop takes the words of one setting at a time. *)
Lemma Parse_setting i args a : declared i ->
  Parse flags (words i ++ args) a =
    match assign a i with Some a' => Parse flags args a' | None => inr (ErrInvalidValue (flag i) (text i)) end.
Proof.
  destruct i as [d name sp]. intros (f & Hf & Hs). cbn in Hf, Hs. unfold words, assign, text. cbn [flag spelled double].
  destruct (lookup_flag_name name f Hf) as [_ Hg]. rewrite Hf. cbn [mbind option_bind].
  assert (forall v, classify_arg (dashes d ++ name ++ x3d :: v) = FlagWord name (Some v)) as Hi
    by (intros v; exact (classify_word d name (Some v) Hg)).
  assert (classify_arg (dashes d ++ name) = FlagWord name None) as Hb.
  { pose proof (classify_word d name None Hg) as H. unfold word in H. by rewrite app_nil_r in H. }
  destruct sp as [v|v|]; cbn [app Parse]; rewrite ?Hi, ?Hb; rewrite Hf; [|by rewrite Hs..].
  by destruct (f_bool f).
Qed.

Lemma Parse_settings l : forall args a, Forall declared l ->
  (forall a', assign_all a l = Some a' -> Parse flags (mjoin (words <$> l) ++ args) a = Parse flags args a') /\
  (assign_all a l = None -> exists e, Parse flags (mjoin (words <$> l) ++ args) a = inr e).
Proof.
  induction l as [|i l IH]; intros args a Hl.
  - split; [by intros a' [= <-]|done].
  - apply Forall_cons in Hl as [Hi Hl].
    replace (mjoin (words <$> i :: l) ++ args) with (words i ++ mjoin (words <$> l) ++ args) by apply app_assoc.
    rewrite (Parse_setting i _ a Hi), assign_all_cons.
    destruct (assign a i) as [a1|]; cbn [mbind option_bind]; [by apply IH|]. split; [done|]. eauto.
Qed.

Lemma Parse_ends tail rest a : ends tail rest -> Parse flags tail a = inl (a, rest).
Proof. intros []; cbn; [done|by rewrite H|done]. Qed.

(** A first argument is a setting of a declared flag, the end, or an error. *)
Lemma Parse_split args a r : Parse flags args a = inl r ->
  (exists rest, ends args rest /\ r = (a, rest)) \/
  (exists i args', declared i /\ args = words i ++ args' /\ (length args' < length args)%nat).
Proof.
  destruct args as [|s rest]; [intros [= <-]; left; eexists; split; [constructor|done]|]. cbn [Parse].
  pose proof (classify_cases s) as Hs. destruct (classify_arg s) as [| |name v|] eqn:Ec; try done.
  - intros [= <-]. left. eexists. split; [by apply ends_word|done].
  - subst. intros [= <-]. left. eexists. split; [apply ends_dashes|done].
  - destruct Hs as (Hg & d & ->). destruct (lookup_flag flags name) as [f|] eqn:Ef; [|done]. intros H. right.
    unfold word in *. destruct (f_bool f) eqn:Eb; destruct v as [v|].
    + exists (MkSetting d name (Inline v)), rest. split_and!; [by exists f|done|cbn; lia].
    + exists (MkSetting d name Bare), rest. split_and!; [by exists f|by rewrite app_nil_r|cbn; lia].
    + exists (MkSetting d name (Inline v)), rest. split_and!; [by exists f|done|cbn; lia].
    + destruct rest as [|v rest]; [done|].
      exists (MkSetting d name (Next v)), rest. split_and!; [by exists f|by rewrite app_nil_r|cbn; lia].
Qed.

(** [Parse] succeeds exactly on settings of declared flags with values their types
    accept, followed by an end; the variables are assigned in order. *)
Lemma Parse_iff args a a' rest : Parse flags args a = inl (a', rest) <->
  exists l tail, Forall declared l /\ args = mjoin (words <$> l) ++ tail /\ ends tail rest /\ assign_all a l = Some a'.
Proof.
  split.
  - revert a. induction args as [args IH] using (induction_ltof1 _ length). intros a Hp.
    destruct (Parse_split args a _ Hp) as [(r & He & [= <- <-])|(i & args' & Hi & -> & Hlt)].
    + exists [], args. split_and!; [constructor|done|done|done].
    + rewrite (Parse_setting i args' a Hi) in Hp. destruct (assign a i) as [a1|] eqn:Ea; [|done].
      destruct (IH args' Hlt a1 Hp) as (l & tail & Hl & -> & He & Hall).
      exists (i :: l), tail. split_and!; [by constructor|cbn; by rewrite <- app_assoc|done|].
      by rewrite assign_all_cons, Ea.
  - intros (l & tail & Hl & -> & He & Ha).
    rewrite (proj1 (Parse_settings l tail a Hl) a' Ha). by apply Parse_ends.
Qed.
End Parse.

(** ** Durations *)

(** A whole number with its unit: the digits, the unit's name, and its nanoseconds. *)
Record segment : Type := MkSegment { digits : bytes; unit_name : bytes; amount : Z; unit_ns : Z }.

Definition segment_ok (g : segment) : Prop :=
  digits g <> [] /\ digits_value 0 (digits g) = Some (amount g) /\ unitMap (unit_name g) = Some (unit_ns g).

Definition segment_text (g : segment) : bytes := digits g ++ unit_name g.

Definition nanoseconds (l : list segment) : Z := foldr (fun g n => amount g * unit_ns g + n) 0 l.

Definition breaks (c : byte) : bool := is_digit c || bool_decide (c = x2e).

Lemma digits_ge ds : forall x m, 0 <= x -> digits_value x ds = Some m -> x <= m.
Proof.
  induction ds as [|c ds IH]; intros x m Hx; cbn [digits_value]; [intros [= <-]; lia|].
  destruct ((48 <=? code c) && (code c <=? 57)) eqn:E; [|done]. intros H.
  apply andb_prop in E as [E%Z.leb_le _]. apply IH in H; lia.
Qed.

Lemma leadingInt_digits ds r : from_option is_digit false (head r) = false -> forall x m, 0 <= x <= 2 ^ 63 ->
  digits_value x ds = Some m -> leadingInt x (ds ++ r) = if 2 ^ 63 <? m then None else Some (m, r).
Proof.
  intros Hr. induction ds as [|c ds IH]; intros x m Hx; cbn [digits_value app leadingInt].
  - intros [= <-]. replace (2 ^ 63 <? x) with false by lia. destruct r as [|c r]; [done|]. cbn in *. by rewrite Hr.
  - fold (is_digit c). destruct (is_digit c) eqn:E; [|done]. intros H.
    assert (0 <= code c - 48 <= 9) by (apply andb_prop in E as [?%Z.leb_le ?%Z.leb_le]; lia).
    assert (x * 10 + (code c - 48) <= m) by (eapply digits_ge; [|exact H]; lia). pose proof (Z.mul_succ_div_gt (2 ^ 63) 10).
    destruct (Z.ltb_spec (2 ^ 63 / 10) x); [by replace (2 ^ 63 <? m) with true by lia|].
    destruct (Z.ltb_spec (2 ^ 63) (x * 10 + (code c - 48))); [by replace (2 ^ 63 <? m) with true by lia|].
    apply IH; [lia|done].
Qed.

Lemma span_unit_app u r : forallb (fun c => negb (breaks c)) u = true -> from_option breaks true (head r) = true ->
  span_unit (u ++ r) = (u, r).
Proof.
  induction u as [|c u IH]; cbn; intros Hu Hr.
  - destruct r as [|c r]; [done|]. cbn in *. unfold breaks in Hr. by rewrite Hr.
  - apply andb_prop in Hu as [Hc Hu]. unfold breaks in Hc. apply negb_true_iff in Hc. rewrite Hc, IH by done. done.
Qed.

Lemma unitMap_name u k : unitMap u = Some k -> u <> [] /\ forallb (fun c => negb (breaks c)) u = true /\ 1 <= k.
Proof.
  unfold unitMap, millisecond, second.
  repeat case_bool_decide; try done; intros [= <-]; subst; try done.
  match goal with H : u ∈ _ |- _ => rewrite !elem_of_cons, elem_of_nil in H; destruct H as [->|[->|[->|[]]]] end; done.
Qed.

Lemma segment_parse g r : segment_ok g -> from_option breaks true (head r) = true ->
  duration_segment (segment_text g ++ r) =
    if 2 ^ 63 <? amount g * unit_ns g then None else Some (amount g * unit_ns g, r).
Proof.
  intros (Hne & Hd & Hu) Hr. destruct (unitMap_name _ _ Hu) as (Hun & Hub & Hk).
  assert (0 <= amount g) as Hv by (by eapply digits_ge; [|exact Hd]). unfold segment_text. rewrite <- app_assoc.
  assert (from_option breaks true (head (unit_name g ++ r)) = false) as Hh.
  { destruct (unit_name g) as [|c u]; [done|]. cbn in Hub |- *. apply andb_prop in Hub as [Hub _]. by apply negb_true_iff. }
  unfold duration_segment, duration_number.
  destruct (digits g) as [|c ds] eqn:Ed; [done|]. cbn [app].
  assert (is_digit c = true) as -> by (cbn in Hd; unfold is_digit; by destruct ((48 <=? code c) && (code c <=? 57))).
  cbn [orb negb]. change (c :: ds ++ unit_name g ++ r) with ((c :: ds) ++ unit_name g ++ r).
  rewrite (leadingInt_digits (c :: ds) (unit_name g ++ r)) with (m := amount g); [|..|lia|done].
  2:{ destruct (unit_name g ++ r) as [|c' s]; [done|]. cbn in *. unfold breaks in Hh. by apply orb_false_iff in Hh as [-> _]. }
  pose proof (Z.div_mul_le (2 ^ 63) (unit_ns g) 1).
  destruct (Z.ltb_spec (2 ^ 63) (amount g)); cbn [mbind option_bind].
  { by replace (2 ^ 63 <? amount g * unit_ns g) with true by nia. }
  assert (match unit_name g ++ r with
          | x2e :: s1' => let '(f, scale, s2) := leadingFraction 0 (f64_of 1) false s1' in (f, scale, s2, negb (length s1' =? length s2)%nat)
          | _ => (0, f64_of 1, unit_name g ++ r, false) end = (0, f64_of 1, unit_name g ++ r, false)) as ->.
  { destruct (unit_name g ++ r) as [|c' s]; [done|]. cbn in Hh. by destruct c'. }
  replace (length ((c :: ds) ++ unit_name g ++ r) =? length (unit_name g ++ r))%nat with false.
  2:{ symmetry. apply Nat.eqb_neq. rewrite length_app. cbn. lia. }
  cbn [negb andb mbind option_bind]. rewrite span_unit_app by done. rewrite bool_decide_eq_false_2 by done.
  rewrite Hu. cbn [mbind option_bind].
  replace (2 ^ 63 / unit_ns g <? amount g) with (2 ^ 63 <? amount g * unit_ns g); [done|].
  pose proof (Z.mul_div_le (2 ^ 63) (unit_ns g)). pose proof (Z.mul_succ_div_gt (2 ^ 63) (unit_ns g)).
  apply eq_bool_prop_intro. rewrite !Is_true_true, !Z.ltb_lt. nia.
Qed.

Lemma segments_head l : Forall segment_ok l -> from_option breaks true (head (mjoin (segment_text <$> l))) = true.
Proof.
  destruct 1 as [|g l (Hne & Hd & _)]; [done|]. cbn. unfold segment_text. destruct (digits g) as [|c ds]; [done|].
  cbn in *. unfold breaks, is_digit. by destruct ((48 <=? code c) && (code c <=? 57)).
Qed.

Lemma nanoseconds_pos l : Forall segment_ok l -> 0 <= nanoseconds l.
Proof.
  induction 1 as [|g l (_ & Hd & Hu) _ IH]; [done|]. apply unitMap_name in Hu as (_ & _ & Hk).
  assert (0 <= amount g) by (by eapply digits_ge; [|exact Hd]).
  change (nanoseconds (g :: l)) with (amount g * unit_ns g + nanoseconds l). nia.
Qed.

Lemma duration_sum l : forall fuel d, Forall segment_ok l -> (length l <= fuel)%nat -> 0 <= d <= 2 ^ 63 -> d + nanoseconds l < 2 ^ 64 ->
  duration_loop fuel d (mjoin (segment_text <$> l)) = if 2 ^ 63 <? d + nanoseconds l then None else Some (d + nanoseconds l).
Proof.
  induction l as [|g l IH]; intros fuel d Hl Hf Hd Hs.
  - cbn. rewrite Z.add_0_r. replace (2 ^ 63 <? d) with false by lia. by destruct fuel.
  - destruct fuel as [|fuel]; [cbn in Hf; lia|]. pose proof Hl as [Hg Hl']%Forall_cons.
    change (mjoin (segment_text <$> g :: l)) with (segment_text g ++ mjoin (segment_text <$> l)).
    change (nanoseconds (g :: l)) with (amount g * unit_ns g + nanoseconds l) in *.
    pose proof (nanoseconds_pos l Hl') as Hp. pose proof (segment_parse g _ Hg (segments_head l Hl')) as Hseg.
    assert (0 <= amount g * unit_ns g) as Hk.
    { destruct Hg as (_ & Hdg & (_ & _ & ?)%unitMap_name). assert (0 <= amount g) by (by eapply digits_ge; [|exact Hdg]). nia. }
    destruct (segment_text g ++ mjoin (segment_text <$> l)) as [|c s] eqn:Es.
    { destruct Hg as (Hne & _). unfold segment_text in Es. by destruct (digits g). }
    cbn [duration_loop]. rewrite Hseg.
    destruct (Z.ltb_spec (2 ^ 63) (amount g * unit_ns g)); cbn [mbind option_bind].
    { by replace (2 ^ 63 <? d + (amount g * unit_ns g + nanoseconds l)) with true by lia. }
    rewrite u64_id by (split; lia). rewrite Z.add_assoc.
    destruct (Z.ltb_spec (2 ^ 63) (d + amount g * unit_ns g)).
    { by replace (2 ^ 63 <? d + amount g * unit_ns g + nanoseconds l) with true by lia. }
    apply IH; [done|cbn in Hf; lia|lia|lia].
Qed.

Definition sign_text (s : option bool) : bytes :=
  match s with None => [] | Some false => [x2b] | Some true => [x2d] end.

Definition signed (s : option bool) (n : Z) : Z := match s with Some true => - n | _ => n end.

(** A sum of whole numbers with units, below 2^64 ns, denotes itself when it fits. *)
Lemma ParseDuration_sum s l : l <> [] -> Forall segment_ok l -> nanoseconds l < 2 ^ 64 ->
  ParseDuration (sign_text s ++ mjoin (segment_text <$> l)) =
    if bool_decide (in_i64 (signed s (nanoseconds l))) then Some (signed s (nanoseconds l)) else None.
Proof.
  intros Hne Hl Hlt. set (b := mjoin (segment_text <$> l)).
  assert (length l <= length b)%nat as Hlen.
  { clear Hne Hlt. subst b. induction Hl as [|g l (Hd & _) _ IH]; [done|].
    change (mjoin (segment_text <$> g :: l)) with (segment_text g ++ mjoin (segment_text <$> l)). rewrite length_app.
    unfold segment_text at 1. rewrite length_app. destruct (digits g); [done|]. cbn. lia. }
  pose proof (nanoseconds_pos l Hl) as Hp.
  pose proof (duration_sum l (length b) 0 Hl Hlen ltac:(lia) ltac:(lia)) as Hsum. fold b in Hsum.
  assert (b <> [] /\ b <> B "0" /\ head b <> Some x2d /\ head b <> Some x2b) as (Hb & Hb0 & Hm & Hpl).
  { destruct l as [|g l]; [done|]. subst b. cbn. apply Forall_cons in Hl as [(Hd & Hv & Hu) _].
    apply unitMap_name in Hu as (Hun & _). unfold segment_text.
    destruct (digits g) as [|c ds]; [done|]. cbn in Hv |- *.
    destruct ((48 <=? code c) && (code c <=? 57)) eqn:E; [|done]. split_and!; [done| | |]; [|by intros [= ->]..].
    intros Hx. apply (f_equal length) in Hx. cbn in Hx. rewrite !length_app in Hx. destruct (unit_name g); [done|]. cbn in Hx. lia. }
  assert (ParseDuration (sign_text s ++ b) =
    d ← duration_loop (length b) 0 b; if (match s with Some true => true | _ => false end) : bool
      then Some (i64 (- i64 d)) else if 2 ^ 63 - 1 <? d then None else Some d) as ->.
  { unfold ParseDuration. destruct s as [[]|]; cbn [sign_text app].
    1-2: by rewrite !bool_decide_eq_false_2.
    assert (match b with x2d :: s' => (true, s') | x2b :: s' => (false, s') | _ => (false, b) end = (false, b)) as ->.
    { destruct b as [|c b']; [done|]. cbn in Hm, Hpl. by destruct c. }
    by rewrite !bool_decide_eq_false_2. }
  rewrite Hsum, !Z.add_0_l. unfold in_i64, signed.
  destruct (Z.ltb_spec (2 ^ 63) (nanoseconds l)); cbn [mbind option_bind].
  { rewrite bool_decide_eq_false_2; [done|]. destruct s as [[]|]; lia. }
  destruct s as [[]|]; [|destruct (Z.ltb_spec (2 ^ 63 - 1) (nanoseconds l));
    [rewrite bool_decide_eq_false_2 by lia|rewrite bool_decide_eq_true_2 by lia]; done..].
  rewrite bool_decide_eq_true_2 by lia. f_equal.
  destruct (decide (nanoseconds l = 2 ^ 63)) as [->|]; [done|]. rewrite !i64_id; unfold in_i64; rewrite ?i64_id; unfold in_i64; lia.
Qed.

(** *** The fuel of the loop *)
Lemma leadingInt_le s : forall x v r, leadingInt x s = Some (v, r) -> (length r <= length s)%nat.
Proof.
  induction s as [|c s IH]; intros x v r; cbn; [by intros [= <- <-]|].
  destruct (is_digit c); [|by intros [= <- <-]]. repeat case_match; try done. intros ?%IH. lia.
Qed.

Lemma leadingFraction_le s : forall x sc o v sc' r, leadingFraction x sc o s = (v, sc', r) -> (length r <= length s)%nat.
Proof.
  induction s as [|c s IH]; intros x sc o v sc' r; cbn; [by intros [= <- <- <-]|].
  destruct (is_digit c); [|by intros [= <- <- <-]]. repeat case_match; intros ?%IH; lia.
Qed.

Lemma span_unit_le s : forall u r, span_unit s = (u, r) -> (length r <= length s)%nat.
Proof.
  induction s as [|c s IH]; intros u r; cbn; [by intros [= <- <-]|].
  case_match; [by intros [= <- <-]|]. destruct (span_unit s) as [u' r']. intros [= <- <-]. specialize (IH _ _ eq_refl). lia.
Qed.

Lemma duration_number_lt s v f sc r : duration_number s = Some (v, f, sc, r) -> (length r < length s)%nat.
Proof.
  destruct s as [|c s]; [done|]. unfold duration_number. case_match; [done|].
  destruct (leadingInt 0 (c :: s)) as [[v1 s1]|] eqn:E1; [|done]. cbn [mbind option_bind].
  pose proof (leadingInt_le _ _ _ _ E1) as Hl1.
  assert (exists f sc s2 post, match s1 with
     | x2e :: s1' => let '(f, scale, s2) := leadingFraction 0 (f64_of 1) false s1' in (f, scale, s2, negb (length s1' =? length s2)%nat)
     | _ => (0, f64_of 1, s1, false) end = (f, sc, s2, post) /\ (length s2 <= length s1)%nat /\ (post = true -> (length s2 < length s1)%nat))
    as (f' & sc' & s2 & post & -> & Hle & Hlt).
  { destruct s1 as [|c1 s1]; [by eexists _, _, _, _|]. destruct c1; try by eexists _, _, _, _.
    destruct (leadingFraction 0 (f64_of 1) false s1) as [[f' sc'] s2] eqn:E2. pose proof (leadingFraction_le _ _ _ _ _ _ _ E2).
    eexists _, _, _, _. split; [done|]. cbn. split; lia. }
  destruct (negb _ && negb post) eqn:E; [done|]. intros [= <- <- <- <-].
  destruct post; [specialize (Hlt eq_refl); lia|]. rewrite andb_true_r, negb_involutive in E. apply Nat.eqb_neq in E. lia.
Qed.

Lemma duration_segment_lt s v r : duration_segment s = Some (v, r) -> (length r < length s)%nat.
Proof.
  unfold duration_segment. destruct (duration_number s) as [[[[v1 f] sc] s2]|] eqn:E; [|done]. cbn [mbind option_bind].
  apply duration_number_lt in E. destruct (span_unit s2) as [u s3] eqn:Eu. apply span_unit_le in Eu.
  case_bool_decide; [done|]. destruct (unitMap u); [|done]. cbn [mbind option_bind].
  repeat case_match; try done; intros [= <- <-]; lia.
Qed.

(** Every iteration takes a byte: more fuel than bytes changes nothing. *)
Lemma duration_loop_fuel s : forall d f, (length s <= f)%nat -> duration_loop f d s = duration_loop (length s) d s.
Proof.
  induction s as [s IH] using (induction_ltof1 _ length). unfold ltof in IH. intros d f Hf.
  destruct s as [|c s]; [by destruct f|]. destruct f as [|f]; [cbn in Hf; lia|]. cbn [length duration_loop].
  destruct (duration_segment (c :: s)) as [[v r]|] eqn:E; [|done]. cbn [mbind option_bind].
  apply duration_segment_lt in E. case_match; [done|]. cbn in E, Hf.
  rewrite (IH r ltac:(cbn; lia) _ f), (IH r ltac:(cbn; lia) _ (length s)) by lia. done.
Qed.
