(* ===== verification/Main.v ===== *)
(** * The server binary ([cmd/cachemoney/main.go])

    [parseConfig] with its environment readers, and the process: [main] and [run] over
    the server of [Lifecycle].  The environment is a function, as it is in the source;
    the command line is the list of arguments.  Only [log] lines and the text of error
    messages are left out. *)
From S2P Require Import Prelude Hash Resp Cache Server Flags Lifecycle.

(** ** Configuration *)
Section Config.
Context (unicode_lower : bytes -> bytes) (lookupEnv : bytes -> option bytes).

Definition envString (key def : bytes) : bytes :=
  match lookupEnv key with Some v => v | None => def end.

Definition envInt (key : bytes) (def : Z) : Z :=
  match lookupEnv key with
  | Some v => match ParseInt v with Some n => n | None => def end
  | None => def
  end.

Definition envInt64 (key : bytes) (def : Z) : Z :=
  match lookupEnv key with
  | Some v => match ParseInt v with Some n => n | None => def end
  | None => def
  end.

Definition envPolicy (key def : bytes) : bytes :=
  match lookupEnv key with
  | Some v => let '(p, valid) := ParsePolicy (ToLower unicode_lower v) in if valid : bool then policy_String p else def
  | None => def
  end.

Definition envDuration (key : bytes) (def : Z) : Z :=
  match lookupEnv key with
  | Some v => match ParseDuration v with Some d => d | None => def end
  | None => def
  end.

(** The variables behind the flags. *)
Record vars : Type := MkVars {
  v_addr : bytes;
  v_idle : Z;
  v_maxConns : Z;
  v_drain : Z;
  v_maxMemory : Z;
  v_policy : bytes;
  v_showVersion : bool;
}.

(** The flags with their types. *)
Definition flags : list (formal vars) := [
  MkFormal (B "addr") false (fun s v => Some (MkVars s (v_idle v) (v_maxConns v) (v_drain v) (v_maxMemory v) (v_policy v) (v_showVersion v)));
  MkFormal (B "idle-timeout") false (fun s v => d ← ParseDuration s;
    Some (MkVars (v_addr v) d (v_maxConns v) (v_drain v) (v_maxMemory v) (v_policy v) (v_showVersion v)));
  MkFormal (B "max-conns") false (fun s v => n ← ParseInt0 s;
    Some (MkVars (v_addr v) (v_idle v) n (v_drain v) (v_maxMemory v) (v_policy v) (v_showVersion v)));
  MkFormal (B "drain-timeout") false (fun s v => d ← ParseDuration s;
    Some (MkVars (v_addr v) (v_idle v) (v_maxConns v) d (v_maxMemory v) (v_policy v) (v_showVersion v)));
  MkFormal (B "maxmemory") false (fun s v => n ← ParseInt0 s;
    Some (MkVars (v_addr v) (v_idle v) (v_maxConns v) (v_drain v) n (v_policy v) (v_showVersion v)));
  MkFormal (B "maxmemory-policy") false (fun s v =>
    Some (MkVars (v_addr v) (v_idle v) (v_maxConns v) (v_drain v) (v_maxMemory v) s (v_showVersion v)));
  MkFormal (B "version") true (fun s v => b ← ParseBool s;
    Some (MkVars (v_addr v) (v_idle v) (v_maxConns v) (v_drain v) (v_maxMemory v) (v_policy v) b)) ].

(** Their defaults: the environment, then the built-in values. *)
Definition initial_vars : vars := MkVars
  (envString (B "CACHEMONEY_ADDR") (B ":6379"))
  (envDuration (B "CACHEMONEY_IDLE_TIMEOUT") 0)
  (envInt (B "CACHEMONEY_MAX_CONNS") 10000)
  (envDuration (B "CACHEMONEY_DRAIN_TIMEOUT") (5 * second))
  (envInt64 (B "CACHEMONEY_MAXMEMORY") 0)
  (envPolicy (B "CACHEMONEY_MAXMEMORY_POLICY") (B "allkeys-lfu"))
  false.

Inductive config_err : Type := FlagError (e : flag_err) | InvalidPolicy (name : bytes).

(** [Seed] is the seed type of the cache options, [G] the engine of the server. *)
Definition parseConfig {Seed G : Type} (args : list bytes)
    : (Config G * list (COption (Seed := Seed)) * bool) + config_err :=
  match Parse flags args initial_vars with
  | inr e => inr (FlagError e)
  | inl (v, _) =>
      let cfg := MkConfig (v_addr v) (v_idle v) (v_maxConns v) (v_drain v) [] None in
      let '(policy, ok) := ParsePolicy (ToLower unicode_lower (v_policy v)) in
      if negb ok then inr (InvalidPolicy (v_policy v))
      else inl (cfg, [WithMaxMemory (v_maxMemory v); WithEvictionPolicy policy], v_showVersion v)
  end.

(** What [main] does with it: an exit with status 2, a version line, or a server on
    one of the two backends.  The last argument is the drain window of [run]. *)
Inductive startup (Seed G : Type) : Type :=
| ExitUsage (e : config_err)
| PrintVersion
| ServeGnet (cfg : Config G) (opts : list (COption (Seed := Seed)))
| ServeRun (cfg : Config G) (opts : list (COption (Seed := Seed))) (drain : Z).

Definition main_start {Seed G : Type} (version : bytes) (args : list bytes) : startup Seed G :=
  match parseConfig (Seed := Seed) (G := G) args with
  | inr e => ExitUsage _ _ e
  | inl (cfg, cacheOpts, showVersion) =>
      if showVersion : bool then PrintVersion _ _
      else
        let cfg := MkConfig (Addr cfg) (IdleTimeout cfg) (MaxConns cfg) (DrainTimeout cfg) version (Now cfg) in
        if bool_decide (lookupEnv (B "CM_NET") = Some (B "gnet")) then ServeGnet _ _ cfg cacheOpts
        else ServeRun _ _ cfg cacheOpts (DrainTimeout cfg)
  end.
End Config.

(** ** The process

    [main] after a successful [parseConfig]: [run] starts the server's accept loop and
    waits for it to return or for a signal, then shuts the server down; [main] closes
    the engine when [run] returned, and exits. *)
Inductive stage : Type :=
| RSelect                          (** [run] in its [select] *)
| RShutdown                        (** in [srv.Shutdown] *)
| RReturned (err : bool)           (** [run] returned, with an error or nil *)
| REngineClosed (err : bool)       (** after [engine.Close] *)
| RExited (status : Z).

Record process : Type := MkProcess { server : srv; main_at : stage }.

Definition process_init : process := MkProcess server_init RSelect.

(** The result of [run] when [ListenAndServe] returned: the clean stop is nil. *)
Definition serve_result (closed : bool) : bool := negb closed.

(** The result of [Shutdown]: the error of the deadline, else of closing the
    listener. *)
Definition shutdown_result (clean lnErr : bool) : bool := negb clean || lnErr.

(** The exit status: [log.Fatalf] on an error. *)
Definition exit_status (err : bool) : Z := if err then 1 else 0.

Section Process.
Variable MaxConns : nat.

Inductive process_step (p : process) : process -> Prop :=
| P_serve s' : (forall n, main_at p <> RExited n) -> work_step MaxConns (server p) s' ->
    process_step p (MkProcess s' (main_at p))
| P_returned closed : main_at p = RSelect -> accept (server p) = ADone closed ->
    process_step p (MkProcess (server p) (RReturned (serve_result closed)))
| P_signal s' : main_at p = RSelect -> drain (server p) = DNone -> drain_step (server p) s' ->
    process_step p (MkProcess s' RShutdown)
| P_shutdown s' : main_at p = RShutdown -> drain_step (server p) s' -> process_step p (MkProcess s' RShutdown)
| P_drained clean lnErr : main_at p = RShutdown -> drain (server p) = DDone clean -> (lnErr = true -> ln (server p) <> None) ->
    process_step p (MkProcess (server p) (RReturned (shutdown_result clean lnErr)))
| P_close err : main_at p = RReturned err -> process_step p (MkProcess (server p) (REngineClosed err))
| P_exit err : main_at p = REngineClosed err -> process_step p (MkProcess (server p) (RExited (exit_status err))).

Inductive process_reach : process -> Prop :=
| process_reach_init : process_reach process_init
| process_reach_step p p' : process_reach p -> process_step p p' -> process_reach p'.
End Process.
