(* ===== verification/MainProps.v ===== *)
(** * What the binary guarantees

    The configuration is what the command line, the environment and the built-in
    values say, in this order; and the engine is closed only behind a drained server,
    unless the drain window ran out. *)
From S2P Require Import Prelude Hash Resp Cache Server Flags FlagsSpec Lifecycle LifecycleSpec Main.

(** ** The variables after the flags *)

(** The text last given for a flag. *)
Definition chosen (name : bytes) (l : list setting) : option bytes :=
  last (text <$> filter (fun i => flag i = name) l).

(** The value of a variable: the last one given, else the default. *)
Definition pick {T} (parse : bytes -> option T) (def : T) (name : string) (l : list setting) : T :=
  match chosen (B name) l with Some s => default def (parse s) | None => def end.

(** Whether the flag's type accepts the text. *)
Definition value_ok (i : setting) : bool :=
  if bool_decide (flag i ∈ [B "idle-timeout"; B "drain-timeout"]) then bool_decide (is_Some (ParseDuration (text i)))
  else if bool_decide (flag i ∈ [B "max-conns"; B "maxmemory"]) then bool_decide (is_Some (ParseInt0 (text i)))
  else if bool_decide (flag i = B "version") then bool_decide (is_Some (ParseBool (text i)))
  else true.

Definition settle (v : vars) (l : list setting) : vars := MkVars
  (pick Some (v_addr v) "addr" l)
  (pick ParseDuration (v_idle v) "idle-timeout" l)
  (pick ParseInt0 (v_maxConns v) "max-conns" l)
  (pick ParseDuration (v_drain v) "drain-timeout" l)
  (pick ParseInt0 (v_maxMemory v) "maxmemory" l)
  (pick Some (v_policy v) "maxmemory-policy" l)
  (pick ParseBool (v_showVersion v) "version" l).

Lemma flags_names : Forall (fun f => good_name (f_name f)) flags.
Proof. repeat (constructor; [split_and!; cbn; [done|done|];  by apply (bool_decide_unpack _)|]). constructor. Qed.

Lemma pick_nil {T} (parse : bytes -> option T) def name : pick parse def name [] = def.
Proof. done. Qed.

Lemma pick_other {T} (parse : bytes -> option T) def name i l : flag i <> B name ->
  pick parse def name (i :: l) = pick parse def name l.
Proof. intros Hn. unfold pick, chosen. by rewrite filter_cons_False. Qed.

Lemma pick_same {T} (parse : bytes -> option T) def name i l x : flag i = B name -> parse (text i) = Some x ->
  (forall j, j ∈ l -> flag j = B name -> is_Some (parse (text j))) ->
  pick parse def name (i :: l) = pick parse x name l.
Proof.
  intros Hn Hx Hl. unfold pick, chosen. rewrite filter_cons_True by done. cbn [fmap list_fmap].
  change (text i :: list_fmap _ _ text (filter (fun i => flag i = B name) l))
    with (text i :: (text <$> filter (fun i => flag i = B name) l)).
  rewrite last_cons. destruct (last (text <$> filter _ l)) as [s|] eqn:E; [|by rewrite Hx].
  apply last_Some_elem_of, list_elem_of_fmap in E as (j & -> & [Hj Hin]%list_elem_of_filter).
  by destruct (Hl j Hin Hj) as [y ->].
Qed.

(** Which names are flags. *)
Lemma declared_flag i : declared flags i ->
  flag i ∈ [B "addr"; B "idle-timeout"; B "max-conns"; B "drain-timeout"; B "maxmemory"; B "maxmemory-policy"; B "version"].
Proof.
  intros (f & Hf & _). destruct (lookup_flag_name flags flags_names _ _ Hf) as [<- _].
  apply find_some in Hf as [Hin _]. cbn in Hin. set_solver.
Qed.

(** A flag whose variable is set from [parse] of its text. *)
Lemma assign_case {T} (parse : bytes -> option T) (upd : T -> vars) f i l v :
  Forall (fun i => value_ok i = true) l ->
  lookup_flag flags (flag i) = Some f -> (forall s, f_set f s v = (x ← parse s; Some (upd x))) ->
  (forall j, flag j = flag i -> value_ok j = bool_decide (is_Some (parse (text j)))) ->
  (forall x, parse (text i) = Some x -> (forall j, j ∈ l -> flag j = flag i -> is_Some (parse (text j))) ->
     settle v (i :: l) = settle (upd x) l) ->
  if value_ok i then exists v', assign flags v i = Some v' /\ settle v (i :: l) = settle v' l
  else assign flags v i = None.
Proof.
  intros Hl Hf Hs Hok Hset. rewrite (Hok i) by done. unfold assign. rewrite Hf. cbn [mbind option_bind]. rewrite Hs.
  destruct (parse (text i)) as [x|] eqn:Ex; [|done]. rewrite bool_decide_eq_true_2 by eauto.
  eexists. split; [done|]. apply Hset; [done|]. intros j Hj Hfj. rewrite Forall_forall in Hl.
  specialize (Hl j Hj). rewrite Hok in Hl by done. by apply bool_decide_eq_true in Hl.
Qed.

(** The variable of the flag takes its value, the others keep theirs. *)
Ltac settle_flag parse :=
  eapply (assign_case parse);
  [assumption|reflexivity|intros ?; reflexivity|intros [? ? ?]; cbn [flag]; intros ->; reflexivity|];
  cbn [flag]; intros ? Hx Hall; unfold settle;
  cbn [v_addr v_idle v_maxConns v_drain v_maxMemory v_policy v_showVersion];
  f_equal; first [apply pick_other; done|eapply pick_same; [done|exact Hx|exact Hall]].

Lemma assign_step i l v : declared flags i -> Forall (fun i => value_ok i = true) l ->
  if value_ok i then exists v', assign flags v i = Some v' /\ settle v (i :: l) = settle v' l
  else assign flags v i = None.
Proof.
  intros Hd Hl. pose proof (declared_flag i Hd) as Hn. destruct i as [d name sp]. cbn [flag] in Hn. clear Hd.
  rewrite !elem_of_cons, elem_of_nil in Hn.
  destruct Hn as [-> | [-> | [-> | [-> | [-> | [-> | [-> | []]]]]]]].
  - settle_flag (@Some bytes).
  - settle_flag ParseDuration.
  - settle_flag ParseInt0.
  - settle_flag ParseDuration.
  - settle_flag ParseInt0.
  - settle_flag (@Some bytes).
  - settle_flag ParseBool.
Qed.

Lemma assign_settle l : forall v, Forall (declared flags) l ->
  assign_all flags v l = if forallb value_ok l then Some (settle v l) else None.
Proof.
  induction l as [|i l IH]; intros v Hl; [by destruct v|]. apply Forall_cons in Hl as [Hi Hl].
  rewrite assign_all_cons. cbn [forallb]. destruct (forallb value_ok l) eqn:El.
  - pose proof (assign_step i l v Hi) as H. rewrite andb_true_r.
    assert (Forall (fun i => value_ok i = true) l) as Hf.
    { apply Forall_forall. intros j Hj. rewrite forallb_forall in El. apply El. by apply list_elem_of_In. }
    specialize (H Hf). destruct (value_ok i); [|by rewrite H].
    destruct H as (v' & -> & ->). cbn [mbind option_bind]. by rewrite IH.
  - rewrite andb_false_r. destruct (assign flags v i) as [v'|]; [|done]. cbn [mbind option_bind]. by rewrite IH.
Qed.

(** The eviction policy a name selects, in any letter case. *)
Definition policy_named (unicode_lower : bytes -> bytes) (name : bytes) (p : Z) : Prop :=
  p ∈ [PolicyAllKeysLFU; PolicyAllKeysRandom; PolicyNoEviction] /\ ToLower unicode_lower name = policy_String p.

Lemma policy_named_iff unicode_lower name p :
  ParsePolicy (ToLower unicode_lower name) = (p, true) <-> policy_named unicode_lower name p.
Proof.
  unfold policy_named, ParsePolicy. split.
  - repeat case_bool_decide; intros [= <-]; split; try done; set_solver.
  - intros [Hp ->]. rewrite !elem_of_cons, elem_of_nil in Hp. by destruct Hp as [->|[->|[->|[]]]].
Qed.

(** ** The environment *)

(** The value the environment gives: what the variable's text reads as, when it is set
    and reads as something; else the built-in value. *)
Definition env_value {T} (lookupEnv : bytes -> option bytes) (reads : bytes -> T -> Prop) (key : bytes) (def x : T) : Prop :=
  (exists v, lookupEnv key = Some v /\ reads v x) \/
  (x = def /\ forall v y, lookupEnv key = Some v -> ~ reads v y).

Definition reads_int (v : bytes) (n : Z) : Prop := ParseInt v = Some n.
Definition reads_duration (v : bytes) (d : Z) : Prop := ParseDuration v = Some d.
Definition reads_policy (unicode_lower : bytes -> bytes) (v name : bytes) : Prop :=
  exists p, policy_named unicode_lower v p /\ name = policy_String p.

(** A reader that parses the text is such a value. *)
Lemma env_value_parse {T} lookupEnv (parse : bytes -> option T) (reads : bytes -> T -> Prop) key def x :
  (forall v y, reads v y <-> parse v = Some y) ->
  env_value lookupEnv reads key def x <-> x = default def (v ← lookupEnv key; parse v).
Proof.
  intros Hr. unfold env_value. destruct (lookupEnv key) as [v|]; cbn.
  - destruct (parse v) as [y|] eqn:Ep; cbn.
    + split; [|intros ->; left; exists v; by rewrite Hr].
      intros [(v' & [= ->] & Hx%Hr)|(_ & H)]; [congruence|]. by destruct (H v y eq_refl); apply Hr.
    + split; [|intros ->; right; split; [done|intros v' y [= ->] Hy%Hr; congruence]].
      intros [(v' & [= <-] & Hx%Hr)|(-> & _)]; [congruence|done].
  - split; [intros [(v' & ? & _)|(-> & _)]; done|]. intros ->. right. by split.
Qed.

Lemma env_string lookupEnv key def x : env_value lookupEnv eq key def x <-> x = envString lookupEnv key def.
Proof. rewrite (env_value_parse _ Some) by naive_solver. unfold envString. by destruct (lookupEnv key). Qed.

Lemma env_int lookupEnv key def x : env_value lookupEnv reads_int key def x <-> x = envInt lookupEnv key def.
Proof.
  rewrite (env_value_parse _ ParseInt) by done. unfold envInt. destruct (lookupEnv key) as [v|]; [|done]. cbn. by destruct (ParseInt v).
Qed.

Lemma env_int64 lookupEnv key def x : env_value lookupEnv reads_int key def x <-> x = envInt64 lookupEnv key def.
Proof.
  rewrite (env_value_parse _ ParseInt) by done. unfold envInt64. destruct (lookupEnv key) as [v|]; [|done]. cbn. by destruct (ParseInt v).
Qed.

Lemma env_duration lookupEnv key def x : env_value lookupEnv reads_duration key def x <-> x = envDuration lookupEnv key def.
Proof.
  rewrite (env_value_parse _ ParseDuration) by done. unfold envDuration. destruct (lookupEnv key) as [v|]; [|done].
  cbn. by destruct (ParseDuration v).
Qed.

Lemma env_policy unicode_lower lookupEnv key def x :
  env_value lookupEnv (reads_policy unicode_lower) key def x <-> x = envPolicy unicode_lower lookupEnv key def.
Proof.
  rewrite (env_value_parse _ (fun v => let '(p, valid) := ParsePolicy (ToLower unicode_lower v) in
    if valid : bool then Some (policy_String p) else None)).
  - unfold envPolicy. destruct (lookupEnv key) as [v|]; [|done]. cbn. by destruct (ParsePolicy _) as [p []].
  - intros v y. unfold reads_policy. setoid_rewrite <- policy_named_iff. destruct (ParsePolicy _) as [p []]; naive_solver.
Qed.

(** ** Theorems *)

(** C26. The configuration.  [parseConfig] succeeds exactly when the arguments are
    settings of the seven flags (one dash or two, the value behind an equals sign or
    in the next argument, [version] also bare), each with a text its type accepts,
    up to the end, a word that is no flag, or [--]; and the policy is named.  Then
    every knob has the value last given for it; else the value of its environment
    variable, when that is set to a text its type accepts (for the policy: the
    canonical name of the one it names); else the built-in one.  These values reach
    the server's configuration and the cache's options. *)
Theorem config_precedence {Seed G : Type} (unicode_lower : bytes -> bytes) (lookupEnv : bytes -> option bytes)
    (args : list bytes) (cfg : Config G) (opts : list (COption (Seed := Seed))) (showVersion : bool) :
  parseConfig unicode_lower lookupEnv args = inl (cfg, opts, showVersion) <->
  exists l tail rest p addr idle conns drain memory name,
    Forall (declared flags) l /\ Forall (fun i => value_ok i = true) l /\
    args = mjoin (words <$> l) ++ tail /\ ends tail rest /\
    env_value lookupEnv eq (B "CACHEMONEY_ADDR") (B ":6379") addr /\
    env_value lookupEnv reads_duration (B "CACHEMONEY_IDLE_TIMEOUT") 0 idle /\
    env_value lookupEnv reads_int (B "CACHEMONEY_MAX_CONNS") 10000 conns /\
    env_value lookupEnv reads_duration (B "CACHEMONEY_DRAIN_TIMEOUT") (5 * second) drain /\
    env_value lookupEnv reads_int (B "CACHEMONEY_MAXMEMORY") 0 memory /\
    env_value lookupEnv (reads_policy unicode_lower) (B "CACHEMONEY_MAXMEMORY_POLICY") (B "allkeys-lfu") name /\
    policy_named unicode_lower (pick Some name "maxmemory-policy" l) p /\
    cfg = MkConfig (pick Some addr "addr" l) (pick ParseDuration idle "idle-timeout" l)
      (pick ParseInt0 conns "max-conns" l) (pick ParseDuration drain "drain-timeout" l) [] None /\
    opts = [WithMaxMemory (pick ParseInt0 memory "maxmemory" l); WithEvictionPolicy p] /\
    showVersion = pick ParseBool false "version" l.
Proof.
  unfold parseConfig. split.
  - destruct (Parse flags args _) as [[v rest]|e] eqn:Ep; [|done].
    apply (Parse_iff flags flags_names) in Ep as (l & tail & Hd & -> & He & Ha).
    rewrite assign_settle in Ha by done. destruct (forallb value_ok l) eqn:Ef; [|done]. simplify_eq.
    destruct (ParsePolicy _) as [p ok] eqn:Epp. destruct ok; [|done]. cbn [negb]. intros [= <- <- <-].
    apply policy_named_iff in Epp. exists l, tail, rest, p. do 6 eexists. split_and!;
      [done| |done|done|by apply env_string|by apply env_duration|by apply env_int|by apply env_duration|by apply env_int64
      |by apply env_policy|exact Epp|done|done|done].
    apply Forall_forall. intros j Hj. rewrite forallb_forall in Ef. apply Ef. by apply list_elem_of_In.
  - intros (l & tail & rest & p & addr & idle & conns & drain & memory & name & Hd & Hok & -> & He & ->%env_string
      & ->%env_duration & ->%env_int & ->%env_duration & ->%env_int64 & ->%env_policy & Hp & -> & -> & ->).
    apply policy_named_iff in Hp.
    rewrite (proj2 (Parse_iff flags flags_names _ (initial_vars unicode_lower lookupEnv) (settle (initial_vars unicode_lower lookupEnv) l) rest)).
    + cbn [settle v_policy initial_vars]. by rewrite Hp.
    + exists l, tail. split_and!; try done. rewrite assign_settle by done.
      replace (forallb value_ok l) with true; [done|]. symmetry. apply forallb_forall. intros j Hj.
      rewrite Forall_forall in Hok. apply Hok. by apply list_elem_of_In.
Qed.

(** A flag over the environment, the environment over the built-in value, and an
    environment variable that does not parse. *)
Definition demo_env (key : bytes) : option bytes :=
  if bool_decide (key = B "CACHEMONEY_MAX_CONNS") then Some (B "12")
  else if bool_decide (key = B "CACHEMONEY_MAXMEMORY") then Some (B "4096")
  else if bool_decide (key = B "CACHEMONEY_IDLE_TIMEOUT") then Some (B "soon")
  else if bool_decide (key = B "CACHEMONEY_MAXMEMORY_POLICY") then Some (B "NoEviction") else None.

Lemma config_precedence_witness :
  parseConfig (Seed := Z) (G := unit) (fun b => b) demo_env [B "-max-conns"; B "7"; B "--drain-timeout=2s"] =
    inl (MkConfig (B ":6379") 0 7 (2 * second) [] None, [WithMaxMemory 4096; WithEvictionPolicy PolicyNoEviction], false).
Proof.
  apply (config_precedence (fun b => b) demo_env [B "-max-conns"; B "7"; B "--drain-timeout=2s"]).
  exists [MkSetting false (B "max-conns") (Next (B "7")); MkSetting true (B "drain-timeout") (Inline (B "2s"))].
  exists [], [], PolicyNoEviction, (B ":6379"), 0, 12, (5 * second), 4096, (B "noeviction").
  split; [repeat constructor; eexists; split; reflexivity || exact I|].
  split; [repeat constructor; vm_compute; reflexivity|].
  split; [vm_compute; reflexivity|]. split; [constructor|].
  split; [right; split; [reflexivity|intros v y H; vm_compute in H; discriminate H]|].
  split; [right; split; [reflexivity|intros v y H Hr; vm_compute in H; injection H as <-; vm_compute in Hr; discriminate Hr]|].
  split; [left; eexists; split; vm_compute; reflexivity|].
  split; [right; split; [reflexivity|intros v y H; vm_compute in H; discriminate H]|].
  split; [left; eexists; split; vm_compute; reflexivity|].
  split; [left; eexists; split; [vm_compute; reflexivity|]; exists PolicyNoEviction; split; [split; [set_solver|vm_compute; reflexivity]|vm_compute; reflexivity]|].
  split; [split; [set_solver|vm_compute; reflexivity]|].
  split; [vm_compute; reflexivity|]. split; reflexivity.
Defined.

(** Durations.  A duration in the environment that is a sum of whole numbers with
    units, below 2^64 ns, is read as that sum in unbounded integers, with its sign,
    and when it does not fit a [time.Duration] the default is used. *)
Theorem duration_exact (lookupEnv : bytes -> option bytes) (key : bytes) (def : Z) (s : option bool) (l : list segment) :
  lookupEnv key = Some (sign_text s ++ mjoin (segment_text <$> l)) ->
  l <> [] -> Forall segment_ok l -> nanoseconds l < 2 ^ 64 ->
  envDuration lookupEnv key def =
    if bool_decide (in_i64 (signed s (nanoseconds l))) then signed s (nanoseconds l) else def.
Proof.
  intros He Hne Hl Hlt. unfold envDuration. rewrite He, ParseDuration_sum by done. by case_bool_decide.
Qed.

(** ** The process *)

(** A goroutine that will not dispatch a command. *)
Definition parked (t : thread) : Prop := t_phase t ∈ [PTop; PDrop; PClosed; PGone].

Lemma work_drain MaxConns s s' : work_step MaxConns s s' -> drain s' = drain s.
Proof. intros [? []|? ? ? ? []]; try done. unfold serve_start. by destruct (inShutdown s). Qed.

(** After a clean shutdown no goroutine serves, and none starts to. *)
Lemma clean_parked MaxConns s : reach MaxConns s -> drain s = DDone true -> map_Forall (fun _ => parked) (thr s).
Proof.
  induction 1 as [|s s' Hr IH Hs]; [done|]. intros Hd. pose proof (reach_inv MaxConns s Hr) as I.
  destruct Hs as [s' Hw|s' Hdr].
  - rewrite (work_drain _ _ _ Hw) in Hd. specialize (IH Hd).
    assert (inShutdown s = true) as Hf by (rewrite (li_flag _ s I), Hd; done).
    destruct Hw as [s' Ha|id t s' Ht Hc].
    + destruct Ha; try done; [unfold serve_start; by destruct (inShutdown s)|].
      cbn. apply map_Forall_insert_2; [unfold parked; cbn; set_solver|done].
    + pose proof (IH id t Ht) as Hp. unfold parked in Hp.
      assert (forall p a o, p ∈ [PTop; PDrop; PClosed; PGone] -> map_Forall (fun _ => parked) (<[id := MkThread p a o]> (thr s))) as Hset
        by (intros; by apply map_Forall_insert_2).
      destruct Hc as [H|H|H|H|H|H|H|H|H|H|H|H]; try congruence; try (rewrite H in Hp; set_solver).
      all: first [by apply map_Forall_delete|apply Hset; set_solver].
  - destruct Hdr as [E|b E|i todo E|E|E Hc|E Hc|E|E|i todo E|E]; cbn in Hd; try done.
    cbn. intros id t Ht. unfold parked. destruct (decide (t_phase t = PGone)) as [->|Hn]; [set_solver|].
    assert (id ∈ conns s) by (apply (li_conns _ s I); eauto). set_solver.
Qed.

Lemma process_server MaxConns p : process_reach MaxConns p -> reach MaxConns (server p).
Proof.
  induction 1 as [|p p' _ IH Hs]; [apply reach_init|].
  destruct Hs; cbn; try done; eapply reach_step; try exact IH; by constructor.
Qed.

(** What the stage of [main] says about the shutdown: it has not begun while [run]
    waits, and has finished when [run] returned, except when the accept loop failed. *)
Definition stage_ok (p : process) : Prop :=
  match main_at p with
  | RSelect => drain (server p) = DNone
  | RShutdown => drain (server p) <> DNone
  | RReturned err | REngineClosed err => drain (server p) = DDone true \/ (err = true /\ drain (server p) ∈ [DNone; DDone false])
  | RExited n => drain (server p) = DDone true \/ (n = 1 /\ drain (server p) ∈ [DNone; DDone false])
  end.

Lemma process_stage MaxConns p : process_reach MaxConns p -> stage_ok p.
Proof.
  induction 1 as [|p p' Hr IH Hs]; [done|]. pose proof (reach_inv MaxConns _ (process_server _ _ Hr)) as I.
  unfold stage_ok in *. destruct Hs as [s' _ Hw|closed Hm Ha|s' Hm Hd Hdr|s' Hm Hdr|clean lnErr Hm Hd _|err Hm|err Hm]; cbn [server main_at].
  - by rewrite (work_drain _ _ _ Hw).
  - rewrite Hm in IH. right. rewrite IH. split; [|set_solver]. destruct closed; [|done].
    pose proof (li_done _ _ I Ha) as Hf. by rewrite (li_flag _ _ I), IH in Hf.
  - by destruct Hdr as [|? E|? ? E|E|E|E|E|E|? ? E|E].
  - by destruct Hdr as [|? E|? ? E|E|E|E|E|E|? ? E|E].
  - rewrite Hd. destruct clean; [by left|right]. split; [done|set_solver].
  - by rewrite Hm in IH.
  - rewrite Hm in IH. destruct IH as [IH|[-> IH]]; [by left|by right].
Qed.

(** C10. The engine is closed behind the server.  In every state of the process: while
    [run] waits, the accept loop has not stopped cleanly, so that result of [run] is
    never used; once [run] has returned without error, up to the exit with status 0,
    the shutdown has drained: no connection goroutine is reading or dispatching, and
    none will again; and an error means that binding or accepting failed, that the drain
    window ran out, or that the drained server's listener failed to close. *)
Theorem engine_closed_behind_server (MaxConns : nat) (p : process) : process_reach MaxConns p ->
  (main_at p = RSelect -> accept (server p) <> ADone true) /\
  (main_at p ∈ [RReturned false; REngineClosed false; RExited 0] ->
     map_Forall (fun _ t => t_phase t ∈ [PTop; PDrop; PClosed; PGone]) (thr (server p)) /\
     forall p', rtc (process_step MaxConns) p p' ->
       map_Forall (fun _ t => t_phase t ∈ [PTop; PDrop; PClosed; PGone]) (thr (server p'))) /\
  (main_at p ∈ [RReturned true; REngineClosed true; RExited 1] ->
     drain (server p) ∈ [DNone; DDone false] \/
     drain (server p) = DDone true /\ map_Forall (fun _ t => t_phase t ∈ [PTop; PDrop; PClosed; PGone]) (thr (server p))).
Proof.
  intros Hr. pose proof (process_server _ _ Hr) as Hs. pose proof (process_stage _ _ Hr) as Hst. unfold stage_ok in Hst.
  assert (forall q, process_reach MaxConns q -> drain (server q) = DDone true -> map_Forall (fun _ => parked) (thr (server q))) as Hpark
    by (intros q Hq; apply (clean_parked MaxConns), process_server, Hq).
  split_and!.
  - intros Hm Ha. pose proof (reach_inv _ _ Hs) as I. pose proof (li_done _ _ I Ha) as Hf.
    rewrite Hm in Hst. by rewrite (li_flag _ _ I), Hst in Hf.
  - intros Hm. rewrite !elem_of_cons, elem_of_nil in Hm.
    assert (drain (server p) = DDone true) as Hd by (destruct Hm as [Hm|[Hm|[Hm|[]]]]; rewrite Hm in Hst; by destruct Hst as [|[]]).
    split; [by apply Hpark|]. intros p' Hp'.
    assert (process_reach MaxConns p' /\ drain (server p') = DDone true) as []; [|by apply Hpark].
    clear Hst Hm Hs. induction Hp' as [p|p q r Hpq _ IH]; [done|]. apply IH; [by eapply process_reach_step|].
    destruct Hpq as [s' _ Hw|closed Hm Ha|s' Hm Hd' Hdr|s' Hm Hdr|clean lnErr Hm Hd' _|err Hm|err Hm]; cbn; try done.
    + by rewrite (work_drain _ _ _ Hw).
    + congruence.
    + by destruct Hdr as [E|? E|? ? E|E|E|E|E|E|? ? E|E]; rewrite Hd in E.
  - intros Hm. rewrite !elem_of_cons, elem_of_nil in Hm. destruct Hm as [Hm|[Hm|[Hm|[]]]]; rewrite Hm in Hst;
      (destruct Hst as [Hd|[_ Hd]]; [right; split; [exact Hd|exact (Hpark p Hr Hd)]|by left]).
Qed.

(** ** A run past the drain window *)

(** Until a signal the process is its server. *)
Lemma process_before_signal MaxConns s : reach MaxConns s -> drain s = DNone -> process_reach MaxConns (MkProcess s RSelect).
Proof.
  induction 1 as [|s s' _ IH Hs]; [constructor|]. intros Hd. destruct Hs as [s' Hw|s' Hdr].
  - rewrite (work_drain _ _ _ Hw) in Hd. eapply process_reach_step; [by apply IH|]. by apply (P_serve _ (MkProcess s RSelect)).
  - by destruct Hdr.
Qed.

(** The steps of [Shutdown] are steps of the process. *)
Lemma process_shutdown MaxConns s s' : rtc drain_step s s' -> process_reach MaxConns (MkProcess s RShutdown) ->
  process_reach MaxConns (MkProcess s' RShutdown).
Proof.
  induction 1 as [|s s1 s2 Hs _ IH]; [done|]. intros Hr. apply IH. eapply process_reach_step; [exact Hr|].
  by apply (P_shutdown _ (MkProcess s RShutdown)).
Qed.

(** One connection is dispatching a command. *)
Definition run_busy : srv := set_thread run_read 1 (MkThread PBusy true true).

Lemma run_busy_reach : process_reach 1 (MkProcess (begin_shutdown run_busy) RShutdown).
Proof.
  eapply process_reach_step; [apply (process_before_signal 1 run_busy); [|done]|].
  - eapply reach_step; [exact run_read_reach|]. apply S_work. eapply (W_conn _ _ 1); [done|]. by apply C_active.
  - apply (P_signal _ (MkProcess run_busy RSelect)); [done|done|by apply D_begin].
Qed.

(** When the drain window runs out the engine is closed although a connection is
    still dispatching. *)
Theorem engine_closed_under_dispatch : exists p, process_reach 1 p /\ main_at p = REngineClosed true /\
  thr (server p) !! 1 = Some (MkThread PBusy true false).
Proof.
  set (s1 := set_ln (begin_shutdown run_busy) (Some false)).
  set (s2 := set_drain (foldl close_if_idle s1 (elements (conns s1))) DTick).
  set (s3 := set_drain (foldl close_socket s2 (elements (conns s2))) (DDone false)).
  assert (process_reach 1 (MkProcess s3 RShutdown)) as Hr.
  { eapply process_shutdown; [|exact run_busy_reach].
    eapply rtc_l; [by apply (D_listener _ true)|]. etrans; [apply pass_steps|].
    eapply rtc_l; [apply D_wait; [done|]|].
    - intros E. apply (f_equal elements) in E. vm_compute in E. done.
    - eapply rtc_l; [by apply D_deadline|]. apply all_steps. }
  exists (MkProcess s3 (REngineClosed true)). split_and!; [|done|vm_compute; reflexivity].
  eapply process_reach_step; [|by apply (P_close _ (MkProcess s3 (RReturned true)))].
  eapply process_reach_step; [exact Hr|]. by apply (P_drained _ (MkProcess s3 RShutdown) false false).
Qed.

(** ** Witnesses *)
Definition drained : process := MkProcess (set_drain (begin_shutdown server_init) (DDone true)) (RReturned false).

Lemma drained_reach : process_reach 1 drained.
Proof.
  eapply process_reach_step; [eapply process_shutdown; [|eapply process_reach_step; [apply process_reach_init|]]|].
  2:{ apply (P_signal _ process_init); [done|done|by apply D_begin]. }
  - eapply rtc_l; [by apply (D_listener _ false)|]. eapply rtc_l; [by apply D_idle_end|].
    eapply rtc_l; [by apply D_clean|]. apply rtc_refl.
  - by apply (P_drained _ (MkProcess _ RShutdown) true false).
Qed.

Definition closed : process := MkProcess (server drained) (REngineClosed false).

Lemma engine_closed_behind_server_witness : main_at closed = REngineClosed false /\
  map_Forall (fun _ t => t_phase t ∈ [PTop; PDrop; PClosed; PGone]) (thr (server closed)).
Proof.
  split; [reflexivity|].
  destruct (engine_closed_behind_server 1 drained drained_reach) as (_ & H & _). apply H.
  - apply list_elem_of_here.
  - apply rtc_once. by apply (P_close 1 drained).
Defined.

Definition demo_segments : list segment :=
  [MkSegment (B "01") (B "h") 1 (3600 * second); MkSegment (B "250") (B "ms") 250 millisecond].

Lemma duration_exact_witness :
  envDuration (fun _ => Some (B "-01h250ms")) (B "CACHEMONEY_IDLE_TIMEOUT") 0 = -3600250000000.
Proof.
  rewrite (duration_exact (fun _ => Some (B "-01h250ms")) (B "CACHEMONEY_IDLE_TIMEOUT") 0 (Some true) demo_segments).
  - vm_compute. reflexivity.
  - reflexivity.
  - discriminate.
  - repeat constructor; done.
  - vm_compute. reflexivity.
Defined.
