(* ===== verification/Bench.v ===== *)
(** * Benchmark results ([internal/bench/result.go], [agg.go], [table.go])

    The median over repeats, the aggregation of throughput and hit-ratio runs, and the
    rendered comparison table.  A Go map whose order is not observed is a finite map;
    [sort.Strings], [sort.SliceStable] and [sort.Float64s] are the stable sort by the
    same order (the order of zeros of different sign, which [sort.Float64s] leaves
    open, is the order of the input). *)
From S2P Require Import Prelude Hash Resp Float.
From Stdlib Require Import SpecFloat.

(** ** [result.go] *)
Record Latency : Type := MkLatency { lat_P50 : float64; lat_P99 : float64; lat_P999 : float64 }.

Record ThroughputResult : Type := MkThroughput { Command : bytes; RPS : float64; P50 : float64; P99 : float64 }.

Record HitRatioResult : Type := MkHitRatio {
  HitsPerSec : float64;
  MissesPerSec : float64;
  HitRatio : float64;
  OpsPerSec : float64;
  Lat : Latency;
}.

Record Result : Type := MkResult { Server : bytes; Throughput : list ThroughputResult; Hit : option HitRatioResult }.

Record Suite : Type := MkSuite { Results : list Result; Skipped : list bytes }.

Definition Float64s : list float64 -> list float64 := stable_sort f64_less.

Definition Median (xs : list float64) : outcome float64 :=
  let n := Z.of_nat (length xs) in
  if n =? 0 then Ret f64_zero
  else
    let c := Float64s xs in
    if Z.rem n 2 =? 1 then aget c (Z.quot n 2)
    else
      a ← aget c (Z.quot n 2 - 1);
      b ← aget c (Z.quot n 2);
      Ret (f64_div (f64_add a b) (f64_of 2)).

(** ** [agg.go] *)

(** The order of strings. *)
Fixpoint string_less (a b : bytes) : bool :=
  match a, b with
  | [], [] => false
  | [], _ :: _ => true
  | _ :: _, [] => false
  | x :: a, y :: b => (code x <? code y) || ((code x =? code y) && string_less a b)
  end.

Definition Strings : list bytes -> list bytes := stable_sort string_less.

Record acc : Type := MkAcc { a_rps : list float64; a_p50 : list float64; a_p99 : list float64 }.

(** [byCmd] and [order]. *)
Definition tally : Type := gmap bytes acc * list bytes.

Definition add_result (st : tally) (tr : ThroughputResult) : tally :=
  let '(byCmd, order) := st in
  let '(a, order) :=
    match byCmd !! Command tr with
    | Some a => (a, order)
    | None => (MkAcc [] [] [], order ++ [Command tr])
    end in
  (<[Command tr := MkAcc (a_rps a ++ [RPS tr]) (a_p50 a ++ [P50 tr]) (a_p99 a ++ [P99 tr])]> byCmd, order).

Definition tally_runs (runs : list (list ThroughputResult)) : tally :=
  foldl (fun st run => foldl add_result st run) (∅, []) runs.

(** The loop that builds the result; [byCmd[cmd]] is nil, and panics, when absent. *)
Fixpoint median_rows (byCmd : gmap bytes acc) (order : list bytes) : outcome (list ThroughputResult) :=
  match order with
  | [] => Ret []
  | cmd :: order =>
      match byCmd !! cmd with
      | None => Panic
      | Some a =>
          rps ← Median (a_rps a);
          p50 ← Median (a_p50 a);
          p99 ← Median (a_p99 a);
          out ← median_rows byCmd order;
          Ret (MkThroughput cmd rps p50 p99 :: out)
      end
  end.

Definition MedianThroughput (runs : list (list ThroughputResult)) : outcome (list ThroughputResult) :=
  let '(byCmd, order) := tally_runs runs in
  median_rows byCmd (Strings order).

Definition zero_hit : HitRatioResult :=
  MkHitRatio f64_zero f64_zero f64_zero f64_zero (MkLatency f64_zero f64_zero f64_zero).

Definition distance (med : float64) (r : HitRatioResult) : float64 := SFabs (f64_sub (HitRatio r) med).

Definition closest (med : float64) (best : HitRatioResult) (runs : list HitRatioResult) : HitRatioResult :=
  foldl (fun best r => if SFltb (distance med r) (distance med best) then r else best) best runs.

Definition MedianHitRatio (runs : list HitRatioResult) : outcome HitRatioResult :=
  match runs with
  | [] => Ret zero_hit
  | first :: _ =>
      med ← Median (HitRatio <$> runs);
      Ret (closest med first runs)
  end.

(** ** [table.go] *)
Definition canonicalOrder : list (bytes * Z) :=
  [(B "cachemoney", 0); (B "redis", 1); (B "valkey", 2); (B "pogocache", 3)].

Definition serverRank (name : bytes) : Z :=
  match find (fun '(n, _) => bool_decide (n = name)) canonicalOrder with
  | Some (_, r) => r
  | None => Z.of_nat (length canonicalOrder)
  end.

(** The comparison of [sort.SliceStable]. *)
Definition row_less (x y : Result) : bool :=
  let ri := serverRank (Server x) in
  let rj := serverRank (Server y) in
  if negb (ri =? rj) then ri <? rj else string_less (Server x) (Server y).

Definition em_dash : bytes := [xe2; x80; x94].

Definition find_command_row (trs : list ThroughputResult) (cmd : bytes) : option ThroughputResult :=
  find (fun tr => bool_decide (Command tr = cmd)) trs.

Definition commandRPS (trs : list ThroughputResult) (cmd : bytes) : bytes :=
  match find_command_row trs cmd with Some tr => format_f64 0 (RPS tr) | None => em_dash end.

Definition getLatency (trs : list ThroughputResult) (cmd : bytes) : float64 * float64 :=
  match find_command_row trs cmd with Some tr => (P50 tr, P99 tr) | None => (f64_zero, f64_zero) end.

Definition fmtLat (v : float64) : bytes := if SFleb v f64_zero then em_dash else format_f64 3 v.

Definition table_head : bytes :=
  B "| Server | GET rps | SET rps | Hit ratio | GET p50 ms | GET p99 ms | p99.9 ms |" ++ [LF] ++
  B "| --- | ---: | ---: | ---: | ---: | ---: | ---: |" ++ [LF].

Definition cell (s : bytes) : bytes := B " " ++ s ++ B " |".

Definition render_row (r : Result) : bytes :=
  let '(p50, p99) := getLatency (Throughput r) (B "GET") in
  let '(hit, p999) :=
    match Hit r with
    | Some h => (format_f64 4 (HitRatio h), fmtLat (lat_P999 (Lat h)))
    | None => (em_dash, em_dash)
    end in
  B "|" ++ cell (Server r) ++ cell (commandRPS (Throughput r) (B "GET")) ++ cell (commandRPS (Throughput r) (B "SET")) ++
  cell hit ++ cell (fmtLat p50) ++ cell (fmtLat p99) ++ cell p999 ++ [LF].

(** [strings.Join] *)
Fixpoint Join (l : list bytes) (sep : bytes) : bytes :=
  match l with
  | [] => []
  | [s] => s
  | s :: l => s ++ sep ++ Join l sep
  end.

Definition RenderTable (s : Suite) : bytes :=
  let results := stable_sort row_less (Results s) in
  table_head ++ mjoin (render_row <$> results) ++
  (if (0 <? length (Skipped s))%nat
   then LF :: B "_Skipped (tooling unavailable): " ++ Join (Strings (Skipped s)) (B ", ") ++ B "._" ++ [LF]
   else []).
