(* ===== verification/BenchSpec.v ===== *)
(** * What the benchmark aggregation computes

    The stable sort by a strict weak order, the order of [float64] and of strings, and
    from them the medians, the aggregation and the independence of the rendered table
    from the order of its input. *)
From S2P Require Import Prelude Hash Resp Float Bench.
From Stdlib Require Import SpecFloat Sorted.
From stdpp Require Import sorting.

#[local] Open Scope Z_scope.

(** ** Sorting by a key

    Every order of the sources compares keys in a total order. *)
Section Sort.
Context {A K : Type} (less : A -> A -> bool) (key : A -> K) (le : relation K).
Context `{!Reflexive le, !Transitive le, !AntiSymm (=) le, !Total le}.
Hypothesis less_key : forall x y, less x y = false <-> le (key y) (key x).

Lemma insert_perm x l : insert_sorted less x l ≡ₚ x :: l.
Proof.
  induction l as [|y l IH]; cbn; [done|]. destruct (less y x); [|done]. rewrite IH. apply Permutation_swap.
Qed.

Lemma sort_perm l : stable_sort less l ≡ₚ l.
Proof. induction l as [|x l IH]; cbn; [done|]. by rewrite insert_perm, IH. Qed.

Lemma insert_ordered x l : StronglySorted (fun a b => le (key a) (key b)) l ->
  StronglySorted (fun a b => le (key a) (key b)) (insert_sorted less x l).
Proof.
  induction 1 as [|y l Hl IH Hy]; cbn; [repeat constructor|].
  destruct (less y x) eqn:E.
  - constructor; [done|]. rewrite insert_perm. constructor; [|done].
    destruct (total le (key x) (key y)) as [H|]; [|done]. apply less_key in H. congruence.
  - apply less_key in E.
    constructor; [by constructor|]. constructor; [done|]. eapply Forall_impl; [exact Hy|]. intros z Hz. by transitivity (key y).
Qed.

Lemma sort_ordered l : StronglySorted (fun a b => le (key a) (key b)) (stable_sort less l).
Proof. induction l as [|x l IH]; cbn; [constructor|]. by apply insert_ordered. Qed.

Lemma keys_ordered l : StronglySorted (fun a b => le (key a) (key b)) l -> StronglySorted le (key <$> l).
Proof. induction 1 as [|x l _ IH Hx]; cbn; constructor; [done|]. by apply Forall_fmap. Qed.

(** The keys of a sorted permutation are determined. *)
Lemma sorted_keys l1 l2 : l1 ≡ₚ l2 -> StronglySorted (fun a b => le (key a) (key b)) l1 ->
  StronglySorted (fun a b => le (key a) (key b)) l2 -> key <$> l1 = key <$> l2.
Proof.
  intros Hp H1 H2. apply (StronglySorted_unique le); [by apply keys_ordered..|]. by rewrite Hp.
Qed.

(** With distinct keys the sorted list is. *)
Lemma sort_unique l1 l2 : l1 ≡ₚ l2 -> NoDup (key <$> l1) -> stable_sort less l1 = stable_sort less l2.
Proof.
  intros Hp Hn. assert (stable_sort less l1 ≡ₚ stable_sort less l2) as Hs by (by rewrite !sort_perm).
  pose proof (sorted_keys _ _ Hs (sort_ordered l1) (sort_ordered l2)) as Hk.
  assert (NoDup (key <$> stable_sort less l1)) as Hn1 by (by rewrite sort_perm).
  revert Hs Hk Hn1. generalize (stable_sort less l1) (stable_sort less l2). clear l1 l2 Hp Hn.
  intros l1 l2 Hp Hk Hn. apply list_eq. intros i.
  assert (forall x y, x ∈ l1 -> y ∈ l1 -> key x = key y -> x = y) as Hinj.
  { intros x y [j Hj]%list_elem_of_lookup [k Hkk]%list_elem_of_lookup E.
    assert (j = k) as ->; [|congruence]. eapply (NoDup_lookup (key <$> l1)); [done|..]; rewrite list_lookup_fmap.
    - by rewrite Hj.
    - rewrite Hkk. cbn. by rewrite E. }
  pose proof (f_equal (fun l => l !! i) Hk) as Hi. cbn in Hi. rewrite !list_lookup_fmap in Hi.
  destruct (l1 !! i) as [x|] eqn:E1, (l2 !! i) as [y|] eqn:E2; cbn in Hi; try done.
  f_equal. apply Hinj; [by eapply list_elem_of_lookup_2| |congruence].
  rewrite Hp. by eapply list_elem_of_lookup_2.
Qed.
End Sort.

(** ** The order of [float64] *)

(** Numbers by sign class, exponent and mantissa; a NaN is below them. *)
Definition f64_key (f : float64) : Z * Z * Z :=
  match f with
  | S754_nan => (0, 0, 0)
  | S754_infinity true => (1, 0, 0)
  | S754_finite true m e => (2, - e, - Z.pos m)
  | S754_zero _ => (3, 0, 0)
  | S754_finite false m e => (4, e, Z.pos m)
  | S754_infinity false => (5, 0, 0)
  end.

Definition triple_le (a b : Z * Z * Z) : Prop :=
  a.1.1 < b.1.1 \/ a.1.1 = b.1.1 /\ (a.1.2 < b.1.2 \/ a.1.2 = b.1.2 /\ a.2 <= b.2).

#[global] Instance triple_le_refl : Reflexive triple_le.
Proof. intros a. unfold triple_le. lia. Qed.
#[global] Instance triple_le_trans : Transitive triple_le.
Proof. intros a b c. unfold triple_le. lia. Qed.
#[global] Instance triple_le_anti : AntiSymm (=) triple_le.
Proof. intros [[a b] c] [[a' b'] c']. unfold triple_le. cbn. intros. f_equal; [f_equal|]; lia. Qed.
#[global] Instance triple_le_total : Total triple_le.
Proof. intros a b. unfold triple_le. lia. Qed.

Lemma f64_less_key x y : f64_less x y = false <-> triple_le (f64_key y) (f64_key x).
Proof.
  unfold f64_less, SFltb, triple_le.
  destruct x as [[]|[]| |[] mx ex], y as [[]|[]| |[] my ey]; cbn [SFcompare f64_key fst snd is_nan negb andb orb].
  all: try (split; intros; done || lia).
  all: change (Pos.compare_cont Eq mx my) with (mx ?= my)%positive.
  all: destruct (Z.compare_spec ex ey); try destruct (Pos.compare_spec mx my); cbn [CompOpp orb]; split; intros; done || lia.
Qed.

Lemma f64_lt_trans x y z : SFltb x y = true -> SFltb y z = true -> SFltb x z = true.
Proof.
  assert (forall a b, SFltb a b = true <-> is_nan a = false /\ is_nan b = false /\ f64_less a b <> false) as H.
  { intros a b. rewrite not_false_iff_true. unfold f64_less. destruct (is_nan a) eqn:Ea.
    - destruct a; try done. destruct b; split; done || naive_solver.
    - cbn [andb]. rewrite orb_false_r. destruct (is_nan b) eqn:Eb; [|naive_solver]. destruct b; try done.
      destruct a; split; done || naive_solver. }
  rewrite !H, !f64_less_key. unfold triple_le. intros (? & ? & ?) (? & ? & ?). split_and!; try done. lia.
Qed.

(** ** The order of strings *)
Fixpoint string_le (a b : bytes) : Prop :=
  match a, b with
  | [], _ => True
  | _ :: _, [] => False
  | x :: a, y :: b => code x < code y \/ code x = code y /\ string_le a b
  end.

#[global] Instance string_le_refl : Reflexive string_le.
Proof. intros a. induction a as [|x a IH]; cbn; [done|]. right. done. Qed.
#[global] Instance string_le_trans : Transitive string_le.
Proof.
  intros a. induction a as [|x a IH]; intros [|y b] [|z c]; cbn; try done.
  intros [?|[? ?]] [?|[? ?]]; [left; lia..|right]. split; [lia|by eapply IH].
Qed.
#[global] Instance string_le_anti : AntiSymm (=) string_le.
Proof.
  intros a. induction a as [|x a IH]; intros [|y b]; cbn; try done.
  intros [?|[? ?]] [?|[? ?]]; try lia. f_equal; [by apply code_inj|by apply IH].
Qed.
#[global] Instance string_le_total : Total string_le.
Proof.
  intros a. induction a as [|x a IH]; intros [|y b]; cbn; [by left|by left|by right|].
  destruct (Z.lt_total (code x) (code y)) as [|[E|]]; [by left; left| |by right; left].
  destruct (IH b); [left|right]; right; done.
Qed.

Lemma string_less_key a : forall b, string_less a b = false <-> string_le b a.
Proof.
  induction a as [|x a IH]; intros [|y b]; cbn; try done.
  rewrite orb_false_iff, andb_false_iff, IH, Z.ltb_ge, Z.eqb_neq.
  split; [intros [? [?|?]]; [left; lia|]|intros [?|[? ?]]; [split; [lia|left; lia]|split; [lia|by right]]].
  destruct (decide (code y < code x)); [by left|right]. split; [lia|done].
Qed.

Lemma Strings_perm l : Strings l ≡ₚ l.
Proof. apply sort_perm. Qed.

Lemma Strings_sorted l : StronglySorted string_le (Strings l).
Proof. apply (sort_ordered string_less id string_le). intros; apply string_less_key. Qed.

Lemma Strings_unique l1 l2 : l1 ≡ₚ l2 -> Strings l1 = Strings l2.
Proof.
  intros Hp. rewrite <- (list_fmap_id (Strings l1)), <- (list_fmap_id (Strings l2)).
  apply (sorted_keys id string_le); [by rewrite !Strings_perm|apply Strings_sorted..].
Qed.

(** ** Medians *)
Definition f64_le (x y : float64) : Prop := f64_less y x = false.

Lemma Float64s_sorted xs : StronglySorted f64_le (Float64s xs).
Proof.
  pose proof (sort_ordered f64_less f64_key triple_le f64_less_key xs) as H. unfold Float64s.
  induction H as [|x l _ IH Hx]; constructor; [done|]. eapply Forall_impl; [exact Hx|]. intros y. apply f64_less_key.
Qed.

(** Whatever sorted arrangement is taken, position by position it holds the numbers
    that [Float64s] holds, up to the sign of zero. *)
Lemma Float64s_key xs c i : c ≡ₚ xs -> StronglySorted f64_le c -> f64_key <$> Float64s xs !! i = f64_key <$> c !! i.
Proof.
  intros Hp Hs. rewrite <- !list_lookup_fmap. f_equal.
  apply (sorted_keys f64_key triple_le).
  - etrans; [apply sort_perm|done].
  - apply (sort_ordered f64_less f64_key triple_le f64_less_key).
  - clear Hp. induction Hs as [|x l _ IH Hx]; constructor; [by apply IH|]. eapply Forall_impl; [exact Hx|]. intros y. apply f64_less_key.
Qed.

Lemma Float64s_get xs c i : c ≡ₚ xs -> StronglySorted f64_le c -> 0 <= i < Z.of_nat (length xs) ->
  exists x y, aget (Float64s xs) i = Ret x /\ c !! Z.to_nat i = Some y /\ f64_key x = f64_key y.
Proof.
  intros Hp Hs Hi. pose proof (Float64s_key xs c (Z.to_nat i) Hp Hs) as Hk.
  assert (length (Float64s xs) = length xs) as Hl by (apply Permutation_length, sort_perm).
  destruct (aget_is_ret (Float64s xs) i ltac:(rewrite Hl; lia)) as (x & Hx & Hlx). rewrite Hlx in Hk.
  destruct (c !! Z.to_nat i) as [y|]; cbn in Hk; simplify_eq. by exists x, y.
Qed.

Definition median_spec (n : nat) (c : list float64) (m : float64) : Prop :=
  match n with
  | O => m = f64_zero
  | _ => if Nat.odd n then exists y, c !! (n / 2)%nat = Some y /\ f64_key m = f64_key y
         else exists a b ya yb, c !! (n / 2 - 1)%nat = Some ya /\ c !! (n / 2)%nat = Some yb /\
                f64_key a = f64_key ya /\ f64_key b = f64_key yb /\ m = f64_div (f64_add a b) (f64_of 2)
  end.

Lemma Median_spec xs c : c ≡ₚ xs -> StronglySorted f64_le c -> exists m, Median xs = Ret m /\ median_spec (length xs) c m.
Proof.
  intros Hp Hs. unfold Median, median_spec. destruct (length xs) as [|k] eqn:En; [by eexists|]. rewrite <- En.
  replace (Z.of_nat (length xs) =? 0) with false by lia. rewrite Z.quot_div_nonneg, Z.rem_mod_nonneg by lia.
  assert (Z.of_nat (length xs) / 2 = Z.of_nat (length xs / 2)) as Hdiv by (by rewrite Nat2Z.inj_div).
  assert (length xs / 2 < length xs)%nat by (apply Nat.div_lt; lia).
  destruct (Nat.odd (length xs)) eqn:Eo.
  - apply Nat.odd_spec in Eo as [j Hj]. assert (Z.of_nat (length xs) mod 2 = 1) as ->.
    { replace (Z.of_nat (length xs)) with (1 + Z.of_nat j * 2) by lia. by rewrite Z.mod_add. }
    cbn [Z.eqb Pos.eqb].
    destruct (Float64s_get xs c (Z.of_nat (length xs) / 2) Hp Hs ltac:(lia)) as (x & y & Hx & Hy & Hk).
    exists x. split; [done|]. exists y. split; [|done]. by rewrite Hdiv, Nat2Z.id in Hy.
  - apply (f_equal negb) in Eo. rewrite Nat.negb_odd in Eo. cbn in Eo. apply Nat.even_spec in Eo as [j Hj].
    assert (Z.of_nat (length xs) mod 2 = 0) as ->.
    { replace (Z.of_nat (length xs)) with (0 + Z.of_nat j * 2) by lia. by rewrite Z.mod_add. }
    cbn [Z.eqb Pos.eqb]. assert (length xs / 2 = j)%nat by (rewrite Hj, Nat.mul_comm; by apply Nat.div_mul).
    destruct (Float64s_get xs c (Z.of_nat (length xs) / 2 - 1) Hp Hs ltac:(lia)) as (a & ya & Ha & Hya & Hka).
    destruct (Float64s_get xs c (Z.of_nat (length xs) / 2) Hp Hs ltac:(lia)) as (b & yb & Hb & Hyb & Hkb).
    rewrite Ha, Hb. cbn [mbind outcome_bind]. eexists. split; [done|]. exists a, b, ya, yb. split_and!; try done.
    + rewrite <- Hya, Hdiv. f_equal. lia.
    + rewrite <- Hyb, Hdiv. f_equal. lia.
Qed.

Lemma Median_total xs : exists m, Median xs = Ret m.
Proof. destruct (Median_spec xs (Float64s xs)) as (m & H & _); [apply sort_perm|apply Float64s_sorted|eauto]. Qed.

(** ** The closest run *)
Lemma closest_spec med runs : forall best,
  (closest med best runs = best \/
   closest med best runs ∈ runs /\ SFltb (distance med (closest med best runs)) (distance med best) = true) /\
  forall r, r = best \/ r ∈ runs -> SFltb (distance med r) (distance med (closest med best runs)) = false.
Proof.
  assert (forall f, SFltb f f = false) as Hirr.
  { intros f. apply not_true_iff_false. intros H. pose proof (f64_less_key f f) as Hk. unfold f64_less in Hk. rewrite H in Hk. cbn in Hk.
    by discriminate (proj2 Hk (reflexivity _)). }
  induction runs as [|r0 runs IH]; intros best; cbn [closest foldl].
  - split; [by left|]. intros r [->|[]%elem_of_nil]. apply Hirr.
  - change (foldl _ ?b runs) with (closest med b runs).
    destruct (SFltb (distance med r0) (distance med best)) eqn:E.
    + destruct (IH r0) as [Hin Hmin].
      assert (SFltb (distance med (closest med r0 runs)) (distance med best) = true) as Hlt.
      { destruct Hin as [->|[_ H]]; [done|]. by eapply f64_lt_trans. }
      split; [right; split; [destruct Hin as [->|[? _]]; set_solver|done]|].
      intros r [->|[->|Hr]%elem_of_cons]; [|by apply Hmin; left|by apply Hmin; right].
      apply not_true_iff_false. intros H. pose proof (f64_lt_trans _ _ _ H Hlt). by rewrite Hirr in *.
    + destruct (IH best) as [Hin Hmin]. split; [destruct Hin as [|[? ?]]; [by left|right; split; [set_solver|done]]|].
      intros r [->|[->|Hr]%elem_of_cons]; [by apply Hmin; left| |by apply Hmin; right].
      destruct Hin as [Heq|[_ Hlt]]; [by rewrite Heq|].
      apply not_true_iff_false. intros H. pose proof (f64_lt_trans _ _ _ H Hlt). congruence.
Qed.

(** ** The tally *)
Definition rows_of (cmd : bytes) (l : list ThroughputResult) : list ThroughputResult := filter (fun tr => Command tr = cmd) l.

Definition acc_of (rows : list ThroughputResult) : acc := MkAcc (RPS <$> rows) (P50 <$> rows) (P99 <$> rows).

(** After the rows [l] the map holds the columns of every command, and [order] the
    commands once each. *)
Record tallied (l : list ThroughputResult) (st : tally) : Prop := {
  td_map : forall cmd, st.1 !! cmd = if decide (rows_of cmd l = []) then None else Some (acc_of (rows_of cmd l));
  td_order : NoDup st.2;
  td_elem : forall cmd, cmd ∈ st.2 <-> cmd ∈ Command <$> l;
}.

Lemma rows_nil cmd l : rows_of cmd l = [] <-> cmd ∉ Command <$> l.
Proof.
  unfold rows_of. split.
  - intros H (tr & -> & Htr)%list_elem_of_fmap. assert (tr ∈ filter (fun t => Command t = Command tr) l) as Hin by (by apply list_elem_of_filter).
    rewrite H in Hin. by apply elem_of_nil in Hin.
  - intros Hn. destruct (filter _ l) as [|tr rows] eqn:E; [done|]. destruct Hn.
    assert (tr ∈ filter (fun t => Command t = cmd) l) as [<- Hin]%list_elem_of_filter by (rewrite E; left).
    by apply list_elem_of_fmap_2.
Qed.

Lemma add_result_tallied l st tr : tallied l st -> tallied (l ++ [tr]) (add_result st tr).
Proof.
  intros [Hm Hn He]. destruct st as [byCmd order]. cbn in *.
  assert (forall cmd, rows_of cmd (l ++ [tr]) = rows_of cmd l ++ (if decide (Command tr = cmd) then [tr] else [])) as Hr.
  { intros cmd. unfold rows_of. rewrite filter_app. f_equal. }
  assert (forall cmd, Command tr <> cmd -> rows_of cmd (l ++ [tr]) = rows_of cmd l) as Hne
    by (intros cmd Hc; by rewrite Hr, decide_False, app_nil_r).
  assert (rows_of (Command tr) (l ++ [tr]) = rows_of (Command tr) l ++ [tr]) as Hsame by (by rewrite Hr, decide_True).
  unfold add_result. pose proof (Hm (Command tr)) as Hc. destruct (decide (rows_of (Command tr) l = [])) as [E|E]; rewrite Hc.
  - assert (Command tr ∉ order) as Hnew by (rewrite He; by apply rows_nil).
    split; cbn.
    + intros cmd. destruct (decide (Command tr = cmd)) as [<-|Hd].
      * rewrite lookup_insert_eq, Hsame, E. done.
      * rewrite lookup_insert_ne, Hne by done. apply Hm.
    + apply NoDup_app. split_and!; [done| |apply NoDup_singleton]. intros x Hx ->%list_elem_of_singleton. done.
    + intros cmd. rewrite fmap_app, !elem_of_app, He. done.
  - assert (Command tr ∈ order) as Hold.
    { rewrite He. destruct (decide (Command tr ∈ Command <$> l)); [done|]. by destruct E; apply rows_nil. }
    split; cbn.
    + intros cmd. destruct (decide (Command tr = cmd)) as [<-|Hd].
      * rewrite lookup_insert_eq, Hsame, decide_False by (by destruct (rows_of _ l)). unfold acc_of. cbn. by rewrite !fmap_app.
      * rewrite lookup_insert_ne, Hne by done. apply Hm.
    + done.
    + intros cmd. rewrite fmap_app, elem_of_app, He. cbn. rewrite list_elem_of_singleton. split; [by left|].
      intros [?| ->]; [done|]. by apply He.
Qed.

Lemma tally_tallied runs : tallied (mjoin runs) (tally_runs runs).
Proof.
  unfold tally_runs.
  assert (forall l st, tallied l st -> tallied (l ++ mjoin runs) (foldl (fun st run => foldl add_result st run) st runs)) as H.
  { induction runs as [|run runs IH]; intros l st Hst; [by rewrite app_nil_r|].
    change (mjoin (run :: runs)) with (run ++ mjoin runs). rewrite app_assoc. cbn [foldl]. apply IH.
    clear IH. revert l st Hst. induction run as [|tr run IH]; intros l st Hst; [by rewrite app_nil_r|].
    replace (l ++ tr :: run) with ((l ++ [tr]) ++ run) by (by rewrite <- app_assoc). cbn [foldl]. by apply IH, add_result_tallied. }
  apply (H [] (∅, [])). split; cbn; [done|constructor|]. intros cmd. split; by intros ?%elem_of_nil.
Qed.

Lemma median_rows_spec byCmd order : (forall cmd, cmd ∈ order -> is_Some (byCmd !! cmd)) ->
  exists out, median_rows byCmd order = Ret out /\ Command <$> out = order /\
    forall tr, tr ∈ out -> exists a, byCmd !! Command tr = Some a /\
      Median (a_rps a) = Ret (RPS tr) /\ Median (a_p50 a) = Ret (P50 tr) /\ Median (a_p99 a) = Ret (P99 tr).
Proof.
  induction order as [|cmd order IH]; intros Hall; cbn [median_rows].
  - eexists. split; [done|]. split; [done|]. by intros tr ?%elem_of_nil.
  - destruct (Hall cmd) as [a Ha]; [left|]. rewrite Ha.
    destruct (Median_total (a_rps a)) as [rps E1], (Median_total (a_p50 a)) as [p50 E2], (Median_total (a_p99 a)) as [p99 E3].
    destruct IH as (out & Eo & Hc & Ho); [set_solver|]. rewrite E1, E2, E3, Eo. cbn [mbind outcome_bind].
    eexists. split; [done|]. split; [cbn; by rewrite <- Hc|].
    intros tr [->|Hin]%elem_of_cons; [by exists a|by apply Ho].
Qed.

(** ** The rendered table *)
Definition row_key (r : Result) : Z * bytes := (serverRank (Server r), Server r).

Definition row_le (a b : Z * bytes) : Prop := a.1 < b.1 \/ a.1 = b.1 /\ string_le a.2 b.2.

#[global] Instance row_le_refl : Reflexive row_le.
Proof. intros a. right. done. Qed.
#[global] Instance row_le_trans : Transitive row_le.
Proof. intros a b c [?|[? ?]] [?|[? ?]]; unfold row_le; [left; lia..|right]. split; [lia|by etrans]. Qed.
#[global] Instance row_le_anti : AntiSymm (=) row_le.
Proof. intros [a s] [b t] [?|[? ?]] [?|[? ?]]; cbn in *; try lia. f_equal; [done|by apply (anti_symm string_le)]. Qed.
#[global] Instance row_le_total : Total row_le.
Proof.
  intros [a s] [b t]. unfold row_le. cbn. destruct (Z.lt_total a b) as [|[->|]]; [by left; left| |by right; left].
  destruct (total string_le s t); [left|right]; right; done.
Qed.

Lemma row_less_key x y : row_less x y = false <-> row_le (row_key y) (row_key x).
Proof.
  unfold row_less, row_le, row_key. cbn [fst snd]. destruct (Z.eqb_spec (serverRank (Server x)) (serverRank (Server y))) as [->|]; cbn [negb].
  - rewrite string_less_key. split; [by right|]. intros [?|[_ ?]]; [lia|done].
  - rewrite Z.ltb_ge. split; [intros; left; lia|]. intros [?|[? _]]; lia.
Qed.

(** ** Theorems *)

(** Medians.  [Median] returns for every list: the middle of any sorted
    arrangement of the numbers (NaN first), or the mean of the two middle ones, and
    zero for none.  [MedianHitRatio] returns one of the runs, and none is closer to
    the median of the ratios. *)
Theorem medians_correct (xs c : list float64) (runs : list HitRatioResult) :
  c ≡ₚ xs -> StronglySorted f64_le c ->
  (exists m, Median xs = Ret m /\ median_spec (length xs) c m) /\
  (runs <> [] -> exists med r, Median (HitRatio <$> runs) = Ret med /\ MedianHitRatio runs = Ret r /\ r ∈ runs /\
     forall r', r' ∈ runs -> SFltb (distance med r') (distance med r) = false).
Proof.
  intros Hp Hs. split; [by apply Median_spec|]. intros Hne. destruct runs as [|r0 runs]; [done|].
  destruct (Median_total (HitRatio <$> r0 :: runs)) as [med Hm]. unfold MedianHitRatio. rewrite Hm. cbn [mbind outcome_bind].
  destruct (closest_spec med (r0 :: runs) r0) as [Hin Hmin]. eexists med, _. split_and!; [done|done| |by intros; apply Hmin; right].
  destruct Hin as [->|[? _]]; [left|done].
Qed.

(** C39. Throughput.  [MedianThroughput] returns one row for every command that occurs
    in the runs and no other, in strictly increasing order of the names, and each of
    its numbers is the median of that column over all rows of the command. *)
Theorem throughput_medians (runs : list (list ThroughputResult)) :
  exists out, MedianThroughput runs = Ret out /\
    NoDup (Command <$> out) /\ StronglySorted string_le (Command <$> out) /\
    (forall cmd, cmd ∈ Command <$> out <-> cmd ∈ Command <$> mjoin runs) /\
    forall tr, tr ∈ out -> let rows := filter (fun r => Command r = Command tr) (mjoin runs) in
      Median (RPS <$> rows) = Ret (RPS tr) /\ Median (P50 <$> rows) = Ret (P50 tr) /\ Median (P99 <$> rows) = Ret (P99 tr).
Proof.
  unfold MedianThroughput. pose proof (tally_tallied runs) as [Hm Hn He]. destruct (tally_runs runs) as [byCmd order]. cbn in Hm, Hn, He.
  assert (forall cmd, cmd ∈ Strings order <-> cmd ∈ Command <$> mjoin runs) as Hel by (intros cmd; by rewrite Strings_perm).
  destruct (median_rows_spec byCmd (Strings order)) as (out & Eo & Hc & Ho).
  { intros cmd Hin%Hel. rewrite Hm. destruct (decide _) as [E%rows_nil|]; [done|eauto]. }
  exists out. split; [done|]. rewrite Hc. split_and!; [by rewrite Strings_perm|apply Strings_sorted|done|].
  intros tr Htr. destruct (Ho tr Htr) as (a & Ha & H1). rewrite Hm in Ha. destruct (decide _); [done|]. simplify_eq. exact H1.
Qed.

(** C40. The table does not depend on the order of its input when no server has two
    results.  Two suites with the same results, at most one for each server name, and the
    same skipped names, in any order, are rendered byte for byte alike. *)
Theorem table_order_free (s1 s2 : Suite) :
  Results s1 ≡ₚ Results s2 -> Skipped s1 ≡ₚ Skipped s2 -> NoDup (Server <$> Results s1) -> RenderTable s1 = RenderTable s2.
Proof.
  intros Hr Hs Hn. unfold RenderTable. rewrite (Strings_unique _ _ Hs), (Permutation_length Hs).
  rewrite (sort_unique row_less row_key row_le row_less_key _ _ Hr); [done|].
  apply (NoDup_fmap_1 snd). rewrite <- list_fmap_compose. exact Hn.
Qed.

(** ** Witnesses *)
Definition demo_hit (h m : Z) : HitRatioResult :=
  MkHitRatio (f64_of h) (f64_of m) (f64_div (f64_of h) (f64_of (h + m))) (f64_of (h + m)) (MkLatency f64_zero f64_zero f64_zero).

Lemma medians_correct_witness :
  (exists m, Median [f64_of 3; f64_of 1; f64_of 2] = Ret m /\ f64_key m = f64_key (f64_of 2)) /\
  exists r, MedianHitRatio [demo_hit 1 2; demo_hit 1 1; demo_hit 9 1] = Ret r.
Proof.
  destruct (medians_correct [f64_of 3; f64_of 1; f64_of 2] [f64_of 1; f64_of 2; f64_of 3] [demo_hit 1 2; demo_hit 1 1; demo_hit 9 1])
    as [(m & Hm & y & Hy & Hk) H2].
  - apply (Permutation_app_comm [f64_of 1; f64_of 2] [f64_of 3]).
  - repeat constructor.
  - split; [exists m; split; [exact Hm|]; rewrite Hk; vm_compute in Hy; injection Hy as <-; reflexivity|].
    destruct H2 as (med & r & _ & Hr & _); [discriminate|]. by exists r.
Defined.

Definition demo_result (name : string) (rps : Z) : Result :=
  MkResult (B name) [MkThroughput (B "GET") (f64_of rps) (f64_of 1) (f64_of 2)] (Some (demo_hit 3 1)).

Lemma table_order_free_witness :
  RenderTable (MkSuite [demo_result "redis" 10; demo_result "cachemoney" 20] [B "valkey"; B "other"]) =
  RenderTable (MkSuite [demo_result "cachemoney" 20; demo_result "redis" 10] [B "other"; B "valkey"]).
Proof.
  apply table_order_free.
  - apply Permutation_swap.
  - apply Permutation_swap.
  - apply (bool_decide_unpack _). vm_compute. exact I.
Defined.

(** Two results of one server keep the order of the input. *)
Theorem table_same_server :
  RenderTable (MkSuite [demo_result "redis" 10; demo_result "redis" 20] []) <>
  RenderTable (MkSuite [demo_result "redis" 20; demo_result "redis" 10] []).
Proof. apply (bool_decide_unpack _). vm_compute. exact I. Qed.
