(* ===== verification/FloatText.v ===== *)
(** * Texts of numbers: [strconv.ParseFloat] and [strings.TrimSpace]

    What the parsers of benchmark output use of the standard library.  A number is
    read exactly, as digits and an exponent, and rounded once to binary64. *)
From S2P Require Import Prelude Hash Resp Float Server Flags.
From Stdlib Require Import SpecFloat.

(** ** [strings.TrimSpace] *)

(** The encodings of the code points with the property White_Space. *)
Definition spaces : list bytes :=
  [[x09]; [x0a]; [x0b]; [x0c]; [x0d]; [x20]; [xc2; x85]; [xc2; xa0]; [xe1; x9a; x80];
   [xe2; x80; x80]; [xe2; x80; x81]; [xe2; x80; x82]; [xe2; x80; x83]; [xe2; x80; x84]; [xe2; x80; x85];
   [xe2; x80; x86]; [xe2; x80; x87]; [xe2; x80; x88]; [xe2; x80; x89]; [xe2; x80; x8a];
   [xe2; x80; xa8]; [xe2; x80; xa9]; [xe2; x80; xaf]; [xe2; x81; x9f]; [xe3; x80; x80]].

Definition has_prefix (p s : bytes) : bool := bool_decide (take (length p) s = p).

(** The length of the white space a text starts with, if it does. *)
Definition leading_space (encodings : list bytes) (s : bytes) : option nat :=
  length <$> find (fun p => has_prefix p s) encodings.

Fixpoint trim (encodings : list bytes) (fuel : nat) (s : bytes) : bytes :=
  match fuel with
  | O => s
  | S fuel => match leading_space encodings s with Some n => trim encodings fuel (drop n s) | None => s end
  end.

(** From both ends; every round takes a byte. *)
Definition TrimSpace (s : bytes) : bytes :=
  let s := trim spaces (length s) s in
  reverse (trim (reverse <$> spaces) (length s) (reverse s)).

(** ** [strconv.ParseFloat(s, 64)] *)

(** [special]: the texts of infinity and NaN, in any letter case. *)
Definition special (s : bytes) : option float64 :=
  let inf_text (s : bytes) := bool_decide ((lower_byte <$> s) ∈ [B "inf"; B "infinity"]) in
  match s with
  | x2b :: s' => if inf_text s' then Some (S754_infinity false) else None
  | x2d :: s' => if inf_text s' then Some (S754_infinity true) else None
  | _ => if inf_text s then Some (S754_infinity false)
         else if bool_decide ((lower_byte <$> s) = B "nan") then Some S754_nan else None
  end.

(** The state of the loop of [readFloat]: the mantissa, its digits, the position of the
    point and what was seen. *)
Record digits_read : Type := MkRead { dr_mant : Z; dr_nd : Z; dr_dp : Z; dr_dot : bool; dr_digits : bool }.

Definition hex_digit_value (c : byte) : option Z :=
  if is_digit c then Some (code c - 48)
  else if (97 <=? lower c) && (lower c <=? 102) then Some (lower c - 87) else None.

(** The loop: the state and the text behind the digits. *)
Fixpoint read_mantissa (hex : bool) (d : digits_read) (s : bytes) : digits_read * bytes :=
  match s with
  | [] => (d, [])
  | c :: s' =>
      if bool_decide (c = x5f) then read_mantissa hex d s'
      else if bool_decide (c = x2e) then
        if dr_dot d then (d, s)
        else read_mantissa hex (MkRead (dr_mant d) (dr_nd d) (dr_nd d) true (dr_digits d)) s'
      else
        match (if is_digit c || hex then hex_digit_value c else None) with
        | None => (d, s)
        | Some v =>
            if (v =? 0) && (dr_nd d =? 0)
            then read_mantissa hex (MkRead (dr_mant d) 0 (dr_dp d - 1) (dr_dot d) true) s'
            else read_mantissa hex (MkRead (dr_mant d * (if hex then 16 else 10) + v) (dr_nd d + 1) (dr_dp d) (dr_dot d) true) s'
        end
  end.

(** The digits of an exponent; it stops growing at five digits. *)
Fixpoint read_exponent (e : Z) (s : bytes) : Z * bytes :=
  match s with
  | [] => (e, [])
  | c :: s' =>
      if bool_decide (c = x5f) then read_exponent e s'
      else if is_digit c then read_exponent (if e <? 10000 then e * 10 + (code c - 48) else e) s'
      else (e, s)
  end.

(** The optional exponent behind the mantissa. *)
Definition read_exp_part (hex : bool) (s : bytes) : option (Z * bytes) :=
  match s with
  | c :: s1 =>
      if lower c =? (if hex then 112 else 101) then
        let '(neg, s2) :=
          match s1 with
          | x2b :: s2 => (false, s2)
          | x2d :: s2 => (true, s2)
          | _ => (false, s1)
          end in
        match s2 with
        | c2 :: _ =>
            if is_digit c2 then let '(e, rest) := read_exponent 0 s2 in Some (if neg : bool then - e else e, rest)
            else None
        | [] => None
        end
      else if hex then None else Some (0, s)
  | [] => if hex then None else Some (0, [])
  end.

(** [readFloat] on the whole text: sign, mantissa, exponent of the base, the place of
    the point, and whether it is hexadecimal.  The digits a text of more than 19 has
    are kept, since the code rounds by all of them. *)
Definition readFloat (s : bytes) : option (bool * Z * Z * Z * bool) :=
  let '(neg, s1) :=
    match s with
    | x2b :: s1 => (false, s1)
    | x2d :: s1 => (true, s1)
    | _ => (false, s)
    end in
  let '(hex, s2) :=
    match s1 with
    | x30 :: c :: (_ :: _) as s2 => if lower c =? 120 then (true, drop 2 s1) else (false, s1)
    | _ => (false, s1)
    end in
  let '(d, s3) := read_mantissa hex (MkRead 0 0 0 false false) s2 in
  if negb (dr_digits d) then None
  else
    r ← read_exp_part hex s3;
    let '(e, rest) := r in
    let dp := if dr_dot d then dr_dp d else dr_nd d in
    let k := if hex then 4 else 1 in
    if negb (bool_decide (rest = [])) then None
    else if bool_decide (x5f ∈ s) && negb (underscoreOK s1) then None
    else Some (neg, dr_mant d, dp * k + e - dr_nd d * k, dp * k + e, hex).

(** The nearest binary64 of [m * 10 ^ e], ties to even, for a positive [m].  With more
    than 310 digits before the point it is infinite, more than 330 places behind it
    it is zero. *)
Definition round_decimal (neg : bool) (m : positive) (e places : Z) : float64 :=
  if 310 <? places then S754_infinity neg
  else if places <? -330 then S754_zero neg
  else if 0 <=? e then binary_round 53 1024 neg (m * Z.to_pos (10 ^ e)) 0
  else f64_div (S754_finite neg m 0) (S754_finite false (Z.to_pos (10 ^ (- e))) 0).

Definition round_float (neg : bool) (m e places : Z) (hex : bool) : float64 :=
  match m with
  | Z.pos p => if hex then binary_round 53 1024 neg p e else round_decimal neg p e places
  | _ => S754_zero neg
  end.

(** [None] is a syntax error, or a number out of range. *)
Definition ParseFloat (s : bytes) : option float64 :=
  match special s with
  | Some f => Some f
  | None =>
      r ← readFloat s;
      let '(neg, m, e, places, hex) := r in
      match round_float neg m e places hex with
      | S754_infinity _ => None
      | f => Some f
      end
  end.
