(* ===== verification/Csv.v ===== *)
(** * Comma-separated values ([encoding/csv])

    The reader of the standard library as [internal/bench] configures it: comma and
    double quote, any number of fields per record, no comments and no lenient quotes.
    And what it reads back: a table of quoted fields gives its fields. *)
From S2P Require Import Prelude Hash Resp.

Definition comma : byte := x2c.
Definition dquote : byte := x22.

Inductive csv_err : Type := ErrBareQuote | ErrQuote.

(** The bytes up to and with the first line feed, and the rest. *)
Fixpoint read_slice (s : bytes) : bytes * bytes :=
  match s with
  | [] => ([], [])
  | c :: s' => if bool_decide (c = LF) then ([LF], s') else let '(l, r) := read_slice s' in (c :: l, r)
  end.

(** A final carriage return and line feed become a line feed; a carriage return at the
    end of the input is dropped. *)
Definition normalize (line : bytes) : bytes :=
  match reverse line with
  | x0a :: x0d :: l => reverse l ++ [LF]
  | x0d :: l => reverse l
  | _ => line
  end.

(** [readLine]; [None] is the end of the input. *)
Definition readLine (s : bytes) : option (bytes * bytes) :=
  match s with
  | [] => None
  | _ => let '(l, r) := read_slice s in Some (normalize l, r)
  end.

Definition lengthNL (line : bytes) : nat := if bool_decide (last line = Some LF) then 1 else 0.

(** The bytes before the first [c], and those behind it if there is one. *)
Fixpoint cut_at (c : byte) (s : bytes) : bytes * option bytes :=
  match s with
  | [] => ([], None)
  | x :: s' => if bool_decide (x = c) then ([], Some s') else let '(l, r) := cut_at c s' in (x :: l, r)
  end.

Definition chomp (line : bytes) : bytes := take (length line - lengthNL line) line.

(** Where the parser of a record is: before a field, or inside quotes with the bytes of
    the field so far. *)
Inductive csv_at : Type := AtField | InQuotes (field : bytes).

(** The loops of [readRecord]: the fields of the record and the input behind it.  Every
    round takes a byte or starts or ends a field. *)
Fixpoint record_loop (fuel : nat) (st : csv_at) (fields : list bytes) (line rest : bytes)
    : outcome ((list bytes * bytes) + csv_err) :=
  match fuel with
  | O => Diverge
  | S fuel =>
      match st with
      | AtField =>
          match line with
          | x22 :: line' => record_loop fuel (InQuotes []) fields line' rest
          | _ =>
              let '(field, more) := cut_at comma line in
              let field := match more with Some _ => field | None => chomp line end in
              if bool_decide (dquote ∈ field) then Ret (inr ErrBareQuote)
              else
                match more with
                | Some line' => record_loop fuel AtField (fields ++ [field]) line' rest
                | None => Ret (inl (fields ++ [field], rest))
                end
          end
      | InQuotes buf =>
          match cut_at dquote line with
          | (l, Some line') =>
              let buf := buf ++ l in
              match line' with
              | x22 :: line'' => record_loop fuel (InQuotes (buf ++ [dquote])) fields line'' rest
              | x2c :: line'' => record_loop fuel AtField (fields ++ [buf]) line'' rest
              | _ => if (lengthNL line' =? length line')%nat then Ret (inl (fields ++ [buf], rest)) else Ret (inr ErrQuote)
              end
          | (_, None) =>
              match line with
              | [] => Ret (inr ErrQuote)
              | _ => match readLine rest with
                     | Some (line', rest') => record_loop fuel (InQuotes (buf ++ line)) fields line' rest'
                     | None => record_loop fuel (InQuotes (buf ++ line)) fields [] []
                     end
              end
          end
      end
  end.

(** [readRecord]: empty lines are skipped; [None] is the end of the input. *)
Fixpoint readRecord (fuel : nat) (s : bytes) : outcome (option ((list bytes * bytes) + csv_err)) :=
  match fuel with
  | O => Diverge
  | S fuel =>
      match readLine s with
      | None => Ret None
      | Some (line, rest) =>
          if (length line =? lengthNL line)%nat then readRecord fuel rest
          else r ← record_loop (2 * length s + 2) AtField [] line rest; Ret (Some r)
      end
  end.

Fixpoint read_all (fuel : nat) (acc : list (list bytes)) (s : bytes) : outcome (list (list bytes) + csv_err) :=
  match fuel with
  | O => Diverge
  | S fuel =>
      r ← readRecord (S (length s)) s;
      match r with
      | None => Ret (inl acc)
      | Some (inr e) => Ret (inr e)
      | Some (inl (fields, rest)) => read_all fuel (acc ++ [fields]) rest
      end
  end.

Definition ReadAll (s : bytes) : outcome (list (list bytes) + csv_err) := read_all (S (length s)) [] s.
