(* ===== verification/CsvSpec.v ===== *)
(** * What the CSV reader returns

    It returns on every input, and on a table of quoted fields it returns the fields. *)
From S2P Require Import Prelude Hash Resp Csv.

(** ** Lines *)
Lemma read_slice_len s : forall l r, read_slice s = (l, r) -> (length l + length r = length s)%nat.
Proof.
  induction s as [|c s IH]; intros l r; cbn; [by intros [= <- <-]|].
  case_bool_decide; [by intros [= <- <-]|]. destruct (read_slice s) as [l' r']. intros [= <- <-].
  specialize (IH _ _ eq_refl). cbn. lia.
Qed.

Lemma read_slice_ne s l r : read_slice s = (l, r) -> s <> [] -> l <> [].
Proof. destruct s as [|c s]; cbn; [done|]. case_bool_decide; [by intros [= <- <-]|]. destruct (read_slice s). by intros [= <- <-]. Qed.

Lemma normalize_len l : (length (normalize l) <= length l)%nat.
Proof.
  unfold normalize. assert (length l = length (reverse l)) as Hl by (by rewrite length_reverse).
  destruct (reverse l) as [|c r]; [done|]. cbn [length] in Hl.
  destruct c; try done; [|rewrite length_reverse; lia]. destruct r as [|c' r]; [done|]. cbn [length] in Hl.
  destruct c'; try done. rewrite length_app, length_reverse. cbn [length]. lia.
Qed.

Lemma readLine_len s l r : readLine s = Some (l, r) -> (length l + length r <= length s)%nat /\ (length r < length s)%nat.
Proof.
  unfold readLine. destruct s as [|c s]; [done|]. destruct (read_slice (c :: s)) as [l' r'] eqn:E. intros [= <- <-].
  pose proof (read_slice_len _ _ _ E). pose proof (read_slice_ne _ _ _ E ltac:(done)).
  pose proof (normalize_len l'). destruct l' as [|x l']; [done|]. split; [lia|]. cbn in H. cbn [length]. lia.
Qed.

Lemma cut_at_len c s : forall l r, cut_at c s = (l, Some r) -> (length l + S (length r) = length s)%nat.
Proof.
  induction s as [|x s IH]; intros l r; cbn; [done|]. case_bool_decide; [by intros [= <- <-]|].
  destruct (cut_at c s) as [l' r'] eqn:E. intros [= <- ->]. specialize (IH _ _ eq_refl). cbn. lia.
Qed.

(** ** Termination *)
Lemma record_loop_returns fuel : forall st fields line rest, (2 * (length line + length rest) + 1 < fuel)%nat ->
  exists r, record_loop fuel st fields line rest = Ret r /\
    forall fs rest', r = inl (fs, rest') -> (length rest' <= length rest)%nat.
Proof.
  induction fuel as [|fuel IH]; intros st fields line rest Hf; [lia|].
  assert (forall (e : csv_err) (P : Prop), P -> exists r, (Ret (inr e) : outcome ((list bytes * bytes) + csv_err)) = Ret r /\
    forall fs rest', r = inl (fs, rest') -> (length rest' <= length rest)%nat) as Herr by (intros; eexists; split; [done|]; by intros ? ? [=]).
  assert (forall st' fields' line', (length line' < length line)%nat -> exists r, record_loop fuel st' fields' line' rest = Ret r /\
    forall fs rest', r = inl (fs, rest') -> (length rest' <= length rest)%nat) as Hline by (intros; apply IH; lia).
  destruct st as [|buf]; cbn [record_loop].
  - assert (exists r, (let '(field, more) := cut_at comma line in
              let field := match more with Some _ => field | None => chomp line end in
              if bool_decide (dquote ∈ field) then Ret (inr ErrBareQuote)
              else match more with
                | Some line' => record_loop fuel AtField (fields ++ [field]) line' rest
                | None => Ret (inl (fields ++ [field], rest)) end) = Ret r /\
            forall fs rest', r = inl (fs, rest') -> (length rest' <= length rest)%nat) as Hplain.
    { destruct (cut_at comma line) as [field more] eqn:E. cbn zeta. case_bool_decide; [by apply (Herr _ True)|].
      destruct more as [line'|]; [apply cut_at_len in E; apply Hline; lia|]. eexists. split; [done|]. by intros ? ? [= <- <-]. }
    destruct line as [|c line']; [exact Hplain|]. destruct c; try exact Hplain. apply Hline. cbn. lia.
  - destruct (cut_at dquote line) as [l [line'|]] eqn:E.
    + apply cut_at_len in E.
      assert (exists r, (if (lengthNL line' =? length line')%nat then Ret (inl (fields ++ [buf ++ l], rest)) else Ret (inr ErrQuote)) = Ret r /\
        forall fs rest', r = inl (fs, rest') -> (length rest' <= length rest)%nat) as Hend.
      { case_match; [|by apply (Herr _ True)]. eexists. split; [done|]. by intros ? ? [= <- <-]. }
      destruct line' as [|c line'']; [exact Hend|]. cbn in E. destruct c; try exact Hend; apply Hline; lia.
    + destruct line as [|c line']; [by apply (Herr _ True)|].
      destruct (readLine rest) as [[l2 r2]|] eqn:Er; [|destruct rest; [apply IH; cbn in *; lia|by unfold readLine in Er; destruct (read_slice _)]].
      apply readLine_len in Er as [Hlen Hlt]. destruct (IH (InQuotes (buf ++ c :: line')) fields l2 r2) as (r & Hr & Hb); [cbn in Hf; lia|].
      exists r. split; [done|]. intros fs rest' Hx. specialize (Hb _ _ Hx). lia.
Qed.

Lemma readRecord_returns fuel : forall s, (length s < fuel)%nat ->
  exists r, readRecord fuel s = Ret r /\ forall fs rest, r = Some (inl (fs, rest)) -> (length rest < length s)%nat.
Proof.
  induction fuel as [|fuel IH]; intros s Hf; [lia|]. cbn [readRecord].
  destruct (readLine s) as [[line rest]|] eqn:E; [|by eexists]. apply readLine_len in E as [Hl Hr].
  destruct (length line =? lengthNL line)%nat.
  - destruct (IH rest) as (r & Er & Hb); [lia|]. exists r. split; [done|]. intros fs rest' Hx. specialize (Hb _ _ Hx). lia.
  - destruct (record_loop_returns (2 * length s + 2) AtField [] line rest) as (r & Er & Hb); [lia|].
    rewrite Er. cbn [mbind outcome_bind]. eexists. split; [done|]. intros fs rest' [= ->]. specialize (Hb _ _ eq_refl). lia.
Qed.

Lemma read_all_returns fuel : forall acc s, (length s < fuel)%nat -> exists r, read_all fuel acc s = Ret r.
Proof.
  induction fuel as [|fuel IH]; intros acc s Hf; [lia|]. cbn [read_all].
  destruct (readRecord_returns (S (length s)) s) as (r & Er & Hb); [lia|]. rewrite Er. cbn [mbind outcome_bind].
  destruct r as [[[fs rest]|e]|]; [|by eexists..]. specialize (Hb _ _ eq_refl). apply IH. lia.
Qed.

Lemma ReadAll_returns s : exists r, ReadAll s = Ret r.
Proof. apply read_all_returns. lia. Qed.

(** ** Quoted tables *)
Definition quoted (f : bytes) : bytes := dquote :: f ++ [dquote].

Fixpoint quoted_fields (fs : list bytes) : bytes :=
  match fs with
  | [] => []
  | [f] => quoted f
  | f :: fs => quoted f ++ comma :: quoted_fields fs
  end.

(** A record with its line end. *)
Definition quoted_row (crlf : bool) (fs : list bytes) : bytes := quoted_fields fs ++ (if crlf then [CR; LF] else [LF]).

(** What can stand between quotes on one line. *)
Definition plain (f : bytes) : Prop := (dquote ∉ f) /\ LF ∉ f.

Lemma cut_at_app c l r : c ∉ l -> cut_at c (l ++ c :: r) = (l, Some r).
Proof.
  induction l as [|x l IH]; cbn; intros Hn; [by rewrite bool_decide_eq_true_2|].
  rewrite not_elem_of_cons in Hn. destruct Hn as [Hx Hn]. rewrite bool_decide_eq_false_2 by done. by rewrite IH.
Qed.

Lemma read_slice_app l r : LF ∉ l -> read_slice (l ++ LF :: r) = (l ++ [LF], r).
Proof.
  induction l as [|x l IH]; cbn; intros Hn; [done|].
  rewrite not_elem_of_cons in Hn. destruct Hn as [Hx Hn]. rewrite bool_decide_eq_false_2 by done. by rewrite IH.
Qed.

Lemma quoted_fields_lf fs : Forall plain fs -> LF ∉ quoted_fields fs.
Proof.
  intros Hf. induction Hf as [|f fs [_ Hlf] Hfs IH]; [set_solver|].
  assert (LF ∉ quoted f) by (unfold quoted; rewrite elem_of_cons, elem_of_app, list_elem_of_singleton; intros [?|[?|?]]; done).
  destruct fs as [|f' fs]; [done|]. change (quoted_fields (f :: f' :: fs)) with (quoted f ++ comma :: quoted_fields (f' :: fs)).
  rewrite elem_of_app, elem_of_cons. intros [?|[?|?]]; done.
Qed.

(** The line the reader works on. *)
Lemma quoted_line crlf fs rest : Forall plain fs -> fs <> [] ->
  readLine (quoted_row crlf fs ++ rest) = Some (quoted_fields fs ++ [LF], rest).
Proof.
  intros Hf Hne. pose proof (quoted_fields_lf fs Hf) as Hlf.
  assert (exists l, quoted_fields fs = l ++ [dquote]) as [l El].
  { clear Hf Hlf. induction fs as [|f fs IH]; [done|]. destruct fs as [|f' fs]; [by exists (dquote :: f)|].
    destruct IH as [l E]; [done|]. exists (quoted f ++ comma :: l).
    change (quoted_fields (f :: f' :: fs)) with (quoted f ++ comma :: quoted_fields (f' :: fs)). by rewrite E, <- app_assoc. }
  assert (forall r, readLine ((quoted_fields fs ++ r) ++ rest) = let '(l, r) := read_slice ((quoted_fields fs ++ r) ++ rest) in Some (normalize l, r)) as Hrd.
  { intros r. rewrite El. by destruct l. }
  unfold quoted_row. rewrite Hrd. destruct crlf.
  - replace ((quoted_fields fs ++ [CR; LF]) ++ rest) with ((quoted_fields fs ++ [CR]) ++ LF :: rest) by (by rewrite <- !app_assoc).
    rewrite read_slice_app by (apply not_elem_of_app; split; [done|by rewrite list_elem_of_singleton]).
    unfold normalize. rewrite !reverse_snoc. unfold LF, CR. by rewrite reverse_involutive.
  - rewrite <- app_assoc. cbn [app]. rewrite read_slice_app by done. unfold normalize. by rewrite El, !reverse_snoc.
Qed.

Lemma loop_open fuel acc line rest : record_loop (S fuel) AtField acc (dquote :: line) rest = record_loop fuel (InQuotes []) acc line rest.
Proof. reflexivity. Qed.

Lemma loop_comma fuel buf acc l line rest : dquote ∉ l ->
  record_loop (S fuel) (InQuotes buf) acc (l ++ dquote :: comma :: line) rest = record_loop fuel AtField (acc ++ [buf ++ l]) line rest.
Proof. intros Hl. cbn [record_loop]. rewrite (cut_at_app dquote l) by done. reflexivity. Qed.

Lemma loop_end fuel buf acc l rest : dquote ∉ l ->
  record_loop (S fuel) (InQuotes buf) acc (l ++ [dquote; LF]) rest = Ret (inl (acc ++ [buf ++ l], rest)).
Proof. intros Hl. cbn [record_loop]. rewrite (cut_at_app dquote l) by done. reflexivity. Qed.

Lemma record_quoted fs : forall fuel acc rest, Forall plain fs -> fs <> [] -> (2 * length fs <= fuel)%nat ->
  record_loop fuel AtField acc (quoted_fields fs ++ [LF]) rest = Ret (inl (acc ++ fs, rest)).
Proof.
  induction fs as [|f fs IH]; intros fuel acc rest Hf Hne Hfuel; [done|].
  apply Forall_cons in Hf as [[Hq _] Hf]. destruct fuel as [|[|fuel]]; [cbn in Hfuel; lia..|].
  destruct fs as [|f' fs].
  - replace (quoted_fields [f] ++ [LF]) with (dquote :: f ++ [dquote; LF]) by (cbn; by rewrite <- app_assoc).
    rewrite loop_open, loop_end by done. done.
  - replace (quoted_fields (f :: f' :: fs) ++ [LF]) with (dquote :: f ++ dquote :: comma :: (quoted_fields (f' :: fs) ++ [LF])).
    2:{ change (quoted_fields (f :: f' :: fs)) with (quoted f ++ comma :: quoted_fields (f' :: fs)). unfold quoted.
        cbn [app]. by rewrite <- !app_assoc. }
    rewrite loop_open, loop_comma, IH; [by rewrite <- app_assoc|done|done|cbn in *; lia|done].
Qed.

(** The reader gives back the records of a quoted table, whatever its line ends. *)
Definition quoted_table (rows : list (bool * list bytes)) : bytes := mjoin ((fun '(e, fs) => quoted_row e fs) <$> rows).

Definition table_ok (rows : list (bool * list bytes)) : Prop := Forall (fun r => Forall plain r.2 /\ r.2 <> []) rows.

Lemma quoted_fields_len fs : (2 * length fs <= length (quoted_fields fs))%nat.
Proof.
  induction fs as [|f fs IH]; [done|]. destruct fs as [|f' fs]; [cbn; rewrite length_app; cbn; lia|].
  change (quoted_fields (f :: f' :: fs)) with (quoted f ++ comma :: quoted_fields (f' :: fs)).
  rewrite length_app. cbn [length] in *. unfold quoted. cbn [length]. rewrite length_app. cbn [length]. lia.
Qed.

Lemma readRecord_quoted fuel crlf fs rest : Forall plain fs -> fs <> [] ->
  readRecord (S fuel) (quoted_row crlf fs ++ rest) = Ret (Some (inl (fs, rest))).
Proof.
  intros Hf Hne. cbn [readRecord]. rewrite quoted_line by done.
  assert (lengthNL (quoted_fields fs ++ [LF]) = 1%nat) as -> by (unfold lengthNL; by rewrite last_snoc, bool_decide_eq_true_2).
  pose proof (quoted_fields_len fs) as Hl. rewrite length_app. cbn [length].
  destruct (Nat.eqb_spec (length (quoted_fields fs) + 1) 1) as [E|_]; [destruct fs; [done|cbn [length] in Hl; lia]|].
  rewrite record_quoted by (done || (unfold quoted_row; rewrite !length_app; lia)). done.
Qed.

Lemma quoted_row_len crlf fs : (0 < length (quoted_row crlf fs))%nat.
Proof. unfold quoted_row. rewrite length_app. destruct crlf; cbn; lia. Qed.

Lemma read_all_quoted rows : forall fuel acc, table_ok rows -> (length rows < fuel)%nat ->
  read_all fuel acc (quoted_table rows) = Ret (inl (acc ++ (snd <$> rows))).
Proof.
  induction rows as [|[e fs] rows IH]; intros fuel acc Hok Hf; (destruct fuel as [|fuel]; [cbn in Hf; lia|]).
  - cbn. by rewrite app_nil_r.
  - apply Forall_cons in Hok as [[Hp Hne] Hok]. cbn [read_all].
    change (quoted_table ((e, fs) :: rows)) with (quoted_row e fs ++ quoted_table rows).
    rewrite readRecord_quoted by done. cbn [mbind outcome_bind]. rewrite IH; [by rewrite <- app_assoc|done|cbn in Hf; lia].
Qed.

Lemma ReadAll_quoted rows : table_ok rows -> ReadAll (quoted_table rows) = Ret (inl (snd <$> rows)).
Proof.
  intros Hok. unfold ReadAll. rewrite read_all_quoted; [done|done|].
  clear Hok. induction rows as [|[e fs] rows IH]; [cbn; lia|].
  change (quoted_table ((e, fs) :: rows)) with (quoted_row e fs ++ quoted_table rows).
  rewrite length_app. cbn [length]. pose proof (quoted_row_len e fs). lia.
Qed.
