(* ===== verification/RedisBench.v ===== *)
(** * The output of redis-benchmark ([internal/bench/redisbench.go])

    [ParseRedisBench] over the CSV reader and the number parser, and what it makes of
    the tool's output. *)
From S2P Require Import Prelude Hash Resp Float Server Flags FloatText Csv CsvSpec Bench.
From Stdlib Require Import SpecFloat.

(** ** [doc.go] *)
Record ParseError : Type := MkParseError { Tool : bytes; Msg : bytes }.

Definition parse_error_text (e : ParseError) : bytes := B "bench: " ++ Tool e ++ B ": " ++ Msg e.

(** ** [redisbench.go] *)

(** [strings.Contains] *)
Fixpoint contains (s sub : bytes) : bool :=
  has_prefix sub s || match s with [] => false | _ :: s' => contains s' sub end.

(** A blank line: one field of white space. *)
Definition blank (rec : list bytes) : bool :=
  match rec with [f] => bool_decide (TrimSpace f = []) | _ => false end.

Definition nonEmptyRecords (records : list (list bytes)) : list (list bytes) := filter (fun rec => blank rec = false) records.

Definition isHeaderRow (rec : list bytes) : bool :=
  match rec with
  | _ :: f :: _ => match ParseFloat (TrimSpace f) with Some _ => false | None => true end
  | _ => false
  end.

Definition optFloat (rec : list bytes) (col : Z) : outcome float64 :=
  if (col <? 0) || (Z.of_nat (length rec) <=? col) then Ret f64_zero
  else
    f ← aget rec col;
    Ret (match ParseFloat (TrimSpace f) with Some v => v | None => f64_zero end).

Record columns : Type := MkColumns { rps_col : Z; p50_col : Z; p99_col : Z }.

(** [rps < 0 || IsNaN(rps) || IsInf(rps, 0)] *)
Definition bad_rps (v : float64) : bool :=
  SFltb v f64_zero || match v with S754_nan | S754_infinity _ => true | _ => false end.

Section RedisBench.
(** [unicode_lower] is [strings.ToLower] on text that is not all ASCII, [csv_text] the
    text of a reader error, which names positions. *)
Context (unicode_lower : bytes -> bytes) (csv_text : csv_err -> bytes).

Definition redis_error (msg : bytes) : ParseError := MkParseError (B "redis-benchmark") msg.

(** The loop of [mapColumns], at column [i]. *)
Fixpoint map_columns (i : Z) (c : columns) (header : list bytes) : columns :=
  match header with
  | [] => c
  | h :: header =>
      let h := ToLower unicode_lower (TrimSpace h) in
      map_columns (i + 1)
        (if bool_decide (h = B "rps") || bool_decide (h = B "throughput") || contains h (B "requests")
         then MkColumns i (p50_col c) (p99_col c)
         else if contains h (B "p50") then MkColumns (rps_col c) i (p99_col c)
         else if contains h (B "p99") && negb (contains h (B "p99.9")) then MkColumns (rps_col c) (p50_col c) i
         else c) header
  end.

(** [None] is a header without the rps column. *)
Definition mapColumns (header : list bytes) : option columns :=
  let c := map_columns 0 (MkColumns (-1) (-1) (-1)) header in
  if 0 <=? rps_col c then Some c else None.

(** One data row. *)
Definition parse_row (c : columns) (rec : list bytes) : outcome (ThroughputResult + ParseError) :=
  if Z.of_nat (length rec) <=? rps_col c then Ret (inr (redis_error (B "row has too few columns")))
  else
    f ← aget rec (rps_col c);
    match ParseFloat (TrimSpace f) with
    | None => Ret (inr (redis_error (B "non-numeric rps: " ++ f)))
    | Some rps =>
        if bad_rps rps then Ret (inr (redis_error (B "rps is not a finite non-negative number")))
        else
          cmd ← aget rec 0;
          p50 ← optFloat rec (p50_col c);
          p99 ← optFloat rec (p99_col c);
          Ret (inl (MkThroughput (TrimSpace cmd) rps p50 p99))
    end.

Fixpoint parse_rows (c : columns) (out : list ThroughputResult) (records : list (list bytes))
    : outcome (list ThroughputResult + ParseError) :=
  match records with
  | [] => Ret (inl out)
  | rec :: records =>
      r ← parse_row c rec;
      match r with
      | inr e => Ret (inr e)
      | inl tr => parse_rows c (out ++ [tr]) records
      end
  end.

Definition ParseRedisBench (data : bytes) : outcome (list ThroughputResult + ParseError) :=
  r ← ReadAll data;
  match r with
  | inr e => Ret (inr (redis_error (B "invalid CSV: " ++ csv_text e)))
  | inl records =>
      match nonEmptyRecords records with
      | [] => Ret (inr (redis_error (B "no records")))
      | first :: more =>
          if isHeaderRow first then
            match mapColumns first with
            | None => Ret (inr (redis_error (B "header has no rps column")))
            | Some c =>
                match more with
                | [] => Ret (inr (redis_error (B "no data rows")))
                | _ => parse_rows c [] more
                end
            end
          else parse_rows (MkColumns 1 (-1) (-1)) [] (first :: more)
      end
  end.

(** ** Facts *)

(** What a data row means. *)
Definition row_means (c : columns) (rec : list bytes) (tr : ThroughputResult) : Prop :=
  exists f cmd, rec !! Z.to_nat (rps_col c) = Some f /\ ParseFloat (TrimSpace f) = Some (RPS tr) /\ bad_rps (RPS tr) = false /\
    rec !! 0%nat = Some cmd /\ Command tr = TrimSpace cmd /\
    optFloat rec (p50_col c) = Ret (P50 tr) /\ optFloat rec (p99_col c) = Ret (P99 tr).

Lemma optFloat_returns rec col : exists v, optFloat rec col = Ret v.
Proof.
  unfold optFloat. destruct (Z.ltb_spec col 0); [by eexists|]. destruct (Z.leb_spec (Z.of_nat (length rec)) col); [by eexists|].
  destruct (aget_is_ret rec col ltac:(lia)) as (f & -> & _). cbn. by eexists.
Qed.

(** A row gives its result, or an error of the tool. *)
Lemma parse_row_cases c rec : 0 <= rps_col c ->
  (exists tr, parse_row c rec = Ret (inl tr) /\ row_means c rec tr) \/
  (exists e, parse_row c rec = Ret (inr e) /\ Tool e = B "redis-benchmark" /\ forall tr, ~ row_means c rec tr).
Proof.
  intros Hc. unfold parse_row, row_means. destruct (Z.leb_spec (Z.of_nat (length rec)) (rps_col c)).
  { right. eexists. split; [done|]. split; [done|]. intros tr (f & _ & Hf & _). apply lookup_lt_Some in Hf. lia. }
  destruct (aget_is_ret rec (rps_col c) ltac:(lia)) as (f & -> & Hf). cbn [mbind outcome_bind].
  destruct (ParseFloat (TrimSpace f)) as [v|] eqn:Ev.
  2:{ right. eexists. split; [done|]. split; [done|]. intros tr (f' & _ & Hf' & Hp & _). simplify_eq; congruence. }
  destruct (bad_rps v) eqn:Eb.
  { right. eexists. split; [done|]. split; [done|]. intros tr (f' & _ & Hf' & Hp & Hb & _). simplify_eq; congruence. }
  destruct (aget_is_ret rec 0 ltac:(lia)) as (cmd & -> & Hcmd).
  destruct (optFloat_returns rec (p50_col c)) as [p50 E50], (optFloat_returns rec (p99_col c)) as [p99 E99].
  rewrite E50, E99. cbn. left. eexists. split; [done|]. exists f, cmd. split_and!; done.
Qed.

Lemma row_means_fun c rec tr : 0 <= rps_col c -> row_means c rec tr -> parse_row c rec = Ret (inl tr).
Proof.
  intros Hc Hm. destruct (parse_row_cases c rec Hc) as [(tr' & -> & Hm')|(e & _ & _ & Hno)]; [|by destruct (Hno tr)].
  destruct Hm as (f & cmd & Hf & Hp & _ & Hcmd & Ht & E50 & E99), Hm' as (f' & cmd' & Hf' & Hp' & _ & Hcmd' & Ht' & E50' & E99').
  destruct tr as [n r a b], tr' as [n' r' a' b']. cbn [RPS P50 P99 Command] in *. do 2 f_equal. congruence.
Qed.

Lemma parse_rows_ok c records trs : forall out, 0 <= rps_col c -> Forall2 (row_means c) records trs ->
  parse_rows c out records = Ret (inl (out ++ trs)).
Proof.
  intros out Hc Hm. revert out. induction Hm as [|rec tr records trs Hr _ IH]; intros out; cbn [parse_rows].
  - by rewrite app_nil_r.
  - rewrite (row_means_fun c rec tr Hc Hr). cbn [mbind outcome_bind]. rewrite IH. by rewrite <- app_assoc.
Qed.

Lemma parse_rows_cases c records : forall out, 0 <= rps_col c ->
  (exists trs, parse_rows c out records = Ret (inl (out ++ trs)) /\ Forall2 (row_means c) records trs) \/
  (exists e, parse_rows c out records = Ret (inr e) /\ Tool e = B "redis-benchmark").
Proof.
  induction records as [|rec records IH]; intros out Hc; cbn [parse_rows].
  - left. exists []. split; [by rewrite app_nil_r|constructor].
  - destruct (parse_row_cases c rec Hc) as [(tr & -> & Hm)|(e & -> & Ht & _)]; cbn [mbind outcome_bind]; [|right; by exists e].
    destruct (IH (out ++ [tr]) Hc) as [(trs & -> & Hms)|(e & -> & He)]; [left|right; by exists e].
    exists (tr :: trs). split; [by rewrite <- app_assoc|by constructor].
Qed.

(** Which columns a table has, and which rows are data. *)
Inductive layout : list (list bytes) -> columns -> list (list bytes) -> Prop :=
| layout_header header c rows : isHeaderRow header = true -> mapColumns header = Some c -> rows <> [] ->
    layout (header :: rows) c rows
| layout_minimal first rows : isHeaderRow first = false -> layout (first :: rows) (MkColumns 1 (-1) (-1)) (first :: rows).

Lemma layout_col records c rows : layout records c rows -> 0 <= rps_col c /\ rows <> [].
Proof.
  intros [header c' rows' _ Hm Hne|]; [|done]. split; [|done]. unfold mapColumns in Hm. case_match; [|done]. simplify_eq. lia.
Qed.

(** Every input gives results or an error of the tool. *)
Lemma ParseRedisBench_cases (data : bytes) :
  exists r, ParseRedisBench data = Ret r /\
    match r with
    | inl out => exists records c' drows', ReadAll data = Ret (inl records) /\ layout (nonEmptyRecords records) c' drows' /\
        Forall2 (row_means c') drows' out /\ out <> []
    | inr e => Tool e = B "redis-benchmark"
    end.
Proof.
  unfold ParseRedisBench. destruct (ReadAll_returns data) as [[records|e] ->]; cbn [mbind outcome_bind]; [|by eexists].
  assert (forall c' drows', layout (nonEmptyRecords records) c' drows' -> exists r, parse_rows c' [] drows' = Ret r /\
    match r with
    | inl out => exists records0 c' drows', Ret (inl records : list (list bytes) + csv_err) = Ret (inl records0) /\ layout (nonEmptyRecords records0) c' drows' /\
       Forall2 (row_means c') drows' out /\ out <> []
    | inr e => Tool e = B "redis-benchmark" end) as Hgo.
  { intros c' drows' Hl. destruct (layout_col _ _ _ Hl) as [Hc Hne].
    destruct (parse_rows_cases c' drows' [] Hc) as [(out & -> & Hm)|(e & -> & He)]; [|by eexists].
    cbn [app]. eexists. split; [done|]. exists records, c', drows'. split_and!; try done. intros ->. apply Forall2_nil_inv_r in Hm. done. }
  destruct (nonEmptyRecords records) as [|first more] eqn:En; [by eexists|].
  destruct (isHeaderRow first) eqn:Eh; [|by apply Hgo, layout_minimal].
  destruct (mapColumns first) as [c'|] eqn:Em; [|by eexists]. destruct more as [|row more]; [by eexists|]. by apply Hgo, layout_header.
Qed.

(** ** Theorems *)

(** C23. Benchmark output.  [ParseRedisBench] returns on every input: results, one for
    each data row of the records in order, each with a finite throughput that is not
    negative and with the values of its columns; or an error that names the tool.
    And a table of quoted fields, with or without a header and with either line end,
    whose data rows are all well-formed gives exactly their results. *)
Theorem redisbench_parses (data : bytes) (rows : list (bool * list bytes)) (c : columns) (drows : list (list bytes)) (trs : list ThroughputResult) :
  (exists r, ParseRedisBench data = Ret r /\
     match r with
     | inl out => exists records c' drows', ReadAll data = Ret (inl records) /\ layout (nonEmptyRecords records) c' drows' /\
         Forall2 (row_means c') drows' out /\ out <> []
     | inr e => Tool e = B "redis-benchmark"
     end) /\
  (table_ok rows -> layout (nonEmptyRecords (snd <$> rows)) c drows -> Forall2 (row_means c) drows trs ->
   ParseRedisBench (quoted_table rows) = Ret (inl trs)).
Proof.
  split; [apply ParseRedisBench_cases|].
  - intros Hok Hl Hm. unfold ParseRedisBench. rewrite ReadAll_quoted by done. cbn [mbind outcome_bind].
    destruct (layout_col _ _ _ Hl) as [Hc Hne].
    destruct Hl as [header c' rows' Hh Hcols Hne'|first rows' Hh]; rewrite Hh.
    + rewrite Hcols. destruct rows'; [done|]. by rewrite (parse_rows_ok c' _ trs).
    + by rewrite (parse_rows_ok _ _ trs).
Qed.
End RedisBench.

(** ** Witness *)
Definition demo_table : list (bool * list bytes) :=
  [(true, [B "test"; B "rps"; B "avg_latency_ms"; B "p50_latency_ms"; B "p99_latency_ms"]);
   (true, [B "GET"; B "185874.25"; B "0.214"; B "0.25"; B "0.5"]); (false, [B "SET "; B " 1e5"; B "0"; B "x"; B "2"])].

Definition demo_rows : list ThroughputResult :=
  [MkThroughput (B "GET") (f64_div (f64_of 743497) (f64_of 4)) (f64_div (f64_of 1) (f64_of 4)) (f64_div (f64_of 1) (f64_of 2));
   MkThroughput (B "SET") (f64_of 100000) f64_zero (f64_of 2)].

Lemma redisbench_parses_witness : ParseRedisBench (fun b => b) (fun _ => []) (quoted_table demo_table) = Ret (inl demo_rows).
Proof.
  apply (redisbench_parses (fun b => b) (fun _ => []) [] demo_table (MkColumns 1 3 4)
    [[B "GET"; B "185874.25"; B "0.214"; B "0.25"; B "0.5"]; [B "SET "; B " 1e5"; B "0"; B "x"; B "2"]] demo_rows).
  - repeat (constructor; [split; [|discriminate]; repeat (constructor; [split; apply (bool_decide_unpack _); vm_compute; exact I|]); constructor|]).
    constructor.
  - apply layout_header; [vm_compute; reflexivity|vm_compute; reflexivity|discriminate].
  - repeat (constructor; [eexists _, _; split_and!; [reflexivity|vm_compute; reflexivity..]|]). constructor.
Defined.
