(* ===== verification/Json.v ===== *)
(** * JSON texts ([encoding/json])

    The grammar that [json.Unmarshal] checks and the values it decodes: a parser from
    bytes to values, with the nesting limit of the scanner.  A number keeps its text,
    which the decoder hands to [strconv.ParseFloat]. *)
From S2P Require Import Prelude Hash Resp Float Server Flags.

Inductive json : Type :=
| JNull
| JBool (b : bool)
| JNumber (text : bytes)
| JString (s : bytes)
| JArray (l : list json)
| JObject (l : list (bytes * json)).

(** ** Tokens *)
Definition is_space (c : byte) : bool := bool_decide (c ∈ [x20; x09; x0d; x0a]).

Fixpoint skip_space (s : bytes) : bytes :=
  match s with c :: s' => if is_space c then skip_space s' else s | [] => [] end.

Fixpoint span_digits (s : bytes) : bytes * bytes :=
  match s with
  | c :: s' => if is_digit c then let '(d, r) := span_digits s' in (c :: d, r) else ([], s)
  | [] => ([], [])
  end.

(** The digits before the point: a zero stands alone. *)
Definition int_part (s : bytes) : option (bytes * bytes) :=
  match s with
  | x30 :: s' => Some ([x30], s')
  | c :: _ => if is_digit c then Some (span_digits s) else None
  | [] => None
  end.

(** A point or an exponent sign must be followed by a digit. *)
Definition digits1 (s : bytes) : option (bytes * bytes) :=
  let '(d, r) := span_digits s in if bool_decide (d = []) then None else Some (d, r).

Definition frac_part (s : bytes) : option (bytes * bytes) :=
  match s with
  | x2e :: s' => r ← digits1 s'; let '(d, rest) := r in Some (x2e :: d, rest)
  | _ => Some ([], s)
  end.

Definition exp_part (s : bytes) : option (bytes * bytes) :=
  match s with
  | c :: s' =>
      if bool_decide (c ∈ [x65; x45]) then
        let '(sg, s2) := match s' with x2b :: s2 => ([x2b], s2) | x2d :: s2 => ([x2d], s2) | _ => ([], s') end in
        r ← digits1 s2; let '(d, rest) := r in Some (c :: sg ++ d, rest)
      else Some ([], s)
  | [] => Some ([], [])
  end.

Definition json_number (s : bytes) : option (bytes * bytes) :=
  let '(neg, s0) := match s with x2d :: s0 => ([x2d], s0) | _ => ([], s) end in
  i ← int_part s0; let '(i, s1) := i in
  f ← frac_part s1; let '(f, s2) := f in
  e ← exp_part s2; let '(e, s3) := e in
  Some (neg ++ i ++ f ++ e, s3).

(** *** Strings *)
Definition hex_value (c : byte) : option Z :=
  if is_digit c then Some (code c - 48)
  else if (97 <=? code c) && (code c <=? 102) then Some (code c - 87)
  else if (65 <=? code c) && (code c <=? 70) then Some (code c - 55)
  else None.

(** Four hexadecimal digits. *)
Definition hex4 (s : bytes) : option (Z * bytes) :=
  match s with
  | a :: b :: c :: d :: s' =>
      a ← hex_value a; b ← hex_value b; c ← hex_value c; d ← hex_value d;
      Some (((a * 16 + b) * 16 + c) * 16 + d, s')
  | _ => None
  end.

(** The encoding of a code point ([utf8.AppendRune]). *)
Definition utf8 (r : Z) : bytes :=
  let r := if (r <? 0) || (1114111 <? r) || ((55296 <=? r) && (r <=? 57343)) then 65533 else r in
  if r <? 128 then [byte_of r]
  else if r <? 2048 then [byte_of (192 + r / 64); byte_of (128 + r mod 64)]
  else if r <? 65536 then [byte_of (224 + r / 4096); byte_of (128 + r / 64 mod 64); byte_of (128 + r mod 64)]
  else [byte_of (240 + r / 262144); byte_of (128 + r / 4096 mod 64); byte_of (128 + r / 64 mod 64); byte_of (128 + r mod 64)].

(** The code point of an escape behind [\u]: a surrogate takes the second half of its
    pair, or is the replacement character. *)
Definition unicode_escape (s : bytes) : option (bytes * bytes) :=
  h ← hex4 s; let '(r, s1) := h in
  if (55296 <=? r) && (r <? 57344) then
    match s1 with
    | x5c :: x75 :: s2 =>
        match hex4 s2 with
        | Some (r2, s3) =>
            if (r <? 56320) && (56320 <=? r2) && (r2 <? 57344)
            then Some (utf8 ((r - 55296) * 1024 + (r2 - 56320) + 65536), s3)
            else Some (utf8 65533, s1)
        | None => Some (utf8 65533, s1)
        end
    | _ => Some (utf8 65533, s1)
    end
  else Some (utf8 r, s1).

Definition simple_escape (c : byte) : option byte :=
  match c with
  | x22 | x5c | x2f => Some c
  | x62 => Some x08
  | x66 => Some x0c
  | x6e => Some x0a
  | x72 => Some x0d
  | x74 => Some x09
  | _ => None
  end.

(** The characters behind an opening quote, up to the closing one.  Bytes of other
    scripts are kept; the names the decoder looks for are ASCII. *)
Fixpoint string_body (fuel : nat) (s : bytes) : option (bytes * bytes) :=
  match fuel with
  | O => None
  | S fuel =>
      match s with
      | [] => None
      | x22 :: s' => Some ([], s')
      | x5c :: x75 :: s' =>
          r ← unicode_escape s'; let '(u, s2) := r in
          t ← string_body fuel s2; let '(l, rest) := t in Some (u ++ l, rest)
      | x5c :: c :: s' =>
          x ← simple_escape c;
          t ← string_body fuel s'; let '(l, rest) := t in Some (x :: l, rest)
      | c :: s' =>
          if (code c <? 32) || bool_decide (c = x5c) then None
          else t ← string_body fuel s'; let '(l, rest) := t in Some (c :: l, rest)
      end
  end.

Definition json_string (s : bytes) : option (bytes * bytes) := string_body (S (length s)) s.

(** ** Values *)

(** The literals. *)
Definition literal (s : bytes) : option (json * bytes) :=
  match s with
  | x74 :: x72 :: x75 :: x65 :: s' => Some (JBool true, s')
  | x66 :: x61 :: x6c :: x73 :: x65 :: s' => Some (JBool false, s')
  | x6e :: x75 :: x6c :: x6c :: s' => Some (JNull, s')
  | _ => None
  end.

(** The scanner refuses more than 10000 open brackets. *)
Definition maxNestingDepth : nat := Z.to_nat 10000.

(** A value, the elements of an array behind its bracket, and the members of an object
    behind its brace; [depth] is the number of brackets that may still be opened. *)
Fixpoint parse_value (fuel depth : nat) (s : bytes) : option (json * bytes) :=
  match fuel with
  | O => None
  | S fuel =>
      match skip_space s with
      | [] => None
      | x7b :: s' =>
          match depth with
          | O => None
          | S depth =>
              match skip_space s' with
              | x7d :: rest => Some (JObject [], rest)
              | _ => r ← parse_members fuel depth s'; let '(l, rest) := r in Some (JObject l, rest)
              end
          end
      | x5b :: s' =>
          match depth with
          | O => None
          | S depth =>
              match skip_space s' with
              | x5d :: rest => Some (JArray [], rest)
              | _ => r ← parse_elements fuel depth s'; let '(l, rest) := r in Some (JArray l, rest)
              end
          end
      | x22 :: s' => r ← json_string s'; let '(x, rest) := r in Some (JString x, rest)
      | c :: s' =>
          if bool_decide (c = x2d) || is_digit c
          then r ← json_number (c :: s'); let '(x, rest) := r in Some (JNumber x, rest)
          else literal (c :: s')
      end
  end
with parse_elements (fuel depth : nat) (s : bytes) : option (list json * bytes) :=
  match fuel with
  | O => None
  | S fuel =>
      r ← parse_value fuel depth s; let '(v, s1) := r in
      match skip_space s1 with
      | x2c :: s2 => t ← parse_elements fuel depth s2; let '(l, rest) := t in Some (v :: l, rest)
      | x5d :: rest => Some ([v], rest)
      | _ => None
      end
  end
with parse_members (fuel depth : nat) (s : bytes) : option (list (bytes * json) * bytes) :=
  match fuel with
  | O => None
  | S fuel =>
      match skip_space s with
      | x22 :: s0 =>
          k ← json_string s0; let '(k, s1) := k in
          match skip_space s1 with
          | x3a :: s2 =>
              r ← parse_value fuel depth s2; let '(v, s3) := r in
              match skip_space s3 with
              | x2c :: s4 => t ← parse_members fuel depth s4; let '(l, rest) := t in Some ((k, v) :: l, rest)
              | x7d :: rest => Some ([(k, v)], rest)
              | _ => None
              end
          | _ => None
          end
      | _ => None
      end
  end.

(** A whole document: one value and white space.  Twice its length in calls is enough,
    since a value takes a byte and is at most one call below another. *)
Definition parse_json (s : bytes) : option json :=
  r ← parse_value (2 * length s + 2) maxNestingDepth s;
  let '(v, rest) := r in
  if bool_decide (skip_space rest = []) then Some v else None.
