(* ===== verification/JsonSpec.v ===== *)
(** * JSON texts: the grammar and the parser

    A declarative grammar of documents, with free white space between tokens, that the
    parser accepts with the values the grammar gives; and that the fuel of the parser
    is enough on every input. *)
From S2P Require Import Prelude Hash Resp Float Server Flags Json.

(** ** Tokens *)

(** The characters that stand for themselves in a string. *)
Definition plain_char (c : byte) : bool :=
  negb ((code c <? 32) || bool_decide (c = x22) || bool_decide (c = x5c)).

(** What may stand behind a number. *)
Definition number_ends (rest : bytes) : bool :=
  match rest with
  | c :: _ => negb (is_digit c || bool_decide (c ∈ [x2e; x65; x45]))
  | [] => true
  end.

(** ** The grammar *)

(** [value_text d v s]: [s] is a text of [v] with at most [d] nested brackets, behind
    white space; the texts of elements and members reach to the closing bracket. *)
Inductive value_text : nat -> json -> bytes -> Prop :=
| text_null d w : forallb is_space w = true -> value_text d JNull (w ++ B "null")
| text_bool d w b : forallb is_space w = true -> value_text d (JBool b) (w ++ if b then B "true" else B "false")
| text_number d w t : forallb is_space w = true -> json_number t = Some (t, []) -> value_text d (JNumber t) (w ++ t)
| text_string d w t : forallb is_space w = true -> forallb plain_char t = true ->
    value_text d (JString t) (w ++ x22 :: t ++ [x22])
| text_array_nil d w w1 : forallb is_space w = true -> forallb is_space w1 = true ->
    value_text (S d) (JArray []) (w ++ x5b :: w1 ++ [x5d])
| text_array d w l s : forallb is_space w = true -> elements_text d l s ->
    value_text (S d) (JArray l) (w ++ x5b :: s)
| text_object_nil d w w1 : forallb is_space w = true -> forallb is_space w1 = true ->
    value_text (S d) (JObject []) (w ++ x7b :: w1 ++ [x7d])
| text_object d w l s : forallb is_space w = true -> members_text d l s ->
    value_text (S d) (JObject l) (w ++ x7b :: s)
with elements_text : nat -> list json -> bytes -> Prop :=
| text_last d v s w : value_text d v s -> forallb is_space w = true -> elements_text d [v] (s ++ w ++ [x5d])
| text_more d v s w l r : value_text d v s -> forallb is_space w = true -> elements_text d l r ->
    elements_text d (v :: l) (s ++ w ++ x2c :: r)
with members_text : nat -> list (bytes * json) -> bytes -> Prop :=
| text_last_member d w k w1 v s w2 : forallb is_space w = true -> forallb plain_char k = true ->
    forallb is_space w1 = true -> value_text d v s -> forallb is_space w2 = true ->
    members_text d [(k, v)] (w ++ x22 :: k ++ x22 :: w1 ++ x3a :: s ++ w2 ++ [x7d])
| text_more_members d w k w1 v s w2 l r : forallb is_space w = true -> forallb plain_char k = true ->
    forallb is_space w1 = true -> value_text d v s -> forallb is_space w2 = true -> members_text d l r ->
    members_text d ((k, v) :: l) (w ++ x22 :: k ++ x22 :: w1 ++ x3a :: s ++ w2 ++ x2c :: r).

Scheme value_text_mut := Minimality for value_text Sort Prop
with elements_text_mut := Minimality for elements_text Sort Prop
with members_text_mut := Minimality for members_text Sort Prop.

Combined Scheme text_mutind from value_text_mut, elements_text_mut, members_text_mut.

(** ** Tokens are read back *)
Lemma skip_spaces w s : forallb is_space w = true -> skip_space (w ++ s) = skip_space s.
Proof. induction w as [|c w IH]; cbn; [done|]. intros [-> Hw]%andb_prop. by apply IH. Qed.

Lemma skip_all w : forallb is_space w = true -> skip_space w = [].
Proof. intros Hw. rewrite <- (app_nil_r w), skip_spaces by done. done. Qed.

Lemma plain_body t rest : forall fuel, (length t < fuel)%nat -> forallb plain_char t = true ->
  string_body fuel (t ++ x22 :: rest) = Some (t, rest).
Proof.
  induction t as [|c t IH]; intros [|fuel] Hf Hp; try (cbn in Hf; lia); [done|].
  cbn [forallb] in Hp. apply andb_prop in Hp as [Hc Hp]. cbn [length] in Hf. specialize (IH fuel ltac:(lia) Hp).
  revert Hc. cbn [app]. destruct c; try discriminate; intros _; cbn [string_body]; rewrite IH; done.
Qed.

Lemma plain_string t rest : forallb plain_char t = true -> json_string (t ++ x22 :: rest) = Some (t, rest).
Proof. intros. apply plain_body; [rewrite length_app; cbn; lia|done]. Qed.

(** What follows a number does not change how it is read. *)
Lemma span_digits_app rest s : number_ends rest = true -> forall d r, span_digits s = (d, r) -> span_digits (s ++ rest) = (d, r ++ rest).
Proof.
  intros Hr. induction s as [|c s IH]; cbn; intros d r E.
  - simplify_eq. destruct rest as [|c rest]; [done|]. cbn in *. apply negb_true_iff, orb_false_iff in Hr as [-> _]. done.
  - destruct (is_digit c); [|by simplify_eq]. destruct (span_digits s) as [d' r'] eqn:Es. rewrite (IH d' r') by done. by simplify_eq.
Qed.

Lemma int_part_app rest s d r : number_ends rest = true -> int_part s = Some (d, r) -> int_part (s ++ rest) = Some (d, r ++ rest).
Proof.
  intros Hr E. destruct s as [|c s]; [done|]. pose proof (span_digits_app rest (c :: s) Hr) as Hs.
  unfold int_part in *. cbn [app] in *.
  destruct c; try discriminate E; simpl (is_digit _) in *; cbv iota in *; try (apply (f_equal (fun o => default ([], []) o)) in E; cbn [default] in E); try (by simplify_eq); f_equal; by apply Hs.
Qed.

Lemma digits1_app rest s d r : number_ends rest = true -> digits1 s = Some (d, r) -> digits1 (s ++ rest) = Some (d, r ++ rest).
Proof.
  intros Hr. unfold digits1. destruct (span_digits s) as [d' r'] eqn:Es. rewrite (span_digits_app rest s Hr d' r') by done.
  case_bool_decide; intros; by simplify_eq.
Qed.

Lemma frac_part_app rest s d r : number_ends rest = true -> frac_part s = Some (d, r) -> frac_part (s ++ rest) = Some (d, r ++ rest).
Proof.
  intros Hr E. destruct s as [|c s].
  - unfold frac_part in E. simplify_eq. cbn [app]. destruct rest as [|c rest]; [done|]. destruct c; done.
  - cbn [app]. destruct c; unfold frac_part in *; try (by simplify_eq). apply bind_Some in E as ([d' r'] & E & ?). simplify_eq.
    rewrite (digits1_app rest s d' r) by done. done.
Qed.

Lemma exp_part_app rest s d r : number_ends rest = true -> exp_part s = Some (d, r) -> exp_part (s ++ rest) = Some (d, r ++ rest).
Proof.
  intros Hr E. destruct s as [|c s].
  - unfold exp_part in E. simplify_eq. cbn [app]. destruct rest as [|c rest]; [done|]. cbn in Hr.
    apply negb_true_iff, orb_false_iff in Hr as [_ Hr]. unfold exp_part.
    rewrite bool_decide_false by (apply bool_decide_eq_false in Hr; set_solver). done.
  - unfold exp_part in *. cbn [app]. case_bool_decide; [|by simplify_eq].
    destruct s as [|c' s]; [done|]. cbn [app].
    assert (forall sg s2, (match c' with x2b => ([x2b], s) | x2d => ([x2d], s) | _ => ([], c' :: s) end) = (sg, s2) ->
      (match c' with x2b => ([x2b], s ++ rest) | x2d => ([x2d], s ++ rest) | _ => ([], c' :: s ++ rest) end) = (sg, s2 ++ rest)) as Hsg.
    { intros sg s2. destruct c'; intros; by simplify_eq. }
    destruct (match c' with x2b => ([x2b], s) | x2d => ([x2d], s) | _ => ([], c' :: s) end) as [sg s2] eqn:Esg.
    rewrite (Hsg sg s2) by done. apply bind_Some in E as ([d' r'] & E & ?). simplify_eq.
    rewrite (digits1_app rest s2 d' r) by done. done.
Qed.

Lemma json_number_app rest s t r : number_ends rest = true -> json_number s = Some (t, r) -> json_number (s ++ rest) = Some (t, r ++ rest).
Proof.
  intros Hr E. unfold json_number in *. destruct s as [|c s]; [done|]. cbn [app].
  assert (forall ng s0, (match c with x2d => ([x2d], s) | _ => ([], c :: s) end) = (ng, s0) ->
    (match c with x2d => ([x2d], s ++ rest) | _ => ([], c :: s ++ rest) end) = (ng, s0 ++ rest)) as Hng.
  { intros ng s0. destruct c; intros; by simplify_eq. }
  destruct (match c with x2d => ([x2d], s) | _ => ([], c :: s) end) as [ng s0]. rewrite (Hng ng s0) by done.
  apply bind_Some in E as ([i s1] & Ei & E). apply bind_Some in E as ([f s2] & Ef & E). apply bind_Some in E as ([e s3] & Ee & E).
  rewrite (int_part_app rest s0 i s1) by done. cbn [mbind option_bind]. rewrite (frac_part_app rest s1 f s2) by done.
  cbn [mbind option_bind]. rewrite (exp_part_app rest s2 e s3) by done. cbn. by simplify_eq.
Qed.

(** The first byte of a number. *)
Lemma json_number_head t r : json_number t = Some (t, r) -> exists c t', t = c :: t' /\ bool_decide (c = x2d) || is_digit c = true.
Proof.
  destruct t as [|c t]; [done|]. intros E. exists c, t. split; [done|]. unfold json_number in E. destruct c; try done; unfold int_part in E; cbn in E; done.
Qed.

(** ** Texts are parsed to their values *)
Lemma ends_spaces w c rest : forallb is_space w = true -> number_ends (c :: rest) = true -> number_ends (w ++ c :: rest) = true.
Proof.
  destruct w as [|b w]; [done|]. cbn [forallb app number_ends]. intros [Hb _]%andb_prop _. unfold is_space in Hb.
  apply bool_decide_eq_true in Hb. repeat (apply elem_of_cons in Hb as [->|Hb]; [done|]). by apply elem_of_nil in Hb.
Qed.

Lemma skip_to w c s : forallb is_space w = true -> is_space c = false -> skip_space (w ++ c :: s) = c :: s.
Proof. intros Hw Hc. rewrite skip_spaces by done. cbn. by rewrite Hc. Qed.

Lemma number_not_space c : bool_decide (c = x2d) || is_digit c = true -> is_space c = false.
Proof. by destruct c. Qed.

Lemma value_text_head d v s : value_text d v s -> forall rest, exists c s', skip_space (s ++ rest) = c :: s' /\ c <> x5d.
Proof.
  intros Hv rest. destruct Hv as [? w Hw|? w b Hw|? w t Hw Ht|? w t Hw _|? w w1 Hw _|? w l s Hw _|? w w1 Hw _|? w l s Hw _]; rewrite <- app_assoc.
  3:{ destruct (json_number_head _ _ Ht) as (c & t' & -> & Hc). cbn [app]. rewrite skip_to by (done || by apply number_not_space).
      eexists _, _. split; [done|]. by intros ->. }
  2: destruct b.
  all: cbn [app]; rewrite ?skip_to by done; rewrite ?skip_spaces by done; eexists _, _; split; [reflexivity|done].
Qed.

Lemma elements_text_head d l s : elements_text d l s -> forall rest, exists c s', skip_space (s ++ rest) = c :: s' /\ c <> x5d.
Proof. intros [? v s' w Hv _|? v s' w l' r Hv _ _] rest; rewrite <- app_assoc; by apply (value_text_head _ _ _ Hv). Qed.

Lemma members_text_head d l s : members_text d l s -> forall rest, exists s', skip_space (s ++ rest) = x22 :: s'.
Proof.
  intros [? w k w1 v s' w2 Hw|? w k w1 v s' w2 l' r Hw] rest; rewrite <- app_assoc; cbn [app]; rewrite skip_to by done; by eexists.
Qed.

Lemma parse_number_value fuel d s c s' : skip_space s = c :: s' -> bool_decide (c = x2d) || is_digit c = true ->
  parse_value (S fuel) d s = (r ← json_number (c :: s'); let '(x, rest) := r in Some (JNumber x, rest)).
Proof. intros E Hc. cbn [parse_value]. rewrite E, Hc. by destruct c. Qed.

Lemma parse_array_value fuel d s s' c s'' : skip_space s = x5b :: s' -> skip_space s' = c :: s'' -> c <> x5d ->
  parse_value (S fuel) (S d) s = (r ← parse_elements fuel d s'; let '(l, rest) := r in Some (JArray l, rest)).
Proof. intros E E' Hc. cbn [parse_value]. rewrite E, E'. by destruct c. Qed.

(** A member of an object: what the parser does behind its value. *)
Lemma parse_member fuel d w k w1 s : forallb is_space w = true -> forallb plain_char k = true -> forallb is_space w1 = true ->
  parse_members (S fuel) d (w ++ x22 :: k ++ x22 :: w1 ++ x3a :: s) =
  (r ← parse_value fuel d s; let '(v, s3) := r in
   match skip_space s3 with
   | x2c :: s4 => t ← parse_members fuel d s4; let '(l, rest) := t in Some ((k, v) :: l, rest)
   | x7d :: rest => Some ([(k, v)], rest)
   | _ => None
   end).
Proof. intros Hw Hk Hw1. cbn [parse_members]. rewrite skip_to by done. cbn iota. rewrite plain_string by done. cbn [mbind option_bind]. by rewrite skip_to by done. Qed.

Lemma text_parses :
  (forall d v s, value_text d v s -> forall fuel rest, (length s <= fuel)%nat -> number_ends rest = true -> parse_value fuel d (s ++ rest) = Some (v, rest)) /\
  (forall d l s, elements_text d l s -> forall fuel rest, (length s <= fuel)%nat -> parse_elements fuel d (s ++ rest) = Some (l, rest)) /\
  (forall d l s, members_text d l s -> forall fuel rest, (length s <= fuel)%nat -> parse_members fuel d (s ++ rest) = Some (l, rest)).
Proof.
  apply text_mutind.
  - intros d w Hw [|fuel] rest Hf _; [rewrite length_app in Hf; cbn in Hf; lia|]. rewrite <- app_assoc. cbn [parse_value]. rewrite skip_spaces by done. done.
  - intros d w b Hw [|fuel] rest Hf _; [rewrite length_app in Hf; destruct b; cbn in Hf; lia|]. rewrite <- app_assoc. cbn [parse_value].
    rewrite skip_spaces by done. by destruct b.
  - intros d w t Hw Ht fuel rest Hf Hr. destruct (json_number_head _ _ Ht) as (c & t' & -> & Hc).
    destruct fuel as [|fuel]; [rewrite length_app in Hf; cbn in Hf; lia|]. rewrite <- app_assoc. cbn [app].
    rewrite (parse_number_value fuel d _ c (t' ++ rest)); [|apply skip_to; [done|by apply number_not_space]|done].
    change (c :: t' ++ rest) with ((c :: t') ++ rest). rewrite (json_number_app rest _ _ [] Hr Ht). done.
  - intros d w t Hw Ht [|fuel] rest Hf _; [rewrite length_app in Hf; cbn in Hf; lia|]. rewrite <- app_assoc. cbn [parse_value app].
    rewrite skip_to by done. cbn iota. rewrite <- app_assoc. cbn [app]. by rewrite plain_string by done.
  - intros d w w1 Hw Hw1 [|fuel] rest Hf _; [rewrite length_app in Hf; cbn in Hf; lia|]. rewrite <- app_assoc. cbn [parse_value app].
    rewrite skip_to by done. cbn iota. rewrite <- app_assoc. cbn [app]. by rewrite skip_to by done.
  - intros d w l s Hw Hl IH [|fuel] rest Hf _; rewrite length_app in Hf; cbn [length] in Hf; [lia|]. rewrite <- app_assoc. cbn [app].
    destruct (elements_text_head _ _ _ Hl rest) as (c & s'' & Es & Hc).
    rewrite (parse_array_value fuel d _ (s ++ rest) c s'') by (done || by apply skip_to). rewrite IH by lia. done.
  - intros d w w1 Hw Hw1 [|fuel] rest Hf _; [rewrite length_app in Hf; cbn in Hf; lia|]. rewrite <- app_assoc. cbn [parse_value app].
    rewrite skip_to by done. cbn iota. rewrite <- app_assoc. cbn [app]. by rewrite skip_to by done.
  - intros d w l s Hw Hl IH [|fuel] rest Hf _; rewrite length_app in Hf; cbn [length] in Hf; [lia|]. rewrite <- app_assoc. cbn [app parse_value].
    rewrite skip_to by done. cbn iota. destruct (members_text_head _ _ _ Hl rest) as (s'' & ->). rewrite IH by lia. done.
  - intros d v s w Hv IH Hw [|fuel] rest Hf; rewrite !length_app in Hf; cbn [length] in Hf; [lia|]. rewrite <- !app_assoc. cbn [parse_elements app].
    rewrite IH by (lia || by apply ends_spaces). cbn [mbind option_bind]. by rewrite skip_to by done.
  - intros d v s w l r Hv IH Hw Hl IHl [|fuel] rest Hf; rewrite !length_app in Hf; cbn [length] in Hf; [lia|]. rewrite <- !app_assoc. cbn [parse_elements app].
    rewrite IH by (lia || by apply ends_spaces). cbn [mbind option_bind]. rewrite skip_to by done. cbn iota. rewrite IHl by lia. done.
  - intros d w k w1 v s w2 Hw Hk Hw1 Hv IH Hw2 [|fuel] rest Hf; repeat (rewrite ?length_app in Hf; cbn [length] in Hf); [lia|].
    repeat (rewrite <- ?app_assoc; cbn [app]). rewrite parse_member by done. rewrite IH by (lia || by apply ends_spaces).
    cbn [mbind option_bind]. by rewrite skip_to by done.
  - intros d w k w1 v s w2 l r Hw Hk Hw1 Hv IH Hw2 Hl IHl [|fuel] rest Hf; repeat (rewrite ?length_app in Hf; cbn [length] in Hf); [lia|].
    repeat (rewrite <- ?app_assoc; cbn [app]). rewrite parse_member by done. rewrite IH by (lia || by apply ends_spaces).
    cbn [mbind option_bind]. rewrite skip_to by done. cbn iota. rewrite IHl by lia. done.
Qed.

(** A document: a text and white space. *)
Lemma parse_text v s w : value_text maxNestingDepth v s -> forallb is_space w = true -> parse_json (s ++ w) = Some v.
Proof.
  intros Hv Hw. unfold parse_json.
  assert (number_ends w = true) as Hn.
  { destruct w as [|c w]; [done|]. cbn in Hw. apply andb_prop in Hw as [Hc _]. by destruct c. }
  rewrite (proj1 text_parses _ _ _ Hv) by (done || (rewrite length_app; lia)). cbn [mbind option_bind].
  by rewrite bool_decide_true by (by apply skip_all).
Qed.

(** ** The fuel is enough *)
Lemma skip_space_length s : (length (skip_space s) <= length s)%nat.
Proof. induction s as [|c s IH]; cbn; [done|]. destruct (is_space c); cbn; lia. Qed.

Lemma span_digits_split s : forall d r, span_digits s = (d, r) -> s = d ++ r.
Proof.
  induction s as [|c s IH]; cbn; intros d r E; [by simplify_eq|]. destruct (is_digit c); [|by simplify_eq].
  destruct (span_digits s) as [d' r']. simplify_eq. cbn. f_equal. by apply IH.
Qed.

Lemma int_part_split s d r : int_part s = Some (d, r) -> s = d ++ r /\ d <> [].
Proof.
  destruct s as [|c s]; [done|]. pose proof (span_digits_split (c :: s)) as Hs. pose proof (fun d r => span_digits_split s d r) as Hs'.
  unfold int_part. destruct c; try discriminate; intros E; cbn in E; try (by simplify_eq);
    destruct (span_digits s) as [d' r'] eqn:Es; injection E as <- <-; (split; [cbn; f_equal; by apply Hs'|done]).
Qed.

Lemma digits1_split s d r : digits1 s = Some (d, r) -> s = d ++ r.
Proof. unfold digits1. destruct (span_digits s) as [d' r'] eqn:E. apply span_digits_split in E. case_bool_decide; intros; by simplify_eq. Qed.

Lemma frac_part_length s d r : frac_part s = Some (d, r) -> (length r <= length s)%nat.
Proof.
  destruct s as [|c s]; [by intros [= <- <-]|]. unfold frac_part.
  destruct c; try (intros [= <- <-]; done). intros ([d' r'] & ->%digits1_split & [= <- <-])%bind_Some. cbn. rewrite length_app. lia.
Qed.

Lemma exp_part_length s d r : exp_part s = Some (d, r) -> (length r <= length s)%nat.
Proof.
  destruct s as [|c s]; [by intros [= <- <-]|]. unfold exp_part. case_bool_decide; [|by intros [= <- <-]].
  assert (forall sg s2, (match s with x2b :: s2 => ([x2b], s2) | x2d :: s2 => ([x2d], s2) | _ => ([], s) end) = (sg, s2) -> (length s2 <= length s)%nat) as Hsg.
  { destruct s as [|c' s]; [by intros ? ? [= <- <-]|]. destruct c'; intros ? ? [= <- <-]; cbn; lia. }
  destruct (match s with x2b :: s2 => ([x2b], s2) | x2d :: s2 => ([x2d], s2) | _ => ([], s) end) as [sg s2]. specialize (Hsg sg s2 eq_refl).
  intros ([d' r'] & ->%digits1_split & [= <- <-])%bind_Some. rewrite length_app in Hsg. cbn. lia.
Qed.

Lemma json_number_length s t r : json_number s = Some (t, r) -> (length r < length s)%nat.
Proof.
  unfold json_number. intros E.
  assert (forall ng s0, (match s with x2d :: s0 => ([x2d], s0) | _ => ([], s) end) = (ng, s0) -> (length s0 <= length s)%nat) as Hng.
  { destruct s as [|c' s]; [by intros ? ? [= <- <-]|]. destruct c'; intros ? ? [= <- <-]; cbn; lia. }
  destruct (match s with x2d :: s0 => ([x2d], s0) | _ => ([], s) end) as [ng s0]. specialize (Hng ng s0 eq_refl).
  apply bind_Some in E as ([i s1] & [-> Hi]%int_part_split & E). apply bind_Some in E as ([f s2] & Ef%frac_part_length & E).
  apply bind_Some in E as ([e s3] & Ee%exp_part_length & [= <- <-]). rewrite length_app in Hng. destruct i; [done|]. cbn in Hng. lia.
Qed.

Lemma hex4_length s r s' : hex4 s = Some (r, s') -> (length s' < length s)%nat.
Proof.
  unfold hex4. repeat (case_match; [done|]; subst). intros E. repeat (apply bind_Some in E as (? & _ & E)). simplify_eq. cbn. lia.
Qed.

Lemma unicode_escape_length s u s' : unicode_escape s = Some (u, s') -> (length s' < length s)%nat.
Proof.
  unfold unicode_escape. intros ([r s1] & Hr%hex4_length & E)%bind_Some. cbv beta iota in E.
  destruct ((55296 <=? r) && (r <? 57344)); [|by simplify_eq].
  assert (Some (utf8 65533, s1) = Some (u, s') -> (length s' < length s)%nat) as Hd by (by intros [= <- <-]).
  destruct s1 as [|a [|b s2]]; [by apply Hd|destruct a; by apply Hd|].
  destruct a; try (by apply Hd). destruct b; try (by apply Hd).
  destruct (hex4 s2) as [[r2 s3]|] eqn:E2; [|by apply Hd]. apply hex4_length in E2.
  case_match; [|by apply Hd]. simplify_eq. cbn in Hr. lia.
Qed.

Lemma string_body_length fuel : forall s t r, string_body fuel s = Some (t, r) -> (length r < length s)%nat.
Proof.
  induction fuel as [|fuel IH]; intros s t r E; [done|]. destruct s as [|c s]; [done|].
  assert (forall s0 (f : bytes -> bytes), (length s0 <= length s)%nat -> (t ← string_body fuel s0; let '(l, rest) := t in Some (f l, rest)) = Some (t, r) -> (length r < length (c :: s))%nat) as Hgo.
  { intros s0 f Hs (p & Hp & Ep)%bind_Some. destruct p as [l rest]. apply IH in Hp. simplify_eq. cbn. lia. }
  cbn [string_body] in E. destruct c; try (by apply Hgo in E); try (by simplify_eq; cbn; lia).
  destruct s as [|c' s]; [done|].
  destruct c'; try (apply bind_Some in E as (? & Ex & E); by apply Hgo in E; [|cbn; lia]).
  apply bind_Some in E as ([u s2] & Eu%unicode_escape_length & E). apply Hgo in E; [done|cbn; lia].
Qed.

Lemma literal_length s v r : literal s = Some (v, r) -> (length r < length s)%nat.
Proof.
  unfold literal. intros E. repeat (case_match; subst; try discriminate E; try (injection E as <- <-; cbn; lia)).
Qed.

(** Every parser takes at least a byte. *)
Lemma parse_length fuel :
  (forall d s v r, parse_value fuel d s = Some (v, r) -> (length r < length s)%nat) /\
  (forall d s l r, parse_elements fuel d s = Some (l, r) -> (length r < length s)%nat) /\
  (forall d s l r, parse_members fuel d s = Some (l, r) -> (length r < length s)%nat).
Proof.
  induction fuel as [|fuel (IHv & IHe & IHm)]; [done|]. split_and!.
  - intros d s v r E. cbn [parse_value] in E. pose proof (skip_space_length s) as Hs. destruct (skip_space s) as [|c s']; [done|]. cbn in Hs.
    pose proof (skip_space_length s') as Hs'.
    destruct (bool_decide (c = x2d) || is_digit c) eqn:Ec.
    { assert ((r' ← json_number (c :: s'); let '(x, rest) := r' in Some (JNumber x, rest)) = Some (v, r)) as E' by (by destruct c).
      apply bind_Some in E' as ([x rest] & Hx%json_number_length & [= <- <-]). cbn in Hx. lia. }
    destruct c; try discriminate E; try discriminate Ec; try (apply literal_length in E; cbn in E; lia).
    + apply bind_Some in E as ([x rest] & Hx%string_body_length & [= <- <-]). lia.
    + destruct d as [|d]; [done|].
      assert (forall l rest, parse_elements fuel d s' = Some (l, rest) -> (length rest < length s)%nat) as Hgo.
      { intros l rest Hl%IHe. lia. }
      destruct (skip_space s') as [|c' s'']; [by apply bind_Some in E as ([l rest] & Hl & [= <- <-]); apply (Hgo l)|].
      cbn in Hs'. destruct c'; try (by apply bind_Some in E as ([l rest] & Hl & [= <- <-]); apply (Hgo l)). simplify_eq. lia.
    + destruct d as [|d]; [done|].
      assert (forall l rest, parse_members fuel d s' = Some (l, rest) -> (length rest < length s)%nat) as Hgo.
      { intros l rest Hl%IHm. lia. }
      destruct (skip_space s') as [|c' s'']; [by apply bind_Some in E as ([l rest] & Hl & [= <- <-]); apply (Hgo l)|].
      cbn in Hs'. destruct c'; try (by apply bind_Some in E as ([l rest] & Hl & [= <- <-]); apply (Hgo l)). simplify_eq. lia.
  - intros d s l r E. cbn [parse_elements] in E. apply bind_Some in E as ([v s1] & Hv%IHv & E).
    pose proof (skip_space_length s1) as Hs1. destruct (skip_space s1) as [|c s2]; [done|]. cbn in Hs1.
    destruct c; try discriminate E; [|simplify_eq; lia]. apply bind_Some in E as ([l' rest] & Hl%IHe & [= <- <-]). lia.
  - intros d s l r E. cbn [parse_members] in E. pose proof (skip_space_length s) as Hs. destruct (skip_space s) as [|c s0]; [done|]. cbn in Hs.
    destruct c; try discriminate E. apply bind_Some in E as ([k s1] & Hk%string_body_length & E).
    pose proof (skip_space_length s1) as Hs1. destruct (skip_space s1) as [|c s2]; [done|]. cbn in Hs1.
    destruct c; try discriminate E. apply bind_Some in E as ([v s3] & Hv%IHv & E).
    pose proof (skip_space_length s3) as Hs3. destruct (skip_space s3) as [|c s4]; [done|]. cbn in Hs3.
    destruct c; try discriminate E; [|simplify_eq; lia]. apply bind_Some in E as ([l' rest] & Hl%IHm & [= <- <-]). lia.
Qed.

(** More fuel than twice the length changes nothing. *)
Lemma parse_fuel f1 : forall f2,
  (forall d s, (2 * length s < f1)%nat -> (2 * length s < f2)%nat -> parse_value f1 d s = parse_value f2 d s) /\
  (forall d s, (2 * length s + 1 < f1)%nat -> (2 * length s + 1 < f2)%nat -> parse_elements f1 d s = parse_elements f2 d s) /\
  (forall d s, (2 * length s + 1 < f1)%nat -> (2 * length s + 1 < f2)%nat -> parse_members f1 d s = parse_members f2 d s).
Proof.
  induction f1 as [|f1 IH]; intros [|f2]; (split_and!; intros d s H1 H2; try lia); destruct (IH f2) as (IHv & IHe & IHm).
  - cbn [parse_value]. pose proof (skip_space_length s) as Hs. destruct (skip_space s) as [|c s']; [done|]. cbn in Hs.
    destruct c; try done; destruct d as [|d]; try done; rewrite ?IHe, ?IHm by lia; done.
  - cbn [parse_elements]. rewrite IHv by lia. destruct (parse_value f2 d s) as [[v s1]|] eqn:E; [|done]. cbn [mbind option_bind].
    apply (parse_length f2) in E. pose proof (skip_space_length s1) as Hs1. destruct (skip_space s1) as [|c s2]; [done|]. cbn in Hs1.
    destruct c; try done. rewrite IHe by lia. done.
  - cbn [parse_members]. pose proof (skip_space_length s) as Hs. destruct (skip_space s) as [|c s0]; [done|]. cbn in Hs.
    destruct c; try done. destruct (json_string s0) as [[k s1]|] eqn:Ek; [|done]. cbn [mbind option_bind]. apply string_body_length in Ek.
    pose proof (skip_space_length s1) as Hs1. destruct (skip_space s1) as [|c s2]; [done|]. cbn in Hs1.
    destruct c; try done. rewrite IHv by lia. destruct (parse_value f2 d s2) as [[v s3]|] eqn:E; [|done]. cbn [mbind option_bind].
    apply (parse_length f2) in E. pose proof (skip_space_length s3) as Hs3. destruct (skip_space s3) as [|c s4]; [done|]. cbn in Hs3.
    destruct c; try done. rewrite IHm by lia. done.
Qed.

(** ** Printed documents *)

(** Texts with commas between them and a closing bracket. *)
Fixpoint sealed (close : byte) (texts : list bytes) : bytes :=
  match texts with
  | [] => [close]
  | [t] => t ++ [close]
  | t :: texts => t ++ x2c :: sealed close texts
  end.

Fixpoint print_json (v : json) : bytes :=
  match v with
  | JNull => B "null"
  | JBool b => if b then B "true" else B "false"
  | JNumber t => t
  | JString t => x22 :: t ++ [x22]
  | JArray l => x5b :: sealed x5d (map print_json l)
  | JObject l => x7b :: sealed x7d (map (fun m : bytes * json => x22 :: m.1 ++ x22 :: x3a :: print_json m.2) l)
  end.

(** Numbers by the grammar, strings without characters to escape, and at most [d]
    nested brackets. *)
Fixpoint printable (d : nat) (v : json) {struct v} : bool :=
  match v with
  | JNull | JBool _ => true
  | JNumber t => bool_decide (json_number t = Some (t, []))
  | JString t => forallb plain_char t
  | JArray l => match d with O => false | S d => forallb (printable d) l end
  | JObject l => match d with O => false | S d => forallb (fun m : bytes * json => forallb plain_char m.1 && printable d m.2) l end
  end.

Fixpoint json_size (v : json) : nat :=
  match v with
  | JArray l => S (sum_list (map json_size l))
  | JObject l => S (sum_list (map (fun m : bytes * json => S (json_size m.2)) l))
  | _ => 1
  end.

Lemma sealed_elements d l : l <> [] -> (forall v, v ∈ l -> value_text d v (print_json v)) -> elements_text d l (sealed x5d (map print_json l)).
Proof.
  induction l as [|v l IH]; intros Hne Hl; [done|]. destruct l as [|v' l].
  - exact (text_last d v (print_json v) [] (Hl v ltac:(by left)) eq_refl).
  - exact (text_more d v (print_json v) [] _ _ (Hl v ltac:(by left)) eq_refl (IH ltac:(done) ltac:(intros u Hu; apply Hl; by right))).
Qed.

Lemma sealed_members d l : l <> [] -> (forall k v, (k, v) ∈ l -> forallb plain_char k = true /\ value_text d v (print_json v)) ->
  members_text d l (sealed x7d (map (fun m : bytes * json => x22 :: m.1 ++ x22 :: x3a :: print_json m.2) l)).
Proof.
  induction l as [|[k v] l IH]; intros Hne Hl; [done|]. destruct (Hl k v ltac:(by left)) as [Hk Hv]. destruct l as [|[k' v'] l].
  - pose proof (text_last_member d [] k [] v (print_json v) [] eq_refl Hk eq_refl Hv eq_refl) as H. cbn in *.
    by rewrite <- app_assoc.
  - pose proof (text_more_members d [] k [] v (print_json v) [] _ _ eq_refl Hk eq_refl Hv eq_refl (IH ltac:(done) ltac:(intros u u' Hu; apply Hl; by right))) as H.
    cbn in *. by rewrite <- app_assoc.
Qed.

Lemma sum_list_elem n l : n ∈ l -> (n <= sum_list l)%nat.
Proof. induction l as [|m l IH]; [by intros ?%elem_of_nil|]. intros [->|H]%elem_of_cons; cbn; [lia|]. apply IH in H. lia. Qed.

Lemma printed_text n : forall v d, (json_size v <= n)%nat -> printable d v = true -> value_text d v (print_json v).
Proof.
  induction n as [|n IH]; intros v d Hn Hp; [destruct v; cbn in Hn; lia|]. destruct v as [|b|t|t|l|l]; cbn [json_size print_json] in *.
  - exact (text_null d [] eq_refl).
  - exact (text_bool d [] b eq_refl).
  - cbn in Hp. apply bool_decide_eq_true in Hp. exact (text_number d [] t eq_refl Hp).
  - exact (text_string d [] t eq_refl Hp).
  - destruct d as [|d]; [done|]. cbn in Hp. destruct (decide (l = [])) as [->|Hl]; [exact (text_array_nil d [] [] eq_refl eq_refl)|].
    apply (text_array d [] l _ eq_refl), sealed_elements; [done|]. intros v Hv. apply IH; [|by eapply forallb_forall, list_elem_of_In].
    assert (json_size v ∈ map json_size l) as Hs by (by apply list_elem_of_fmap_2). apply sum_list_elem in Hs. lia.
  - destruct d as [|d]; [done|]. cbn in Hp. destruct (decide (l = [])) as [->|Hl]; [exact (text_object_nil d [] [] eq_refl eq_refl)|].
    apply (text_object d [] l _ eq_refl), sealed_members; [done|]. intros k v Hv.
    eapply forallb_forall in Hp; [|by apply list_elem_of_In, Hv]. apply andb_prop in Hp as [Hk Hp]. split; [done|]. apply IH; [|done].
    assert (S (json_size v) ∈ map (fun m : bytes * json => S (json_size m.2)) l) as Hs by (apply list_elem_of_fmap; by exists (k, v)).
    apply sum_list_elem in Hs. lia.
Qed.

Lemma print_parses v : printable maxNestingDepth v = true -> parse_json (print_json v) = Some v.
Proof. intros Hp. rewrite <- (app_nil_r (print_json v)). apply parse_text; [by apply (printed_text (json_size v))|done]. Qed.
