(* ===== verification/Memtier.v ===== *)
(** * The output of memtier_benchmark ([internal/bench/memtier.go])

    [json.Unmarshal] into the nested struct of the code, and [ParseMemtier]. *)
From S2P Require Import Prelude Hash Resp Float Server Flags FloatText Json JsonSpec Bench RedisBench.
From Stdlib Require Import SpecFloat.

(** ** Decoding into structs *)

(** [foldName]: the letters in upper case.  Two letters of other scripts fold to an
    ASCII letter: the Kelvin sign and the long s. *)
Fixpoint foldName (s : bytes) : bytes :=
  match s with
  | xe2 :: x84 :: xaa :: s' => B "K" ++ foldName s'
  | xc5 :: xbf :: s' => B "S" ++ foldName s'
  | c :: s' => upper_byte c :: foldName s'
  | [] => []
  end.

(** The field a key is for: its exact name, else the name with letters folded. *)
Definition field_of (names : list bytes) (key : bytes) : option bytes :=
  match find (fun n => bool_decide (n = key)) names with
  | Some n => Some n
  | None => find (fun n => bool_decide (foldName n = foldName key)) names
  end.

(** A [float64] field: null leaves it, a number sets it; [None] is an error. *)
Definition decode_float (v : json) (x : float64) : option float64 :=
  match v with
  | JNull => Some x
  | JNumber t => ParseFloat t
  | _ => None
  end.

(** A struct: null leaves it, an object sets the field of each member in turn, and a
    member for no field is skipped. *)
Definition decode_struct {A} (names : list bytes) (set : bytes -> json -> A -> option A) (v : json) (a : A) : option A :=
  match v with
  | JNull => Some a
  | JObject l =>
      foldl (fun acc '(k, v) => a ← acc; match field_of names k with Some n => set n v a | None => Some a end) (Some a) l
  | _ => None
  end.

(** ** The struct of [ParseMemtier] *)
Record Percentiles : Type := MkPercentiles { pc_P50 : float64; pc_P99 : float64; pc_P999 : float64 }.

Record Totals : Type := MkTotals {
  t_OpsPerSec : float64;
  t_HitsPerSec : float64;
  t_MissesPerSec : float64;
  t_Percentiles : Percentiles;
}.

(** Set a field by the name of its tag. *)
Definition set_percentile (n : bytes) (v : json) (p : Percentiles) : option Percentiles :=
  if bool_decide (n = B "p50.00") then x ← decode_float v (pc_P50 p); Some (MkPercentiles x (pc_P99 p) (pc_P999 p))
  else if bool_decide (n = B "p99.00") then x ← decode_float v (pc_P99 p); Some (MkPercentiles (pc_P50 p) x (pc_P999 p))
  else x ← decode_float v (pc_P999 p); Some (MkPercentiles (pc_P50 p) (pc_P99 p) x).

Definition percentile_names : list bytes := [B "p50.00"; B "p99.00"; B "p99.90"].

Definition decode_percentiles : json -> Percentiles -> option Percentiles := decode_struct percentile_names set_percentile.

Definition set_total (n : bytes) (v : json) (t : Totals) : option Totals :=
  if bool_decide (n = B "Ops/sec") then
    x ← decode_float v (t_OpsPerSec t); Some (MkTotals x (t_HitsPerSec t) (t_MissesPerSec t) (t_Percentiles t))
  else if bool_decide (n = B "Hits/sec") then
    x ← decode_float v (t_HitsPerSec t); Some (MkTotals (t_OpsPerSec t) x (t_MissesPerSec t) (t_Percentiles t))
  else if bool_decide (n = B "Misses/sec") then
    x ← decode_float v (t_MissesPerSec t); Some (MkTotals (t_OpsPerSec t) (t_HitsPerSec t) x (t_Percentiles t))
  else
    p ← decode_percentiles v (t_Percentiles t); Some (MkTotals (t_OpsPerSec t) (t_HitsPerSec t) (t_MissesPerSec t) p).

Definition total_names : list bytes := [B "Ops/sec"; B "Hits/sec"; B "Misses/sec"; B "Percentile Latencies"].

Definition decode_totals : json -> Totals -> option Totals := decode_struct total_names set_total.

(** [AllStats] and the document have one field each. *)
Definition decode_all_stats : json -> Totals -> option Totals :=
  decode_struct [B "Totals"] (fun _ => decode_totals).

Definition decode_doc : json -> Totals -> option Totals :=
  decode_struct [B "ALL STATS"] (fun _ => decode_all_stats).

Definition zero_totals : Totals := MkTotals f64_zero f64_zero f64_zero (MkPercentiles f64_zero f64_zero f64_zero).

(** [json.Unmarshal(data, &doc)] *)
Definition Unmarshal (data : bytes) : option Totals := v ← parse_json data; decode_doc v zero_totals.

Definition memtier_error (msg : bytes) : ParseError := MkParseError (B "memtier") msg.

Section Memtier.
(** The text of the error of [json.Unmarshal], which names positions and types. *)
Context (json_text : bytes -> bytes).

Definition ParseMemtier (data : bytes) : HitRatioResult + ParseError :=
  match Unmarshal data with
  | None => inr (memtier_error (B "invalid JSON: " ++ json_text data))
  | Some t =>
      if SFltb (t_HitsPerSec t) f64_zero || SFltb (t_MissesPerSec t) f64_zero
      then inr (memtier_error (B "negative hit/miss rate"))
      else
        let total := f64_add (t_HitsPerSec t) (t_MissesPerSec t) in
        if SFleb total f64_zero then inr (memtier_error (B "no GET hits/misses in output"))
        else inl (MkHitRatio (t_HitsPerSec t) (t_MissesPerSec t) (f64_div (t_HitsPerSec t) total) (t_OpsPerSec t)
               (MkLatency (pc_P50 (t_Percentiles t)) (pc_P99 (t_Percentiles t)) (pc_P999 (t_Percentiles t))))
  end.
End Memtier.

(** ** Fields are decoded independently *)

(** The values of the members that are for a field. *)
Definition values (name : bytes) (l : list (bytes * json)) : list json :=
  snd <$> filter (fun m : bytes * json => foldName m.1 = foldName name) l.

(** A field decoded from its members in turn. *)
Definition decode_all {A} (f : json -> A -> option A) (a : A) (vs : list json) : option A :=
  foldl (fun acc v => a ← acc; f v a) (Some a) vs.

Lemma foldl_none {A B} (f : A -> B -> option A) (l : list B) : foldl (fun acc x => a ← acc; f a x) None l = None.
Proof. by induction l. Qed.

Lemma decode_all_cons {A} (f : json -> A -> option A) a v vs : decode_all f a (v :: vs) = (a' ← f v a; decode_all f a' vs).
Proof. unfold decode_all. cbn. destruct (f v a); [done|]. apply (foldl_none (fun a v => f v a)). Qed.

Lemma values_cons name k v l : values name ((k, v) :: l) = if decide (foldName k = foldName name) then v :: values name l else values name l.
Proof. unfold values. rewrite filter_cons. cbn. by destruct (decide _). Qed.

Lemma field_of_spec names k n : NoDup (foldName <$> names) -> (field_of names k = Some n <-> n ∈ names /\ foldName k = foldName n).
Proof.
  intros Hnd. assert (forall n n', n ∈ names -> n' ∈ names -> foldName n = foldName n' -> n = n') as Hinj.
  { intros a b (i & Hi)%list_elem_of_lookup (j & Hj)%list_elem_of_lookup E.
    assert (i = j) as ->; [|congruence]. eapply (NoDup_lookup _ _ _ (foldName a)); [exact Hnd|by rewrite list_lookup_fmap, Hi|by rewrite list_lookup_fmap, Hj; cbn; f_equal]. }
  assert (forall p m, find p names = Some m -> m ∈ names /\ p m = true) as Hfind.
  { intros p m Hf%List.find_some. by rewrite list_elem_of_In. }
  unfold field_of. split.
  - intros E. destruct (find (fun n => bool_decide (n = k)) names) as [m|] eqn:E1; simplify_eq.
    + apply Hfind in E1 as [Hm Hp%bool_decide_eq_true]. by subst.
    + apply Hfind in E as [Hm Hp%bool_decide_eq_true]. done.
  - intros [Hn E]. destruct (find (fun n => bool_decide (n = k)) names) as [m|] eqn:E1.
    + apply Hfind in E1 as [Hm Hp%bool_decide_eq_true]. subst m. f_equal. by apply Hinj.
    + destruct (find (fun n => bool_decide (foldName n = foldName k)) names) as [m|] eqn:E2.
      * apply Hfind in E2 as [Hm Hp%bool_decide_eq_true]. f_equal. apply Hinj; try done. congruence.
      * eapply List.find_none in E2; [|by apply list_elem_of_In]. by apply bool_decide_eq_false in E2.
Qed.

Lemma field_of_none names k n : NoDup (foldName <$> names) -> field_of names k = None -> n ∈ names -> foldName k <> foldName n.
Proof. intros Hnd E Hn Hk. assert (field_of names k = Some n) by (by apply field_of_spec). congruence. Qed.

(** An object is decoded member by member. *)
Lemma decode_struct_cons {A} names (set : bytes -> json -> A -> option A) k v l a :
  decode_struct names set (JObject ((k, v) :: l)) a =
  (a' ← match field_of names k with Some n => set n v a | None => Some a end; decode_struct names set (JObject l) a').
Proof.
  cbn [decode_struct foldl mbind option_bind]. destruct (match field_of names k with Some n => set n v a | None => Some a end); [done|].
  cbn [mbind option_bind]. clear. by induction l as [|[k' v'] l IH].
Qed.

(** A field is decoded from the members that are for it, whatever the others are. *)
Section Field.
Context {A C : Type} (names : list bytes) (set : bytes -> json -> A -> option A) (name : bytes) (proj : A -> C) (f : json -> C -> option C).
Context (Hnd : NoDup (foldName <$> names)) (Hin : name ∈ names).
Context (Hself : forall v a a', set name v a = Some a' -> f v (proj a) = Some (proj a')).
Context (Hother : forall n v a a', n ∈ names -> n <> name -> set n v a = Some a' -> proj a' = proj a).

Lemma decode_struct_field l : forall a a', decode_struct names set (JObject l) a = Some a' ->
  decode_all f (proj a) (values name l) = Some (proj a').
Proof.
  induction l as [|[k v] l IH]; intros a a' E; [by injection E as <-|].
  rewrite decode_struct_cons in E. apply bind_Some in E as (a1 & E1 & E). apply IH in E. rewrite values_cons.
  destruct (field_of names k) as [n|] eqn:En.
  - apply field_of_spec in En as [Hn Hk]; [|done]. destruct (decide (foldName k = foldName name)) as [Hkn|Hkn].
    + assert (n = name) as ->; [|by rewrite decode_all_cons, (Hself v a a1)].
      assert (field_of names k = Some name) as E2 by (by apply field_of_spec). assert (field_of names k = Some n) as E3 by (by apply field_of_spec). congruence.
    + rewrite <- (Hother n v a a1); [done|done| |done]. intros ->. congruence.
  - injection E1 as ->. by rewrite decide_False by (by apply (field_of_none names)).
Qed.
End Field.

Lemma decode_struct_ok {A} names (set : bytes -> json -> A -> option A) l : NoDup (foldName <$> names) ->
  (forall n v a, n ∈ names -> v ∈ values n l -> is_Some (set n v a)) -> forall a, is_Some (decode_struct names set (JObject l) a).
Proof.
  intros Hnd. induction l as [|[k v] l IH]; intros Hok a; [by eexists|]. rewrite decode_struct_cons.
  assert (forall a, is_Some (decode_struct names set (JObject l) a)) as Hl.
  { apply IH. intros n u b Hn Hu. apply Hok; [done|]. rewrite values_cons. case_decide; [by right|done]. }
  destruct (field_of names k) as [n|] eqn:En; [|apply Hl]. apply field_of_spec in En as [Hn Hk]; [|done].
  destruct (Hok n v a Hn) as [a1 ->]; [rewrite values_cons, decide_True by done; by left|]. apply Hl.
Qed.

(** A field with one member. *)
Lemma decode_one {A} (f : json -> A -> option A) a v x : decode_all f a [v] = Some x -> f v a = Some x.
Proof. rewrite decode_all_cons. intros (y & -> & [= ->])%bind_Some. done. Qed.

(** ** The documents of the tool *)

(** A field of an object with one number. *)
Definition number_field (l : list (bytes * json)) (name : bytes) (x : float64) : Prop :=
  exists text, values name l = [JNumber text] /\ ParseFloat text = Some x.

(** [v] has the three nested objects, and the numbers [t] in the innermost two. *)
Definition reports (v : json) (t : Totals) : Prop :=
  exists l0 l1 l2 l3, v = JObject l0 /\ values (B "ALL STATS") l0 = [JObject l1] /\ values (B "Totals") l1 = [JObject l2] /\
    number_field l2 (B "Ops/sec") (t_OpsPerSec t) /\ number_field l2 (B "Hits/sec") (t_HitsPerSec t) /\
    number_field l2 (B "Misses/sec") (t_MissesPerSec t) /\ values (B "Percentile Latencies") l2 = [JObject l3] /\
    number_field l3 (B "p50.00") (pc_P50 (t_Percentiles t)) /\ number_field l3 (B "p99.00") (pc_P99 (t_Percentiles t)) /\
    number_field l3 (B "p99.90") (pc_P999 (t_Percentiles t)).

Lemma number_field_ok l name x : number_field l name x -> forall v a, v ∈ values name l -> is_Some (decode_float v a).
Proof. intros (text & -> & E) v a ->%list_elem_of_singleton. cbn. by rewrite E. Qed.

Lemma number_field_value l name x : number_field l name x -> forall a y, decode_all decode_float a (values name l) = Some y -> y = x.
Proof. intros (text & -> & E) a y Hy%decode_one. cbn in Hy. congruence. Qed.

Ltac field_names := apply (bool_decide_unpack _); vm_compute; exact I.

Lemma percentile_names_nodup : NoDup (foldName <$> percentile_names).
Proof. field_names. Qed.

Lemma total_names_nodup : NoDup (foldName <$> total_names).
Proof. field_names. Qed.

(** A setter sets its own field and leaves the others. *)
Ltac known_name :=
  repeat match goal with
  | |- context [bool_decide (B ?x = B ?y)] =>
      let b := eval vm_compute in (bool_decide (B x = B y)) in
      replace (bool_decide (B x = B y)) with b by (vm_compute; reflexivity)
  end; cbv iota.

Ltac sets_own := intros ? ? ?; known_name; intros (? & ? & [= <-])%bind_Some; assumption.

Ltac leaves_others := intros ? ? ? ? Hn Hne; repeat (apply elem_of_cons in Hn as [->|Hn]; [known_name; first [by destruct Hne|by intros (? & ? & [= <-])%bind_Some]|]); by apply elem_of_nil in Hn.

Lemma percentile_field l p q : decode_percentiles (JObject l) p = Some q ->
  decode_all decode_float (pc_P50 p) (values (B "p50.00") l) = Some (pc_P50 q) /\
  decode_all decode_float (pc_P99 p) (values (B "p99.00") l) = Some (pc_P99 q) /\
  decode_all decode_float (pc_P999 p) (values (B "p99.90") l) = Some (pc_P999 q).
Proof.
  intros E. split_and!; revert E; apply decode_struct_field; try apply percentile_names_nodup; try field_names; unfold set_percentile; first [sets_own|leaves_others].
Qed.

Lemma total_field l t u : decode_totals (JObject l) t = Some u ->
  decode_all decode_float (t_OpsPerSec t) (values (B "Ops/sec") l) = Some (t_OpsPerSec u) /\
  decode_all decode_float (t_HitsPerSec t) (values (B "Hits/sec") l) = Some (t_HitsPerSec u) /\
  decode_all decode_float (t_MissesPerSec t) (values (B "Misses/sec") l) = Some (t_MissesPerSec u) /\
  decode_all decode_percentiles (t_Percentiles t) (values (B "Percentile Latencies") l) = Some (t_Percentiles u).
Proof.
  intros E. split_and!; revert E; apply decode_struct_field; try apply total_names_nodup; try field_names; unfold set_total; first [sets_own|leaves_others].
Qed.

(** An object with one member for its only field. *)
Lemma decode_only {A} name (f : json -> A -> option A) l v a : values name l = [v] -> (forall b, is_Some (f v b)) ->
  decode_struct [name] (fun _ => f) (JObject l) a = f v a.
Proof.
  intros Hv Hf. assert (NoDup (foldName <$> [name])) as Hnd by (apply NoDup_singleton).
  destruct (decode_struct_ok [name] (fun _ => f) l Hnd) with (a := a) as [b E].
  { intros n u c ->%list_elem_of_singleton Hu. rewrite Hv in Hu. apply list_elem_of_singleton in Hu as ->. apply Hf. }
  rewrite E. symmetry. apply decode_one. rewrite <- Hv. revert E.
  apply (decode_struct_field [name] (fun _ => f) name (fun a => a) f); [done|set_solver|done|set_solver].
Qed.

Lemma decode_percentiles_report l p q : number_field l (B "p50.00") (pc_P50 q) -> number_field l (B "p99.00") (pc_P99 q) ->
  number_field l (B "p99.90") (pc_P999 q) -> decode_percentiles (JObject l) p = Some q.
Proof.
  intros H50 H99 H999. destruct (decode_struct_ok percentile_names set_percentile l percentile_names_nodup) with (a := p) as [r E].
  { intros n v a Hn Hv. unfold set_percentile. repeat (apply elem_of_cons in Hn as [->|Hn]); [known_name..|by apply elem_of_nil in Hn].
    - destruct (number_field_ok _ _ _ H50 v (pc_P50 a) Hv) as [x ->]. by eexists.
    - destruct (number_field_ok _ _ _ H99 v (pc_P99 a) Hv) as [x ->]. by eexists.
    - destruct (number_field_ok _ _ _ H999 v (pc_P999 a) Hv) as [x ->]. by eexists. }
  unfold decode_percentiles. rewrite E. f_equal. destruct (percentile_field l p r E) as (E50 & E99 & E999).
  apply (number_field_value _ _ _ H50) in E50. apply (number_field_value _ _ _ H99) in E99. apply (number_field_value _ _ _ H999) in E999.
  destruct r, q. cbn in *. congruence.
Qed.

Lemma decode_report v t u : reports v t -> decode_doc v u = Some t.
Proof.
  intros (l0 & l1 & l2 & l3 & -> & Hall & Htot & Ho & Hh & Hm & Hp & H50 & H99 & H999).
  assert (forall w, decode_totals (JObject l2) w = Some t) as Ht.
  { intros w. destruct (decode_struct_ok total_names set_total l2 total_names_nodup) with (a := w) as [r E].
    { intros n v a Hn Hv. unfold set_total. repeat (apply elem_of_cons in Hn as [->|Hn]); [known_name..|by apply elem_of_nil in Hn].
      - destruct (number_field_ok _ _ _ Ho v (t_OpsPerSec a) Hv) as [x ->]. by eexists.
      - destruct (number_field_ok _ _ _ Hh v (t_HitsPerSec a) Hv) as [x ->]. by eexists.
      - destruct (number_field_ok _ _ _ Hm v (t_MissesPerSec a) Hv) as [x ->]. by eexists.
      - rewrite Hp in Hv. apply list_elem_of_singleton in Hv as ->. rewrite (decode_percentiles_report l3 _ (t_Percentiles t)) by done. by eexists. }
    unfold decode_totals. rewrite E. f_equal. destruct (total_field l2 w r E) as (Eo & Eh & Em & Ep).
    apply (number_field_value _ _ _ Ho) in Eo. apply (number_field_value _ _ _ Hh) in Eh. apply (number_field_value _ _ _ Hm) in Em.
    rewrite Hp in Ep. apply decode_one in Ep. rewrite (decode_percentiles_report l3 _ (t_Percentiles t)) in Ep by done.
    destruct r, t. cbn in *. congruence. }
  assert (forall w, decode_all_stats (JObject l1) w = Some t) as Hs.
  { intros w. unfold decode_all_stats. rewrite (decode_only _ _ _ _ _ Htot); [apply Ht|]. intros b. rewrite Ht. by eexists. }
  unfold decode_doc. rewrite (decode_only _ _ _ _ _ Hall); [apply Hs|]. intros b. rewrite Hs. by eexists.
Qed.

(** ** Theorem *)

(** C24. Hit-ratio output.  Every result of [ParseMemtier] has rates that are not
    negative, a positive total and the ratio of hits to it; every error names the tool.
    And a document, with white space anywhere and other members around the ones the
    code reads, whose totals are the numbers [t] gives exactly these numbers, or the
    error for a negative rate or for no hits and misses. *)
Theorem memtier_parses (json_text : bytes -> bytes) (data s w : bytes) (v : json) (t : Totals) :
  let hits := t_HitsPerSec t in
  let misses := t_MissesPerSec t in
  match ParseMemtier json_text data with
  | inl r => SFltb (HitsPerSec r) f64_zero = false /\ SFltb (MissesPerSec r) f64_zero = false /\
      SFleb (f64_add (HitsPerSec r) (MissesPerSec r)) f64_zero = false /\
      HitRatio r = f64_div (HitsPerSec r) (f64_add (HitsPerSec r) (MissesPerSec r))
  | inr e => Tool e = B "memtier"
  end /\
  (value_text maxNestingDepth v s -> forallb is_space w = true -> reports v t ->
   ParseMemtier json_text (s ++ w) =
     if SFltb hits f64_zero || SFltb misses f64_zero then inr (memtier_error (B "negative hit/miss rate"))
     else if SFleb (f64_add hits misses) f64_zero then inr (memtier_error (B "no GET hits/misses in output"))
     else inl (MkHitRatio hits misses (f64_div hits (f64_add hits misses)) (t_OpsPerSec t)
       (MkLatency (pc_P50 (t_Percentiles t)) (pc_P99 (t_Percentiles t)) (pc_P999 (t_Percentiles t))))).
Proof.
  intros hits misses. split.
  - unfold ParseMemtier. destruct (Unmarshal data) as [t'|]; [|done].
    destruct (SFltb (t_HitsPerSec t') f64_zero || _) eqn:E; [done|]. apply orb_false_iff in E as [E1 E2].
    destruct (SFleb _ f64_zero) eqn:E3; done.
  - intros Hs Hw Hr. unfold ParseMemtier, Unmarshal. rewrite (parse_text v) by done. cbn [mbind option_bind].
    by rewrite (decode_report v t) by done.
Qed.

(** ** Witness *)
Definition demo_doc : json :=
  JObject [(B "ALL STATS", JObject [(B "Runtime", JNull); (B "totals", JObject [
    (B "Ops/sec", JNumber (B "4.5e3")); (B "Hits/sec", JNumber (B "3")); (B "Misses/sec", JNumber (B "1.0"));
    (B "Latency", JArray [JString (B "ms"); JBool true]);
    (B "Percentile Latencies", JObject [(B "p50.00", JNumber (B "0.5")); (B "p99.00", JNumber (B "1")); (B "p99.90", JNumber (B "2.25"))])])])].

Definition demo_totals : Totals :=
  MkTotals (f64_of 4500) (f64_of 3) (f64_of 1) (MkPercentiles (f64_div (f64_of 1) (f64_of 2)) (f64_of 1) (f64_div (f64_of 9) (f64_of 4))).

Lemma memtier_parses_witness : ParseMemtier (fun _ => []) (print_json demo_doc ++ [x0a]) =
  inl (MkHitRatio (f64_of 3) (f64_of 1) (f64_div (f64_of 3) (f64_of 4)) (f64_of 4500)
    (MkLatency (f64_div (f64_of 1) (f64_of 2)) (f64_of 1) (f64_div (f64_of 9) (f64_of 4)))).
Proof.
  rewrite (proj2 (memtier_parses (fun _ => []) [] (print_json demo_doc) [x0a] demo_doc demo_totals)).
  - vm_compute. reflexivity.
  - apply (printed_text (json_size demo_doc)); [done|vm_compute; reflexivity].
  - reflexivity.
  - eexists _, _, _, _. split; [reflexivity|]. split; [vm_compute; reflexivity|]. split; [vm_compute; reflexivity|].
    split; [exists (B "4.5e3"); split; vm_compute; reflexivity|]. split; [exists (B "3"); split; vm_compute; reflexivity|].
    split; [exists (B "1.0"); split; vm_compute; reflexivity|]. split; [vm_compute; reflexivity|].
    split; [exists (B "0.5"); split; vm_compute; reflexivity|]. split; [exists (B "1"); split; vm_compute; reflexivity|].
    exists (B "2.25"); split; vm_compute; reflexivity.
Defined.
