(* ===== verification/Driver.v ===== *)
(** * The benchmark driver: its host and its servers ([cmd/cmbench/servers.go])

    The operating system as a class of operations on a world, the effects of the driver
    as a monad that records what it did, and the declared servers with their load
    sizes. *)
From S2P Require Import Prelude Hash Resp Float Server Flags FloatText Bench RedisBench.

(** ** The host *)

(** What the driver asks of the system: commands, files, the working directory and the
    clock.  An error is its text. *)
Class Host (W : Type) := {
  look_path : W -> bytes -> bool;                              (** [exec.LookPath] finds it *)
  run_command : W -> list bytes -> option bytes * W;           (** [exec.Command(...).Run] *)
  command_output : W -> list bytes -> (bytes * option bytes) * W; (** [exec.Command(...).Output] *)
  stat : W -> bytes -> option bytes;                           (** [os.Stat] *)
  getwd : W -> option bytes;                                   (** [os.Getwd] *)
  mkdir_temp : W -> bytes -> (bytes + bytes) * W;              (** [os.MkdirTemp("", pattern)] *)
  remove_all : W -> bytes -> W;                                (** [os.RemoveAll] *)
  read_file : W -> bytes -> bytes + bytes;                     (** [os.ReadFile] *)
  write_file : W -> bytes -> bytes -> option bytes * W;        (** [os.WriteFile] *)
  now : W -> Z;                                                (** [time.Now] *)
  sleep : W -> Z -> W;                                         (** [time.Sleep] *)
}.

(** The clock of the documentation: it does not run backwards, and a sleep lasts at
    least its duration. *)
Class HostLaws (W : Type) `{!Host W} : Prop := {
  clock_run : forall w argv, now w <= now (run_command w argv).2;
  clock_output : forall w argv, now w <= now (command_output w argv).2;
  clock_mkdir : forall w pattern, now w <= now (mkdir_temp w pattern).2;
  clock_remove : forall w path, now w <= now (remove_all w path);
  clock_write : forall w path text, now w <= now (write_file w path text).2;
  clock_sleep : forall w d, now w + d <= now (sleep w d);
}.

Inductive stream : Type := Stdout | Stderr.

(** What the driver did. *)
Inductive event : Type :=
| ERun (argv : list bytes) (err : option bytes)
| EOutput (argv : list bytes) (err : option bytes)
| EPrint (to : stream) (text : bytes)
| ETempDir (dir : bytes)
| ERemove (dir : bytes)
| EWrite (path text : bytes) (err : option bytes).

Section IO.
Context {W : Type} `{!Host W}.

Record world : Type := MkWorld { host : W; trace : list event }.

Definition io (A : Type) : Type := world -> outcome (A * world).

#[global] Instance io_ret : MRet io := fun A a w => Ret (a, w).
#[global] Instance io_bind : MBind io := fun A B f m w => '(a, w) ← m w; f a w.

(** A computation without effects. *)
Definition lift {A} (m : outcome A) : io A := fun w => a ← m; Ret (a, w).

Definition asks {A} (f : W -> A) : io A := fun w => Ret (f (host w), w).

Definition record (e : event) (h : W) (w : world) : world := MkWorld h (trace w ++ [e]).

Definition Run (argv : list bytes) : io (option bytes) := fun w =>
  let '(err, h) := run_command (host w) argv in Ret (err, record (ERun argv err) h w).

Definition Output (argv : list bytes) : io (bytes * option bytes) := fun w =>
  let '((out, err), h) := command_output (host w) argv in Ret ((out, err), record (EOutput argv err) h w).

Definition Fprint (to : stream) (text : bytes) : io unit := fun w => Ret (tt, record (EPrint to text) (host w) w).

Definition MkdirTemp (pattern : bytes) : io (bytes + bytes) := fun w =>
  let '(r, h) := mkdir_temp (host w) pattern in
  Ret (r, match r with inl dir => record (ETempDir dir) h w | inr _ => MkWorld h (trace w) end).

Definition RemoveAll (dir : bytes) : io unit := fun w => Ret (tt, record (ERemove dir) (remove_all (host w) dir) w).

Definition WriteFile (path text : bytes) : io (option bytes) := fun w =>
  let '(err, h) := write_file (host w) path text in Ret (err, record (EWrite path text err) h w).

Definition Sleep (d : Z) : io unit := fun w => Ret (tt, MkWorld (sleep (host w) d) (trace w)).
End IO.
Arguments world : clear implicits.
Arguments io : clear implicits.

(** ** Texts *)

(** [strconv.Quote]; [unicode_quote] is its result on text that is not all ASCII. *)
Definition quote_byte (c : byte) : bytes :=
  let hex (n : Z) : byte := byte_of (if n <? 10 then 48 + n else 87 + n) in
  match c with
  | x07 => B "\a" | x08 => B "\b" | x0c => B "\f" | x0a => B "\n" | x0d => B "\r" | x09 => B "\t" | x0b => B "\v"
  | x22 => [x5c; x22]
  | x5c => [x5c; x5c]
  | _ => if (code c <? 32) || (code c =? 127) then B "\x" ++ [hex (code c / 16); hex (code c mod 16)] else [c]
  end.

Definition Quote (unicode_quote : bytes -> bytes) (s : bytes) : bytes :=
  if forallb (fun c => code c <? 128) s then [x22] ++ mjoin (quote_byte <$> s) ++ [x22] else unicode_quote s.

(** [strings.Split] by one byte. *)
Fixpoint Split (s : bytes) (sep : byte) : list bytes :=
  match s with
  | [] => [[]]
  | c :: s' =>
      if bool_decide (c = sep) then [] :: Split s' sep
      else match Split s' sep with [] => [[c]] | p :: ps => (c :: p) :: ps end
  end.

(** [filepath.Clean] on a rooted or relative path: the elements that remain, last
    first. *)
Definition clean_elem (rooted : bool) (out : list bytes) (e : bytes) : list bytes :=
  if bool_decide (e = []) || bool_decide (e = B ".") then out
  else if bool_decide (e = B "..") then
    match out with
    | [] => if rooted then [] else [e]
    | top :: out' => if bool_decide (top = B "..") then e :: out else out'
    end
  else e :: out.

Definition Clean (path : bytes) : bytes :=
  let rooted := match path with x2f :: _ => true | _ => false end in
  let out := Join (reverse (foldl (clean_elem rooted) [] (Split path x2f))) (B "/") in
  let path := (if rooted then B "/" else []) ++ out in
  if bool_decide (path = []) then B "." else path.

(** [filepath.Join] of two elements, the second not empty. *)
Definition FileJoin (dir name : bytes) : bytes :=
  Clean (if bool_decide (dir = []) then name else dir ++ B "/" ++ name).

(** [filepath.Abs] of a relative path; its error leaves the empty string. *)
Definition FileAbs (wd : option bytes) (path : bytes) : bytes :=
  match wd with Some wd => FileJoin wd path | None => [] end.

(** [time.Duration.String]: the fraction without trailing zeros, then the units. *)
Fixpoint strip_zeros (l : bytes) : bytes :=
  match l with
  | [] => []
  | c :: l => match strip_zeros l with [] => if bool_decide (c = x30) then [] else [c] | r => c :: r end
  end.

Definition fmtFrac (v : Z) (prec : nat) : bytes :=
  match strip_zeros (fraction prec (v mod 10 ^ Z.of_nat prec)) with [] => [] | ds => x2e :: ds end.

Definition duration_String (d : Z) : bytes :=
  let u := Z.abs d in
  (if d <? 0 then B "-" else []) ++
  if u =? 0 then B "0s"
  else if u <? 1000 then itoa u ++ B "ns"
  else if u <? 1000000 then itoa (u / 1000) ++ fmtFrac u 3 ++ [xc2; xb5; x73]
  else if u <? second then itoa (u / 1000000) ++ fmtFrac u 6 ++ B "ms"
  else
    let s := u / second in
    (if s / 3600 =? 0 then [] else itoa (s / 3600) ++ B "h") ++
    (if s / 60 =? 0 then [] else itoa (s / 60 mod 60) ++ B "m") ++
    itoa (s mod 60) ++ fmtFrac u 9 ++ B "s".

(** ** Parameters *)
Definition benchNetwork : bytes := B "cmbench-net".
Definition serverPort : Z := 6379.
Definition maxmemoryBytes : Z := 64 * 1024 * 1024.
Definition valueSize : Z := 64.
Definition memtierValueBytes : Z := 4096.
Definition memtierKeyMax : Z := 50000.
Definition memtierKeyMedian : Z := 25000.
Definition memtierKeyStddev : Z := 6000.
Definition memtierRatio : bytes := B "1:2".
Definition cachemoneyStaticPath : bytes := B "bin/cachemoney-static".

Section Servers.
Context {W : Type} `{!Host W} (unicode_quote : bytes -> bytes) (lookupEnv : bytes -> option bytes).

(** [os.Getenv] *)
Definition Getenv (key : bytes) : bytes := default [] (lookupEnv key).

Definition benchQuick : bool := bool_decide (Getenv (B "BENCH_QUICK") <> []).

Definition pick (full quick : Z) : Z := if benchQuick then quick else full.

(** [envInt], which warns of a value that is not a positive integer. *)
Definition benchEnvInt (key : bytes) (def : Z) : io W Z :=
  match lookupEnv key with
  | None => mret def
  | Some v =>
      let warn : io W Z :=
        Fprint Stderr (B "warning: " ++ key ++ B "=" ++ Quote unicode_quote v ++ B " is not a positive integer; using " ++ itoa def ++ [LF]);;
        mret def in
      match ParseInt v with
      | Some n => if n <=? 0 then warn else mret n
      | None => warn
      end
  end.

Definition benchEnv (key def : bytes) : bytes :=
  match lookupEnv key with Some v => if bool_decide (v <> []) then v else def | None => def end.

(** The package variables: the load sizes and the images. *)
Record settings : Type := MkSettings {
  redisRequests : Z;
  redisClients : Z;
  memtierOps : Z;
  memtierClients : Z;
  memtierThreads : Z;
  repeats : Z;
  redisImage : bytes;
  valkeyImage : bytes;
  pogocacheImage : bytes;
  memtierImage : bytes;
  baseImage : bytes;
}.

Definition init_settings : io W settings :=
  requests ← benchEnvInt (B "BENCH_REDIS_REQUESTS") (pick 100000 5000);
  clients ← benchEnvInt (B "BENCH_REDIS_CLIENTS") (pick 20 5);
  ops ← benchEnvInt (B "BENCH_MEMTIER_OPS") (pick 50000 2000);
  mclients ← benchEnvInt (B "BENCH_MEMTIER_CLIENTS") (pick 10 4);
  threads ← benchEnvInt (B "BENCH_MEMTIER_THREADS") 2;
  reps ← benchEnvInt (B "BENCH_REPEATS") (pick 3 1);
  mret (MkSettings requests clients ops mclients threads reps
    (benchEnv (B "REDIS_IMAGE") (B "redis:7.4"))
    (benchEnv (B "VALKEY_IMAGE") (B "valkey/valkey:8.1"))
    (benchEnv (B "POGOCACHE_IMAGE") (B "pogocache/pogocache:1.3.1"))
    (benchEnv (B "MEMTIER_IMAGE") (B "redislabs/memtier_benchmark:2.4.2"))
    (benchEnv (B "BASE_IMAGE") (B "alpine:3"))).

(** ** Servers *)
Definition containerName (server : bytes) : bytes := B "cmbench-" ++ server.

(** [runArgs] may look at the working directory. *)
Record serverSpec : Type := MkServerSpec {
  name : bytes;
  image : bytes;
  localFile : bytes;
  runArgs : bytes -> W -> list bytes;
}.

Definition redisServerArgs (bin : bytes) : list bytes :=
  [bin; B "--port"; itoa serverPort; B "--protected-mode"; B "no";
   B "--maxmemory"; itoa maxmemoryBytes; B "--maxmemory-policy"; B "allkeys-lfu";
   B "--save"; []; B "--appendonly"; B "no"].

Definition dockerRunBase (name image net : bytes) : list bytes :=
  [B "docker"; B "run"; B "-d"; B "--rm"; B "--name"; containerName name; B "--network"; net; image].

Section Settings.
Context (cfg : settings).

Definition images (s : serverSpec) : list bytes := [image s; redisImage cfg; memtierImage cfg].

Definition servers : list serverSpec := [
  MkServerSpec (B "cachemoney") (baseImage cfg) cachemoneyStaticPath (fun net w =>
    let bin := FileAbs (getwd w) cachemoneyStaticPath in
    [B "docker"; B "run"; B "-d"; B "--rm"; B "--name"; containerName (B "cachemoney"); B "--network"; net;
     B "-v"; bin ++ B ":/cachemoney:ro"; B "--entrypoint"; B "/cachemoney"; baseImage cfg;
     B "-addr=:" ++ itoa serverPort;
     B "-maxmemory=" ++ itoa maxmemoryBytes; B "-maxmemory-policy=allkeys-lfu"]);
  MkServerSpec (B "redis") (redisImage cfg) [] (fun net _ =>
    dockerRunBase (B "redis") (redisImage cfg) net ++ redisServerArgs (B "redis-server"));
  MkServerSpec (B "valkey") (valkeyImage cfg) [] (fun net _ =>
    dockerRunBase (B "valkey") (valkeyImage cfg) net ++ redisServerArgs (B "valkey-server"));
  MkServerSpec (B "pogocache") (pogocacheImage cfg) [] (fun net _ =>
    dockerRunBase (B "pogocache") (pogocacheImage cfg) net ++
    [B "-h"; B "0.0.0.0"; B "-p"; itoa serverPort; B "--maxmemory"; itoa maxmemoryBytes; B "--evict"; B "yes"]) ].
End Settings.
End Servers.
Arguments serverSpec : clear implicits.
Arguments MkServerSpec {_} _ _ _ _.
