(* ===== verification/Compare.v ===== *)
(** * The benchmark driver: planning, measuring, publishing ([cmd/cmbench])

    [run.go] (which servers can run, and the comparison loop), [exec.go] (one server
    started, probed, measured and stopped) and [main.go] (the results document). *)
From S2P Require Import Prelude Hash Resp Float Server Flags FloatText Csv Bench RedisBench Memtier Driver.

Section Compare.
Context {W : Type} `{!Host W} (unicode_lower unicode_quote : bytes -> bytes) (csv_text : csv_err -> bytes) (json_text : bytes -> bytes).
Context (lookupEnv : bytes -> option bytes) (cfg : settings).

(** ** [run.go] *)
Record lookup : Type := MkLookup { hasDocker : io W bool; hasImage : bytes -> io W bool }.

Definition realLookup : lookup := {|
  hasDocker :=
    found ← asks (fun h => look_path h (B "docker"));
    if negb found then mret false
    else
      err ← Run [B "docker"; B "info"];
      mret (bool_decide (err = None));
  hasImage image :=
    err ← Run [B "docker"; B "image"; B "inspect"; image];
    if bool_decide (err = None) then mret true
    else
      Fprint Stderr (B "pulling " ++ image ++ B " (first run may take a while)..." ++ [LF]);;
      err ← Run [B "docker"; B "pull"; image];
      mret (bool_decide (err = None)) |}.

(** The loop over the images. *)
Fixpoint all_images (lk : lookup) (imgs : list bytes) : io W bool :=
  match imgs with
  | [] => mret true
  | img :: imgs =>
      if bool_decide (img = []) then all_images lk imgs
      else
        ok ← hasImage lk img;
        if negb ok then mret false else all_images lk imgs
  end.

Definition available (lk : lookup) (imgs : list bytes) : io W bool :=
  docker ← hasDocker lk;
  if negb docker then mret false else all_images lk imgs.

Record plan : Type := MkPlan { run : list (serverSpec W); skipped : list bytes }.

Fixpoint make_plan (p : plan) (specs : list (serverSpec W)) (lk : lookup) : io W plan :=
  match specs with
  | [] => mret p
  | s :: specs =>
      ok ← available lk (images cfg s);
      make_plan (if ok : bool then MkPlan (run p ++ [s]) (skipped p) else MkPlan (run p) (skipped p ++ [name s])) specs lk
  end.

Definition makePlan (specs : list (serverSpec W)) (lk : lookup) : io W plan := make_plan (MkPlan [] []) specs lk.

(** A result, or the text of an error. *)
Definition measurer : Type := serverSpec W -> io W (Result + bytes).

Fixpoint print_skipped (out : stream) (names : list bytes) : io W unit :=
  match names with
  | [] => mret tt
  | n :: names =>
      Fprint out (B "skipping " ++ n ++ B ": Docker or its pinned image is unavailable" ++ [LF]);;
      print_skipped out names
  end.

Fixpoint compare_loop (out : stream) (suite : Suite) (run : list (serverSpec W)) (measure : measurer) : io W Suite :=
  match run with
  | [] => mret suite
  | pl :: run =>
      Fprint out (B "benchmarking " ++ name pl ++ B "..." ++ [LF]);;
      r ← measure pl;
      match r with
      | inr err =>
          Fprint out (B "skipping " ++ name pl ++ B ": " ++ err ++ [LF]);;
          compare_loop out (MkSuite (Results suite) (Skipped suite ++ [name pl])) run measure
      | inl res => compare_loop out (MkSuite (Results suite ++ [res]) (Skipped suite)) run measure
      end
  end.

Definition runCompare (out : stream) (specs : list (serverSpec W)) (lk : lookup) (measure : measurer) : io W Suite :=
  p ← makePlan specs lk;
  print_skipped out (skipped p);;
  compare_loop out (MkSuite [] (skipped p)) (run p) measure.

Definition ensureNetwork (name : bytes) : io W (option bytes) :=
  err ← Run [B "docker"; B "network"; B "inspect"; name];
  if bool_decide (err = None) then mret None
  else Run [B "docker"; B "network"; B "create"; name].

Definition removeNetwork (name : bytes) : io W unit :=
  Run [B "docker"; B "network"; B "rm"; name];; mret tt.

Fixpoint cleanupContainers (specs : list (serverSpec W)) : io W unit :=
  match specs with
  | [] => mret tt
  | s :: specs =>
      Run [B "docker"; B "rm"; B "-f"; containerName (name s)];;
      cleanupContainers specs
  end.

Definition serverNames (specs : list (serverSpec W)) : bytes := Join (name <$> specs) (B ", ").

(** The loop over the names asked for: [known] and [want] are maps to true. *)
Fixpoint want_names (specs : list (serverSpec W)) (known want : gset bytes) (names : list bytes) (warn : stream) : io W (gset bytes) :=
  match names with
  | [] => mret want
  | n :: names =>
      let n := TrimSpace n in
      if bool_decide (n = []) then want_names specs known want names warn
      else
        (if bool_decide (n ∈ known) then mret tt
         else Fprint warn (B "warning: BENCH_ONLY name " ++ Quote unicode_quote n ++ B " matches no server (known: " ++ serverNames specs ++ B ")" ++ [LF]));;
        want_names specs known ({[n]} ∪ want) names warn
  end.

Definition filterServers (specs : list (serverSpec W)) (only : bytes) (warn : stream) : io W (list (serverSpec W)) :=
  let only := TrimSpace only in
  if bool_decide (only = []) then mret specs
  else
    let known : gset bytes := list_to_set (name <$> specs) in
    want ← want_names specs known ∅ (Split only x2c) warn;
    mret (filter (fun s => name s ∈ want) specs).

(** ** [exec.go] *)

(** The stop function, or an error. *)
Definition startServer (s : serverSpec W) (net : bytes) : io W (io W unit + bytes) :=
  missing ← (if bool_decide (localFile s <> []) then asks (fun h => stat h (localFile s)) else mret None);
  match missing with
  | Some err =>
      mret (inr (name s ++ B ": required file " ++ localFile s ++ B " not found (build it, e.g. via `make bench-compare`): " ++ err))
  | None =>
      argv ← asks (runArgs s net);
      match argv with
      | [] => lift Panic
      | _ =>
          err ← Run argv;
          match err with
          | Some err => mret (inr (B "start " ++ name s ++ B ": " ++ err))
          | None => mret (inl (Run [B "docker"; B "stop"; containerName (name s)];; mret tt))
          end
      end
  end.

(** The probe: a throwaway container on the network. *)
Definition probe (net cname : bytes) : list bytes :=
  [B "docker"; B "run"; B "--rm"; B "--network"; net; redisImage cfg;
   B "redis-cli"; B "-h"; cname; B "-p"; itoa serverPort; B "ping"].

Definition millisecond : Z := 10 ^ 6.

(** A round takes at least half a second, so the fuel is the half seconds of the
    timeout and two more. *)
Fixpoint wait_loop (fuel : nat) (net cname : bytes) (timeout deadline : Z) : io W (option bytes) :=
  match fuel with
  | O => lift Diverge
  | S fuel =>
      t ← asks now;
      if t <? deadline then
        r ← Output (probe net cname);
        if contains (fst r) (B "PONG") then mret None
        else
          Sleep (500 * millisecond);;
          wait_loop fuel net cname timeout deadline
      else mret (Some (B "server " ++ cname ++ B " not ready within " ++ duration_String timeout))
  end.

Definition waitReady (net cname : bytes) (timeout : Z) : io W (option bytes) :=
  t ← asks now;
  wait_loop (Z.to_nat (timeout / (500 * millisecond)) + 2) net cname timeout (t + timeout).

Definition redis_benchmark (net cname : bytes) : list bytes :=
  [B "docker"; B "run"; B "--rm"; B "--network"; net; redisImage cfg;
   B "redis-benchmark"; B "-h"; cname; B "-p"; itoa serverPort;
   B "-t"; B "get,set"; B "-n"; itoa (redisRequests cfg);
   B "-c"; itoa (redisClients cfg); B "-d"; itoa valueSize; B "--csv"].

Definition runRedisBenchOnce (net cname : bytes) : io W (list ThroughputResult + bytes) :=
  r ← Output (redis_benchmark net cname);
  match snd r with
  | Some err => mret (inr (B "redis-benchmark: " ++ err))
  | None =>
      p ← lift (ParseRedisBench unicode_lower csv_text (fst r));
      mret (match p with inl trs => inl trs | inr e => inr (parse_error_text e) end)
  end.

(** The measured runs, in order; the first error ends them. *)
Fixpoint repeat_runs {A} (n : nat) (once : io W (A + bytes)) (runs : list A) : io W (list A + bytes) :=
  match n with
  | O => mret (inl runs)
  | S n =>
      r ← once;
      match r with
      | inr err => mret (inr err)
      | inl a => repeat_runs n once (runs ++ [a])
      end
  end.

Definition medianRedisBench (net cname : bytes) : io W (list ThroughputResult + bytes) :=
  warmup ← runRedisBenchOnce net cname;
  match warmup with
  | inr err => mret (inr err)
  | inl _ =>
      lift (make_cap 24 (repeats cfg));;
      runs ← repeat_runs (Z.to_nat (repeats cfg)) (runRedisBenchOnce net cname) [];
      match runs with
      | inr err => mret (inr err)
      | inl runs => trs ← lift (MedianThroughput runs); mret (inl trs)
      end
  end.

Definition memtier_benchmark (net cname dir : bytes) : list bytes :=
  [B "docker"; B "run"; B "--rm"; B "--network"; net; B "-v"; dir ++ B ":/out"; memtierImage cfg;
   B "-s"; cname; B "-p"; itoa serverPort; B "--protocol=redis";
   B "--ratio=" ++ memtierRatio; B "--key-pattern=R:G";
   B "--data-size=" ++ itoa memtierValueBytes;
   B "--key-maximum=" ++ itoa memtierKeyMax;
   B "--key-median=" ++ itoa memtierKeyMedian;
   B "--key-stddev=" ++ itoa memtierKeyStddev;
   B "-n"; itoa (memtierOps cfg); B "-c"; itoa (memtierClients cfg);
   B "-t"; itoa (memtierThreads cfg);
   B "--print-percentiles"; B "50,99,99.9"; B "--json-out-file=/out/out.json"].

Definition runMemtierOnce (net cname : bytes) : io W (HitRatioResult + bytes) :=
  d ← MkdirTemp (B "memtier");
  match d with
  | inr err => mret (inr err)
  | inl dir =>
      r ← (err ← Run (memtier_benchmark net cname dir);
           match err with
           | Some err => mret (inr (B "memtier: " ++ err))
           | None =>
               raw ← asks (fun h => read_file h (FileJoin dir (B "out.json")));
               mret (match raw with
                     | inr err => inr err
                     | inl raw => match ParseMemtier json_text raw with inl hit => inl hit | inr e => inr (parse_error_text e) end
                     end)
           end);
      RemoveAll dir;;
      mret r
  end.

Definition medianMemtier (net cname : bytes) : io W (HitRatioResult + bytes) :=
  warmup ← runMemtierOnce net cname;
  match warmup with
  | inr err => mret (inr err)
  | inl _ =>
      lift (make_cap 56 (repeats cfg));;
      runs ← repeat_runs (Z.to_nat (repeats cfg)) (runMemtierOnce net cname) [];
      match runs with
      | inr err => mret (inr err)
      | inl runs => hit ← lift (MedianHitRatio runs); mret (inl hit)
      end
  end.

(** The measurement between start and stop. *)
Definition measure_server (net : bytes) (s : serverSpec W) : io W (Result + bytes) :=
  let cname := containerName (name s) in
  ready ← waitReady net cname (20 * second);
  match ready with
  | Some err => mret (inr err)
  | None =>
      tr ← medianRedisBench net cname;
      match tr with
      | inr err => mret (inr err)
      | inl tr =>
          hit ← medianMemtier net cname;
          match hit with
          | inr err => mret (inr err)
          | inl hit => mret (inl (MkResult (name s) tr (Some hit)))
          end
      end
  end.

Definition execMeasurer (net : bytes) : measurer := fun s =>
  st ← startServer s net;
  match st with
  | inr err => mret (inr err)
  | inl stop =>
      r ← measure_server net s;
      stop;;
      mret r
  end.

(** ** [main.go] *)
Definition tableStart : bytes := B "<!-- BENCH:TABLE:START -->".
Definition tableEnd : bytes := B "<!-- BENCH:TABLE:END -->".

(** [strings.Index], [None] for -1. *)
Fixpoint Index (s sub : bytes) : option nat :=
  if has_prefix sub s then Some 0%nat
  else match s with [] => None | _ :: s' => S <$> Index s' sub end.

(** The new content of a document. *)
Definition spliced (content table : bytes) : option bytes :=
  match Index content tableStart, Index content tableEnd with
  | Some si, Some ei =>
      if (ei <? si)%nat then None
      else Some (take (si + length tableStart) content ++ [LF; LF] ++ table ++ [LF] ++ drop ei content)
  | _, _ => None
  end.

Definition spliceDoc (path table : bytes) : io W (option bytes) :=
  raw ← asks (fun h => read_file h path);
  match raw with
  | inr err => mret (Some err)
  | inl content =>
      match spliced content table with
      | None => mret (Some (B "table markers not found in " ++ path))
      | Some updated => WriteFile path updated
      end
  end.

(** The end of [main]: the results document. *)
Definition publish (suite : Suite) (table : bytes) : io W unit :=
  let doc := Getenv lookupEnv (B "BENCH_DOC") in
  if bool_decide (doc = []) then mret tt
  else if benchQuick lookupEnv || bool_decide (Getenv lookupEnv (B "BENCH_ONLY") <> [])
  then Fprint Stderr (B "not updating " ++ doc ++ B ": BENCH_QUICK/BENCH_ONLY runs are partial/non-representative" ++ [LF])
  else if bool_decide (Results suite = [])
  then Fprint Stderr (B "not updating " ++ doc ++ B ": no servers produced results" ++ [LF])
  else
    err ← spliceDoc doc table;
    match err with
    | Some err => Fprint Stderr (B "warning: could not update " ++ doc ++ B ": " ++ err ++ [LF])
    | None => mret tt
    end.

Definition bench_main : io W unit :=
  let lk := realLookup in
  specs ← filterServers (servers cfg) (Getenv lookupEnv (B "BENCH_ONLY")) Stderr;
  cleanupContainers (servers cfg);;
  err ← ensureNetwork benchNetwork;
  match err with
  | Some err => Fprint Stderr (B "warning: could not create docker network " ++ benchNetwork ++ B ": " ++ err ++ [LF])
  | None => mret tt
  end;;
  suite ← runCompare Stderr specs lk (execMeasurer benchNetwork);
  Fprint Stdout (RenderTable suite ++ [LF]);;
  publish suite (RenderTable suite);;
  cleanupContainers (servers cfg);;
  removeNetwork benchNetwork.
End Compare.

(** The program: the package variables, then [main]. *)
Definition bench_program {W : Type} `{!Host W} (unicode_lower unicode_quote : bytes -> bytes) (csv_text : csv_err -> bytes)
    (json_text : bytes -> bytes) (lookupEnv : bytes -> option bytes) : io W unit :=
  cfg ← init_settings unicode_quote lookupEnv;
  bench_main unicode_lower unicode_quote csv_text json_text lookupEnv cfg.
