(* ===== verification/CompareSpec.v ===== *)
(** * The benchmark driver: what it does to the host

    The events of a run are checked by an automaton: one server container at a time,
    tools only against the running one, one temporary directory at a time.  A
    weakest-precondition calculus over the monad gives total correctness. *)
From S2P Require Import Prelude Hash Resp Float Server Flags FloatText Csv CsvSpec Bench BenchSpec RedisBench Json Memtier Driver Compare.

(** ** The protocol *)
Record pstate : Type := MkPState {
  p_running : option bytes;           (** the server container that runs *)
  p_dir : option bytes;               (** the temporary directory that exists *)
  p_printed : list bytes;             (** what went to standard output *)
  p_written : list (bytes * bytes);   (** the files written, with their texts *)
}.

Definition set_running (p : pstate) (r : option bytes) : pstate := MkPState r (p_dir p) (p_printed p) (p_written p).
Definition set_dir (p : pstate) (d : option bytes) : pstate := MkPState (p_running p) d (p_printed p) (p_written p).

(** The container a command starts, in the background and by name. *)
Definition starts (argv : list bytes) : option bytes :=
  if bool_decide (take 5 argv = [B "docker"; B "run"; B "-d"; B "--rm"; B "--name"]) then argv !! 5%nat else None.

Definition stops (argv : list bytes) : option bytes :=
  if bool_decide (take 2 argv = [B "docker"; B "stop"]) then argv !! 2%nat else None.

(** A throwaway container: a probe or a benchmark tool. *)
Definition is_tool (argv : list bytes) : bool := bool_decide (take 3 argv = [B "docker"; B "run"; B "--rm"]).

(** A tool runs while a server does, and names it. *)
Definition tool_ok (p : pstate) (argv : list bytes) : bool :=
  match p_running p with Some n => bool_decide (n ∈ argv) | None => false end.

Definition protocol_step (p : pstate) (e : event) : option pstate :=
  match e with
  | ERun argv err =>
      match starts argv with
      | Some n =>
          if bool_decide (p_running p = None)
          then Some (if bool_decide (err = None) then set_running p (Some n) else p) else None
      | None =>
          match stops argv with
          | Some n => if bool_decide (p_running p = Some n) then Some (set_running p None) else None
          | None => if is_tool argv && negb (tool_ok p argv) then None else Some p
          end
      end
  | EOutput argv _ => if tool_ok p argv then Some p else None
  | EPrint Stdout text => Some (MkPState (p_running p) (p_dir p) (p_printed p ++ [text]) (p_written p))
  | EPrint Stderr _ => Some p
  | ETempDir d => if bool_decide (p_dir p = None) then Some (set_dir p (Some d)) else None
  | ERemove d => if bool_decide (p_dir p = Some d) then Some (set_dir p None) else None
  | EWrite path text _ => Some (MkPState (p_running p) (p_dir p) (p_printed p) (p_written p ++ [(path, text)]))
  end.

Fixpoint protocol (p : pstate) (t : list event) : option pstate :=
  match t with
  | [] => Some p
  | e :: t => p' ← protocol_step p e; protocol p' t
  end.

Lemma protocol_app t1 t2 p : protocol p (t1 ++ t2) = (p' ← protocol p t1; protocol p' t2).
Proof. revert p. induction t1 as [|e t1 IH]; intros p; cbn; [done|]. destruct (protocol_step p e); cbn; [apply IH|done]. Qed.

(** ** Total correctness *)
Section Does.
Context {W : Type} `{!Host W, !HostLaws W}.

(** From [w] and the protocol state [p], [m] returns, its events keep the protocol, and
    [R] holds of the result, the world and the protocol state. *)
Definition does (w : world W) {A} (m : io W A) (p : pstate) (R : A -> world W -> pstate -> Prop) : Prop :=
  exists a w' t p', m w = Ret (a, w') /\ trace w' = trace w ++ t /\ now (host w) <= now (host w') /\
    protocol p t = Some p' /\ R a w' p'.

Lemma does_ret {A} w (a : A) p (R : A -> world W -> pstate -> Prop) : R a w p -> does w (mret a) p R.
Proof. intros HR. exists a, w, [], p. split_and!; try done. by rewrite app_nil_r. Qed.

Lemma does_bind {A C} w (m : io W A) (f : A -> io W C) p R :
  does w m p (fun a w' p' => does w' (f a) p' R) -> does w (m ≫= f) p R.
Proof.
  intros (a & w1 & t1 & p1 & E1 & T1 & N1 & P1 & (c & w2 & t2 & p2 & E2 & T2 & N2 & P2 & HR)).
  exists c, w2, (t1 ++ t2), p2. split_and!; [|by rewrite T2, T1, app_assoc|lia|by rewrite protocol_app, P1|done].
  unfold mbind, io_bind. by rewrite E1.
Qed.

Lemma does_mono {A} w (m : io W A) p (R R' : A -> world W -> pstate -> Prop) :
  does w m p R -> (forall a w' p', now (host w) <= now (host w') -> R a w' p' -> R' a w' p') -> does w m p R'.
Proof. intros (a & w' & t & p' & E & T & N & P & HR) H. exists a, w', t, p'. split_and!; auto. Qed.

Lemma does_lift {A} w (m : outcome A) a p (R : A -> world W -> pstate -> Prop) : m = Ret a -> R a w p -> does w (lift m) p R.
Proof. intros -> HR. exists a, w, [], p. split_and!; try done. by rewrite app_nil_r. Qed.

Lemma does_asks {A} w (f : W -> A) p (R : A -> world W -> pstate -> Prop) : R (f (host w)) w p -> does w (asks f) p R.
Proof. intros HR. exists (f (host w)), w, [], p. split_and!; try done. by rewrite app_nil_r. Qed.

Lemma does_Run w argv p (R : option bytes -> world W -> pstate -> Prop) :
  (forall err h, now (host w) <= now h -> exists p', protocol_step p (ERun argv err) = Some p' /\ R err (record (ERun argv err) h w) p') ->
  does w (Run argv) p R.
Proof.
  intros H. pose proof (clock_run (host w) argv) as Hc. unfold does, Run. destruct (run_command (host w) argv) as [err h].
  destruct (H err h Hc) as (p' & Hp & HR). eexists err, _, [_], p'. split_and!; try done. cbn [protocol]. by rewrite Hp.
Qed.

Lemma does_Output w argv p (R : bytes * option bytes -> world W -> pstate -> Prop) : tool_ok p argv = true ->
  (forall out err h, now (host w) <= now h -> R (out, err) (record (EOutput argv err) h w) p) -> does w (Output argv) p R.
Proof.
  intros Ht H. pose proof (clock_output (host w) argv) as Hc. unfold does, Output. destruct (command_output (host w) argv) as [[out err] h].
  eexists (out, err), _, [_], p. split_and!; try done; [cbn; by rewrite Ht|by apply H].
Qed.

Lemma does_Stderr w text p (R : unit -> world W -> pstate -> Prop) :
  R tt (record (EPrint Stderr text) (host w) w) p -> does w (Fprint Stderr text) p R.
Proof. intros HR. eexists tt, _, [_], p. split_and!; try done. Qed.

Lemma does_Sleep w d p (R : unit -> world W -> pstate -> Prop) : 0 <= d ->
  (forall h, now (host w) + d <= now h -> R tt (MkWorld h (trace w)) p) -> does w (Sleep d) p R.
Proof.
  intros Hd H. pose proof (clock_sleep (host w) d). eexists tt, _, [], p. split_and!; try done; [by rewrite app_nil_r|cbn; lia|by apply H].
Qed.

Lemma does_MkdirTemp w pattern p (R : bytes + bytes -> world W -> pstate -> Prop) : p_dir p = None ->
  (forall r w', match r with inl dir => R r w' (set_dir p (Some dir)) | inr _ => R r w' p end) -> does w (MkdirTemp pattern) p R.
Proof.
  intros Hd H. pose proof (clock_mkdir (host w) pattern) as Hc. unfold does, MkdirTemp. destruct (mkdir_temp (host w) pattern) as [[dir|err] h].
  - eexists (inl dir), _, [_], _. split_and!; try done; [cbn; by rewrite bool_decide_true|]. apply (H (inl dir)).
  - eexists (inr err), _, [], p. split_and!; try done; [by rewrite app_nil_r|]. apply (H (inr err)).
Qed.

Lemma does_RemoveAll w dir p (R : unit -> world W -> pstate -> Prop) : p_dir p = Some dir ->
  (forall w', R tt w' (set_dir p None)) -> does w (RemoveAll dir) p R.
Proof.
  intros Hd H. pose proof (clock_remove (host w) dir). eexists tt, _, [_], _. split_and!; try done. cbn. by rewrite bool_decide_true.
Qed.

Lemma does_WriteFile w path text p (R : option bytes -> world W -> pstate -> Prop) :
  (forall err w', R err w' (MkPState (p_running p) (p_dir p) (p_printed p) (p_written p ++ [(path, text)]))) -> does w (WriteFile path text) p R.
Proof.
  intros H. pose proof (clock_write (host w) path text) as Hc. unfold does, WriteFile. destruct (write_file (host w) path text) as [err h].
  eexists err, _, [_], _. split_and!; try done.
Qed.
End Does.

(** ** Medians return *)
Lemma MedianThroughput_total runs : exists out, MedianThroughput runs = Ret out.
Proof.
  unfold MedianThroughput. pose proof (tally_tallied runs) as [Hm _ He]. destruct (tally_runs runs) as [byCmd order]. cbn in Hm, He.
  destruct (median_rows_spec byCmd (Strings order)) as (out & Eo & _); [|by exists out].
  intros cmd Hin. rewrite Strings_perm, He in Hin. rewrite Hm. destruct (decide _) as [E%rows_nil|]; [done|eauto].
Qed.

Lemma MedianHitRatio_total runs : exists r, MedianHitRatio runs = Ret r.
Proof.
  destruct runs as [|r0 runs]; [by eexists|]. unfold MedianHitRatio. destruct (Median_total (HitRatio <$> r0 :: runs)) as [med ->]. by eexists.
Qed.

(** ** Measuring one server *)
Section Measure.
Context {W : Type} `{!Host W, !HostLaws W} (unicode_lower unicode_quote : bytes -> bytes) (csv_text : csv_err -> bytes) (json_text : bytes -> bytes).
Context (cfg : settings).

(** The protocol state of a measurement: the server runs, no directory is left. *)
Definition serving (p : pstate) (cname : bytes) : Prop := p_running p = Some cname /\ p_dir p = None.

Lemma serving_tool p cname argv : serving p cname -> cname ∈ argv -> tool_ok p argv = true.
Proof. intros [Hr _] Hin. unfold tool_ok. rewrite Hr. by apply bool_decide_eq_true. Qed.

(** One run leaves the protocol state and gives a parsed output. *)
Definition parsed_rows (trs : list ThroughputResult) : Prop := exists out, ParseRedisBench unicode_lower csv_text out = Ret (inl trs).

Definition parsed_hit (h : HitRatioResult) : Prop := exists raw, ParseMemtier json_text raw = inl h.

Lemma wait_loop_does net cname timeout deadline p fuel : serving p cname ->
  forall w, deadline - now (host w) <= Z.of_nat fuel * (500 * millisecond) ->
  does w (wait_loop cfg (S fuel) net cname timeout deadline) p (fun _ _ p' => p' = p).
Proof.
  intros Hp. induction fuel as [|fuel IH]; intros w Hf.
  all: cbn [wait_loop]; apply does_bind, does_asks; destruct (Z.ltb_spec (now (host w)) deadline); [|by apply does_ret].
  - lia.
  - apply does_bind, does_Output; [apply (serving_tool _ _ _ Hp); set_solver|]. intros out err h Hh.
    cbn [fst]. destruct (contains out (B "PONG")); [by apply does_ret|].
    apply does_bind, does_Sleep; [unfold millisecond; lia|]. cbn [host record]. intros h' Hh'. apply IH. cbn [host]. lia.
Qed.

Lemma waitReady_does w net cname p : serving p cname -> does w (waitReady cfg net cname (20 * second)) p (fun _ _ p' => p' = p).
Proof.
  intros Hp. unfold waitReady. apply does_bind, does_asks.
  replace (Z.to_nat (20 * second / (500 * millisecond)) + 2)%nat with 42%nat by (vm_compute; reflexivity).
  apply wait_loop_does; [done|]. unfold second, millisecond. lia.
Qed.

Lemma runRedisBenchOnce_does w net cname p : serving p cname ->
  does w (runRedisBenchOnce unicode_lower csv_text cfg net cname) p (fun r _ p' => p' = p /\ match r with inl trs => parsed_rows trs | inr _ => True end).
Proof.
  intros Hp. apply does_bind, does_Output; [apply (serving_tool _ _ _ Hp); set_solver|]. intros out [err|] h _; cbn [fst snd]; [by apply does_ret|].
  destruct (ParseRedisBench_cases unicode_lower csv_text out) as (r & Er & _). apply does_bind, (does_lift _ _ r); [done|]. apply does_ret.
  split; [done|]. destruct r; [by exists out|done].
Qed.

Lemma neutral_run p argv err : starts argv = None -> stops argv = None -> is_tool argv = false -> protocol_step p (ERun argv err) = Some p.
Proof. intros E1 E2 E3. cbn. by rewrite E1, E2, E3. Qed.

Lemma runMemtierOnce_does w net cname p : serving p cname ->
  does w (runMemtierOnce json_text cfg net cname) p (fun r _ p' => p' = p /\ match r with inl h => parsed_hit h | inr _ => True end).
Proof.
  intros Hp. apply does_bind, does_MkdirTemp; [apply Hp|]. intros [dir|err] w1; [|by apply does_ret].
  apply does_bind. apply (does_mono _ _ _ (fun r _ p' => p' = set_dir p (Some dir) /\ match r with inl h => parsed_hit h | inr _ => True end)).
  - apply does_bind, does_Run. intros err h _. exists (set_dir p (Some dir)). split.
    + cbn [protocol_step]. change (starts (memtier_benchmark cfg net cname dir)) with (@None bytes). change (stops (memtier_benchmark cfg net cname dir)) with (@None bytes).
      replace (tool_ok (set_dir p (Some dir)) (memtier_benchmark cfg net cname dir)) with true; [by rewrite andb_false_r|].
      symmetry. unfold tool_ok. cbn [set_dir p_running]. rewrite (proj1 Hp). apply bool_decide_eq_true. set_solver.
    + destruct err as [err|]; [by apply does_ret|]. apply does_bind, does_asks, does_ret. split; [done|].
      destruct (read_file _ _) as [raw|]; [|done]. destruct (ParseMemtier json_text raw) eqn:E; [by exists raw|done].
  - intros r w2 p2 _ [-> Hr]. apply does_bind, does_RemoveAll; [done|]. intros w3. apply does_ret. split; [|done].
    destruct p as [run d pr wr]. destruct Hp as [_ Hd]. cbn in Hd. by subst.
Qed.

(** The measured runs: as many as asked for, each from its own output. *)
Lemma repeat_runs_does {A} (P : A -> Prop) n (once : io W (A + bytes)) p :
  (forall w, does w once p (fun r _ p' => p' = p /\ match r with inl a => P a | inr _ => True end)) ->
  forall w runs, does w (repeat_runs n once runs) p (fun r _ p' => p' = p /\
    match r with inl l => exists l', l = runs ++ l' /\ length l' = n /\ Forall P l' | inr _ => True end).
Proof.
  intros Honce. induction n as [|n IH]; intros w runs; cbn [repeat_runs].
  - apply does_ret. split; [done|]. exists []. by rewrite app_nil_r.
  - apply does_bind. eapply does_mono; [apply Honce|]. intros [a|err] w' p' _ [-> Ha]; [|by apply does_ret].
    eapply does_mono; [apply IH|]. intros [l|err] w2 p2 _ [-> Hl]; [|done]. split; [done|]. destruct Hl as (l' & -> & Hl & HP).
    exists (a :: l'). split_and!; [by rewrite <- app_assoc|cbn; lia|by constructor].
Qed.

(** What a result is made of: medians over the asked number of parsed outputs. *)
Definition measured_rows (trs : list ThroughputResult) : Prop :=
  exists runs, Z.of_nat (length runs) = repeats cfg /\ Forall parsed_rows runs /\ MedianThroughput runs = Ret trs.

Definition measured_hit (h : HitRatioResult) : Prop :=
  exists runs, Z.of_nat (length runs) = repeats cfg /\ Forall parsed_hit runs /\ MedianHitRatio runs = Ret h.

Definition measured (s : serverSpec W) (r : Result) : Prop :=
  Server r = name s /\ measured_rows (Throughput r) /\ exists h, Hit r = Some h /\ measured_hit h.

(** The number of repeats is positive, and the slices it sizes fit in memory. *)
Context (Hreps : 0 < repeats cfg) (Hmem : 56 * repeats cfg <= maxAlloc).

Lemma make_cap_ok size : 0 <= size <= 56 -> make_cap size (repeats cfg) = Ret tt.
Proof. intros. unfold make_cap. destruct (Z.ltb_spec (repeats cfg) 0); [lia|]. destruct (Z.ltb_spec maxAlloc (size * repeats cfg)); [nia|done]. Qed.

Lemma medianRedisBench_does w net cname p : serving p cname ->
  does w (medianRedisBench unicode_lower csv_text cfg net cname) p (fun r _ p' => p' = p /\ match r with inl trs => measured_rows trs | inr _ => True end).
Proof.
  intros Hp. apply does_bind. eapply does_mono; [by apply runRedisBenchOnce_does|]. intros [trs|err] w1 p1 _ [-> _]; [|by apply does_ret].
  apply does_bind, (does_lift _ _ tt); [by apply make_cap_ok|]. apply does_bind.
  eapply does_mono; [apply (repeat_runs_does parsed_rows); intros; by apply runRedisBenchOnce_does|].
  intros [runs|err] w2 p2 _ [-> Hr]; [|by apply does_ret]. destruct Hr as (l & -> & Hl & HP). cbn [app].
  destruct (MedianThroughput_total l) as [out Eo]. apply does_bind, (does_lift _ _ out); [done|]. apply does_ret.
  split; [done|]. exists l. split_and!; [lia|done|done].
Qed.

Lemma medianMemtier_does w net cname p : serving p cname ->
  does w (medianMemtier json_text cfg net cname) p (fun r _ p' => p' = p /\ match r with inl h => measured_hit h | inr _ => True end).
Proof.
  intros Hp. apply does_bind. eapply does_mono; [by apply runMemtierOnce_does|]. intros [h|err] w1 p1 _ [-> _]; [|by apply does_ret].
  apply does_bind, (does_lift _ _ tt); [by apply make_cap_ok|]. apply does_bind.
  eapply does_mono; [apply (repeat_runs_does parsed_hit); intros; by apply runMemtierOnce_does|].
  intros [runs|err] w2 p2 _ [-> Hr]; [|by apply does_ret]. destruct Hr as (l & -> & Hl & HP). cbn [app].
  destruct (MedianHitRatio_total l) as [out Eo]. apply does_bind, (does_lift _ _ out); [done|]. apply does_ret.
  split; [done|]. exists l. split_and!; [lia|done|done].
Qed.

Lemma measure_server_does w net s p : serving p (containerName (name s)) ->
  does w (measure_server unicode_lower csv_text json_text cfg net s) p (fun r _ p' => p' = p /\ match r with inl r => measured s r | inr _ => True end).
Proof.
  intros Hp. apply does_bind. eapply does_mono; [by apply waitReady_does|]. intros [err|] w1 p1 _ ->; [by apply does_ret|].
  apply does_bind. eapply does_mono; [by apply medianRedisBench_does|]. intros [trs|err] w2 p2 _ [-> Hr]; [|by apply does_ret].
  apply does_bind. eapply does_mono; [by apply medianMemtier_does|]. intros [h|err] w3 p3 _ [-> Hh]; [|by apply does_ret].
  apply does_ret. split; [done|]. split_and!; [done|done|by exists h].
Qed.

(** A server whose command starts the container of its name. *)
Definition well_declared (s : serverSpec W) : Prop := forall net h, starts (runArgs s net h) = Some (containerName (name s)).

Definition idle (p : pstate) : Prop := p_running p = None /\ p_dir p = None.

Lemma execMeasurer_does w net s p : well_declared s -> idle p ->
  does w (execMeasurer unicode_lower csv_text json_text cfg net s) p (fun r _ p' => p' = p /\ match r with inl r => measured s r | inr _ => True end).
Proof.
  intros Hs Hp. unfold execMeasurer, startServer. apply does_bind, does_bind.
  apply (does_mono _ _ _ (fun _ _ p' => p' = p)); [case_bool_decide; [by apply does_asks|by apply does_ret]|].
  intros [err|] w1 p1 _ ->; [by do 2 apply does_ret|]. apply does_bind, does_asks. specialize (Hs net (host w1)).
  destruct (runArgs s net (host w1)) as [|a argv]; [done|]. apply does_bind, does_Run. intros err h _.
  cbn [protocol_step]. rewrite Hs, bool_decide_true by apply Hp. eexists. split; [done|]. destruct err as [err|]; [by do 2 apply does_ret|].
  rewrite bool_decide_true by done. apply does_ret, does_bind. eapply does_mono; [apply measure_server_does; split; [done|apply Hp]|].
  intros r w2 p2 _ [-> Hr]. apply does_bind, does_bind, does_Run. intros err h' _. eexists. split.
  { cbn [protocol_step]. change (starts [B "docker"; B "stop"; containerName (name s)]) with (@None bytes).
    change (stops [B "docker"; B "stop"; containerName (name s)]) with (Some (containerName (name s))).
    cbn [set_running p_running]. by rewrite bool_decide_true. }
  apply does_ret, does_ret. split; [|done]. destruct p as [run d pr wr]. destruct Hp as [Hrun _]. cbn in Hrun. by subst.
Qed.
End Measure.

(** ** Planning and comparing *)
Section Plan.
Context {W : Type} `{!Host W, !HostLaws W} (unicode_lower unicode_quote : bytes -> bytes) (csv_text : csv_err -> bytes) (json_text : bytes -> bytes).
Context (cfg : settings).

(** Looking for Docker and images touches no server. *)
Definition polite (lk : lookup (W := W)) : Prop :=
  (forall w p, does w (hasDocker lk) p (fun _ _ p' => p' = p)) /\
  (forall w p img, does w (hasImage lk img) p (fun _ _ p' => p' = p)).

(** A command that is none of the automaton's. *)
Lemma does_neutral w argv p (R : option bytes -> world W -> pstate -> Prop) :
  starts argv = None -> stops argv = None -> is_tool argv = false -> (forall err w', R err w' p) -> does w (Run argv) p R.
Proof. intros E1 E2 E3 HR. apply does_Run. intros err h _. exists p. split; [by apply neutral_run|apply HR]. Qed.

Lemma realLookup_polite : polite realLookup.
Proof.
  split.
  - intros w p. cbn [hasDocker realLookup]. apply does_bind, does_asks. destruct (look_path _ _); [|by apply does_ret].
    apply does_bind, does_neutral; [done..|]. intros err w'. by apply does_ret.
  - intros w p img. cbn [hasImage realLookup]. apply does_bind, does_neutral; [done..|]. intros err w'.
    case_bool_decide; [by apply does_ret|]. apply does_bind, does_Stderr, does_bind, does_neutral; [done..|]. intros err' w2. by apply does_ret.
Qed.

Lemma available_does lk imgs w p : polite lk -> does w (available lk imgs) p (fun _ _ p' => p' = p).
Proof.
  intros [Hd Hi]. apply does_bind. eapply does_mono; [apply Hd|]. intros [|] w1 p1 _ ->; [|by apply does_ret]. cbn [negb].
  revert w1. induction imgs as [|img imgs IH]; intros w1; cbn [all_images]; [by apply does_ret|].
  case_bool_decide; [apply IH|]. apply does_bind. eapply does_mono; [apply Hi|]. intros [|] w2 p2 _ ->; [apply IH|by apply does_ret].
Qed.

Lemma make_plan_does lk specs p : polite lk -> forall w p0, does w (make_plan cfg p0 specs lk) p (fun pl _ p' => p' = p /\
  exists r sk, run pl = run p0 ++ r /\ skipped pl = skipped p0 ++ sk /\ r `sublist_of` specs /\ (name <$> r) ++ sk ≡ₚ name <$> specs).
Proof.
  intros Hlk. induction specs as [|s specs IH]; intros w p0; cbn [make_plan].
  - apply does_ret. split; [done|]. exists [], []. by rewrite !app_nil_r.
  - apply does_bind. eapply does_mono; [by apply available_does|]. intros ok w1 p1 _ ->.
    eapply does_mono; [apply IH|]. intros pl w2 p2 _ [-> (r & sk & Hr & Hs & Hsub & Hperm)]. split; [done|]. destruct ok; cbn [run skipped] in *.
    + exists (s :: r), sk. rewrite Hr, <- app_assoc. split_and!; [done|done|by apply sublist_skip|]. cbn. by rewrite Hperm.
    + exists r, (name s :: sk). rewrite Hs, <- app_assoc. split_and!; [done|done|by apply sublist_cons|].
      rewrite <- Permutation_middle. cbn. by rewrite Hperm.
Qed.

Lemma print_skipped_does names p : forall w, does w (print_skipped Stderr names) p (fun _ _ p' => p' = p).
Proof. induction names as [|n names IH]; intros w; cbn [print_skipped]; [by apply does_ret|]. by apply does_bind, does_Stderr, IH. Qed.

(** Every server of a run is accounted for: measured, in the order of the run, or
    skipped. *)
Definition accounted (specs : list (serverSpec W)) (suite : Suite) : Prop :=
  (Server <$> Results suite) `sublist_of` (name <$> specs) /\
  (Server <$> Results suite) ++ Skipped suite ≡ₚ name <$> specs /\
  forall r, r ∈ Results suite -> exists s, s ∈ specs /\ measured unicode_lower csv_text json_text cfg s r.

Lemma compare_loop_does (measure : measurer (W := W)) p specs :
  (forall w s, s ∈ specs -> does w (measure s) p (fun r _ p' => p' = p /\ match r with inl r => measured unicode_lower csv_text json_text cfg s r | inr _ => True end)) ->
  forall w suite, does w (compare_loop Stderr suite specs measure) p (fun suite' _ p' => p' = p /\
    exists rs sk, suite' = MkSuite (Results suite ++ rs) (Skipped suite ++ sk) /\ accounted specs (MkSuite rs sk)).
Proof.
  intros Hm. induction specs as [|s specs IH]; intros w suite; cbn [compare_loop].
  - apply does_ret. split; [done|]. exists [], []. rewrite !app_nil_r. split; [by destruct suite|]. split_and!; [done|done|]. by intros r ?%elem_of_nil.
  - assert (forall w' s', s' ∈ specs -> does w' (measure s') p (fun r _ p' => p' = p /\ match r with inl r => measured unicode_lower csv_text json_text cfg s' r | inr _ => True end)) as Hm' by (intros; apply Hm; by right).
    apply does_bind, does_Stderr, does_bind. eapply does_mono; [apply Hm; by left|]. intros [r|err] w1 p1 _ [-> Hr].
    + eapply does_mono; [by apply IH|]. intros suite' w2 p2 _ [-> (rs & sk & -> & Hsub & Hperm & Hmeas)]. split; [done|].
      exists (r :: rs), sk. cbn [Results Skipped] in *. rewrite <- app_assoc. split; [done|]. destruct Hr as (Hn & Hrest). split_and!; cbn.
      * rewrite Hn. by apply sublist_skip.
      * by rewrite Hn, Hperm.
      * intros r' [->|Hin]%elem_of_cons; [exists s; split; [by left|by split]|]. destruct (Hmeas r' Hin) as (s' & Hs' & ?). exists s'. split; [by right|done].
    + apply does_bind, does_Stderr. eapply does_mono; [by apply IH|]. intros suite' w2 p2 _ [-> (rs & sk & -> & Hsub & Hperm & Hmeas)]. split; [done|].
      exists rs, (name s :: sk). cbn [Results Skipped] in *. rewrite <- app_assoc. split; [done|]. split_and!; cbn.
      * by apply sublist_cons.
      * by rewrite <- Permutation_middle, Hperm.
      * intros r' Hin. destruct (Hmeas r' Hin) as (s' & Hs' & ?). exists s'. split; [by right|done].
Qed.

Context (Hreps : 0 < repeats cfg) (Hmem : 56 * repeats cfg <= maxAlloc).

Lemma runCompare_does w specs lk net p : polite lk -> Forall well_declared specs -> idle p ->
  does w (runCompare cfg Stderr specs lk (execMeasurer unicode_lower csv_text json_text cfg net)) p (fun suite _ p' => p' = p /\ accounted specs suite).
Proof.
  intros Hlk Hs Hp. apply does_bind. eapply does_mono; [by apply make_plan_does|]. intros pl w1 p1 _ [-> (r & sk & Hr & Hk & Hsub & Hperm)].
  cbn [run skipped app] in *. apply does_bind. eapply does_mono; [apply print_skipped_does|]. intros _ w2 p2 _ ->.
  eapply does_mono; [apply compare_loop_does|].
  { intros w' s Hin. apply execMeasurer_does; try done. rewrite Hr in Hin. eapply Forall_forall; [exact Hs|]. by eapply elem_of_sublist. }
  intros suite w3 p3 _ [-> (rs & sk' & -> & Hsub' & Hperm' & Hmeas)]. split; [done|]. cbn [Results Skipped app] in *. rewrite Hr in *. subst sk.
  split_and!; cbn [Results Skipped].
  - etrans; [exact Hsub'|]. by apply fmap_sublist.
  - rewrite <- Hperm, <- Hperm'. rewrite <- app_assoc. apply Permutation_app_head, Permutation_app_comm.
  - intros r' Hin. destruct (Hmeas r' Hin) as (s' & Hs' & ?). exists s'. split; [by eapply elem_of_sublist|done].
Qed.
End Plan.
