(* ===== verification/CompareProps.v ===== *)
(** * The benchmark driver: theorems

    The whole program on any lawful host, the choice of servers, and the results
    document. *)
From S2P Require Import Prelude Hash Resp Float Server Flags FloatText Csv Bench BenchSpec RedisBench Json Memtier Driver Compare CompareSpec.

Section Program.
Context {W : Type} `{!Host W, !HostLaws W} (unicode_lower unicode_quote : bytes -> bytes) (csv_text : csv_err -> bytes) (json_text : bytes -> bytes).
Context (lookupEnv : bytes -> option bytes).

(** ** The choice of servers *)

(** The servers asked for: all of them when nothing is. *)
Definition selected (specs : list (serverSpec W)) (only : bytes) : list (serverSpec W) :=
  let only := TrimSpace only in
  if bool_decide (only = []) then specs
  else filter (fun s => name s <> [] /\ name s ∈ TrimSpace <$> Split only x2c) specs.

Lemma want_names_does specs known names p : forall w want, does w (want_names unicode_quote specs known want names Stderr) p (fun want' _ p' => p' = p /\
  forall n, n ∈ want' <-> n ∈ want \/ n <> [] /\ n ∈ TrimSpace <$> names).
Proof.
  induction names as [|n names IH]; intros w want; cbn [want_names].
  - apply does_ret. split; [done|]. set_solver.
  - case_bool_decide as Hn.
    + eapply does_mono; [apply IH|]. intros want' w' p' _ [-> H]. split; [done|]. intros m. rewrite H. cbn. rewrite elem_of_cons. naive_solver.
    + apply does_bind. apply (does_mono _ _ _ (fun _ _ p' => p' = p)); [case_bool_decide; [by apply does_ret|by apply does_Stderr]|].
      intros _ w1 p1 _ ->. eapply does_mono; [apply IH|]. intros want' w' p' _ [-> H]. split; [done|]. intros m. rewrite H. cbn.
      rewrite elem_of_cons, elem_of_union, elem_of_singleton. naive_solver.
Qed.

Lemma filterServers_does specs only p w :
  does w (filterServers unicode_quote specs only Stderr) p (fun l _ p' => p' = p /\ l = selected specs only).
Proof.
  unfold filterServers, selected. case_bool_decide; [by apply does_ret|]. apply does_bind. eapply does_mono; [apply want_names_does|].
  intros want w' p' _ [-> H']. apply does_ret. split; [done|]. apply list_filter_iff. intros s. rewrite H'. set_solver.
Qed.

(** ** Settings *)
Lemma benchEnvInt_does key def p w : 0 < def -> does w (benchEnvInt unicode_quote lookupEnv key def) p (fun n _ p' => p' = p /\ 0 < n /\
  (n = def \/ exists v, lookupEnv key = Some v /\ ParseInt v = Some n)).
Proof.
  intros Hd. unfold benchEnvInt. destruct (lookupEnv key) as [v|]; [|apply does_ret; auto].
  destruct (ParseInt v) as [n|] eqn:E; [destruct (Z.leb_spec n 0)|]; [apply does_bind, does_Stderr|..|apply does_bind, does_Stderr]; apply does_ret; eauto 10.
Qed.

Lemma pick_pos full quick : 0 < full -> 0 < quick -> 0 < pick lookupEnv full quick.
Proof. unfold pick. by destruct (benchQuick lookupEnv). Qed.

(** The repeats asked for fit in memory. *)
Definition repeats_fit : Prop := forall v n, lookupEnv (B "BENCH_REPEATS") = Some v -> ParseInt v = Some n -> 56 * n <= maxAlloc.

Lemma init_settings_does p w : repeats_fit -> does w (init_settings unicode_quote lookupEnv) p (fun cfg _ p' => p' = p /\ 0 < repeats cfg /\ 56 * repeats cfg <= maxAlloc).
Proof.
  intros Hfit. unfold init_settings.
  do 6 (apply does_bind; eapply does_mono; [apply benchEnvInt_does; first [apply pick_pos; lia|lia]|]; intros ? ? ? _ [-> [? ?]]).
  apply does_ret. split; [done|]. cbn [repeats]. split; [done|].
  match goal with H : _ = pick lookupEnv 3 1 \/ _ |- _ => destruct H as [->|(v & Hv & Hn)] end; [|by apply (Hfit v)].
  unfold pick. destruct (benchQuick lookupEnv); vm_compute; discriminate.
Qed.

Lemma servers_declared (cfg : settings) : Forall (well_declared (W := W)) (servers cfg).
Proof. repeat (constructor; [intros net h; reflexivity|]). constructor. Qed.

(** ** Cleaning up *)
Definition argv_of (e : event) : list bytes := match e with ERun argv _ => argv | _ => [] end.

Definition removal (s : serverSpec W) : list bytes := [B "docker"; B "rm"; B "-f"; containerName (name s)].

Lemma cleanup_does specs p : forall w, does w (cleanupContainers specs) p (fun _ w' p' => p' = p /\
  exists t, trace w' = trace w ++ t /\ argv_of <$> t = removal <$> specs).
Proof.
  induction specs as [|s specs IH]; intros w; cbn [cleanupContainers].
  - apply does_ret. split; [done|]. exists []. by rewrite app_nil_r.
  - apply does_bind, does_Run. intros err h _. exists p. split; [by apply neutral_run|]. eapply does_mono; [apply IH|].
    intros _ w' p' _ [-> (t & Ht & Ha)]. split; [done|]. eexists (_ :: t). cbn [record trace] in Ht. rewrite Ht, <- app_assoc. split; [done|]. cbn. by rewrite Ha.
Qed.

(** The last events of a run: every server container and the network are removed. *)
Definition cleaned (cfg : settings) (w : world W) : Prop :=
  exists t0 t, trace w = t0 ++ t /\ argv_of <$> t = (removal <$> servers cfg) ++ [[B "docker"; B "network"; B "rm"; benchNetwork]].

Lemma ensureNetwork_does name p w : does w (ensureNetwork name) p (fun _ _ p' => p' = p).
Proof.
  apply does_bind, does_neutral; [done..|]. intros err w'. case_bool_decide; [by apply does_ret|]. by apply does_neutral.
Qed.

(** ** The results document *)

(** The document is written only on a full run with results, and then the table is put
    between the markers of the content read. *)
Definition published (suite : Suite) (p p' : pstate) : Prop :=
  p_running p' = p_running p /\ p_dir p' = p_dir p /\ p_printed p' = p_printed p /\
  (p_written p' = p_written p \/
   benchQuick lookupEnv = false /\ Getenv lookupEnv (B "BENCH_ONLY") = [] /\ Results suite <> [] /\
   exists content text, spliced content (RenderTable suite) = Some text /\ p_written p' = p_written p ++ [(Getenv lookupEnv (B "BENCH_DOC"), text)]).

Lemma publish_does suite p w : does w (publish lookupEnv suite (RenderTable suite)) p (fun _ _ p' => published suite p p').
Proof.
  unfold publish. assert (published suite p p) as Hsame by (split_and!; auto). case_bool_decide; [by apply does_ret|].
  destruct (benchQuick lookupEnv) eqn:Eq; [by apply does_Stderr|]. cbn [orb]. case_bool_decide as Ho; [by apply does_Stderr|].
  case_bool_decide as Hr; [by apply does_Stderr|]. apply does_bind.
  apply (does_mono _ _ _ (fun _ _ p' => published suite p p')); [|intros [err|] w' p' _ Hp; [by apply does_Stderr|by apply does_ret]].
  unfold spliceDoc. apply does_bind, does_asks. destruct (read_file _ _) as [content|err]; [|by apply does_ret].
  destruct (spliced content (RenderTable suite)) as [text|] eqn:Es; [|by apply does_ret]. apply does_WriteFile. intros err w'.
  split_and!; try done. right. split_and!; [done|destruct (Getenv lookupEnv (B "BENCH_ONLY")); [done|by destruct Ho]|done|]. by exists content, text.
Qed.

(** ** The program *)
Lemma bench_main_does cfg p w : 0 < repeats cfg -> 56 * repeats cfg <= maxAlloc -> idle p ->
  does w (bench_main unicode_lower unicode_quote csv_text json_text lookupEnv cfg) p (fun _ w' p' =>
    exists suite p1, accounted unicode_lower csv_text json_text cfg (selected (servers cfg) (Getenv lookupEnv (B "BENCH_ONLY"))) suite /\
      p1 = MkPState (p_running p) (p_dir p) (p_printed p ++ [RenderTable suite ++ [LF]]) (p_written p) /\
      published suite p1 p' /\ cleaned cfg w').
Proof.
  intros Hreps Hmem Hp. unfold bench_main. apply does_bind. eapply does_mono; [apply filterServers_does|]. intros specs w1 p1 _ [-> ->].
  apply does_bind. eapply does_mono; [apply cleanup_does|]. intros _ w2 p2 _ [-> _].
  apply does_bind. eapply does_mono; [apply ensureNetwork_does|]. intros err w3 p3 _ ->.
  apply does_bind. apply (does_mono _ _ _ (fun _ _ p' => p' = p)); [destruct err; [by apply does_Stderr|by apply does_ret]|]. intros _ w4 p4 _ ->.
  apply does_bind. eapply does_mono; [apply runCompare_does; [done|done|apply realLookup_polite| |done]|].
  { unfold selected. case_bool_decide; [apply servers_declared|]. apply Forall_forall. intros s [_ Hs]%list_elem_of_filter.
    eapply Forall_forall; [apply servers_declared|done]. }
  intros suite w5 p5 _ [-> Hacc]. apply does_bind. eexists tt, _, [_], _. split; [done|]. split; [done|]. split; [done|]. split; [done|].
  apply does_bind. eapply does_mono; [apply publish_does|]. intros u6 w6 p6 _ Hpub. cbv beta in Hpub. clear u6.
  apply does_bind. eapply does_mono; [apply cleanup_does|]. intros _ w7 p7 _ [-> (t & Ht & Ha)].
  apply does_bind, does_Run. intros err' h _. exists p6. split; [by apply neutral_run|]. apply does_ret.
  exists suite. eexists. split; [done|]. split; [done|]. split; [done|]. eexists (trace w6), (t ++ [_]). cbn [record trace].
  rewrite Ht, <- app_assoc. split; [done|]. by rewrite fmap_app, Ha.
Qed.
End Program.

(** C22. The benchmark driver.  On any host whose clock runs forwards, with any
    environment whose number of repeats fits in memory, the program returns: its events
    keep the protocol (one server container at a time, stopped before the next starts;
    tools only against the running one; temporary directories removed), standard
    output is the rendered table of a suite in which every selected server is either
    measured, from medians over the asked number of parsed outputs, or skipped; the
    document is written only on a full run with results; and the last commands remove
    every container and the network. *)
Theorem driver_safe {W : Type} `{!Host W, !HostLaws W} (unicode_lower unicode_quote : bytes -> bytes) (csv_text : csv_err -> bytes)
    (json_text : bytes -> bytes) (lookupEnv : bytes -> option bytes) (w : world W) :
  repeats_fit lookupEnv ->
  exists w' t p' cfg suite, bench_program unicode_lower unicode_quote csv_text json_text lookupEnv w = Ret (tt, w') /\
    trace w' = trace w ++ t /\ protocol (MkPState None None [] []) t = Some p' /\ idle p' /\
    p_printed p' = [RenderTable suite ++ [LF]] /\
    accounted unicode_lower csv_text json_text cfg (selected (servers cfg) (Getenv lookupEnv (B "BENCH_ONLY"))) suite /\
    (p_written p' = [] \/
     benchQuick lookupEnv = false /\ Getenv lookupEnv (B "BENCH_ONLY") = [] /\ Results suite <> [] /\
     exists content text, spliced content (RenderTable suite) = Some text /\ p_written p' = [(Getenv lookupEnv (B "BENCH_DOC"), text)]) /\
    cleaned cfg w'.
Proof.
  intros Hfit. assert (does w (bench_program unicode_lower unicode_quote csv_text json_text lookupEnv) (MkPState None None [] []) (fun _ w' p' =>
    exists cfg suite, idle p' /\ p_printed p' = [RenderTable suite ++ [LF]] /\
    accounted unicode_lower csv_text json_text cfg (selected (servers cfg) (Getenv lookupEnv (B "BENCH_ONLY"))) suite /\
    (p_written p' = [] \/
     benchQuick lookupEnv = false /\ Getenv lookupEnv (B "BENCH_ONLY") = [] /\ Results suite <> [] /\
     exists content text, spliced content (RenderTable suite) = Some text /\ p_written p' = [(Getenv lookupEnv (B "BENCH_DOC"), text)]) /\
    cleaned cfg w')) as Hd.
  { unfold bench_program. apply does_bind. eapply does_mono; [by apply init_settings_does|]. intros cfg w1 p1 _ [-> [Hreps Hmem]].
    eapply does_mono; [by apply bench_main_does|]. intros _ w2 p2 _ (suite & p1 & Hacc & -> & (Hr & Hd & Hpr & Hw) & Hc).
    cbn [p_running p_dir p_printed p_written app] in *. exists cfg, suite. split_and!; done. }
  destruct Hd as ([] & w' & t & p' & E & T & _ & P & cfg & suite & Hall). exists w', t, p', cfg, suite. destruct Hall as (H1 & H2 & H3 & H4 & H5). split_and!; done.
Qed.

(** ** Witness *)

(** A host where every command succeeds, and the tools print fixed reports; its state is
    the clock. *)
#[local] Instance demo_host : Host Z := {|
  look_path _ _ := true;
  run_command t _ := (None, t + 1);
  command_output t argv := ((if bool_decide (B "ping" ∈ argv) then B "PONG" else B "GET,1000" ++ [LF] ++ B "SET,500" ++ [LF], None), t + 1);
  stat _ _ := None;
  getwd _ := Some (B "/src/");
  mkdir_temp t pattern := (inl (B "/tmp/" ++ pattern), t);
  remove_all t _ := t;
  read_file _ path := inl (if bool_decide (path = B "doc.md")
    then B "a <!-- BENCH:TABLE:START --><!-- BENCH:TABLE:END --> z"
    else [x7b; x22] ++ B "ALL STATS" ++ [x22; x3a; x7b; x22] ++ B "Totals" ++ [x22; x3a; x7b; x22] ++ B "Hits/sec" ++ [x22] ++ B ":3, " ++
      [x22] ++ B "Misses/sec" ++ [x22] ++ B ":1}}}");
  write_file t _ _ := (None, t);
  now t := t;
  sleep t d := t + d |}.

#[local] Instance demo_host_laws : HostLaws Z.
Proof. split; intros; cbn; lia. Qed.

Definition demo_env (key : bytes) : option bytes :=
  if bool_decide (key = B "BENCH_REPEATS") then Some (B "2") else if bool_decide (key = B "BENCH_DOC") then Some (B "doc.md") else None.

(** On it all four servers are measured and the document is written. *)
Example demo_run : exists w p, bench_program (fun b => b) (fun b => b) (fun _ => []) (fun _ => []) demo_env (MkWorld 0 []) = Ret (tt, w) /\
  protocol (MkPState None None [] []) (trace w) = Some p /\ length (p_printed p) = 1%nat /\ fst <$> p_written p = [B "doc.md"].
Proof.
  eexists _, _. split; [vm_compute; reflexivity|]. split; [vm_compute; reflexivity|]. split; reflexivity.
Qed.

(** A number of repeats beyond memory is accepted, and ends the program by a panic. *)
Example huge_repeats_panic :
  bench_program (fun b => b) (fun b => b) (fun _ => []) (fun _ => [])
    (fun key => if bool_decide (key = B "BENCH_REPEATS") then Some (B "9223372036854775807") else None) (MkWorld 0 []) = Panic.
Proof. vm_compute. reflexivity. Qed.

Lemma driver_safe_witness : exists w, bench_program (fun b => b) (fun b => b) (fun _ => []) (fun _ => []) demo_env (MkWorld 0 []) = Ret (tt, w).
Proof.
  destruct (driver_safe (fun b => b) (fun b => b) (fun _ => []) (fun _ => []) demo_env (MkWorld 0 [])) as (w & t & p & cfg & suite & E & _).
  - intros v n Hv Hn. vm_compute in Hv. injection Hv as <-. vm_compute in Hn. injection Hn as <-. vm_compute. discriminate.
  - by exists w.
Defined.
