(* ===== verification/Splice.v ===== *)
(** * The results document ([spliceDoc] in [cmd/cmbench/main.go])

    What splicing a table between the markers does to the rest of the document. *)
From S2P Require Import Prelude Hash Resp Float Server Flags FloatText Csv Bench BenchSpec RespSpec RedisBench Memtier Driver Compare.

(** ** Occurrences *)

(** [sub] occurs in [s] at [j]. *)
Definition occurs (s sub : bytes) (j : nat) : Prop := forall k c, sub !! k = Some c -> s !! (j + k)%nat = Some c.

Lemma has_prefix_occurs sub s j : has_prefix sub (drop j s) = true <-> occurs s sub j.
Proof.
  unfold has_prefix, occurs. rewrite bool_decide_eq_true. split.
  - intros E k c Hk. rewrite <- E in Hk. rewrite <- lookup_drop. assert (k < length sub)%nat as Hlt.
    { apply lookup_lt_Some in Hk. rewrite length_take in Hk. lia. }
    by rewrite lookup_take_lt in Hk.
  - intros H. apply list_eq. intros k. destruct (decide (k < length sub)%nat) as [Hk|Hk].
    + destruct (lookup_lt_is_Some_2 sub k Hk) as [c Hc]. rewrite lookup_take_lt, lookup_drop, Hc by done. by apply H.
    + rewrite lookup_take_ge, lookup_ge_None_2 by lia. done.
Qed.

Lemma Index_spec sub s i : sub <> [] -> (Index s sub = Some i <-> occurs s sub i /\ forall j, (j < i)%nat -> ~ occurs s sub j).
Proof.
  intros Hne. revert i. induction s as [|c s IH]; intros i.
  - assert (~ occurs [] sub i) as Hno. { destruct sub as [|c sub]; [done|]. intros H. by specialize (H 0%nat c eq_refl). }
    cbn [Index]. replace (has_prefix sub []) with false; [by split; [|intros [? _]]|]. unfold has_prefix. rewrite take_nil. by destruct sub.
  - cbn [Index]. destruct (has_prefix sub (c :: s)) eqn:Ep.
    + apply (has_prefix_occurs sub (c :: s) 0) in Ep. split; [by intros [= <-]; split; [|lia]|]. intros [Ho Hm]. destruct i; [done|]. by destruct (Hm 0%nat ltac:(lia)).
    + assert (~ occurs (c :: s) sub 0) as Hno by (intros H%has_prefix_occurs; rewrite drop_0 in H; congruence).
      destruct i as [|i]; [split; [by intros (? & _ & [=])%fmap_Some|by intros [? _]]|].
      transitivity (Index s sub = Some i); [split; [by intros (? & -> & [= ->])%fmap_Some|by intros ->]|]. rewrite IH.
      split; intros [Ho Hm]; (split; [exact Ho|]).
      * intros [|j] Hj; [done|]. apply (Hm j). lia.
      * intros j Hj. apply (Hm (S j)). lia.
Qed.

(** ** The markers *)
Lemma start_bracket k : tableStart !! k = Some x3c -> k = 0%nat.
Proof. do 27 (destruct k as [|k]; [vm_compute; congruence|]). done. Qed.

Lemma end_no_newline k : tableEnd !! k <> Some LF.
Proof. do 25 (destruct k as [|k]; [vm_compute; congruence|]). done. Qed.

(** The end marker does not begin inside the start marker. *)
Lemma markers_apart s si ei : occurs s tableStart si -> occurs s tableEnd ei -> (si <= ei)%nat -> (si + length tableStart <= ei)%nat.
Proof.
  intros Hs He Hle. destruct (decide (si + length tableStart <= ei)%nat) as [|Hlt]; [done|]. exfalso.
  specialize (He 0%nat x3c eq_refl) as H0. rewrite Nat.add_0_r in H0.
  destruct (lookup_lt_is_Some_2 tableStart (ei - si)) as [c Hc]; [lia|]. pose proof (Hs _ _ Hc) as H1.
  replace (si + (ei - si))%nat with ei in H1 by lia. rewrite H0 in H1. injection H1 as <-. apply start_bracket in Hc.
  assert (ei = si) as -> by lia. specialize (Hs 17%nat x53 eq_refl). specialize (He 17%nat x45 eq_refl). congruence.
Qed.

Lemma contains_spec sub s : sub <> [] -> (contains s sub = false <-> forall j, ~ occurs s sub j).
Proof.
  intros Hne. induction s as [|c s IH].
  - cbn. unfold has_prefix. rewrite take_nil. split; [|by destruct sub]. intros _ j H. destruct sub as [|c sub]; [done|]. by specialize (H 0%nat c eq_refl).
  - cbn [contains]. rewrite orb_false_iff, IH, <- not_true_iff_false. rewrite <- (drop_0 (c :: s)) at 1. rewrite has_prefix_occurs. split.
    + intros [H0 H] [|j]; [done|apply (H j)].
    + intros H. split; [apply H|]. intros j. apply (H (S j)).
Qed.

Lemma occurs_prefix p x y sub j : (j + length sub <= length p)%nat -> occurs (p ++ x) sub j -> occurs (p ++ y) sub j.
Proof. intros Hl H k c Hk. pose proof (lookup_lt_Some _ _ _ Hk). specialize (H k c Hk). rewrite lookup_app_l in * by lia. done. Qed.

Lemma occurs_shift p s sub j : occurs (p ++ s) sub (length p + j) <-> occurs s sub j.
Proof.
  split; intros H k c Hk; specialize (H k c Hk).
  - rewrite lookup_app_r in H by lia. rewrite <- H. f_equal. lia.
  - rewrite lookup_app_r by lia. rewrite <- H. f_equal. lia.
Qed.

Lemma occurs_app sub s : occurs (sub ++ s) sub 0.
Proof. intros k c Hk. cbn. by apply lookup_app_l_Some. Qed.

(** ** A spliced document *)
Definition document (pre between post : bytes) : bytes := (pre ++ tableStart) ++ between ++ tableEnd ++ post.

(** The start marker is the first, and no end marker is before it. *)
Definition opened (pre : bytes) : Prop :=
  (forall j, (j < length pre)%nat -> ~ occurs (pre ++ tableStart) tableStart j) /\
  (forall j, (j <= length pre)%nat -> ~ occurs (pre ++ tableStart) tableEnd j).

(** The end marker behind a text is the first one in it. *)
Definition closed (between post : bytes) : Prop :=
  forall j, (j < length between)%nat -> ~ occurs (between ++ tableEnd ++ post) tableEnd j.

Lemma document_index pre between post : opened pre -> closed between post ->
  Index (document pre between post) tableStart = Some (length pre) /\
  Index (document pre between post) tableEnd = Some (length (pre ++ tableStart) + length between)%nat.
Proof.
  intros [Hs He] Hc. split; apply Index_spec; try done; split.
  - unfold document. rewrite <- app_assoc, <- (Nat.add_0_r (length pre)). apply occurs_shift, occurs_app.
  - intros j Hj Ho. apply (Hs j Hj). rewrite <- (app_nil_r (pre ++ tableStart)). eapply occurs_prefix; [|exact Ho]. rewrite length_app. lia.
  - unfold document. apply occurs_shift. rewrite <- (Nat.add_0_r (length between)). apply occurs_shift, occurs_app.
  - intros j Hj Ho. assert (length tableEnd = 24%nat /\ length tableStart = 26%nat) as [Le Ls] by done.
    destruct (decide (j <= length pre)%nat) as [Hp|Hp].
    { apply (He j Hp). rewrite <- (app_nil_r (pre ++ tableStart)). eapply occurs_prefix; [|exact Ho]. rewrite length_app. lia. }
    destruct (decide (j < length (pre ++ tableStart))%nat) as [Hq|Hq].
    { assert (length pre + length tableStart <= j)%nat; [|rewrite length_app in Hq; lia].
      eapply (markers_apart (document pre between post)); [|exact Ho|lia].
      unfold document. rewrite <- app_assoc, <- (Nat.add_0_r (length pre)). apply occurs_shift, occurs_app. }
    apply (Hc (j - length (pre ++ tableStart))%nat); [lia|]. apply (occurs_shift (pre ++ tableStart)).
    by replace (length (pre ++ tableStart) + (j - length (pre ++ tableStart)))%nat with j by lia.
Qed.

(** A table without the end marker can stand between the markers. *)
Lemma table_closed table post : contains table tableEnd = false -> closed ([LF; LF] ++ table ++ [LF]) post.
Proof.
  intros Ht j Hj Ho. rewrite contains_spec in Ht by done. assert (length tableEnd = 24%nat) as Le by done.
  rewrite <- app_assoc in Ho. destruct j as [|[|j]]; [by specialize (Ho 0%nat x3c eq_refl)..|].
  apply (proj1 (occurs_shift [LF; LF] _ _ j)) in Ho. cbn in Hj. rewrite length_app in Hj. cbn in Hj.
  rewrite <- app_assoc in Ho. change ([LF] ++ tableEnd ++ post) with (LF :: tableEnd ++ post) in Ho.
  pose proof (Ho 0%nat x3c eq_refl) as H0. rewrite Nat.add_0_r in H0.
  destruct (decide (j + 24 <= length table)%nat) as [Hin|Hin].
  - apply (Ht j). rewrite <- (app_nil_r table). eapply occurs_prefix; [|exact Ho]. lia.
  - destruct (decide (j = length table)) as [->|Hne]; [by rewrite list_lookup_middle in H0|].
    destruct (lookup_lt_is_Some_2 tableEnd (length table - j)) as [c Hc]; [lia|]. pose proof (Ho _ _ Hc) as H1.
    replace (j + (length table - j))%nat with (length table) in H1 by lia. rewrite list_lookup_middle in H1 by done. injection H1 as <-.
    by apply end_no_newline in Hc.
Qed.

Lemma spliced_document pre between post table : opened pre -> closed between post ->
  spliced (document pre between post) table = Some (document pre ([LF; LF] ++ table ++ [LF]) post).
Proof.
  intros Ho Hc. destruct (document_index pre between post Ho Hc) as [Es Ee]. unfold spliced. rewrite Es, Ee.
  assert ((length (pre ++ tableStart) + length between <? length pre)%nat = false) as -> by (apply Nat.ltb_ge; rewrite length_app; lia).
  f_equal. unfold document. rewrite <- length_app, take_app_length, <- drop_drop, drop_app_length, drop_app_length.
  by rewrite <- !app_assoc.
Qed.

(** What a splice found. *)
Lemma spliced_inv content table text : spliced content table = Some text ->
  exists pre between post, content = document pre between post /\ opened pre /\ closed between post.
Proof.
  unfold spliced. destruct (Index content tableStart) as [si|] eqn:Es; [|done]. destruct (Index content tableEnd) as [ei|] eqn:Ee; [|done].
  destruct (Nat.ltb_spec ei si) as [|Hle]; [done|]. intros _. apply Index_spec in Es as [Hs Hs']; [|done]. apply Index_spec in Ee as [He He']; [|done].
  pose proof (markers_apart content si ei Hs He Hle) as Hap.
  apply has_prefix_occurs, bool_decide_eq_true in Hs. apply has_prefix_occurs, bool_decide_eq_true in He.
  set (pre := take si content). set (between := drop (si + length tableStart) (take ei content)). set (post := drop (ei + length tableEnd) content).
  assert (length content >= ei)%nat as Hlen.
  { destruct (decide (ei <= length content)%nat); [lia|]. rewrite drop_ge, take_nil in He by lia. done. }
  assert (take (si + length tableStart) content = pre ++ tableStart) as Epre.
  { rewrite <- Hs at 2. unfold pre. by rewrite take_take_drop. }
  assert (drop ei content = tableEnd ++ post) as Epost.
  { rewrite <- He at 1. unfold post. rewrite <- drop_drop. by rewrite take_drop. }
  assert (content = document pre between post) as E.
  { unfold document. rewrite <- Epre, <- Epost. unfold between. rewrite <- (take_drop ei content) at 1. rewrite app_assoc. f_equal.
    rewrite <- (take_drop (si + length tableStart) (take ei content)) at 1. by rewrite take_take, Nat.min_l by lia. }
  exists pre, between, post. split; [done|]. assert (length pre = si) as Lpre by (unfold pre; rewrite length_take; lia).
  assert (forall sub j, (j + length sub <= length (pre ++ tableStart))%nat -> occurs (pre ++ tableStart) sub j -> occurs content sub j) as Hc.
  { intros sub j Hj Ho. rewrite E. unfold document. eapply (occurs_prefix _ []); [done|]. by rewrite app_nil_r. }
  split; [split|].
  - intros j Hj Ho. apply (Hs' j); [lia|]. apply Hc; [rewrite length_app; lia|done].
  - intros j Hj Ho. apply (He' j); [cbn in Hap; lia|]. apply Hc; [rewrite length_app; cbn; lia|done].
  - intros j Hj Ho. apply (He' (length (pre ++ tableStart) + j)%nat).
    + rewrite length_app, Lpre. unfold between in Hj. rewrite length_drop, length_take in Hj. lia.
    + rewrite E. unfold document. by apply occurs_shift.
Qed.

(** ** Rendered tables have no marker *)

(** A closed text without the bracket. *)
Ltac closed_plain := apply (bool_decide_unpack _); vm_compute; exact I.

Lemma digits_plain (l : bytes) : (forall x, x ∈ l -> 48 <= code x <= 57) -> x3c ∉ l.
Proof. intros H Hin%H. vm_compute in Hin. destruct Hin as [_ Hin]. by destruct Hin. Qed.

Lemma fraction_digits prec x : forall n, x ∈ fraction prec n -> 48 <= code x <= 57.
Proof.
  induction prec as [|prec IH]; intros n; cbn [fraction]; [by intros ?%elem_of_nil|].
  intros [Hx| ->%list_elem_of_singleton]%elem_of_app; [by eapply IH|]. pose proof (Z.mod_pos_bound n 10). rewrite code_byte_of; lia.
Qed.

Lemma fixed_plain neg n prec : 0 <= n -> x3c ∉ fixed neg n prec.
Proof.
  intros Hn. unfold fixed, decimal. pose proof (Z.pow_pos_nonneg 10 (Z.of_nat prec)).
  assert (x3c ∉ itoa_fuel 330 (n / 10 ^ Z.of_nat prec)) by (apply digits_plain; intros x Hx; eapply itoa_fuel_digits, Hx; apply Z.div_pos; lia).
  assert (x3c ∉ fraction prec (n mod 10 ^ Z.of_nat prec)) by (apply digits_plain; intros x; apply fraction_digits).
  rewrite !not_elem_of_app. split_and!; [destruct neg; closed_plain|done|].
  destruct prec as [|prec]; [closed_plain|]. rewrite not_elem_of_cons. by split.
Qed.

Lemma scaled_nonneg m e prec : 0 <= m -> 0 <= scaled m e prec.
Proof.
  intros Hm. unfold scaled, round_even. pose proof (Z.pow_pos_nonneg 10 (Z.of_nat prec)). destruct (Z.leb_spec 0 e).
  - pose proof (Z.pow_pos_nonneg 2 e). nia.
  - pose proof (Z.pow_pos_nonneg 2 (- e)). pose proof (Z.div_pos (m * 10 ^ Z.of_nat prec) (2 ^ (- e))). destruct (_ || _); nia.
Qed.

Lemma format_plain prec f : x3c ∉ format_f64 prec f.
Proof.
  destruct f as [s|[|]| |s m e]; cbn [format_f64]; try (by apply fixed_plain); try (apply fixed_plain, scaled_nonneg; lia);
    closed_plain.
Qed.

Lemma fmtLat_plain v : x3c ∉ fmtLat v.
Proof. unfold fmtLat. destruct (SpecFloat.SFleb _ _); [closed_plain|apply format_plain]. Qed.

Lemma commandRPS_plain trs cmd : x3c ∉ commandRPS trs cmd.
Proof. unfold commandRPS. destruct (find_command_row trs cmd); [apply format_plain|closed_plain]. Qed.

Lemma cell_plain s : x3c ∉ s -> x3c ∉ cell s.
Proof. intros Hs. unfold cell. rewrite !not_elem_of_app. split_and!; [|done|]; closed_plain. Qed.

Lemma render_row_plain r : x3c ∉ Server r -> x3c ∉ render_row r.
Proof.
  intros Hs. unfold render_row. destruct (getLatency _ _) as [p50 p99].
  destruct (match Hit r with Some h => (_, _) | None => (_, _) end) as [hit p999] eqn:E.
  assert ((x3c ∉ hit) /\ (x3c ∉ p999)) as [Hh Hp].
  { destruct (Hit r) as [h|]; injection E as <- <-; [split; [apply format_plain|apply fmtLat_plain]|split; closed_plain]. }
  rewrite !not_elem_of_app. split_and!; try apply cell_plain; auto using commandRPS_plain, fmtLat_plain; closed_plain.
Qed.

Lemma Join_plain sep l : x3c ∉ sep -> (forall s, s ∈ l -> x3c ∉ s) -> x3c ∉ Join l sep.
Proof.
  intros Hsep. induction l as [|s l IH]; intros Hl; [by intros ?%elem_of_nil|]. destruct l as [|s' l]; [apply Hl; by left|].
  cbn [Join]. rewrite !not_elem_of_app. split_and!; [apply Hl; by left|done|]. apply IH. intros; apply Hl. by right.
Qed.

Lemma RenderTable_plain suite : (forall n, n ∈ (Server <$> Results suite) ++ Skipped suite -> x3c ∉ n) -> x3c ∉ RenderTable suite.
Proof.
  intros Hn. unfold RenderTable. rewrite !not_elem_of_app. split_and!.
  - closed_plain.
  - intros (l & Hl & (r & -> & Hr)%list_elem_of_fmap)%list_elem_of_join. revert Hl. apply render_row_plain, Hn, elem_of_app. left.
    rewrite (sort_perm row_less) in Hr. by apply list_elem_of_fmap_2.
  - destruct (0 <? _)%nat; [|by intros ?%elem_of_nil]. rewrite not_elem_of_cons, !not_elem_of_app. split; [done|]. split_and!.
    + closed_plain.
    + apply Join_plain; [closed_plain|]. intros s Hs. rewrite Strings_perm in Hs. apply Hn, elem_of_app. by right.
    + closed_plain.
    + closed_plain.
Qed.

(** ** Theorem *)

(** C25. Splicing.  When the table of a suite, whose names have no angle bracket, is put
    into a document, the text before and behind the markers and the markers themselves
    are kept, the table is all that is between them, and the result can be spliced again
    as if it were the original: the markers are found at the same places, for any next
    table. *)
Theorem splice_correct (content text : bytes) (suite : Suite) :
  (forall n, n ∈ (Server <$> Results suite) ++ Skipped suite -> x3c ∉ n) ->
  spliced content (RenderTable suite) = Some text ->
  exists pre between post, content = pre ++ tableStart ++ between ++ tableEnd ++ post /\
    text = pre ++ tableStart ++ [LF; LF] ++ RenderTable suite ++ [LF] ++ tableEnd ++ post /\
    forall next, spliced text next = spliced content next /\ is_Some (spliced text next).
Proof.
  intros Hn E. destruct (spliced_inv content _ text E) as (pre & between & post & -> & Ho & Hc).
  assert (contains (RenderTable suite) tableEnd = false) as Hplain.
  { apply contains_spec; [done|]. intros j Hj. apply (RenderTable_plain suite Hn). apply (list_elem_of_lookup_2 _ (j + 0)). by apply Hj. }
  rewrite spliced_document in E by done. apply (inj Some) in E as <-. exists pre, between, post. unfold document.
  split; [by rewrite <- app_assoc|]. split; [by rewrite <- !app_assoc|]. intros next.
  change ((pre ++ tableStart) ++ between ++ tableEnd ++ post) with (document pre between post).
  change ((pre ++ tableStart) ++ ([LF; LF] ++ RenderTable suite ++ [LF]) ++ tableEnd ++ post) with (document pre ([LF; LF] ++ RenderTable suite ++ [LF]) post).
  rewrite (spliced_document pre between post next), (spliced_document pre ([LF; LF] ++ RenderTable suite ++ [LF]) post next) by (done || by apply table_closed). by split.
Qed.

(** ** Witness *)
Definition demo_suite : Suite := MkSuite [MkResult (B "redis") [] None] [B "valkey"].

Lemma splice_correct_witness : exists pre between post,
  B "# Results <!-- BENCH:TABLE:START -->old<!-- BENCH:TABLE:END --> end" = pre ++ tableStart ++ between ++ tableEnd ++ post.
Proof.
  destruct (splice_correct (B "# Results <!-- BENCH:TABLE:START -->old<!-- BENCH:TABLE:END --> end")
    (B "# Results <!-- BENCH:TABLE:START -->" ++ [LF; LF] ++ RenderTable demo_suite ++ [LF] ++ B "<!-- BENCH:TABLE:END --> end") demo_suite) as (pre & between & post & E & _).
  - intros n Hn. apply elem_of_cons in Hn as [->|Hn]; [closed_plain|]. apply elem_of_cons in Hn as [->|Hn]; [closed_plain|]. by apply elem_of_nil in Hn.
  - vm_compute. reflexivity.
  - by exists pre, between, post.
Defined.
