(* ===== verification/EventSession.v ===== *)
(** * The event loop: a connection

    A connection of the event engine from [OnOpen] on: however the network splits a
    client's commands, each is served once, and what is left of the last one is held
    for the next piece. *)
From S2P Require Import Prelude Hash Table TableSpec ShardMap ShardMapSpec Policy.
From S2P Require Import Cache CacheSpec CacheOps CacheProps.
From S2P Require Import Resp RespSpec Writer WriterSpec Replies Server ServerSpec ServerCache ServerProps.
From S2P Require Import Session SessionSpec SessionProps EventLoop EventLoopSpec.

(** ** Pieces of canonical input *)

(** The part of a command behind the complete ones. *)
Definition partial (p : bytes) : Prop := p = [] \/ exists args, within default_limits args /\ cut_short p (encode_command args).

Definition commands_text (cmds : list (list bytes)) : bytes := concat (encode_command <$> cmds).

Lemma partial_prefix a b : partial (a ++ b) -> partial a.
Proof.
  intros [E|(args & Hw & x & l & E)].
  - left. by destruct a.
  - destruct a as [|c a]; [by left|]. right. exists args. split; [done|]. rewrite <- app_assoc in E.
    destruct b as [|y b]; [by exists x, l|]. by exists y, (b ++ x :: l).
Qed.

(** Any part of an input is complete commands and a partial one. *)
Lemma split_prefix cmds p : Forall (within default_limits) cmds -> partial p -> forall a b, a ++ b = commands_text cmds ++ p ->
  exists cmds1 cmds2 p1, cmds = cmds1 ++ cmds2 /\ a = commands_text cmds1 ++ p1 /\ partial p1 /\ p1 ++ b = commands_text cmds2 ++ p.
Proof.
  intros Hc Hp. induction Hc as [|args cmds Hw _ IH]; intros a b E.
  - cbn in E. subst p. exists [], [], a. split_and!; [done|done|by eapply partial_prefix|done].
  - unfold commands_text in E. cbn [fmap list_fmap concat] in E. rewrite <- app_assoc in E. apply app_eq_app in E as (l & [[-> E]|[Ek ->]]).
    + destruct (IH l b) as (cmds1 & cmds2 & p1 & -> & -> & Hp1 & E1); [done|]. exists (args :: cmds1), cmds2, p1. split_and!; try done.
      unfold commands_text. cbn [fmap list_fmap concat]. by rewrite <- app_assoc.
    + destruct l as [|x l].
      * rewrite app_nil_r in Ek. subst a. exists [args], cmds, []. split_and!; [done| |by left|done].
        unfold commands_text. cbn. by rewrite !app_nil_r.
      * exists [], (args :: cmds), a. split_and!; [done|done| |].
        -- right. exists args. split; [done|]. by exists x, l.
        -- unfold commands_text. cbn [fmap list_fmap concat]. rewrite Ek, <- !app_assoc. done.
Qed.

(** A partial command is not a whole one. *)
Lemma partial_none p cmds q : Forall (within default_limits) cmds -> partial p -> p = commands_text cmds ++ q -> cmds = [] /\ q = p.
Proof.
  intros Hc Hp E. destruct Hc as [|args cmds Hw _]; [done|]. exfalso. unfold commands_text in E. cbn [fmap list_fmap concat] in E.
  rewrite <- app_assoc in E. pose proof (parse_ok args (concat (encode_command <$> cmds) ++ q) Hw) as H. rewrite <- E in H.
  destruct Hp as [->|(args' & Hw' & Hcut)]; [done|]. by rewrite (parse_need args') in H.
Qed.

Lemma ev_parses_det q cmds e k : ev_parses q cmds e k -> forall cmds' e' k', ev_parses q cmds' e' k' -> cmds' = cmds /\ e' = e /\ k' = k.
Proof.
  induction 1 as [q E|q msg E|q args n cmds e k E _ IH]; intros cmds' e' k' H'; inversion H'; subst; try congruence.
  - split_and!; congruence.
  - split_and!; congruence.
  - match goal with E' : parseCommand q = PArgs ?args' ?n', Hp : ev_parses (drop ?n' q) _ _ _ |- _ => rewrite E in E'; injection E' as <- <-; destruct (IH _ _ _ Hp) as (-> & -> & ->) end.
    done.
Qed.

(** ** The session *)
Section event_session.
Context {G : Type} `{!Engine G} `{!EngineLaws G} (cap : nat) (e0 : ioerr).
Context (timeNow : G -> Z * G) (unicode_lower : bytes -> bytes) (ctx_text : Z -> bytes) (cfg : Config G).
Hypothesis now_inv : forall g, einv g -> einv (snd (default timeNow (Now cfg) g)).
Hypothesis now_accepts : forall g k v, accepts g k v -> accepts (snd (default timeNow (Now cfg) g)) k v.
Hypothesis version_len : in_i64 (Z.of_nat (length (Version cfg))).

(** Every write the client asks for finds room in the engine, event by event. *)
Fixpoint session_admissible (st : conn * G) (held : bytes) (pieces : list bytes) : Prop :=
  match pieces with
  | [] => True
  | p :: pieces => forall cmds k, ev_parses (held ++ p) cmds None k ->
      ev_admissible timeNow unicode_lower ctx_text cfg st cmds /\
      forall rest st', OnTraffic timeNow unicode_lower ctx_text cfg (held ++ p) st = Ret (rest, ActNone, st') ->
        session_admissible st' (drop k (held ++ p)) pieces
  end.

Lemma session_admissible_reads pieces : forall cmds p held st, Forall (within default_limits) cmds -> partial p ->
  Forall (fun args => asciiUpper <$> head args <> Some (B "SET")) cmds -> held ++ mjoin pieces = commands_text cmds ++ p ->
  session_admissible st held pieces.
Proof.
  induction pieces as [|piece pieces IH]; intros cmds p held st Hc Hp Hs E; cbn [session_admissible]; [done|].
  intros cmds' k Hp'. change (mjoin (piece :: pieces)) with (piece ++ mjoin pieces) in E. rewrite app_assoc in E.
  destruct (split_prefix cmds p Hc Hp _ _ E) as (cmds1 & cmds2 & p1 & -> & Ea & Hp1 & E2).
  apply Forall_app in Hc as [Hc1 Hc2]. apply Forall_app in Hs as [Hs1 Hs2]. rewrite Ea in *.
  destruct (ev_parses_det _ _ _ _ (ev_parses_canonical cmds1 p1 Hc1 Hp1) _ _ _ Hp') as (-> & _ & ->).
  split; [by apply ev_admissible_reads|]. intros rest st' _. unfold commands_text. rewrite drop_app_length. by apply (IH cmds2 p).
Qed.

Local Abbreviation dispatched := (dispatched cap e0 timeNow unicode_lower ctx_text cfg).
Local Abbreviation answers := (answers cap e0 timeNow unicode_lower ctx_text cfg).

(** One event of canonical input: the connection stays open with every command
    dispatched, or is closed with a reply after which nothing is answered. *)
Lemma traffic_event cmds p st out : Forall (within default_limits) cmds -> partial p -> between cap e0 st out ->
  ev_admissible timeNow unicode_lower ctx_text cfg st cmds ->
  exists rest act st' rs, OnTraffic timeNow unicode_lower ctx_text cfg (commands_text cmds ++ p) st = Ret (rest, act, st') /\
    between cap e0 st' (out ++ wire (concat rs)) /\
    ((act = ActNone /\ rest = p /\ dispatched st out cmds rs st') \/
     (act = ActClose /\ (existsb quits cmds = true \/ (cap < length (out ++ wire (concat rs)))%nat) /\
      forall more, answers st out (cmds ++ more) None rs st')).
Proof.
  intros Hc Hp [Ho _ Hwf Hg] Ha. pose proof (ev_parses_canonical cmds p Hc Hp) as Hparse. fold (commands_text cmds) in Hparse.
  destruct (traffic_ok cap e0 timeNow unicode_lower ctx_text cfg now_inv now_accepts version_len _ _ _ _ Hparse
    (S (length (commands_text cmds ++ p))) (commands_text cmds ++ p) 0 st out eq_refl (ev_parses_short _ _ _ _ Hparse) Ho Hwf Hg Ha)
    as ([[consumed stop] st1] & rs & E & Hend & Ho1 & Hc1 & Hg1).
  destruct (flush_between cap e0 st1 _ Ho1 Hc1 Hg1) as (err & st2 & E2 & Hb & _).
  exists (drop consumed (commands_text cmds ++ p)), (if stop then ActClose else ActNone), st2, rs.
  split; [unfold OnTraffic; rewrite E; cbn [mbind outcome_bind]; rewrite E2; done|]. split; [done|].
  destruct Hend as [(-> & _ & -> & Hd)|[(_ & [? [=]] & _)|(-> & Hcl & H)]]; [left|right].
  - split_and!; [done|apply drop_app_length|]. rewrite <- (app_nil_r cmds), <- (app_nil_r rs).
    eapply dispatched_app; [done|]. eapply disp_flush; [done|apply disp_nil].
  - split_and!; [done..|]. intros more. exists st1. split; [apply H|eauto].
Qed.

Lemma session_ok pieces : forall cmds p held c g out, Forall (within default_limits) cmds -> partial p -> partial held ->
  held ++ mjoin pieces = commands_text cmds ++ p -> between cap e0 (c, g) out -> session_admissible (c, g) held pieces ->
  exists rest closed c' g' rs, ev_session timeNow unicode_lower ctx_text cfg (Some c) held pieces g = Ret (rest, closed, Some c', g') /\
    between cap e0 (c', g') (out ++ wire (concat rs)) /\ answers (c, g) out cmds None rs (c', g') /\
    (closed = existsb quits cmds \/ closed = true /\ (cap < length (out ++ wire (concat rs)))%nat) /\
    (closed = false -> rest = p /\ dispatched (c, g) out cmds rs (c', g')).
Proof.
  induction pieces as [|piece pieces IH]; intros cmds p held c g out Hc Hp Hh E Hb Ha; cbn [ev_session].
  - cbn in E. rewrite app_nil_r in E. destruct (partial_none held cmds p Hc Hh E) as [-> ->].
    exists held, false, c, g, []. cbn. rewrite app_nil_r. split_and!; [done|done| |by left|].
    + exists (c, g). split; [apply answered_ends, end_input|by left].
    + intros _. split; [done|constructor].
  - change (mjoin (piece :: pieces)) with (piece ++ mjoin pieces) in E. rewrite app_assoc in E.
    destruct (split_prefix cmds p Hc Hp _ _ E) as (cmds1 & cmds2 & p1 & -> & Ea & Hp1 & E2).
    apply Forall_app in Hc as [Hc1 Hc2]. cbn [session_admissible] in Ha. rewrite Ea in *.
    destruct (Ha _ _ (ev_parses_canonical cmds1 p1 Hc1 Hp1)) as [Ha1 Ha2]. rewrite drop_app_length in Ha2.
    destruct (traffic_event cmds1 p1 (c, g) out Hc1 Hp1 Hb Ha1) as (rest & act & [c1 g1] & rs & Et & Hb1 & Hcase).
    cbn [serve_traffic]. rewrite Et. cbn [mbind outcome_bind fst snd]. rewrite existsb_app.
    destruct Hcase as [(-> & -> & Hd)|(-> & Hcl & H)].
    2:{ exists rest, true, c1, g1, rs. split_and!; [done|done|apply H| |done]. destruct Hcl as [->|?]; [by left|by right]. }
    pose proof (dispatched_replies _ _ _ _ _ _ _ _ _ _ _ Hd) as (_ & Hq & _). rewrite Hq. cbn [orb].
    destruct (IH cmds2 p p1 c1 g1 (out ++ wire (concat rs)) Hc2 Hp Hp1 E2 Hb1 (Ha2 _ _ Et))
      as (rest & closed & c' & g' & rs' & Es & Hb' & (st2 & Hans & Hf) & Hcl & Hopen).
    exists rest, closed, c', g', (rs ++ rs'). rewrite Es, concat_app, wire_app, app_assoc. split_and!; try done.
    + exists st2. split; [by eapply answered_app|done].
    + intros [-> Hd2]%Hopen. split; [done|]. by eapply dispatched_app.
Qed.
End event_session.

(** C21. A connection on the event loop.  Over any engine that obeys its laws and for
    every split of a client's bytes into pieces, the replies of a connection opened by
    [OnOpen] [answers] the commands: each non-empty command is dispatched once, in
    order, in the state the one before it left, however the pieces cut it, and the
    reply listed for it is what [dispatch] wrote for it, up to the first QUIT.  The
    client decodes exactly the replies its side of the connection took.  The connection
    is closed when the client quit; otherwise it holds exactly the bytes of the command
    that is not complete, unless a command saw its reply fail and closed it. *)
Theorem event_session_replies {G : Type} `{!Engine G} `{!EngineLaws G} (cap : nat) (e0 : ioerr)
    (timeNow : G -> Z * G) (unicode_lower : bytes -> bytes) (ctx_text : Z -> bytes) (cfg : Config G)
    (pieces : list bytes) (nextID : Z) (g : G) (cmds : list (list bytes)) (p : bytes) :
  let '(ctx, act, _) := OnOpen (MkSink [] cap e0) nextID in
  (forall g, einv g -> einv (snd (default timeNow (Now cfg) g))) ->
  (forall g k v, accepts g k v -> accepts (snd (default timeNow (Now cfg) g)) k v) ->
  in_i64 (Z.of_nat (length (Version cfg))) -> einv g ->
  Forall (within default_limits) cmds -> partial p -> mjoin pieces = commands_text cmds ++ p ->
  (forall c0, ctx = Some c0 -> session_admissible timeNow unicode_lower ctx_text cfg (c0, g) [] pieces) ->
  act = ActNone /\
  exists rest closed c' g' replies,
    ev_session timeNow unicode_lower ctx_text cfg ctx [] pieces g = Ret (rest, closed, Some c', g') /\
    (forall c0, ctx = Some c0 ->
       answers cap e0 timeNow unicode_lower ctx_text cfg (c0, g) [] cmds None replies (c', g')) /\
    Forall one_reply replies /\ einv g' /\
    let received := accepted (wsink (bw (cw c'))) in
    received = take cap (wire (concat replies)) /\
    fst (decode_all (S (length received)) received) = whole_frames cap (concat replies) /\
    ((length replies = owed_replies cmds None /\ closed = existsb quits cmds /\ (closed = false -> rest = p)) \/
     (closed = true /\ (length replies <= owed_replies cmds None)%nat /\ (cap < length (wire (concat replies)))%nat)).
Proof.
  unfold OnOpen. intros Hn1 Hn2 Hv Hg Hc Hp E Ha. split; [done|].
  destruct (session_ok cap e0 timeNow unicode_lower ctx_text cfg Hn1 Hn2 Hv pieces cmds p [] (newConnWriter (MkSink [] cap e0) (u64 (nextID + 1))) g [])
    as (rest & closed & c' & g' & rs & Es & [Ho Hfl Hwf Hg'] & Hans & Hcl & Hopen); try done; [by left| |by apply Ha|].
  { split; [apply emitted_new|cbn; by destruct cap|split; cbn; lia|done]. }
  destruct (answers_replies _ _ _ _ _ _ _ _ _ _ _ _ Hans) as [Hr Hn].
  exists rest, closed, c', g', rs. cbn [app fst snd] in *. split_and!; try done; [by intros c0 [= <-]| |].
  2:{ destruct closed.
      - destruct Hcl as [Hcl|[_ Hlt]]; [destruct Hn as [Hn|[? ?]]; [left|right]; by split_and!|right; split_and!; [done|lia|done]].
      - destruct (Hopen eq_refl) as [-> (_ & Hq & Hl)%dispatched_replies]. left. by rewrite Hq. }
  rewrite Hfl. apply decode_all_ok; [|unfold wire; cbn [length]; lia].
  clear -Hr. induction Hr as [|fs rs [_ Hv] _ IH]; [constructor|]. cbn [concat]. by apply Forall_app.
Qed.

(** ** Witness *)
Lemma event_session_replies_witness : exists rest closed c' g' replies,
  ev_session cache_now (fun b => b) (fun _ => []) demo_cfg (fst (fst (OnOpen (MkSink [] 1000 IoEOF) 6))) []
    [B "*1"; CRLF ++ B "$4" ++ CRLF ++ B "PI"; B "NG" ++ CRLF ++ encode_command [B "exists"; B "key"] ++ B "*2"] (dcache1 0 0 0, DEnv 120 0 1)
    = Ret (rest, closed, Some c', g') /\
  answers 1000 IoEOF cache_now (fun b => b) (fun _ => []) demo_cfg (newConnWriter (MkSink [] 1000 IoEOF) 7, (dcache1 0 0 0, DEnv 120 0 1)) []
    [[B "PING"]; [B "exists"; B "key"]] None replies (c', g') /\ (length replies <= 2)%nat.
Proof.
  destruct (event_session_replies 1000 IoEOF cache_now (fun b => b) (fun _ => []) demo_cfg
    [B "*1"; CRLF ++ B "$4" ++ CRLF ++ B "PI"; B "NG" ++ CRLF ++ encode_command [B "exists"; B "key"] ++ B "*2"] 6
    (dcache1 0 0 0, DEnv 120 0 1) [[B "PING"]; [B "exists"; B "key"]] (B "*2")) as (_ & rest & closed & c' & g' & rs & E & Hans & _ & _ & _ & _ & Hn).
  - exact demo_now.
  - exact demo_now_accepts.
  - done.
  - exact dcache1_ok.
  - repeat (constructor; [split; [vm_compute; discriminate|repeat (constructor; [vm_compute; discriminate|]); constructor]|]). constructor.
  - right. exists [B "a"; B "b"]. split; [split; [vm_compute; discriminate|repeat (constructor; [vm_compute; discriminate|]); constructor]|].
    eexists _, _. vm_compute. reflexivity.
  - vm_compute. reflexivity.
  - intros c0 _. eapply (session_admissible_reads cache_now (fun b => b) (fun _ => []) demo_cfg _ [[B "PING"]; [B "exists"; B "key"]] (B "*2")).
    + repeat (constructor; [split; [vm_compute; discriminate|repeat (constructor; [vm_compute; discriminate|]); constructor]|]). constructor.
    + right. exists [B "a"; B "b"]. split; [split; [vm_compute; discriminate|repeat (constructor; [vm_compute; discriminate|]); constructor]|].
      eexists _, _. vm_compute. reflexivity.
    + repeat (constructor; [discriminate|]). constructor.
    + vm_compute. reflexivity.
  - exists rest, closed, c', g', rs. split; [exact E|]. split; [exact (Hans _ eq_refl)|].
    destruct Hn as [[Hl _]|(_ & Hl & _)]; [rewrite Hl; vm_compute; lia|exact Hl].
Defined.
